(* ===== verification/_CoqProject ===== *)
-Q . S2P
Prelude.v
PyText.v
UsageLimit.v
Failures.v
CircuitBreaker.v
EndpointHealth.v
KeyPool.v
KeyRotation.v
WaitLine.v
UpstreamLimiter.v
Offload.v
FixedRouter.v
Quota.v
SpendLedger.v
PrefillLoad.v
RouteSelection.v
Request.v
UserAdmission.v
GrantToken.v
VersionedCache.v
ModelAccess.v
GrantAccess.v
AuthBlocklist.v
KeyAuth.v
AutoMode.v
HybridFrames.v
AutoRequest.v
BatchStore.v
BatchClaims.v
BatchDisplay.v
BatchWorker.v
PendingPrefix.v
RouteEstimates.v
ResourcePools.v
RouteCandidates.v
RouteWise.v
RouteWiseDispatch.v
HedgeRace.v
ProbeGate.v
PrefixMemory.v
ModelRouters.v
HybridRouter.v
HybridChat.v
HybridStream.v
HybridFeedback.v
HybridComposition.v
