(* ===== verification/Prelude.v ===== *)
(** * HybridInference gateway: a verification development

    The program is an inference gateway (src/apps/backend).  A request for a
    model is sent to one of several endpoints; the gateway remembers how each
    endpoint behaves, rotates over the API keys of a provider, limits how many
    requests it has in flight per account, falls back to other routes, and
    charges what the request cost.  This library models the parts that decide
    those things and proves what they promise.

    ** The parts, and where they are modelled

    - [PyText]: the pieces of Python the sources lean on for text: character
      classes, [lower]/[split]/[strip], substring tests and the backtracking
      [re] matcher.
    - [UsageLimit] (routing/usage_limit.py): recognising a spent subscription
      window in an upstream's error text, and for how long to stay quiet.
    - [Failures] (routing/endpoint_health.py, serving/adapters): the exception
      classes, the status of an exception, and which failures an endpoint is
      charged with.
    - [CircuitBreaker] (routing/endpoint_health.py): one endpoint's moving
      availability and its circuit, with half-open probes and the gates between
      a trip and its page.
    - [EndpointHealth] (same file): the registry over all endpoints.
    - [KeyPool] (serving/adapters/key_pool.py): the keys of one provider, their
      tiers, cooldowns and the callers bound to them.
    - [KeyRotation] (serving/adapters/openai_compat.py, [_post_with_pool] and
      [_open_stream_with_pool]): one request over a pool.
    - [WaitLine], [UpstreamLimiter] (serving/adapters/upstream_limiter.py): the
      queue of futures, the AIMD bucket of an account, the gate of a local
      engine, and the limiter over them.
    - [Offload] (routing/offload.py, routing/engine_wait.py): the offload policy,
      the order in which a request walks the rest of its route, and the watch
      over the first token.
    - [FixedRouter] (routing/routers.py, [chat_completion] and
      [stream_chat_completion] from the primary attempt on): the walk itself,
      over the registry and the order, and the error it reports.
    - [Quota] (serving/quota.py), [SpendLedger] (serving/spend_ledger.py): the
      four spending limits, and the spend the counters do not show yet.
    - [PrefillLoad] (routing/prefill_load.py): the prefills each endpoint is
      working on, the prefixes it holds, and the weighted choice of two.
    - [RouteSelection] (routing/routers.py, routing/endpoints.py): the route
      table, weights, affinity pins, the hold-back of offload routes, the choice
      of a primary and its claim.
    - [Request] (routing/routers.py): a whole request, from selection to the
      release of its prefill leases.
    - [UserAdmission] (serving/servers/concurrency.py, serving/batch/
      interactive_load.py): what a caller's request takes before it runs and
      gives back after.
    - [GrantToken], [GrantAccess] (serving/grants.py, serving/grant_auth.py, the
      agent-grant router and the rows of its table): the tokens of delegated
      runs, minting, renewal, revocation and the calls made with them.
    - [VersionedCache] (serving/config/model_visibility.py,
      model_concurrency.py): administrators' overrides behind a fenced cache.
    - [ModelAccess] (serving/model_access.py, model_catalog.py): who may use, and
      who sees, a model.
    - [AuthBlocklist] (serving/utils/auth_failure_blocklist.py, request_ip.py): the
      sources refused after repeated authentication failures; [KeyAuth]
      (serving/servers/auth.py and the rows it reads): who a request with an API
      key is, and who owns work stored under one.
    - [AutoMode] (routing/model_selection, serving/auto_mode.py): the tiers of the
      auto models, their sessions and the model that serves a request;
      [AutoRequest] (serving/auto_mode.py): the request and the answer around that
      choice.
    - [BatchStore] (serving/storage/batch_store.py): batches, their items and
      attempts as the store's transactions change them; [BatchClaims]: the order
      in which claims hand items out; [BatchDisplay] (serving/batch/
      renderers.py): the status and category shown, and their SQL; [BatchWorker]
      (serving/batch/scheduler.py): what a worker does with an item it claimed.
    - RouteWise (routing/routewise): [PendingPrefix] (prefix_cache_pending.py), the
      prefixes stashed until a request's outcome is known; [RouteEstimates]
      (latency.py, predictor.py, envelope.py), the windows that latency, output and
      cost estimates come from; [ResourcePools] (concurrency.py, quota.py), slots and
      quota counts; [RouteCandidates] (candidates.py and the router's pools), the
      routes as candidates and what a commit takes from the pools and the circuit;
      [RouteWise] (lp.py, effective_cost.py, router.py), the feasible set, the
      budgeted program and the choice; [RouteWiseDispatch] (router.py, decisions.py),
      the loop of attempts around it; [HedgeRace] (hedging.py, router.py), the backup
      of an attempt and its race with the primary; [PrefixMemory] (prefix_cache.py),
      the prompt prefixes providers have seen; [ProbeGate] (router.py), the places of
      latency probes, a line of [WaitLine].
    - [ModelRouters] (routing/model_router_registry.py, routing/strategies): the router
      of each model, made on first use, and changes of its strategy.
    - The hybrid layer: [HybridFrames] (routing/hybrid_stream_frames.py,
      serving/openai_chat_serializer.py), the frames of a stream, what is written
      into them and which ones a client sees; [HybridRouter] (routing/hybrid.py,
      hybrid_attempt_history.py, dispatch.py, decisions.py), one decision per
      request, the plan of attempts over two backends and the walks over it, with
      policy and backends as the classes [BackendSelection] and [RoutingBackend];
      [HybridChat], [HybridStream] and [HybridFeedback], the theorems about an
      answer, a stream and feedback; [HybridComposition] (routing/policies.py,
      backends.py, route_scope.py, serving/servers/hybrid_composition.py), the
      shipped policy and pools over one shared [RouteSelection], as instances of
      those classes.

    A router asks the registry for a dispatch claim, the adapter takes a key
    from the pool and a slot from the limiter, the outcome goes back to all
    three, and the cost to the ledger.  [FixedRouter] is built on
    [EndpointHealth] and [Offload], [KeyRotation] on [KeyPool], [SpendLedger] on
    [Quota], [Request] on [RouteSelection], [PrefillLoad] and [FixedRouter],
    [RouteWiseDispatch] on [RouteWise], which is built on [RouteCandidates],
    [RouteEstimates], [PendingPrefix] and [EndpointHealth],
    [UserAdmission] on [SpendLedger], [GrantAccess] on [GrantToken] and
    [ModelAccess], [KeyAuth] on [AuthBlocklist], [SpendLedger] and [GrantAccess],
    [AutoRequest] on [AutoMode], which is built on [ModelAccess], [BatchClaims], [BatchDisplay] and [BatchWorker] on
    [BatchStore], [HybridComposition] on [RouteSelection] and [HybridRouter]; the
    handlers of the two rotation loops meet the loop through
    the class [RotationHandler].

    ** How the code is read

    An object is a record and a method a function from the record to the record,
    the answer and the effects it started.  Code between two awaits is one step;
    where a method awaits it is split, and the theorems quantify over whatever
    other tasks do in between, either as an arbitrary list of operations at each
    await or as an arbitrary interleaving of steps.  Clock readings, the running
    loop and the request's context are arguments.  An exception is the [Raise]
    of [result], or a constructor of the answer.  Finite floats are the rationals
    they denote and arithmetic on them is exact; instants of [datetime] are
    microseconds, with its range and its [OverflowError].  Identity of Python
    objects is a number; shared futures are positions in a list of claims that
    every holder refers to.  A database transaction is one step under the locks
    it takes; [now()] is its start and [clock_timestamp()] the clock.  Logs and alert texts appear as effects where a
    theorem speaks of them, and are left out elsewhere.

    Parameters: what [operator_safe_error] and [str] make of an exception
    ([ErrorText], [ErrorTexts], [Exceptions]); the configuration of adapters
    ([Adapters], [RouteConfigs], [Pricing]); what the store answers a write; random
    draws; the local time zone ([LocalTime]); the keyed digest that signs a token
    ([Digests], with [DigestLaws]); the registered strategies ([Strategies]); the optimiser of the package [llm_routewise]
    ([RouteWiseCore] and [HedgeCore], with [CoreOk] and [HedgeCoreOk] for what the
    router relies on); what [str] makes of a number and of an exception in a frame
    ([NumberText], [ErrorNames], with [TextLaws]).

    ** What the theorems show

    - Health: the registry is a product of independent endpoints (refinement);
      a streak opens a circuit; a half-open circuit admits one probe at a time,
      only its owner frees it, and no circuit stays shut for longer than a
      cooldown after its last operation; failures that are not the endpoint's
      leave no trace; availability is the moving average in closed form; plan
      pages keep their distance.
    - Keys: a lease is the key its caller is bound to, or else the best it may use,
      and a refusal is classified right; the pool's invariant; a rotation that
      nothing ends leases as many keys as it could use at its start, none twice, or
      stops for want of another, and one nobody disturbs leases every usable key; it
      gives its slots back; a caller is blacked out
      only briefly and for cause.
    - Limiter: in-flight counts are exact under every interleaving, limits stay
      within the configured ones, waiters are served in order and none waits while
      there is room, and only an engine's gate lets a timed-out wait through over
      its limit; the limit's growth in closed form; a 429 undoes a probe; slots come back once.
    - Router: every request ends, with every claim handed back; a response comes
      from one provider; refusals are not sprayed; the reported error is the one
      about the request; the walk over the order is finite, puts the offload
      route where it belongs and returns to a route it cut short.
    - Money: a gate counts everything recorded or reserved, so admissions cannot
      overshoot together; a refusal names the narrowest limit; a flush drains;
      rounding is the counter's own.
    - Selection: the primary is an allowed, available route drawn by weight, a
      claim is taken unless every route refuses, a pin decides while it is live
      and only so long; prefill books balance over every history, a discount is
      earned by a prefix really held, and anchors mean containment; a whole
      request returns every claim and lease however it ends.
    - Admission: every slot, reservation and load count a request takes is given
      back exactly once, and the separate budgets stay within their caps.
    - Access: a token is read back as the grant it was minted for; a call gets no
      more than the live grant, its owner and the catalogue allow; an override is in
      force for every lookup after the write.
    - Authentication: an authenticated caller presented a live key of an active,
      verified account within its limits, and acts for another user only with the
      service's key; stored work is admitted exactly when a request with its key
      would be; a source is blocked exactly when its recent failures earned it.
    - Auto mode: the model that serves is the one the session rules name among those
      the caller may use and that can take the request, and a refusal says why none
      can; an answer's stream names the model asked for whatever chunks it comes in;
      another model's thinking is not sent on once a session has switched.
    - Batches: the counters of a batch are what its rows say, an attempt is
      reported once and only by the worker holding it, a model's running items
      never exceed its cap, claims take turns between users, a sealed batch
      accounts for every request and never changes, filters in SQL select what the
      API shows; a worker hands back every item, slot and reservation however its
      attempt ends, and a retry waits out its back-off.
    - RouteWise: a selection is a route the request may use and owns exactly what it
      took, and a usable pay-per-token route is never passed over for nothing; a
      request ends after at most one attempt per endpoint, with every slot back; slots
      and probes in use are the reservations outstanding, over every history; quota
      answers are an exact count; latency profiles answer as a scan of the recent
      outcomes, envelopes and predictions stay within what was observed; the pending
      store is the bounded map of live stashes; a hedged attempt uses a route it may
      use, reports each leg once and gives its backup back however the race ends; the
      prefix memory answers for the last request of the very scope asked about, and
      keeps it while it is used; the probe gate counts exactly and serves in turn.
    - Model routers: a prepared change of strategy is published exactly when nothing
      changed the model meanwhile, and every router handed out is of its model's
      active strategy.
    - Hybrid: whatever backends and policy do, a request's calls are attempts of its
      plan in order, none repeated on an endpoint that ran and failed, and it ends
      with the answer or the error the rules name; a stream is never restarted once
      the client saw a part of it, and the hybrid and serving layers agree on what it
      sees; feedback reaches only a backend that ran what it describes; splitting a
      model into domains keeps the order of its route, its offload target last, and no attempt leaves the
      domain that owns it or the caller's grant.  What [json.dumps] writes, the
      scanner reads back ([loads_dumps]).

    ** Fuel

    [FixedRouter.fallback_loop] runs on [walk_bound], twice the candidates plus
    four, and [router_answers] shows it is never used up; [Offload.walk] on
    2n+3, by [fallback_walk_ends]; [FixedRouter.reported_loop] on the number of
    attempts, which its input's length bounds; [SpendLedger.flush] on ten
    passes, by [flush_drains].  The rotation loops run as often as the code's
    own [range], as does [RouteSelection.claim_loop], and [claim_correct] shows
    its passes are enough; the JSON scanner of [GrantToken] on twice the text's
    length plus two, which its own lemmas show suffices; [RouteWise.select_loop] on
    the number of candidates, one of which every turn removes, and
    [RouteWiseDispatch.dispatch_loop] on the endpoints plus one, by
    [rw_dispatch_ends]; [AutoRequest.feed_loop] on the bytes held plus one, every
    event taking at least two ([feed_loop_spec]).  All other recursion is
    structural.

    ** Not modelled

    Network I/O, the driver below the statements that are modelled, HTTP framing,
    protocol translation between providers, the admin and user web API,
    configuration loading, analytics, alert delivery and the web frontend: I/O, data
    and glue around the decisions modelled here.  Of the routing layer: the start
    and stop of backends and RouteWise as a cloud pool,
    and of RouteWise the probe loop, learning from observations, and cutting prompts
    into blocks; of serving: browser sessions, the log of rejected callers, the
    names concealed in error messages, the rounds of the batch worker, batch admission caps,
    idempotency records, files and webhooks, and pricing. *)

From stdpp Require Export base gmap strings list option sorting.
From Stdlib Require Export QArith Lqa Qminmax.

(** ** Record update

    [r <| f := v |>] is the record [r] with field [f] replaced by [v], the
    counterpart of an attribute assignment [r.f = v] of the source.  A record
    type opts in with an [Eta] instance that rebuilds a value from its fields;
    the setter of a field is derived from it. *)

Class Eta (R : Type) := eta : R -> R.
Class Setter {R T : Type} (f : R -> T) := set_to : T -> R -> R.
Arguments set_to {R T} f {_} _ _ /.

Ltac derive_setter :=
  lazymatch goal with
  | |- @Setter ?R ?T ?f =>
      let v := fresh "v" in
      let r := fresh "r" in
      intros v r;
      let e := constr:(ltac:(typeclasses eauto) : Eta R) in
      let e' := eval hnf in e in
      let b := eval cbv beta in (e' r) in
      lazymatch (eval pattern (f r) in b) with
      | ?g _ => let t := eval cbv beta in (g v) in exact t
      end
  end.
#[export] Hint Extern 0 (Setter _) => derive_setter : typeclass_instances.

Declare Scope record_scope.
Notation "r <| f := v |>" := (set_to f v r)
  (at level 1, left associativity) : record_scope.
Global Open Scope record_scope.

(** ** Rationals for Python floats

    A finite Python float is the rational it denotes; arithmetic on them is
    exact here, so rounding is not modelled.  Comparisons are decidable
    propositions, so that [decide] and [bool_decide] branch on them as the
    source's [if] does. *)

#[export] Instance Q_le_dec (x y : Q) : Decision (x <= y)%Q.
Proof.
  refine (match Qlt_le_dec y x with left H => right _ | right H => left H end).
  abstract (intros H'; apply (Qle_not_lt _ _ H' H)).
Defined.

#[export] Instance Q_lt_dec (x y : Q) : Decision (x < y)%Q.
Proof.
  refine (match Qlt_le_dec x y with left H => left H | right H => right _ end).
  abstract (intros H'; apply (Qle_not_lt _ _ H H')).
Defined.

#[export] Instance Q_eq_dec : EqDecision Q.
Proof. solve_decision. Defined.

(** [min]/[max] of Python on floats: the first argument wins a tie. *)
Definition py_min (x y : Q) : Q := if decide (y < x)%Q then y else x.
Definition py_max (x y : Q) : Q := if decide (x < y)%Q then y else x.

Lemma py_min_spec x y : (py_min x y <= x /\ py_min x y <= y)%Q.
Proof. unfold py_min; case_decide; split; lra. Qed.

Lemma py_max_spec x y : (x <= py_max x y /\ y <= py_max x y)%Q.
Proof. unfold py_max; case_decide; split; lra. Qed.

Lemma py_min_glb x y z : (z <= x)%Q -> (z <= y)%Q -> (z <= py_min x y)%Q.
Proof. unfold py_min; case_decide; auto. Qed.

Lemma py_max_lub x y z : (x <= z)%Q -> (y <= z)%Q -> (py_max x y <= z)%Q.
Proof. unfold py_max; case_decide; auto. Qed.

(** ** Results that may raise *)

Inductive result (E A : Type) : Type :=
| Ok (a : A)
| Raise (e : E).
Arguments Ok {E A} a.
Arguments Raise {E A} e.

Definition bind_result {E A B} (m : result E A) (f : A -> result E B) : result E B :=
  match m with
  | Ok a => f a
  | Raise e => Raise e
  end.

Declare Scope result_scope.
Notation "'try!' x <- m ;; k" := (bind_result m (fun x => k))
  (at level 100, x pattern, m at next level, right associativity) : result_scope.

(** ** Proof automation *)

Create HintDb gateway.

(** Splits every [decide], [bool_decide] and boolean connective in sight. *)
Ltac split_ifs :=
  repeat (case_decide || case_bool_decide || case_match); simplify_eq/=.

(** Turns boolean facts about [andb], [orb] and [negb] into propositions. *)
Ltac bool_facts :=
  repeat match goal with
  | H : (_ && _) = true |- _ => apply andb_true_iff in H as [? ?]
  | H : (_ || _) = false |- _ => apply orb_false_iff in H as [? ?]
  | H : negb _ = true |- _ => apply negb_true_iff in H
  | H : negb _ = false |- _ => apply negb_false_iff in H
  | H : bool_decide _ = true |- _ => apply bool_decide_eq_true in H
  | H : bool_decide _ = false |- _ => apply bool_decide_eq_false in H
  end.

(** ** Generic lemmas *)

Lemma foldl_invariant {A B} (P : A -> Prop) (f : A -> B -> A) (l : list B) (a : A) :
  (forall a b, P a -> P (f a b)) -> P a -> P (fold_left f l a).
Proof. intros Hf; revert a; induction l; simpl; auto. Qed.


(** Filtering depends only on the members. *)
Lemma filter_ext_elem {A} (P Q : A -> Prop) `{!forall x, Decision (P x), !forall x, Decision (Q x)}
    (l : list A) :
  (forall x, x ∈ l -> P x <-> Q x) -> filter P l = filter Q l.
Proof.
  induction l as [|x l IH]; intros HPQ; [done|]. rewrite !filter_cons.
  rewrite IH by (intros; apply HPQ; set_solver).
  specialize (HPQ x ltac:(set_solver)). repeat case_decide; tauto.
Qed.

Lemma filter_length_ext {A} (f : A -> bool) (l l' : list A) :
  f <$> l = f <$> l' -> length (filter f l) = length (filter f l').
Proof.
  revert l'; induction l as [|x l IH]; intros [|y l'] E; try done.
  injection E as Hx Hl. rewrite !filter_cons, Hx. case_decide; simpl; auto.
Qed.

Lemma filter_none {A} (P : A -> Prop) `{!forall x, Decision (P x)} (l : list A) :
  (forall x, x ∈ l -> ~ P x) -> filter P l = [].
Proof.
  induction l as [|x l IH]; intros Hn; [done|].
  rewrite filter_cons_False by (apply Hn; set_solver). apply IH. set_solver.
Qed.

Lemma filter_every {A} (P : A -> Prop) `{!forall x, Decision (P x)} (l : list A) :
  (forall x, x ∈ l -> P x) -> filter P l = l.
Proof.
  induction l as [|x l IH]; intros Hp; [done|].
  rewrite filter_cons_True by (apply Hp; set_solver). f_equal. apply IH. set_solver.
Qed.

Lemma filter_bool_cons {A} (f : A -> bool) x l :
  filter f (x :: l) = if f x then x :: filter f l else filter f l.
Proof. rewrite filter_cons. destruct (f x); [by rewrite decide_True|by rewrite decide_False by (intros [])]. Qed.

(** ** Optional strings *)

(** [x or None] for a string. *)
Definition truthy (x : option string) : option string :=
  match x with
  | Some s => if decide (s = ""%string) then None else Some s
  | None => None
  end.

(** ** Sums over finite maps *)

Definition zsum `{Countable K} {A} (f : A -> Z) (m : gmap K A) : Z := map_fold (fun _ a s => f a + s)%Z 0%Z m.
Definition qsum `{Countable K} {A} (f : A -> Q) (m : gmap K A) : Q := map_fold (fun _ a s => f a + s)%Q 0%Q m.

Section sums.
Context `{Countable K} {A : Type}.
Implicit Types (m : gmap K A) (f g : A -> Z) (p q : A -> Q).

Lemma zsum_insert f m k x : m !! k = None -> zsum f (<[k := x]> m) = (f x + zsum f m)%Z.
Proof. intros Hk. unfold zsum. apply (map_fold_insert_L (fun _ a s => f a + s)%Z 0%Z k x m); [intros; lia|done]. Qed.

Lemma zsum_update f m k x y : m !! k = Some x -> zsum f (<[k := y]> m) = (zsum f m - f x + f y)%Z.
Proof.
  intros Hk. rewrite <- (insert_id m k x Hk) at 2. rewrite <- (insert_delete_eq m k y), <- (insert_delete_eq m k x).
  rewrite !zsum_insert by apply lookup_delete_eq. lia.
Qed.

Lemma zsum_ext f g m : (forall k x, m !! k = Some x -> f x = g x) -> zsum f m = zsum g m.
Proof.
  induction m as [|k x m Hk IH] using map_ind; intros Hfg; [done|]. rewrite !zsum_insert by done.
  rewrite (Hfg k x) by apply lookup_insert_eq. rewrite IH; [done|].
  intros j y Hj. apply (Hfg j). rewrite lookup_insert_ne; [done|]. intros ->. congruence.
Qed.

Lemma zsum_add f g m : zsum (fun x => f x + g x)%Z m = (zsum f m + zsum g m)%Z.
Proof.
  induction m as [|k x m Hk IH] using map_ind; [done|]. rewrite !zsum_insert by done. lia.
Qed.

Lemma zsum_nonneg f m : (forall k x, m !! k = Some x -> 0 <= f x)%Z -> (0 <= zsum f m)%Z.
Proof.
  induction m as [|k x m Hk IH] using map_ind; intros Hf; [done|]. rewrite zsum_insert by done.
  assert (0 <= f x)%Z by (apply (Hf k); apply lookup_insert_eq).
  assert (0 <= zsum f m)%Z; [|lia]. apply IH. intros j y Hj. apply (Hf j).
  rewrite lookup_insert_ne; [done|]. intros ->. congruence.
Qed.

Lemma zsum_zero f m : (forall k x, m !! k = Some x -> f x = 0%Z) -> zsum f m = 0%Z.
Proof.
  intros Hf. rewrite (zsum_ext f (fun _ => 0%Z) m) by done. clear.
  induction m as [|k x m Hk IH] using map_ind; [done|]. by rewrite zsum_insert, IH.
Qed.

Lemma zsum_le f g m : (forall k x, m !! k = Some x -> f x <= g x)%Z -> (zsum f m <= zsum g m)%Z.
Proof.
  intros Hfg. assert (0 <= zsum (fun x => g x + - f x) m)%Z as Hn
    by (apply zsum_nonneg; intros k x Hk; specialize (Hfg k x Hk); lia).
  rewrite zsum_add in Hn. assert (zsum (fun x => - f x)%Z m = - zsum f m)%Z as E; [|lia]. clear.
  induction m as [|k x m Hk IH] using map_ind; [done|]. rewrite !zsum_insert by done. lia.
Qed.

Lemma zsum_pos f m : (0 < zsum f m)%Z -> exists k x, m !! k = Some x /\ (0 < f x)%Z.
Proof.
  induction m as [|k x m Hk IH] using map_ind; [done|]. rewrite zsum_insert by done. intros Hp.
  destruct (decide (0 < f x)%Z); [exists k, x; by rewrite lookup_insert_eq|].
  destruct IH as (j & y & Hj & Hy); [lia|]. exists j, y. split; [|done].
  rewrite lookup_insert_ne; [done|]. intros ->. congruence.
Qed.

Lemma zsum_one f m k x :
  (forall k x, m !! k = Some x -> 0 <= f x)%Z -> m !! k = Some x -> (f x <= zsum f m)%Z.
Proof.
  intros Hf Hk. rewrite <- (insert_delete_id m k x Hk), zsum_insert by apply lookup_delete_eq.
  assert (0 <= zsum f (delete k m))%Z; [|lia]. apply zsum_nonneg. intros j y Hj.
  apply (Hf j). rewrite lookup_delete in Hj. by case_decide.
Qed.

Lemma zsum_size m : zsum (fun _ => 1%Z) m = Z.of_nat (size m).
Proof.
  induction m as [|k x m Hk IH] using map_ind; [done|]. rewrite zsum_insert, map_size_insert_None by done. lia.
Qed.

Lemma zsum_union f m1 m2 : m1 ##ₘ m2 -> zsum f (m1 ∪ m2) = (zsum f m1 + zsum f m2)%Z.
Proof.
  induction m1 as [|k x m Hk IH] using map_ind; intros Hd; [by rewrite (left_id_L ∅ (∪))|].
  apply map_disjoint_insert_l in Hd as [Hk2 Hd]. rewrite <- insert_union_l, zsum_insert.
  - rewrite zsum_insert by done. rewrite IH by done. lia.
  - by apply lookup_union_None.
Qed.

Lemma qsum_insert p m k x : m !! k = None -> (qsum p (<[k := x]> m) == p x + qsum p m)%Q.
Proof.
  intros Hk. unfold qsum. apply (map_fold_insert Qeq (fun _ a s => p a + s)%Q 0%Q k x m); [| |done].
  - intros j z u v E. by rewrite E.
  - intros j1 j2 z1 z2 y _ _ _. lra.
Qed.

Lemma qsum_update p m k x y : m !! k = Some x -> (qsum p (<[k := y]> m) == qsum p m - p x + p y)%Q.
Proof.
  intros Hk. rewrite <- (insert_id m k x Hk) at 2. rewrite <- (insert_delete_eq m k y), <- (insert_delete_eq m k x).
  rewrite !qsum_insert by apply lookup_delete_eq. lra.
Qed.

Lemma qsum_ext p q m : (forall k x, m !! k = Some x -> (p x == q x)%Q) -> (qsum p m == qsum q m)%Q.
Proof.
  induction m as [|k x m Hk IH] using map_ind; intros Hpq; [done|]. rewrite !qsum_insert by done.
  rewrite (Hpq k x) by apply lookup_insert_eq. rewrite IH; [done|].
  intros j y Hj. apply (Hpq j). rewrite lookup_insert_ne; [done|]. intros ->. congruence.
Qed.

Lemma qsum_zero p m : (forall k x, m !! k = Some x -> (p x == 0)%Q) -> (qsum p m == 0)%Q.
Proof.
  induction m as [|k x m Hk IH] using map_ind; intros Hp; [done|]. rewrite qsum_insert by done.
  rewrite (Hp k x) by apply lookup_insert_eq. rewrite IH; [lra|].
  intros j y Hj. apply (Hp j). rewrite lookup_insert_ne; [done|]. intros ->. congruence.
Qed.
End sums.

Lemma zsum_fmap `{Countable K} {A B} (f : B -> Z) (h : A -> B) (m : gmap K A) :
  zsum f (h <$> m) = zsum (fun x => f (h x)) m.
Proof.
  induction m as [|k x m Hk IH] using map_ind; [done|].
  rewrite fmap_insert, !zsum_insert by (rewrite ?lookup_fmap, ?Hk; done). lia.
Qed.

Lemma qsum_fmap `{Countable K} {A B} (f : B -> Q) (h : A -> B) (m : gmap K A) :
  (qsum f (h <$> m) == qsum (fun x => f (h x)) m)%Q.
Proof.
  induction m as [|k x m Hk IH] using map_ind; [done|].
  rewrite fmap_insert, !qsum_insert by (rewrite ?lookup_fmap, ?Hk; done). by rewrite IH.
Qed.
