(* ===== verification/PyText.v ===== *)
(** Python text as the gateway uses it: character classes, [str.lower],
    [str.split]/[str.strip], substring search, and the backtracking matcher of
    the [re] module for the patterns that occur in the sources.

    A [str] is its list of code points.  Whitespace is classified as Python
    classifies it on all of Unicode; case, digits and word characters on the
    Latin-1 range, outside which a character is neither a digit nor a word
    character and is its own lower case. *)

From S2P Require Import Prelude.
From Stdlib Require Import Ascii.

Abbreviation char := N.
Abbreviation chars := (list char).

(** The code points of a literal. *)
Definition chars_of (s : string) : chars := N_of_ascii <$> String.list_ascii_of_string s.

(** ** Character classes *)

Definition in_range (lo hi : N) (c : char) : bool := (lo <=? c)%N && (c <=? hi)%N.

(** [str.isspace] and [\s]. *)
Definition is_space (c : char) : bool :=
  in_range 9 13 c || in_range 28 32 c || (c =? 133)%N || (c =? 160)%N
  || (c =? 5760)%N || in_range 8192 8202 c || in_range 8232 8233 c
  || (c =? 8239)%N || (c =? 8287)%N || (c =? 12288)%N.

(** [\d]: the decimal digits. *)
Definition is_digit (c : char) : bool := in_range 48 57 c.

(** [\w]: letters, numeric characters and the underscore. *)
Definition is_word (c : char) : bool :=
  is_digit c || in_range 65 90 c || in_range 97 122 c || (c =? 95)%N
  || (c =? 170)%N || (c =? 181)%N || (c =? 186)%N
  || in_range 178 179 c || (c =? 185)%N || in_range 188 190 c
  || (in_range 192 255 c && negb (c =? 215)%N && negb (c =? 247)%N).

Definition lower_char (c : char) : char :=
  if in_range 65 90 c || (in_range 192 222 c && negb (c =? 215)%N) then (c + 32)%N else c.

(** [str.lower]. *)
Definition lower (l : chars) : chars := lower_char <$> l.

Definition char_eqb (a b : char) : bool := (a =? b)%N.

(** ** Searching, splitting, stripping *)

Fixpoint is_prefix (p l : chars) : bool :=
  match p, l with
  | [], _ => true
  | _ :: _, [] => false
  | a :: p', b :: l' => char_eqb a b && is_prefix p' l'
  end.

(** [p in l] for two strings. *)
Fixpoint contains (p l : chars) : bool :=
  is_prefix p l ||
  match l with
  | [] => false
  | _ :: l' => contains p l'
  end.

(** [str.split()] with no separator: the maximal runs of non-space. *)
Fixpoint split_words (l : chars) (cur : chars) : list chars :=
  match l with
  | [] => match cur with [] => [] | _ => [rev cur] end
  | c :: l' =>
      if is_space c
      then match cur with
           | [] => split_words l' []
           | _ => rev cur :: split_words l' []
           end
      else split_words l' (c :: cur)
  end.

Definition split (l : chars) : list chars := split_words l [].

(** ["sep".join(parts)] for a one-character separator. *)
Fixpoint join (sep : char) (parts : list chars) : chars :=
  match parts with
  | [] => []
  | [p] => p
  | p :: parts' => p ++ sep :: join sep parts'
  end.

Definition space : char := 32%N.

(** [" ".join(s.split())]. *)
Definition squeeze (l : chars) : chars := join space (split l).

Fixpoint drop_space (l : chars) : chars :=
  match l with
  | c :: l' => if is_space c then drop_space l' else l
  | [] => []
  end.

(** [str.strip()]. *)
Definition strip (l : chars) : chars := rev (drop_space (rev (drop_space l))).

(** ** The [re] matcher

    Backtracking search, first alternative first and greedy repetition, as
    [re.search] does.  Repetition is over single characters, the only form the
    sources' patterns need, so the matcher recurses structurally on the pattern
    and, inside a repetition, on the text: it is total without fuel. *)

Inductive regex : Type :=
| REps
| RChar (p : char -> bool)
| RStar (p : char -> bool)
| RSeq (r1 r2 : regex)
| RAlt (r1 r2 : regex)
| ROpt (r : regex)
| RGroup (n : nat) (r : regex)
| RWordBoundary.

Abbreviation groups := (list (nat * chars)).

Definition group (n : nat) (g : groups) : option chars :=
  snd <$> head (filter (fun e => e.1 = n) g).

(** A position: the character before it, and the text after it. *)
Definition cont : Type := option char -> chars -> groups -> option groups.

Definition at_boundary (prev : option char) (l : chars) : bool :=
  let before := match prev with Some c => is_word c | None => false end in
  let after := match l with c :: _ => is_word c | [] => false end in
  xorb before after.

Fixpoint match_star (p : char -> bool) (l : chars) (prev : option char)
    (g : groups) (k : cont) : option groups :=
  match l with
  | c :: l' =>
      if p c
      then match match_star p l' (Some c) g k with
           | Some r => Some r
           | None => k prev l g
           end
      else k prev l g
  | [] => k prev l g
  end.

Fixpoint match_re (r : regex) (prev : option char) (l : chars) (g : groups)
    (k : cont) : option groups :=
  match r with
  | REps => k prev l g
  | RChar p =>
      match l with
      | c :: l' => if p c then k (Some c) l' g else None
      | [] => None
      end
  | RStar p => match_star p l prev g k
  | RSeq r1 r2 => match_re r1 prev l g (fun prev' l' g' => match_re r2 prev' l' g' k)
  | RAlt r1 r2 =>
      match match_re r1 prev l g k with
      | Some res => Some res
      | None => match_re r2 prev l g k
      end
  | ROpt r1 =>
      match match_re r1 prev l g k with
      | Some res => Some res
      | None => k prev l g
      end
  | RGroup n r1 =>
      match_re r1 prev l g (fun prev' l' g' =>
        k prev' l' ((n, take (length l - length l') l) :: g'))
  | RWordBoundary => if at_boundary prev l then k prev l g else None
  end.

(** [pattern.search(text)]: the groups of the leftmost match. *)
Fixpoint search_from (r : regex) (prev : option char) (l : chars) : option groups :=
  match match_re r prev l [] (fun _ _ g => Some g) with
  | Some g => Some g
  | None =>
      match l with
      | [] => None
      | c :: l' => search_from r (Some c) l'
      end
  end.

Definition search (r : regex) (l : chars) : option groups := search_from r None l.

(** Pattern building blocks. *)
Definition lit (ci : bool) (c : char) : regex :=
  RChar (fun d => if ci then char_eqb (lower_char c) (lower_char d) else char_eqb c d).
Definition lits (ci : bool) (s : string) : regex :=
  foldr (fun c r => RSeq (lit ci c) r) REps (chars_of s).
Definition plus (p : char -> bool) : regex := RSeq (RChar p) (RStar p).
Fixpoint times (n : nat) (r : regex) : regex :=
  match n with O => REps | S n' => RSeq r (times n' r) end.
Definition seqs (rs : list regex) : regex := foldr RSeq REps rs.
Definition one_of (s : string) (c : char) : bool :=
  existsb (char_eqb c) (chars_of s).

(** [re.sub(run-of-class, " ", text)] for a pattern [[class]+]: every maximal
    run of characters of the class becomes one space. *)
Fixpoint collapse_from (p : char -> bool) (in_run : bool) (l : chars) : chars :=
  match l with
  | [] => []
  | c :: l' =>
      if p c
      then if in_run then collapse_from p true l' else space :: collapse_from p true l'
      else c :: collapse_from p false l'
  end.
Definition collapse (p : char -> bool) (l : chars) : chars := collapse_from p false l.

(** ** Facts *)

Lemma collapse_from_no_class p in_run l c :
  p space = false -> c ∈ collapse_from p in_run l -> p c = false.
Proof.
  intros Hs; revert in_run; induction l as [|d l IH]; intros in_run; simpl.
  - by intros ?%elem_of_nil.
  - destruct (p d) eqn:E; [destruct in_run|]; rewrite ?elem_of_cons; naive_solver.
Qed.

