(* ===== verification/UsageLimit.v ===== *)
(** Subscription usage limits: [routing/usage_limit.py].

    The classifier of upstream error texts, the parse of the declared or named
    reset, and the deadline until which repeat alerts stay quiet.  A [datetime]
    is its UTC instant in microseconds since the epoch and a [timedelta] a
    number of microseconds, as Python stores them; sums out of the calendar's
    range raise [OverflowError], as they do there. *)

From S2P Require Import Prelude PyText.

Local Open Scope Z_scope.
Local Open Scope result_scope.

(** ** Dates and durations of the [datetime] module *)

Inductive py_error : Type := OverflowError.

Definition datetime_us : Type := Z.
Definition timedelta_us : Type := Z.

Definition SECOND : timedelta_us := 1000000.
Definition HOUR : timedelta_us := 3600 * SECOND.
Definition DAY : timedelta_us := 24 * HOUR.

(** [datetime.min] and [datetime.max] in UTC. *)
Definition DATETIME_MIN : datetime_us := -62135596800 * SECOND.
Definition DATETIME_MAX : datetime_us := 253402300800 * SECOND - 1.
(** [timedelta.max] is below this many days. *)
Definition TIMEDELTA_DAYS : Z := 1000000000.

Definition checked_datetime (t : datetime_us) : result py_error datetime_us :=
  if decide (DATETIME_MIN <= t <= DATETIME_MAX) then Ok t else Raise OverflowError.

(** [datetime + timedelta]. *)
Definition add_dt (t : datetime_us) (d : timedelta_us) : result py_error datetime_us :=
  checked_datetime (t + d).

(** Nearest integer to [n / d], ties to even ([d] positive). *)
Definition div_nearest (n d : Z) : Z :=
  let q := n / d in
  let r := n mod d in
  if decide (2 * r < d) then q
  else if decide (d < 2 * r) then q + 1
  else if Z.even q then q else q + 1.

(** [timedelta * float]: exact product, rounded to the microsecond. *)
Definition mul_td (d : timedelta_us) (q : Q) : result py_error timedelta_us :=
  let us := div_nearest (d * Qnum q) (Zpos (Qden q)) in
  if decide (- TIMEDELTA_DAYS * DAY < us < TIMEDELTA_DAYS * DAY)
  then Ok us else Raise OverflowError.

(** [datetime.fromisoformat], as CPython 3.11 to 3.13 parses the shapes the
    pattern [_RESET_AT_RE] below captures: a date, any separator, hours and
    minutes, optional seconds and fraction, and an optional offset with
    optionally one space before it.  [None] stands for [ValueError]. *)

(** [n] decimal digits. *)
Fixpoint digits (n : nat) (acc : Z) (l : chars) : option (Z * chars) :=
  match n, l with
  | O, _ => Some (acc, l)
  | S n', c :: l' =>
      if is_digit c then digits n' (10 * acc + Z.of_N (c - 48)) l' else None
  | S _, [] => None
  end.

Definition expect (p : char -> bool) (l : chars) : option chars :=
  match l with
  | c :: l' => if p c then Some l' else None
  | [] => None
  end.

Fixpoint digit_run (l : chars) : chars * chars :=
  match l with
  | c :: l' => if is_digit c then let '(d, r) := digit_run l' in (c :: d, r) else ([], l)
  | [] => ([], [])
  end.

Definition is_leap (y : Z) : bool :=
  bool_decide (y mod 4 = 0) && (negb (bool_decide (y mod 100 = 0)) || bool_decide (y mod 400 = 0)).

Definition days_in_month (y m : Z) : Z :=
  if decide (m = 2) then if is_leap y then 29 else 28
  else if decide (m ∈ [4; 6; 9; 11]) then 30 else 31.

(** [date.toordinal], counted from the epoch's day. *)
Definition epoch_day (y m d : Z) : Z :=
  let y1 := y - 1 in
  365 * y1 + y1 / 4 - y1 / 100 + y1 / 400
  + foldr Z.add 0 ((fun i => days_in_month y (Z.of_nat i)) <$> seq 1 (Z.to_nat (m - 1))) + d - 719163.

Definition datetime_of (y m d hh mm ss us : Z) : option datetime_us :=
  if decide (1 <= y <= 9999 /\ 1 <= m <= 12 /\ 1 <= d <= days_in_month y m /\
             hh < 24 /\ mm < 60 /\ ss < 60)
  then Some (epoch_day y m d * DAY + hh * HOUR + mm * 60 * SECOND + ss * SECOND + us)
  else None.

(** The microseconds of a fraction: six digits, the rest cut off. *)
Definition microseconds (d : chars) : Z :=
  foldl (fun acc c => 10 * acc + Z.of_N (c - 48)) 0 (take 6 (d ++ replicate 6 48%N)).

(** The zone after the time: nothing, [Z], or a signed offset below a day. *)
Definition zone (l : chars) : option (option timedelta_us) :=
  match l with
  | [] => Some None
  | [90%N] => Some (Some 0)
  | s :: l =>
      if negb (one_of "+-" s) then None
      else
        '(hh, l) ← digits 2 0 l;
        '(mm, l) ← digits 2 0 (default l (expect (one_of ":") l));
        let off := (hh * 60 + mm) * 60 * SECOND in
        if decide (l = [] /\ off < DAY)
        then Some (Some (if one_of "-" s then - off else off)) else None
  end.

(** The parser ignores one byte between the time and the zone, and anything
    after six or more fraction digits; here that is a space. *)
Definition skip_space (fraction : chars) (l : chars) : chars :=
  match l with
  | c :: (_ :: _) as l' =>
      if is_space c
         && (bool_decide (6 <= length fraction)%nat
             || (bool_decide (fraction = []) && (c <? 128)%N))
      then l' else l
  | _ => l
  end.

Definition fromisoformat (l : chars) : option (datetime_us * option timedelta_us) :=
  '(y, l) ← digits 4 0 l; l ← expect (one_of "-") l;
  '(m, l) ← digits 2 0 l; l ← expect (one_of "-") l;
  '(d, l) ← digits 2 0 l; l ← expect (fun _ => true) l;
  '(hh, l) ← digits 2 0 l; l ← expect (one_of ":") l;
  '(mm, l) ← digits 2 0 l;
  '(ss, l) ← match expect (one_of ":") l with
             | Some l => digits 2 0 l
             | None => Some (0, l)
             end;
  let '(fraction, l) := match expect (one_of ".") l with
                        | Some l => digit_run l
                        | None => ([], l)
                        end in
  t ← datetime_of y m d hh mm ss (microseconds fraction);
  off ← zone (skip_space fraction l);
  Some (t, off).

(** ** Constants *)

Definition _USAGE_MARKERS : list string :=
  ["usage limit"; "subscription limit"; "fair usage policy"]%string.
Definition _RESET_MARKERS : list string := ["limit will reset"; "limit resets"]%string.

(** [[\s_-]+] *)
Definition _SEPARATORS_RE (c : char) : bool := is_space c || one_of "_-" c.

(** [rate ?limit] *)
Definition _RATE_LIMIT_RE : regex :=
  seqs [lits false "rate"; ROpt (lits false " "); lits false "limit"].

Definition MIN_ALERT_GAP : timedelta_us := 4 * HOUR.
Definition _MAX_SUPPRESS : timedelta_us := 8 * DAY.

Definition two_digits : regex := times 2 (RChar is_digit).

(** [reset(?:s|ting)?\s+(?:at|on)\s+(timestamp)], ignoring case. *)
Definition _RESET_AT_RE : regex :=
  seqs
    [ lits true "reset"; ROpt (RAlt (lits true "s") (lits true "ting")); plus is_space;
      RAlt (lits true "at") (lits true "on"); plus is_space;
      RGroup 1
        (seqs
          [ times 4 (RChar is_digit); lits true "-"; two_digits; lits true "-"; two_digits;
            RAlt (lits true " ") (lits true "T");
            two_digits; lits true ":"; two_digits;
            ROpt (seqs [lits true ":"; two_digits]);
            ROpt (seqs [lits true "."; plus is_digit]);
            ROpt (seqs
              [ ROpt (RChar is_space);
                RAlt (lits true "Z")
                  (seqs [RChar (one_of "+-"); two_digits; ROpt (lits true ":"); two_digits])])])].

(** The window pattern: an optional count with optional fraction (group 1) and
    spaces or hyphens after it, a word boundary, the unit (group 2), an optional
    [ly] or [s] (group 3) and a word boundary, ignoring case. *)
Definition _WINDOW_RE : regex :=
  seqs
    [ ROpt (seqs
        [ RGroup 1 (seqs [plus is_digit; ROpt (seqs [lits true "."; plus is_digit])]);
          RStar (fun c => is_space c || one_of "-" c)]);
      RWordBoundary;
      RGroup 2 (RAlt (lits true "hour") (RAlt (lits true "day")
        (RAlt (lits true "week") (lits true "month"))));
      ROpt (RGroup 3 (RAlt (lits true "ly") (lits true "s")));
      RWordBoundary].

(** [_UNIT_LENGTH]; the pattern captures no other unit. *)
Definition _UNIT_LENGTH (unit : chars) : timedelta_us :=
  if decide (unit = chars_of "hour") then HOUR
  else if decide (unit = chars_of "day") then DAY
  else if decide (unit = chars_of "week") then 7 * DAY
  else 31 * DAY.

(** [UsageLimit] *)
Record usage_limit : Type := UsageLimit {
  suppress_until : datetime_us;
  window : chars;
  reset_at : option datetime_us
}.

(** ** Operations *)

(** [_is_usage_limit] *)
Definition _is_usage_limit (low : chars) : bool :=
  let normalized := collapse _SEPARATORS_RE low in
  if existsb (fun m => contains (chars_of m) normalized) _USAGE_MARKERS then true
  else if existsb (fun m => contains (chars_of m) normalized) _RESET_MARKERS
  then match search _RATE_LIMIT_RE normalized with None => true | Some _ => false end
  else false.

(** [float] of a text of the form [\d+(\.\d+)?]. *)
Fixpoint decimal_of (l : chars) (acc : Z) (scale : option positive) : Q :=
  match l with
  | [] => acc # (default 1%positive scale)
  | c :: l' =>
      if is_digit c
      then decimal_of l' (10 * acc + Z.of_N (c - 48)) ((fun s => s * 10)%positive <$> scale)
      else decimal_of l' acc (Some 1%positive)
  end.

(** [_estimate_window] *)
Definition _estimate_window (detail : chars) :
    result py_error (option (timedelta_us * chars)) :=
  match search _WINDOW_RE detail with
  | None => Ok None
  | Some g =>
      let unit := lower (default [] (group 2 g)) in
      let suffix := default [] (group 3 g) in
      let plain := (_UNIT_LENGTH unit, unit ++ lower suffix) in
      match group 1 g with
      | Some num_raw =>
          let count := decimal_of num_raw 0 None in
          if decide (0 < count)%Q then
            try! len <- mul_td (_UNIT_LENGTH unit) count ;;
            Ok (Some (len, num_raw ++ space :: unit))
          else Ok (Some plain)
      | None => Ok (Some plain)
      end
  end.

Definition ends_with_z (text : chars) : bool :=
  match last text with Some c => char_eqb c 122 | None => false end.

(** [_parse_reset_timestamp] *)
Definition _parse_reset_timestamp (raw : chars) :
    result py_error (option datetime_us) :=
  let text := strip raw in
  let text := if ends_with_z text then removelast text ++ [90%N] else text in
  match fromisoformat text with
  | None => Ok None
  | Some (parsed, None) => Ok (Some parsed)
  | Some (parsed, Some offset) =>
      try! utc <- checked_datetime (parsed - offset) ;; Ok (Some utc)
  end.

(** [_suppression_deadline] *)
Definition _suppression_deadline (reset_at : option datetime_us) (now : datetime_us) :
    result py_error datetime_us :=
  try! floor <- add_dt now MIN_ALERT_GAP ;;
  match reset_at with
  | None => Ok floor
  | Some r =>
      if decide (r < floor) then Ok floor
      else
        try! ceiling <- add_dt now _MAX_SUPPRESS ;;
        Ok (if decide (ceiling < r) then ceiling else r)
  end.

(** The provider-declared reset of [detect_usage_limit]: a parsed timestamp
    that is still in the future. *)
Definition declared_reset (detail : chars) (now : datetime_us) :
    result py_error (option datetime_us) :=
  match search _RESET_AT_RE detail with
  | None => Ok None
  | Some g =>
      try! parsed <- _parse_reset_timestamp (default [] (group 1 g)) ;;
      Ok (match parsed with
          | Some t => if decide (now < t) then Some t else None
          | None => None
          end)
  end.

(** [detect_usage_limit] *)
Definition detect_usage_limit (detail : option chars) (now : datetime_us) :
    result py_error (option usage_limit) :=
  match detail with
  | None | Some [] => Ok None
  | Some detail =>
      if negb (_is_usage_limit (lower detail)) then Ok None
      else
        try! window_est <- _estimate_window detail ;;
        try! declared <- declared_reset detail now ;;
        try! (reset_at, window) <-
          match declared, window_est with
          | Some r, Some (_, w) => Ok (Some r, w)
          | Some r, None => Ok (Some r, chars_of "explicit")
          | None, Some (len, w) => try! r <- add_dt now len ;; Ok (Some r, w)
          | None, None => Ok (None, chars_of "unspecified")
          end ;;
        try! until <- _suppression_deadline reset_at now ;;
        Ok (Some (UsageLimit until window reset_at))
  end.

(** ** Properties *)

Lemma checked_datetime_ok t u : checked_datetime t = Ok u -> u = t.
Proof. unfold checked_datetime; case_decide; congruence. Qed.

Lemma bind_ok {E A B} (m : result E A) (f : A -> result E B) b :
  bind_result m f = Ok b -> exists a, m = Ok a /\ f a = Ok b.
Proof. destruct m; simpl; [eauto|congruence]. Qed.

(** Peels the [try!]s of an equation [... = Ok _]. *)
Ltac ok_inv :=
  repeat match goal with
  | H : bind_result _ _ = Ok _ |- _ => apply bind_ok in H as (? & ? & H)
  | H : (match ?p with pair _ _ => _ end) = Ok _ |- _ => destruct p
  | H : add_dt _ _ = Ok _ |- _ => apply checked_datetime_ok in H
  | H : checked_datetime _ = Ok _ |- _ => apply checked_datetime_ok in H
  end; simplify_eq/=.

Lemma suppression_deadline_bounds r now d :
  _suppression_deadline r now = Ok d ->
  now + MIN_ALERT_GAP <= d <= now + _MAX_SUPPRESS.
Proof.
  unfold _suppression_deadline, MIN_ALERT_GAP, _MAX_SUPPRESS, DAY, HOUR, SECOND; intros H.
  ok_inv; destruct r; [case_decide|]; ok_inv; try case_decide; lia.
Qed.

(** A reset between the floor and the ceiling is the deadline itself. *)
Lemma suppression_deadline_exact r now d :
  now + MIN_ALERT_GAP <= r <= now + _MAX_SUPPRESS ->
  _suppression_deadline (Some r) now = Ok d -> d = r.
Proof. unfold _suppression_deadline; intros ? H; ok_inv; case_decide; ok_inv; try case_decide; lia. Qed.


(** Inverts a classified text into the parts [detect_usage_limit] computed. *)
Lemma detect_usage_limit_inv detail now u :
  detect_usage_limit detail now = Ok (Some u) ->
  exists d, detail = Some d /\ d <> [] /\ _is_usage_limit (lower d) = true /\
    _suppression_deadline (reset_at u) now = Ok (suppress_until u) /\
    exists w r, _estimate_window d = Ok w /\ declared_reset d now = Ok r /\
      match r, w with
      | Some t, _ => reset_at u = Some t
      | None, Some (len, _) => reset_at u = Some (now + len)
      | None, None => reset_at u = None
      end.
Proof.
  unfold detect_usage_limit; destruct detail as [[|c d]|]; try congruence.
  intros H'; destruct (_is_usage_limit _) eqn:E; simpl in H'; [|congruence].
  ok_inv.
  match goal with H1 : _estimate_window _ = Ok ?w, H2 : declared_reset _ _ = Ok ?r |- _ =>
    exists (c :: d); destruct w as [[]|], r; ok_inv; repeat split; auto; eexists _, _; split_and!; eauto; done
  end.
Qed.

(** The quiet period of a recognised usage limit is bounded on both
    sides: it always lasts at least [MIN_ALERT_GAP] and never more than
    [_MAX_SUPPRESS], and where the provider's own reset lies between the two it
    ends exactly at that reset. *)
Theorem detect_usage_limit_bounds detail now u :
  detect_usage_limit detail now = Ok (Some u) ->
  now + MIN_ALERT_GAP <= suppress_until u <= now + _MAX_SUPPRESS /\
  (forall r, reset_at u = Some r ->
     now + MIN_ALERT_GAP <= r <= now + _MAX_SUPPRESS -> suppress_until u = r).
Proof.
  intros (d & _ & _ & _ & Hs & _)%detect_usage_limit_inv.
  split; [by eapply suppression_deadline_bounds|].
  intros r Hr Hb. rewrite Hr in Hs. by eapply suppression_deadline_exact.
Qed.


(** At 16:00 on the day, a reset declared for 22:45:10 the same evening. *)
Lemma detect_usage_limit_bounds_witness :
  let now := 1785427200 * SECOND in
  let text := Some (chars_of "Usage limit reached. Resets at 2026-07-30T22:45:10Z") in
  exists u, detect_usage_limit text now = Ok (Some u) /\
    reset_at u = Some (1785451510 * SECOND) /\
    now + MIN_ALERT_GAP <= suppress_until u <= now + _MAX_SUPPRESS /\
    (forall r, reset_at u = Some r ->
       now + MIN_ALERT_GAP <= r <= now + _MAX_SUPPRESS -> suppress_until u = r).
Proof.
  intros now text. eexists. split; [vm_compute; reflexivity|]. split; [reflexivity|].
  apply (detect_usage_limit_bounds text). vm_compute. reflexivity.
Defined.

(** A transient rate limit is no usage limit: a text that names a rate limit in
    any spelling and none of the usage markers is left to page normally. *)
Lemma rate_limit_not_usage d now :
  let normalized := collapse _SEPARATORS_RE (lower d) in
  Forall (fun m => contains (chars_of m) normalized = false) _USAGE_MARKERS ->
  is_Some (search _RATE_LIMIT_RE normalized) ->
  detect_usage_limit (Some d) now = Ok None.
Proof.
  intros normalized Hm [g Hg]. unfold detect_usage_limit; destruct d as [|a d]; [done|].
  assert (_is_usage_limit (lower (a :: d)) = false) as ->; [|done].
  unfold _is_usage_limit. fold normalized.
  apply Forall_cons in Hm as [H1 [H2 [H3 _]%Forall_cons]%Forall_cons].
  simpl in *. rewrite H1, H2, H3; simpl. case_match; [|done]. by rewrite Hg.
Qed.

(** A window named without a count never overflows the calendar before the
    year 9999 runs out, so the classifier answers. *)
Lemma detect_usage_limit_total d now w r :
  _estimate_window d = Ok w -> declared_reset d now = Ok r ->
  (forall len l, w = Some (len, l) -> 0 <= len <= 31 * DAY) ->
  DATETIME_MIN <= now <= DATETIME_MAX - 31 * DAY ->
  exists o, detect_usage_limit (Some d) now = Ok o.
Proof.
  intros Hw Hr Hlen Hnow.
  assert (forall x, 0 <= x <= 31 * DAY -> add_dt now x = Ok (now + x)) as Hadd.
  { intros x Hx. unfold add_dt, checked_datetime. rewrite decide_True by lia. done. }
  assert (forall o, exists t, _suppression_deadline o now = Ok t) as Hsup.
  { intros o. unfold _suppression_deadline.
    rewrite Hadd by (unfold MIN_ALERT_GAP, DAY, HOUR, SECOND; lia); simpl.
    destruct o as [t|]; [case_decide|]; eauto.
    rewrite Hadd by (unfold _MAX_SUPPRESS, DAY, HOUR, SECOND; lia); simpl; eauto. }
  unfold detect_usage_limit; destruct d as [|c d]; [eauto|].
  destruct (negb _); [eauto|]. rewrite Hw; cbn [bind_result]. rewrite Hr; cbn [bind_result].
  destruct r as [r|], w as [[len l]|]; cbn [bind_result];
    rewrite ?(Hadd len (Hlen len l eq_refl)); cbn [bind_result];
    match goal with |- context [_suppression_deadline ?o now] =>
      destruct (Hsup o) as [t ->]; cbn; eauto end.
Qed.

(** The text is a usage limit whose window no datetime can hold the end of: the length
    itself is out of range, or there is no declared reset and [now] plus the length is
    past the calendar. *)
Definition overlong (detail : chars) (now : datetime_us) : Prop :=
  _is_usage_limit (lower detail) = true /\
  (_estimate_window detail = Raise OverflowError \/
   exists len w, _estimate_window detail = Ok (Some (len, w)) /\ declared_reset detail now = Ok None /\
     DATETIME_MAX < now + len).

(** Such a window raises instead of being capped: the sum is formed before
    [_MAX_SUPPRESS] is applied. *)
Lemma detect_usage_limit_overflow detail now :
  overlong detail now -> detect_usage_limit (Some detail) now = Raise OverflowError.
Proof.
  intros [Hu Hw]. unfold detect_usage_limit. destruct detail as [|c detail]; [done|]. rewrite Hu. cbn [negb].
  destruct Hw as [->|(len & w & -> & Hd & Hlen)]; [done|]. cbn [bind_result]. rewrite Hd. cbn [bind_result].
  unfold add_dt, checked_datetime. rewrite decide_False by lia. done.
Qed.

(** One such text. *)
Lemma overlong_sample now :
  0 <= now <= DATETIME_MAX -> overlong (chars_of "Usage limit reached for 100000000 hour") now.
Proof.
  intros Hnow. split; [vm_compute; reflexivity|right].
  match goal with |- context [_estimate_window ?l] =>
    let b := eval vm_compute in (_estimate_window l) in
    replace (_estimate_window l) with b by (vm_compute; reflexivity) end.
  do 2 eexists. split; [reflexivity|]. split; [|unfold DATETIME_MAX, SECOND in *; lia].
  unfold declared_reset.
  match goal with |- context [search _RESET_AT_RE ?l] =>
    replace (search _RESET_AT_RE l) with (@None groups) by (vm_compute; reflexivity) end. done.
Qed.
