(* ===== verification/Failures.v ===== *)
(** How a failed attempt is classified: the exception classes the routing and
    adapter layers raise, the HTTP status read off an exception, and which
    failures an endpoint is charged with
    ([routing/endpoint_health.py], [routing/offload.py],
    [serving/adapters/upstream_limiter.py]). *)

From S2P Require Import Prelude.

Local Open Scope Z_scope.

(** ** Exceptions *)

(** The exception classes the routing layer tells apart.  [OtherException] is
    any other subclass of [Exception] and [OtherBaseException] one of
    [BaseException] only (cancellation, generator exit). *)
Inductive exn_class : Type :=
| KeyPoolExhausted
| KeyPoolRoleRestricted
| UpstreamSaturated
| UpstreamQueueWaitExpired
| EngineWaitExpired
| ClientResponseError
| UpstreamModelQueued
| OtherException
| OtherBaseException.

#[export] Instance exn_class_eq_dec : EqDecision exn_class.
Proof. solve_decision. Defined.

(** The base classes named in the [class] statements. *)
Definition superclass (c : exn_class) : option exn_class :=
  match c with
  | KeyPoolRoleRestricted => Some KeyPoolExhausted
  | UpstreamQueueWaitExpired => Some UpstreamSaturated
  | UpstreamModelQueued => Some ClientResponseError
  | _ => None
  end.

(** The integer attributes an exception may carry, and those of the response
    object it may carry: [None] where the attribute is absent or no [int]. *)
Record exn_attrs : Type := {
  attr_status : option Z;
  attr_status_code : option Z;
  attr_code : option Z;
  attr_response : option (option Z * option Z)  (* status_code, status *)
}.

Definition no_attrs : exn_attrs := {|
  attr_status := None; attr_status_code := None; attr_code := None; attr_response := None |}.

Record exn : Type := Exn { cls : exn_class; attrs : exn_attrs }.

(** [isinstance(exc, c)]; no class here is more than one step below a base. *)
Definition isinstance (e : exn) (c : exn_class) : bool :=
  bool_decide (cls e = c) || bool_decide (superclass (cls e) = Some c).

(** [isinstance(exc, Exception)] *)
Definition is_exception (e : exn) : bool := negb (bool_decide (cls e = OtherBaseException)).

(** ** Status *)

Definition is_http_status (v : Z) : bool := bool_decide (100 <= v <= 599).

Definition first_status (vs : list (option Z)) : option Z :=
  head (omap (fun v => v ≫= fun n => if is_http_status n then Some n else None) vs).

(** [http_status_of] *)
Definition http_status_of (e : exn) : option Z :=
  let a := attrs e in
  match first_status [attr_status a; attr_status_code a; attr_code a] with
  | Some v => Some v
  | None =>
      match attr_response a with
      | Some (status_code, status) => first_status [status_code; status]
      | None => None
      end
  end.

(** [_is_auth_misconfig] *)
Definition _is_auth_misconfig (status : option Z) : bool :=
  match status with
  | Some s => bool_decide (s ∈ [401; 407])
  | None => false
  end.

(** [is_client_error_status] *)
Definition is_client_error_status (status : option Z) : bool :=
  match status with
  | None => false
  | Some s =>
      if negb (bool_decide (400 <= s < 500)) then false
      else if bool_decide (s ∈ [408; 429]) then false
      else negb (_is_auth_misconfig status)
  end.

(** [_is_client_error] *)
Definition _is_client_error (e : exn) : bool := is_client_error_status (http_status_of e).

(** ** Uncharged failures *)

(** [_uncharged_failure_event] *)
Definition _uncharged_failure_event (e : exn) : option string :=
  if isinstance e KeyPoolRoleRestricted then Some "role_restricted_skip_breaker"%string
  else if isinstance e KeyPoolExhausted then Some "key_pool_exhausted_skip_breaker"%string
  else if isinstance e UpstreamSaturated then Some "gateway_throttle_skip_breaker"%string
  else if isinstance e EngineWaitExpired then Some "engine_wait_skip_breaker"%string
  else if isinstance e UpstreamModelQueued then Some "model_queued_skip_breaker"%string
  else None.

(** [failure_may_lose_prefix_cache] *)
Definition failure_may_lose_prefix_cache (e : option exn) : bool :=
  match e with
  | None => true
  | Some e =>
      if isinstance e UpstreamModelQueued then true
      else match _uncharged_failure_event e with
           | Some _ => false
           | None =>
               match http_status_of e with
               | None => true
               | Some s => bool_decide (500 <= s)
               end
           end
  end.

(** What [EndpointHealthRegistry.record_failure] does with a failure. *)
Inductive charge : Type :=
| Uncharged (event : string)
| ClientError (status : option Z)
| Charged (status : option Z) (auth_misconfig : bool).

(** The classification at the head of [record_failure]. *)
Definition classify (e : option exn) : charge :=
  match e ≫= _uncharged_failure_event with
  | Some event => Uncharged event
  | None =>
      let status := e ≫= http_status_of in
      let auth := _is_auth_misconfig status in
      if negb auth && match e with Some e => _is_client_error e | None => false end
      then ClientError status
      else Charged status auth
  end.

(** [outcome_status] of [upstream_limiter.py]: what the AIMD controller sees. *)
Definition outcome_status (e : option exn) : option Z :=
  match e with
  | None => Some 200
  | Some e =>
      if isinstance e ClientResponseError then Some (default 0 (attr_status (attrs e)))
      else if is_exception e then Some 0
      else None
  end.

(** ** Facts *)

(** The statuses an endpoint is charged for: every non-4xx, and of the 4xx
    exactly 401, 407, 408 and 429. *)
Lemma classify_status e :
  _uncharged_failure_event e = None ->
  classify (Some e) =
    match http_status_of e with
    | Some s =>
        if bool_decide (400 <= s < 500) && negb (bool_decide (s ∈ [401; 407; 408; 429]))
        then ClientError (Some s)
        else Charged (Some s) (bool_decide (s ∈ [401; 407]))
    | None => Charged None false
    end.
Proof.
  intros He. unfold classify; simpl. rewrite He.
  unfold _is_client_error, is_client_error_status, _is_auth_misconfig.
  destruct (http_status_of e) as [s|]; [|done].
  repeat case_bool_decide; simpl; try done; set_solver.
Qed.

(** A failure that is not charged says nothing about the cache either, except
    for a model that stopped running. *)
Lemma uncharged_keeps_prefix_cache e :
  is_Some (_uncharged_failure_event e) -> isinstance e UpstreamModelQueued = false ->
  failure_may_lose_prefix_cache (Some e) = false.
Proof. intros [ev Hev] Hq. unfold failure_may_lose_prefix_cache. by rewrite Hq, Hev. Qed.
