(* ===== verification/CircuitBreaker.v ===== *)
(** Endpoint health, one endpoint: [routing/endpoint_health.py],
    [_ProviderHealth] (passive availability) and [_CircuitBreaker] (admission,
    half-open probes, and the circuit-open page).

    An operation of the source takes its instance as [self] and mutates it under
    the instance's lock; here it takes the record and returns the new one, with
    the effects it started (log events, alert tasks) as a list.  What it reads
    from its surroundings (the three clocks, the running loop, the installed
    policy, the request context) is the [env] argument: one reading per call. *)

From S2P Require Import Prelude PyText UsageLimit.
From stdpp Require Import pretty.

Local Open Scope Z_scope.

(** ** Surroundings *)

(** [CircuitOpenStateChange], the fields this module reads. *)
Record circuit_policy : Type := {
  enabled : bool;
  page_on_usage_limit : bool;
  cooldown_sec : Q;
  settle_sec : Q
}.

(** The resolved [CIRCUIT_*] and [ROUTER_HEALTH_EWMA_ALPHA] settings. *)
Record breaker_settings : Type := {
  cfg_failure_threshold : Z;
  cfg_cooldown_seconds : Q;
  cfg_min_availability : Q;
  cfg_ewma_alpha : Q
}.

(** The request context's caller fields. *)
Record req_context : Type := {
  ctx_user_id : option chars;
  ctx_user_name : option chars
}.

Record env : Type := {
  perf_counter : Q;           (* time.perf_counter() *)
  monotonic : Q;              (* time.monotonic() *)
  utcnow : datetime_us;       (* datetime.now(UTC) *)
  running_loop : bool;        (* whether an asyncio loop is running *)
  policy : circuit_policy;    (* circuit_open_policy() *)
  settings : breaker_settings;
  ctx : req_context           (* serving.utils.context *)
}.

(** [datetime.timestamp()]: seconds since the epoch. *)
Definition timestamp (t : datetime_us) : Q := t # 1000000.

Definition _MIN_ALERT_GAP_SEC : Q := timestamp MIN_ALERT_GAP.
Definition _MAX_TRACKED_CALLERS : nat := 50.
Definition _CALLERS_IN_ALERT : nat := 10.

(** ** Text helpers *)

Definition ellipsis : char := 8230%N.

(** [_detail_str] *)
Definition _detail_str (s : option chars) : option chars :=
  match s with
  | None | Some [] => None
  | Some s =>
      let s := if decide (1000 < length s)%nat then take 1000 s else s in
      match squeeze s with
      | [] => None
      | cleaned =>
          Some (if decide (length cleaned <= 500)%nat then cleaned
                else take 499 cleaned ++ [ellipsis])
      end
  end.

(** [_reason_str] *)
Definition _reason_str (s : chars) : chars :=
  if decide (s <> [] /\ (length s < 64)%nat) then s else chars_of "error".

(** [_caller_str] *)
Definition _caller_str (c : req_context) : option chars :=
  let truthy o := match o with Some [] => None | o => o end in
  let user_id := truthy (ctx_user_id c) in
  let user_name := truthy (ctx_user_name c) ≫= fun n => truthy (Some (squeeze n)) in
  match user_id, user_name with
  | Some i, Some n => Some (n ++ chars_of " (" ++ i ++ chars_of ")")
  | Some i, None => Some i
  | None, Some n => Some n
  | None, None => None
  end.

(** ** Passive availability: [_ProviderHealth] *)

Record provider_health : Type := ProviderHealth {
  alpha : Q;
  ewma_success : Q;
  ewma_total : Q;
  last_error_status : option Z;
  consecutive_auth_rejections : Z
}.
#[export] Instance eta_provider_health : Eta provider_health := fun h =>
  ProviderHealth (alpha h) (ewma_success h) (ewma_total h) (last_error_status h)
    (consecutive_auth_rejections h).

(** [_ProviderHealth.__init__] *)
Definition new_health (s : breaker_settings) : provider_health :=
  ProviderHealth (cfg_ewma_alpha s) 1 1 None 0.

(** [_ProviderHealth.record]: the new state, and whether the outcome ended a
    credential-rejection run. *)
Definition record (h : provider_health) (success : bool) : provider_health * bool :=
  let inc_s : Q := if success then 1%Q else 0%Q in
  let h := h <| ewma_success := ((1 - alpha h) * ewma_success h + alpha h * inc_s)%Q |> in
  let h := h <| ewma_total := ((1 - alpha h) * ewma_total h + alpha h)%Q |> in
  if success && negb (bool_decide (consecutive_auth_rejections h = 0))
  then (h <| consecutive_auth_rejections := 0 |>, true)
  else (h, false).

(** [_ProviderHealth.note_failure] *)
Definition note_failure (h : provider_health) (status : option Z) (auth_misconfig : bool) :
    provider_health * Z :=
  let h := match status with
           | Some s => h <| last_error_status := Some s |>
           | None => h
           end in
  let h := if auth_misconfig
           then h <| consecutive_auth_rejections := consecutive_auth_rejections h + 1 |>
           else h in
  (h, consecutive_auth_rejections h).

(** [_ProviderHealth.availability] *)
Definition availability (h : provider_health) : Q :=
  if decide (ewma_total h <= 0)%Q then 1%Q
  else py_max 0 (py_min 1 (ewma_success h / ewma_total h)).

(** ** The circuit: [_CircuitBreaker] *)

Inductive circuit_state : Type := CLOSED | OPEN | HALF_OPEN.
#[export] Instance circuit_state_eq_dec : EqDecision circuit_state.
Proof. solve_decision. Defined.

(** [Counter], in insertion order. *)
Abbreviation counter := (list (chars * Z)).

Record breaker : Type := CircuitBreaker {
  provider : string;
  state : circuit_state;
  failure_threshold : Z;
  cooldown_seconds : Q;
  min_availability : Q;
  consecutive_failures : Z;
  last_opened : option Q;
  probe_deadline : option Q;
  probe_token : option Z;
  next_probe_token : Z;
  alert_suppressed_until : Q;
  usage_limit_alerted_at : option Q;
  alert_in_flight_generation : option Z;
  recovery_generation : Z;
  affected_callers : counter
}.
#[export] Instance eta_breaker : Eta breaker := fun b =>
  CircuitBreaker (provider b) (state b) (failure_threshold b) (cooldown_seconds b)
    (min_availability b) (consecutive_failures b) (last_opened b) (probe_deadline b)
    (probe_token b) (next_probe_token b) (alert_suppressed_until b)
    (usage_limit_alerted_at b) (alert_in_flight_generation b) (recovery_generation b)
    (affected_callers b).

(** [_CircuitBreaker.__init__] *)
Definition new_breaker (name : string) (s : breaker_settings) : breaker :=
  CircuitBreaker name CLOSED (cfg_failure_threshold s) (cfg_cooldown_seconds s)
    (cfg_min_availability s) 0 None None None 1 0 None None 0 [].

(** *** Admission *)

(** [_probe_claim_live_locked] *)
Definition _probe_claim_live (b : breaker) (now : Q) : bool :=
  match probe_deadline b with
  | Some d => bool_decide (now < d)%Q
  | None => false
  end.

(** [allow_request], through [_admits_locked] *)
Definition allow_request (b : breaker) (now : Q) : bool :=
  match state b with
  | CLOSED => true
  | OPEN =>
      match last_opened b with
      | None => false
      | Some t => bool_decide (cooldown_seconds b <= now - t)%Q
      end
  | HALF_OPEN => negb (_probe_claim_live b now)
  end.

(** [_claim_probe_locked] *)
Definition _claim_probe (b : breaker) (now : Q) : breaker * Z :=
  let b := b <| probe_deadline := Some (now + cooldown_seconds b)%Q |> in
  let token := next_probe_token b in
  let b := b <| probe_token := Some token |> in
  let b := b <| next_probe_token := token + 1 |> in
  (b, token).

(** [_release_probe_locked] *)
Definition _release_probe (b : breaker) : breaker :=
  let b := b <| probe_deadline := None |> in
  b <| probe_token := None |>.

(** [end_dispatch] *)
Definition end_dispatch (b : breaker) (token : Z) : breaker :=
  if decide (probe_token b = Some token) then _release_probe b else b.

(** [begin_dispatch]: the new state and [(admitted, probe_token)]. *)
Definition begin_dispatch (b : breaker) (now : Q) : breaker * (bool * option Z) :=
  match state b with
  | CLOSED => (b, (true, None))
  | OPEN =>
      match last_opened b with
      | None => (b, (false, None))
      | Some t =>
          if decide (now - t < cooldown_seconds b)%Q then (b, (false, None))
          else
            let b := b <| state := HALF_OPEN |> in
            let '(b, token) := _claim_probe b now in (b, (true, Some token))
      end
  | HALF_OPEN =>
      if _probe_claim_live b now then (b, (false, None))
      else let '(b, token) := _claim_probe b now in (b, (true, Some token))
  end.

(** *** Effects *)

(** The causes [_trip_cause] names. *)
Inductive trip_cause : Type :=
| ByStreak (failures threshold : Z)
| ByAvailability (availability floor : Q).

(** The context of the circuit-open page. *)
Record alert_context : Type := {
  a_provider : string;
  a_consecutive_failures : Z;
  a_availability : option Q;
  a_trip_cause : list trip_cause;
  a_reason : chars;
  a_upstream_error : option chars;
  a_quota_reset_at : option datetime_us;
  a_alert_muted_until : option datetime_us;
  a_affected_callers : option chars
}.

Inductive gate : Type :=
| circuit_open_disabled | usage_limit_paging_off | muted | min_alert_gap.

(** What an operation starts: a log event, the settle interruption, the record
    of a held-back page, the task [_send_circuit_alert] with its arguments, and
    the task reporting an [alert_on_transition]. *)
Inductive effect : Type :=
| Log (event : string)
| InterruptSettle (key : string)
| HeldBack (key : string) (policy_disabled : bool) (g : gate)
| SendCircuitAlert (context : alert_context) (suppress_epoch : option Q) (generation : Z)
| ReportTransition (key : string) (breached : bool) (settle : option Q).

Definition circuit_key (b : breaker) : string := ("circuit_open:" +:+ provider b)%string.

(** [_fire_and_forget]: the task runs only on a running loop. *)
Definition _fire_and_forget (e : env) (t : effect) : list effect :=
  if running_loop e then [t] else [].

(** [on_success] *)
Definition on_success (b : breaker) (e : env) : breaker * list effect :=
  let b := b <| consecutive_failures := 0 |> in
  let b := b <| affected_callers := [] |> in
  let b := b <| alert_suppressed_until := 0%Q |> in
  let b := b <| recovery_generation := recovery_generation b + 1 |> in
  match state b with
  | CLOSED => (b, [])
  | OPEN | HALF_OPEN =>
      let b := b <| state := CLOSED |> in
      let b := b <| last_opened := None |> in
      let b := _release_probe b in
      (b, Log "circuit_closed" ::
          _fire_and_forget e
            (ReportTransition (circuit_key b) false (Some (settle_sec (policy e)))))
  end.

(** [_trip_cause]; the empty list is the source's ["unknown"]. *)
Definition _trip_cause (b : breaker) (by_streak by_availability : bool)
    (availability : option Q) : list trip_cause :=
  (if by_streak then [ByStreak (consecutive_failures b) (failure_threshold b)] else []) ++
  match by_availability, availability with
  | true, Some a => [ByAvailability a (min_availability b)]
  | _, _ => []
  end.

(** [Counter] of callers: [c in counter], [counter[c] += 1]. *)
Definition counter_mem (c : chars) (l : counter) : bool :=
  existsb (fun e => bool_decide (e.1 = c)) l.
Fixpoint counter_incr (c : chars) (l : counter) : counter :=
  match l with
  | [] => [(c, 1)]
  | (d, n) :: l' => if decide (d = c) then (d, n + 1) :: l' else (d, n) :: counter_incr c l'
  end.

(** The caller bookkeeping at the head of [on_failure]. *)
Definition track_caller (callers : counter) (caller : option chars) : counter :=
  match caller with
  | None | Some [] => callers
  | Some c =>
      if counter_mem c callers || bool_decide (length callers < _MAX_TRACKED_CALLERS)%nat
      then counter_incr c callers
      else callers
  end.

(** [Counter.most_common]: a stable sort by decreasing count. *)
Fixpoint insert_by_count (x : chars * Z) (l : counter) : counter :=
  match l with
  | [] => [x]
  | y :: l' => if decide (y.2 <= x.2) then x :: y :: l' else y :: insert_by_count x l'
  end.
Definition most_common (n : nat) (l : counter) : counter := take n (foldr insert_by_count [] l).

Definition join_comma (parts : list chars) : chars :=
  match parts with
  | [] => []
  | p :: ps => foldl (fun acc q => acc ++ chars_of ", " ++ q) p ps
  end.

(** [_format_affected_callers] *)
Definition _format_affected_callers (b : breaker) : option chars :=
  match affected_callers b with
  | [] => None
  | all =>
      let named := most_common _CALLERS_IN_ALERT all in
      let parts := (fun e => e.1 ++ chars_of " x" ++ chars_of (pretty e.2)) <$> named in
      let remaining := (length all - length named)%nat in
      let tail :=
        if decide (0 < remaining)%nat then
          [chars_of ("+" +:+ pretty remaining +:+
             if decide (_MAX_TRACKED_CALLERS <= length all)%nat
             then " more (capped)" else " more")%string]
        else [] in
      Some (join_comma (parts ++ tail))
  end.

(** *** Paging *)

(** The gates of [on_failure] between a trip and its page. *)
Record page_gates : Type := {
  g_muted : bool;
  g_plan_limit_recent : bool;
  g_rate_limited : bool;
  g_paging_off : bool;
  g_alerting_off : bool
}.

Definition gates_of (b : breaker) (e : env) (u : option usage_limit) : page_gates :=
  let in_flight_current :=
    bool_decide (alert_in_flight_generation b = Some (recovery_generation b)) in
  let muted := in_flight_current
    || bool_decide (timestamp (utcnow e) < alert_suppressed_until b)%Q in
  let plan_limit_recent :=
    match usage_limit_alerted_at b with
    | Some t => bool_decide (monotonic e - t < _MIN_ALERT_GAP_SEC)%Q
    | None => false
    end in
  let is_usage := match u with Some _ => true | None => false end in
  {| g_muted := muted;
     g_plan_limit_recent := plan_limit_recent;
     g_rate_limited := is_usage && plan_limit_recent;
     g_paging_off := negb (page_on_usage_limit (policy e)) && (is_usage || plan_limit_recent);
     g_alerting_off := negb (enabled (policy e)) |}.

Definition held_back (g : page_gates) : bool :=
  g_alerting_off g || g_muted g || g_rate_limited g || g_paging_off g.

(** The branch of [on_failure] that holds a page back. *)
Definition hold_page (b : breaker) (e : env) (u : option usage_limit) (g : page_gates) :
    breaker * list effect :=
  let b :=
    if g_paging_off g && match u with Some _ => true | None => false end
       && negb (g_plan_limit_recent g)
    then b <| usage_limit_alerted_at := Some (monotonic e) |> else b in
  let b :=
    match u with
    | Some u => b <| alert_suppressed_until :=
                      py_max (alert_suppressed_until b) (timestamp (suppress_until u)) |>
    | None => b
    end in
  let which := if g_alerting_off g then circuit_open_disabled
               else if g_paging_off g then usage_limit_paging_off
               else if g_muted g then muted else min_alert_gap in
  (b, [Log "circuit_open_alert_suppressed";
       HeldBack (circuit_key b) (g_alerting_off g || g_paging_off g) which]).

(** The branch of [on_failure] that schedules the page. *)
Definition send_page (b : breaker) (e : env) (u : option usage_limit)
    (causes : list trip_cause) (availability : option Q) (reason : chars)
    (detail : option chars) : breaker * list effect :=
  let suppress_epoch := (fun u => timestamp (suppress_until u)) <$> u in
  let context := {|
    a_provider := provider b;
    a_consecutive_failures := consecutive_failures b;
    a_availability := availability;
    a_trip_cause := causes;
    a_reason := match reason with [] => chars_of "unknown" | _ => reason end;
    a_upstream_error := detail;
    a_quota_reset_at := u ≫= reset_at;
    a_alert_muted_until := suppress_until <$> u;
    a_affected_callers := _format_affected_callers b |} in
  let generation := recovery_generation b in
  let b := match suppress_epoch with
           | Some _ => b <| alert_in_flight_generation := Some generation |>
           | None => b
           end in
  let task := _fire_and_forget e (SendCircuitAlert context suppress_epoch generation) in
  let b := if negb (running_loop e)
              && bool_decide (alert_in_flight_generation b = Some generation)
           then b <| alert_in_flight_generation := None |> else b in
  (b, Log "circuit_open" :: task).

(** [on_failure] from the moment the circuit has newly opened: the settle
    interruption, the classification of the error, and the page or its hold.
    The last component is the exception it lets escape. *)
Definition page_trip (b : breaker) (e : env) (causes : list trip_cause)
    (availability : option Q) (reason : chars) (detail : option chars) :
    breaker * list effect * option py_error :=
  let settle := InterruptSettle (circuit_key b) in
  match detect_usage_limit detail (utcnow e) with
  | Raise err => (b, [settle], Some err)
  | Ok u =>
      let g := gates_of b e u in
      let '(b, effects) :=
        if held_back g then hold_page b e u g
        else send_page b e u causes availability reason detail in
      (b, settle :: effects, None)
  end.

(** [on_failure]: the new state, the effects started, and the exception that
    escapes, if any. *)
Definition on_failure (b : breaker) (e : env) (availability : option Q)
    (reason : chars) (detail caller : option chars) :
    breaker * list effect * option py_error :=
  let b := b <| consecutive_failures := consecutive_failures b + 1 |> in
  let b := b <| affected_callers := track_caller (affected_callers b) caller |> in
  let by_streak := bool_decide (failure_threshold b <= consecutive_failures b) in
  let by_availability :=
    match availability with
    | Some a => bool_decide (a < min_availability b)%Q
    | None => false
    end in
  if negb (by_streak || by_availability) then
    (b, [Log "endpoint_failure_below_threshold"], None)
  else
    let prev_state := state b in
    let b := b <| state := OPEN |> in
    let b := b <| last_opened := Some (perf_counter e) |> in
    if bool_decide (prev_state = OPEN) then (b, [], None)
    else
      page_trip b e (_trip_cause b by_streak by_availability availability)
        availability reason detail.

(** The end of [_send_circuit_alert]: its [finally] block, run when the delivery
    of the page scheduled with [suppress_epoch] and [generation] has ended. *)
Definition circuit_alert_sent (b : breaker) (e : env) (suppress_epoch : option Q)
    (generation : Z) (delivered : bool) : breaker :=
  match suppress_epoch with
  | None => b
  | Some epoch =>
      let b := if decide (alert_in_flight_generation b = Some generation)
               then b <| alert_in_flight_generation := None |> else b in
      if delivered then
        let b := b <| usage_limit_alerted_at := Some (monotonic e) |> in
        if decide (generation = recovery_generation b)
        then b <| alert_suppressed_until := epoch |> else b
      else b
  end.

(** ** Availability in closed form *)

Fixpoint qpow (q : Q) (n : nat) : Q :=
  match n with O => 1 | S n' => q * qpow q n' end.

(** The share of the successes of [l] (oldest first) in the moving average. *)
Fixpoint success_weight (a : Q) (l : list bool) : Q :=
  match l with
  | [] => 0
  | s :: l' => (if s then a * qpow (1 - a) (length l') else 0) + success_weight a l'
  end.

Definition record_all (h : provider_health) (l : list bool) : provider_health :=
  foldl (fun h s => (record h s).1) h l.

Lemma record_fields h s :
  alpha (record h s).1 = alpha h /\
  ewma_success (record h s).1 =
    ((1 - alpha h) * ewma_success h + alpha h * (if s then 1 else 0))%Q /\
  ewma_total (record h s).1 = ((1 - alpha h) * ewma_total h + alpha h)%Q.
Proof. unfold record; simpl. by case_match. Qed.

Lemma record_all_ewma h l :
  (0 <= alpha h <= 1)%Q -> (ewma_total h == 1)%Q -> (0 <= ewma_success h <= 1)%Q ->
  let h' := record_all h l in
  (ewma_total h' == 1)%Q /\ (0 <= ewma_success h' <= 1)%Q /\
  (ewma_success h' ==
     qpow (1 - alpha h) (length l) * ewma_success h + success_weight (alpha h) l)%Q.
Proof.
  revert h; induction l as [|s l IH]; intros h Ha Ht Hs; simpl; [repeat split; lra|].
  destruct (record_fields h s) as (Ea & Es & Et).
  destruct (IH (record h s).1) as (H1 & H2 & H3).
  - by rewrite Ea.
  - rewrite Et, Ht. ring.
  - rewrite Es. destruct s; split; nra.
  - split; [exact H1|split; [exact H2|]]. unfold record_all in *. simpl. rewrite H3, Ea, Es.
    destruct s; ring.
Qed.

(** The availability an endpoint is judged by is the exponentially
    weighted average of its outcomes: after any sequence of them it equals the
    closed form (the initial credit decayed once per outcome, plus each
    success's decayed share), and it stays within [[0, 1]]. *)
Theorem availability_closed_form cfg l :
  (0 <= cfg_ewma_alpha cfg <= 1)%Q ->
  let a := cfg_ewma_alpha cfg in
  let v := availability (record_all (new_health cfg) l) in
  (v == qpow (1 - a) (length l) + success_weight a l)%Q /\ (0 <= v <= 1)%Q.
Proof.
  intros Ha a v.
  destruct (record_all_ewma (new_health cfg) l) as (Ht & [Hs0 Hs1] & Hs); simpl; try lra.
  set (h := record_all (new_health cfg) l) in *.
  assert (v == ewma_success h)%Q as Hv.
  { subst v. unfold availability. rewrite decide_False by lra.
    assert (ewma_success h / ewma_total h == ewma_success h)%Q as Hd
      by (rewrite Ht; field).
    unfold py_max, py_min. repeat case_decide; lra. }
  simpl in Hs. fold a in Hs. split; [rewrite Hv, Hs; ring|lra].
Qed.

(** ** Executions of one breaker

    Operations of concurrent requests reach a breaker one at a time (its lock),
    in any order; an execution is the sequence of them, each with the
    surroundings it ran in.  Only the clock the circuit reads is assumed to be
    monotonic, as [time.perf_counter] is. *)

Inductive bop : Type :=
| OpBegin
| OpEnd (token : Z)
| OpSuccess
| OpFailure (availability : option Q) (reason : chars) (detail caller : option chars)
| OpAlertSent (suppress_epoch : option Q) (generation : Z) (delivered : bool).

Definition bstep (b : breaker) (s : env * bop) : breaker :=
  let '(e, o) := s in
  match o with
  | OpBegin => (begin_dispatch b (perf_counter e)).1
  | OpEnd t => end_dispatch b t
  | OpSuccess => (on_success b e).1
  | OpFailure a r d c => (on_failure b e a r d c).1.1
  | OpAlertSent ep g d => circuit_alert_sent b e ep g d
  end.

Definition brun (b : breaker) (tr : list (env * bop)) : breaker :=
  foldl bstep b tr.

(** The clock readings of a trace, starting no earlier than [t0]. *)
Fixpoint clocked (t0 : Q) (tr : list (env * bop)) : Prop :=
  match tr with
  | [] => True
  | s :: tr' => (t0 <= perf_counter s.1)%Q /\ clocked (perf_counter s.1) tr'
  end.

Fixpoint last_clock (t0 : Q) (tr : list (env * bop)) : Q :=
  match tr with
  | [] => t0
  | s :: tr' => last_clock (perf_counter s.1) tr'
  end.

Section BreakerFacts.

(** What paging changes: the alert bookkeeping only, and there it never leaves
    a page in flight for a generation still to come. *)
Definition same_circuit (b b' : breaker) : Prop :=
  provider b' = provider b /\ state b' = state b /\
  failure_threshold b' = failure_threshold b /\ cooldown_seconds b' = cooldown_seconds b /\
  min_availability b' = min_availability b /\
  consecutive_failures b' = consecutive_failures b /\ last_opened b' = last_opened b /\
  probe_deadline b' = probe_deadline b /\ probe_token b' = probe_token b /\
  next_probe_token b' = next_probe_token b /\
  recovery_generation b' = recovery_generation b /\
  affected_callers b' = affected_callers b /\
  (alert_in_flight_generation b' = alert_in_flight_generation b \/
   alert_in_flight_generation b' = Some (recovery_generation b) \/
   alert_in_flight_generation b' = None).

#[local] Instance same_circuit_refl : Reflexive same_circuit.
Proof. intros b. unfold same_circuit. naive_solver. Qed.

Ltac circuit := unfold same_circuit; simpl; repeat case_match; simplify_eq/=; naive_solver.

Lemma hold_page_circuit b e u g : same_circuit b (hold_page b e u g).1.
Proof. unfold hold_page; destruct u; circuit. Qed.

Lemma send_page_circuit b e u cs a r d : same_circuit b (send_page b e u cs a r d).1.
Proof. unfold send_page; destruct u; circuit. Qed.

Lemma circuit_alert_sent_circuit b e ep g d : same_circuit b (circuit_alert_sent b e ep g d).
Proof.
  unfold circuit_alert_sent; destruct ep; [|reflexivity].
  destruct d; repeat case_decide; circuit.
Qed.

Lemma page_trip_circuit b e cs a r d : same_circuit b (page_trip b e cs a r d).1.1.
Proof.
  unfold page_trip. destruct (detect_usage_limit _ _) as [u|]; [|cbn; reflexivity].
  destruct (held_back _).
  - pose proof (hold_page_circuit b e u (gates_of b e u)) as Hp.
    by destruct (hold_page _ _ _ _).
  - pose proof (send_page_circuit b e u cs a r d) as Hp.
    by destruct (send_page _ _ _ _ _ _ _).
Qed.

(** Whether a failure trips the circuit. *)
Definition trips (b : breaker) (a : option Q) : bool :=
  bool_decide (failure_threshold b <= consecutive_failures b + 1)
  || match a with Some a => bool_decide (a < min_availability b)%Q | None => false end.

(** The circuit a failure leaves, before any page is considered. *)
Definition failed (b : breaker) (e : env) (a : option Q) (c : option chars) : breaker :=
  let b1 := b <| consecutive_failures := consecutive_failures b + 1 |>
              <| affected_callers := track_caller (affected_callers b) c |> in
  if trips b a
  then b1 <| state := OPEN |> <| last_opened := Some (perf_counter e) |> else b1.

Lemma on_failure_circuit b e a r d c :
  same_circuit (failed b e a c) (on_failure b e a r d c).1.1.
Proof.
  unfold on_failure, failed, trips. cbn -[detect_usage_limit page_trip].
  destruct (_ || _); cbn [negb]; [|reflexivity].
  destruct (bool_decide (state b = OPEN)); [reflexivity|apply page_trip_circuit].
Qed.

(** *** Well-formedness *)

Definition callers_wf (l : counter) : Prop :=
  NoDup l.*1 /\ (length l <= _MAX_TRACKED_CALLERS)%nat /\ Forall (fun e => 1 <= e.2) l.

Record breaker_wf (b : breaker) : Prop := {
  wf_claim : is_Some (probe_deadline b) <-> is_Some (probe_token b);
  wf_token t : probe_token b = Some t -> 1 <= t < next_probe_token b;
  wf_next : 1 <= next_probe_token b;
  wf_closed : state b = CLOSED -> last_opened b = None /\ probe_token b = None;
  wf_opened : state b <> CLOSED -> is_Some (last_opened b);
  wf_streak : state b = CLOSED -> 0 < failure_threshold b ->
    consecutive_failures b < failure_threshold b;
  wf_callers : callers_wf (affected_callers b);
  wf_generation g : alert_in_flight_generation b = Some g -> g <= recovery_generation b
}.

Lemma counter_mem_spec c l : counter_mem c l = true <-> c ∈ l.*1.
Proof.
  unfold counter_mem. rewrite existsb_exists, list_elem_of_fmap.
  split; intros ([d n] & H1 & H2); exists (d, n).
  - apply bool_decide_eq_true in H2. rewrite list_elem_of_In. naive_solver.
  - rewrite list_elem_of_In in H2. simpl in *. rewrite bool_decide_eq_true. naive_solver.
Qed.

Lemma counter_incr_keys c l :
  (counter_incr c l).*1 = if counter_mem c l then l.*1 else l.*1 ++ [c].
Proof.
  induction l as [|[d n] l IH]; csimpl; [done|].
  case_decide; csimpl; [by rewrite bool_decide_true|].
  rewrite bool_decide_false by done. rewrite IH. by destruct (counter_mem c l).
Qed.

Lemma counter_incr_counts c l :
  Forall (fun e => 1 <= e.2) l -> Forall (fun e => 1 <= e.2) (counter_incr c l).
Proof.
  induction 1 as [|[d n] l Hn Hl IH]; simpl; [repeat constructor; simpl; lia|].
  case_decide; constructor; simpl in *; auto; lia.
Qed.

Lemma track_caller_wf l c : callers_wf l -> callers_wf (track_caller l c).
Proof.
  intros (Hnd & Hlen & Hpos). unfold track_caller.
  repeat case_match; try done. destruct (_ || _) eqn:E; [|done].
  assert (length (counter_incr (n :: l1) l) = length (counter_incr (n :: l1) l).*1) as Hl
    by (by rewrite length_fmap).
  rewrite counter_incr_keys in Hl.
  destruct (counter_mem (n :: l1) l) eqn:M; simpl in E.
  - split_and!; [by rewrite counter_incr_keys, M|rewrite Hl, length_fmap; done|
      by apply counter_incr_counts].
  - apply bool_decide_eq_true in E. split_and!.
    + rewrite counter_incr_keys, M. apply NoDup_app; split_and!; [done| |apply NoDup_singleton].
      intros x Hx ->%list_elem_of_singleton. apply counter_mem_spec in Hx. congruence.
    + rewrite Hl, length_app, length_fmap; simpl. lia.
    + by apply counter_incr_counts.
Qed.

Lemma new_breaker_wf name cfg : breaker_wf (new_breaker name cfg).
Proof.
  constructor; simpl; try naive_solver; try lia; try by split; intros [? ?].
  split_and!; [apply NoDup_nil_2|unfold _MAX_TRACKED_CALLERS; simpl; lia|constructor].
Qed.

Lemma same_circuit_wf b b' : same_circuit b b' -> breaker_wf b -> breaker_wf b'.
Proof.
  unfold same_circuit.
  intros (Hp & Hs & Ht & Hc & Hm & Hcf & Hlo & Hpd & Hpt & Hnt & Hrg & Hac & Hfl) [].
  constructor; rewrite ?Hs, ?Ht, ?Hcf, ?Hlo, ?Hpd, ?Hpt, ?Hnt, ?Hac, ?Hrg; try done.
  intros g Hg. destruct Hfl as [E|[E|E]]; rewrite E in Hg; simplify_eq; auto; lia.
Qed.

(** Closes the fields an operation does not touch or trivially restores. *)
Ltac wf_fields :=
  constructor; simpl; try done; try lia; try (intros; congruence);
  try (intros; simplify_eq; eauto; lia);
  try (split; intros; eauto; by destruct_and?).

Lemma begin_dispatch_wf b now : breaker_wf b -> breaker_wf (begin_dispatch b now).1.
Proof.
  intros Hwf. pose proof Hwf as []. unfold begin_dispatch.
  destruct (state b) eqn:E; [exact Hwf| |].
  - destruct (last_opened b) eqn:L; [|exact Hwf].
    case_decide; [exact Hwf|]. wf_fields.
  - case_match; [exact Hwf|]. wf_fields.
Qed.

Lemma end_dispatch_wf b t : breaker_wf b -> breaker_wf (end_dispatch b t).
Proof.
  intros Hwf. pose proof Hwf as []. unfold end_dispatch. case_decide; [|exact Hwf].
  wf_fields. intros ?; split; [by apply wf_closed0|done].
Qed.

Lemma on_success_wf b e : breaker_wf b -> breaker_wf (on_success b e).1.
Proof.
  intros []. assert (callers_wf []) as Hnil.
  { split_and!; [apply NoDup_nil_2|unfold _MAX_TRACKED_CALLERS; simpl; lia|constructor]. }
  unfold on_success. simpl.
  destruct (state b) eqn:E; wf_fields; intros g Hg; apply wf_generation0 in Hg; lia.
Qed.

Lemma failed_wf b e a c : breaker_wf b -> breaker_wf (failed b e a c).
Proof.
  intros []. unfold failed, trips.
  destruct (bool_decide _) eqn:Hb; simpl.
  - wf_fields; by apply track_caller_wf.
  - apply bool_decide_eq_false in Hb.
    case_match; wf_fields; by apply track_caller_wf.
Qed.

(** Every operation keeps a breaker well formed. *)
Lemma bstep_wf b s : breaker_wf b -> breaker_wf (bstep b s).
Proof.
  destruct s as [e []]; simpl; intros Hwf.
  - by apply begin_dispatch_wf.
  - by apply end_dispatch_wf.
  - by apply on_success_wf.
  - eapply same_circuit_wf; [apply on_failure_circuit|by apply failed_wf].
  - eapply same_circuit_wf; [apply circuit_alert_sent_circuit|done].
Qed.

Lemma brun_wf b tr : breaker_wf b -> breaker_wf (brun b tr).
Proof. revert b; induction tr; simpl; auto using bstep_wf. Qed.

(** *** Admission *)

Lemma bstep_cooldown b s : cooldown_seconds (bstep b s) = cooldown_seconds b.
Proof.
  destruct s as [e []]; simpl.
  - unfold begin_dispatch, _claim_probe; repeat case_match; simplify_eq/=; done.
  - unfold end_dispatch; by case_decide.
  - unfold on_success; by repeat case_match.
  - match goal with |- context [on_failure b e ?a ?r ?d ?c] =>
      pose proof (on_failure_circuit b e a r d c) as (_ & _ & _ & -> & _) end.
    unfold failed; by case_match.
  - match goal with |- context [circuit_alert_sent b e ?a ?r ?d] =>
      pose proof (circuit_alert_sent_circuit b e a r d) as (_ & _ & _ & -> & _) end.
    done.
Qed.

(** What a granted probe claim leaves behind. *)
Lemma begin_dispatch_claim b b1 now k :
  begin_dispatch b now = (b1, (true, Some k)) ->
  state b <> CLOSED /\ k = next_probe_token b /\
  b1 = b <| state := HALF_OPEN |> <| probe_deadline := Some (now + cooldown_seconds b)%Q |>
         <| probe_token := Some k |> <| next_probe_token := k + 1 |>.
Proof.
  unfold begin_dispatch, _claim_probe.
  destruct (state b) eqn:E; repeat case_match; intros; simplify_eq/=; auto.
  rewrite E. auto.
Qed.

(** The claim [k1] granted at [t1] keeps every other request out until its
    deadline, through whatever else happens to the breaker. *)
Definition guarded (k1 : Z) (t1 cool : Q) (b : breaker) : Prop :=
  match state b with
  | CLOSED => False
  | HALF_OPEN => probe_token b = Some k1 /\ probe_deadline b = Some (t1 + cool)%Q
  | OPEN => exists t, last_opened b = Some t /\ (t1 <= t)%Q
  end.

Definition keeps_claim (k1 : Z) (o : bop) : Prop :=
  match o with
  | OpSuccess => False
  | OpEnd k => k <> k1
  | _ => True
  end.

Lemma guarded_same k1 t1 cool b b' :
  same_circuit b b' -> guarded k1 t1 cool b -> guarded k1 t1 cool b'.
Proof.
  unfold guarded. intros (_ & -> & _ & _ & _ & _ & -> & -> & -> & _). done.
Qed.

Lemma guarded_refuses k1 t1 b now :
  guarded k1 t1 (cooldown_seconds b) b -> (now < t1 + cooldown_seconds b)%Q ->
  begin_dispatch b now = (b, (false, None)).
Proof.
  unfold guarded, begin_dispatch, _probe_claim_live.
  destruct (state b); [done| |].
  - intros (t & -> & Ht) Hn. rewrite decide_True by lra. done.
  - intros [_ ->] Hn. rewrite bool_decide_true by done. done.
Qed.

Lemma guarded_step k1 t1 b s :
  guarded k1 t1 (cooldown_seconds b) b -> keeps_claim k1 s.2 ->
  (t1 <= perf_counter s.1)%Q ->
  (perf_counter s.1 < t1 + cooldown_seconds b)%Q ->
  guarded k1 t1 (cooldown_seconds b) (bstep b s).
Proof.
  destruct s as [e o]; cbn [fst snd]. intros Hg Hk Hle Hlt. destruct o as [|k| |a r d c|]; simpl.
  - by rewrite (guarded_refuses _ _ _ _ Hg Hlt).
  - unfold end_dispatch. case_decide as E; [|done]. unfold guarded in *. simpl in *.
    destruct (state b); [done|done|]. destruct Hg; congruence.
  - done.
  - eapply guarded_same; [apply on_failure_circuit|]. unfold failed.
    destruct (trips b a); simpl; [unfold guarded; simpl; eauto|].
    unfold guarded in *; simpl. by destruct (state b).
  - eapply guarded_same; [apply circuit_alert_sent_circuit|done].
Qed.

Lemma guarded_run k1 t1 b t0 tr :
  guarded k1 t1 (cooldown_seconds b) b -> Forall (fun s => keeps_claim k1 s.2) tr ->
  (t1 <= t0)%Q -> clocked t0 tr ->
  (t1 + cooldown_seconds b <= last_clock t0 tr)%Q \/
  guarded k1 t1 (cooldown_seconds b) (brun b tr).
Proof.
  revert b t0; induction tr as [|s tr IH]; simpl; intros b t0 Hg Hk Ht Hc; [by right|].
  apply Forall_cons in Hk as [Hk1 Hk2]. destruct Hc as [Hc1 Hc2].
  destruct (decide (perf_counter s.1 < t1 + cooldown_seconds b)%Q) as [Hlt|Hge].
  - rewrite <- (bstep_cooldown b s). apply IH; auto; [|lra].
    rewrite bstep_cooldown. apply guarded_step; auto; lra.
  - left. clear IH Hk2 Hg. assert (forall t tr, clocked t tr -> (t <= last_clock t tr)%Q) as Hmono.
    { intros t l. revert t. induction l as [|x l IH']; simpl; intros t; [lra|].
      intros [? ?%IH']. lra. }
    apply Hmono in Hc2. lra.
Qed.

(** *** Deadlines

    At clock reading [T] nothing the breaker waits for lies more than one
    cooldown ahead, and an open circuit outwaits any probe claim it kept. *)
Record timed (T : Q) (b : breaker) : Prop := {
  timed_opened t : last_opened b = Some t -> (t <= T)%Q;
  timed_probe d : probe_deadline b = Some d -> (d <= T + cooldown_seconds b)%Q;
  timed_open t d : state b = OPEN -> last_opened b = Some t -> probe_deadline b = Some d ->
    (d <= t + cooldown_seconds b)%Q
}.

Lemma timed_same T b b' : same_circuit b b' -> timed T b -> timed T b'.
Proof.
  intros (_ & Hs & _ & Hc & _ & _ & Hl & Hd & _) [].
  constructor; rewrite ?Hs, ?Hc, ?Hl, ?Hd; done.
Qed.

Lemma timed_later T T' b : (T <= T')%Q -> timed T b -> timed T' b.
Proof.
  intros HT []. constructor; intros.
  - specialize (timed_opened0 _ ltac:(done)). lra.
  - specialize (timed_probe0 _ ltac:(done)). lra.
  - eauto.
Qed.

Lemma timed_step T b s :
  (0 <= cooldown_seconds b)%Q -> (T <= perf_counter s.1)%Q ->
  timed T b -> timed (perf_counter s.1) (bstep b s).
Proof.
  intros Hcool HT Ht. apply (timed_later _ _ _ HT) in Ht.
  destruct s as [e []]; cbn [fst snd bstep] in *.
  - destruct (begin_dispatch b (perf_counter e)) as [b1 [[] [k|]]] eqn:E.
    + apply begin_dispatch_claim in E as (_ & _ & ->). destruct Ht.
      constructor; simpl; intros; simplify_eq; eauto; lra.
    + revert E. unfold begin_dispatch, _claim_probe; repeat case_match; naive_solver.
    + revert E. unfold begin_dispatch, _claim_probe; repeat case_match; naive_solver.
    + revert E. unfold begin_dispatch, _claim_probe; repeat case_match; naive_solver.
  - unfold end_dispatch. case_decide; [|done]. destruct Ht. constructor; simpl; naive_solver.
  - unfold on_success. destruct Ht. destruct (state b) eqn:E; simpl;
      constructor; simpl; rewrite ?E; naive_solver.
  - eapply timed_same; [apply on_failure_circuit|]. unfold failed. destruct Ht.
    case_match; constructor; simpl; intros; simplify_eq; eauto; lra.
  - eapply timed_same; [apply circuit_alert_sent_circuit|done].
Qed.

Lemma timed_run T b tr :
  (0 <= cooldown_seconds b)%Q -> clocked T tr -> timed T b ->
  timed (last_clock T tr) (brun b tr) /\ cooldown_seconds (brun b tr) = cooldown_seconds b.
Proof.
  revert T b; induction tr as [|s tr IH]; simpl; intros T b Hcool Hc Ht; [done|].
  destruct Hc as [Hc1 Hc2]. rewrite <- (bstep_cooldown b s).
  apply IH; [by rewrite bstep_cooldown|done|by eapply timed_step].
Qed.

Lemma new_breaker_timed T name cfg : timed T (new_breaker name cfg).
Proof. constructor; simpl; naive_solver. Qed.

End BreakerFacts.

Section BreakerTheorems.

(** C36: Half-open admits one probe at a time.  Once a dispatch has been
    granted the half-open probe slot at [now1], no dispatch at all is admitted
    before a full cooldown has passed, whatever failures, releases of other
    claims and alert deliveries are interleaved -- unless that claim itself is
    handed back or a success closes the circuit. *)
Theorem probe_exclusive b b1 b2 now1 now2 k1 adm tr :
  begin_dispatch b now1 = (b1, (true, Some k1)) ->
  clocked now1 tr -> (last_clock now1 tr <= now2)%Q ->
  Forall (fun s => keeps_claim k1 s.2) tr ->
  begin_dispatch (brun b1 tr) now2 = (b2, (true, adm)) ->
  (now1 + cooldown_seconds b <= now2)%Q.
Proof.
  intros Hb Hc Hl Hk Hb2.
  apply begin_dispatch_claim in Hb as (_ & _ & Hb1).
  assert (cooldown_seconds b1 = cooldown_seconds b) as Hcool by (by subst b1).
  assert (guarded k1 now1 (cooldown_seconds b1) b1) as Hg by (by subst b1).
  destruct (guarded_run k1 now1 b1 now1 tr Hg Hk (Qle_refl _) Hc) as [Hle|Hg2];
    [rewrite <- Hcool; lra|].
  assert (cooldown_seconds (brun b1 tr) = cooldown_seconds b1) as Hcool2.
  { clear. revert b1; induction tr; simpl; intros b1; [done|].
    etransitivity; [apply IHtr|apply bstep_cooldown]. }
  rewrite <- Hcool2 in Hg2. rewrite <- Hcool, <- Hcool2.
  destruct (decide (now2 < now1 + cooldown_seconds (brun b1 tr))%Q) as [Hlt|]; [|lra].
  rewrite (guarded_refuses _ _ _ _ Hg2 Hlt) in Hb2. congruence.
Qed.

(** The circuit never wedges.  In every execution from a fresh breaker,
    one cooldown after its last operation a dispatch is admitted again -- even
    if every claim handed out so far was never given back -- and the pure query
    [allow_request] answers exactly what [begin_dispatch] then does. *)
Theorem breaker_never_wedged name cfg t0 tr now :
  (0 <= cfg_cooldown_seconds cfg)%Q -> clocked t0 tr ->
  (last_clock t0 tr + cfg_cooldown_seconds cfg <= now)%Q ->
  let b := brun (new_breaker name cfg) tr in
  allow_request b now = true /\ exists b' k, begin_dispatch b now = (b', (true, k)).
Proof.
  intros Hcool Hc Hnow b.
  destruct (timed_run t0 (new_breaker name cfg) tr) as [[Ho Hp _] Hcd]; auto.
  { apply new_breaker_timed. }
  destruct (brun_wf (new_breaker name cfg) tr (new_breaker_wf _ _)) as [_ _ _ _ Hopen _ _ _].
  fold b in Ho, Hp, Hcd, Hopen. simpl in Hcd. rewrite Hcd in Hp.
  unfold allow_request, begin_dispatch, _probe_claim_live, _claim_probe.
  destruct (state b) eqn:E; [eauto| |].
  - destruct Hopen as [t Ht]; [done|]. rewrite Ht.
    specialize (Ho _ Ht). rewrite Hcd, bool_decide_true, decide_False by lra. eauto.
  - destruct (probe_deadline b) as [d|] eqn:D; [|eauto].
    specialize (Hp _ eq_refl). rewrite bool_decide_false by lra. eauto.
Qed.

(** A probe slot is freed by nobody but its owner.  If the slot held by
    claim [k] is no longer [k]'s after an operation, then that operation handed
    [k] itself back, or was a success that closed the circuit, or re-issued the
    slot after [k]'s deadline had lapsed. *)
Theorem probe_release_owner name cfg t0 tr s k :
  (0 <= cfg_cooldown_seconds cfg)%Q -> clocked t0 tr ->
  let b := brun (new_breaker name cfg) tr in
  probe_token b = Some k -> probe_token (bstep b s) <> Some k ->
  s.2 = OpEnd k \/
  (s.2 = OpSuccess /\ state (bstep b s) = CLOSED) \/
  (s.2 = OpBegin /\ exists d, probe_deadline b = Some d /\ (d <= perf_counter s.1)%Q).
Proof.
  intros Hcool Hc b Hk Hne.
  destruct (timed_run t0 (new_breaker name cfg) tr) as [Ht Hcd]; auto using new_breaker_timed.
  pose proof (brun_wf (new_breaker name cfg) tr (new_breaker_wf _ _)) as Hwf.
  fold b in Ht, Hwf, Hcd. destruct (proj2 (wf_claim _ Hwf) ltac:(eauto)) as [d Hd].
  destruct s as [e []]; cbn [fst snd bstep] in *.
  - right; right; split; [done|]. exists d; split; [done|].
    destruct (begin_dispatch b (perf_counter e)) as [b1 [ad ok]] eqn:E.
    revert E Hne. unfold begin_dispatch, _probe_claim_live, _claim_probe. rewrite Hd.
    destruct (state b) eqn:St; [intros; simplify_eq/=|..].
    + destruct (last_opened b) as [t|] eqn:L; [|intros; simplify_eq/=].
      case_decide; intros; simplify_eq/=.
      pose proof (timed_open _ _ Ht t d St L Hd). lra.
    + case_bool_decide; intros; simplify_eq/=. lra.
  - left. revert Hne. unfold end_dispatch. case_decide; [|done]. congruence.
  - right; left. split; [done|]. revert Hne. unfold on_success.
    destruct (state b) eqn:St; simpl; rewrite ?St; done.
  - exfalso. apply Hne. match goal with |- context [on_failure b e ?a ?r ?d ?c] =>
      pose proof (on_failure_circuit b e a r d c) as Hs end.
    destruct Hs as (_ & _ & _ & _ & _ & _ & _ & _ & -> & _). unfold failed. by case_match.
  - exfalso. apply Hne. match goal with |- context [circuit_alert_sent b e ?a ?r ?d] =>
      pose proof (circuit_alert_sent_circuit b e a r d) as Hs end.
    by destruct Hs as (_ & _ & _ & _ & _ & _ & _ & _ & -> & _).
Qed.

(** *** Plan-usage pages *)

(** The monotonic-clock readings of a trace, starting no earlier than [t0]. *)
Definition mono_from (t0 : Q) (tr : list (env * bop)) : Prop :=
  Forall (fun s => (t0 <= monotonic s.1)%Q) tr.

Definition pages (fx : list effect) : Prop := exists c ep g, SendCircuitAlert c ep g ∈ fx.

(** The last plan-usage decision is at [t0] or later. *)
Definition alerted_since (t0 : Q) (b : breaker) : Prop :=
  exists t, usage_limit_alerted_at b = Some t /\ (t0 <= t)%Q.

Lemma gates_rate_limited b e u t :
  usage_limit_alerted_at b = Some t -> (monotonic e - t < _MIN_ALERT_GAP_SEC)%Q ->
  held_back (gates_of b e (Some u)) = true.
Proof.
  intros Hb Hlt. unfold held_back, gates_of, g_alerting_off, g_muted, g_rate_limited.
  rewrite Hb, (bool_decide_true (monotonic e - t < _)%Q) by done.
  cbn [andb]. by rewrite orb_true_r.
Qed.

Lemma page_trip_alerted t0 b e cs a r d :
  (t0 <= monotonic e)%Q -> alerted_since t0 b ->
  alerted_since t0 (page_trip b e cs a r d).1.1.
Proof.
  intros Hm Ha. unfold page_trip. destruct (detect_usage_limit _ _) as [u|]; [|done].
  destruct (held_back _).
  - unfold hold_page, alerted_since in *. destruct u; simpl; case_match; simpl; eauto.
  - unfold send_page, alerted_since in *. destruct u; simpl; case_match; simpl; eauto.
Qed.

Lemma bstep_alerted t0 b s :
  (t0 <= monotonic s.1)%Q -> alerted_since t0 b -> alerted_since t0 (bstep b s).
Proof.
  intros Hm Ha. destruct s as [e []]; cbn [fst snd bstep] in *.
  - unfold begin_dispatch, _claim_probe; repeat case_match; simplify_eq/=; done.
  - unfold end_dispatch; by case_decide.
  - unfold on_success; by repeat case_match.
  - unfold on_failure. cbn -[detect_usage_limit page_trip].
    destruct (_ || _); [|done]. cbn [negb]. destruct (bool_decide _); [done|].
    by apply page_trip_alerted.
  - unfold circuit_alert_sent, alerted_since in *.
    repeat case_match; simpl; eauto.
Qed.

(** Plan-usage pages of one endpoint are at least [MIN_ALERT_GAP] apart:
    once one has been delivered, no failure recognised as a usage limit within
    the next four hours pages again, whatever recoveries, re-trips and other
    deliveries happen in between. *)
Theorem usage_pages_spaced b e0 ep g tr e a r d c u :
  mono_from (monotonic e0) tr -> (monotonic e0 <= monotonic e)%Q ->
  (monotonic e - monotonic e0 < _MIN_ALERT_GAP_SEC)%Q ->
  detect_usage_limit d (utcnow e) = Ok (Some u) ->
  ~ pages (on_failure (brun (circuit_alert_sent b e0 (Some ep) g true) tr) e a r d c).1.2.
Proof.
  intros Hm Hle Hgap Hu (cx & ep' & g' & Hin).
  assert (alerted_since (monotonic e0) (brun (circuit_alert_sent b e0 (Some ep) g true) tr))
    as (t & Ht & Hge).
  { assert (alerted_since (monotonic e0) (circuit_alert_sent b e0 (Some ep) g true)) as Hs.
    { unfold circuit_alert_sent, alerted_since. repeat case_decide; simpl; eexists; split;
        reflexivity || apply Qle_refl. }
    revert Hs. generalize (circuit_alert_sent b e0 (Some ep) g true). clear -Hm.
    induction Hm as [|s tr Hs Htr IH]; simpl; auto using bstep_alerted. }
  revert Hin. generalize dependent (brun (circuit_alert_sent b e0 (Some ep) g true) tr).
  intros b' Ht Hin. unfold on_failure in Hin. cbn -[detect_usage_limit page_trip] in Hin.
  destruct (_ || _); cbn [negb] in Hin; [|set_solver].
  destruct (bool_decide _); [set_solver|].
  unfold page_trip in Hin. rewrite Hu in Hin.
  rewrite (gates_rate_limited _ _ _ t) in Hin by (done || lra). unfold hold_page in Hin. simpl in Hin. set_solver.
Qed.

End BreakerTheorems.

(** ** Instances at concrete values *)

Module Sample.

Definition cfg : breaker_settings := {|
  cfg_failure_threshold := 1; cfg_cooldown_seconds := 30;
  cfg_min_availability := 1 # 2; cfg_ewma_alpha := 1 # 5 |}.

Definition at_time (t : Q) : env := {|
  perf_counter := t; monotonic := t; utcnow := 1785427200 * SECOND; running_loop := true;
  policy := {| enabled := true; page_on_usage_limit := true; cooldown_sec := 60; settle_sec := 5 |};
  settings := cfg; ctx := {| ctx_user_id := None; ctx_user_name := None |} |}.

Definition usage_text : chars := chars_of "Your 5 hour usage limit is spent".
Definition fails (t : Q) : env * bop := (at_time t, OpFailure None (chars_of "http") None None).
Definition begins (t : Q) : env * bop := (at_time t, OpBegin).

(** Tripped at time 0; the probe of time 30 is out. *)
Definition tripped : breaker := brun (new_breaker "local" cfg) [fails 0].
Definition probing : breaker := brun tripped [begins 30].

End Sample.

Lemma availability_closed_form_witness :
  let a := cfg_ewma_alpha Sample.cfg in
  let l := [true; false; true] in
  let v := availability (record_all (new_health Sample.cfg) l) in
  (v == qpow (1 - a) 3 + success_weight a l)%Q /\ (0 <= v <= 1)%Q.
Proof.
  intros a l v. apply (availability_closed_form Sample.cfg l). simpl. split; lra.
Defined.

(** Another request fails at 31; the next probe, at 61, is a cooldown away. *)
Lemma probe_exclusive_witness :
  (begin_dispatch Sample.tripped 30).2 = (true, Some 1) /\
  (begin_dispatch (brun Sample.probing [Sample.fails 31]) 61).2 = (true, Some 2) /\
  (30 + 30 <= 61)%Q.
Proof.
  split; [vm_compute; reflexivity|]. split; [vm_compute; reflexivity|].
  apply (probe_exclusive Sample.tripped Sample.probing
           (begin_dispatch (brun Sample.probing [Sample.fails 31]) 61).1
           30 61 1 (Some 2) [Sample.fails 31]).
  - vm_compute. reflexivity.
  - simpl. split; [lra|done].
  - simpl. lra.
  - repeat constructor.
  - vm_compute. reflexivity.
Defined.

(** The probe of time 30 never reports back. *)
Lemma breaker_never_wedged_witness :
  let b := brun (new_breaker "local" Sample.cfg) [Sample.fails 0; Sample.begins 30] in
  allow_request b 60 = true /\ exists b' k, begin_dispatch b 60 = (b', (true, k)).
Proof.
  intros b. apply (breaker_never_wedged "local" Sample.cfg 0 [Sample.fails 0; Sample.begins 30] 60).
  - simpl. lra.
  - simpl. split_and!; [lra|lra|done].
  - simpl. lra.
Defined.

(** The probe of time 30 hands its own slot back. *)
Lemma probe_release_owner_witness :
  let tr := [Sample.fails 0; Sample.begins 30] in
  let b := brun (new_breaker "local" Sample.cfg) tr in
  let s := (Sample.at_time 31, OpEnd 1) in
  probe_token b = Some 1 /\ probe_token (bstep b s) = None /\
  (s.2 = OpEnd 1 \/ (s.2 = OpSuccess /\ state (bstep b s) = CLOSED) \/
   (s.2 = OpBegin /\ exists d, probe_deadline b = Some d /\ (d <= perf_counter s.1)%Q)).
Proof.
  intros tr b s. split; [vm_compute; reflexivity|]. split; [vm_compute; reflexivity|].
  apply (probe_release_owner "local" Sample.cfg 0 tr s 1).
  - simpl. lra.
  - simpl. split_and!; [lra|lra|done].
  - vm_compute. reflexivity.
  - vm_compute. congruence.
Defined.

(** A page delivered at 0; an hour and a recovery later, the plan trips again. *)
Lemma usage_pages_spaced_witness :
  let e := Sample.at_time 3600 in
  let b := brun (circuit_alert_sent Sample.tripped (Sample.at_time 0) (Some 100%Q) 0 true)
             [(Sample.at_time 1800, OpSuccess)] in
  state b = CLOSED /\
  ~ pages (on_failure b e None (chars_of "http") (Some Sample.usage_text) None).1.2.
Proof.
  intros e b. split; [vm_compute; reflexivity|]. unfold b.
  eapply (usage_pages_spaced Sample.tripped (Sample.at_time 0) 100 0
            [(Sample.at_time 1800, OpSuccess)] e).
  - repeat constructor; simpl; lra.
  - simpl. lra.
  - vm_compute. reflexivity.
  - vm_compute. reflexivity.
Defined.
