(* ===== verification/EndpointHealth.v ===== *)
(** Endpoint health, all endpoints: [EndpointHealthRegistry] of
    [routing/endpoint_health.py], over the per-endpoint state of
    [CircuitBreaker].

    The registry creates an endpoint's health and circuit on first use.  The
    refinement theorem at the end says that this, the shared maps and the shared
    lock are invisible: every endpoint behaves as a state machine of its own
    that sees exactly the operations naming it. *)

From S2P Require Import Prelude PyText UsageLimit Failures CircuitBreaker.

Local Open Scope Z_scope.

(** [serving.exceptions.operator_safe_error]: the scrubbed text of an exception. *)
Class ErrorText := operator_safe_error : exn -> option chars.

(** ** State *)

(** [DispatchClaim] *)
Record dispatch_claim : Type := DispatchClaim {
  claim_endpoint : string;
  claim_token : option Z
}.

(** [EndpointHealthRegistry] *)
Record registry : Type := Registry {
  health : gmap string provider_health;
  circuits : gmap string breaker;
  auth_alert_at : gmap string Q
}.
#[export] Instance eta_registry : Eta registry := fun r =>
  Registry (health r) (circuits r) (auth_alert_at r).

Definition new_registry : registry := Registry ∅ ∅ ∅.

Definition _AUTH_ALERT_SCHEDULE_INTERVAL_SEC : Q := 5.

(** [_auth_alert_key] *)
Definition _auth_alert_key (endpoint_id : string) : string :=
  ("upstream_auth:" +:+ endpoint_id)%string.

(** ** Operations *)

(** [_ensure_circuit_locked]: the registry holding the circuit, and the circuit. *)
Definition _ensure_circuit (r : registry) (e : env) (id : string) : registry * breaker :=
  match circuits r !! id with
  | Some c => (r, c)
  | None =>
      let c := new_breaker id (settings e) in
      (r <| circuits := <[id := c]> (circuits r) |>, c)
  end.

(** [ensure] *)
Definition ensure (r : registry) (e : env) (id : string) : registry :=
  let r := match health r !! id with
           | Some _ => r
           | None => r <| health := <[id := new_health (settings e)]> (health r) |>
           end in
  (_ensure_circuit r e id).1.

(** [EndpointHealthRegistry.allow_request] *)
Definition registry_allow_request (r : registry) (e : env) (id : string) : registry * bool :=
  let '(r, c) := _ensure_circuit r e id in
  (r, allow_request c (perf_counter e)).

(** [EndpointHealthRegistry.begin_dispatch] *)
Definition registry_begin_dispatch (r : registry) (e : env) (id : string) :
    registry * option dispatch_claim :=
  let '(r, c) := _ensure_circuit r e id in
  let '(c, (admitted, probe_token)) := begin_dispatch c (perf_counter e) in
  let r := r <| circuits := <[id := c]> (circuits r) |> in
  (r, if admitted then Some (DispatchClaim id probe_token) else None).

(** [EndpointHealthRegistry.end_dispatch] *)
Definition registry_end_dispatch (r : registry) (claim : option dispatch_claim) : registry :=
  match claim with
  | Some (DispatchClaim id (Some token)) =>
      match circuits r !! id with
      | Some c => r <| circuits := <[id := end_dispatch c token]> (circuits r) |>
      | None => r
      end
  | _ => r
  end.

(** [_resolve_auth_misconfig] *)
Definition _resolve_auth_misconfig (e : env) (id : string) : list effect :=
  Log "upstream_auth_recovered" ::
  _fire_and_forget e (ReportTransition (_auth_alert_key id) false None).

(** [_report_auth_misconfig] *)
Definition _report_auth_misconfig (r : registry) (e : env) (id : string) :
    registry * list effect :=
  let throttled :=
    match auth_alert_at r !! id with
    | Some last => bool_decide (monotonic e - last < _AUTH_ALERT_SCHEDULE_INTERVAL_SEC)%Q
    | None => false
    end in
  if throttled then
    (r, [Log "upstream_auth_misconfig"; HeldBack (_auth_alert_key id) false min_alert_gap])
  else
    (r <| auth_alert_at := <[id := monotonic e]> (auth_alert_at r) |>,
     Log "upstream_auth_misconfig" ::
     _fire_and_forget e (ReportTransition (_auth_alert_key id) true None)).

(** [record_success] *)
Definition record_success (r : registry) (e : env) (id : string) : registry * list effect :=
  let r := ensure r e id in
  match health r !! id, circuits r !! id with
  | Some h, Some c =>
      let '(h, auth_run_ended) := record h true in
      let r := r <| health := <[id := h]> (health r) |> in
      let r := if auth_run_ended
               then r <| auth_alert_at := delete id (auth_alert_at r) |> else r in
      let '(c, fx) := on_success c e in
      let r := r <| circuits := <[id := c]> (circuits r) |> in
      (r, fx ++ if auth_run_ended then _resolve_auth_misconfig e id else [])
  | _, _ => (r, [])  (* not after [ensure] *)
  end.

Section Failure.
Context `{ErrorText}.

(** The part of [record_failure] that charges the endpoint. *)
Definition charge_failure (r : registry) (e : env) (id : string) (reason : chars)
    (detail : option chars) (exc : option exn) (status : option Z) (auth_misconfig : bool) :
    registry * list effect * option py_error :=
  let detail := match detail, exc with
                | None, Some x => operator_safe_error x
                | _, _ => detail
                end in
  let safe_detail := _detail_str detail in
  let r := ensure r e id in
  match health r !! id, circuits r !! id with
  | Some h, Some c =>
      let '(h, _) := record h false in
      let '(h, auth_rejections) := note_failure h status auth_misconfig in
      let r := r <| health := <[id := h]> (health r) |> in
      let '(c, fx, err) :=
        on_failure c e (Some (availability h)) (_reason_str reason) safe_detail
          (_caller_str (ctx e)) in
      let r := r <| circuits := <[id := c]> (circuits r) |> in
      match err with
      | Some err => (r, fx, Some err)
      | None =>
          if auth_misconfig then
            let '(r, fx') := _report_auth_misconfig r e id in (r, fx ++ fx', None)
          else (r, fx, None)
      end
  | _, _ => (r, [], None)  (* not after [ensure] *)
  end.

(** [record_failure] *)
Definition record_failure (r : registry) (e : env) (id : string) (reason : chars)
    (detail : option chars) (exc : option exn) : registry * list effect * option py_error :=
  match classify exc with
  | Uncharged event => (r, [Log event], None)
  | ClientError _ => (r, [Log "client_error_skip_breaker"], None)
  | Charged status auth => charge_failure r e id reason detail exc status auth
  end.

(** The end of a circuit page's delivery, for the endpoint it was raised for. *)
Definition registry_alert_sent (r : registry) (e : env) (id : string)
    (suppress_epoch : option Q) (generation : Z) (delivered : bool) : registry :=
  match circuits r !! id with
  | Some c =>
      r <| circuits := <[id := circuit_alert_sent c e suppress_epoch generation delivered]>
                         (circuits r) |>
  | None => r
  end.

End Failure.

(** [snapshot]: one endpoint's entry; [None] stands for the [KeyError] an
    endpoint with health and no circuit would raise. *)
Definition snapshot_entry (r : registry) (id : string) (h : provider_health) :
    option (Q * circuit_state * option Z * Z) :=
  c ← circuits r !! id;
  Some (availability h, state c, last_error_status h, consecutive_auth_rejections h).

Definition snapshot (r : registry) : list (string * option (Q * circuit_state * option Z * Z)) :=
  (fun '(id, h) => (id, snapshot_entry r id h)) <$> map_to_list (health r).

(** ** The abstract endpoint

    What the registry promises: one state machine per endpoint, here without
    maps, creation or identifiers of other endpoints. *)

Record endpoint : Type := Endpoint {
  ep_health : provider_health;
  ep_circuit : breaker;
  ep_auth_alert_at : option Q
}.

Definition fresh_endpoint (cfg : breaker_settings) (id : string) : endpoint :=
  Endpoint (new_health cfg) (new_breaker id cfg) None.

Inductive eop : Type :=
| EAllow
| EBegin
| EEnd (token : option Z)
| ESuccess
| EFailure (reason : chars) (detail : option chars) (exc : option exn)
| EAlertSent (suppress_epoch : option Q) (generation : Z) (delivered : bool).

Inductive output : Type :=
| Allowed (b : bool)
| Claimed (c : option (option Z))
| Recorded (fx : list effect) (err : option py_error)
| Done.

Section Machines.
Context `{ErrorText}.

Definition estep_failure (x : endpoint) (e : env) (id : string) (reason : chars)
    (detail : option chars) (exc : option exn) : endpoint * output :=
  match classify exc with
  | Uncharged event => (x, Recorded [Log event] None)
  | ClientError _ => (x, Recorded [Log "client_error_skip_breaker"] None)
  | Charged status auth =>
      let text := match detail, exc with
                  | None, Some q => operator_safe_error q
                  | _, _ => detail
                  end in
      let h := (note_failure (record (ep_health x) false).1 status auth).1 in
      let '(c, fx, err) :=
        on_failure (ep_circuit x) e (Some (availability h)) (_reason_str reason)
          (_detail_str text) (_caller_str (ctx e)) in
      let throttled :=
        match ep_auth_alert_at x with
        | Some last => bool_decide (monotonic e - last < _AUTH_ALERT_SCHEDULE_INTERVAL_SEC)%Q
        | None => false
        end in
      match err with
      | Some _ => (Endpoint h c (ep_auth_alert_at x), Recorded fx err)
      | None =>
          if negb auth then (Endpoint h c (ep_auth_alert_at x), Recorded fx None)
          else if throttled then
            (Endpoint h c (ep_auth_alert_at x),
             Recorded (fx ++ [Log "upstream_auth_misconfig";
                              HeldBack (_auth_alert_key id) false min_alert_gap]) None)
          else
            (Endpoint h c (Some (monotonic e)),
             Recorded (fx ++ Log "upstream_auth_misconfig" ::
               _fire_and_forget e (ReportTransition (_auth_alert_key id) true None)) None)
      end
  end.

Definition estep (id : string) (x : endpoint) (e : env) (o : eop) : endpoint * output :=
  match o with
  | EAllow => (x, Allowed (allow_request (ep_circuit x) (perf_counter e)))
  | EBegin =>
      let '(c, (admitted, token)) := begin_dispatch (ep_circuit x) (perf_counter e) in
      (Endpoint (ep_health x) c (ep_auth_alert_at x),
       Claimed (if admitted then Some token else None))
  | EEnd None => (x, Done)
  | EEnd (Some t) =>
      (Endpoint (ep_health x) (end_dispatch (ep_circuit x) t) (ep_auth_alert_at x), Done)
  | ESuccess =>
      let '(h, ended) := record (ep_health x) true in
      let '(c, fx) := on_success (ep_circuit x) e in
      (Endpoint h c (if ended then None else ep_auth_alert_at x),
       Recorded (fx ++ if ended then _resolve_auth_misconfig e id else []) None)
  | EFailure reason detail exc => estep_failure x e id reason detail exc
  | EAlertSent ep g d =>
      (Endpoint (ep_health x) (circuit_alert_sent (ep_circuit x) e ep g d)
         (ep_auth_alert_at x), Done)
  end.

(** The same operations on the registry. *)
Definition rstep (r : registry) (e : env) (id : string) (o : eop) : registry * output :=
  match o with
  | EAllow => let '(r, b) := registry_allow_request r e id in (r, Allowed b)
  | EBegin => let '(r, c) := registry_begin_dispatch r e id in (r, Claimed (claim_token <$> c))
  | EEnd t => (registry_end_dispatch r (Some (DispatchClaim id t)), Done)
  | ESuccess => let '(r, fx) := record_success r e id in (r, Recorded fx None)
  | EFailure reason detail exc =>
      let '(r, fx, err) := record_failure r e id reason detail exc in (r, Recorded fx err)
  | EAlertSent ep g d => (registry_alert_sent r e id ep g d, Done)
  end.

(** The endpoint an observer of [id] sees, created or not. *)
Definition view (cfg : breaker_settings) (r : registry) (id : string) : endpoint :=
  Endpoint (default (new_health cfg) (health r !! id))
    (default (new_breaker id cfg) (circuits r !! id)) (auth_alert_at r !! id).

(** A page's delivery ends on a circuit that exists: the one that raised it. *)
Definition alert_known (r : registry) (id : string) (o : eop) : Prop :=
  match o with
  | EAlertSent _ _ _ => is_Some (circuits r !! id)
  | _ => True
  end.

Lemma view_ensure r e id id' : view (settings e) (ensure r e id) id' = view (settings e) r id'.
Proof.
  unfold view, ensure, _ensure_circuit. f_equal.
  - destruct (health r !! id) eqn:Hh; simpl; destruct (circuits r !! id); simpl; auto;
      rewrite lookup_insert; case_decide; subst; rewrite ?Hh; done.
  - destruct (health r !! id); simpl; destruct (circuits r !! id) eqn:Hc; simpl; auto;
      rewrite lookup_insert; case_decide; subst; rewrite ?Hc; done.
  - destruct (health r !! id); simpl; destruct (circuits r !! id); done.
Qed.

Lemma ensure_exists r e id :
  health (ensure r e id) !! id = Some (ep_health (view (settings e) r id)) /\
  circuits (ensure r e id) !! id = Some (ep_circuit (view (settings e) r id)) /\
  auth_alert_at (ensure r e id) = auth_alert_at r.
Proof.
  unfold view, ensure, _ensure_circuit; simpl.
  destruct (health r !! id) eqn:Hh; simpl; destruct (circuits r !! id) eqn:Hc; simpl;
    rewrite ?Hh, ?Hc, ?lookup_insert_eq; done.
Qed.

Lemma ensure_circuit_exists r e id :
  circuits (_ensure_circuit r e id).1 !! id = Some (ep_circuit (view (settings e) r id)) /\
  (_ensure_circuit r e id).2 = ep_circuit (view (settings e) r id) /\
  forall id', view (settings e) (_ensure_circuit r e id).1 id' = view (settings e) r id'.
Proof.
  unfold view, _ensure_circuit. simpl.
  destruct (circuits r !! id) eqn:Hc; simpl; rewrite ?Hc, ?lookup_insert_eq; split_and!; auto.
  intros id'. rewrite lookup_insert. case_decide; subst; rewrite ?Hc; done.
Qed.

(** Rewriting the entries of one endpoint is invisible to the others. *)
Lemma view_other cfg h c a r id id' :
  id <> id' -> a !! id' = auth_alert_at r !! id' ->
  view cfg (Registry (<[id := h]> (health r)) (<[id := c]> (circuits r)) a) id' =
  view cfg r id'.
Proof. intros Hne Ha. unfold view; simpl. by rewrite !lookup_insert_ne, Ha. Qed.

Lemma view_same cfg h c a r id :
  view cfg (Registry (<[id := h]> (health r)) (<[id := c]> (circuits r)) a) id =
  Endpoint h c (a !! id).
Proof. unfold view; simpl. by rewrite !lookup_insert_eq. Qed.

Lemma insert_same_health r id h :
  health r !! id = Some h -> r = Registry (<[id := h]> (health r)) (circuits r) (auth_alert_at r).
Proof. intros Hh. rewrite insert_id by done. by destruct r. Qed.

(** The simulation, one operation at a time. *)
Definition simulates (cfg : breaker_settings) (r : registry) (id : string)
    (res : registry * output) (spec : endpoint * output) : Prop :=
  res.2 = spec.2 /\ view cfg res.1 id = spec.1 /\
  forall id', id <> id' -> view cfg res.1 id' = view cfg r id'.

Lemma simulates_ensure r e id res spec :
  simulates (settings e) (ensure r e id) id res spec -> simulates (settings e) r id res spec.
Proof.
  intros (H1 & H2 & H3). split_and!; auto.
  intros id' Hne. rewrite H3 by done. apply view_ensure.
Qed.

Lemma success_simulates r e id :
  simulates (settings e) r id (rstep r e id ESuccess)
    (estep id (view (settings e) r id) e ESuccess).
Proof.
  apply simulates_ensure. unfold rstep, estep, record_success.
  destruct (ensure_exists r e id) as (Hh & Hc & Ha). rewrite Hh, Hc.
  destruct (record _ true) as [h ended]. destruct (on_success _ e) as [c fx].
  unfold simulates; cbn -[view].
  destruct ended; cbn -[view]; split_and!; rewrite ?view_same, ?Ha, ?lookup_delete_eq; auto;
    intros id' Hne; apply view_other; auto; simpl; rewrite ?Ha, ?lookup_delete_ne; auto.
Qed.

Lemma failure_simulates r e id reason detail exc :
  simulates (settings e) r id (rstep r e id (EFailure reason detail exc))
    (estep id (view (settings e) r id) e (EFailure reason detail exc)).
Proof.
  unfold rstep, estep, estep_failure, record_failure.
  destruct (classify exc) as [ev|st|st auth]; [by repeat split|by repeat split|].
  apply simulates_ensure. unfold charge_failure.
  destruct (ensure_exists r e id) as (Hh & Hc & Ha). rewrite Hh, Hc.
  set (r1 := ensure r e id) in *. set (x := view (settings e) r id) in *.
  assert (ep_auth_alert_at x = auth_alert_at r1 !! id) as -> by (by rewrite Ha).
  destruct (record (ep_health x) false) as [h0 b0]. cbn [fst].
  destruct (note_failure h0 st auth) as [h n]. cbn [fst].
  destruct (on_failure _ _ _ _ _ _) as [[c fx] err].
  unfold simulates, _report_auth_misconfig; cbn -[view].
  destruct err; cbn -[view]; [|destruct auth; cbn -[view]; [destruct (auth_alert_at r1 !! id) as [t|] eqn:Et;
    cbn -[view]; [destruct (bool_decide _)|]|]]; cbn -[view];
    split_and!; rewrite ?view_same, ?lookup_insert_eq, ?Et; auto;
    intros id' Hne; apply view_other; auto; simpl; by rewrite lookup_insert_ne.
Qed.

Lemma circuit_only_view cfg r id c :
  let r' := r <| circuits := <[id := c]> (circuits r) |> in
  view cfg r' id = Endpoint (ep_health (view cfg r id)) c (ep_auth_alert_at (view cfg r id)) /\
  forall id', id <> id' -> view cfg r' id' = view cfg r id'.
Proof.
  intros r'. subst r'. unfold view; simpl. rewrite lookup_insert_eq. split; [done|].
  intros id' Hne. by rewrite lookup_insert_ne.
Qed.

Lemma rstep_simulates r e id o :
  alert_known r id o ->
  simulates (settings e) r id (rstep r e id o) (estep id (view (settings e) r id) e o).
Proof.
  destruct o as [| |t| | |ep g d]; intros Hk;
    [| | |apply success_simulates|apply failure_simulates|].
  - unfold rstep, estep, registry_allow_request, simulates.
    destruct (ensure_circuit_exists r e id) as (_ & H2 & H3).
    destruct (_ensure_circuit r e id) as [r1 c]; cbn -[view] in *. subst c. auto.
  - unfold rstep, estep, registry_begin_dispatch, simulates.
    destruct (ensure_circuit_exists r e id) as (_ & H2 & H3).
    destruct (_ensure_circuit r e id) as [r1 c0]; cbn -[view] in *. subst c0.
    destruct (begin_dispatch _ _) as [c [[] tok]]; cbn -[view];
      destruct (circuit_only_view (settings e) r1 id c) as [Hs Ho];
      cbn -[view ep_health ep_auth_alert_at] in Hs, Ho;
      rewrite Hs, !H3; split_and!; auto; intros id' Hne; rewrite Ho; auto.
  - unfold rstep, estep, registry_end_dispatch, simulates. destruct t as [t|]; [|done].
    destruct (circuits r !! id) as [c|] eqn:Hc; cbn -[view].
    + destruct (circuit_only_view (settings e) r id (end_dispatch c t)) as [Hs Ho].
      simpl in Hs, Ho. rewrite Hs. unfold view at 1 2 3; simpl. rewrite Hc. auto.
    + unfold view; simpl. rewrite Hc; simpl. auto.
  - unfold rstep, estep, registry_alert_sent, simulates. destruct Hk as [c Hc]. rewrite Hc.
    cbn -[view].
    destruct (circuit_only_view (settings e) r id (circuit_alert_sent c e ep g d)) as [Hs Ho].
    simpl in Hs, Ho. rewrite Hs. unfold view at 1 2 3; simpl. rewrite Hc. auto.
Qed.

(** ** Executions *)

Definition step : Type := env * string * eop.

Fixpoint rrun (r : registry) (tr : list step) : registry * list (string * output) :=
  match tr with
  | [] => (r, [])
  | (e, id, o) :: tr' =>
      let '(r, out) := rstep r e id o in
      let '(r, outs) := rrun r tr' in (r, (id, out) :: outs)
  end.

Fixpoint erun (id : string) (x : endpoint) (tr : list (env * eop)) : endpoint * list output :=
  match tr with
  | [] => (x, [])
  | (e, o) :: tr' =>
      let '(x, out) := estep id x e o in
      let '(x, outs) := erun id x tr' in (x, out :: outs)
  end.

(** The operations of a trace that name [id]. *)
Definition project (id : string) (tr : list step) : list (env * eop) :=
  omap (fun '(e, id', o) => if decide (id' = id) then Some (e, o) else None) tr.

Definition outputs_of (id : string) (outs : list (string * output)) : list output :=
  omap (fun '(id', o) => if decide (id' = id) then Some o else None) outs.

Fixpoint alerts_known (r : registry) (tr : list step) : Prop :=
  match tr with
  | [] => True
  | (e, id, o) :: tr' => alert_known r id o /\ alerts_known (rstep r e id o).1 tr'
  end.

Definition configured (cfg : breaker_settings) (tr : list step) : Prop :=
  Forall (fun s => settings s.1.1 = cfg) tr.

Lemma rrun_simulates cfg id r tr :
  configured cfg tr -> alerts_known r tr ->
  let '(r', outs) := rrun r tr in
  erun id (view cfg r id) (project id tr) = (view cfg r' id, outputs_of id outs).
Proof.
  revert r; induction tr as [|[[e id'] o] tr IH]; intros r Hcfg Hk; [done|].
  apply Forall_cons in Hcfg as [He Hcfg]. destruct Hk as [Hk Hks]. simpl in He. subst cfg.
  destruct (rstep_simulates r e id' o Hk) as (Ho & Hv & Hother).
  simpl. destruct (rstep r e id' o) as [r1 out]; cbn [fst snd] in *.
  specialize (IH r1 Hcfg Hks). destruct (rrun r1 tr) as [r' outs].
  unfold outputs_of in *; csimpl. destruct (decide (id' = id)) as [->|Hne].
  - simpl. destruct (estep id _ e o) as [x' out']; cbn [fst snd] in *. subst.
    by rewrite IH.
  - rewrite <- Hother by done. exact IH.
Qed.

(** ** Failure streaks *)

Definition is_charged (exc : option exn) : bool :=
  match classify exc with Charged _ _ => true | _ => false end.

(** The charged failures of an endpoint since its last success. *)
Definition streak_step (n : Z) (o : eop) : Z :=
  match o with
  | ESuccess => 0
  | EFailure _ _ exc => if is_charged exc then n + 1 else n
  | _ => n
  end.
Definition streak (tr : list (env * eop)) : Z := foldl (fun n s => streak_step n s.2) 0 tr.

(** What every reachable endpoint satisfies; [n] is its current streak. *)
Definition endpoint_ok (cfg : breaker_settings) (n : Z) (x : endpoint) : Prop :=
  breaker_wf (ep_circuit x) /\
  failure_threshold (ep_circuit x) = cfg_failure_threshold cfg /\
  cooldown_seconds (ep_circuit x) = cfg_cooldown_seconds cfg /\
  consecutive_failures (ep_circuit x) = n.

Lemma failure_streak (b : breaker) e a r d c :
  breaker_wf b ->
  breaker_wf (on_failure b e a r d c).1.1 /\
  failure_threshold (on_failure b e a r d c).1.1 = failure_threshold b /\
  cooldown_seconds (on_failure b e a r d c).1.1 = cooldown_seconds b /\
  consecutive_failures (on_failure b e a r d c).1.1 = consecutive_failures b + 1.
Proof.
  intros Hwf. pose proof (on_failure_circuit b e a r d c) as Hs.
  split; [by eapply same_circuit_wf, failed_wf|].
  destruct Hs as (_ & _ & -> & -> & _ & -> & _). unfold failed. by case_match.
Qed.

Lemma estep_ok cfg n id x e o :
  endpoint_ok cfg n x -> endpoint_ok cfg (streak_step n o) (estep id x e o).1.
Proof.
  intros (Hwf & Ht & Hc & Hn). destruct o as [| |[t|]| |reason detail exc|ep g d]; simpl.
  - done.
  - pose proof (begin_dispatch_wf (ep_circuit x) (perf_counter e) Hwf) as Hwf'.
    destruct (begin_dispatch _ _) as [c [ad tok]] eqn:E. simpl in *.
    split; [done|]. revert E. unfold begin_dispatch, _claim_probe.
    repeat case_match; intros; simplify_eq/=; auto.
  - split; [by apply end_dispatch_wf|]. unfold end_dispatch. simpl. by case_decide.
  - done.
  - pose proof (on_success_wf (ep_circuit x) e Hwf) as Hwf'.
    destruct (record _ true). destruct (on_success _ e) as [c fx] eqn:E. simpl in *.
    split; [done|]. revert E. unfold on_success. repeat case_match; intros; simplify_eq/=; auto.
  - unfold estep_failure, is_charged.
    destruct (classify exc) as [ev|st|st auth]; [done|done|]. simpl.
    destruct (on_failure _ _ _ _ _ _) as [[c fx] err] eqn:E.
    match type of E with on_failure ?b ?e ?a ?r ?d ?cl = _ =>
      destruct (failure_streak b e a r d cl Hwf) as (F1 & F2 & F3 & F4) end.
    rewrite E in *. cbn [fst snd] in *.
    assert (endpoint_ok cfg (n + 1) (Endpoint (ep_health x) c (ep_auth_alert_at x))) as Hok
      by (unfold endpoint_ok; simpl; split_and!; congruence).
    destruct err; [exact Hok|]. destruct auth; [|exact Hok].
    cbn [negb]. repeat case_match; exact Hok.
  - pose proof (circuit_alert_sent_circuit (ep_circuit x) e ep g d) as Hs.
    split; [by eapply same_circuit_wf|]. simpl.
    destruct Hs as (_ & _ & -> & -> & _ & -> & _). done.
Qed.

Lemma erun_ok cfg id tr n x :
  endpoint_ok cfg n x ->
  endpoint_ok cfg (foldl (fun n s => streak_step n s.2) n tr) (erun id x tr).1.
Proof.
  revert n x; induction tr as [|[e o] tr IH]; intros n x Hok; [done|]. simpl.
  pose proof (estep_ok cfg n id x e o Hok) as Hok'.
  destruct (estep id x e o) as [x' out]. simpl in Hok'.
  specialize (IH _ _ Hok'). by destruct (erun id x' tr).
Qed.

Lemma fresh_endpoint_ok cfg id : endpoint_ok cfg 0 (fresh_endpoint cfg id).
Proof. split; [apply new_breaker_wf|done]. Qed.

End Machines.

Section Theorems.
Context `{ErrorText}.

(** C34: Refinement.  The registry, which keeps every endpoint's health and
    circuit in shared maps and creates them on first use, behaves for each
    endpoint exactly like a state machine of its own that sees only the
    operations naming that endpoint: same answers, same claims, same recorded
    effects and exceptions, same final state. *)
Theorem registry_refines_endpoints cfg id tr :
  configured cfg tr -> alerts_known new_registry tr ->
  let '(r, outs) := rrun new_registry tr in
  erun id (fresh_endpoint cfg id) (project id tr) = (view cfg r id, outputs_of id outs).
Proof. apply (rrun_simulates cfg id new_registry tr). Qed.

(** What the registry holds for [id] after a trace. *)
Lemma rrun_endpoint_ok cfg id tr :
  configured cfg tr -> alerts_known new_registry tr ->
  endpoint_ok cfg (streak (project id tr)) (view cfg (rrun new_registry tr).1 id).
Proof.
  intros Hcfg Hk. pose proof (rrun_simulates cfg id new_registry tr Hcfg Hk) as Hs.
  destruct (rrun new_registry tr) as [r outs]; simpl.
  pose proof (erun_ok cfg id (project id tr) 0 _ (fresh_endpoint_ok cfg id)) as Hok.
  change (view cfg new_registry id) with (fresh_endpoint cfg id) in Hs.
  by rewrite Hs in Hok.
Qed.

(** A streak opens the circuit.  After any interleaving of operations on
    any endpoints, a charged failure that completes [failure_threshold] charged
    failures of an endpoint since its last success opens its circuit: no
    dispatch to it is admitted until the cooldown has passed. *)
Theorem streak_opens_circuit cfg id tr e reason detail exc e' :
  configured cfg tr -> alerts_known new_registry tr ->
  settings e = cfg -> settings e' = cfg ->
  is_charged exc = true ->
  cfg_failure_threshold cfg <= streak (project id tr) + 1 ->
  (perf_counter e' < perf_counter e + cfg_cooldown_seconds cfg)%Q ->
  let r := (rrun new_registry tr).1 in
  let r1 := (rstep r e id (EFailure reason detail exc)).1 in
  (registry_begin_dispatch r1 e' id).2 = None.
Proof.
  intros Hcfg Hk He He' Hch Hn Hlt r r1.
  destruct (rrun_endpoint_ok cfg id tr Hcfg Hk) as (Hwf & Ht & Hc & Hs). fold r in Hwf, Ht, Hc, Hs.
  destruct (rstep_simulates r e id (EFailure reason detail exc) I) as (_ & Hv & _).
  fold r1 in Hv. rewrite He in Hv.
  assert (exists t, let b := ep_circuit (view cfg r1 id) in
    state b = OPEN /\ last_opened b = Some t /\ (perf_counter e <= t)%Q /\
    cooldown_seconds b = cfg_cooldown_seconds cfg) as (t & Ho & Hl & Hle & Hcd).
  { rewrite Hv. unfold estep, estep_failure. unfold is_charged in Hch.
    destruct (classify exc) as [| |st auth]; try done.
    destruct (on_failure _ _ _ _ _ _) as [[c fx] err] eqn:E.
    match type of E with on_failure ?b ?e ?a ?r ?d ?cl = _ =>
      pose proof (on_failure_circuit b e a r d cl) as Hsc end.
    rewrite E in Hsc. cbn [fst snd] in Hsc.
    destruct Hsc as (_ & H1 & _ & H2 & _ & _ & H3 & _).
    unfold failed, trips in H1, H2, H3. rewrite Ht, Hs in H1, H2, H3.
    rewrite bool_decide_true in H1, H2, H3 by done. cbn in H1, H2, H3.
    exists (perf_counter e). cbn zeta.
    repeat case_match; simpl; rewrite H1, H2, H3; split_and!; try done; apply Qle_refl. }
  unfold registry_begin_dispatch.
  destruct (ensure_circuit_exists r1 e' id) as (_ & Hcir & _). rewrite He' in Hcir.
  destruct (_ensure_circuit r1 e' id) as [r2 c]; cbn [snd] in Hcir. subst c.
  unfold begin_dispatch. rewrite Ho, Hl, decide_True by (rewrite Hcd; lra). done.
Qed.

(** Failures that are not the endpoint's leave no trace.  A refusal by a
    key pool, the outbound limiter or an engine wait, an answer that the model
    is queued, and a client error (any 4xx but 401, 407, 408, 429) change
    neither health nor circuit of any endpoint, and page nobody. *)
Theorem uncharged_failure_ignored r e id reason detail exc :
  (is_Some (_uncharged_failure_event exc) \/
   (exists s, http_status_of exc = Some s /\ 400 <= s < 500 /\ s ∉ [401; 407; 408; 429])) ->
  exists ev, record_failure r e id reason detail (Some exc) = (r, [Log ev], None).
Proof.
  unfold record_failure. intros [[ev Hev]|(s & Hs & Hr & Hn)].
  - unfold classify. simpl. rewrite Hev. eauto.
  - destruct (_uncharged_failure_event exc) as [ev|] eqn:Hev.
    { unfold classify. simpl. rewrite Hev. eauto. }
    rewrite (classify_status _ Hev), Hs, !bool_decide_true by done.
    rewrite bool_decide_false by done. simpl. eauto.
Qed.

(** C39: an overlong usage window escapes as an exception.  Let a charged failure open a
    circuit that was not open, by its streak or by the endpoint's availability, and let
    the failure's text be a usage limit whose window is too long for a datetime (its
    length is out of range, or it declares no reset and now plus the length is past the
    calendar).  Then [record_failure] raises [OverflowError] to its caller.  By then the
    circuit is open and its settling interrupted, but no page was sent or held back,
    and a credential rejection is not reported. *)
Theorem record_failure_overflow r e id reason detail exc status auth text :
  classify (Some exc) = Charged status auth ->
  _detail_str (match detail with None => operator_safe_error exc | Some _ => detail end) = Some text ->
  overlong text (utcnow e) ->
  let x := view (settings e) r id in
  let h := (note_failure (record (ep_health x) false).1 status auth).1 in
  state (ep_circuit x) <> OPEN -> trips (ep_circuit x) (Some (availability h)) = true ->
  let '(r', fx, err) := record_failure r e id reason detail (Some exc) in
  err = Some OverflowError /\
  fx = [InterruptSettle (circuit_key (ep_circuit x))] /\
  auth_alert_at r' = auth_alert_at r /\
  exists c, circuits r' !! id = Some c /\ state c = OPEN /\ last_opened c = Some (perf_counter e).
Proof.
  intros Hcl Htxt Hlong%detect_usage_limit_overflow x h Hst Htr. unfold record_failure. rewrite Hcl.
  unfold charge_failure.
  rewrite Htxt. destruct (ensure_exists r e id) as (-> & -> & Ha). fold x. clearbody x.
  subst h. destruct (record (ep_health x) false) as [h0 b0]. cbn [fst] in Htr.
  destruct (note_failure h0 status auth) as [h n]. cbn [fst] in Htr.
  unfold trips in Htr. unfold on_failure. cbn -[detect_usage_limit page_trip _reason_str ensure availability].
  rewrite Htr. cbn [negb]. rewrite bool_decide_false by done. unfold page_trip. rewrite Hlong.
  cbn -[ensure insert lookup]. split_and!; [done|done|done|].
  eexists; split; [apply lookup_insert_eq|done].
Qed.

End Theorems.

(** ** Instances at concrete values *)

Module SampleRegistry.

Definition overflow_text : chars := chars_of "Usage limit reached for 100000000 hour".
#[local] Instance texts : ErrorText := fun _ => Some overflow_text.

Definition server_error : exn := Exn OtherException
  {| attr_status := Some 503; attr_status_code := None; attr_code := None; attr_response := None |}.
Definition bad_request : exn := Exn OtherException
  {| attr_status := Some 400; attr_status_code := None; attr_code := None; attr_response := None |}.

Definition trace : list step :=
  [(Sample.at_time 0, "local"%string, EBegin);
   (Sample.at_time 1, "remote"%string, EFailure (chars_of "http") (Some (chars_of "down")) (Some server_error));
   (Sample.at_time 2, "remote"%string, EAlertSent None 0 true);
   (Sample.at_time 3, "local"%string, ESuccess)].

Lemma trace_configured : configured Sample.cfg trace.
Proof. repeat constructor. Defined.

Lemma trace_alerts_known : alerts_known new_registry trace.
Proof. split_and!; try exact I. vm_compute. eauto. Defined.

End SampleRegistry.
#[local] Existing Instance SampleRegistry.texts.

Lemma registry_refines_endpoints_witness :
  let '(r, outs) := rrun new_registry SampleRegistry.trace in
  outputs_of "remote" outs <> [] /\
  erun "remote" (fresh_endpoint Sample.cfg "remote") (project "remote" SampleRegistry.trace) =
    (view Sample.cfg r "remote", outputs_of "remote" outs).
Proof.
  pose proof (registry_refines_endpoints Sample.cfg "remote" SampleRegistry.trace
    SampleRegistry.trace_configured SampleRegistry.trace_alerts_known) as Href.
  destruct (rrun new_registry SampleRegistry.trace) as [r outs] eqn:E.
  split; [|exact Href]. intros Hnil.
  apply (f_equal (fun p => outputs_of "remote" p.2)) in E. simpl in E. rewrite Hnil in E.
  vm_compute in E. congruence.
Defined.

Lemma streak_opens_circuit_witness :
  let r := (rrun new_registry SampleRegistry.trace).1 in
  let r1 := (rstep r (Sample.at_time 4) "local"
               (EFailure (chars_of "http") (Some []) (Some SampleRegistry.server_error))).1 in
  (registry_begin_dispatch r1 (Sample.at_time 33) "local").2 = None.
Proof.
  apply (streak_opens_circuit Sample.cfg "local" SampleRegistry.trace);
    try exact SampleRegistry.trace_configured; try exact SampleRegistry.trace_alerts_known;
    vm_compute; congruence.
Defined.

Lemma uncharged_failure_ignored_witness :
  exists ev, record_failure new_registry (Sample.at_time 0) "local" (chars_of "http") None
               (Some SampleRegistry.bad_request) = (new_registry, [Log ev], None).
Proof.
  apply (uncharged_failure_ignored new_registry). right. exists 400.
  split; [vm_compute; reflexivity|]. split; [lia|]. by apply (bool_decide_unpack _); vm_compute.
Defined.

Lemma record_failure_overflow_witness :
  let '(r, fx, err) := record_failure new_registry (Sample.at_time 0) "local" (chars_of "http") None
                         (Some SampleRegistry.server_error) in
  err = Some OverflowError /\ fx = [InterruptSettle "circuit_open:local"] /\ auth_alert_at r = ∅ /\
  exists c, circuits r !! "local"%string = Some c /\ state c = OPEN /\ last_opened c = Some 0%Q.
Proof.
  apply (record_failure_overflow new_registry (Sample.at_time 0) "local" (chars_of "http") None
           SampleRegistry.server_error (Some 503) false SampleRegistry.overflow_text).
  - vm_compute. reflexivity.
  - vm_compute. reflexivity.
  - apply overlong_sample. vm_compute. split; congruence.
  - discriminate.
  - vm_compute. reflexivity.
Defined.
