(* ===== verification/KeyPool.v ===== *)
(** The key pool of one provider: [serving/adapters/key_pool.py], with the role
    ranks of [serving/config/settings.py].

    A pool hands out the best usable key, rotates a failing request onto an
    untried one, and mutes a key only when the request has nowhere left to go.
    Instants are the readings of [time.monotonic] at the call. *)

From S2P Require Import Prelude Failures.

Local Open Scope Z_scope.

(** ** Roles ([serving/config/settings.py]) *)

(** [ROLE_RANK.get(role)] *)
Definition ROLE_RANK (role : string) : option Z :=
  if decide (role = "free"%string) then Some 0
  else if decide (role = "pro"%string) then Some 1
  else if decide (role = "internal"%string) then Some 2
  else if decide (role = "admin"%string) then Some 3
  else None.

(** [ROLE_RANK.get(role, 0)] *)
Definition rank (role : string) : Z := default 0 (ROLE_RANK role).

(** [has_role] *)
Definition has_role (user_role required : string) : bool :=
  match ROLE_RANK required with
  | None => false
  | Some n => bool_decide (n <= rank user_role)
  end.

Definition DEFAULT_MIN_ROLE : string := "free".

(** [normalize_min_role] *)
Definition normalize_min_role (min_role : option string) : string :=
  match min_role with
  | Some m => match ROLE_RANK m with Some _ => m | None => DEFAULT_MIN_ROLE end
  | None => DEFAULT_MIN_ROLE
  end.

(** ** Statuses *)

(** [should_mute_status] *)
Definition should_mute_status (status_code : Z) : bool :=
  if bool_decide (200 <= status_code < 300) then false
  else if bool_decide (status_code = 0) then true
  else if bool_decide (status_code ∈ [401; 402; 403; 408; 425; 429]) then true
  else bool_decide (500 <= status_code <= 599).

(** [is_key_specific_status] *)
Definition is_key_specific_status (status_code : Z) : bool :=
  bool_decide (status_code ∈ [401; 402; 403; 429]).

(** [ReleaseOutcome] *)
Inductive release_outcome : Type := PROPAGATE | ROTATED | MUTED.

(** ** State *)

(** [_KeyState] *)
Record key_state : Type := KeyState {
  key : string;
  request_count : Z;
  cooldown_until : Q;
  removed : bool;
  min_role : string;
  key_failures : Z    (* consecutive_failures *)
}.
#[export] Instance eta_key_state : Eta key_state := fun k =>
  KeyState (key k) (request_count k) (cooldown_until k) (removed k) (min_role k) (key_failures k).

Definition new_key (k : string) (role : string) : key_state := KeyState k 0 0 false role 0.

(** [_Affinity] *)
Record affinity : Type := Affinity {
  key_index : nat;
  expires_at : Q;
  aff_role : option string
}.

(** [Lease] *)
Record lease : Type := Lease {
  lease_index : nat;
  lease_affinity : option string;
  lease_role : option string
}.

(** [KeyPool] *)
Record pool : Type := Pool {
  keys : list key_state;
  affinities : gmap string affinity
}.
#[export] Instance eta_pool : Eta pool := fun p => Pool (keys p) (affinities p).

Definition AFFINITY_TTL_SECONDS : Q := 300.
Definition MUTE_SECONDS : Q := 20.
Definition SWEEP_THRESHOLD : nat := 1000.
Definition SOLE_KEY_BACKOFF_THRESHOLD : Z := 2.
Definition SOLE_KEY_BACKOFF_BASE_SECONDS : Q := 15.

(** [_role_may_use] *)
Definition _role_may_use (role : option string) (k : key_state) : bool :=
  if bool_decide (min_role k = DEFAULT_MIN_ROLE) then true
  else match role with
       | None => true
       | Some r => has_role r (min_role k)
       end.

(** [KeyPool.__init__]; [None] is its [ValueError]. *)
Definition new_pool (ks : list string) (roles : gmap string string) : option pool :=
  match ks with
  | [] => None
  | _ =>
      let deduped :=
        foldl (fun acc k => if bool_decide (k ∈ acc) then acc else acc ++ [k]) [] ks in
      Some (Pool ((fun k => new_key k (normalize_min_role (roles !! k))) <$> deduped) ∅)
  end.

(** ** Selection *)

(** The filter of [_pick_first_available_locked] on one slot. *)
Definition usable (now : Q) (role : option string) (exclude : list nat) (i : nat)
    (k : key_state) : bool :=
  negb (removed k) && bool_decide (cooldown_until k <= now)%Q
  && negb (bool_decide (i ∈ exclude)) && _role_may_use role k.

(** [(-rank, i) < (-rank', i')] on tuples. *)
Definition better (x y : Z * nat) : bool :=
  bool_decide (x.1 < y.1) || (bool_decide (x.1 = y.1) && bool_decide (x.2 < y.2)%nat).

Fixpoint candidates (now : Q) (role : option string) (exclude : list nat) (i : nat)
    (ks : list key_state) : list (Z * nat) :=
  match ks with
  | [] => []
  | k :: ks' =>
      let rest := candidates now role exclude (S i) ks' in
      if usable now role exclude i k then (- rank (min_role k), i) :: rest else rest
  end.

(** [min] of a list of tuples. *)
Fixpoint min_candidate (x : Z * nat) (l : list (Z * nat)) : Z * nat :=
  match l with
  | [] => x
  | y :: l' => min_candidate (if better y x then y else x) l'
  end.

(** [_pick_first_available_locked] *)
Definition _pick_first_available (p : pool) (now : Q) (role : option string)
    (exclude : list nat) : option nat :=
  match candidates now role exclude 0 (keys p) with
  | [] => None
  | c :: cs => Some (min_candidate c cs).2
  end.

(** [size] *)
Definition size_of (p : pool) (role : option string) : nat :=
  length (filter (fun k => negb (removed k) && _role_may_use role k) (keys p)).

(** [can_serve_role] *)
Definition can_serve_role (p : pool) (now : Q) (role : option string) : bool :=
  match _pick_first_available p now role [] with Some _ => true | None => false end.

(** [snapshot_keys] *)
Definition snapshot_keys (p : pool) : list string :=
  key <$> filter (fun k => negb (removed k)) (keys p).

(** ** Operations *)

(** [_maybe_sweep_locked] *)
Definition _maybe_sweep (p : pool) (now : Q) : pool :=
  if decide (size (affinities p) <= SWEEP_THRESHOLD)%nat then p
  else p <| affinities := filter (fun e => ~ (expires_at e.2 < now)%Q) (affinities p) |>.

(** Whether [_drop_repointed_affinities_locked] drops a binding. *)
Definition repointed (p : pool) (now : Q) (a : affinity) : bool :=
  match keys p !! key_index a with
  | None => true
  | Some bound =>
      if removed bound || negb (_role_may_use (aff_role a) bound) then true
      else match _pick_first_available p now (aff_role a) [] with
           | None => false
           | Some preferred => negb (bool_decide (preferred = key_index a))
           end
  end.

(** [_drop_repointed_affinities_locked] *)
Definition _drop_repointed (p : pool) (now : Q) : pool :=
  p <| affinities := filter (fun e => repointed p now e.2 = false) (affinities p) |>.

Definition slot_of (p : pool) (k : string) : option (nat * key_state) :=
  list_find (fun s => key s = k) (keys p).

(** [add_key] *)
Definition add_key (p : pool) (now : Q) (k : string) (role : option string) : pool * nat :=
  match slot_of p k with
  | Some (idx, s) =>
      let reactivated := removed s in
      let s := s <| removed := false |> in
      let '(s, retiered) :=
        match role with
        | Some r =>
            let normalized := normalize_min_role (Some r) in
            (s <| min_role := normalized |>, negb (bool_decide (min_role s = normalized)))
        | None => (s, false)
        end in
      let p := p <| keys := <[idx := s]> (keys p) |> in
      ((if reactivated || retiered then _drop_repointed p now else p), idx)
  | None =>
      let p := p <| keys := keys p ++ [new_key k (normalize_min_role role)] |> in
      (_drop_repointed p now, (length (keys p) - 1)%nat)
  end.

(** [set_key_min_role] *)
Definition set_key_min_role (p : pool) (now : Q) (k : string) (role : option string) :
    pool * bool :=
  let normalized := normalize_min_role role in
  let hit s := bool_decide (key s = k) && negb (removed s) in
  let found := existsb hit (keys p) in
  let changed :=
    existsb (fun s => hit s && negb (bool_decide (min_role s = normalized))) (keys p) in
  let p := p <| keys := (fun s => if hit s then s <| min_role := normalized |> else s)
                          <$> keys p |> in
  ((if changed then _drop_repointed p now else p), found).

(** [remove_key] *)
Definition remove_key (p : pool) (now : Q) (k : string) : pool * bool :=
  match list_find (fun s => key s = k /\ removed s = false) (keys p) with
  | Some (idx, s) =>
      let p := p <| keys := <[idx := s <| removed := true |>]> (keys p) |> in
      (_drop_repointed p now, true)
  | None => (p, false)
  end.

(** Whether [acquire] honours a live binding. *)
Definition honoured (p : pool) (now : Q) (role : option string) (exclude : list nat)
    (a : affinity) : bool :=
  match keys p !! key_index a with
  | None => false
  | Some bound =>
      bool_decide (now < expires_at a)%Q && bool_decide (aff_role a = role)
      && usable now role exclude (key_index a) bound
  end.

Definition count_request (p : pool) (i : nat) : pool :=
  p <| keys := alter (fun s => s <| request_count := request_count s + 1 |>) i (keys p) |>.

Definition raw_key (p : pool) (i : nat) : string := from_option key ""%string (keys p !! i).

(** The selection half of [acquire]: no binding is honoured. *)
Definition acquire_fresh (p : pool) (now : Q) (affinity_key role : option string)
    (exclude : list nat) : pool * result exn_class (string * lease) :=
  match _pick_first_available p now role exclude with
  | None =>
      (p, Raise
        (if decide (is_Some (_pick_first_available p now role []))
         then KeyPoolExhausted
         else if decide (is_Some (_pick_first_available p now None []))
         then KeyPoolRoleRestricted else KeyPoolExhausted))
  | Some idx =>
      let p := match affinity_key with
               | Some a =>
                   p <| affinities :=
                     <[a := Affinity idx (now + AFFINITY_TTL_SECONDS)%Q role]> (affinities p) |>
               | None => p
               end in
      let p := count_request p idx in
      (p, Ok (raw_key p idx, Lease idx affinity_key role))
  end.

(** [acquire] *)
Definition acquire (p : pool) (now : Q) (affinity_key role : option string)
    (exclude : list nat) : pool * result exn_class (string * lease) :=
  let p := _maybe_sweep p now in
  match (affinity_key ≫= fun a => pair a <$> affinities p !! a) with
  | Some (a, existing) =>
      if honoured p now role exclude existing then
        let idx := key_index existing in
        let p := count_request p idx in
        (p, Ok (raw_key p idx, Lease idx affinity_key role))
      else
        let p := p <| affinities := delete a (affinities p) |> in
        acquire_fresh p now affinity_key role exclude
  | None => acquire_fresh p now affinity_key role exclude
  end.

(** [_has_untried_usable_key_locked]; [tried = []] gives
    [_has_other_usable_key_locked]. *)
Definition _has_untried_usable_key (p : pool) (exclude_idx : nat) (now : Q)
    (role : option string) (tried : list nat) : bool :=
  match candidates now role (exclude_idx :: tried) 0 (keys p) with
  | [] => false
  | _ => true
  end.

(** [_has_other_usable_key_locked] *)
Definition _has_other_usable_key (p : pool) (exclude_idx : nat) (now : Q)
    (role : option string) : bool := _has_untried_usable_key p exclude_idx now role [].

(** The sole-key backoff of [release] after [failures] consecutive failures. *)
Definition sole_key_backoff (failures : Z) : Q :=
  let backoff_step := Z.min (failures - SOLE_KEY_BACKOFF_THRESHOLD - 1) 8 in
  py_min (SOLE_KEY_BACKOFF_BASE_SECONDS * inject_Z (2 ^ backoff_step)) MUTE_SECONDS.

Definition set_slot (p : pool) (i : nat) (s : key_state) : pool :=
  p <| keys := <[i := s]> (keys p) |>.

(** [release] *)
Definition release (p : pool) (now : Q) (l : lease) (status_code : option Z)
    (tried : list nat) : pool * release_outcome :=
  let i := lease_index l in
  match status_code, keys p !! i with
  | None, _ | _, None => (p, PROPAGATE)
  | Some st, Some s =>
      if negb (should_mute_status st) then
        (if bool_decide (200 <= st < 300) then set_slot p i (s <| key_failures := 0 |>) else p,
         PROPAGATE)
      else
        let s := s <| key_failures := key_failures s + 1 |> in
        let p := set_slot p i s in
        if negb (bool_decide (tried = [])) && _has_untried_usable_key p i now (lease_role l) tried
        then (p, ROTATED)
        else
          let is_sole_key := negb (_has_other_usable_key p i now (lease_role l)) in
          let mute d := set_slot p i (s <| cooldown_until := (now + d)%Q |>) in
          if negb (is_key_specific_status st) then
            if is_sole_key then (p, PROPAGATE) else (mute MUTE_SECONDS, MUTED)
          else if is_sole_key then
            if bool_decide (key_failures s <= SOLE_KEY_BACKOFF_THRESHOLD) then (p, PROPAGATE)
            else (mute (sole_key_backoff (key_failures s)), MUTED)
          else (mute MUTE_SECONDS, MUTED)
  end.

(** ** Selection is the best usable key *)

Lemma candidates_spec now role ex j ks r i :
  (r, i) ∈ candidates now role ex j ks <->
  exists n k, ks !! n = Some k /\ i = (j + n)%nat /\ usable now role ex i k = true /\
    r = - rank (min_role k).
Proof.
  revert j; induction ks as [|k ks IH]; intros j; simpl.
  - split; [by intros ?%elem_of_nil|naive_solver].
  - assert ((r, i) ∈ candidates now role ex (S j) ks <->
      exists n k', (k :: ks) !! S n = Some k' /\ i = (j + S n)%nat /\
        usable now role ex i k' = true /\ r = - rank (min_role k')) as Hrest.
    { rewrite IH. split; intros (n & k' & ? & ? & ? & ?); exists n, k'; simpl in *;
        split_and!; auto; lia. }
    destruct (usable now role ex j k) eqn:U.
    + rewrite elem_of_cons, Hrest. split.
      * intros [Heq|(n & k' & ?)]; [|by exists (S n), k']. simplify_eq.
        exists 0%nat, k. rewrite Nat.add_0_r. auto.
      * intros ([|n] & k' & ? & ? & ? & ?); [left|right; by exists n, k'].
        simplify_eq/=. by rewrite Nat.add_0_r.
    + rewrite Hrest. split; [intros (n & k' & ?); by exists (S n), k'|].
      intros ([|n] & k' & ? & Hi & Hu & ?); [|by exists n, k'].
      simplify_eq/=. rewrite Nat.add_0_r in Hu. congruence.
Qed.

Lemma candidates_intro now role ex ks i k :
  ks !! i = Some k -> usable now role ex i k = true ->
  (- rank (min_role k), i) ∈ candidates now role ex 0 ks.
Proof. intros. apply candidates_spec. by exists i, k. Qed.

(** [better] is the strict lexicographic order. *)
Lemma better_spec x y : better x y = true <-> x.1 < y.1 \/ (x.1 = y.1 /\ (x.2 < y.2)%nat).
Proof. unfold better. rewrite orb_true_iff, andb_true_iff, !bool_decide_eq_true. done. Qed.

Lemma min_candidate_spec x l :
  min_candidate x l ∈ x :: l /\ forall y, y ∈ x :: l -> better y (min_candidate x l) = false.
Proof.
  revert x; induction l as [|z l IH]; intros x; simpl.
  - split; [set_solver|]. intros y ->%list_elem_of_singleton.
    apply not_true_iff_false. rewrite better_spec. lia.
  - destruct (IH (if better z x then z else x)) as [Hin Hmin].
    split; [destruct (better z x); set_solver|].
    intros y Hy. apply not_true_iff_false. intros Hb%better_spec.
    set (m := min_candidate _ l) in *.
    assert (forall w, w = z \/ w = x -> better w m = false) as Hzx.
    { intros w Hw. pose proof (Hmin (if better z x then z else x) ltac:(set_solver)) as H0.
      apply not_true_iff_false in H0. rewrite better_spec in H0.
      apply not_true_iff_false. rewrite better_spec.
      destruct (better z x) eqn:E;
        [apply better_spec in E|apply not_true_iff_false in E; rewrite better_spec in E];
        destruct Hw; subst; lia. }
    apply elem_of_cons in Hy as [->|Hy]; [specialize (Hzx x ltac:(auto))|].
    { apply not_true_iff_false in Hzx. rewrite better_spec in Hzx. lia. }
    apply elem_of_cons in Hy as [->|Hy]; [specialize (Hzx z ltac:(auto))|].
    { apply not_true_iff_false in Hzx. rewrite better_spec in Hzx. lia. }
    specialize (Hmin y ltac:(set_solver)). apply not_true_iff_false in Hmin.
    rewrite better_spec in Hmin. lia.
Qed.

(** The best slot for a caller: usable, of the highest reserved tier among the
    usable ones, and the first of that tier. *)
Definition best_slot (p : pool) (now : Q) (role : option string) (ex : list nat) (i : nat) : Prop :=
  exists k, keys p !! i = Some k /\ usable now role ex i k = true /\
  forall j k', keys p !! j = Some k' -> usable now role ex j k' = true ->
    rank (min_role k') < rank (min_role k) \/
    (rank (min_role k') = rank (min_role k) /\ (i <= j)%nat).

Definition no_slot (p : pool) (now : Q) (role : option string) (ex : list nat) : Prop :=
  forall i k, keys p !! i = Some k -> usable now role ex i k = false.

Lemma pick_spec p now role ex :
  match _pick_first_available p now role ex with
  | Some i => best_slot p now role ex i
  | None => no_slot p now role ex
  end.
Proof.
  unfold _pick_first_available.
  destruct (candidates now role ex 0 (keys p)) as [|c cs] eqn:E.
  - intros i k Hk. apply not_true_iff_false. intros Hu.
    pose proof (candidates_intro _ _ _ _ _ _ Hk Hu) as Hin. rewrite E in Hin.
    by apply elem_of_nil in Hin.
  - destruct (min_candidate_spec c cs) as [Hin Hmin]. rewrite <- E in Hin, Hmin.
    destruct (min_candidate c cs) as [r i]. simpl.
    apply candidates_spec in Hin as (n & k & Hk & Hi & Hu & Hr). simpl in Hi. subst n.
    exists k; split_and!; auto. intros j k' Hk' Hu'.
    pose proof (candidates_intro _ _ _ _ _ _ Hk' Hu') as Hj.
    apply Hmin in Hj. apply not_true_iff_false in Hj. rewrite better_spec in Hj.
    simpl in Hj. subst r. lia.
Qed.

Lemma pick_none p now role ex :
  _pick_first_available p now role ex = None <-> no_slot p now role ex.
Proof.
  pose proof (pick_spec p now role ex) as H. destruct (_pick_first_available _ _ _ _) as [i|].
  - destruct H as (k & Hk & Hu & _). split; [done|]. intros Hn. rewrite (Hn _ _ Hk) in Hu. done.
  - done.
Qed.

Lemma has_untried_spec p i now role tried :
  _has_untried_usable_key p i now role tried = false <-> no_slot p now role (i :: tried).
Proof.
  rewrite <- pick_none. unfold _has_untried_usable_key, _pick_first_available.
  by destruct (candidates _ _ _ _ _).
Qed.

(** ** [acquire] *)

(** The live binding of a caller to slot [i], made in the caller's role and still
    usable for this request. *)
Definition bound_to (p : pool) (now : Q) (a role : option string) (ex : list nat) (i : nat) : Prop :=
  exists x af s, a = Some x /\ affinities p !! x = Some af /\ key_index af = i /\
    aff_role af = role /\ (now < expires_at af)%Q /\ keys p !! i = Some s /\ usable now role ex i s = true.

Lemma sweep_keys p now : keys (_maybe_sweep p now) = keys p.
Proof. unfold _maybe_sweep. by case_decide. Qed.

Lemma sweep_lookup p now x af :
  affinities (_maybe_sweep p now) !! x = Some af -> affinities p !! x = Some af.
Proof.
  unfold _maybe_sweep. case_decide; [done|]. simpl. intros [? _]%map_lookup_filter_Some. done.
Qed.

Lemma sweep_live p now x af :
  affinities p !! x = Some af -> (now < expires_at af)%Q -> affinities (_maybe_sweep p now) !! x = Some af.
Proof.
  intros Ha Hl. unfold _maybe_sweep. case_decide; [done|].
  apply map_lookup_filter_Some. split; [done|]. simpl. lra.
Qed.

(** [honoured] is having a live binding. *)
Lemma honoured_bound p now x role ex i :
  bound_to p now (Some x) role ex i <->
  exists af, affinities (_maybe_sweep p now) !! x = Some af /\ key_index af = i /\
    honoured (_maybe_sweep p now) now role ex af = true.
Proof.
  unfold honoured, bound_to. rewrite sweep_keys. split.
  - intros (y & af & s & [= <-] & Ha & <- & Hr & Hl & Hs & Hu). exists af.
    split_and!; [by apply sweep_live|done|]. rewrite Hs, Hu. by rewrite !bool_decide_eq_true_2.
  - intros (af & Ha%sweep_lookup & <- & Hh). destruct (keys p !! key_index af) as [s|] eqn:Hs; [|done].
    bool_facts. exists x, af, s. done.
Qed.

Lemma usable_keys p p' now role ex :
  keys p' = keys p ->
  (forall i, best_slot p now role ex i <-> best_slot p' now role ex i) /\
  (no_slot p now role ex <-> no_slot p' now role ex) /\
  _pick_first_available p' now role ex = _pick_first_available p now role ex.
Proof. intros E. unfold best_slot, no_slot, _pick_first_available. rewrite E. done. Qed.

(** What [acquire] answers with, against the pool as it was. *)
Definition acquire_post (p : pool) (now : Q) (a role : option string) (ex : list nat)
    (p' : pool) (res : result exn_class (string * lease)) : Prop :=
  match res with
  | Ok (k, l) =>
      let i := lease_index l in
      lease_affinity l = a /\ lease_role l = role /\
      (exists s, keys p !! i = Some s /\ key s = k /\ usable now role ex i s = true) /\
      (bound_to p now a role ex i /\ (forall x, a = Some x -> affinities p' !! x = affinities p !! x) \/
       (forall j, ~ bound_to p now a role ex j) /\ best_slot p now role ex i /\
       (forall x, a = Some x -> affinities p' !! x = Some (Affinity i (now + AFFINITY_TTL_SECONDS)%Q role))) /\
      keys p' = alter (fun s => s <| request_count := request_count s + 1 |>) i (keys p) /\
      (forall x, a = Some x -> exists af, affinities p' !! x = Some af /\ key_index af = i)
  | Raise c =>
      keys p' = keys p /\ no_slot p now role ex /\
      (c = KeyPoolExhausted \/ c = KeyPoolRoleRestricted) /\
      (c = KeyPoolRoleRestricted <-> no_slot p now role [] /\ ~ no_slot p now None [])
  end.

Lemma raw_key_count p ks i s :
  keys p = alter (fun s => s <| request_count := request_count s + 1 |>) i ks ->
  ks !! i = Some s -> key s = raw_key p i.
Proof. intros E Hs. unfold raw_key. by rewrite E, list_lookup_alter_eq, Hs. Qed.

Lemma acquire_fresh_post p p0 now a role ex :
  keys p0 = keys p -> (forall j, ~ bound_to p now a role ex j) ->
  acquire_post p now a role ex (acquire_fresh p0 now a role ex).1
    (acquire_fresh p0 now a role ex).2.
Proof.
  intros E Hnb. unfold acquire_fresh, acquire_post.
  destruct (usable_keys p p0 now role ex E) as (_ & _ & ->).
  destruct (usable_keys p p0 now role [] E) as (_ & _ & ->).
  destruct (usable_keys p p0 now None [] E) as (_ & _ & ->).
  pose proof (pick_spec p now role ex) as Hp.
  destruct (_pick_first_available p now role ex) as [i|].
  - pose proof Hp as (s & Hs & Hu & _).
    destruct a as [x|]; simpl; rewrite ?E; split_and!; auto.
    + exists s. split_and!; auto. by eapply raw_key_count.
    + right. split_and!; auto. intros y [= <-]. by rewrite lookup_insert_eq.
    + intros y [= <-]. rewrite lookup_insert_eq. eauto.
    + exists s. split_and!; auto. eapply raw_key_count; [simpl; by rewrite E|done].
    + right. by split_and!; auto.
    + done.
  - cbn [fst snd]. split_and!; [done|done|repeat case_decide; auto|].
    rewrite <- !pick_none, !eq_None_not_Some. repeat case_decide; naive_solver.
Qed.

Lemma acquire_post_holds p now a role ex :
  acquire_post p now a role ex (acquire p now a role ex).1 (acquire p now a role ex).2.
Proof.
  unfold acquire. set (p0 := _maybe_sweep p now).
  assert (keys p0 = keys p) as E by apply sweep_keys.
  destruct a as [x|]; simpl; [|apply acquire_fresh_post; [done|by intros j (? & ? & ? & ? & _)]].
  pose proof (fun i => honoured_bound p now x role ex i) as Hb. fold p0 in Hb.
  destruct (affinities p0 !! x) as [af|] eqn:Haf; simpl.
  2: { apply acquire_fresh_post; [done|]. intros j (af & ? & _)%Hb. congruence. }
  destruct (honoured p0 now role ex af) eqn:Hh.
  2: { apply acquire_fresh_post; [done|]. intros j (af' & ? & _ & ?)%Hb. congruence. }
  assert (bound_to p now (Some x) role ex (key_index af)) as Hbd by (apply Hb; eauto).
  pose proof Hbd as (? & ? & s & [= <-] & Ha & _ & _ & _ & Hs & Hu). simpl. split_and!; auto.
  - exists s. split_and!; auto. eapply raw_key_count; [simpl; by rewrite E|done].
  - left. split; [done|]. intros y [= <-]. rewrite Haf. symmetry. by apply (sweep_lookup p now).
  - by rewrite E.
  - intros ? [= <-]. eauto.
Qed.

(** C32: [acquire] hands out the right key.  The key is active, not muted, not
    one this request already tried, and never reserved above the caller's tier;
    it is the caller's live binding (not expired, made in the caller's role, its key
    still usable for this request) whenever there is one, and the binding is kept as
    it was; with no such binding it is the best usable slot (highest tier it may spend
    first, then configuration order), and a caller with an affinity key is bound to
    it for the time to live.  It refuses only when no slot
    is usable, and reports "restricted" exactly when an unrestricted caller
    could still be served and the refusal is not due to keys already tried. *)
Theorem acquire_correct p now a role ex :
  let '(p', res) := acquire p now a role ex in acquire_post p now a role ex p' res.
Proof. pose proof (acquire_post_holds p now a role ex). by destruct (acquire _ _ _ _ _). Qed.

(** ** The pool invariant *)

(** One slot per credential, every slot's tier a known role, and every binding
    within range. *)
Record pool_wf (p : pool) : Prop := {
  wf_keys : NoDup (key <$> keys p);
  wf_roles : Forall (fun s => is_Some (ROLE_RANK (min_role s))) (keys p);
  wf_bindings x a : affinities p !! x = Some a -> (key_index a < length (keys p))%nat
}.

Lemma normalize_min_role_known r : is_Some (ROLE_RANK (normalize_min_role r)).
Proof.
  unfold normalize_min_role. destruct r as [r|]; [|by eexists].
  destruct (ROLE_RANK r) eqn:E; [by rewrite E|by eexists].
Qed.

Lemma wf_fewer_bindings p q :
  pool_wf p -> keys q = keys p -> affinities q ⊆ affinities p -> pool_wf q.
Proof.
  intros [] E Hs. constructor; rewrite E; auto.
  intros x a Ha. eapply wf_bindings0, lookup_weaken; eauto.
Qed.

Lemma drop_repointed_wf p now : pool_wf p -> pool_wf (_drop_repointed p now).
Proof. intros Hwf. eapply wf_fewer_bindings; [done|done|]. apply map_filter_subseteq. Qed.

Lemma sweep_wf p now : pool_wf p -> pool_wf (_maybe_sweep p now).
Proof.
  intros Hwf. unfold _maybe_sweep. case_decide; [done|].
  eapply wf_fewer_bindings; [done|done|]. apply map_filter_subseteq.
Qed.

(** Rewriting slots without touching their credentials keeps the pool well formed. *)
Lemma wf_same_credentials p ks :
  pool_wf p -> key <$> ks = key <$> keys p ->
  Forall (fun s => is_Some (ROLE_RANK (min_role s))) ks -> pool_wf (p <| keys := ks |>).
Proof.
  intros [] E Hr. constructor; simpl; auto; [by rewrite E|].
  intros x a Ha. apply wf_bindings0 in Ha.
  by rewrite <- (length_fmap key ks), E, length_fmap.
Qed.

Lemma set_slot_wf p i s s' :
  pool_wf p -> keys p !! i = Some s -> key s' = key s -> is_Some (ROLE_RANK (min_role s')) ->
  pool_wf (set_slot p i s').
Proof.
  intros Hwf Hs Hk Hr. apply wf_same_credentials; [done| |].
  - rewrite list_fmap_insert, Hk. apply list_insert_id. by rewrite list_lookup_fmap, Hs.
  - apply Forall_insert; [apply Hwf|done].
Qed.

Lemma slot_role_known p i s : pool_wf p -> keys p !! i = Some s -> is_Some (ROLE_RANK (min_role s)).
Proof. intros Hwf Hs. exact (Forall_lookup_1 _ _ _ _ (wf_roles _ Hwf) Hs). Qed.

Lemma count_request_wf p i : pool_wf p -> pool_wf (count_request p i).
Proof.
  intros Hwf. apply wf_same_credentials; [done| |].
  - apply list_eq; intros j. rewrite !list_lookup_fmap, list_lookup_alter.
    case_decide; [subst|done]. by destruct (keys p !! j).
  - apply Forall_alter; [apply Hwf|done].
Qed.

Lemma new_pool_wf ks roles p : new_pool ks roles = Some p -> pool_wf p.
Proof.
  unfold new_pool. destruct ks as [|k0 ks0]; [done|]. intros [= <-].
  assert (forall l acc : list string, NoDup acc ->
    NoDup (foldl (fun (acc : list string) (k : string) =>
      if bool_decide (k ∈ acc) then acc else acc ++ [k]) acc l)) as Hnd.
  { induction l as [|k l IH]; simpl; auto. intros acc Hacc. apply IH.
    case_bool_decide; [done|]. apply NoDup_app; split_and!; auto; [|apply NoDup_singleton].
    intros x Hx ->%list_elem_of_singleton. done. }
  constructor; simpl.
  - rewrite <- list_fmap_compose. unfold compose; simpl.
    rewrite list_fmap_id. apply Hnd, NoDup_singleton.
  - apply Forall_fmap, Forall_true. intros k. apply normalize_min_role_known.
  - intros x a Ha. by rewrite lookup_empty in Ha.
Qed.

Lemma add_key_wf p now k r : pool_wf p -> pool_wf (add_key p now k r).1.
Proof.
  intros Hwf. unfold add_key, slot_of.
  destruct (list_find _ (keys p)) as [[i s]|] eqn:E.
  - apply list_find_Some in E as (Hs & Hk & _).
    assert (forall s', key s' = key s -> is_Some (ROLE_RANK (min_role s')) ->
      pool_wf (p <| keys := <[i := s']> (keys p) |>)) as Hset
      by (intros; by eapply set_slot_wf).
    destruct r as [r|]; cbn -[_drop_repointed].
    + destruct (_ || _); cbn -[_drop_repointed]; [apply drop_repointed_wf|];
        apply Hset; auto; exact (normalize_min_role_known (Some r)).
    + rewrite orb_false_r. destruct (removed s); cbn -[_drop_repointed];
        [apply drop_repointed_wf|]; apply Hset; auto; exact (slot_role_known p i s Hwf Hs).
  - apply list_find_None in E. cbn -[_drop_repointed]. apply drop_repointed_wf.
    destruct Hwf. constructor; simpl.
    + rewrite fmap_app; simpl. apply NoDup_app; split_and!; auto; [|apply NoDup_singleton].
      intros x Hx ->%list_elem_of_singleton. apply list_elem_of_fmap in Hx as (s & -> & Hs).
      rewrite Forall_forall in E. by apply (E _ Hs).
    + apply Forall_app; split; auto. constructor; [apply normalize_min_role_known|constructor].
    + intros x a Ha. apply wf_bindings0 in Ha. rewrite length_app. simpl. lia.
Qed.

Lemma set_key_min_role_wf p now k r : pool_wf p -> pool_wf (set_key_min_role p now k r).1.
Proof.
  intros Hwf. unfold set_key_min_role. cbn -[_drop_repointed].
  match goal with |- pool_wf (if ?c then _drop_repointed ?q _ else ?q) =>
    assert (pool_wf q) as Hq; [|destruct c; [by apply drop_repointed_wf|done]] end.
  apply wf_same_credentials; [done| |].
  - rewrite <- list_fmap_compose. apply list_fmap_ext. intros i s _. simpl. by case_match.
  - apply Forall_fmap. eapply Forall_impl; [apply Hwf|]. intros s Hs; simpl.
    case_match; [apply normalize_min_role_known|done].
Qed.

Lemma remove_key_wf p now k : pool_wf p -> pool_wf (remove_key p now k).1.
Proof.
  intros Hwf. unfold remove_key. destruct (list_find _ _) as [[i s]|] eqn:E; [|done].
  apply list_find_Some in E as (Hs & _ & _). cbn -[_drop_repointed].
  apply drop_repointed_wf. eapply set_slot_wf; eauto. exact (slot_role_known p i s Hwf Hs).
Qed.

Lemma acquire_fresh_wf p now a role ex : pool_wf p -> pool_wf (acquire_fresh p now a role ex).1.
Proof.
  intros Hwf. unfold acquire_fresh. pose proof (pick_spec p now role ex) as Hp.
  destruct (_pick_first_available p now role ex) as [i|]; [|done].
  cbn -[count_request]. apply count_request_wf. destruct a as [x|]; [|done].
  destruct Hp as (s & Hs & _). destruct Hwf. constructor; simpl; auto.
  intros y af. rewrite lookup_insert. case_decide; [|apply wf_bindings0].
  intros [= <-]. simpl. by eapply lookup_lt_Some.
Qed.

Lemma acquire_wf p now a role ex : pool_wf p -> pool_wf (acquire p now a role ex).1.
Proof.
  intros Hwf%(sweep_wf _ now). unfold acquire.
  destruct (a ≫= _) as [[x af]|]; [|by apply acquire_fresh_wf].
  destruct (honoured _ _ _ _ _); cbn -[count_request acquire_fresh _maybe_sweep].
  - by apply count_request_wf.
  - apply acquire_fresh_wf. eapply wf_fewer_bindings; [done|done|]. apply delete_subseteq.
Qed.

Lemma release_wf p now l st tried : pool_wf p -> pool_wf (release p now l st tried).1.
Proof.
  intros Hwf. unfold release. destruct st as [st|]; [|done].
  destruct (keys p !! lease_index l) as [s|] eqn:Hs; [|done].
  assert (forall s', key s' = key s -> min_role s' = min_role s ->
    pool_wf (set_slot p (lease_index l) s')) as Hset.
  { intros s' Hk Hr. eapply set_slot_wf; eauto. rewrite Hr. by eapply slot_role_known. }
  assert (forall s1 s2, key s2 = key s -> min_role s2 = min_role s ->
    pool_wf (set_slot (set_slot p (lease_index l) s1) (lease_index l) s2)) as Hset2.
  { intros s1 s2 Hk Hr. unfold set_slot; simpl. rewrite list_insert_insert_eq. by apply Hset. }
  cbn -[set_slot _has_untried_usable_key _has_other_usable_key].
  repeat case_match; cbn [fst]; auto.
Qed.

(** Every operation of the pool, as one step. *)
Inductive pool_op : Type :=
| OpAcquire (now : Q) (affinity_key role : option string) (exclude : list nat)
| OpRelease (now : Q) (l : lease) (status_code : option Z) (tried : list nat)
| OpAdd (now : Q) (k : string) (role : option string)
| OpRetier (now : Q) (k : string) (role : option string)
| OpRemove (now : Q) (k : string).

Definition pool_step (p : pool) (o : pool_op) : pool :=
  match o with
  | OpAcquire now a role ex => (acquire p now a role ex).1
  | OpRelease now l st tried => (release p now l st tried).1
  | OpAdd now k role => (add_key p now k role).1
  | OpRetier now k role => (set_key_min_role p now k role).1
  | OpRemove now k => (remove_key p now k).1
  end.

Lemma pool_step_wf p o : pool_wf p -> pool_wf (pool_step p o).
Proof.
  destruct o; cbn [pool_step]; auto using acquire_wf, release_wf, add_key_wf, set_key_min_role_wf,
    remove_key_wf.
Qed.

Lemma pool_run_wf p l : pool_wf p -> pool_wf (fold_left pool_step l p).
Proof. apply (foldl_invariant pool_wf). intros; by apply pool_step_wf. Qed.

(** Slots are never popped or moved: an index handed out in a lease names the
    same credential for the life of the pool. *)
Lemma map_key_prefix (ks ks' : list key_state) i k :
  key <$> ks = key <$> ks' -> key <$> ks !! i = Some k -> key <$> ks' !! i = Some k.
Proof. intros E. by rewrite <- !list_lookup_fmap, E. Qed.

Lemma set_slot_keys p i s s' :
  keys p !! i = Some s -> key s' = key s -> key <$> keys (set_slot p i s') = key <$> keys p.
Proof.
  intros Hs Hk. simpl. rewrite list_fmap_insert, Hk. apply list_insert_id.
  by rewrite list_lookup_fmap, Hs.
Qed.

Lemma count_request_keys p i : key <$> keys (count_request p i) = key <$> keys p.
Proof.
  apply list_eq; intros j. rewrite !list_lookup_fmap. simpl. rewrite list_lookup_alter.
  case_decide; [subst|done]. by destruct (keys p !! j).
Qed.

Lemma acquire_keys p now a role ex :
  key <$> keys (acquire p now a role ex).1 = key <$> keys p.
Proof.
  assert (forall q, key <$> keys (acquire_fresh q now a role ex).1 = key <$> keys q) as Hf.
  { intros q. unfold acquire_fresh. destruct (_pick_first_available q now role ex); [|done].
    cbn -[count_request]. destruct a; by rewrite count_request_keys. }
  unfold acquire. destruct (a ≫= _) as [[x af]|]; [|by rewrite Hf, sweep_keys].
  destruct (honoured _ _ _ _ _); cbn -[count_request acquire_fresh _maybe_sweep].
  - by rewrite count_request_keys, sweep_keys.
  - rewrite Hf. simpl. by rewrite sweep_keys.
Qed.

Lemma release_keys p now l st tried :
  key <$> keys (release p now l st tried).1 = key <$> keys p.
Proof.
  unfold release. destruct st as [st|]; [|done].
  destruct (keys p !! lease_index l) as [s|] eqn:Hs; [|done].
  cbn -[set_slot _has_untried_usable_key _has_other_usable_key].
  repeat case_match; cbn [fst]; auto; try (by eapply set_slot_keys);
    unfold set_slot; simpl; rewrite list_insert_insert_eq;
    by apply (set_slot_keys p _ s).
Qed.

Lemma pool_step_slots p o i k :
  key <$> keys p !! i = Some k -> key <$> keys (pool_step p o) !! i = Some k.
Proof.
  destruct o as [now a role ex|now l st tried|now q role|now q role|now q]; cbn [pool_step].
  - apply map_key_prefix. by rewrite acquire_keys.
  - apply map_key_prefix. by rewrite release_keys.
  - unfold add_key. destruct (slot_of p q) as [[j s]|] eqn:E.
    + apply list_find_Some in E as (Hs & _). destruct role as [r|]; simpl;
        try destruct (_ || _); simpl; apply map_key_prefix; symmetry;
        by apply (set_slot_keys p j s).
    + simpl. intros Hi. destruct (keys p !! i) eqn:Hi'; [|done].
      by rewrite (lookup_app_l_Some _ _ _ _ Hi').
  - unfold set_key_min_role. simpl. destruct (existsb _ _); simpl; apply map_key_prefix;
      rewrite <- list_fmap_compose; apply list_fmap_ext; intros ? s _; simpl; by case_match.
  - unfold remove_key. destruct (list_find _ _) as [[j s]|] eqn:E; [|done].
    apply list_find_Some in E as (Hs & _). simpl. apply map_key_prefix. symmetry.
    by apply (set_slot_keys p j s).
Qed.

(** C38: the pool's invariant.  Whatever sequence of acquires, releases,
    additions, re-tierings and removals runs on a pool built by the constructor,
    every credential has exactly one slot (a re-add reactivates the old slot
    rather than leaving a second one), every reservation is a known tier, every
    binding points at a slot, and slots never move: an index held in a lease
    keeps naming the credential it was issued for. *)
Theorem pool_invariant ks roles p l i k :
  new_pool ks roles = Some p ->
  pool_wf (fold_left pool_step l p) /\
  (key <$> keys p !! i = Some k -> key <$> keys (fold_left pool_step l p) !! i = Some k).
Proof.
  intros Hp. split; [by eapply pool_run_wf, new_pool_wf|].
  apply (foldl_invariant (fun q => key <$> keys q !! i = Some k)).
  intros; by apply pool_step_slots.
Qed.

(** ** [release]: rotate first, mute last *)

Lemma usable_exclude now role ex i s :
  usable now role ex i s = true <-> usable now role [] i s = true /\ i ∉ ex.
Proof.
  unfold usable. rewrite !andb_true_iff, !negb_true_iff, !bool_decide_eq_false, bool_decide_eq_true.
  set_solver.
Qed.

(** Selectability of slots other than [i] is untouched by rewriting slot [i]. *)
Lemma no_slot_set_slot p i s now role ex :
  i ∈ ex -> no_slot (set_slot p i s) now role ex <-> no_slot p now role ex.
Proof.
  intros Hi. unfold no_slot, set_slot. simpl. split; intros Hn j k Hj.
  - destruct (decide (j = i)) as [->|Hne].
    + apply not_true_iff_false. rewrite usable_exclude. tauto.
    + apply (Hn j k). by rewrite list_lookup_insert_ne.
  - destruct (decide (j = i)) as [->|Hne].
    + apply not_true_iff_false. rewrite usable_exclude. tauto.
    + apply (Hn j k). by rewrite list_lookup_insert_ne in Hj.
Qed.

Lemma no_slot_exclude p now role ex ex' :
  ex ⊆ ex' -> no_slot p now role ex -> no_slot p now role ex'.
Proof.
  intros Hs Hn i k Hk. specialize (Hn i k Hk). apply not_true_iff_false in Hn.
  apply not_true_iff_false. rewrite usable_exclude in *. set_solver.
Qed.

Lemma has_other_spec p i now role :
  _has_other_usable_key p i now role = false <-> no_slot p now role [i].
Proof. apply has_untried_spec. Qed.

Lemma has_untried_set_slot p i s now role tried :
  _has_untried_usable_key (set_slot p i s) i now role tried =
  _has_untried_usable_key p i now role tried.
Proof.
  pose proof (no_slot_set_slot p i s now role (i :: tried) ltac:(set_solver)) as E.
  rewrite <- !has_untried_spec in E.
  destruct (_has_untried_usable_key _ _ _ _ _), (_has_untried_usable_key p _ _ _ _); intuition congruence.
Qed.

Definition sole_key (p : pool) (now : Q) (l : lease) : bool :=
  negb (_has_other_usable_key p (lease_index l) now (lease_role l)).

(** [release] on a status that may mute, read off the pool as it was. *)
Lemma release_muting p now l st tried s :
  keys p !! lease_index l = Some s -> should_mute_status st = true ->
  let i := lease_index l in
  let s1 := s <| key_failures := key_failures s + 1 |> in
  release p now l (Some st) tried =
  if negb (bool_decide (tried = [])) && _has_untried_usable_key p i now (lease_role l) tried
  then (set_slot p i s1, ROTATED)
  else if sole_key p now l && (negb (is_key_specific_status st) ||
            bool_decide (key_failures s + 1 <= SOLE_KEY_BACKOFF_THRESHOLD))
  then (set_slot p i s1, PROPAGATE)
  else (set_slot p i (s1 <| cooldown_until := (now + (if sole_key p now l
            then (if is_key_specific_status st then sole_key_backoff (key_failures s + 1)
                  else MUTE_SECONDS) else MUTE_SECONDS))%Q |>), MUTED).
Proof.
  intros Hs Hm. unfold release, sole_key. rewrite Hs, Hm. cbv zeta.
  cbn [negb]. unfold _has_other_usable_key. rewrite !has_untried_set_slot.
  assert (forall a b, set_slot (set_slot p (lease_index l) a) (lease_index l) b =
    set_slot p (lease_index l) b) as Hss.
  { intros a b. unfold set_slot; simpl. by rewrite list_insert_insert_eq. }
  rewrite !Hss. cbn [key_failures].
  destruct (_ && _); [done|].
  destruct (_has_untried_usable_key _ _ _ _ []), (is_key_specific_status st); simpl; try done.
Qed.

Lemma sole_key_backoff_bounds f : 3 <= f -> (15 <= sole_key_backoff f <= 20)%Q.
Proof.
  intros Hf. unfold sole_key_backoff, SOLE_KEY_BACKOFF_THRESHOLD, SOLE_KEY_BACKOFF_BASE_SECONDS,
    MUTE_SECONDS, py_min.
  assert (1 <= 2 ^ Z.min (f - 2 - 1) 8) as H
    by (change 1 with (2 ^ 0); apply Z.pow_le_mono_r; lia).
  rewrite Zle_Qle in H. change (inject_Z 1) with 1%Q in H.
  repeat case_decide; split; lra.
Qed.

(** a release that says "rotated" keeps its word.  When [release] answers
    [ROTATED] to a rotation loop, the failing key stays selectable for the next
    caller, and the loop's next [acquire], excluding the keys it has tried, hands
    out a key it has not tried yet. *)
Theorem rotated_finds_key p now l st tried a :
  lease_index l ∈ tried -> (release p now l (Some st) tried).2 = ROTATED ->
  let p' := (release p now l (Some st) tried).1 in
  (cooldown_until <$> keys p' !! lease_index l) = (cooldown_until <$> keys p !! lease_index l) /\
  exists k l', (acquire p' now a (lease_role l) tried).2 = Ok (k, l') /\ lease_index l' ∉ tried.
Proof.
  intros Hin. destruct (keys p !! lease_index l) as [s|] eqn:Hs;
    [|unfold release; rewrite Hs; done].
  destruct (should_mute_status st) eqn:Hm;
    [|unfold release; rewrite Hs, Hm; done].
  rewrite (release_muting p now l st tried s Hs Hm).
  destruct (_ && _) eqn:E; [|by case_match]. intros _. cbn [fst].
  apply andb_true_iff in E as [_ Hu]. split.
  { simpl. rewrite list_lookup_insert_eq; [done|by eapply lookup_lt_Some]. }
  set (p' := set_slot _ _ _). pose proof (acquire_post_holds p' now a (lease_role l) tried) as Hp.
  destruct (acquire p' now a (lease_role l) tried) as [q [[k l']|c]]; simpl in Hp |- *.
  - destruct Hp as (_ & _ & (s' & _ & _ & Hu') & _). exists k, l'. split; [done|].
    by apply usable_exclude in Hu' as [_ ?].
  - destruct Hp as (_ & Hno & _). exfalso. unfold p' in Hno.
    apply no_slot_set_slot in Hno; [|done].
    apply (no_slot_exclude _ _ _ _ (lease_index l :: tried)) in Hno; [|set_solver].
    apply has_untried_spec in Hno. congruence.
Qed.

(** a failure blacks a caller out only as a last resort and briefly.  If a
    release takes a caller's last usable key out of service, the failure was one
    that names the key (401, 402, 403 or 429), never a transient one; it was at
    least the third in a row on that key; and the key is selectable again after
    a cooldown of 15 to 20 seconds. *)
Theorem blackout_bounded p now l st tried s :
  keys p !! lease_index l = Some s ->
  usable now (lease_role l) [] (lease_index l) s = true ->
  let p' := (release p now l (Some st) tried).1 in
  no_slot p' now (lease_role l) [] ->
  is_key_specific_status st = true /\ 2 <= key_failures s /\
  exists d, (15 <= d <= 20)%Q /\
    forall t, (now + d <= t)%Q -> ~ no_slot p' t (lease_role l) [].
Proof.
  intros Hs Hu. set (i := lease_index l).
  assert (forall s', usable now (lease_role l) [] i s' = true ->
    ~ no_slot (set_slot p i s') now (lease_role l) []) as Hkeep.
  { intros s' Hs' Hn. specialize (Hn i s'). rewrite Hn in Hs'; [done|].
    simpl. apply list_lookup_insert_eq. by eapply lookup_lt_Some. }
  destruct (should_mute_status st) eqn:Hm; cycle 1.
  { unfold release. rewrite Hs, Hm. simpl. intros Hn. exfalso.
    case_bool_decide; [by eapply Hkeep; [|exact Hn]|].
    by rewrite (Hn _ _ Hs) in Hu. }
  rewrite (release_muting p now l st tried s Hs Hm). fold i.
  destruct (_ && _); cbn [fst]; [intros Hn; exfalso; by eapply Hkeep; [|exact Hn]|].
  destruct (sole_key p now l && _) eqn:E; cbn [fst];
    [intros Hn; exfalso; by eapply Hkeep; [|exact Hn]|].
  intros Hn. assert (no_slot p now (lease_role l) [i]) as Hsole.
  { apply (no_slot_exclude _ _ _ _ [i]) in Hn; [|set_solver].
    by apply no_slot_set_slot in Hn; [|set_solver]. }
  apply has_other_spec in Hsole. unfold sole_key in *. fold i in E, Hn |- *. rewrite Hsole in E, Hn |- *.
  simpl in E. apply orb_false_iff in E as [Hk Hf]. rewrite negb_false_iff in Hk.
  rewrite Hk in *. apply bool_decide_eq_false in Hf. unfold SOLE_KEY_BACKOFF_THRESHOLD in Hf.
  split_and!; [done|lia|]. exists (sole_key_backoff (key_failures s + 1)).
  split; [apply sole_key_backoff_bounds; lia|]. intros t Ht Hno.
  set (s' := s <| key_failures := _ |> <| cooldown_until := _ |>) in *.
  specialize (Hno i s'). unfold usable in Hu. bool_facts.
  assert (usable t (lease_role l) [] i s' = true) as Hyes.
  { unfold usable. rewrite !andb_true_iff, negb_true_iff. split_and!; auto.
    apply bool_decide_eq_true. done. }
  rewrite Hno in Hyes; [done|]. simpl. apply list_lookup_insert_eq. by eapply lookup_lt_Some.
Qed.

(** ** Witnesses *)

Definition pair_pool : pool := Pool [new_key "k0" "free"; new_key "k1" "free"] ∅.
Definition worn_key : key_state := KeyState "k0" 5 0 false "free" 2.
Definition sole_pool : pool := Pool [worn_key] ∅.
Definition lease0 : lease := Lease 0 None None.

Lemma pool_invariant_witness :
  key <$> keys (fold_left pool_step [OpRemove 1 "k0"; OpAdd 2 "k0" None] pair_pool) !! 0%nat =
  Some "k0"%string.
Proof.
  apply (pool_invariant ["k0"; "k1"; "k0"]%string ∅ pair_pool); vm_compute; reflexivity.
Defined.

Lemma rotated_finds_key_witness :
  exists k l', (acquire (release pair_pool 1 lease0 (Some 429) [0%nat]).1 1 None None [0%nat]).2
    = Ok (k, l') /\ lease_index l' ∉ [0%nat].
Proof.
  destruct (rotated_finds_key pair_pool 1 lease0 429 [0%nat] None) as [_ H];
    [apply elem_of_cons; by left|vm_compute; reflexivity|exact H].
Defined.

Lemma blackout_bounded_witness :
  exists d, (15 <= d <= 20)%Q /\
    forall t, (1 + d <= t)%Q -> ~ no_slot (release sole_pool 1 lease0 (Some 429) []).1 t None [].
Proof.
  destruct (blackout_bounded sole_pool 1 lease0 429 [] worn_key) as (_ & _ & H);
    [reflexivity|vm_compute; reflexivity| |exact H].
  intros [|i] k; [|done]. intros [= <-]. vm_compute; reflexivity.
Defined.
