(* ===== verification/KeyRotation.v ===== *)
(** Rotation of one request over a key pool:
    [OpenAICompatAdapter._post_with_pool] and [_open_stream_with_pool]
    ([serving/adapters/openai_compat.py]).

    Each pass of the loop takes a lease, waits for an outbound slot, sends the
    request and settles the lease and the slot by how that ended.  Two of those
    steps await, and other requests and administrators may change the pool
    meanwhile, so every await carries the operations that ran on the pool while
    this request was suspended. *)

From S2P Require Import Prelude Failures KeyPool.

Local Open Scope Z_scope.

(** What a request awaits, and what it hears back. *)
Inductive slot_answer : Type := SlotGranted | SlotSaturated | SlotInterrupted.

Inductive reply : Type :=
| Replied                       (* a response, or a stream's first chunk *)
| StatusError (status : Z)      (* [aiohttp.ClientResponseError] *)
| IoError                       (* [TimeoutError], any other [aiohttp.ClientError] *)
| EmptyStream                   (* [StopAsyncIteration] before the first chunk *)
| Interrupted.                  (* anything else, cancellation most of all *)

(** The surroundings of one pass. *)
Record attempt : Type := Attempt {
  acquire_at : Q;
  during_slot_wait : list pool_op;
  slot_wait : slot_answer;
  during_request : list pool_op;
  answer : reply;
  release_at : Q
}.

(** How a request ends. *)
Inductive served : Type := Response | StreamOpened (l : lease) | StreamEmpty.

Inductive send_error : Type :=
| PoolRefused (c : exn_class)
| Saturated
| UpstreamStatus (status : Z)
| UpstreamIo
| Cancelled.

(** What a pass does that others can see, by slot index. *)
Inductive event : Type :=
| Leased (i : nat)
| SlotTaken (i : nat)
| Sent (i : nat)
| SlotReleased (i : nat) (status_code : option Z)
| KeyReleased (i : nat) (status_code : option Z) (o : release_outcome).

Inductive verdict : Type := Done (r : result send_error served) | NextKey (e : send_error).

(** [_pool.release(lease, status_code, tried)] with its event. *)
Definition settle (p : pool) (now : Q) (l : lease) (st : option Z) (tried : list nat) :
    pool * event * release_outcome :=
  let '(p, o) := release p now l st tried in (p, KeyReleased (lease_index l) st o, o).

(** The non-streaming pass, from the answer on. *)
Definition post_reply (p : pool) (l : lease) (tried : list nat) (at_ : Q) (r : reply) :
    pool * list event * verdict :=
  let i := lease_index l in
  let failed st e :=
    let '(p, ev, o) := settle p at_ l (Some st) tried in
    (p, [SlotReleased i (Some st); ev; SlotReleased i None],
     match o with PROPAGATE => Done (Raise e) | _ => NextKey e end) in
  match r with
  | Replied =>
      let '(p, ev, _) := settle p at_ l (Some 200) [] in
      (p, [SlotReleased i (Some 200); SlotReleased i None; ev], Done (Ok Response))
  | StatusError st => failed st (UpstreamStatus st)
  | IoError => failed 0 UpstreamIo
  | EmptyStream | Interrupted => (p, [SlotReleased i None], Done (Raise Cancelled))
  end.

(** The streaming pass, from the first read on. *)
Definition stream_reply (p : pool) (l : lease) (tried : list nat) (at_ : Q) (r : reply) :
    pool * list event * verdict :=
  let i := lease_index l in
  match r with
  | Replied => (p, [], Done (Ok (StreamOpened l)))
  | EmptyStream =>
      let '(p, ev, _) := settle p at_ l (Some 0) [] in
      (p, [SlotReleased i (Some 0); ev], Done (Ok StreamEmpty))
  | StatusError st =>
      let '(p, ev, o) := settle p at_ l (Some st) tried in
      (p, [SlotReleased i (Some st); ev],
       match o with
       | PROPAGATE => Done (Raise (UpstreamStatus st))
       | _ => NextKey (UpstreamStatus st)
       end)
  | IoError =>
      let '(p, ev, _) := settle p at_ l None [] in
      (p, [SlotReleased i None; ev], Done (Raise UpstreamIo))
  | Interrupted => (p, [SlotReleased i None], Done (Raise Cancelled))
  end.

Definition handler : Type :=
  pool -> lease -> list nat -> Q -> reply -> pool * list event * verdict.

(** The body of the loop, once a lease is taken. *)
Definition attempt_key (handle : handler) (p : pool) (l : lease) (tried : list nat)
    (w : attempt) : pool * list event * verdict :=
  let i := lease_index l in
  let p := fold_left pool_step (during_slot_wait w) p in
  match slot_wait w with
  | SlotSaturated =>
      let '(p, ev, _) := settle p (release_at w) l None [] in
      (p, [Leased i; ev], NextKey Saturated)
  | SlotInterrupted => (p, [Leased i], Done (Raise Cancelled))
  | SlotGranted =>
      let p := fold_left pool_step (during_request w) p in
      let '(p, evs, v) := handle p l tried (release_at w) (answer w) in
      (p, Leased i :: SlotTaken i :: Sent i :: evs, v)
  end.

(** [for _ in range(max_attempts)], at pass [j]. *)
Fixpoint rotation_loop (handle : handler) (n j : nat) (p : pool) (tried : list nat)
    (last_error : option send_error) (a role : option string) (w : nat -> attempt) :
    pool * list event * result send_error served :=
  match n with
  | O =>
      (p, [], Raise (default (PoolRefused KeyPoolExhausted) last_error))
  | S n =>
      match acquire p (acquire_at (w j)) a role tried with
      | (p, Raise c) => (p, [], Raise (default (PoolRefused c) last_error))
      | (p, Ok (_, l)) =>
          let tried := lease_index l :: tried in
          match attempt_key handle p l tried (w j) with
          | (p, evs, Done r) => (p, evs, r)
          | (p, evs, NextKey e) =>
              let '(p, evs', r) := rotation_loop handle n (S j) p tried (Some e) a role w in
              (p, evs ++ evs', r)
          end
      end
  end.

(** [_no_usable_key_error] *)
Definition _no_usable_key_error (p : pool) (now : Q) (role : option string) : exn_class :=
  if bool_decide (is_Some role) && can_serve_role p now None
  then KeyPoolRoleRestricted else KeyPoolExhausted.

Definition with_pool (handle : handler) (p : pool) (a role : option string)
    (w : nat -> attempt) : pool * list event * result send_error served :=
  match size_of p role with
  | O => (p, [], Raise (PoolRefused (_no_usable_key_error p (acquire_at (w O)) role)))
  | n => rotation_loop handle n 0 p [] None a role w
  end.

(** [_post_with_pool] with a pool configured. *)
Definition _post_with_pool := with_pool post_reply.

(** [_open_stream_with_pool] with a pool configured, up to its [yield]. *)
Definition _open_stream_with_pool := with_pool stream_reply.

(** ** What a rotation loop may rely on *)

Definition leased_of (e : event) : option nat :=
  match e with Leased i => Some i | _ => None end.
Definition sent_of (e : event) : option nat :=
  match e with Sent i => Some i | _ => None end.

(** The outbound slots held after an event; releasing twice is harmless. *)
Definition slot_held (h : list nat) (e : event) : list nat :=
  match e with
  | SlotTaken i => i :: h
  | SlotReleased i _ => filter (fun j => j <> i) h
  | _ => h
  end.

(** What is still held when a request ends with [r]: a stream keeps its slot. *)
Definition still_held (r : result send_error served) : list nat :=
  match r with Ok (StreamOpened l) => [lease_index l] | _ => [] end.

(** The contract of an answer handler, for the replies [rotates] lets it rotate
    on: it takes no lease and sends nothing, gives the slot back unless it
    hands a stream over, rotates only where it may, and then leaves every other
    slot as it was and stops only when no untried key is left. *)
Class RotationHandler (handle : handler) (rotates : reply -> bool) : Prop := {
  handler_silent p l tried at_ r :
    omap leased_of (handle p l tried at_ r).1.2 = [] /\
    omap sent_of (handle p l tried at_ r).1.2 = [];
  handler_slot p l tried at_ r :
    fold_left slot_held (handle p l tried at_ r).1.2 [lease_index l] =
    match (handle p l tried at_ r).2 with Done res => still_held res | NextKey _ => [] end;
  handler_rotates p l tried at_ r e :
    (handle p l tried at_ r).2 = NextKey e -> rotates r = true;
  handler_exhausts p l tried at_ r s :
    keys p !! lease_index l = Some s -> tried <> [] -> rotates r = true ->
    (exists s', keys (handle p l tried at_ r).1.1 = <[lease_index l := s']> (keys p) /\
       removed s' = removed s /\ min_role s' = min_role s) /\
    (forall res, (handle p l tried at_ r).2 = Done res ->
       no_slot p at_ (lease_role l) (lease_index l :: tried))
}.

Definition post_rotates (r : reply) : bool :=
  match r with StatusError st => should_mute_status st | IoError => true | _ => false end.
Definition stream_rotates (r : reply) : bool :=
  match r with StatusError st => should_mute_status st | _ => false end.

Lemma release_not_muting p now l st tried :
  should_mute_status st = false -> (release p now l (Some st) tried).2 = PROPAGATE.
Proof. intros H. unfold release. destruct (keys p !! _); [|done]. by rewrite H. Qed.

Lemma release_exhausts p now l st tried s :
  keys p !! lease_index l = Some s -> should_mute_status st = true -> tried <> [] ->
  (exists s', keys (release p now l (Some st) tried).1 = <[lease_index l := s']> (keys p) /\
     removed s' = removed s /\ min_role s' = min_role s) /\
  ((release p now l (Some st) tried).2 = PROPAGATE ->
     no_slot p now (lease_role l) (lease_index l :: tried)).
Proof.
  intros Hs Hm Ht. rewrite (release_muting p now l st tried s Hs Hm).
  rewrite bool_decide_eq_false_2 by done. cbn [negb andb].
  destruct (_has_untried_usable_key _ _ _ _ _) eqn:E; cbn [fst snd].
  - split; [by eexists|done].
  - apply has_untried_spec in E. destruct (_ && _); cbn [fst snd]; (split; [by eexists|done]).
Qed.

Lemma slot_filter_self (i : nat) : filter (fun j => j <> i) [i] = [].
Proof. rewrite filter_cons_False; [done|]. intros H. by apply H. Qed.

Lemma settle_parts p now l st tried :
  settle p now l st tried =
  ((release p now l st tried).1, KeyReleased (lease_index l) st (release p now l st tried).2,
   (release p now l st tried).2).
Proof. unfold settle. by destruct (release _ _ _ _ _). Qed.

#[export] Instance post_handler : RotationHandler post_reply post_rotates.
Proof.
  constructor; intros p l tried at_ r.
  - destruct r; simpl; rewrite ?settle_parts; done.
  - destruct r as [|st| | |]; cbn -[filter settle]; rewrite ?settle_parts;
      cbn -[filter release]; rewrite ?slot_filter_self; try done; by destruct (release _ _ _ _ _).2.
  - intros e. destruct r as [|st| | |]; cbn -[settle]; rewrite ?settle_parts;
      cbn -[release]; try done.
    destruct (should_mute_status st) eqn:E; [done|]. by rewrite release_not_muting.
  - intros s Hs Ht Hr. destruct r as [|st| | |]; simplify_eq/=; rewrite settle_parts; cbn [fst snd].
    + destruct (release_exhausts p at_ l st tried s Hs Hr Ht) as [Hk Hp].
      split; [done|]. case_match; naive_solver.
    + destruct (release_exhausts p at_ l 0 tried s Hs eq_refl Ht) as [Hk Hp].
      split; [done|]. case_match; naive_solver.
Qed.

#[export] Instance stream_handler : RotationHandler stream_reply stream_rotates.
Proof.
  constructor; intros p l tried at_ r.
  - destruct r; simpl; rewrite ?settle_parts; done.
  - destruct r as [|st| | |]; cbn -[filter settle]; rewrite ?settle_parts;
      cbn -[filter release]; rewrite ?slot_filter_self; try done; by destruct (release _ _ _ _ _).2.
  - intros e. destruct r as [|st| | |]; cbn -[settle]; rewrite ?settle_parts;
      cbn -[release]; try done.
    destruct (should_mute_status st) eqn:E; [done|]. by rewrite release_not_muting.
  - intros s Hs Ht Hr. destruct r as [|st| | |]; simplify_eq/=; rewrite settle_parts; cbn [fst snd].
    destruct (release_exhausts p at_ l st tried s Hs Hr Ht) as [Hk Hp].
    split; [done|]. case_match; naive_solver.
Qed.

(** ** The loop, for any handler that keeps the contract *)

(** Whether a pass may end with the next key: its slot was saturated, or its
    answer is one the handler rotates on. *)
Definition pass_rotates (rotates : reply -> bool) (w : attempt) : bool :=
  match slot_wait w with
  | SlotSaturated => true
  | SlotInterrupted => false
  | SlotGranted => rotates (answer w)
  end.

(** The slots a caller's tier may ever use, by index. *)
Definition eligible (role : option string) (s : key_state) : bool :=
  negb (removed s) && _role_may_use role s.

Definition eligible_indices (role : option string) (ks : list key_state) : list nat :=
  filter (fun i => from_option (eligible role) false (ks !! i)) (seq 0 (length ks)).


Lemma eligible_indices_length role ks :
  length (eligible_indices role ks) = length (filter (eligible role) ks).
Proof.
  unfold eligible_indices. induction ks as [|s ks IH] using rev_ind; [done|].
  rewrite length_app. simpl length. rewrite Nat.add_1_r, seq_S, !filter_app, !length_app.
  f_equal.
  - rewrite <- IH. f_equal. apply filter_ext_elem.
    intros i [_ Hi]%elem_of_seq. by rewrite lookup_app_l by lia.
  - cbn [Nat.add]. rewrite filter_cons, filter_nil, lookup_app_r, Nat.sub_diag by lia. simpl.
    rewrite filter_cons, filter_nil. by case_decide.
Qed.

(** Distinct slots a tier may use number at most the pool's size for that tier. *)
Lemma eligible_count p role l :
  NoDup l -> (forall i, i ∈ l -> exists s, keys p !! i = Some s /\ eligible role s = true) ->
  (length l <= size_of p role)%nat.
Proof.
  intros Hnd Hl. unfold size_of.
  etransitivity; [|apply Nat.eq_le_incl, eligible_indices_length].
  apply submseteq_length, NoDup_submseteq; [done|].
  intros i Hi. destruct (Hl i Hi) as (s & Hs & He). apply list_elem_of_filter.
  rewrite Hs. simpl. rewrite He. split; [done|]. apply elem_of_seq.
  apply lookup_lt_Some in Hs. lia.
Qed.

Section loop.
Context (handle : handler) (rotates : reply -> bool) `{!RotationHandler handle rotates}.
Context (a role : option string) (w : nat -> attempt).

Lemma attempt_key_events p l tried v :
  let '(_, evs, d) := attempt_key handle p l tried v in
  omap leased_of evs = [lease_index l] /\
  fold_left slot_held evs [] =
    match d with Done res => still_held res | NextKey _ => [] end /\
  (forall e, d = NextKey e -> pass_rotates rotates v = true).
Proof.
  unfold attempt_key, pass_rotates. destruct (slot_wait v).
  - set (q := fold_left pool_step _ _).
    destruct (handler_silent q l tried (release_at v) (answer v)) as [Hl Hs].
    pose proof (handler_slot q l tried (release_at v) (answer v)) as Hh.
    pose proof (handler_rotates q l tried (release_at v) (answer v)) as Hr.
    destruct (handle q l tried (release_at v) (answer v)) as [[p' evs] d].
    cbn [fst snd] in *. csimpl. rewrite Hl. split_and!; [done| |done]. exact Hh.
  - rewrite settle_parts. done.
  - done.
Qed.

(** Leased slots are distinct and untried, no slot is left behind, and every
    pass but the last had a reason to rotate. *)
Lemma rotation_loop_events n j p tried last :
  let '(_, evs, res) := rotation_loop handle n j p tried last a role w in
  let ls := omap leased_of evs in
  NoDup ls /\ (forall i, i ∈ ls -> i ∉ tried) /\ (length ls <= n)%nat /\
  fold_left slot_held evs [] = still_held res /\
  (forall k, (S k < length ls)%nat -> pass_rotates rotates (w (j + k)) = true).
Proof.
  revert j p tried last; induction n as [|n IH]; intros j p tried last; simpl.
  { split_and!; auto using NoDup_nil_2; [set_solver|lia]. }
  pose proof (acquire_post_holds p (acquire_at (w j)) a role tried) as Hacq.
  destruct (acquire _ _ _ _ _) as [q [[k l]|c]]; cbn [fst snd] in Hacq; simpl.
  2: { split_and!; auto using NoDup_nil_2; [set_solver|lia|lia]. }
  destruct Hacq as (_ & _ & (s & _ & _ & Hu) & _).
  apply usable_exclude in Hu as [_ Hnew].
  pose proof (attempt_key_events q l (lease_index l :: tried) (w j)) as Hev.
  destruct (attempt_key _ _ _ _ _) as [[q' evs] [res|e]];
    destruct Hev as (Hl & Hh & Hr).
  { rewrite Hl, Hh. split_and!; auto using NoDup_singleton; [set_solver|simpl; lia|simpl; lia]. }
  specialize (IH (S j) q' (lease_index l :: tried) (Some e)).
  destruct (rotation_loop handle n _ _ _ _ _ _ _) as [[q2 evs2] res].
  destruct IH as (Hnd & Hin & Hlen & Hh2 & Hr2).
  rewrite omap_app, Hl, fold_left_app, Hh, Hh2. simpl. split_and!; auto.
  - constructor; [|done]. intros Hi%Hin. set_solver.
  - set_solver.
  - lia.
  - intros [|k'] Hk; [rewrite Nat.add_0_r; by eapply Hr|].
    rewrite <- Nat.add_succ_comm. apply Hr2. lia.
Qed.

Lemma pool_run_slots ops p i s : keys p !! i = Some s -> is_Some (keys (fold_left pool_step ops p) !! i).
Proof.
  intros Hs. assert (key <$> keys p !! i = Some (key s)) as E by (by rewrite Hs).
  apply (foldl_invariant (fun q => key <$> keys q !! i = Some (key s)) pool_step ops p) in E;
    [|intros; by apply pool_step_slots].
  destruct (keys (fold_left pool_step ops p) !! i); [eauto|done].
Qed.

(** A pass that could have rotated and stopped left no untried key. *)
Lemma attempt_key_stops p l tried v s :
  keys p !! lease_index l = Some s -> lease_index l ∈ tried -> pass_rotates rotates v = true ->
  forall res, (attempt_key handle p l tried v).2 = Done res ->
  no_slot (attempt_key handle p l tried v).1.1 (release_at v) (lease_role l) tried.
Proof.
  intros Hs Hin Hrot res. assert (tried <> []) as Ht by (intros ->; by apply elem_of_nil in Hin).
  unfold attempt_key, pass_rotates in *. destruct (slot_wait v); [|by rewrite settle_parts|done].
  rewrite <- fold_left_app. set (q := fold_left pool_step _ p).
  destruct (pool_run_slots (during_slot_wait v ++ during_request v) p _ s Hs) as [s1 Hs1]. fold q in Hs1.
  destruct (handler_exhausts q l tried (release_at v) (answer v) s1 Hs1 Ht Hrot) as [(s' & Hk & _) Hno].
  destruct (handle q l tried _ _) as [[q' evs] d]. cbn [fst snd] in *. intros ->.
  specialize (Hno res eq_refl). intros i k Hi. apply not_true_iff_false. intros [Hu Hni]%usable_exclude.
  rewrite Hk, list_lookup_insert_ne in Hi by set_solver. specialize (Hno i k Hi). apply not_true_iff_false in Hno.
  apply Hno, usable_exclude. set_solver.
Qed.

(** A loop all of whose passes rotated made every pass it could, or stopped when no
    untried key was left. *)
Lemma rotation_loop_stops n j p tried last :
  let '(q, evs, _) := rotation_loop handle n j p tried last a role w in
  let ls := omap leased_of evs in
  (forall k, (k < length ls)%nat -> pass_rotates rotates (w (j + k)) = true) ->
  length ls = n \/
  exists t, (t = acquire_at (w (j + length ls)) \/ exists k, length ls = S k /\ t = release_at (w (j + k))) /\
    no_slot q t role (ls ++ tried).
Proof.
  revert j p tried last; induction n as [|n IH]; intros j p tried last; simpl; [by left|].
  pose proof (acquire_post_holds p (acquire_at (w j)) a role tried) as Hacq.
  destruct (acquire _ _ _ _ _) as [q [[k l]|c]]; cbn [fst snd] in Hacq; simpl.
  2: { intros _. right. exists (acquire_at (w j)). rewrite Nat.add_0_r. split; [by left|].
       destruct Hacq as (Hk & Hno & _). intros i s. rewrite Hk. apply Hno. }
  destruct Hacq as (_ & Hrole & (s & Hs & _ & _) & _ & Hk & _).
  assert (exists s1, keys q !! lease_index l = Some s1) as [s1 Hs1] by (rewrite Hk, list_lookup_alter_eq, Hs; by eexists).
  pose proof (attempt_key_events q l (lease_index l :: tried) (w j)) as Hev.
  pose proof (attempt_key_stops q l (lease_index l :: tried) (w j) s1 Hs1 ltac:(by left)) as Hst.
  destruct (attempt_key _ _ _ _ _) as [[q' evs] d]. destruct Hev as (Hl & _). cbn [fst snd] in Hst.
  destruct d as [res|e].
  { rewrite Hl. intros Hall. right. specialize (Hall 0%nat ltac:(simpl; lia)). rewrite Nat.add_0_r in Hall.
    exists (release_at (w j)). rewrite <- Hrole. split; [|by eapply Hst]. right. exists 0%nat. by rewrite Nat.add_0_r. }
  specialize (IH (S j) q' (lease_index l :: tried) (Some e)).
  destruct (rotation_loop handle n _ _ _ _ _ _ _) as [[q2 evs2] res].
  rewrite omap_app, Hl. cbn [app length]. intros Hall. destruct IH as [IH|(t & Ht & IH)].
  - intros k' Hk'. specialize (Hall (S k') ltac:(lia)). by rewrite <- Nat.add_succ_comm in Hall.
  - left. by f_equal.
  - right. exists t. rewrite <- Nat.add_succ_comm. split.
    + destruct Ht as [->|(k' & Hk' & ->)]; [by left|right]. exists (S k'). rewrite Hk', <- Nat.add_succ_comm. done.
    + eapply no_slot_exclude; [|done]. set_solver.
Qed.

(** With the clock and the other users of the pool standing still and every
    pass rotating, the loop reaches every slot it could have used. *)
Context (now : Q).
Hypothesis quiet : forall j, acquire_at (w j) = now /\ release_at (w j) = now /\
  during_slot_wait (w j) = [] /\ during_request (w j) = [] /\
  pass_rotates rotates (w j) = true.

Lemma attempt_key_quiet p l tried j s :
  keys p !! lease_index l = Some s -> tried <> [] ->
  let '(q, evs, d) := attempt_key handle p l tried (w j) in
  (exists s', keys q = <[lease_index l := s']> (keys p) /\
     removed s' = removed s /\ min_role s' = min_role s) /\
  (forall res, d = Done res -> no_slot p now (lease_role l) (lease_index l :: tried)).
Proof.
  intros Hs Ht. destruct (quiet j) as (_ & Hrel & Hsw & Hrq & Hrot).
  unfold attempt_key, pass_rotates in *. rewrite Hsw, Hrq. cbn [fold_left].
  destruct (slot_wait (w j)); [| |done].
  - pose proof (handler_exhausts p l tried (release_at (w j)) (answer (w j)) s Hs Ht Hrot) as H.
    destruct (handle p l tried _ _) as [[q evs] d]. cbn [fst snd] in H. by rewrite <- Hrel.
  - rewrite settle_parts. simpl. split; [|done]. exists s.
    by rewrite list_insert_id.
Qed.

Lemma acquire_lease p ex q k l :
  acquire p now a role ex = (q, Ok (k, l)) ->
  lease_role l = role /\ exists s, keys p !! lease_index l = Some s /\
    usable now role ex (lease_index l) s = true /\
    keys q = alter (fun s => s <| request_count := request_count s + 1 |>)
               (lease_index l) (keys p).
Proof.
  intros E. pose proof (acquire_post_holds p now a role ex) as H. rewrite E in H.
  destruct H as (_ & Hr & (s & Hs & _ & Hu) & _ & Hk & _). eauto 8.
Qed.

Lemma usable_eligible ex i s : usable now role ex i s = true -> eligible role s = true.
Proof. unfold usable, eligible. intros H. bool_facts. by apply andb_true_iff; rewrite negb_true_iff. Qed.

Lemma rotation_loop_exhaustive n j p tried last :
  NoDup tried ->
  (forall i, i ∈ tried -> exists s, keys p !! i = Some s /\ eligible role s = true) ->
  (size_of p role <= length tried + n)%nat ->
  forall i s, keys p !! i = Some s -> usable now role tried i s = true ->
  i ∈ omap leased_of (rotation_loop handle n j p tried last a role w).1.2.
Proof.
  revert j p tried last; induction n as [|n IH]; intros j p tried last Hnd Hel Hsz i s Hs Hu.
  { exfalso. pose proof Hu as [_ Hi]%usable_exclude.
    pose proof (eligible_count p role (i :: tried)) as Hc. simpl in Hc.
    cut (S (length tried) <= size_of p role)%nat; [lia|]. apply Hc; [by constructor|].
    intros x [->|Hx]%elem_of_cons; [|by apply Hel]. eauto using usable_eligible. }
  simpl. destruct (quiet j) as (Hnow & _). rewrite Hnow.
  destruct (acquire p now a role tried) as [q [[k l]|c]] eqn:Ha; cycle 1.
  { exfalso. pose proof (acquire_post_holds p now a role tried) as H. rewrite Ha in H.
    destruct H as (_ & Hno & _). by rewrite (Hno _ _ Hs) in Hu. }
  apply acquire_lease in Ha as (Hrole & s0 & Hs0 & Hu0 & Hq).
  set (i0 := lease_index l) in *.
  set (s1 := s0 <| request_count := request_count s0 + 1 |>).
  assert (keys q !! i0 = Some s1) as Hq0 by (rewrite Hq, list_lookup_alter_eq, Hs0; done).
  assert (forall x, x <> i0 -> keys q !! x = keys p !! x) as Hqx
    by (intros; by rewrite Hq, list_lookup_alter_ne).
  pose proof (attempt_key_quiet q l (i0 :: tried) j s1 Hq0 ltac:(done)) as Hat.
  pose proof (attempt_key_events q l (i0 :: tried) (w j)) as Hev.
  destruct (attempt_key _ _ _ _ _) as [[q' evs] d]. destruct Hev as (Hl & _).
  destruct Hat as [(s' & Hq' & Hrem & Hmin) Hdone]. fold i0 in Hq', Hl.
  destruct (decide (i = i0)) as [->|Hne].
  { destruct d as [res|e]; [simpl; rewrite Hl; set_solver|].
    destruct (rotation_loop _ _ _ _ _ _ _ _ _) as [[? ?] ?]. simpl.
    rewrite omap_app, Hl. set_solver. }
  assert (usable now role (i0 :: tried) i s = true) as Hui.
  { apply usable_exclude. apply usable_exclude in Hu as [? ?]. set_solver. }
  destruct d as [res|e].
  { exfalso. specialize (Hdone res eq_refl i s). rewrite Hrole in Hdone.
    rewrite <- Hqx in Hs by done. specialize (Hdone Hs).
    apply not_true_iff_false in Hdone. apply Hdone. apply usable_exclude.
    apply usable_exclude in Hui as [? ?]. set_solver. }
  assert (forall x, eligible role <$> keys q' !! x = eligible role <$> keys p !! x) as Hpt.
  { intros x. rewrite Hq', list_lookup_insert. case_decide as Hx.
    - destruct Hx as [<- _]. rewrite Hs0. simpl. f_equal.
      unfold eligible, _role_may_use. by rewrite Hrem, Hmin.
    - destruct (decide (x = i0)) as [->|]; [|by rewrite Hqx].
      destruct Hx; split; [done|by eapply lookup_lt_Some]. }
  specialize (IH (S j) q' (i0 :: tried) (Some e)).
  destruct (rotation_loop _ _ _ _ _ _ _ _ _) as [[q2 evs2] res]. cbn [fst snd] in *.
  rewrite omap_app. apply elem_of_app; right. apply (IH) with s; auto.
  - constructor; [|done]. by apply usable_exclude in Hu0 as [_ ?].
  - intros x Hx. assert (exists s, keys p !! x = Some s /\ eligible role s = true) as (sx & Hsx & Hex).
    { apply elem_of_cons in Hx as [->|Hx]; [|by apply Hel]. eauto using usable_eligible. }
    specialize (Hpt x). rewrite Hsx in Hpt. destruct (keys q' !! x) as [sx'|]; [|done].
    exists sx'. split; [done|]. simpl in Hpt. congruence.
  - replace (size_of q' role) with (size_of p role); [simpl; lia|].
    unfold size_of. apply filter_length_ext, list_eq. intros x.
    rewrite !list_lookup_fmap. symmetry. apply Hpt.
  - by rewrite Hq', list_lookup_insert_ne, Hqx.
Qed.
End loop.

(** ** The two rotation loops *)

(** A request's trace is disciplined: it leases no key twice and at most
    [bound] of them, gives every slot back unless it hands a stream over, and
    moved off a key only for a reason in [rotates]. *)
Definition disciplined (rotates : reply -> bool) (bound : nat) (w : nat -> attempt)
    (out : pool * list event * result send_error served) : Prop :=
  let ls := omap leased_of out.1.2 in
  NoDup ls /\ (length ls <= bound)%nat /\
  fold_left slot_held out.1.2 [] = still_held out.2 /\
  (forall j, (S j < length ls)%nat -> pass_rotates rotates (w j) = true).

Lemma with_pool_disciplined handle rotates `{!RotationHandler handle rotates} p a role w :
  disciplined rotates (size_of p role) w (with_pool handle p a role w).
Proof.
  unfold disciplined, with_pool. destruct (size_of p role) as [|n].
  - simpl. split_and!; auto using NoDup_nil_2. lia.
  - pose proof (rotation_loop_events handle rotates a role w (S n) 0 p [] None) as H.
    destruct (rotation_loop _ _ _ _ _ _ _ _ _) as [[q evs] res].
    by destruct H as (? & _ & ? & ? & ?).
Qed.

(** rotating a request over a pool is disciplined, whatever other requests
    and administrators do to the pool at the awaits.  Both loops lease no key
    twice, make at most as many passes as the caller has eligible keys, return
    every outbound slot exactly as far as they should (a stream handed to the
    caller keeps its own, and only that one), and move to another key only after
    a saturated slot or an answer they rotate on.  For a stream that is a
    rotating HTTP status, never an I/O error or an empty stream, so a stream
    that may have started is never requested twice; a plain completion also
    rotates on a time-out or connection error. *)
Theorem rotation_disciplined p a role w :
  disciplined post_rotates (size_of p role) w (_post_with_pool p a role w) /\
  disciplined stream_rotates (size_of p role) w (_open_stream_with_pool p a role w).
Proof. split; apply with_pool_disciplined; apply _. Qed.

(** The clock and the pool's other users stand still at [now] and every pass
    rotates. *)
Definition all_rotate (rotates : reply -> bool) (now : Q) (w : nat -> attempt) : Prop :=
  forall j, acquire_at (w j) = now /\ release_at (w j) = now /\
    during_slot_wait (w j) = [] /\ during_request (w j) = [] /\
    pass_rotates rotates (w j) = true.

Lemma with_pool_exhaustive handle rotates `{!RotationHandler handle rotates} p a role w now i s :
  all_rotate rotates now w -> keys p !! i = Some s -> usable now role [] i s = true ->
  i ∈ omap leased_of (with_pool handle p a role w).1.2.
Proof.
  intros Hw Hs Hu. unfold with_pool.
  assert (1 <= size_of p role)%nat as Hsz.
  { apply (eligible_count p role [i]); [apply NoDup_singleton|].
    intros x ->%list_elem_of_singleton. eauto using usable_eligible. }
  destruct (size_of p role) as [|n] eqn:E; [lia|].
  eapply rotation_loop_exhaustive; eauto using NoDup_nil_2; [set_solver|simpl; lia].
Qed.

(** A request leases no key twice; one none of whose passes ended on its own leased
    [bound] keys, or stopped when the pool held no usable key it had not leased: at the instant it asked
    for another, or at the one it released the last. *)
Definition stops_when_spent (rotates : reply -> bool) (bound : nat) (role : option string) (w : nat -> attempt)
    (out : pool * list event * result send_error served) : Prop :=
  let ls := omap leased_of out.1.2 in
  NoDup ls /\
  ((forall j, (j < length ls)%nat -> pass_rotates rotates (w j) = true) ->
  length ls = bound \/
  exists t, (t = acquire_at (w (length ls)) \/ exists j, length ls = S j /\ t = release_at (w j)) /\
    no_slot out.1.1 t role ls).

Lemma with_pool_stops handle rotates `{!RotationHandler handle rotates} p a role w :
  stops_when_spent rotates (size_of p role) role w (with_pool handle p a role w).
Proof.
  split; [by destruct (with_pool_disciplined handle rotates p a role w)|].
  unfold with_pool. destruct (size_of p role) as [|n]; [by left|].
  pose proof (rotation_loop_stops handle rotates a role w (S n) 0 p [] None) as H.
  destruct (rotation_loop _ _ _ _ _ _ _ _ _) as [[q evs] res]. cbn [fst snd]. cbv zeta in H. by rewrite app_nil_r in H.
Qed.

(** C35: rotation gives up only after every key.  Whatever other requests and
    administrators do to the pool at the awaits and however the clock runs, a request
    leases no key twice, and one all of whose passes ended in a saturated slot or an
    answer that rotates stopped for one of two reasons: it leased as many keys as the
    caller's tier could use when it started, or, at the instant it asked for another
    key or released the last, the pool held no usable key that it had not leased.  If
    the clock stands still and nothing else touches the pool for the whole request,
    and every pass would rotate, both loops lease every key that was usable for the
    caller when the request started, wherever its binding made it begin. *)
Theorem rotation_exhaustive p a role w :
  stops_when_spent post_rotates (size_of p role) role w (_post_with_pool p a role w) /\
  stops_when_spent stream_rotates (size_of p role) role w (_open_stream_with_pool p a role w) /\
  forall now i s, keys p !! i = Some s -> usable now role [] i s = true ->
    (all_rotate post_rotates now w -> i ∈ omap leased_of (_post_with_pool p a role w).1.2) /\
    (all_rotate stream_rotates now w -> i ∈ omap leased_of (_open_stream_with_pool p a role w).1.2).
Proof.
  split; [apply with_pool_stops, _|]. split; [apply with_pool_stops, _|]. intros now i s Hs Hu.
  split; intros Hw; by eapply with_pool_exhaustive; [apply _|..].
Qed.

(** Witness: two keys that answer 429 in turn. *)
Definition busy_pair : pool := Pool [new_key "k0" "free"; new_key "k1" "free"] ∅.
Definition refused_pass : attempt := Attempt 0 [] SlotGranted [] (StatusError 429) 0.

Lemma rotation_exhaustive_witness :
  1%nat ∈ omap leased_of (_post_with_pool busy_pair None None (fun _ => refused_pass)).1.2 /\
  1%nat ∈ omap leased_of (_open_stream_with_pool busy_pair None None (fun _ => refused_pass)).1.2.
Proof.
  destruct (rotation_exhaustive busy_pair None None (fun _ => refused_pass)) as (_ & _ & Hq).
  destruct (Hq 0%Q 1%nat (new_key "k1" "free") eq_refl eq_refl) as [Hp Hs].
  split; [apply Hp|apply Hs]; intros j; split_and!; reflexivity.
Defined.
