(* ===== verification/WaitLine.v ===== *)
(** Lines of waiting tasks: the future queues of
    [serving/adapters/upstream_limiter.py].

    [_Bucket] and [_EngineGate] both count places out of a limit and queue the
    tasks that found none, in the same two routines ([wake_waiters] and
    [abandon]).  This file models what they share: the life of one task's claim
    on a place, which stands for the task, its [asyncio.Future] and the place it
    is granted, and the loop that serves the queue.  The claims of a line are
    numbered in arrival order. *)

From S2P Require Import Prelude.

Local Open Scope Z_scope.

(** Why a suspended task is woken with an exception. *)
Inductive doom : Type := TimedOut | TaskCancelled.

#[export] Instance doom_eq_dec : EqDecision doom.
Proof. solve_decision. Defined.

(** A claim.  [Queued], [Granted], [Doomed] and [DoomedGranted] are tasks
    suspended in [asyncio.wait_for(waiter, ...)]: with the future pending,
    resolved, cancelled by an interruption, and resolved before an interruption
    that still wins the race to resume the task.  [Held] and [Forced] hold a
    place, the latter one granted over the limit; [e] is the line's epoch when
    it was granted.  [Returned] and [Left] are over, with and without having
    been granted a place in turn. *)
Inductive claim : Type :=
| Queued (deadline_bound : bool)
| Granted (deadline_bound : bool)
| Doomed (deadline_bound : bool) (d : doom)
| DoomedGranted (deadline_bound : bool) (d : doom)
| Held (e : nat)
| Forced (e : nat)
| Returned
| Left.
#[export] Instance claim_eq_dec : EqDecision claim.
Proof. solve_decision. Defined.

Definition claim_of (cs : list claim) (w : nat) : claim := default Left (cs !! w).

(** [waiter.done()] *)
Definition done_future (c : claim) : bool := match c with Queued _ => false | _ => true end.

(** A timeout or a cancellation reaching the suspended task: it cancels a
    pending future, and finds a resolved one too late. *)
Definition interrupt (d : doom) (c : claim) : claim :=
  match c with
  | Queued b => Doomed b d
  | Granted b => DoomedGranted b d
  | c => c
  end.

(** [waiter.set_result(None)] *)
Definition resolve (c : claim) : claim := match c with Queued b => Granted b | c => c end.

(** The loop of [wake_waiters]: hand places to the longest waiting. *)
Fixpoint wake_loop (limit count : Z) (waiters : list nat) (cs : list claim) :
    Z * list nat * list claim :=
  match waiters with
  | [] => (count, [], cs)
  | w :: ws =>
      if bool_decide (count < limit) then
        if done_future (claim_of cs w) then wake_loop limit count ws cs
        else wake_loop limit (count + 1) ws (alter resolve w cs)
      else (count, waiters, cs)
  end.

(** [self.waiters.remove(waiter)] with [ValueError] suppressed. *)
Fixpoint drop_waiter (w : nat) (ws : list nat) : list nat :=
  match ws with
  | [] => []
  | x :: ws' => if decide (x = w) then ws' else x :: drop_waiter w ws'
  end.

(** ** The invariant of a line *)

(** Whether a claim occupies a place of epoch [e]. *)
Definition occupies (e : nat) (c : claim) : bool :=
  match c with
  | Granted _ | DoomedGranted _ _ => true
  | Held e' | Forced e' => bool_decide (e' = e)
  | _ => false
  end.

Definition occupied (e : nat) (cs : list claim) : Z :=
  Z.of_nat (length (filter (occupies e) cs)).

(** Whether a claim was given a place in its turn. *)
Definition served (c : claim) : bool :=
  match c with
  | Granted _ | DoomedGranted _ _ | Held _ | Returned => true
  | _ => false
  end.

(** The line's bookkeeping: the count is the number of places occupied, the
    queue holds exactly the tasks still waiting (and some that were interrupted
    but have not resumed) in arrival order, and nobody was served before an
    earlier arrival that still waits. *)
Record line_core (e : nat) (count : Z) (ws : list nat) (cs : list claim) : Prop := {
  line_count : count = occupied e cs;
  line_sorted : StronglySorted lt ws;
  line_queue w : w ∈ ws ->
    exists b, cs !! w = Some (Queued b) \/ exists d, cs !! w = Some (Doomed b d);
  line_waiting w b : cs !! w = Some (Queued b) -> w ∈ ws;
  line_fifo i j c b :
    (i < j)%nat -> cs !! j = Some c -> served c = true -> cs !! i <> Some (Queued b)
}.

(** And nobody waits while a place is free. *)
Record line_wf (e : nat) (limit count : Z) (ws : list nat) (cs : list claim) : Prop := {
  line_ok : line_core e count ws cs;
  line_busy : ws <> [] -> limit <= count
}.

Definition bit (b : bool) : Z := if b then 1 else 0.

Lemma occupied_cons e c cs : occupied e (c :: cs) = bit (occupies e c) + occupied e cs.
Proof.
  unfold occupied, bit. rewrite filter_cons. destruct (occupies e c), (decide _); try done;
    simpl length; lia.
Qed.

Lemma occupied_app e cs c : occupied e (cs ++ [c]) = occupied e cs + bit (occupies e c).
Proof.
  induction cs as [|x cs IH]; simpl; rewrite !occupied_cons; [change (occupied e []) with 0; lia|].
  rewrite IH. lia.
Qed.

Lemma occupied_insert e cs i c c' :
  cs !! i = Some c ->
  occupied e (<[i := c']> cs) = occupied e cs - bit (occupies e c) + bit (occupies e c').
Proof.
  revert i; induction cs as [|x cs IH]; intros [|i] E; simplify_eq/=; rewrite !occupied_cons.
  - lia.
  - rewrite (IH i) by done. lia.
Qed.

Lemma occupied_nonneg e cs : 0 <= occupied e cs.
Proof. unfold occupied. lia. Qed.

Lemma occupied_pos e cs i c : cs !! i = Some c -> occupies e c = true -> 0 < occupied e cs.
Proof.
  revert i; induction cs as [|x cs IH]; intros [|i] E Ho; simplify_eq/=; rewrite occupied_cons.
  - rewrite Ho. pose proof (occupied_nonneg e cs). simpl. lia.
  - specialize (IH i E Ho). destruct (occupies e x); simpl; lia.
Qed.

(** ** Transitions of a line *)

(** Changing one claim to a state that neither waits nor is newly served. *)
Lemma core_set e count ws cs w c c' :
  line_core e count ws cs -> cs !! w = Some c ->
  (forall b, c' <> Queued b) -> (served c' = true -> served c = true) ->
  (w ∈ ws -> exists b d, c' = Doomed b d) ->
  line_core e (count - bit (occupies e c) + bit (occupies e c')) ws (<[w := c']> cs).
Proof.
  intros [] Hw Hq Hs Hd. constructor; auto.
  - rewrite (occupied_insert _ _ _ _ _ Hw). lia.
  - intros x Hx. rewrite list_lookup_insert. case_decide as Hc; [|by apply line_queue0].
    destruct Hc as [-> _]. destruct (Hd Hx) as (b & d & ->). eauto.
  - intros x b. rewrite list_lookup_insert. case_decide; [|by apply line_waiting0].
    intros [= ->]. by destruct (Hq b).
  - intros i j c0 b Hij Hj Hs0 Hi.
    apply list_lookup_insert_Some in Hi as [(_ & E & _)|[_ Hi]]; [by destruct (Hq b)|].
    apply list_lookup_insert_Some in Hj as [(<- & <- & _)|[_ Hj]]; eapply line_fifo0; eauto.
Qed.

Lemma drop_waiter_spec w ws : StronglySorted lt ws ->
  StronglySorted lt (drop_waiter w ws) /\ forall x, x ∈ drop_waiter w ws <-> x ∈ ws /\ x <> w.
Proof.
  induction 1 as [|x l Hl [IHs IHe] Hx]; simpl; [split; [constructor|set_solver]|].
  case_decide as E.
  - subst. split; [done|]. rewrite Forall_forall in Hx. intros y.
    split; [|set_solver]. intros Hy. specialize (Hx _ Hy). split; [set_solver|lia].
  - split; [|set_solver]. constructor; [done|]. rewrite Forall_forall in *. set_solver.
Qed.

(** Taking a claim that no longer waits out of the queue. *)
Lemma core_drop e count ws cs w :
  line_core e count ws cs -> (forall b, cs !! w <> Some (Queued b)) ->
  line_core e count (drop_waiter w ws) cs.
Proof.
  intros [] Hq. destruct (drop_waiter_spec w ws line_sorted0) as [Hs He].
  constructor; auto.
  - intros x [Hx _]%He. by apply line_queue0.
  - intros x b Hx. apply He. split; [eauto|]. intros ->. by apply (Hq b).
Qed.

Lemma core_length e count ws cs w : line_core e count ws cs -> w ∈ ws -> (w < length cs)%nat.
Proof.
  intros H Hw. destruct (line_queue _ _ _ _ H _ Hw) as (b & [E|(d & E)]);
    by eapply lookup_lt_Some.
Qed.

(** A new arrival at the back of the line. *)
Lemma core_join e count ws cs b :
  line_core e count ws cs -> line_core e count (ws ++ [length cs]) (cs ++ [Queued b]).
Proof.
  intros H. pose proof (fun w => core_length _ _ _ _ w H) as Hlt. destruct H. constructor.
  - rewrite occupied_app. simpl. lia.
  - clear -line_sorted0 Hlt. induction line_sorted0 as [|x l Hl IH Hx]; simpl.
    + repeat constructor.
    + constructor; [apply IH; set_solver|]. apply Forall_app; split; [done|].
      constructor; [apply Hlt; set_solver|constructor].
  - intros w [Hw| ->%list_elem_of_singleton]%elem_of_app.
    + rewrite lookup_app_l by auto. by apply line_queue0.
    + exists b. left. by rewrite lookup_app_r, Nat.sub_diag by lia.
  - intros w b' Hw. apply lookup_app_Some in Hw as [Hw|[Hl Hw]]; [set_solver|].
    apply list_lookup_singleton_Some in Hw as [Hz _].
    apply elem_of_app; right. apply list_elem_of_singleton. lia.
  - intros i j c b' Hij Hj Hs. apply lookup_app_Some in Hj as [Hj|[_ Hj]].
    + rewrite lookup_app_l by (apply lookup_lt_Some in Hj; lia). by eapply line_fifo0.
    + apply list_lookup_singleton_Some in Hj as [_ <-]. done.
Qed.

(** A place taken at once: in turn when nobody waits, or over the limit. *)
Lemma core_take e count ws cs c :
  line_core e count ws cs -> c = Held e /\ ws = [] \/ c = Forced e ->
  line_core e (count + 1) ws (cs ++ [c]).
Proof.
  intros H Hc. pose proof (fun w => core_length _ _ _ _ w H) as Hlt. destruct H. constructor; auto.
  - rewrite occupied_app. destruct Hc as [[-> _]| ->]; simpl; rewrite bool_decide_eq_true_2 by done;
      simpl; lia.
  - intros w Hw. rewrite lookup_app_l by auto. by apply line_queue0.
  - intros w b Hw. apply lookup_app_Some in Hw as [Hw|[_ Hw]]; [eauto|].
    apply list_lookup_singleton_Some in Hw as [_ ->]. naive_solver.
  - intros i j c' b Hij Hj Hs. apply lookup_app_Some in Hj as [Hj|[_ Hj]].
    + rewrite lookup_app_l by (apply lookup_lt_Some in Hj; lia). by eapply line_fifo0.
    + apply list_lookup_singleton_Some in Hj as [Hz <-]. destruct Hc as [[-> ->]| ->]; [|done].
      intros Hi. rewrite lookup_app_l in Hi by lia. apply line_waiting0 in Hi. set_solver.
Qed.

(** The longest waiting task is granted a place. *)
Lemma core_grant e count w ws cs b :
  line_core e count (w :: ws) cs -> cs !! w = Some (Queued b) ->
  line_core e (count + 1) ws (alter resolve w cs).
Proof.
  intros [] Hw. pose proof (StronglySorted_inv line_sorted0) as [Hs Hlt].
  rewrite Forall_forall in Hlt.
  assert (alter resolve w cs = <[w := Granted b]> cs) as ->.
  { apply list_eq; intros i. destruct (decide (w = i)) as [<-|Hne].
    - rewrite list_lookup_alter_eq, Hw, list_lookup_insert_eq; [done|by eapply lookup_lt_Some].
    - by rewrite list_lookup_alter_ne, list_lookup_insert_ne. }
  constructor; auto.
  - rewrite (occupied_insert _ _ _ _ _ Hw). simpl. lia.
  - intros x Hx. rewrite list_lookup_insert_ne by (specialize (Hlt _ Hx); lia).
    apply line_queue0. set_solver.
  - intros x b' Hx. apply list_lookup_insert_Some in Hx as [(_ & ? & _)|[Hne Hx]]; [done|].
    apply line_waiting0 in Hx. set_solver.
  - intros i j c b' Hij Hj Hsc Hi.
    apply list_lookup_insert_Some in Hi as [(_ & ? & _)|[Hni Hi]]; [done|].
    apply list_lookup_insert_Some in Hj as [(<- & <- & _)|[_ Hj]]; [|by eapply line_fifo0].
    apply line_waiting0 in Hi as [->|Hi]%elem_of_cons; [done|]. specialize (Hlt _ Hi). lia.
Qed.

Lemma wake_loop_wf e limit count ws cs :
  line_core e count ws cs ->
  let '(count', ws', cs') := wake_loop limit count ws cs in line_wf e limit count' ws' cs'.
Proof.
  revert count cs; induction ws as [|w ws IH]; intros count cs H; simpl; [by constructor|].
  case_bool_decide as Hlt; [|constructor; [done|lia]].
  destruct (line_queue _ _ _ _ H w ltac:(set_solver)) as (b & E). unfold claim_of.
  destruct E as [E|(d & E)]; rewrite E; simpl; apply IH.
  - by eapply core_grant.
  - apply (core_drop _ _ _ _ w) in H; [|by rewrite E]. simpl in H. by rewrite decide_True in H.
Qed.

(** ** What a wake-up does to each claim *)

(** The loop only ever grants pending claims; everything else is untouched. *)
Lemma wake_loop_claims limit count ws cs i :
  (wake_loop limit count ws cs).2 !! i = cs !! i \/
  (i ∈ ws /\ exists b, cs !! i = Some (Queued b) /\
    (wake_loop limit count ws cs).2 !! i = Some (Granted b)).
Proof.
  revert count cs; induction ws as [|w ws IH]; intros count cs; simpl; [by left|].
  case_bool_decide; [|by left]. destruct (done_future (claim_of cs w)) eqn:E.
  - destruct (IH count cs) as [|[? ?]]; [by left|right; set_solver].
  - destruct (IH (count + 1) (alter resolve w cs)) as [->|(Hi & b & Hb & ->)].
    + rewrite list_lookup_alter. case_decide; [subst|by left].
      unfold claim_of in E. destruct (cs !! i) as [c|] eqn:Ei; [|by left]. simpl in E.
      destruct c; try done. right. split; [set_solver|]. by eexists.
    + right. split; [set_solver|]. exists b. split; [|done].
      rewrite list_lookup_alter in Hb. case_decide; [|done]. subst.
      destruct (cs !! i) as [c|]; [|done]. by destruct c.
Qed.

(** With room for one more, the longest waiting pending task is granted. *)
Lemma wake_loop_first limit count ws cs w b :
  w ∈ ws -> cs !! w = Some (Queued b) -> StronglySorted lt ws -> count < limit ->
  (forall i, i ∈ ws -> (i < w)%nat -> done_future (claim_of cs i) = true) ->
  (wake_loop limit count ws cs).2 !! w = Some (Granted b).
Proof.
  intros Hin Hw Hs Hlt. induction ws as [|x ws IH]; intros Hd; [set_solver|].
  apply StronglySorted_inv in Hs as [Hs Hx]. rewrite Forall_forall in Hx. simpl.
  rewrite bool_decide_eq_true_2 by done.
  apply elem_of_cons in Hin as [<-|Hin].
  - unfold claim_of. rewrite Hw. simpl.
    destruct (wake_loop_claims limit (count + 1) ws (alter resolve w cs) w) as [->|(Hw' & _)].
    + by rewrite list_lookup_alter_eq, Hw.
    + specialize (Hx _ Hw'). lia.
  - rewrite Hd; [|set_solver|by apply Hx]. apply IH; auto. set_solver.
Qed.

(** Dropping the loop: nothing of an old event loop can be waited for, held or
    given back. *)
Definition retire (c : claim) : claim :=
  match c with
  | Queued _ | Doomed _ _ => Left
  | Granted _ | DoomedGranted _ _ => Returned
  | c => c
  end.

Lemma retire_core e (f : claim -> claim) cs :
  (forall c b, f c <> Queued b) -> (forall c, c ∈ cs -> occupies e (f c) = false) ->
  line_core e 0 [] (f <$> cs).
Proof.
  intros Hf Ho. assert (forall i b, (f <$> cs) !! i <> Some (Queued b)) as Hq.
  { intros i b. rewrite list_lookup_fmap. destruct (cs !! i) as [c|]; simpl; [|done].
    intros [= ?]. by apply (Hf c b). }
  constructor; [|constructor|set_solver| |].
  - clear Hq. induction cs as [|c cs IH]; [done|]. csimpl. rewrite occupied_cons.
    rewrite Ho, <- IH by set_solver. done.
  - intros w b Hw. by destruct (Hq w b).
  - intros i j c b _ _ _. apply Hq.
Qed.

(** Rewriting one claim to a state that holds no place and waits for none. *)
Lemma alter_core e count ws cs w (f : claim -> claim) :
  line_core e count ws cs ->
  (forall c, cs !! w = Some c -> (forall b, f c <> Queued b) /\
     (served (f c) = true -> served c = true) /\ occupies e (f c) = occupies e c /\
     (w ∈ ws -> exists b d, f c = Doomed b d)) ->
  line_core e count ws (alter f w cs).
Proof.
  intros H Hf. destruct (cs !! w) as [c|] eqn:E.
  - destruct (Hf c eq_refl) as (Hq & Hs & Ho & Hd).
    replace (alter f w cs) with (<[w := f c]> cs).
    + pose proof (core_set _ _ _ _ w c (f c) H E Hq Hs Hd) as Hc. rewrite Ho in Hc.
      by replace (count - _ + _) with count in Hc by lia.
    + apply list_eq; intros i. destruct (decide (w = i)) as [<-|Hne].
      * rewrite list_lookup_alter_eq, E, list_lookup_insert_eq; [done|by eapply lookup_lt_Some].
      * by rewrite list_lookup_alter_ne, list_lookup_insert_ne.
  - replace (alter f w cs) with cs; [done|]. apply list_eq; intros i.
    rewrite list_lookup_alter. case_decide; [subst|done]. by rewrite E.
Qed.

(** An interruption keeps the line in order: it grants and frees nothing. *)
Lemma interrupt_core e count ws cs w d :
  line_core e count ws cs -> line_core e count ws (alter (interrupt d) w cs).
Proof.
  intros H. apply alter_core; [done|]. intros c Hc.
  assert (w ∈ ws -> exists b, c = Queued b \/ exists d, c = Doomed b d) as Hq.
  { intros Hw. destruct (line_queue _ _ _ _ H w Hw) as (b & Hb). rewrite Hc in Hb.
    exists b. destruct Hb as [[= ->]|(d' & [= ->])]; eauto. }
  split_and!; [by destruct c|by destruct c|by destruct c|].
  intros Hw. destruct (Hq Hw) as (b & [->|(d' & ->)]); simpl; eauto.
Qed.

(** A claim outside the queue keeps out of it. *)
Lemma not_waiting e count ws cs w c :
  line_core e count ws cs -> cs !! w = Some c ->
  (forall b, c <> Queued b) -> (forall b d, c <> Doomed b d) -> w ∉ ws.
Proof.
  intros H Hc Hq Hd Hw. destruct (line_queue _ _ _ _ H w Hw) as (b & [E|(d & E)]);
    rewrite Hc in E; simplify_eq; [by apply (Hq b)|by apply (Hd b d)].
Qed.

(** A doomed task leaves the line without a place. *)
Lemma core_leave e count ws cs w b d :
  line_core e count ws cs -> cs !! w = Some (Doomed b d) ->
  line_core e count (drop_waiter w ws) (<[w := Left]> cs).
Proof.
  intros H Hw. destruct (drop_waiter_spec w ws (line_sorted _ _ _ _ H)) as [_ He].
  apply (core_drop _ _ _ _ w) in H; [|by rewrite Hw].
  pose proof (core_set _ _ _ _ w _ Left H Hw) as Hc. simpl in Hc.
  rewrite Z.sub_0_r, Z.add_0_r in Hc. apply Hc; [done|done|]. set_solver.
Qed.

(** Dropping a claim that is not queued changes nothing. *)
Lemma drop_waiter_id w ws : w ∉ ws -> drop_waiter w ws = ws.
Proof.
  induction ws as [|x ws IH]; intros Hw; simpl; [done|].
  rewrite decide_False by set_solver. f_equal. apply IH. set_solver.
Qed.

(** A woken task takes up the place that was granted in its name. *)
Lemma core_resume e count ws cs w b :
  line_core e count ws cs -> cs !! w = Some (Granted b) ->
  line_core e count ws (<[w := Held e]> cs).
Proof.
  intros H Hw. pose proof (not_waiting _ _ _ _ _ _ H Hw ltac:(done) ltac:(done)) as Hn.
  pose proof (core_set _ _ _ _ w _ (Held e) H Hw) as Hc. simpl in Hc.
  rewrite bool_decide_eq_true_2 in Hc by done. simpl in Hc.
  replace (count - 1 + 1) with count in Hc by lia. by apply Hc.
Qed.
