(* ===== verification/UpstreamLimiter.v ===== *)
(** The outbound concurrency limiter: [serving/adapters/upstream_limiter.py].

    One AIMD-controlled bucket per (provider, key) and one gate per local
    engine.  Every block of code between two awaits is one atomic operation on
    a bucket or a gate; tasks suspended at the await live in the line's claims
    ([WaitLine]).  [time.monotonic] readings and the dispatch's queue deadline
    are arguments.  What a blocked [acquire] does in the end is what its resume
    operation answers. *)

From S2P Require Import Prelude WaitLine.

Local Open Scope Z_scope.

(** What the dispatch's first-token watch is told ([dispatch_watch.py]). *)
Inductive watch_report : Type := ReportQueued | ReportSent.

(** How an [acquire] goes on. *)
Inductive acquired : Type :=
| GotSlot (w : nat)               (* returns the slot of claim [w] *)
| GotInert                        (* returns [_INERT_SLOT] *)
| Waiting (w : nat) (wait : Q)    (* suspended in [wait_for(waiter, wait)] *)
| RaiseSaturated                  (* [UpstreamSaturated] *)
| RaiseExpired                    (* [UpstreamQueueWaitExpired] *)
| RaiseCancelled                  (* the cancellation itself *)
| StillSuspended.                 (* nothing has woken the task *)

(** ** Buckets *)

(** [_Bucket]; [claims] are the tasks and slots that refer to it. *)
Record bucket : Type := Bucket {
  limit : Z;
  max_limit : Z;
  probe_success_interval : Z;
  in_flight : Z;
  successes_since_probe : Z;
  probing : bool;
  waiters : list nat;
  loop : option nat;
  claims : list claim
}.
#[export] Instance eta_bucket : Eta bucket := fun b =>
  Bucket (limit b) (max_limit b) (probe_success_interval b) (in_flight b)
    (successes_since_probe b) (probing b) (waiters b) (loop b) (claims b).

Definition new_bucket (initial max interval : Z) : bucket :=
  Bucket initial max interval 0 0 false [] None [].

(** What becomes of the claims of a loop that is gone: nothing can be waited
    for, held or given back there. *)
Definition retire_all (c : claim) : claim :=
  match retire c with Held _ => Returned | Forced _ => Left | c => c end.

(** [_Bucket.rebind_loop]; the tasks and slots of the old loop are gone with it. *)
Definition rebind_loop (b : bucket) (l : nat) : bucket :=
  if decide (loop b = Some l) then b
  else b <| loop := Some l |> <| waiters := [] |> <| in_flight := 0 |>
         <| claims := retire_all <$> claims b |>.

(** [_Bucket.has_free_slot] *)
Definition has_free_slot (b : bucket) : bool :=
  bool_decide (waiters b = []) && bool_decide (in_flight b < limit b).

(** [_Bucket.wake_waiters] *)
Definition wake_waiters (b : bucket) : bucket :=
  let '(n, ws, cs) := wake_loop (limit b) (in_flight b) (waiters b) (claims b) in
  b <| in_flight := n |> <| waiters := ws |> <| claims := cs |>.

(** [_Bucket._decrease] *)
Definition _decrease (b : bucket) : bucket :=
  b <| limit := Z.max 1 (limit b - 1) |> <| probing := false |> <| successes_since_probe := 0 |>.

(** [_Bucket._count_success] *)
Definition _count_success (b : bucket) : bucket :=
  let b := b <| successes_since_probe := successes_since_probe b + 1 |> in
  if bool_decide (successes_since_probe b < probe_success_interval b) then b
  else b <| successes_since_probe := 0 |> <| limit := Z.min (max_limit b) (limit b + 1) |>
         <| probing := true |>.

(** [_Bucket.complete] *)
Definition complete (b : bucket) (status_code : option Z) : bucket :=
  let b := if bool_decide (0 < in_flight b) then b <| in_flight := in_flight b - 1 |> else b in
  let b := if bool_decide (status_code = Some 429) then _decrease b
           else if bool_decide (status_code = Some 200) then _count_success b
           else b in
  wake_waiters b.

(** [_Bucket.abandon], with the task's claim ended. *)
Definition abandon (b : bucket) (w : nat) : bucket :=
  let b := b <| waiters := drop_waiter w (waiters b) |> in
  match claim_of (claims b) w with
  | DoomedGranted _ _ => complete (b <| claims := <[w := Returned]> (claims b) |>) None
  | _ => b <| claims := <[w := Left]> (claims b) |>
  end.

(** [_queue_wait] *)
Definition _queue_wait (acquire_timeout : Q) (deadline : option Q) (now : Q) : Q * bool :=
  match deadline with
  | None => (acquire_timeout, false)
  | Some d =>
      let remaining := (d - now)%Q in
      if bool_decide (remaining < acquire_timeout)%Q then (remaining, true)
      else (acquire_timeout, false)
  end.

(** [acquire] on a bucket, up to its await. *)
Definition acquire_bucket (acquire_timeout : Q) (b : bucket) (l : nat) (deadline : option Q)
    (now : Q) : bucket * acquired * list watch_report :=
  let b := rebind_loop b l in
  if has_free_slot b then
    (b <| in_flight := in_flight b + 1 |> <| claims := claims b ++ [Held 0] |>,
     GotSlot (length (claims b)), [ReportSent])
  else
    let '(wait, deadline_bound) := _queue_wait acquire_timeout deadline now in
    if deadline_bound && bool_decide (wait <= 0)%Q then (b, RaiseExpired, [])
    else
      let w := length (claims b) in
      (b <| waiters := waiters b ++ [w] |> <| claims := claims b ++ [Queued deadline_bound] |>,
       Waiting w wait, [ReportQueued]).

(** [acquire] on a bucket, from its await on. *)
Definition resume_bucket (b : bucket) (w : nat) : bucket * acquired * list watch_report :=
  match claim_of (claims b) w with
  | Granted _ => (b <| claims := <[w := Held 0]> (claims b) |>, GotSlot w, [ReportSent])
  | Doomed deadline_bound TimedOut | DoomedGranted deadline_bound TimedOut =>
      (abandon b w, if deadline_bound then RaiseExpired else RaiseSaturated, [])
  | Doomed _ TaskCancelled | DoomedGranted _ TaskCancelled => (abandon b w, RaiseCancelled, [])
  | _ => (b, StillSuspended, [])
  end.

(** A timeout or a cancellation reaches a task suspended on the bucket. *)
Definition interrupt_bucket (b : bucket) (w : nat) (d : doom) : bucket :=
  b <| claims := alter (interrupt d) w (claims b) |>.

(** [UpstreamSlot.release] of a bucket's slot; a slot already released, or
    lost with its loop, is inert. *)
Definition release_slot (b : bucket) (w : nat) (status_code : option Z) : bucket :=
  match claim_of (claims b) w with
  | Held O => complete (b <| claims := <[w := Returned]> (claims b) |>) status_code
  | _ => b
  end.

(** ** Engine gates *)

(** [_EngineGate]; a claim that holds a place is the [_EngineAdmission] the
    dispatch's hold and its slot share. *)
Record gate : Type := Gate {
  g_limit : Z;
  pending : Z;
  g_waiters : list nat;
  g_loop : option nat;
  epoch : nat;
  g_claims : list claim
}.
#[export] Instance eta_gate : Eta gate := fun g =>
  Gate (g_limit g) (pending g) (g_waiters g) (g_loop g) (epoch g) (g_claims g).


(** [EngineHold.__init__]: the limit it accepts; [None] is its [ValueError]. *)
Definition engine_hold (hold_limit : Z) : option Z :=
  if bool_decide (hold_limit < 1) then None else Some hold_limit.











(** ** The limiter *)

(** [UpstreamConcurrencyLimiter] *)
Record limiter : Type := Limiter {
  enabled : bool;
  lim_max : Z;
  lim_initial : Z;
  lim_interval : Z;
  acquire_timeout : Q;
  buckets : gmap (string * string) bucket;
  gates : gmap string gate
}.
#[export] Instance eta_limiter : Eta limiter := fun m =>
  Limiter (enabled m) (lim_max m) (lim_initial m) (lim_interval m) (acquire_timeout m)
    (buckets m) (gates m).






(** ** Invariant of a bucket *)

Record bucket_wf (b : bucket) : Prop := {
  bucket_line : line_wf 0 (limit b) (in_flight b) (waiters b) (claims b);
  bucket_limit : 1 <= limit b <= max_limit b;
  bucket_probe : 0 <= successes_since_probe b < probe_success_interval b
}.

Definition bucket_core (b : bucket) : Prop :=
  line_core 0 (in_flight b) (waiters b) (claims b) /\
  1 <= limit b <= max_limit b /\ 0 <= successes_since_probe b < probe_success_interval b.

Lemma wake_waiters_wf b : bucket_core b -> bucket_wf (wake_waiters b).
Proof.
  intros (H & Hl & Hp). unfold wake_waiters.
  pose proof (wake_loop_wf _ (limit b) _ _ _ H) as Hw.
  destruct (wake_loop _ _ _ _) as [[n ws] cs]. by constructor.
Qed.

Lemma bucket_wf_core b : bucket_wf b -> bucket_core b.
Proof. intros [[? _] ? ?]. done. Qed.

(** The AIMD update of [complete]. *)
Definition aimd (b : bucket) (st : option Z) : bucket :=
  if bool_decide (st = Some 429) then _decrease b
  else if bool_decide (st = Some 200) then _count_success b
  else b.

Lemma complete_eq b st :
  complete b st = wake_waiters (aimd
    (if bool_decide (0 < in_flight b) then b <| in_flight := in_flight b - 1 |> else b) st).
Proof. done. Qed.

Lemma aimd_core b st : bucket_core b -> bucket_core (aimd b st).
Proof.
  intros (H & Hl & Hp). unfold aimd, _decrease, _count_success, bucket_core.
  repeat case_bool_decide; simpl in *; split_and!; auto; lia.
Qed.

Lemma aimd_line b st :
  in_flight (aimd b st) = in_flight b /\ waiters (aimd b st) = waiters b /\
  claims (aimd b st) = claims b.
Proof. unfold aimd, _decrease, _count_success. by repeat case_bool_decide. Qed.

(** Giving back a place that is occupied. *)
Lemma complete_wf b w c c' st :
  bucket_core b -> claims b !! w = Some c -> occupies 0 c = true -> occupies 0 c' = false ->
  (forall x, c' <> Queued x) -> (served c' = true -> served c = true) -> w ∉ waiters b ->
  bucket_wf (complete (b <| claims := <[w := c']> (claims b) |>) st).
Proof.
  intros (H & Hl & Hp) Hw Ho Ho' Hq Hs Hin. rewrite complete_eq.
  pose proof (occupied_pos 0 _ _ _ Hw Ho) as Hpos.
  rewrite <- (line_count _ _ _ _ H) in Hpos.
  rewrite (bool_decide_eq_true_2 (0 < in_flight _)) by exact Hpos.
  apply wake_waiters_wf. apply aimd_core. unfold bucket_core; simpl. split_and!; auto; try lia.
  pose proof (core_set _ _ _ _ w c c' H Hw Hq Hs ltac:(done)) as Hc.
  rewrite Ho, Ho' in Hc. simpl in Hc. by rewrite Z.add_0_r in Hc.
Qed.

(** The operations on one bucket. *)
Inductive bucket_op : Type :=
| BAcquire (timeout : Q) (l : nat) (deadline : option Q) (now : Q)
| BInterrupt (w : nat) (d : doom)
| BResume (w : nat)
| BRelease (w : nat) (status_code : option Z).

Definition bucket_step (b : bucket) (o : bucket_op) : bucket :=
  match o with
  | BAcquire timeout l deadline now => (acquire_bucket timeout b l deadline now).1.1
  | BInterrupt w d => interrupt_bucket b w d
  | BResume w => (resume_bucket b w).1.1
  | BRelease w st => release_slot b w st
  end.

Lemma rebind_loop_wf b l : bucket_wf b -> bucket_wf (rebind_loop b l).
Proof.
  intros [[Hc Hb] ? ?]. unfold rebind_loop. case_decide; [by constructor|].
  constructor; simpl; auto. constructor; [|done]. apply retire_core.
  - intros [] b'; done.
  - intros [] _; done.
Qed.

Lemma acquire_bucket_wf timeout b l deadline now :
  bucket_wf b -> bucket_wf (acquire_bucket timeout b l deadline now).1.1.
Proof.
  intros Hb%(rebind_loop_wf _ l). unfold acquire_bucket.
  set (b0 := rebind_loop b l) in *. destruct Hb as [[Hc Hbusy] Hl Hp].
  destruct (has_free_slot b0) eqn:E.
  - unfold has_free_slot in E. apply andb_true_iff in E as [Hw Hlt].
    apply bool_decide_eq_true in Hw. constructor; simpl; auto.
    constructor; [|congruence]. apply core_take; auto.
  - destruct (_queue_wait timeout deadline now) as [wait db].
    destruct (_ && _); [by constructor|]. constructor; simpl; auto. constructor.
    + by apply core_join.
    + intros _. unfold has_free_slot in E. apply andb_false_iff in E as [Hw|Hlt].
      * apply bool_decide_eq_false in Hw. auto.
      * apply bool_decide_eq_false in Hlt. lia.
Qed.

Lemma claim_of_Some cs w c : claim_of cs w = c -> c <> Left -> cs !! w = Some c.
Proof. unfold claim_of. by destruct (cs !! w); intros <-. Qed.

Lemma abandon_wf b w :
  bucket_wf b ->
  (exists db d, claim_of (claims b) w = Doomed db d \/ claim_of (claims b) w = DoomedGranted db d) ->
  bucket_wf (abandon b w).
Proof.
  intros Hb (db & d & Hc). pose proof (bucket_wf_core b Hb) as Hcore.
  destruct Hb as [[Hl Hbusy] Hlim Hp]. unfold abandon. cbn [claims].
  destruct Hc as [Hc|Hc]; pose proof (claim_of_Some _ _ _ Hc ltac:(done)) as Hw;
    change (claims (b <| waiters := _ |>)) with (claims b); rewrite Hc.
  - constructor; simpl; auto. constructor; [by eapply core_leave|].
    intros Hne. apply Hbusy. intros E. rewrite E in Hne. done.
  - pose proof (not_waiting _ _ _ _ _ _ Hl Hw ltac:(done) ltac:(done)) as Hn.
    set (b1 := b <| waiters := drop_waiter w (waiters b) |>).
    assert (bucket_core b1) as Hb1.
    { unfold b1, bucket_core; cbn. by rewrite drop_waiter_id. }
    apply (complete_wf b1 w (DoomedGranted db d) Returned None Hb1 Hw); try done.
    unfold b1; cbn. by rewrite drop_waiter_id.
Qed.

Lemma bucket_step_wf b o : bucket_wf b -> bucket_wf (bucket_step b o).
Proof.
  intros Hb. destruct o as [timeout l deadline now|w d|w|w st]; cbn [bucket_step].
  - by apply acquire_bucket_wf.
  - destruct Hb as [[Hc Hbusy] ? ?]. constructor; simpl; auto.
    constructor; [by apply interrupt_core|done].
  - unfold resume_bucket. destruct (claim_of (claims b) w) as [| |db d|db d| | | |] eqn:E; auto.
    + pose proof (claim_of_Some _ _ _ E ltac:(done)) as Hw.
      destruct Hb as [[Hc Hbusy] ? ?]. constructor; simpl; auto.
      constructor; [by eapply core_resume|done].
    + destruct d; cbn [fst]; apply abandon_wf; eauto.
    + destruct d; cbn [fst]; apply abandon_wf; eauto.
  - unfold release_slot. destruct (claim_of (claims b) w) as [| | | |[|e]| | |] eqn:E; auto.
    pose proof (claim_of_Some _ _ _ E ltac:(done)) as Hw. pose proof (bucket_wf_core b Hb) as Hc.
    refine (complete_wf b w (Held 0) Returned st Hc Hw eq_refl eq_refl _ _ _); [done|done|].
    destruct Hb as [[Hl _] _ _]. by eapply not_waiting.
Qed.

(** ** Invariant of an engine gate *)

Definition place_epoch (n : nat) (c : claim) : Prop :=
  match c with Held e | Forced e => (e <= n)%nat | _ => True end.

Record gate_wf (g : gate) : Prop := {
  gate_line : line_wf (epoch g) (g_limit g) (pending g) (g_waiters g) (g_claims g);
  gate_epochs : Forall (place_epoch (epoch g)) (g_claims g)
}.

Definition gate_core (g : gate) : Prop :=
  line_core (epoch g) (pending g) (g_waiters g) (g_claims g) /\
  Forall (place_epoch (epoch g)) (g_claims g).

Lemma gate_wf_core g : gate_wf g -> gate_core g.
Proof. by intros [[]]. Qed.










(** ** The whole limiter *)




Lemma line_nil limit : line_wf 0 limit 0 [] [].
Proof.
  constructor; [|done]. constructor; [done|constructor|set_solver|done|done].
Qed.







(** *** The configured maximum *)






(** *** Places over the limit *)

(** Every place over the limit in [cs'] was one in [cs]. *)
Definition no_new_forced (cs cs' : list claim) : Prop :=
  forall j e, cs' !! j = Some (Forced e) -> cs !! j = Some (Forced e).

#[export] Instance no_new_forced_preorder : PreOrder no_new_forced.
Proof. split; [by intros cs j e|]. intros x y z H1 H2 j e Hj. by apply H1, H2. Qed.















(** ** AIMD *)

(** Whether a step returns a held slot with status [st]. *)
Definition returns (st : Z) (b : bucket) (o : bucket_op) : bool :=
  match o with
  | BRelease w (Some st') =>
      bool_decide (claim_of (claims b) w = Held 0) && bool_decide (st' = st)
  | _ => false
  end.

(** How many steps of a run return a held slot with status [st]. *)
Fixpoint returned (st : Z) (b : bucket) (l : list bucket_op) : Z :=
  match l with
  | [] => 0
  | o :: l' => bit (returns st b o) + returned st (bucket_step b o) l'
  end.

Definition bucket_run (b : bucket) (l : list bucket_op) : bucket := fold_left bucket_step l b.

Lemma wake_aimd b :
  limit (wake_waiters b) = limit b /\ max_limit (wake_waiters b) = max_limit b /\
  probe_success_interval (wake_waiters b) = probe_success_interval b /\
  successes_since_probe (wake_waiters b) = successes_since_probe b /\
  probing (wake_waiters b) = probing b.
Proof. unfold wake_waiters. by destruct (wake_loop _ _ _ _) as [[? ?] ?]. Qed.

(** The fields the AIMD controller owns. *)
Definition controller (b : bucket) : Z * Z * Z * Z * bool :=
  (limit b, max_limit b, probe_success_interval b, successes_since_probe b, probing b).

Lemma complete_controller b st : controller (complete b st) = controller (aimd b st).
Proof.
  rewrite complete_eq. unfold controller.
  set (b1 := if bool_decide (0 < in_flight b) then _ else b).
  destruct (wake_aimd (aimd b1 st)) as (-> & -> & -> & -> & ->).
  unfold b1, aimd, _decrease, _count_success. by repeat case_bool_decide.
Qed.

(** Only a held slot's return with 429 or 200 moves the controller. *)
Lemma step_controller b o :
  controller (bucket_step b o) =
  controller (if returns 429 b o then _decrease b
              else if returns 200 b o then _count_success b else b).
Proof.
  destruct o as [timeout l deadline now|w d|w|w st]; cbn [bucket_step returns].
  - unfold acquire_bucket. transitivity (controller (rebind_loop b l)).
    + destruct (has_free_slot _); [done|]. destruct (_queue_wait _ _ _). by destruct (_ && _).
    + unfold rebind_loop. by case_decide.
  - done.
  - unfold resume_bucket, abandon. destruct (claim_of (claims b) w) as [| |db d|db d| | | |] eqn:E;
      try done; destruct d; cbn [fst]; change (claims (b <| waiters := _ |>)) with (claims b);
      rewrite ?E, ?complete_controller; done.
  - unfold release_slot. destruct (claim_of (claims b) w) as [| | | |[|e]| | |] eqn:E;
      try (destruct st; done).
    rewrite complete_controller. destruct st as [st|]; [|done]. unfold aimd. simpl.
    destruct (decide (st = 429)) as [->|H1]; [done|].
    rewrite !(bool_decide_eq_false_2 (st = 429)), (bool_decide_eq_false_2 (Some st = Some 429))
      by congruence. simpl.
    destruct (decide (st = 200)) as [->|H2]; [unfold _count_success; cbn; by repeat case_bool_decide|].
    rewrite !(bool_decide_eq_false_2 (st = 200)), (bool_decide_eq_false_2 (Some st = Some 200))
      by congruence. done.
Qed.

Lemma div_mod_count (i s n : Z) :
  0 <= s < i -> 0 <= n ->
  (s + 1 + n) / i = (if bool_decide (s + 1 < i) then (s + 1 + n) / i else 1 + n / i) /\
  (s + 1 + n) mod i = (if bool_decide (s + 1 < i) then (s + 1 + n) mod i else n mod i).
Proof.
  intros Hs Hn. case_bool_decide; [done|]. replace (s + 1 + n) with (1 * i + n) by lia.
  rewrite Z.div_add_l by lia. split; [done|].
  by rewrite (Z.add_comm (1 * i)), Z.mod_add by lia.
Qed.

Lemma returned_nonneg st b l : 0 <= returned st b l.
Proof.
  revert b; induction l as [|o l IH]; intros b; simpl; [lia|].
  specialize (IH (bucket_step b o)). destruct (returns st b o); simpl; lia.
Qed.

(** the additive increase in closed form.  As long as no held slot comes
    back with a 429, a run in which [n] held slots come back with HTTP 200 --
    however acquisitions, time-outs, errors and neutral releases interleave --
    has raised the limit by exactly one per [probe_success_interval] successes,
    counting those left over from before, up to the maximum; no error, time-out
    or second release of a slot ever earns a probe or loses one. *)
Theorem aimd_growth b l :
  bucket_wf b -> returned 429 b l = 0 ->
  let n := returned 200 b l in
  let b' := bucket_run b l in
  limit b' = Z.min (max_limit b)
               (limit b + (successes_since_probe b + n) / probe_success_interval b) /\
  successes_since_probe b' = (successes_since_probe b + n) mod probe_success_interval b.
Proof.
  unfold bucket_run. revert b; induction l as [|o l IH]; intros b Hb H429; simpl in *.
  - rewrite Z.add_0_r. destruct Hb as [_ Hl Hp].
    rewrite Z.div_small, Z.mod_small by lia. lia.
  - pose proof (step_controller b o) as Hc. pose proof (returned_nonneg 429 (bucket_step b o) l).
    pose proof (bucket_step_wf b o Hb) as Hb'.
    destruct (returns 429 b o) eqn:E4; simpl in H429; [lia|].
    destruct (IH _ Hb' ltac:(lia)) as [-> ->]. clear IH.
    pose proof (returned_nonneg 200 (bucket_step b o) l) as Hn.
    set (n := returned 200 (bucket_step b o) l) in *.
    destruct Hb as [_ Hl Hp].
    destruct (returns 200 b o); simpl in Hc |- *; injection Hc as -> -> -> -> _;
      [|by rewrite Z.add_0_l].
    unfold _count_success. cbn. destruct (div_mod_count _ _ n Hp Hn) as [Hd Hm].
    replace (successes_since_probe b + (1 + n)) with (successes_since_probe b + 1 + n) by lia.
    revert Hd Hm. case_bool_decide; cbn; intros Hd Hm; [done|].
    rewrite Hd, Hm, Z.add_0_l. split; [|done].
    assert (0 <= n / probe_success_interval b) by (apply Z.div_pos; lia). lia.
Qed.

(** ** Releasing a slot *)

(** What [complete] wakes: the queue as it was, with one place freed and the
    limit as the controller leaves it. *)
Lemma complete_wakes b st :
  0 < in_flight b ->
  claims (complete b st) =
  (wake_loop (limit (aimd b st)) (in_flight b - 1) (waiters b) (claims b)).2.
Proof.
  intros Hpos. rewrite complete_eq. rewrite bool_decide_eq_true_2 by done.
  unfold wake_waiters.
  destruct (aimd_line (b <| in_flight := in_flight b - 1 |>) st) as (-> & -> & ->).
  assert (limit (aimd (b <| in_flight := in_flight b - 1 |>) st) = limit (aimd b st)) as ->.
  { unfold aimd, _decrease, _count_success. by repeat case_bool_decide. }
  cbn. by destruct (wake_loop _ _ _ _) as [[? ?] ?].
Qed.

Lemma held_in_flight b w : bucket_wf b -> claims b !! w = Some (Held 0) -> 0 < in_flight b.
Proof.
  intros [[Hc _] _ _] Hw. rewrite (line_count _ _ _ _ Hc). by eapply occupied_pos.
Qed.

Lemma release_slot_held b w st :
  bucket_wf b -> claims b !! w = Some (Held 0) ->
  claims (release_slot b w st) =
  (wake_loop (limit (aimd b st)) (in_flight b - 1) (waiters b) (<[w := Returned]> (claims b))).2.
Proof.
  intros Hb Hw. unfold release_slot.
  assert (claim_of (claims b) w = Held 0) as -> by (unfold claim_of; by rewrite Hw).
  pose proof (held_in_flight b w Hb Hw) as Hpos.
  rewrite complete_wakes by exact Hpos. do 2 f_equal.
  unfold aimd, _decrease, _count_success. by repeat case_bool_decide.
Qed.

(** A slot is given back exactly once.  Releasing a slot a second time, with
    whatever status, changes nothing at all: neither another request's slot nor
    the controller's counters. *)
Theorem release_idempotent b w st st' :
  bucket_wf b -> release_slot (release_slot b w st) w st' = release_slot b w st.
Proof.
  intros Hb. destruct (decide (claim_of (claims b) w = Held 0)) as [Hw|Hw]; cycle 1.
  { assert (forall s, release_slot b w s = b) as E; [|by rewrite !E].
    intros s. unfold release_slot. destruct (claim_of (claims b) w) as [| | | |[|e]| | |]; done. }
  pose proof (claim_of_Some _ _ _ Hw ltac:(done)) as Hs.
  assert (claim_of (claims (release_slot b w st)) w = Returned) as E.
  { unfold claim_of. rewrite (release_slot_held b w st Hb Hs).
    destruct (wake_loop_claims (limit (aimd b st)) (in_flight b - 1) (waiters b)
      (<[w := Returned]> (claims b)) w) as [->|(_ & x & Hx & _)];
      rewrite list_lookup_insert_eq in * by (by eapply lookup_lt_Some); done. }
  unfold release_slot at 1. by rewrite E.
Qed.

(** A freed slot goes to the longest waiting request.  When a held slot is
    returned, other than with a 429, and the bucket is not over its limit, the
    oldest request still waiting is granted a slot in the same step. *)
Theorem release_hands_over b w st v db :
  bucket_wf b -> claims b !! w = Some (Held 0) -> st <> Some 429 -> in_flight b <= limit b ->
  claims b !! v = Some (Queued db) ->
  (forall i x, (i < v)%nat -> claims b !! i <> Some (Queued x)) ->
  claims (release_slot b w st) !! v = Some (Granted db).
Proof.
  intros Hb Hw Hst Hle Hv Hold. rewrite (release_slot_held b w st Hb Hw).
  pose proof Hb as [[Hc _] Hlim Hp].
  assert (limit b <= limit (aimd b st)) as Hl.
  { unfold aimd, _count_success. rewrite bool_decide_eq_false_2 by done.
    repeat case_bool_decide; cbn; lia. }
  assert (v <> w) as Hne by (intros ->; rewrite Hv in Hw; done).
  apply wake_loop_first.
  - by eapply line_waiting.
  - by rewrite list_lookup_insert_ne.
  - apply Hc.
  - lia.
  - intros i Hi Hlt. unfold claim_of. destruct (decide (w = i)) as [<-|Hwi].
    + rewrite list_lookup_insert_eq by (by eapply lookup_lt_Some). done.
    + rewrite list_lookup_insert_ne by done. specialize (Hold i).
      destruct (claims b !! i) as [[]|]; try done. by destruct (Hold deadline_bound Hlt).
Qed.

(** A 429 undoes a probe.  If a success raised the limit (a probe below the
    maximum) and the next slot to come back says 429, the limit is what it was
    before the probe and the count toward the next one restarts. *)
Theorem probe_undone b w1 w2 :
  bucket_wf b -> claims b !! w1 = Some (Held 0) ->
  claims (release_slot b w1 (Some 200)) !! w2 = Some (Held 0) ->
  limit (release_slot b w1 (Some 200)) <> limit b ->
  let b' := release_slot (release_slot b w1 (Some 200)) w2 (Some 429) in
  limit b' = limit b /\ probing b' = false /\ successes_since_probe b' = 0.
Proof.
  intros Hb H1 H2 Hne. set (b1 := release_slot b w1 (Some 200)) in *.
  pose proof (step_controller b (BRelease w1 (Some 200))) as Hc1.
  pose proof (step_controller b1 (BRelease w2 (Some 429))) as Hc2.
  assert (claim_of (claims b) w1 = Held 0) as E1 by (unfold claim_of; by rewrite H1).
  assert (claim_of (claims b1) w2 = Held 0) as E2 by (unfold claim_of; by rewrite H2).
  cbn [returns bucket_step] in Hc1, Hc2. rewrite E1 in Hc1. rewrite E2 in Hc2.
  cbn in Hc1, Hc2. fold b1 in Hc1, Hc2. unfold _count_success, controller in Hc1.
  injection Hc1 as Hl _ _ _ _. injection Hc2 as Hl2 _ _ Hs2 Hp2.
  cbv zeta. rewrite Hl2, Hs2, Hp2. cbn. destruct Hb as [_ Hlim _]. split_and!; auto.
  revert Hl. case_bool_decide; cbn; intros Hl; lia.
Qed.

(** ** Witnesses *)

Definition demo_bucket : bucket :=
  bucket_run (new_bucket 1 2 1) [BAcquire 30 7 None 0; BAcquire 30 7 None 0].

Lemma demo_bucket_wf : bucket_wf demo_bucket.
Proof.
  unfold demo_bucket, bucket_run. repeat (apply bucket_step_wf || cbn [fold_left]).
  constructor; simpl; [apply line_nil|lia|lia].
Qed.

Lemma release_idempotent_witness :
  release_slot (release_slot demo_bucket 0 (Some 500)) 0 (Some 429) =
  release_slot demo_bucket 0 (Some 500).
Proof. apply release_idempotent, demo_bucket_wf. Defined.

Lemma release_hands_over_witness :
  claims (release_slot demo_bucket 0 (Some 500)) !! 1%nat = Some (Granted false).
Proof.
  apply (release_hands_over demo_bucket 0 (Some 500) 1 false);
    [apply demo_bucket_wf|vm_compute; reflexivity|done|vm_compute; done|vm_compute; reflexivity|].
  intros [|i] x Hi; [vm_compute; discriminate|lia].
Defined.

Lemma aimd_growth_witness :
  limit (bucket_run demo_bucket [BRelease 0 (Some 200)]) = 2.
Proof.
  destruct (aimd_growth demo_bucket [BRelease 0 (Some 200)]) as [-> _];
    [apply demo_bucket_wf|vm_compute; reflexivity|vm_compute; reflexivity].
Defined.

Lemma probe_undone_witness :
  limit (release_slot (release_slot
    (bucket_run (new_bucket 2 3 1) [BAcquire 30 7 None 0; BAcquire 30 7 None 0])
    0 (Some 200)) 1 (Some 429)) = 2.
Proof.
  apply (probe_undone (bucket_run (new_bucket 2 3 1) [BAcquire 30 7 None 0; BAcquire 30 7 None 0])
    0 1); [|vm_compute; reflexivity|vm_compute; reflexivity|vm_compute; discriminate].
  unfold bucket_run. repeat (apply bucket_step_wf || cbn [fold_left]).
  constructor; simpl; [apply line_nil|lia|lia].
Defined.
