(* ===== verification/Offload.v ===== *)
(** Queue-wait offload: [routing/offload.py], and the first-token watch of
    [routing/engine_wait.py].

    The policy value, which failures send a request to the offload route, and
    the order one request tries the rest of its route in.  Adapters are compared
    by identity, here a number. *)

From S2P Require Import Prelude PyText Failures.

Local Open Scope Z_scope.
Local Open Scope result_scope.

(** ** The policy *)

(** A value a policy field may be given, as far as [__post_init__] looks.  A
    Python [float] that is not finite is neither here nor there. *)
Inductive py_value : Type :=
| PNone
| PBool (b : bool)
| PInt (n : Z)
| PFloat (q : Q)
| PNonFinite
| PStr (s : chars)
| POther.

(** [OffloadPolicy] *)
Record offload_policy : Type := OffloadPolicy {
  route_id : chars;
  wait_seconds : Q;
  engine_queue_limit : option Z;
  max_input_tokens : option Z
}.

(** A whole number of at least 1, or [None]; [Raise] is the [ValueError]. *)
Definition optional_count (v : py_value) : result unit (option Z) :=
  match v with
  | PNone => Ok None
  | PInt n => if bool_decide (n < 1) then Raise tt else Ok (Some n)
  | _ => Raise tt
  end.

Definition positive_wait (v : py_value) : result unit Q :=
  match v with
  | PInt n => if bool_decide (n <= 0) then Raise tt else Ok (inject_Z n)
  | PFloat q => if bool_decide (q <= 0)%Q then Raise tt else Ok q
  | _ => Raise tt
  end.

(** [OffloadPolicy.__post_init__] *)
Definition make_policy (route wait limit max_input : py_value) : result unit offload_policy :=
  match route with
  | PStr r =>
      if bool_decide (strip r = []) then Raise tt
      else
        try! w <- positive_wait wait ;;
        try! l <- optional_count limit ;;
        try! m <- optional_count max_input ;;
        Ok (OffloadPolicy r w l m)
  | _ => Raise tt
  end.

(** [takes_input] *)
Definition takes_input (p : offload_policy) (prompt_tokens : Z) : bool :=
  match max_input_tokens p with
  | None => true
  | Some m => bool_decide (prompt_tokens <= m)
  end.

(** ** Reasons *)

Inductive offload_reason : Type :=
| OFFLOAD_QUEUE_WAIT
| OFFLOAD_ENGINE_WAIT
| OFFLOAD_LAST_RESORT.
#[export] Instance offload_reason_eq_dec : EqDecision offload_reason.
Proof. solve_decision. Defined.

(** [ended_in_gateway_queue] *)
Definition ended_in_gateway_queue (e : exn) : bool := isinstance e UpstreamSaturated.

(** [offload_reason_for] *)
Definition offload_reason_for (e : exn) : option offload_reason :=
  if ended_in_gateway_queue e then Some OFFLOAD_QUEUE_WAIT
  else if isinstance e EngineWaitExpired then Some OFFLOAD_ENGINE_WAIT
  else None.

(** [abandoned_for_offload] *)
Definition abandoned_for_offload (e : exn) : bool :=
  isinstance e EngineWaitExpired || isinstance e UpstreamQueueWaitExpired.

(** ** The fallback order *)

Abbreviation adapter := nat.

(** [FallbackOrder] *)
Record fallback_order : Type := FallbackOrder {
  ordinary : list adapter;
  offload : option adapter;
  offload_next : option offload_reason;
  retries : list adapter;
  retried : list adapter
}.
#[export] Instance eta_fallback_order : Eta fallback_order := fun o =>
  FallbackOrder (ordinary o) (offload o) (offload_next o) (retries o) (retried o).

(** [FallbackOrder.__init__] *)
Definition new_order (ordinary : list adapter) (offload : option adapter) : fallback_order :=
  FallbackOrder (filter (fun a => Some a <> offload) ordinary) offload None [] [].

(** [FallbackOrder.record_failure] *)
Definition order_record_failure (o : fallback_order) (e : exn) (a : option adapter) :
    fallback_order :=
  let o := match a with
           | Some a =>
               if abandoned_for_offload e && negb (bool_decide (a ∈ retried o))
               then o <| retried := a :: retried o |> <| retries := retries o ++ [a] |>
               else o
           | None => o
           end in
  match offload o with
  | None => o
  | Some _ =>
      match offload_reason_for e with
      | Some r => o <| offload_next := Some r |>
      | None => o
      end
  end.

(** [FallbackOrder.next]: the candidate, why the offload route is used, and the
    order after it. *)
Definition order_next (o : fallback_order) :
    option (adapter * option offload_reason * fallback_order) :=
  let take_ordinary :=
    match ordinary o with
    | a :: rest => Some (a, None, o <| ordinary := rest |>)
    | [] =>
        match retries o with
        | a :: rest => Some (a, None, o <| retries := rest |>)
        | [] => None
        end
    end in
  match offload o with
  | Some a =>
      if bool_decide (is_Some (offload_next o)) || bool_decide (ordinary o = []) then
        Some (a, Some (default OFFLOAD_LAST_RESORT (offload_next o)),
              o <| offload := None |> <| offload_next := None |>)
      else take_ordinary
  | None => take_ordinary
  end.

(** ** The first-token watch *)

(** [asyncio.Timeout]: when it fires, and whether it has or its block is over. *)
Record timeout_ctx : Type := TimeoutCtx { fires_at : option Q; settled : bool }.
#[export] Instance eta_timeout_ctx : Eta timeout_ctx := fun t => TimeoutCtx (fires_at t) (settled t).

(** [FirstTokenWatch] *)
Record watch : Type := Watch {
  watch_wait : Q;
  watch_deadline : option timeout_ctx;
  stopped : bool;
  answered : bool
}.
#[export] Instance eta_watch : Eta watch := fun w =>
  Watch (watch_wait w) (watch_deadline w) (stopped w) (answered w).

Definition new_watch (wait : Q) : watch := Watch wait None false false.

(** [_reschedule]; a settled timeout raises [RuntimeError], suppressed. *)
Definition _reschedule (w : watch) (when : option Q) : watch :=
  match watch_deadline w with
  | Some t =>
      if stopped w || settled t then w
      else w <| watch_deadline := Some (t <| fires_at := when |>) |>
  | None => w
  end.

(** [_restart] *)
Definition _restart (w : watch) (now : Q) : watch :=
  if answered w then w else _reschedule w (Some (now + watch_wait w)%Q).

(** [arm], on the timeout [deadline()] opened. *)
Definition arm (w : watch) (now : Q) : watch :=
  _restart (w <| watch_deadline := Some (TimeoutCtx None false) |>) now.

Definition on_queued (w : watch) : watch := _reschedule w None.
Definition on_sent (w : watch) (now : Q) : watch := _restart w now.
Definition on_first_token (w : watch) : watch := _reschedule (w <| answered := true |>) None.
Definition stop (w : watch) : watch := w <| stopped := true |>.

(** ** Walking the order *)

(** What the caller does with a candidate it was handed: passes over it (its
    window is too small, its circuit open), or tries it and reports a failure. *)
Inductive outcome : Type := Skipped | Failed (e : exn).

(** One hand-out: the adapter, the reason, and the offload route still pending. *)
Definition handed : Type := adapter * option offload_reason * option adapter.

Definition order_after (o : fallback_order) (a : adapter) (r : outcome) : fallback_order :=
  match r with
  | Skipped => o
  | Failed e => order_record_failure o e (Some a)
  end.

(** The caller's loop when nothing succeeds: the hand-outs, and the order left
    when the fuel ran out or [next] returned [None]. *)
Fixpoint walk (fuel : nat) (o : fallback_order) (out : nat -> outcome) (j : nat) :
    list handed * fallback_order :=
  match fuel with
  | O => ([], o)
  | S fuel =>
      match order_next o with
      | None => ([], o)
      | Some (a, r, o') =>
          let '(hs, last) := walk fuel (order_after o' a (out j)) out (S j) in
          ((a, r, offload o') :: hs, last)
      end
  end.

(** How many hand-outs an order has left at most, when only adapters of [u] are
    ever handed out: the candidates it holds, and one retry for each adapter not
    queued for one yet. *)
Definition measure (u : list adapter) (o : fallback_order) : nat :=
  length (ordinary o) + (if offload o then 1 else 0) + length (retries o)
  + length (filter (fun a => a ∉ retried o) u).

Definition within (u : list adapter) (o : fallback_order) : Prop :=
  NoDup u /\ (forall a, a ∈ ordinary o \/ offload o = Some a \/ a ∈ retries o -> a ∈ u).

Lemma filter_retire (u l : list adapter) a :
  NoDup u -> a ∈ u -> a ∉ l ->
  length (filter (fun x => x ∉ l) u) = S (length (filter (fun x => x ∉ a :: l) u)).
Proof.
  intros Hu Ha Hl. induction u as [|x u IH]; [set_solver|].
  apply NoDup_cons in Hu as [Hx Hu]. rewrite !filter_cons.
  destruct (decide (x = a)) as [->|Hne].
  - rewrite decide_True by done. rewrite decide_False by set_solver. simpl. f_equal. f_equal.
    apply filter_ext_elem. intros y Hy. set_solver.
  - assert (a ∈ u) as Hau by set_solver. specialize (IH Hu Hau).
    destruct (decide (x ∈ l)).
    + rewrite !decide_False by set_solver. done.
    + rewrite !decide_True by set_solver. simpl. lia.
Qed.

Lemma record_failure_parts o e a :
  ordinary (order_record_failure o e a) = ordinary o /\
  offload (order_record_failure o e a) = offload o.
Proof.
  unfold order_record_failure. destruct a as [a|]; [destruct (_ && _)|]; cbn;
    destruct (offload o) eqn:E; rewrite ?E; try done; destruct (offload_reason_for e); done.
Qed.

Lemma record_failure_retries o e a :
  (retries (order_record_failure o e (Some a)), retried (order_record_failure o e (Some a))) =
  if abandoned_for_offload e && negb (bool_decide (a ∈ retried o))
  then (retries o ++ [a], a :: retried o) else (retries o, retried o).
Proof.
  unfold order_record_failure. destruct (_ && _); cbn;
    destruct (offload o) eqn:E; rewrite ?E; try done; destruct (offload_reason_for e); done.
Qed.

Lemma measure_after u o a r :
  within u o -> a ∈ u ->
  measure u (order_after o a r) = measure u o /\ within u (order_after o a r).
Proof.
  intros [Hu Hw] Ha. destruct r as [|e]; [done|]. simpl. unfold measure, within.
  destruct (record_failure_parts o e (Some a)) as [-> ->].
  pose proof (record_failure_retries o e a) as E.
  destruct (_ && _) eqn:Hc; injection E as -> ->; [|done].
  apply andb_true_iff in Hc as [_ Hn]. apply negb_true_iff, bool_decide_eq_false in Hn.
  rewrite (filter_retire u (retried o) a) by done. rewrite length_app. simpl.
  split; [lia|]. split; [done|]. set_solver.
Qed.

Lemma measure_next u o a r o' :
  within u o -> order_next o = Some (a, r, o') ->
  measure u o = S (measure u o') /\ within u o' /\ a ∈ u.
Proof.
  unfold order_next, measure, within. intros [Hu Hw].
  destruct (offload o) as [x|] eqn:Ho; [destruct (_ || _)|];
    [|destruct (ordinary o) as [|y l] eqn:Hor; [destruct (retries o) as [|z l'] eqn:Hre|]..];
    intros E; simplify_eq/=; rewrite ?Ho, ?Hor, ?Hre in *; simpl;
    (split; [lia|split; [split; [done|]|]; set_solver]).
Qed.

Lemma walk_exhausts u o out j fuel :
  within u o -> (measure u o <= fuel)%nat -> order_next (walk fuel o out j).2 = None.
Proof.
  revert o j; induction fuel as [|fuel IH]; intros o j Hw Hm; simpl.
  - destruct (order_next o) as [[[a r] o']|] eqn:E; [|done].
    destruct (measure_next u o a r o' Hw E) as [? _]. lia.
  - destruct (order_next o) as [[[a r] o']|] eqn:E; [|done].
    destruct (measure_next u o a r o' Hw E) as (Hs & Hw' & Ha).
    destruct (measure_after u o' a (out j) Hw' Ha) as [Hm' Hw''].
    specialize (IH (order_after o' a (out j)) (S j) Hw'' ltac:(lia)).
    by destruct (walk fuel _ _ _) as [hs last].
Qed.

(** ** How often a route is tried *)

Definition count (a : adapter) (l : list adapter) : nat := length (filter (fun x => x = a) l).

Lemma count_cons a x l : count a (x :: l) = ((if decide (x = a) then 1 else 0) + count a l)%nat.
Proof. unfold count. rewrite filter_cons. by case_decide. Qed.

Lemma count_app a l l' : count a (l ++ l') = (count a l + count a l')%nat.
Proof. unfold count. by rewrite filter_app, length_app. Qed.

(** What an order still owes adapter [a]. *)
Definition owed (a : adapter) (o : fallback_order) : nat :=
  count a (ordinary o) + (if decide (offload o = Some a) then 1 else 0) + count a (retries o)
  + (if decide (a ∈ retried o) then 0 else 1).

Lemma owed_after a o b r : owed a (order_after o b r) = owed a o.
Proof.
  destruct r as [|e]; [done|]. simpl. unfold owed.
  destruct (record_failure_parts o e (Some b)) as [-> ->].
  pose proof (record_failure_retries o e b) as E.
  destruct (_ && _) eqn:Hc; injection E as -> ->; [|done].
  apply andb_true_iff in Hc as [_ Hn]. apply negb_true_iff, bool_decide_eq_false in Hn.
  rewrite count_app, count_cons. change (count a []) with 0%nat.
  destruct (decide (b = a)) as [->|Hne].
  - rewrite (decide_True (P := a ∈ a :: retried o)) by set_solver.
    rewrite (decide_False (P := a ∈ retried o)) by done. lia.
  - destruct (decide (a ∈ retried o)).
    + rewrite (decide_True (P := a ∈ b :: retried o)) by set_solver. lia.
    + rewrite (decide_False (P := a ∈ b :: retried o)) by set_solver. lia.
Qed.

Lemma owed_next a o b r o' :
  order_next o = Some (b, r, o') -> owed a o = (owed a o' + if decide (b = a) then 1 else 0)%nat.
Proof.
  unfold order_next, owed.
  destruct (offload o) as [x|] eqn:Ho; [destruct (_ || _)|];
    [|destruct (ordinary o) as [|y l] eqn:Hor; [destruct (retries o) as [|z l'] eqn:Hre|]..];
    intros E; simplify_eq/=; rewrite ?Ho, ?Hor, ?Hre, ?count_cons in *;
    repeat case_decide; simplify_eq/=; lia.
Qed.

Definition adapters_of (hs : list handed) : list adapter := (fun h => h.1.1) <$> hs.

Lemma walk_owed a fuel o out j : (count a (adapters_of (walk fuel o out j).1) <= owed a o)%nat.
Proof.
  revert o j; induction fuel as [|fuel IH]; intros o j; simpl; [unfold count; simpl; lia|].
  destruct (order_next o) as [[[b r] o']|] eqn:E; [|unfold count; simpl; lia].
  rewrite (owed_next a _ _ _ _ E).
  specialize (IH (order_after o' b (out j)) (S j)). rewrite owed_after in IH.
  destruct (walk fuel _ _ _) as [hs last]. unfold adapters_of in *. csimpl.
  rewrite count_cons. simpl in IH. lia.
Qed.

Lemma count_absent a l : a ∉ l -> count a l = 0%nat.
Proof.
  induction l as [|x l IH]; intros Ha; [done|]. rewrite count_cons, IH by set_solver.
  rewrite decide_False by set_solver. done.
Qed.

Lemma count_NoDup a l : NoDup l -> (count a l <= 1)%nat.
Proof.
  induction 1 as [|x l Hx Hl IH]; [unfold count; simpl; lia|].
  rewrite count_cons. case_decide; [subst; by rewrite count_absent|lia].
Qed.

(** The order a request walks after its primary failed with [e]. *)
Definition order_for (ord : list adapter) (off : option adapter) (primary : adapter) (e : exn) :
    fallback_order := order_record_failure (new_order ord off) e (Some primary).

Definition offloads_of (hs : list handed) : nat :=
  length (filter (fun h => is_Some h.1.2) hs).

Lemma offloads_cons a r p hs :
  offloads_of ((a, r, p) :: hs) = ((if r then 1 else 0) + offloads_of hs)%nat.
Proof.
  unfold offloads_of. rewrite filter_cons. destruct r; [rewrite decide_True by (by eexists); done|].
  rewrite decide_False; [done|]. by intros [? ?].
Qed.

Lemma walk_offloads fuel o out j :
  (offloads_of (walk fuel o out j).1 <= if offload o then 1 else 0)%nat.
Proof.
  revert o j; induction fuel as [|fuel IH]; intros o j; simpl; [unfold offloads_of; simpl; lia|].
  destruct (order_next o) as [[[b r] o']|] eqn:E; [|unfold offloads_of; simpl; lia].
  specialize (IH (order_after o' b (out j)) (S j)).
  assert (offload (order_after o' b (out j)) = offload o') as Ho.
  { destruct (out j); [done|]. apply record_failure_parts. }
  rewrite Ho in IH. destruct (walk fuel _ _ _) as [hs last]. cbn [fst] in *.
  rewrite offloads_cons. unfold order_next in E.
  destruct (offload o) as [x|] eqn:Hx; [destruct (_ || _)|];
    [|destruct (ordinary o) as [|y l] eqn:Hor; [destruct (retries o) as [|z l'] eqn:Hre|]..];
    simplify_eq/=; rewrite ?Hx in *; lia.
Qed.

(** a request's walk over its fallback order ends, and cycles nowhere.
    However its candidates fail or are passed over, the order is exhausted after
    at most 2n+3 hand-outs for n candidates besides the primary; no candidate is
    handed out more than twice and the failed primary at most once more; and the
    offload route is used as such at most once. *)
Theorem fallback_walk_ends ord off primary e out :
  NoDup ord -> primary ∉ ord -> off <> Some primary ->
  let '(hs, last) := walk (2 * length ord + 3) (order_for ord off primary e) out 0 in
  order_next last = None /\
  (forall a, count a (adapters_of hs) <= if decide (a = primary) then 1 else 2)%nat /\
  (offloads_of hs <= 1)%nat.
Proof.
  intros Hnd Hp Hoff. set (o := order_for ord off primary e). set (fuel := (2 * length ord + 3)%nat).
  pose proof (walk_offloads fuel o out 0) as Ho.
  pose proof (fun a => walk_owed a fuel o out 0) as Hc.
  assert (NoDup (filter (fun a => Some a <> off) ord)) as Hnf by by apply NoDup_filter.
  assert (order_next (walk fuel o out 0).2 = None) as He.
  { set (u := primary :: option_list off ++ filter (fun a => Some a <> off) ord).
    set (o0 := new_order ord off).
    assert (within u o0) as Hw.
    { split; [|intros a Ha; simpl in Ha; unfold u; destruct off; simpl; set_solver].
      unfold u. apply NoDup_cons; split.
      - rewrite elem_of_app, list_elem_of_filter. destruct off; simpl; set_solver.
      - apply NoDup_app; split_and!; [destruct off; simpl; [apply NoDup_singleton|constructor]| |done].
        intros x Hx. rewrite list_elem_of_filter. destruct off; simpl in Hx; set_solver. }
    destruct (measure_after u o0 primary (Failed e) Hw) as [Hm Hw']; [set_solver|].
    apply (walk_exhausts u); [exact Hw'|].
    change (measure u (order_after o0 primary (Failed e)) <= fuel)%nat. rewrite Hm. unfold measure, o0, new_order; simpl.
    pose proof (length_filter (fun a => Some a <> off) ord) as L1.
    pose proof (length_filter (fun a => a ∉ ([] : list adapter)) u) as L2.
    unfold u in L2 at 2. simpl in L2. rewrite length_app in L2.
    unfold fuel. destruct off; simpl in *; lia. }
  assert (forall a, owed a o = owed a (new_order ord off)) as Hown
    by (intros a; apply (owed_after a _ primary (Failed e))).
  destruct (walk fuel o out 0) as [hs last]. cbn [fst snd] in *. split_and!; auto.
  - intros a. specialize (Hc a). rewrite Hown in Hc. unfold owed in Hc. simpl in Hc.
    pose proof (count_NoDup a _ Hnf) as H1.
    assert (off = Some a \/ a = primary -> count a (filter (fun a => Some a <> off) ord) = 0%nat) as H2.
    { intros H2. apply count_absent. rewrite list_elem_of_filter. naive_solver. }
    change (count a []) with 0%nat in Hc.
    destruct (decide (off = Some a)), (decide (a = primary)); subst; try done;
      try (rewrite H2 in Hc by auto); lia.
  - etransitivity; [exact Ho|]. by destruct (offload o); lia.
Qed.

(** A route waiting for its retry is handed out before the order is exhausted. *)
Lemma walk_retries fuel o out j a :
  a ∈ retries o -> order_next (walk fuel o out j).2 = None ->
  (a, None, None) ∈ (walk fuel o out j).1.
Proof.
  revert o j; induction fuel as [|fuel IH]; intros o j Ha; simpl.
  - unfold order_next. destruct (retries o); [set_solver|].
    destruct (offload o) as [x|]; [destruct (_ || _)|]; try done; by destruct (ordinary o).
  - destruct (order_next o) as [[[b r] o']|] eqn:E.
    + intros Hend. specialize (IH (order_after o' b (out j)) (S j)).
      assert (retries o' = retries o \/
        (retries o = b :: retries o' /\ r = None /\ offload o' = None)) as Hr.
      { unfold order_next in E. destruct (offload o) as [x|] eqn:Hx; [destruct (_ || _) eqn:Hc|];
          [|destruct (ordinary o) as [|y l] eqn:Hor; [destruct (retries o) as [|z l'] eqn:Hre|]..];
          simplify_eq/=; auto. by rewrite orb_true_r in Hc. }
      assert (forall x, x ∈ retries o' -> x ∈ retries (order_after o' b (out j))) as Hsub.
      { intros x Hx. destruct (out j) as [|ex]; [done|]. simpl.
        pose proof (record_failure_retries o' ex b) as Er. destruct (_ && _);
          injection Er as -> _; [apply elem_of_app; by left|done]. }
      destruct (walk fuel _ _ _) as [hs last]. cbn [fst snd] in *.
      destruct Hr as [Hr|(Hr & -> & ->)].
      * apply elem_of_cons; right. apply IH; [|done]. apply Hsub. by rewrite Hr.
      * rewrite Hr in Ha. apply elem_of_cons in Ha as [->|Ha]; apply elem_of_cons; [by left|right].
        apply IH; auto.
    + intros _. exfalso. unfold order_next in E. destruct (retries o); [set_solver|].
      destruct (offload o) as [x|]; [destruct (_ || _)|]; try done; by destruct (ordinary o).
Qed.

(** An offload never costs a request its own route.  An attempt cut short
    for the offload route (its queue or first-token deadline passed) has its
    route handed out again before the order is exhausted, whatever the offload
    route and every other candidate do, and by then no offload route is pending,
    so no deadline cuts the retry short. *)
Theorem abandoned_route_retried o e a out j fuel :
  abandoned_for_offload e = true -> a ∉ retried o ->
  let o' := order_record_failure o e (Some a) in
  order_next (walk fuel o' out j).2 = None ->
  (a, None, None) ∈ (walk fuel o' out j).1.
Proof.
  intros He Ha o' Hend. apply walk_retries; [|done]. subst o'.
  pose proof (record_failure_retries o e a) as Er. rewrite He in Er.
  rewrite bool_decide_eq_false_2 in Er by done. injection Er as -> _.
  apply elem_of_app; right. by apply list_elem_of_singleton.
Qed.

(** the offload route is placed by outcome.  While it is pending, a failure
    that waited too long makes it the very next candidate, with that wait as the
    reason; before any such failure it is handed out exactly when no ordinary
    candidate is left, as the last resort; and ordinary candidates come in route
    order. *)
Theorem offload_placed o e a x :
  offload o = Some x ->
  (forall r, offload_reason_for e = Some r ->
     exists o', order_next (order_record_failure o e a) = Some (x, Some r, o') /\
       offload o' = None) /\
  (offload_next o = None ->
     match ordinary o with
     | [] => exists o', order_next o = Some (x, Some OFFLOAD_LAST_RESORT, o')
     | y :: rest => order_next o = Some (y, None, o <| ordinary := rest |>)
     end).
Proof.
  intros Ho. split.
  - intros r Hr. unfold order_record_failure.
    destruct a as [a|]; [destruct (_ && _)|]; cbn; rewrite Ho, Hr; eexists; (split; [reflexivity|done]).
  - intros Hn. unfold order_next. rewrite Ho, Hn. destruct (ordinary o); simpl; eauto.
Qed.

(** ** The engine's clock *)

Inductive report : Type := RQueued | RSent (now : Q) | RFirstToken.

Definition tell (w : watch) (r : report) : watch :=
  match r with
  | RQueued => on_queued w
  | RSent now => on_sent w now
  | RFirstToken => on_first_token w
  end.

(** The instant the wait ends at after a sequence of reports: none while the
    request is queued or once it has been answered, else a full wait after it
    last left. *)
Fixpoint engine_deadline (wait : Q) (cur : option Q) (answered : bool) (rs : list report) :
    option Q :=
  match rs with
  | [] => if answered then None else cur
  | RQueued :: rs => engine_deadline wait None answered rs
  | RSent now :: rs => engine_deadline wait (Some (now + wait)%Q) answered rs
  | RFirstToken :: rs => engine_deadline wait None true rs
  end.

Lemma tell_deadline rs w when :
  stopped w = false -> watch_deadline w = Some (TimeoutCtx when false) ->
  (answered w = true -> when = None) ->
  watch_deadline (fold_left tell rs w) =
  Some (TimeoutCtx (engine_deadline (watch_wait w) when (answered w) rs) false).
Proof.
  revert w when; induction rs as [|r rs IH]; intros w when Hs Hd Ha; simpl.
  - rewrite Hd. destruct (answered w); [by rewrite Ha|done].
  - destruct r as [|now|]; simpl.
    + unfold on_queued, _reschedule. rewrite Hd, Hs. simpl. by rewrite IH with (when := None).
    + unfold on_sent, _restart. destruct (answered w) eqn:E.
      * rewrite (IH _ _ Hs Hd); rewrite E; [|done]. rewrite Ha by done. f_equal. f_equal.
        clear. revert now. assert (forall c c', engine_deadline (watch_wait w) c true rs =
          engine_deadline (watch_wait w) c' true rs) as H; [|intros; apply H].
        induction rs as [|[] rs IH]; intros; simpl; auto.
      * unfold _reschedule. rewrite Hd, Hs. simpl.
        rewrite IH with (when := Some (now + watch_wait w)%Q); simpl; auto; [by rewrite E|].
        rewrite E. done.
    + unfold on_first_token, _reschedule. cbn. rewrite Hd, Hs. simpl. by rewrite IH with (when := None).
Qed.

Definition first_token_reported (rs : list report) : bool :=
  existsb (fun r => match r with RFirstToken => true | _ => false end) rs.

Lemma engine_deadline_last wait rs r cur ans :
  engine_deadline wait cur ans (rs ++ [r]) =
  if ans || first_token_reported (rs ++ [r]) then None
  else match r with RSent s => Some (s + wait)%Q | _ => None end.
Proof.
  revert cur ans; induction rs as [|x rs IH]; intros cur ans; simpl.
  - destruct r, ans; done.
  - destruct x; simpl; rewrite IH; try done. by rewrite orb_true_r.
Qed.

(** the first-token deadline times the engine alone.  After a watch is armed
    and told any sequence of reports, its timeout is set for exactly one full
    wait after the request last left the gateway: time spent queued for a slot
    never counts, and once the upstream's first output was reported no later
    report makes the attempt expire. *)
Theorem watch_times_engine wait t0 rs :
  fires_at <$> watch_deadline (fold_left tell rs (arm (new_watch wait) t0)) =
  Some (if first_token_reported rs then None
        else match last (RSent t0 :: rs) with
             | Some (RSent s) => Some (s + wait)%Q
             | _ => None
             end).
Proof.
  rewrite (tell_deadline rs (arm (new_watch wait) t0) (Some (t0 + wait)%Q)) by done.
  simpl. f_equal. destruct rs as [|r rs _] using rev_ind; [done|].
  rewrite engine_deadline_last, app_comm_cons, last_snoc. simpl. by destruct r.
Qed.

(** ** Witnesses *)

Definition queue_wait_error : exn := Exn UpstreamQueueWaitExpired no_attrs.

Lemma fallback_walk_ends_witness :
  order_next (walk 7 (order_for [1; 2]%nat (Some 3%nat) 0%nat queue_wait_error)
    (fun _ => Failed queue_wait_error) 0).2 = None.
Proof.
  pose proof (fallback_walk_ends [1; 2]%nat (Some 3%nat) 0%nat queue_wait_error
    (fun _ => Failed queue_wait_error)) as H.
  destruct (walk _ _ _ _) as [hs o] eqn:E in H.
  change 7%nat with (2 * length [1; 2]%nat + 3)%nat. rewrite E. simpl. apply H.
  - apply (bool_decide_unpack _); vm_compute; exact I.
  - apply (bool_decide_unpack _); vm_compute; exact I.
  - discriminate.
Defined.

Lemma abandoned_route_retried_witness :
  (0%nat, None, None) ∈
    (walk 7 (order_record_failure (new_order [1; 2]%nat (Some 3%nat)) queue_wait_error (Some 0%nat))
       (fun _ => Skipped) 0).1.
Proof.
  apply abandoned_route_retried; [vm_compute; reflexivity|apply not_elem_of_nil|].
  vm_compute; reflexivity.
Defined.

Lemma offload_placed_witness :
  exists o', order_next (order_record_failure (new_order [1; 2]%nat (Some 3%nat))
    queue_wait_error (Some 0%nat)) = Some (3%nat, Some OFFLOAD_QUEUE_WAIT, o') /\ offload o' = None.
Proof.
  apply (proj1 (offload_placed (new_order [1; 2]%nat (Some 3%nat)) queue_wait_error (Some 0%nat)
    3%nat eq_refl)). vm_compute; reflexivity.
Defined.
