(* ===== verification/FixedRouter.v ===== *)
(** [FixedRouter]: the dispatch of one request over its route
    ([routing/routers.py], [chat_completion] and [stream_chat_completion] from
    the primary attempt on, and the rules of the fallback walk).

    Which adapter is the primary, and the claim selection took for it, are
    inputs.  The endpoint registry is the one of [EndpointHealth], the order of
    candidates that of [Offload]; other requests act on the registry whenever
    this one awaits. *)

From S2P Require Import Prelude PyText UsageLimit Failures CircuitBreaker EndpointHealth Offload.

Local Open Scope Z_scope.

(** The texts of an exception: its [error_body] if it has one, and [str(exc)]. *)
Class ErrorTexts := error_texts : exn -> list chars.

(** ** What a failure says about the request *)

(** [_describes_request] *)
Definition _describes_request (e : exn) : bool :=
  match http_status_of e with
  | Some s => bool_decide (s ∈ [400; 404; 413; 422])
  | None => false
  end.

(** [.{0,n}] *)
Fixpoint up_to (n : nat) (r : regex) : regex :=
  match n with O => REps | S n => ROpt (RSeq r (up_to n r)) end.

Definition newline : char := 10%N.

(** [_CONTEXT_WINDOW_REFUSAL_RE] *)
Definition _CONTEXT_WINDOW_REFUSAL_RE : regex :=
  foldr RAlt (lits true "model token limit")
    [ lits true "context length"; lits true "context window"; lits true "context_length_exceeded";
      seqs [lits true "maximum "; RAlt (lits true "model") (lits true "prompt"); lits true " length"];
      lits true "prompt is too long";
      seqs [lits true "input token count"; RWordBoundary;
            up_to 40 (RChar (fun c => negb (char_eqb c newline)));
            RWordBoundary; lits true "exceeds"]].

(** [exceeds_context_window] *)
Definition exceeds_context_window `{ErrorTexts} (e : exn) : bool :=
  _describes_request e &&
  existsb (fun t => bool_decide (is_Some (search _CONTEXT_WINDOW_REFUSAL_RE t))) (error_texts e).

(** [_counts_as_request_refusal] *)
Definition _counts_as_request_refusal `{ErrorTexts} (e : exn) : bool :=
  _describes_request e && negb (exceeds_context_window e).

Definition _REQUEST_REFUSAL_LIMIT : nat := 2.

(** [request_refusals_end_fallback] *)
Definition request_refusals_end_fallback `{ErrorTexts} (errors : list exn) : bool :=
  bool_decide (_REQUEST_REFUSAL_LIMIT <= length (filter _counts_as_request_refusal errors))%nat.

(** ** Attempts and the error reported *)

(** [_RouteAttempt] *)
Record route_attempt : Type := RouteAttempt {
  error : exn;
  attempt_offload : option offload_reason;
  attempt_route : adapter
}.

(** The loop of [select_surfaced_error] from an index on. *)
Fixpoint first_describing (i : nat) (errors : list exn) : option nat :=
  match errors with
  | [] => None
  | e :: rest => if _describes_request e then Some i else first_describing (S i) rest
  end.

(** [select_surfaced_error] *)
Definition select_surfaced_error (errors : list exn) : nat :=
  match errors with
  | [] => 0
  | e :: rest => if _describes_request e then 0 else default 0%nat (first_describing 1 rest)
  end.

(** The first later attempt on the same route, and the rest without it. *)
Fixpoint pop_retry (route : adapter) (later : list route_attempt) :
    option (route_attempt * list route_attempt) :=
  match later with
  | [] => None
  | a :: rest =>
      if decide (attempt_route a = route) then Some (a, rest)
      else '(r, rest') ← pop_retry route rest; Some (r, a :: rest')
  end.

(** [_reported_attempts]; [later] shrinks on every pass, so its length is fuel
    enough. *)
Fixpoint reported_loop (fuel : nat) (later : list route_attempt) : list route_attempt :=
  match fuel, later with
  | S fuel, a :: rest =>
      if abandoned_for_offload (error a) then
        match pop_retry (attempt_route a) rest with
        | Some (retry, rest') => retry :: reported_loop fuel rest'
        | None => a :: reported_loop fuel rest
        end
      else a :: reported_loop fuel rest
  | _, _ => []
  end.

Definition _reported_attempts (attempts : list route_attempt) : list route_attempt :=
  reported_loop (length attempts) attempts.

(** The attempt [_raise_surfaced_error] reports. *)
Definition surfaced (attempts : list route_attempt) : option route_attempt :=
  let reported := _reported_attempts attempts in
  reported !! select_surfaced_error (error <$> reported).

(** [_offload_marker]: the first attempt sent to the offload route. *)
Definition _offload_marker (attempts : list route_attempt) : option (offload_reason * adapter) :=
  head (omap (fun a => r ← attempt_offload a; Some (r, attempt_route a)) attempts).

(** ** The walk *)

(** How an attempt ends: the response or the whole stream reached the caller; an
    [Exception] was raised, for a stream before or after its first chunk went
    out; or anything else unwound it (cancellation, the client hanging up). *)
Inductive attempt_result : Type :=
| Served
| Raised (e : exn) (yielded : bool)
| Unwound.

(** The surroundings of one attempt. *)
Record attempt_env : Type := AttemptEnv {
  at_begin : env;                 (* when it is dispatched *)
  offload_serves : bool;          (* [_serves_caller] of the pending offload route *)
  before_token : list step;       (* others' registry operations, before the first token *)
  at_token : env;
  token_seen : bool;              (* the stream produced a non-empty chunk *)
  after_token : list step;        (* and after it *)
  ended : attempt_result;
  at_end : env
}.

Inductive router_event : Type :=
| Claimed (c : option dispatch_claim)
| Dispatched (j : nat) (a : adapter) (deadline : option Q)    (* attempt [j] is sent *)
| Ended (c : option dispatch_claim).

(** What the caller of the router gets. *)
Inductive answer : Type :=
| Answered                        (* a response *)
| Reported (a : route_attempt)    (* the error of [_raise_surfaced_error] *)
| ReRaised (e : exn)              (* an error raised as it came *)
| Interrupted                     (* the cancellation *)
| Crashed (err : py_error)        (* an exception of the bookkeeping itself *)
| Unfinished.                     (* fuel ran out *)

Inductive mode : Type := Chat | Stream.

Section router.
Context `{ErrorText, ErrorTexts}.
(** The configuration of an adapter: [endpoint_id_for_adapter] and
    [_configured_context_window]. *)
Context (endpoint_of : adapter -> string) (context_window : adapter -> option Z).

(** [_widest_refused_window] *)
Definition _widest_refused_window (refused : option Z) (a : adapter) (e : exn) : option Z :=
  if negb (exceeds_context_window e) then refused
  else match context_window a with
       | None => refused
       | Some w => Some (match refused with None => w | Some r => Z.max r w end)
       end.

(** [_window_cannot_fit] *)
Definition _window_cannot_fit (a : adapter) (refused : option Z) : bool :=
  match refused, context_window a with
  | Some r, Some w => bool_decide (w <= r)
  | _, _ => false
  end.

(** [_queue_deadline] *)
Definition _queue_deadline (r : registry) (e : env) (pending : option adapter)
    (policy : option offload_policy) (refused : option Z) (serves : bool) :
    registry * option Q :=
  match pending, policy with
  | Some x, Some p =>
      if _window_cannot_fit x refused then (r, None)
      else if negb serves then (r, None)
      else
        let '(r, ok) := registry_allow_request r e (endpoint_of x) in
        (r, if ok then Some (monotonic e + wait_seconds p)%Q else None)
  | _, _ => (r, None)
  end.

(** What one attempt does to the registry up to its end.  Without streaming,
    success is the response; a stream's is its first non-empty chunk. *)
Definition chat_attempt (r : registry) (id : string) (w : attempt_env) : registry :=
  let r := ensure r (at_begin w) id in
  let r := (rrun r (before_token w)).1 in
  match ended w with
  | Served => (record_success r (at_end w) id).1
  | _ => r
  end.

Definition stream_attempt (r : registry) (id : string) (w : attempt_env) : registry :=
  let r := (rrun r (before_token w)).1 in
  let r := if token_seen w then (record_success r (at_token w) id).1 else r in
  (rrun r (after_token w)).1.

Definition attempt_on (m : mode) : registry -> string -> attempt_env -> registry :=
  match m with Chat => chat_attempt | Stream => stream_attempt end.

(** Whether a failed attempt has committed the answer to its provider. *)
Definition committed (m : mode) (yielded : bool) : bool :=
  match m with Chat => false | Stream => yielded end.

(** The fallback loop, at its [j]-th candidate. *)
Fixpoint fallback_loop (m : mode) (primary : adapter) (policy : option offload_policy)
    (reason : chars) (fuel j : nat) (r : registry) (o : fallback_order)
    (attempts : list route_attempt) (refused : option Z)
    (primary_claim : option dispatch_claim) (w : nat -> attempt_env) :
    registry * list router_event * option dispatch_claim * list route_attempt * answer :=
  let finish r evs pc attempts :=
    (r, evs, pc, attempts,
     match surfaced attempts with Some a => Reported a | None => Unfinished end) in
  match fuel with
  | O => (r, [], primary_claim, attempts, Unfinished)
  | S fuel =>
      match order_next o with
      | None => finish r [] primary_claim attempts
      | Some (a, offload_reason, o) =>
          let e := w j in
          if _window_cannot_fit a refused then
            fallback_loop m primary policy reason fuel (S j) r o attempts refused primary_claim w
          else
            let id := endpoint_of a in
            let '(r, evs, pc) :=
              if decide (a = primary)
              then (registry_end_dispatch r primary_claim, [Ended primary_claim], None)
              else (r, [], primary_claim) in
            let '(r, claim) := registry_begin_dispatch r (at_begin e) id in
            match claim with
            | None =>
                let '(r, evs', pc, attempts, ans) :=
                  fallback_loop m primary policy reason fuel (S j) r o attempts refused pc w in
                (r, evs ++ evs', pc, attempts, ans)
            | Some c =>
                let '(r, deadline) :=
                  match offload_reason with
                  | Some _ => (r, None)
                  | None => _queue_deadline r (at_begin e) (offload o) policy refused
                              (offload_serves e)
                  end in
                let r := attempt_on m r id e in
                let evs := evs ++ [Claimed (Some c); Dispatched j a deadline] in
                match ended e with
                | Served =>
                    (registry_end_dispatch r (Some c), evs ++ [Ended (Some c)], pc, attempts,
                     Answered)
                | Unwound =>
                    (registry_end_dispatch r (Some c), evs ++ [Ended (Some c)], pc, attempts,
                     Interrupted)
                | Raised exc yielded =>
                    let '(r, _, err) :=
                      record_failure r (at_end e) id reason (operator_safe_error exc)
                        (Some exc) in
                    let r' := registry_end_dispatch r (Some c) in
                    let evs := evs ++ [Ended (Some c)] in
                    match err with
                    | Some err => (r', evs, pc, attempts, Crashed err)
                    | None =>
                        let attempts := attempts ++ [RouteAttempt exc offload_reason a] in
                        if committed m yielded then (r', evs, pc, attempts, ReRaised exc)
                        else
                          let refused := _widest_refused_window refused a exc in
                          let o := order_record_failure o exc (Some a) in
                          if request_refusals_end_fallback (error <$> attempts)
                          then finish r' evs pc attempts
                          else
                            let '(r, evs', pc, attempts, ans) :=
                              fallback_loop m primary policy reason fuel (S j) r' o attempts
                                refused pc w in
                            (r, evs ++ evs', pc, attempts, ans)
                    end
                end
            end
      end
  end.

(** Who may walk on after the primary failed, and over what. *)
Record request : Type := Request {
  primary : adapter;
  claim : option dispatch_claim;        (* what selection claimed for the primary *)
  primary_reason : option offload_reason;
  primary_deadline : option Q;
  pinned : bool;
  allow_fallback : bool;
  others : list adapter;                (* the other candidates, in route order *)
  offload_route : option adapter;
  policy : option offload_policy;
  failure_reason : chars                (* the reason failures are recorded with *)
}.

(** Hand-outs a request's order can make. *)
Definition walk_bound (q : request) : nat := 2 * length (others q) + 4.

(** [chat_completion] and [stream_chat_completion], from the primary attempt
    on; attempt 0 is the primary's. *)
Definition dispatch (m : mode) (q : request) (r : registry) (w : nat -> attempt_env) :
    registry * list router_event * list route_attempt * answer :=
  let e := w 0%nat in
  let id := endpoint_of (primary q) in
  let r := attempt_on m r id e in
  let evs := [Claimed (claim q); Dispatched 0 (primary q) (primary_deadline q)] in
  let close r evs pc attempts ans :=
    (registry_end_dispatch r pc, evs ++ [Ended pc], attempts, ans) in
  match ended e with
  | Served => close r evs (claim q) [] Answered
  | Unwound => close r evs (claim q) [] Interrupted
  | Raised exc yielded =>
      let '(r, _, err) :=
        record_failure r (at_end e) id (failure_reason q) (operator_safe_error exc)
          (Some exc) in
      match err with
      | Some err => close r evs (claim q) [] (Crashed err)
      | None =>
          let attempts := [RouteAttempt exc (primary_reason q) (primary q)] in
          if pinned q || negb (allow_fallback q) || committed m yielded
          then close r evs (claim q) attempts (ReRaised exc)
          else
            let refused := _widest_refused_window None (primary q) exc in
            let o := order_record_failure (new_order (others q) (offload_route q)) exc
                       (Some (primary q)) in
            let '(r, evs', pc, attempts, ans) :=
              fallback_loop m (primary q) (policy q) (failure_reason q) (walk_bound q) 1 r o
                attempts refused (claim q) w in
            close r (evs ++ evs') pc attempts ans
      end
  end.

End router.

(** ** The error reported *)

Lemma first_describing_spec i errors :
  match first_describing i errors with
  | Some k => exists e, (i <= k)%nat /\ errors !! (k - i)%nat = Some e /\
      _describes_request e = true /\
      forall n e', (n < k - i)%nat -> errors !! n = Some e' -> _describes_request e' = false
  | None => forall e, e ∈ errors -> _describes_request e = false
  end.
Proof.
  revert i; induction errors as [|e errors IH]; intros i; simpl; [set_solver|].
  destruct (_describes_request e) eqn:E.
  - exists e. rewrite Nat.sub_diag. split_and!; auto. intros n e' Hn. lia.
  - specialize (IH (S i)). destruct (first_describing (S i) errors) as [k|].
    + destruct IH as (e' & Hle & Hk & Hd & Hb). exists e'.
      replace (k - i)%nat with (S (k - S i)) by lia. split_and!; auto; [lia|].
      intros [|n] e2 Hn He2; simplify_eq/=; [done|]. apply (Hb n); [lia|done].
    + intros x [->|Hx]%elem_of_cons; auto.
Qed.

Lemma pop_retry_spec route later a rest :
  pop_retry route later = Some (a, rest) ->
  attempt_route a = route /\ a :: rest ≡ₚ later.
Proof.
  revert a rest; induction later as [|x later IH]; intros a rest; simpl; [done|].
  case_decide as Hx; [by intros [= -> ->]|].
  destruct (pop_retry route later) as [[r l]|]; simpl; [|done].
  intros [= -> <-]. destruct (IH _ _ eq_refl) as [-> <-]. split; [done|].
  apply Permutation_swap.
Qed.

(** What is reported is made of the attempts themselves, and an attempt left out
    was cut short for the offload route and answered by a retry of its route. *)
Lemma reported_loop_spec fuel later :
  (length later <= fuel)%nat ->
  (reported_loop fuel later = [] -> later = []) /\
  (forall a, a ∈ reported_loop fuel later -> a ∈ later) /\
  (forall a, a ∈ later -> a ∉ reported_loop fuel later ->
     abandoned_for_offload (error a) = true /\
     exists b, b ∈ reported_loop fuel later /\ attempt_route b = attempt_route a).
Proof.
  revert later; induction fuel as [|fuel IH]; intros [|a later] Hl; simpl in *; try lia;
    [set_solver|set_solver|].
  assert (forall l (x : route_attempt), (length l <= fuel)%nat -> x :: l ≡ₚ later ->
    abandoned_for_offload (error a) = true -> attempt_route x = attempt_route a ->
    (x :: reported_loop fuel l = [] -> a :: later = []) /\
    (forall y, y ∈ x :: reported_loop fuel l -> y ∈ a :: later) /\
    (forall y, y ∈ a :: later -> y ∉ x :: reported_loop fuel l ->
      abandoned_for_offload (error y) = true /\
      exists b, b ∈ x :: reported_loop fuel l /\ attempt_route b = attempt_route y)) as Hpop.
  { intros l x Hlen Hp Ha Hr. destruct (IH l Hlen) as (_ & R1 & R2). split_and!; [done| |].
    - intros y. rewrite <- Hp, !elem_of_cons. naive_solver.
    - intros y. rewrite <- Hp, !elem_of_cons. intros [->|[->|Hy]] Hn; [|naive_solver|].
      + split; [done|]. exists x. split; [set_solver|done].
      + destruct (R2 y Hy) as [? (b & ? & ?)]; [set_solver|]. split; [done|].
        exists b. split; [set_solver|done]. }
  assert ((a :: reported_loop fuel later = [] -> a :: later = []) /\
    (forall y, y ∈ a :: reported_loop fuel later -> y ∈ a :: later) /\
    (forall y, y ∈ a :: later -> y ∉ a :: reported_loop fuel later ->
      abandoned_for_offload (error y) = true /\
      exists b, b ∈ a :: reported_loop fuel later /\ attempt_route b = attempt_route y)) as Hkeep.
  { destruct (IH later ltac:(lia)) as (_ & R1 & R2). split_and!; [done|set_solver|].
    intros y Hy Hn. destruct (R2 y) as [? (b & ? & ?)]; [set_solver|set_solver|].
    split; [done|]. exists b. split; [set_solver|done]. }
  destruct (abandoned_for_offload (error a)) eqn:Ea; [|exact Hkeep].
  destruct (pop_retry (attempt_route a) later) as [[x l]|] eqn:Ep; [|exact Hkeep].
  apply pop_retry_spec in Ep as [Hr Hp]. apply Hpop; auto.
  apply Permutation_length in Hp. simpl in Hp. lia.
Qed.

(** What [surfaced] answers: an attempt on record; the first of the reported
    ones unless it says nothing of the request and a later one does, and then
    the first that does. *)
Lemma surfaced_spec attempts :
  attempts <> [] -> exists k a, surfaced attempts = Some a /\
    _reported_attempts attempts !! k = Some a /\
    (forall b, b ∈ _reported_attempts attempts -> _describes_request (error b) = true ->
       _describes_request (error a) = true) /\
    (k <> 0%nat -> _describes_request (error a) = true) /\
    (forall i b, (i < k)%nat -> _reported_attempts attempts !! i = Some b ->
       _describes_request (error b) = false).
Proof.
  intros Hne. unfold surfaced. set (rep := _reported_attempts attempts).
  destruct (reported_loop_spec (length attempts) attempts ltac:(lia)) as (Hnil & _).
  fold (_reported_attempts attempts) in Hnil. fold rep in Hnil.
  destruct rep as [|a0 rep'] eqn:E; [by rewrite Hnil in Hne|]. csimpl.
  destruct (_describes_request (error a0)) eqn:Hd.
  { exists 0%nat, a0. split_and!; auto; intros; lia. }
  pose proof (first_describing_spec 1 (error <$> rep')) as Hf.
  destruct (first_describing 1 (error <$> rep')) as [k|]; simpl.
  - destruct Hf as (e & Hk & He & Hde & Hb). rewrite list_lookup_fmap in He.
    destruct (rep' !! (k - 1)%nat) as [ak|] eqn:Ek; [|done]. simpl in He. injection He as He.
    exists k, ak. destruct k as [|k]; [lia|]. simpl in *. rewrite Nat.sub_0_r in Ek. rewrite Ek.
    subst e. split_and!; auto. intros [|i] b Hi Hlk; simpl in Hlk; [by injection Hlk as <-|].
    apply (Hb i); [lia|]. by rewrite list_lookup_fmap, Hlk.
  - exists 0%nat, a0. split_and!; auto; [|intros; lia].
    intros b [->|Hb]%elem_of_cons; [congruence|]. rewrite Hf; [done|].
    by apply list_elem_of_fmap_2.
Qed.

(** ** The walk is safe *)

#[export] Instance dispatch_claim_eq_dec : EqDecision dispatch_claim.
Proof. solve_decision. Defined.

Fixpoint remove_one (c : dispatch_claim) (l : list dispatch_claim) : list dispatch_claim :=
  match l with
  | [] => []
  | x :: l' => if decide (x = c) then l' else x :: remove_one c l'
  end.

(** The claims a request holds after an event. *)
Definition claims_held (l : list dispatch_claim) (e : router_event) : list dispatch_claim :=
  match e with
  | Claimed (Some c) => c :: l
  | Ended (Some c) => remove_one c l
  | _ => l
  end.

Lemma ended_own c : fold_left claims_held [Ended c] (option_list c) = [].
Proof. destruct c as [c|]; [|done]. simpl. by rewrite decide_True. Qed.

Lemma claim_cycle c j a d l :
  fold_left claims_held [Claimed (Some c); Dispatched j a d; Ended (Some c)] l = l.
Proof. simpl. by rewrite decide_True. Qed.

Lemma remove_dups_shorter (l : list adapter) : (length (remove_dups l) <= length l)%nat.
Proof. induction l as [|x l IH]; simpl; [lia|]. case_decide; simpl; lia. Qed.

(** A fresh order fits in the bound the walk is given. *)
Lemma order_fits q exc : exists u,
  let o := order_record_failure (new_order (others q) (offload_route q)) exc (Some (primary q)) in
  within u o /\ (measure u o < walk_bound q)%nat.
Proof.
  set (u := remove_dups (primary q :: option_list (offload_route q) ++ others q)). exists u.
  set (o0 := new_order (others q) (offload_route q)).
  assert (within u o0) as Hw.
  { split; [apply NoDup_remove_dups|]. intros a Ha. apply elem_of_remove_dups. simpl in Ha.
    rewrite list_elem_of_filter in Ha. destruct (offload_route q); simpl in *; set_solver. }
  destruct (measure_after u o0 (primary q) (Failed exc) Hw) as [Hm Hw'].
  { apply elem_of_remove_dups. set_solver. }
  split; [exact Hw'|]. change (measure u (order_after o0 (primary q) (Failed exc)) < walk_bound q)%nat.
  rewrite Hm. unfold measure, o0, new_order, walk_bound; simpl.
  pose proof (length_filter (fun a => Some a <> offload_route q) (others q)) as L1.
  pose proof (length_filter (fun a => a ∉ ([] : list adapter)) u) as L2.
  pose proof (remove_dups_shorter (primary q :: option_list (offload_route q) ++ others q)) as L3.
  fold u in L3. simpl in L3. rewrite length_app in L3. destruct (offload_route q); simpl in *; lia.
Qed.

Section spec.
Context `{ErrorText, ErrorTexts}.
Context (endpoint_of : adapter -> string) (context_window : adapter -> option Z).

Definition refusals (attempts : list route_attempt) : nat :=
  length (filter _counts_as_request_refusal (error <$> attempts)).

(** No attempt goes to a window no wider than one that refused the prompt. *)
Definition windows_widen (attempts : list route_attempt) : Prop :=
  forall i j ai aj wi wj, (i < j)%nat -> attempts !! i = Some ai -> attempts !! j = Some aj ->
  exceeds_context_window (error ai) = true ->
  context_window (attempt_route ai) = Some wi -> context_window (attempt_route aj) = Some wj ->
  wi < wj.

(** [refused] covers every window that refused the prompt. *)
Definition refused_covers (attempts : list route_attempt) (refused : option Z) : Prop :=
  forall a w, a ∈ attempts -> exceeds_context_window (error a) = true ->
  context_window (attempt_route a) = Some w -> exists r, refused = Some r /\ w <= r.

Lemma covers_snoc attempts refused exc off a :
  refused_covers attempts refused ->
  refused_covers (attempts ++ [RouteAttempt exc off a])
    (_widest_refused_window context_window refused a exc).
Proof.
  intros Hc x w Hx He Hw. unfold _widest_refused_window.
  apply elem_of_app in Hx as [Hx| ->%list_elem_of_singleton].
  - destruct (Hc x w Hx He Hw) as (r & -> & Hle).
    destruct (negb _); [eauto|]. destruct (context_window a); [|eauto].
    eexists; split; [reflexivity|]. lia.
  - simpl in He, Hw. rewrite He, Hw. simpl. eexists; split; [reflexivity|].
    destruct refused; lia.
Qed.

Lemma widen_snoc attempts refused exc off a :
  windows_widen attempts -> refused_covers attempts refused ->
  _window_cannot_fit context_window a refused = false ->
  windows_widen (attempts ++ [RouteAttempt exc off a]).
Proof.
  intros Hw Hc Hf i j ai aj wi wj Hij Hi Hj He Hwi Hwj.
  apply lookup_app_Some in Hj as [Hj|[Hl Hj]].
  - rewrite lookup_app_l in Hi by (apply lookup_lt_Some in Hj; lia). by eapply Hw.
  - apply list_lookup_singleton_Some in Hj as [Hz <-]. simpl in Hwj.
    rewrite lookup_app_l in Hi by lia.
    destruct (Hc ai wi (list_elem_of_lookup_2 _ _ _ Hi) He Hwi) as (r & -> & Hle).
    unfold _window_cannot_fit in Hf. rewrite Hwj in Hf. apply bool_decide_eq_false in Hf. lia.
Qed.

Lemma refusals_snoc attempts x :
  refusals (attempts ++ [x]) =
  (refusals attempts + if _counts_as_request_refusal (error x) then 1 else 0)%nat.
Proof.
  unfold refusals. rewrite fmap_app, filter_app, length_app. f_equal. csimpl.
  rewrite filter_cons, filter_nil. destruct (_counts_as_request_refusal (error x)); by case_decide.
Qed.

Lemma refusals_limit attempts :
  request_refusals_end_fallback (error <$> attempts) = false -> (refusals attempts <= 1)%nat.
Proof.
  unfold request_refusals_end_fallback, refusals, _REQUEST_REFUSAL_LIMIT. intros Hr.
  apply bool_decide_eq_false in Hr. lia.
Qed.

(** What the fallback loop guarantees, from any point of the walk. *)
Definition walk_ok (held held' : list dispatch_claim) (evs : list router_event)
    (attempts : list route_attempt) (ans : answer) : Prop :=
  fold_left claims_held evs held = held' /\ ans <> Unfinished /\
  (refusals attempts <= 2)%nat /\ windows_widen attempts /\
  (forall a, ans = Reported a -> surfaced attempts = Some a).

Lemma finish_ok l attempts :
  attempts <> [] -> (refusals attempts <= 2)%nat -> windows_widen attempts ->
  walk_ok l l [] attempts
    match surfaced attempts with Some a => Reported a | None => Unfinished end.
Proof.
  intros Hne Hr Hw. destruct (surfaced_spec attempts Hne) as (k & a & E & _). rewrite E.
  split_and!; [done..|]. by intros ? [= <-].
Qed.

Lemma walk_ok_prepend l0 l1 l2 evs1 evs2 attempts ans :
  fold_left claims_held evs1 l0 = l1 -> walk_ok l1 l2 evs2 attempts ans ->
  walk_ok l0 l2 (evs1 ++ evs2) attempts ans.
Proof. intros H1' (H2' & ?). split; [|done]. by rewrite fold_left_app, H1'. Qed.

Lemma fallback_loop_ok m prim pol reason fuel j r o attempts refused pc w u :
  within u o -> (measure u o < fuel)%nat ->
  attempts <> [] -> (refusals attempts <= 1)%nat -> windows_widen attempts ->
  refused_covers attempts refused ->
  let '(_, evs, pc', attempts', ans) :=
    fallback_loop endpoint_of context_window m prim pol reason fuel j r o attempts refused pc w in
  walk_ok (option_list pc) (option_list pc') evs attempts' ans.
Proof.
  revert j r o attempts refused pc; induction fuel as [|fuel IH];
    intros j r o attempts refused pc Hu Hm Hne Hrf Hww Hrc; [lia|]. cbn [fallback_loop].
  destruct (order_next o) as [[[a off] o1]|] eqn:En; [|apply finish_ok; auto; lia].
  destruct (measure_next u o a off o1 Hu En) as (Hms & Hu1 & Ha).
  destruct (_window_cannot_fit context_window a refused) eqn:Hfit.
  { apply IH; auto. lia. }
  set (pre := if decide (a = prim) then (registry_end_dispatch r pc, [Ended pc], None)
              else (r, [], pc)).
  assert (fold_left claims_held pre.1.2 (option_list pc) = option_list pre.2) as Hpre.
  { unfold pre. case_decide; [apply ended_own|done]. }
  destruct pre as [[r1 evs1] pc1]. cbn [fst snd] in Hpre.
  destruct (registry_begin_dispatch r1 (at_begin (w j)) (endpoint_of a)) as [r2 [c|]]; cycle 1.
  { specialize (IH (S j) r2 o1 attempts refused pc1 Hu1 ltac:(lia) Hne Hrf Hww Hrc).
    destruct (fallback_loop _ _ _ _ _ _ _ _ _ _ _ _ _ _) as [[[[r3 evs] pc3] at3] ans].
    by eapply walk_ok_prepend. }
  destruct (match off with Some _ => _ | None => _ end) as [r3 dl].
  set (r4 := attempt_on m r3 (endpoint_of a) (w j)).
  assert (forall evs2 pc2 at2 ans, walk_ok (option_list pc1) pc2 evs2 at2 ans ->
    walk_ok (option_list pc) pc2
      (((evs1 ++ [Claimed (Some c); Dispatched j a dl]) ++ [Ended (Some c)]) ++ evs2) at2 ans) as Hev.
  { intros evs2 pc2 at2 ans Hok. eapply walk_ok_prepend; [|exact Hok].
    rewrite <- app_assoc, fold_left_app, Hpre. apply claim_cycle. }
  assert (forall at2 ans, ans <> Unfinished -> (refusals at2 <= 2)%nat -> windows_widen at2 ->
    (forall x, ans <> Reported x) ->
    walk_ok (option_list pc) (option_list pc1)
      ((evs1 ++ [Claimed (Some c); Dispatched j a dl]) ++ [Ended (Some c)]) at2 ans) as Hstop.
  { intros at2 ans Hun Hr2 Hw2 Hrep.
    rewrite <- (app_nil_r ((evs1 ++ _) ++ _)). apply Hev.
    split_and!; auto. intros x Hx. by destruct (Hrep x). }
  destruct (ended (w j)) as [|exc yielded|].
  - apply Hstop; auto; try lia; done.
  - destruct (record_failure _ _ _ _ _ _) as [[r5 fx] [err|]]; [apply Hstop; auto; try lia; done|].
    set (at2 := attempts ++ [RouteAttempt exc off a]).
    assert (refusals at2 <= 2)%nat as Hr2
      by (unfold at2; rewrite refusals_snoc; case_match; lia).
    assert (windows_widen at2) as Hw2 by (by eapply widen_snoc).
    assert (at2 <> []) as Hne2 by (unfold at2; by destruct attempts).
    destruct (committed m yielded); [apply Hstop; auto; done|].
    destruct (request_refusals_end_fallback (error <$> at2)) eqn:Hend.
    + rewrite <- (app_nil_r ((evs1 ++ _) ++ _)). apply Hev. by apply finish_ok.
    + destruct (measure_after u o1 a (Failed exc) Hu1 Ha) as [Hm2 Hu2].
      specialize (IH (S j) (registry_end_dispatch r5 (Some c))
        (order_record_failure o1 exc (Some a)) at2
        (_widest_refused_window context_window refused a exc) pc1 Hu2).
      change (measure u (order_record_failure o1 exc (Some a))) with
        (measure u (order_after o1 a (Failed exc))) in IH.
      specialize (IH ltac:(lia) Hne2 (refusals_limit _ Hend) Hw2 (covers_snoc _ _ _ _ _ Hrc)).
      destruct (fallback_loop _ _ _ _ _ _ _ _ _ _ _ _ _ _) as [[[[r6 evs] pc3] at3] ans].
      by apply Hev.
  - apply Hstop; auto; try lia; done.
Qed.

(** ** When a request moves on *)

Definition dispatched_of (e : router_event) : option nat :=
  match e with Dispatched j _ _ => Some j | _ => None end.

(** An attempt that leaves the request free to try another route: it raised,
    and none of its output reached the client. *)
Definition leaves_free (m : mode) (e : attempt_env) : Prop :=
  match ended e with Raised _ yielded => committed m yielded = false | _ => False end.

(** Every attempt but the last left the request free. *)
Definition moves_on_ok (m : mode) (w : nat -> attempt_env) (evs : list router_event) : Prop :=
  forall i k, omap dispatched_of evs !! i = Some k ->
  (S i < length (omap dispatched_of evs))%nat -> leaves_free m (w k).

Lemma moves_on_prepend m w evs1 j evs2 :
  omap dispatched_of evs1 = [j] -> leaves_free m (w j) -> moves_on_ok m w evs2 ->
  moves_on_ok m w (evs1 ++ evs2).
Proof.
  intros E Hf H2 i k. rewrite omap_app, E. simpl. destruct i as [|i]; simpl.
  - by intros [= <-] _.
  - intros Hi Hl. apply (H2 i k Hi). lia.
Qed.

Lemma moves_on_last m w evs j : omap dispatched_of evs = [j] -> moves_on_ok m w evs.
Proof. intros E i k Hi Hl. rewrite E in Hl. simpl in Hl. lia. Qed.

Lemma moves_on_skip m w evs1 evs2 :
  omap dispatched_of evs1 = [] -> moves_on_ok m w evs2 -> moves_on_ok m w (evs1 ++ evs2).
Proof. intros E H2'. unfold moves_on_ok. by rewrite omap_app, E. Qed.

Lemma fallback_loop_moves_on m prim pol reason fuel j r o attempts refused pc w :
  moves_on_ok m w
    (fallback_loop endpoint_of context_window m prim pol reason fuel j r o attempts refused pc w)
      .1.1.1.2.
Proof.
  revert j r o attempts refused pc; induction fuel as [|fuel IH];
    intros j r o attempts refused pc; [by intros i k Hi|]. cbn [fallback_loop].
  destruct (order_next o) as [[[a off] o1]|]; [|by intros i k Hi].
  destruct (_window_cannot_fit context_window a refused); [apply IH|].
  set (pre := if decide (a = prim) then _ else _).
  assert (omap dispatched_of pre.1.2 = []) as Hpre by (unfold pre; by case_decide).
  destruct pre as [[r1 evs1] pc1]. cbn [fst snd] in Hpre.
  destruct (registry_begin_dispatch r1 (at_begin (w j)) (endpoint_of a)) as [r2 [c|]]; cycle 1.
  { specialize (IH (S j) r2 o1 attempts refused pc1).
    destruct (fallback_loop _ _ _ _ _ _ _ _ _ _ _ _ _ _) as [[[[r3 evs] pc3] at3] ans].
    by apply moves_on_skip. }
  destruct (match off with Some _ => _ | None => _ end) as [r3 dl].
  assert (omap dispatched_of
    ((evs1 ++ [Claimed (Some c); Dispatched j a dl]) ++ [Ended (Some c)]) = [j]) as Hone
    by (rewrite !omap_app, Hpre; done).
  destruct (ended (w j)) as [|exc yielded|] eqn:Hend; [by eapply moves_on_last| |by eapply moves_on_last].
  destruct (record_failure _ _ _ _ _ _) as [[r5 fx] [err|]]; [by eapply moves_on_last|].
  destruct (committed m yielded) eqn:Hc; [by eapply moves_on_last|].
  destruct (request_refusals_end_fallback _); [by eapply moves_on_last|].
  match goal with |- context [fallback_loop _ _ _ _ _ _ _ _ ?r' ?o' ?at' ?rf' ?pc' _] =>
    specialize (IH (S j) r' o' at' rf' pc') end.
  destruct (fallback_loop _ _ _ _ _ _ _ _ _ _ _ _ _ _) as [[[[r6 evs] pc3] at3] ans].
  eapply moves_on_prepend; [exact Hone| |exact IH]. unfold leaves_free. by rewrite Hend.
Qed.

Lemma single_attempt_ok exc off a :
  (refusals [RouteAttempt exc off a] <= 1)%nat /\ windows_widen [RouteAttempt exc off a].
Proof.
  split.
  - pose proof (refusals_snoc [] (RouteAttempt exc off a)) as E. simpl in E. rewrite E.
    unfold refusals; simpl. case_match; lia.
  - intros i j ai aj wi wj Hij Hi Hj. apply list_lookup_singleton_Some in Hi as [? _], Hj as [? _]. lia.
Qed.

End spec.

Section theorems.
Context `{ErrorText, ErrorTexts}.
Context (endpoint_of : adapter -> string) (context_window : adapter -> option Z).

(** Returning the primary's claim ends every run. *)
Lemma close_ok evs evs' c pc attempts ans :
  fold_left claims_held evs [] = option_list c ->
  walk_ok context_window (option_list c) (option_list pc) evs' attempts ans ->
  walk_ok context_window [] [] ((evs ++ evs') ++ [Ended pc]) attempts ans.
Proof.
  intros E (E' & Hrest). split; [|done]. by rewrite !fold_left_app, E, E', ended_own.
Qed.

Lemma dispatch_ok m q r w :
  let '(_, evs, attempts, ans) := dispatch endpoint_of context_window m q r w in
  walk_ok context_window [] [] evs attempts ans /\ moves_on_ok m w evs /\
  (pinned q || negb (allow_fallback q) = true -> omap dispatched_of evs = [0%nat]).
Proof.
  unfold dispatch. set (evs := [Claimed (claim q); _]).
  assert (fold_left claims_held evs [] = option_list (claim q)) as Hopen
    by (unfold evs; by destruct (claim q)).
  assert (omap dispatched_of (evs ++ [Ended (claim q)]) = [0%nat]) as Hone by done.
  assert (forall at2 ans, (at2 = [] \/ exists x, at2 = [x]) -> ans <> Unfinished ->
    (forall x, ans <> Reported x) ->
    walk_ok context_window [] [] (evs ++ [Ended (claim q)]) at2 ans /\
    moves_on_ok m w (evs ++ [Ended (claim q)]) /\
    (pinned q || negb (allow_fallback q) = true ->
       omap dispatched_of (evs ++ [Ended (claim q)]) = [0%nat])) as Hstop.
  { intros at2 ans Hat Hun Hrep. split_and!; [|by eapply moves_on_last|done].
    rewrite <- (app_nil_r evs). apply (close_ok _ _ (claim q)); [done|].
    destruct Hat as [->|[[exc off a] ->]].
    - split_and!; auto; [by intros i j ? ? ? ? _ Hi|]. intros x Hx. by destruct (Hrep x).
    - destruct (single_attempt_ok context_window exc off a). split_and!; auto.
      intros x Hx. by destruct (Hrep x). }
  destruct (ended (w 0%nat)) as [|exc yielded|] eqn:Hend; [by apply Hstop; auto| |by apply Hstop; auto].
  destruct (record_failure _ _ _ _ _ _) as [[r5 fx] [err|]]; [by apply Hstop; auto|].
  set (at1 := [RouteAttempt exc (primary_reason q) (primary q)]).
  destruct (pinned q || negb (allow_fallback q) || committed m yielded) eqn:Hc.
  { apply Hstop; eauto; done. }
  apply orb_false_iff in Hc as [Hpin Hcom].
  destruct (order_fits q exc) as (u & Hu & Hm).
  destruct (single_attempt_ok context_window exc (primary_reason q) (primary q)) as [Hr1 Hw1].
  pose proof (covers_snoc context_window [] None exc (primary_reason q) (primary q)) as Hcov.
  pose proof (fallback_loop_ok endpoint_of context_window m (primary q) (policy q)
    (failure_reason q) (walk_bound q) 1 r5 _ at1
    (_widest_refused_window context_window None (primary q) exc) (claim q) w u Hu Hm
    ltac:(done) Hr1 Hw1 (Hcov ltac:(intros ? ? ?%elem_of_nil; done))) as Hok.
  pose proof (fallback_loop_moves_on endpoint_of context_window m (primary q) (policy q)
    (failure_reason q) (walk_bound q) 1 r5
    (order_record_failure (new_order (others q) (offload_route q)) exc (Some (primary q))) at1
    (_widest_refused_window context_window None (primary q) exc) (claim q) w) as Hmv.
  destruct (fallback_loop _ _ _ _ _ _ _ _ _ _ _ _ _ _) as [[[[r6 evs'] pc3] at3] ans].
  split_and!; [by eapply close_ok| |by rewrite Hpin].
  rewrite <- app_assoc. apply (moves_on_prepend m w evs 0); [done|unfold leaves_free; by rewrite Hend|].
  intros i k. rewrite omap_app. simpl. rewrite app_nil_r. apply Hmv.
Qed.

(** C3: a request always answers, and strands no claim.  Whatever its attempts
    do, and whatever other requests do to the registry meanwhile, the walk over
    its route comes to an end with a response, an error or the cancellation, and
    every dispatch claim it took -- the primary's, and each fallback's, half-open
    probes included -- has been handed back by then. *)
Theorem router_answers m q r w :
  let '(_, evs, _, ans) := dispatch endpoint_of context_window m q r w in
  ans <> Unfinished /\ fold_left claims_held evs [] = [].
Proof.
  pose proof (dispatch_ok m q r w) as Hok. destruct (dispatch _ _ _ _ _ _) as [[[r' evs] ats] ans].
  by destruct Hok as ((? & ? & _) & _).
Qed.

(** a response comes from one provider.  A request is sent to another route
    only after an attempt that raised before any of its output reached the
    client: never after a response, a cancellation, or a stream that had begun;
    and a pinned request, or one whose caller owns the candidate order, is sent
    exactly once. *)
Theorem router_moves_on m q r w :
  let '(_, evs, _, _) := dispatch endpoint_of context_window m q r w in
  moves_on_ok m w evs /\
  (pinned q || negb (allow_fallback q) = true -> omap dispatched_of evs = [0%nat]).
Proof.
  pose proof (dispatch_ok m q r w) as Hok. destruct (dispatch _ _ _ _ _ _) as [[[r' evs] ats] ans].
  by destruct Hok as (_ & ? & ?).
Qed.

(** a malformed request is not sprayed over every route.  At most two routes
    refuse a request as malformed before the walk stops, and a prompt refused as
    too long is never sent to a route whose window is no wider than one that
    refused it, retries and the offload route included. *)
Theorem router_refusals_bounded m q r w :
  let '(_, _, attempts, _) := dispatch endpoint_of context_window m q r w in
  (refusals attempts <= 2)%nat /\ windows_widen context_window attempts.
Proof.
  pose proof (dispatch_ok m q r w) as Hok. destruct (dispatch _ _ _ _ _ _) as [[[r' evs] ats] ans].
  by destruct Hok as ((_ & _ & ? & ? & _) & _).
Qed.

End theorems.

(** the error reported is the one that speaks of the request.  When every
    route failed, the caller is told of an attempt on record.  It is the
    primary's, or its retry's if the primary was cut short for the offload
    route, unless that says nothing of the request and a later attempt does;
    then it is the first that does.  An attempt is passed over in the report
    only if it was cut short and a retry of its route is reported instead. *)
Theorem surfaced_error_correct attempts :
  attempts <> [] ->
  exists k a, let rep := _reported_attempts attempts in
    surfaced attempts = Some a /\ a ∈ attempts /\ rep !! k = Some a /\
    (forall b, b ∈ rep -> _describes_request (error b) = true ->
       _describes_request (error a) = true) /\
    (k <> 0%nat -> _describes_request (error a) = true) /\
    (forall i b, (i < k)%nat -> rep !! i = Some b -> _describes_request (error b) = false) /\
    (forall b, b ∈ attempts -> b ∉ rep ->
       abandoned_for_offload (error b) = true /\
       exists c, c ∈ rep /\ attempt_route c = attempt_route b).
Proof.
  intros Hne. destruct (surfaced_spec attempts Hne) as (k & a & Hs & Hk & Hd & Hd0 & Hb).
  destruct (reported_loop_spec (length attempts) attempts ltac:(lia)) as (_ & Hin & Hout).
  exists k, a. split_and!; auto. apply Hin. by eapply list_elem_of_lookup_2.
Qed.

(** ** Witnesses *)

Definition status_error (s : Z) : exn :=
  Exn ClientResponseError {| attr_status := Some s; attr_status_code := None; attr_code := None;
                             attr_response := None |}.

(** A primary that never answered, and a fallback that calls the request
    malformed. *)
Lemma surfaced_error_correct_witness :
  exists a, surfaced [RouteAttempt (Exn OtherException no_attrs) None 0;
                      RouteAttempt (status_error 400) None 1] = Some a /\
    _describes_request (error a) = true.
Proof.
  destruct (surfaced_error_correct [RouteAttempt (Exn OtherException no_attrs) None 0;
    RouteAttempt (status_error 400) None 1]) as (k & a & Hs & _ & _ & Hd & _); [discriminate|].
  exists a. split; [exact Hs|]. apply (Hd (RouteAttempt (status_error 400) None 1)).
  - vm_compute. apply elem_of_cons; right. apply elem_of_cons; by left.
  - vm_compute; reflexivity.
Defined.
