(* ===== verification/Quota.v ===== *)
(** Cost quotas: [serving/quota.py].

    Dollar amounts are exact rationals.  Instants are microseconds since the
    epoch, in UTC. *)

From S2P Require Import Prelude PyText UsageLimit.

Local Open Scope Q_scope.

Definition DEFAULT_DAILY_QUOTA_USD : Q := 1000.
Definition ESTIMATED_REQUEST_COST_USD : Q := 1 # 100.

(** [next_utc_midnight], where the calendar holds it. *)
Definition next_utc_midnight (now : datetime_us) : datetime_us := ((now + DAY) / DAY * DAY)%Z.

(** [seconds_until_utc_midnight]; [int] truncates a positive number down. *)
Definition seconds_until_utc_midnight (now : datetime_us) : Z :=
  Z.max 1 ((next_utc_midnight now - now) / SECOND).

(** [resolve_quota] *)
Definition resolve_quota (raw : option Q) : Q := default DEFAULT_DAILY_QUOTA_USD raw.

Inductive scope : Type := ScopeKey | ScopeAccount.
Inductive window : Type := WindowDay | WindowMonth.

(** [BudgetRefusal], less the names it carries for messages. *)
Record budget_refusal : Type := BudgetRefusal {
  ref_scope : scope;
  ref_window : window;
  limit_usd : Q;
  spent_usd : Q
}.

(** [_over] *)
Definition _over (limit : option Q) (spent : Q) : bool :=
  match limit with
  | None => false
  | Some l => bool_decide (l < spent + ESTIMATED_REQUEST_COST_USD)
  end.

(** What a request is checked against. *)
Record limits : Type := Limits {
  account_quota : Q;
  account_quota_monthly : option Q;
  key_budget_daily : option Q;
  key_budget_monthly : option Q
}.

(** What has been spent: the account's day and month, the key's day and month. *)
Record spent : Type := Spent {
  account_day : Q;
  account_month : Q;
  key_day : Q;
  key_month : Q
}.

(** [first_refusal] *)
Definition first_refusal (l : limits) (s : spent) : option budget_refusal :=
  if _over (key_budget_daily l) (key_day s)
  then Some (BudgetRefusal ScopeKey WindowDay (default 0 (key_budget_daily l)) (key_day s))
  else if _over (key_budget_monthly l) (key_month s)
  then Some (BudgetRefusal ScopeKey WindowMonth (default 0 (key_budget_monthly l)) (key_month s))
  else if _over (Some (account_quota l)) (account_day s)
  then Some (BudgetRefusal ScopeAccount WindowDay (account_quota l) (account_day s))
  else if _over (account_quota_monthly l) (account_month s)
  then Some (BudgetRefusal ScopeAccount WindowMonth
               (default 0 (account_quota_monthly l)) (account_month s))
  else None.

(** ** Facts *)

(** Whether an estimate still fits under a limit. *)
Definition fits (limit : option Q) (spent : Q) : Prop :=
  match limit with
  | None => True
  | Some l => spent + ESTIMATED_REQUEST_COST_USD <= l
  end.

Lemma over_fits limit s : _over limit s = false <-> fits limit s.
Proof.
  destruct limit as [l|]; simpl; [|done]. rewrite bool_decide_eq_false.
  split; intros Hl; lra.
Qed.

(** No refusal means the request fits under every limit there is. *)
Lemma first_refusal_none l s :
  first_refusal l s = None <->
  fits (key_budget_daily l) (key_day s) /\ fits (key_budget_monthly l) (key_month s) /\
  fits (Some (account_quota l)) (account_day s) /\ fits (account_quota_monthly l) (account_month s).
Proof.
  unfold first_refusal. rewrite <- !over_fits.
  destruct (_over (key_budget_daily l) (key_day s)); [naive_solver|].
  destruct (_over (key_budget_monthly l) (key_month s)); [naive_solver|].
  destruct (_over (Some (account_quota l)) (account_day s)); [naive_solver|].
  destruct (_over (account_quota_monthly l) (account_month s)); naive_solver.
Qed.

(** The four limits of a request from the narrowest to the widest. *)
Definition limit_of (l : limits) (sc : scope) (w : window) : option Q :=
  match sc, w with
  | ScopeKey, WindowDay => key_budget_daily l
  | ScopeKey, WindowMonth => key_budget_monthly l
  | ScopeAccount, WindowDay => Some (account_quota l)
  | ScopeAccount, WindowMonth => account_quota_monthly l
  end.

Definition spent_of (s : spent) (sc : scope) (w : window) : Q :=
  match sc, w with
  | ScopeKey, WindowDay => key_day s
  | ScopeKey, WindowMonth => key_month s
  | ScopeAccount, WindowDay => account_day s
  | ScopeAccount, WindowMonth => account_month s
  end.

Definition breadth (sc : scope) (w : window) : nat :=
  match sc, w with
  | ScopeKey, WindowDay => 0
  | ScopeKey, WindowMonth => 1
  | ScopeAccount, WindowDay => 2
  | ScopeAccount, WindowMonth => 3
  end.

(** a refusal names the narrowest limit that ran out.  A request is refused
    exactly when its estimate does not fit under one of its four limits; the
    refusal carries that limit and what is spent against it, and the request
    fits under every narrower one.  A limit that is not set refuses nothing. *)
Theorem refusal_is_narrowest l s :
  match first_refusal l s with
  | Some r =>
      limit_of l (ref_scope r) (ref_window r) = Some (limit_usd r) /\
      spent_usd r = spent_of s (ref_scope r) (ref_window r) /\
      limit_usd r < spent_usd r + ESTIMATED_REQUEST_COST_USD /\
      (forall sc w, (breadth sc w < breadth (ref_scope r) (ref_window r))%nat ->
         fits (limit_of l sc w) (spent_of s sc w))
  | None => forall sc w, fits (limit_of l sc w) (spent_of s sc w)
  end.
Proof.
  assert (forall lim v, _over lim v = true ->
    lim = Some (default 0 lim) /\ default 0 lim < v + ESTIMATED_REQUEST_COST_USD) as Hov.
  { intros [q|] v; [|done]. simpl. by intros ?%bool_decide_eq_true. }
  unfold first_refusal.
  destruct (_over (key_budget_daily l) (key_day s)) eqn:E1.
  { destruct (Hov _ _ E1). simpl. split_and!; auto. intros [] []; simpl; lia. }
  apply over_fits in E1.
  destruct (_over (key_budget_monthly l) (key_month s)) eqn:E2.
  { destruct (Hov _ _ E2). simpl. split_and!; auto. intros [] []; simpl; try lia; done. }
  apply over_fits in E2.
  destruct (_over (Some (account_quota l)) (account_day s)) eqn:E3.
  { destruct (Hov _ _ E3). simpl in *. split_and!; auto. intros [] []; simpl; try lia; done. }
  apply over_fits in E3.
  destruct (_over (account_quota_monthly l) (account_month s)) eqn:E4.
  { destruct (Hov _ _ E4). simpl. split_and!; auto. intros [] []; simpl; try lia; done. }
  apply over_fits in E4. by intros [] [].
Qed.

(** The daily counter resets within a day, and the delay a client is told is a
    positive whole number of seconds no longer than that. *)
Lemma midnight_bounds now :
  (now < next_utc_midnight now <= now + DAY)%Z /\ (next_utc_midnight now mod DAY = 0)%Z /\
  (1 <= seconds_until_utc_midnight now <= 86400)%Z.
Proof.
  unfold seconds_until_utc_midnight, next_utc_midnight.
  assert (DAY = 86400 * SECOND)%Z as HD by (vm_compute; reflexivity).
  assert (0 < SECOND)%Z as HS by (vm_compute; reflexivity).
  pose proof (Z.div_mod (now + DAY) DAY ltac:(lia)) as Hdm.
  pose proof (Z.mod_pos_bound (now + DAY) DAY ltac:(lia)) as Hb.
  set (t := ((now + DAY) / DAY * DAY)%Z) in *. split_and!; [lia|lia| |lia|].
  - unfold t. apply Z.mod_mul. lia.
  - apply Z.max_lub; [lia|]. apply Z.div_le_upper_bound; lia.
Qed.
