(* ===== verification/SpendLedger.v ===== *)
(** Spend the counters do not show yet: [serving/spend_ledger.py].

    The ledger of one operational store.  Every block between awaits is one
    operation; the writer task is a small state machine (scheduled, writing,
    finished).  The store is a parameter through the answers it gives a write.
    The two-level dict of unconfirmed costs (user, then key and day) is one map
    keyed by all three.  Costs are exact rationals. *)

From S2P Require Import Prelude Quota.

Local Open Scope Q_scope.

(** ** State *)

(** [_Key]: user id, API key id, UTC day. *)
Definition lkey : Type := string * option Z * string.
Definition user_of (k : lkey) : string := k.1.1.
Definition apikey_of (k : lkey) : option Z := k.1.2.
Definition day_of (k : lkey) : string := k.2.

(** [_Amount] *)
Record amount : Type := Amount { cost : Q; counted : Q; requests : Z }.
#[export] Instance eta_amount : Eta amount := fun a => Amount (cost a) (counted a) (requests a).

Definition no_amount : amount := Amount 0 0 0.
Definition amount_add (a b : amount) : amount :=
  Amount (cost a + cost b) (counted a + counted b) (requests a + requests b).

(** [_Unconfirmed] *)
Record unconfirmed : Type := Unconfirmed { u_cost : Q; u_requests : Z }.

(** [counted_amount]: to six places, half away from zero. *)
Definition counted_amount (c : Q) : Q :=
  let micro q := ((2 * Qnum q * 1000000 + Zpos (Qden q)) / (2 * Zpos (Qden q)))%Z in
  if bool_decide (c < 0) then ((- micro (- c)%Q)%Z # 1000000) else (micro c # 1000000).

Inductive writer_state : Type := Idle | Scheduled | Writing | Finished.
#[export] Instance writer_state_eq_dec : EqDecision writer_state.
Proof. solve_decision. Defined.

(** One confirmed write: when, and per user its keys, days and costs. *)
Definition landing : Type := Q * gmap string (list (option Z * string * Q)).

(** [SpendLedger] *)
Record ledger : Type := Ledger {
  reserved_users : gmap string (Q * Z);
  reserved_keys : gmap Z (Q * Z);
  pending : gmap lkey amount;
  writing : gmap lkey amount;
  unconfirmed_costs : gmap lkey unconfirmed;
  landed : list landing;
  unknown : list (lkey * amount);
  writer : writer_state;
  retry : bool;
  retry_delay : Q
}.
#[export] Instance eta_ledger : Eta ledger := fun l =>
  Ledger (reserved_users l) (reserved_keys l) (pending l) (writing l) (unconfirmed_costs l)
    (landed l) (unknown l) (writer l) (retry l) (retry_delay l).

Definition new_ledger : ledger := Ledger ∅ ∅ ∅ ∅ ∅ [] [] Idle false 0.

Definition LANDED_WINDOW_SECONDS : Q := 300.
Definition _RETRY_FIRST_SECONDS : Q := 1 # 2.
Definition _RETRY_MAX_SECONDS : Q := 30.

(** [Reservation] *)
Record reservation : Type := Reservation {
  res_user : string;
  res_key : option Z;
  res_amount : Q;
  res_open : bool
}.

(** ** Reservations *)

(** [_add_reserved] *)
Definition _add_reserved `{Countable K} (table : gmap K (Q * Z)) (who : K) (a : Q) :
    gmap K (Q * Z) :=
  match table !! who with
  | None => <[who := (a, 1%Z)]> table
  | Some (sum, n) => <[who := (sum + a, (n + 1)%Z)]> table
  end.

(** [_remove_reserved] *)
Definition _remove_reserved `{Countable K} (table : gmap K (Q * Z)) (who : K) (a : Q) :
    gmap K (Q * Z) :=
  match table !! who with
  | None => table
  | Some (sum, n) =>
      if bool_decide (n - 1 <= 0)%Z then delete who table
      else <[who := (sum - a, (n - 1)%Z)]> table
  end.

(** [_unreserve] *)
Definition _unreserve (l : ledger) (r : reservation) : ledger :=
  let l := l <| reserved_users := _remove_reserved (reserved_users l) (res_user r) (res_amount r) |> in
  match res_key r with
  | Some k => l <| reserved_keys := _remove_reserved (reserved_keys l) k (res_amount r) |>
  | None => l
  end.

(** [Reservation.release] *)
Definition reservation_release (l : ledger) (r : reservation) : ledger * reservation :=
  if res_open r
  then (_unreserve l r, Reservation (res_user r) (res_key r) (res_amount r) false)
  else (l, r).

(** ** The gate *)

(** [_forget_landed]: the queue's head is the oldest landing. *)
Fixpoint drop_old (cutoff : Q) (q : list landing) : list landing :=
  match q with
  | (t, b) :: rest => if bool_decide (t < cutoff) then drop_old cutoff rest else q
  | [] => []
  end.

Definition _forget_landed (l : ledger) (now : Q) : ledger :=
  l <| landed := drop_old (now - LANDED_WINDOW_SECONDS) (landed l) |>.

(** The landings [_extra] counts: it walks the queue from its newest entry and
    stops at the first one confirmed before the read, unless the read is stale. *)
Fixpoint recent (read_at : Q) (stale : bool) (newest_first : list landing) : list landing :=
  match newest_first with
  | (t, b) :: rest =>
      if bool_decide (t < read_at) && negb stale then [] else (t, b) :: recent read_at stale rest
  | [] => []
  end.

Definition in_month (today day : string) : bool := String.prefix (String.substring 0 7 today) day.

(** What [count] adds to the four totals for one cost. *)
Definition counts (today : string) (key_id ck : option Z) (day : string) (c : Q) : spent :=
  let key_hit := bool_decide (is_Some key_id) && bool_decide (ck = key_id) in
  let in_day := bool_decide (day = today) in
  if in_month today day then
    Spent (if in_day then c else 0) c
      (if key_hit && in_day then c else 0) (if key_hit then c else 0)
  else Spent 0 0 0 0.

Definition spent_add (a b : spent) : spent :=
  Spent (account_day a + account_day b) (account_month a + account_month b)
    (key_day a + key_day b) (key_month a + key_month b).
Definition spent_zero : spent := Spent 0 0 0 0.

(** The unconfirmed costs of a user, folded over. *)
Definition unconfirmed_spent (l : ledger) (today user : string) (key_id : option Z) : spent :=
  map_fold (fun k u acc =>
    if decide (user_of k = user)
    then spent_add (counts today key_id (apikey_of k) (day_of k) (u_cost u)) acc else acc)
    spent_zero (unconfirmed_costs l).

Definition entries_spent (today : string) (key_id : option Z) (es : list (option Z * string * Q)) :
    spent :=
  foldr (fun '(ck, day, c) acc => spent_add (counts today key_id ck day c) acc) spent_zero es.

Definition landed_spent (today user : string) (key_id : option Z) (q : list landing) : spent :=
  foldr (fun '(_, by_user) acc =>
    spent_add (entries_spent today key_id (default [] (by_user !! user))) acc) spent_zero q.

Definition reserved_of `{Countable K} (table : gmap K (Q * Z)) (who : K) : Q :=
  from_option fst 0 (table !! who).

(** [_extra], with the ledger it leaves (expired landings are dropped). *)
Definition _extra (l : ledger) (today user : string) (key_id : option Z) (read_at now : Q) :
    ledger * spent :=
  let l := _forget_landed l now in
  let stale := bool_decide (read_at < now - LANDED_WINDOW_SECONDS) in
  let base := spent_add (unconfirmed_spent l today user key_id)
                (landed_spent today user key_id (recent read_at stale (rev (landed l)))) in
  let ru := reserved_of (reserved_users l) user in
  let rk := match key_id with Some k => reserved_of (reserved_keys l) k | None => 0 end in
  (l, spent_add base (Spent ru ru rk rk)).

(** [SpendCheck] *)
Record spend_check : Type := SpendCheck {
  check_user : string;
  check_key : option Z;
  read_at : Q;
  check_limits : limits;
  check_spent : spent
}.

(** [SpendLedger.refusal] *)
Definition ledger_refusal (l : ledger) (today : string) (now : Q) (c : spend_check) :
    ledger * option budget_refusal :=
  let '(l, extra) := _extra l today (check_user c) (check_key c) (read_at c) now in
  (l, first_refusal (check_limits c) (spent_add (check_spent c) extra)).

(** [SpendLedger.admit] *)
Definition ledger_admit (l : ledger) (today : string) (now : Q) (c : spend_check) (a : Q) :
    ledger * result budget_refusal reservation :=
  let '(l, refusal) := ledger_refusal l today now c in
  match refusal with
  | Some r => (l, Raise r)
  | None =>
      let l := l <| reserved_users := _add_reserved (reserved_users l) (check_user c) a |> in
      let l := match check_key c with
               | Some k => l <| reserved_keys := _add_reserved (reserved_keys l) k a |>
               | None => l
               end in
      (l, Ok (Reservation (check_user c) (check_key c) a true))
  end.

(** ** Recording and writing *)

(** [_start_write]; [running_loop] is whether there is an event loop. *)
Definition _start_write (l : ledger) (running_loop : bool) : ledger :=
  if negb (bool_decide (writer l = Idle)) then l
  else if retry l || bool_decide (pending l = ∅) then l
  else if negb running_loop then l
  else l <| writer := Scheduled |>.

(** [self._pending.setdefault(key, _Amount()).add(...)] *)
Definition add_pending (l : ledger) (k : lkey) (a : amount) : ledger :=
  l <| pending := <[k := amount_add (default no_amount (pending l !! k)) a]> (pending l) |>.

(** [record] *)
Definition record (l : ledger) (user : string) (c : Q) (api_key : option Z) (today : string)
    (running_loop : bool) : ledger :=
  if bool_decide (user = ""%string) || negb (bool_decide (0 < c)) then l
  else
    let k : lkey := (user, api_key, today) in
    let l := add_pending l k (Amount c (counted_amount c) 1) in
    let u := default (Unconfirmed 0 0) (unconfirmed_costs l !! k) in
    let l := l <| unconfirmed_costs :=
                 <[k := Unconfirmed (u_cost u + c) (u_requests u + 1)]> (unconfirmed_costs l) |> in
    _start_write l running_loop.

(** [_unconfirm] *)
Definition _unconfirm (l : ledger) (k : lkey) (a : amount) : ledger :=
  match unconfirmed_costs l !! k with
  | None => l
  | Some u =>
      let u := Unconfirmed (u_cost u - cost a) (u_requests u - requests a) in
      if bool_decide (u_requests u <= 0)%Z
      then l <| unconfirmed_costs := delete k (unconfirmed_costs l) |>
      else l <| unconfirmed_costs := <[k := u]> (unconfirmed_costs l) |>
  end.

(** The head of [_write_pending], up to its await: the task takes the batch. *)
Definition write_begin (l : ledger) (store_alive : bool) : ledger :=
  let batch := pending l in
  let l := l <| pending := ∅ |> in
  if bool_decide (batch = ∅) then l <| writer := Finished |>
  else if negb store_alive then
    (foldl (fun acc '(k, a) => _unconfirm acc k a) l (map_to_list batch)) <| writer := Finished |>
  else l <| writing := batch |> <| writer := Writing |>.

(** What the store did with a batch, as [_write] sees it. *)
Inductive store_answer : Type :=
| AtomicApplied            (* [increment_user_costs] returned *)
| AtomicUnknown            (* [CostWriteOutcomeUnknown] *)
| AtomicFailed             (* any other exception: nothing was applied *)
| PerEntry (ok : lkey -> bool)   (* [increment_user_cost], entry by entry *)
| WriteCancelled.          (* cancelled mid-write *)

(** [_write]: the keys applied, failed and of unknown outcome. *)
Definition _write (batch : gmap lkey amount) (s : store_answer) :
    list lkey * list lkey * list lkey :=
  let ks := (map_to_list batch).*1 in
  match s with
  | AtomicApplied => (ks, [], [])
  | AtomicUnknown | WriteCancelled => ([], [], ks)
  | AtomicFailed => ([], ks, [])
  | PerEntry ok => (filter (fun k => ok k = true) ks, filter (fun k => ok k = false) ks, [])
  end.

Definition amount_in (batch : gmap lkey amount) (k : lkey) : amount :=
  default no_amount (batch !! k).

Definition add_entry (batch : gmap lkey amount) (m : gmap string (list (option Z * string * Q)))
    (k : lkey) : gmap string (list (option Z * string * Q)) :=
  <[user_of k := default [] (m !! user_of k) ++ [(apikey_of k, day_of k, cost (amount_in batch k))]]> m.

(** [_land] *)
Definition _land (l : ledger) (ks : list lkey) (batch : gmap lkey amount) (now : Q) : ledger :=
  let l := foldl (fun acc k => _unconfirm acc k (amount_in batch k)) l ks in
  let by_user := foldl (add_entry batch) ∅ ks in
  _forget_landed (l <| landed := landed l ++ [(now, by_user)] |>) now.

(** [_mark_unknown] *)
Definition _mark_unknown (l : ledger) (ks : list lkey) (batch : gmap lkey amount) : ledger :=
  l <| unknown := unknown l ++ ((fun k => (k, amount_in batch k)) <$> ks) |>.

(** [_schedule_retry] *)
Definition _schedule_retry (l : ledger) : ledger :=
  if retry l then l
  else l <| retry_delay :=
         py_min _RETRY_MAX_SECONDS (py_max _RETRY_FIRST_SECONDS (retry_delay l * 2)) |>
         <| retry := true |>.

(** The rest of [_write_pending], once the store answered at [now]: land what
    was applied, mark what is unknown, put what failed back and retry. *)
Definition land_applied (l : ledger) (ks : list lkey) (batch : gmap lkey amount) (now : Q) :
    ledger := if bool_decide (ks = []) then l else _land l ks batch now.

Definition mark_all_unknown (l : ledger) (ks : list lkey) (batch : gmap lkey amount) : ledger :=
  if bool_decide (ks = []) then l else _mark_unknown l ks batch.

Definition requeue_failed (l : ledger) (s : store_answer) (ks : list lkey)
    (batch : gmap lkey amount) : ledger :=
  match s with
  | WriteCancelled => l
  | _ =>
      if bool_decide (ks = []) then l <| retry_delay := 0 |>
      else _schedule_retry (foldl (fun acc k => add_pending acc k (amount_in batch k)) l ks)
  end.

Definition write_end (l : ledger) (s : store_answer) (now : Q) : ledger :=
  let batch := writing l in
  let '(applied, failed, unk) := _write batch s in
  let l := land_applied (l <| writing := ∅ |>) applied batch now in
  let l := mark_all_unknown l unk batch in
  let l := requeue_failed l s failed batch in
  l <| writer := Finished |>.

(** [_write_finished] *)
Definition _write_finished (l : ledger) : ledger := _start_write (l <| writer := Idle |>) true.

(** [_retry_now] *)
Definition _retry_now (l : ledger) : ledger := _start_write (l <| retry := false |>) true.

(** One pass of [flush]'s loop with [remaining] seconds to go: what it does to
    the ledger, and whether it returns, awaits the writer, sleeps, or goes on. *)
Inductive flush_pass : Type := FlushDone (ok : bool) | FlushWait | FlushSleep | FlushOn.

Definition flush_step (l : ledger) (remaining : Q) : ledger * flush_pass :=
  if negb (bool_decide (writer l = Idle)) then
    (l, if bool_decide (remaining <= 0) then FlushDone false else FlushWait)
  else if bool_decide (pending l = ∅) then (l, FlushDone true)
  else if bool_decide (remaining <= 0) then (l, FlushDone false)
  else if retry l then (l <| retry := false |>, FlushSleep)
  else (_start_write l true, FlushOn).

(** [unwritten] *)
Definition unwritten (l : ledger) : Q * Z :=
  let amounts := (map_to_list (pending l)).*2 ++ (map_to_list (writing l)).*2 ++ (unknown l).*2 in
  (foldr (fun a s => cost a + s) 0 amounts, foldr (fun a s => requests a + s)%Z 0%Z amounts).

(** ** Sums

    Everything a gate counts is a sum of costs over the entries of one user that
    a predicate on (API key, day) selects. *)

Definition selector : Type := option Z -> string -> bool.

Definition pick (b : bool) (c : Q) : Q := if b then c else 0.

Definition hits (u : string) (h : selector) (k : lkey) : bool :=
  bool_decide (user_of k = u) && h (apikey_of k) (day_of k).

(** Over what was recorded. *)
Definition rec_sum (u : string) (h : selector) (l : list (lkey * Q)) : Q :=
  foldr (fun '(k, c) s => pick (hits u h k) c + s) 0 l.

(** Over the unconfirmed costs. *)
Definition unc_sum (u : string) (h : selector) (m : gmap lkey unconfirmed) : Q :=
  map_fold (fun k v s => pick (hits u h k) (u_cost v) + s) 0 m.

(** Over confirmed writes. *)
Definition entry_sum (h : selector) (es : list (option Z * string * Q)) : Q :=
  foldr (fun '(ck, day, c) s => pick (h ck day) c + s) 0 es.
Definition land_sum (u : string) (h : selector) (q : list landing) : Q :=
  foldr (fun '(_, b) s => entry_sum h (default [] (b !! u)) + s) 0 q.

Lemma unc_sum_insert u h m k v :
  m !! k = None -> unc_sum u h (<[k := v]> m) == pick (hits u h k) (u_cost v) + unc_sum u h m.
Proof.
  intros Hk. unfold unc_sum.
  refine (map_fold_insert Qeq
    (fun k v s => pick (hits u h k) (u_cost v) + s) 0 k v m _ _ Hk).
  - intros j z x y E. rewrite E. reflexivity.
  - intros. lra.
Qed.

Lemma unc_sum_delete u h m k v :
  m !! k = Some v -> unc_sum u h (delete k m) == unc_sum u h m - pick (hits u h k) (u_cost v).
Proof.
  intros Hk. rewrite <- (insert_delete_id m k v Hk) at 2.
  rewrite (unc_sum_insert u h (delete k m) k v) by apply lookup_delete_eq. lra.
Qed.

Lemma unc_sum_update u h m k v :
  unc_sum u h (<[k := v]> m) ==
  unc_sum u h m - pick (hits u h k) (from_option u_cost 0 (m !! k)) + pick (hits u h k) (u_cost v).
Proof.
  destruct (m !! k) as [v0|] eqn:E; simpl.
  - rewrite <- insert_delete_eq, unc_sum_insert by apply lookup_delete_eq.
    rewrite (unc_sum_delete u h m k v0 E). lra.
  - rewrite unc_sum_insert by done. unfold pick. destruct (hits u h k); lra.
Qed.

Lemma entry_sum_app h a b : entry_sum h (a ++ b) == entry_sum h a + entry_sum h b.
Proof. induction a as [|[[ck d] c] a IH]; simpl; [lra|]. rewrite IH. lra. Qed.

Lemma land_sum_app u h a b : land_sum u h (a ++ b) == land_sum u h a + land_sum u h b.
Proof. induction a as [|[t m] a IH]; simpl; [lra|]. rewrite IH. lra. Qed.

Lemma land_sum_perm u h a b : a ≡ₚ b -> land_sum u h a == land_sum u h b.
Proof.
  induction 1 as [|[t m] l l' _ IH|[t m] [t' m'] l|l l' l'' _ IH1 _ IH2]; simpl; try lra.
Qed.

(** ** Confirming costs *)

(** What [_unconfirm] leaves of an entry. *)
Definition confirm (u : option unconfirmed) (a : amount) : option unconfirmed :=
  u ≫= fun u =>
    if bool_decide (u_requests u - requests a <= 0)%Z then None
    else Some (Unconfirmed (u_cost u - cost a) (u_requests u - requests a)).

Lemma unconfirm_lookup l k a k' :
  unconfirmed_costs (_unconfirm l k a) !! k' =
  if decide (k' = k) then confirm (unconfirmed_costs l !! k) a else unconfirmed_costs l !! k'.
Proof.
  unfold _unconfirm, confirm. destruct (unconfirmed_costs l !! k) as [u|] eqn:E; simpl.
  - case_bool_decide; simpl.
    + rewrite lookup_delete. repeat case_decide; naive_solver.
    + rewrite lookup_insert. repeat case_decide; naive_solver.
  - case_decide; subst; auto.
Qed.

(** An amount taken out of an entry that holds at least it. *)
Definition covers (u : option unconfirmed) (a : amount) : Prop :=
  exists v, u = Some v /\ ((u_requests v - requests a <= 0)%Z -> u_cost v == cost a).

Lemma unconfirm_sum u h l k a :
  covers (unconfirmed_costs l !! k) a ->
  unc_sum u h (unconfirmed_costs (_unconfirm l k a)) ==
  unc_sum u h (unconfirmed_costs l) - pick (hits u h k) (cost a).
Proof.
  intros (v & E & Hc). unfold _unconfirm. rewrite E. simpl. case_bool_decide as Hn; simpl.
  - rewrite (unc_sum_delete u h _ k v E). specialize (Hc Hn). unfold pick.
    destruct (hits u h k); lra.
  - rewrite unc_sum_update, E. simpl. unfold pick. destruct (hits u h k); lra.
Qed.

Definition unconfirm_all (l : ledger) (batch : gmap lkey amount) (ks : list lkey) : ledger :=
  foldl (fun acc k => _unconfirm acc k (amount_in batch k)) l ks.

Lemma unconfirm_all_lookup l batch ks k :
  NoDup ks ->
  unconfirmed_costs (unconfirm_all l batch ks) !! k =
  if decide (k ∈ ks) then confirm (unconfirmed_costs l !! k) (amount_in batch k)
  else unconfirmed_costs l !! k.
Proof.
  revert l; induction ks as [|k0 ks IH]; intros l Hnd.
  { rewrite decide_False by set_solver. done. }
  apply NoDup_cons in Hnd as [Hk0 Hnd].
  change (unconfirm_all l batch (k0 :: ks)) with
    (unconfirm_all (_unconfirm l k0 (amount_in batch k0)) batch ks).
  rewrite IH, unconfirm_lookup by done. destruct (decide (k = k0)) as [->|Hne].
  - rewrite decide_False by done. by rewrite decide_True by set_solver.
  - destruct (decide (k ∈ ks)) as [Hk|Hk].
    + by rewrite decide_True by set_solver.
    + by rewrite decide_False by set_solver.
Qed.

Definition batch_sum (u : string) (h : selector) (batch : gmap lkey amount) (ks : list lkey) : Q :=
  foldr (fun k s => pick (hits u h k) (cost (amount_in batch k)) + s) 0 ks.

Lemma unconfirm_all_sum u h l batch ks :
  NoDup ks -> (forall k, k ∈ ks -> covers (unconfirmed_costs l !! k) (amount_in batch k)) ->
  unc_sum u h (unconfirmed_costs (unconfirm_all l batch ks)) ==
  unc_sum u h (unconfirmed_costs l) - batch_sum u h batch ks.
Proof.
  unfold unconfirm_all. revert l; induction ks as [|k0 ks IH]; intros l Hnd Hc; simpl; [lra|].
  apply NoDup_cons in Hnd as [Hk0 Hnd]. rewrite IH; [|done|].
  - rewrite unconfirm_sum by (apply Hc; set_solver). lra.
  - intros k Hk. rewrite unconfirm_lookup, decide_False by set_solver. apply Hc. set_solver.
Qed.

(** Only the unconfirmed costs change. *)
Definition same_but_unconfirmed (l l' : ledger) : Prop :=
  reserved_users l' = reserved_users l /\ reserved_keys l' = reserved_keys l /\
  pending l' = pending l /\ writing l' = writing l /\ landed l' = landed l /\
  unknown l' = unknown l /\ writer l' = writer l /\ retry l' = retry l.

Lemma unconfirm_all_same l batch ks : same_but_unconfirmed l (unconfirm_all l batch ks).
Proof.
  unfold unconfirm_all. revert l; induction ks as [|k ks IH]; intros l; simpl; [done|].
  specialize (IH (_unconfirm l k (amount_in batch k))). unfold same_but_unconfirmed in *.
  unfold _unconfirm in *. destruct (unconfirmed_costs l !! k); [case_bool_decide|]; simpl in *; done.
Qed.

(** The landing of a batch holds, for each user, the costs of its keys. *)
Lemma land_entries u h batch ks m :
  entry_sum h (default [] (foldl (add_entry batch) m ks !! u)) ==
  entry_sum h (default [] (m !! u)) + batch_sum u h batch ks.
Proof.
  revert m; induction ks as [|k ks IH]; intros m; simpl; [lra|]. rewrite IH.
  unfold add_entry. rewrite lookup_insert. unfold hits. case_decide as E.
  - subst u. rewrite bool_decide_eq_true_2 by done. simpl. rewrite entry_sum_app. simpl. lra.
  - rewrite bool_decide_eq_false_2 by done. simpl. lra.
Qed.

(** ** The ledger with everything that ever happened to it *)

(** Besides the ledger: what was recorded, every confirmed write, the
    reservations handed out, and the latest reading of the clock. *)
Record world : Type := World {
  led : ledger;
  recorded : list (lkey * Q);
  history : list landing;
  reservations : list reservation;
  clock : Q
}.
#[export] Instance eta_world : Eta world := fun w =>
  World (led w) (recorded w) (history w) (reservations w) (clock w).

Definition new_world (t : Q) : world := World new_ledger [] [] [] t.

Inductive ledger_op : Type :=
| LRecord (user : string) (c : Q) (api_key : option Z) (today : string) (running_loop : bool)
| LRefusal (today : string) (now : Q) (c : spend_check)
| LAdmit (today : string) (now : Q) (c : spend_check) (a : Q)
| LRelease (i : nat)
| LWriteBegin
| LWriteEnd (s : store_answer) (now : Q)
| LWriteFinished
| LRetryNow
| LFlush (remaining : Q).

(** Whether an operation can happen: the writer's steps follow its task, and the
    clock does not run backwards. *)
Definition enabled (w : world) (o : ledger_op) : bool :=
  match o with
  | LRefusal _ now _ | LAdmit _ now _ _ => bool_decide (clock w <= now)
  | LWriteBegin => bool_decide (writer (led w) = Scheduled)
  | LWriteEnd _ now => bool_decide (writer (led w) = Writing) && bool_decide (clock w <= now)
  | LWriteFinished => bool_decide (writer (led w) = Finished)
  | LRetryNow => retry (led w)
  | _ => true
  end.

Definition world_step (w : world) (o : ledger_op) : world :=
  if negb (enabled w o) then w else
  match o with
  | LRecord user c api_key today loop =>
      w <| led := record (led w) user c api_key today loop |>
        <| recorded := if bool_decide (user = ""%string) || negb (bool_decide (0 < c))
                       then recorded w
                       else recorded w ++ [((user, api_key, today), c)] |>
  | LRefusal today now c =>
      w <| led := (ledger_refusal (led w) today now c).1 |> <| clock := now |>
  | LAdmit today now c a =>
      let '(l, r) := ledger_admit (led w) today now c a in
      let w := w <| led := l |> <| clock := now |> in
      match r with
      | Ok r => w <| reservations := reservations w ++ [r] |>
      | Raise _ => w
      end
  | LRelease i =>
      match reservations w !! i with
      | Some r =>
          let '(l, r') := reservation_release (led w) r in
          w <| led := l |> <| reservations := <[i := r']> (reservations w) |>
      | None => w
      end
  | LWriteBegin => w <| led := write_begin (led w) true |>
  | LWriteEnd s now =>
      let batch := writing (led w) in
      let applied := (_write batch s).1.1 in
      w <| led := write_end (led w) s now |> <| clock := now |>
        <| history := if bool_decide (applied = []) then history w
                      else history w ++ [(now, foldl (add_entry batch) ∅ applied)] |>
  | LWriteFinished => w <| led := _write_finished (led w) |>
  | LRetryNow => w <| led := _retry_now (led w) |>
  | LFlush remaining => w <| led := (flush_step (led w) remaining).1 |>
  end.

(** ** The books *)

Definition req_in (m : gmap lkey amount) (k : lkey) : Z := from_option requests 0%Z (m !! k).
Definition cost_in (m : gmap lkey amount) (k : lkey) : Q := from_option cost 0 (m !! k).

Definition req_of (l : list (lkey * amount)) (k : lkey) : Z :=
  foldr (fun '(x, a) s => (if decide (x = k) then requests a else 0) + s)%Z 0%Z l.
Definition cost_of (l : list (lkey * amount)) (k : lkey) : Q :=
  foldr (fun '(x, a) s => pick (bool_decide (x = k)) (cost a) + s) 0 l.

Definition u_req (m : gmap lkey unconfirmed) (k : lkey) : Z := from_option u_requests 0%Z (m !! k).
Definition u_amt (m : gmap lkey unconfirmed) (k : lkey) : Q := from_option u_cost 0 (m !! k).

Definition busy (a : amount) : Prop := (1 <= requests a)%Z.

(** An unconfirmed entry is what is pending, being written, or of unknown
    outcome for its user, key and day. *)
Record books (pend wr : gmap lkey amount) (unk : list (lkey * amount))
    (unc : gmap lkey unconfirmed) : Prop := {
  books_req k : u_req unc k = (req_in pend k + req_in wr k + req_of unk k)%Z;
  books_cost k : u_amt unc k == cost_in pend k + cost_in wr k + cost_of unk k;
  books_pend : map_Forall (fun _ => busy) pend;
  books_wr : map_Forall (fun _ => busy) wr;
  books_unk : Forall (fun x => busy x.2) unk
}.

Lemma req_in_nonneg m k : map_Forall (fun _ => busy) m -> (0 <= req_in m k)%Z.
Proof.
  intros Hm. unfold req_in. destruct (m !! k) as [a|] eqn:E; simpl; [|lia].
  specialize (Hm k a E). unfold busy in Hm. lia.
Qed.

Lemma req_in_zero m k : map_Forall (fun _ => busy) m -> (req_in m k <= 0)%Z -> m !! k = None.
Proof.
  intros Hm. unfold req_in. destruct (m !! k) as [a|] eqn:E; simpl; [|done].
  specialize (Hm k a E). unfold busy in Hm. lia.
Qed.

Lemma req_of_nonneg l k : Forall (fun x => busy x.2) l -> (0 <= req_of l k)%Z.
Proof.
  induction 1 as [|[x a] l Ha _ IH]; simpl; [lia|]. unfold busy in Ha; simpl in Ha.
  case_decide; lia.
Qed.

Lemma req_of_zero l k : Forall (fun x => busy x.2) l -> (req_of l k <= 0)%Z -> cost_of l k == 0.
Proof.
  induction 1 as [|[x a] l Ha Hl IH]; simpl; [lra|]. unfold busy in Ha; simpl in Ha.
  pose proof (req_of_nonneg l k Hl). unfold pick.
  case_decide; [lia|]. rewrite bool_decide_eq_false_2 by done. intros. rewrite IH by lia. lra.
Qed.

(** A batch being written can be taken out of the unconfirmed costs exactly. *)
Lemma books_covers pend wr unk unc k a :
  books pend wr unk unc -> wr !! k = Some a -> covers (unc !! k) a.
Proof.
  intros [Hr Hc Hp Hw Hu] Hk. specialize (Hr k). specialize (Hc k).
  pose proof (req_in_nonneg pend k Hp). pose proof (req_of_nonneg unk k Hu).
  pose proof (Hw k a Hk) as Ha. unfold busy in Ha.
  assert (req_in wr k = requests a) as Er by (unfold req_in; by rewrite Hk).
  assert (cost_in wr k = cost a) as Ec by (unfold cost_in; by rewrite Hk).
  rewrite Er in Hr. rewrite Ec in Hc. unfold u_req, u_amt in *.
  destruct (unc !! k) as [v|]; simpl in *; [|lia].
  exists v. split; [done|]. intros Hz.
  assert (pend !! k = None) as Ep by (apply req_in_zero; [done|lia]).
  assert (cost_of unk k == 0) as Ex by (apply req_of_zero; [done|lia]).
  unfold cost_in in Hc. rewrite Ep in Hc. simpl in Hc. lra.
Qed.

Lemma req_of_app l l' k : req_of (l ++ l') k = (req_of l k + req_of l' k)%Z.
Proof. induction l as [|[x a] l IH]; simpl; [lia|]. rewrite IH. lia. Qed.

Lemma cost_of_app l l' k : cost_of (l ++ l') k == cost_of l k + cost_of l' k.
Proof. induction l as [|[x a] l IH]; simpl; [lra|]. rewrite IH. lra. Qed.

Lemma mark_sums batch ks k :
  NoDup ks ->
  req_of ((fun k => (k, amount_in batch k)) <$> ks) k =
    (if decide (k ∈ ks) then requests (amount_in batch k) else 0)%Z /\
  cost_of ((fun k => (k, amount_in batch k)) <$> ks) k ==
    (if decide (k ∈ ks) then cost (amount_in batch k) else 0).
Proof.
  induction 1 as [|x ks Hx Hnd [IHr IHc]].
  { rewrite !decide_False by set_solver. split; [done|reflexivity]. }
  rewrite fmap_cons. unfold req_of, cost_of. cbn [foldr].
  fold (req_of ((fun k => (k, amount_in batch k)) <$> ks) k).
  fold (cost_of ((fun k => (k, amount_in batch k)) <$> ks) k).
  rewrite IHr, IHc. unfold pick. destruct (decide (x = k)) as [->|Hne].
  - rewrite bool_decide_eq_true_2, !(decide_False (P := k ∈ ks)), !decide_True by set_solver.
    split; [lia|lra].
  - rewrite bool_decide_eq_false_2 by done. destruct (decide (k ∈ ks)).
    + rewrite !decide_True by set_solver. split; [lia|lra].
    + rewrite !decide_False by set_solver. split; [lia|lra].
Qed.

Definition repend (l : ledger) (batch : gmap lkey amount) (ks : list lkey) : ledger :=
  foldl (fun acc k => add_pending acc k (amount_in batch k)) l ks.

Lemma repend_lookup l batch ks k :
  NoDup ks ->
  pending (repend l batch ks) !! k =
  if decide (k ∈ ks)
  then Some (amount_add (default no_amount (pending l !! k)) (amount_in batch k))
  else pending l !! k.
Proof.
  revert l; induction ks as [|k0 ks IH]; intros l Hnd.
  { rewrite decide_False by set_solver. done. }
  apply NoDup_cons in Hnd as [Hk0 Hnd].
  change (repend l batch (k0 :: ks)) with
    (repend (add_pending l k0 (amount_in batch k0)) batch ks).
  rewrite IH by done. unfold add_pending; simpl. rewrite lookup_insert.
  destruct (decide (k0 = k)) as [->|Hne].
  - rewrite decide_False by done. by rewrite decide_True by set_solver.
  - destruct (decide (k ∈ ks)) as [Hk|Hk].
    + by rewrite decide_True by set_solver.
    + by rewrite decide_False by set_solver.
Qed.

Lemma repend_same l batch ks :
  let l' := repend l batch ks in
  reserved_users l' = reserved_users l /\ reserved_keys l' = reserved_keys l /\
  unconfirmed_costs l' = unconfirmed_costs l /\ writing l' = writing l /\ landed l' = landed l /\
  unknown l' = unknown l.
Proof.
  unfold repend. revert l; induction ks as [|k ks IH]; intros l; [done|].
  apply (IH (add_pending l k (amount_in batch k))).
Qed.

(** What one request adds, and what a batch moves, keep the books. *)
Lemma books_record pend wr unk unc k c cc :
  books pend wr unk unc ->
  books (<[k := amount_add (default no_amount (pend !! k)) (Amount c cc 1)]> pend) wr unk
    (<[k := Unconfirmed (u_cost (default (Unconfirmed 0 0) (unc !! k)) + c)
              (u_requests (default (Unconfirmed 0 0) (unc !! k)) + 1)]> unc).
Proof.
  intros [Hr Hc Hp Hw Hu]. constructor; auto.
  - intros k'. specialize (Hr k'). unfold u_req, req_in in *. rewrite !lookup_insert.
    case_decide; [subst|done]. destruct (unc !! k'), (pend !! k'); simpl in *; lia.
  - intros k'. specialize (Hc k'). unfold u_amt, cost_in in *. rewrite !lookup_insert.
    case_decide; [subst|done]. destruct (unc !! k'), (pend !! k'); simpl in *; lra.
  - intros k' a. rewrite lookup_insert. case_decide; [|by apply Hp]. intros [= <-]. subst k'.
    pose proof (req_in_nonneg pend k Hp) as Hn. unfold req_in in Hn. unfold busy.
    destruct (pend !! k); simpl in *; lia.
Qed.

Lemma books_begin pend unk unc : books pend ∅ unk unc -> books ∅ pend unk unc.
Proof.
  intros [Hr Hc Hp Hw Hu]. constructor; auto.
  - intros k. specialize (Hr k). unfold req_in in *. rewrite !lookup_empty in *. simpl in *. lia.
  - intros k. specialize (Hc k). unfold cost_in in *. rewrite !lookup_empty in *. simpl in *. lra.
Qed.

(** How a write's answer divides its batch. *)
Record divides (batch : gmap lkey amount) (a f x : list lkey) : Prop := {
  div_a : NoDup a;
  div_f : NoDup f;
  div_x : NoDup x;
  div_all k : is_Some (batch !! k) <-> k ∈ a \/ k ∈ f \/ k ∈ x;
  div_af k : k ∈ a -> k ∉ f;
  div_ax k : k ∈ a -> k ∉ x;
  div_fx k : k ∈ f -> k ∉ x
}.

Lemma write_divides batch s :
  let '(a, f, x) := _write batch s in divides batch a f x.
Proof.
  assert (NoDup (map_to_list batch).*1) as Hnd by apply NoDup_fst_map_to_list.
  assert (forall k, is_Some (batch !! k) <-> k ∈ (map_to_list batch).*1) as Hin.
  { intros k. rewrite list_elem_of_fmap. split.
    - intros [v Hv]. exists (k, v). split; [done|]. by apply elem_of_map_to_list.
    - intros ([k' v] & -> & Hv). exists v. by apply elem_of_map_to_list in Hv. }
  unfold _write. set (ks := (map_to_list batch).*1) in *.
  destruct s as [| | |ok|]; constructor; auto using NoDup_nil_2, NoDup_filter; try set_solver.
  - intros k. rewrite Hin, !list_elem_of_filter. destruct (ok k); set_solver.
  - intros k. rewrite !list_elem_of_filter. intros [-> _] [? _]. done.
Qed.

Lemma books_end pend wr unk unc pend' unc' a f x :
  books pend wr unk unc -> divides wr a f x ->
  (forall k, pend' !! k =
     if decide (k ∈ f) then Some (amount_add (default no_amount (pend !! k)) (amount_in wr k))
     else pend !! k) ->
  (forall k, unc' !! k =
     if decide (k ∈ a) then confirm (unc !! k) (amount_in wr k) else unc !! k) ->
  books pend' ∅ (unk ++ ((fun k => (k, amount_in wr k)) <$> x)) unc'.
Proof.
  intros Hb [Na Nf Nx Hall Haf Hax Hfx] Hp' Hu'. pose proof Hb as [Hr Hc Hp Hw Hu].
  assert (forall k b, wr !! k = Some b -> busy b /\ amount_in wr k = b) as Hin.
  { intros k b Hk. split; [by eapply Hw|]. unfold amount_in. by rewrite Hk. }
  assert (forall k,
    u_req unc' k = (req_in pend' k + req_of (unk ++ ((fun k => (k, amount_in wr k)) <$> x)) k)%Z /\
    u_amt unc' k == cost_in pend' k + cost_of (unk ++ ((fun k => (k, amount_in wr k)) <$> x)) k)
    as Hpt.
  { intros k. rewrite req_of_app, cost_of_app. destruct (mark_sums wr x k Nx) as [-> ->].
    specialize (Hr k). specialize (Hc k).
    unfold u_req, u_amt, req_in, cost_in in *. rewrite Hp', Hu'.
    pose proof (Hall k) as Hk.
    destruct (wr !! k) as [b|] eqn:Eb; simpl in Hr, Hc.
    - destruct (Hin k b Eb) as [_ ->].
      destruct (books_covers _ _ _ _ k b Hb Eb) as (v & Ev & Hz). rewrite Ev in *. simpl in Hr, Hc.
      destruct (decide (k ∈ a)) as [Ha|Ha].
      + rewrite (decide_False (P := k ∈ f)), !(decide_False (P := k ∈ x)) by auto.
        unfold confirm. simpl. case_bool_decide as Hle; simpl; [|split; [lia|lra]].
        specialize (Hz Hle).
        pose proof (req_in_nonneg pend k Hp). pose proof (req_of_nonneg unk k Hu).
        assert (pend !! k = None) as Ep by (apply req_in_zero; [done|unfold req_in in *; lia]).
        assert (cost_of unk k == 0) as Ex by (apply req_of_zero; [done|unfold req_in in *; lia]).
        rewrite Ep in *. simpl in *. split; [lia|lra].
      + destruct (decide (k ∈ f)) as [Hf|Hf].
        * rewrite !(decide_False (P := k ∈ x)) by auto.
          destruct (pend !! k); simpl in *; split; lia || lra.
        * assert (k ∈ x) as Hx by (destruct (proj1 Hk ltac:(by eexists)) as [|[|]]; done).
          rewrite !decide_True by done. simpl. split; [lia|lra].
    - assert (k ∉ a /\ k ∉ f /\ k ∉ x) as (Ha & Hf & Hx).
      { split_and!; intros H; destruct (proj2 Hk ltac:(auto)); done. }
      rewrite !decide_False by done. split; [lia|lra]. }
  constructor; auto.
  - intros k. destruct (Hpt k) as [-> _]. replace (req_in ∅ k) with 0%Z by done. lia.
  - intros k. destruct (Hpt k) as [_ ->]. replace (cost_in ∅ k) with 0 by done. lra.
  - intros k b. rewrite Hp'. case_decide as Hf; [|by apply Hp]. intros [= <-].
    assert (is_Some (wr !! k)) as [c Ec] by (apply Hall; auto).
    destruct (Hin k c Ec) as [Hbz ->]. pose proof (req_in_nonneg pend k Hp) as Hn.
    unfold busy, req_in in *. destruct (pend !! k); simpl in *; lia.
  - apply map_Forall_empty.
  - apply Forall_app; split; [done|]. apply Forall_fmap, Forall_forall. intros k Hx. simpl.
    assert (is_Some (wr !! k)) as [c Ec] by (apply Hall; auto).
    by destruct (Hin k c Ec) as [Hbz ->].
Qed.

(** ** Reservation tables *)

Section tables.
Context `{Countable K}.

Definition tally (who : K) (rs : list (K * Q)) : Q :=
  foldr (fun '(x, a) s => pick (bool_decide (x = who)) a + s) 0 rs.
Definition tally_count (who : K) (rs : list (K * Q)) : Z :=
  foldr (fun '(x, _) s => (if decide (x = who) then 1 else 0) + s)%Z 0%Z rs.

(** A table holds, per holder, the sum and the number of open reservations. *)
Definition table_ok (t : gmap K (Q * Z)) (rs : list (K * Q)) : Prop :=
  forall who, match t !! who with
  | None => tally_count who rs = 0%Z
  | Some (s, n) => n = tally_count who rs /\ (1 <= n)%Z /\ s == tally who rs
  end.

Lemma tally_app who a b : tally who (a ++ b) == tally who a + tally who b.
Proof. induction a as [|[x q] a IH]; simpl; [lra|]. rewrite IH. lra. Qed.

Lemma tally_count_app who a b : tally_count who (a ++ b) = (tally_count who a + tally_count who b)%Z.
Proof. induction a as [|[x q] a IH]; simpl; [lia|]. rewrite IH. lia. Qed.

Lemma tally_count_nonneg who rs : (0 <= tally_count who rs)%Z.
Proof. induction rs as [|[x q] rs IH]; simpl; [lia|]. case_decide; lia. Qed.

Lemma tally_none who rs : tally_count who rs = 0%Z -> tally who rs == 0.
Proof.
  induction rs as [|[x q] rs IH]; simpl; [lra|]. pose proof (tally_count_nonneg who rs).
  case_decide; [lia|]. intros. rewrite bool_decide_eq_false_2 by done. unfold pick.
  rewrite IH by lia. lra.
Qed.

Lemma tally_one who x a :
  tally who [(x, a)] == (if decide (x = who) then a else 0) /\
  tally_count who [(x, a)] = (if decide (x = who) then 1 else 0)%Z.
Proof.
  simpl. unfold pick. case_decide as E.
  - rewrite bool_decide_eq_true_2 by done. split; [lra|lia].
  - rewrite bool_decide_eq_false_2 by done. split; [lra|lia].
Qed.

Lemma tally_snoc x rs a : tally x (rs ++ [(x, a)]) == tally x rs + a.
Proof.
  rewrite tally_app. destruct (tally_one x x a) as [-> _]. rewrite decide_True by done. lra.
Qed.

Lemma add_reserved_ok t rs x a :
  table_ok t rs -> table_ok (_add_reserved t x a) (rs ++ [(x, a)]).
Proof.
  intros Ht who. specialize (Ht who) as Hw. specialize (Ht x).
  pose proof (tally_app who rs [(x, a)]) as Es. pose proof (tally_count_app who rs [(x, a)]) as Ew.
  destruct (tally_one who x a) as [E1 E2]. rewrite E2 in Ew. rewrite E1 in Es.
  unfold _add_reserved. destruct (t !! x) as [[s n]|] eqn:E; rewrite lookup_insert;
    case_decide as Hx; subst; rewrite ?decide_True, ?decide_False in Ew, Es by done.
  - destruct Ht as (-> & ? & Hs). split_and!; [lia|lia|lra].
  - destruct (t !! who) as [[s' n']|]; [|lia]. destruct Hw as (-> & ? & Hs). split_and!; [lia|lia|lra].
  - split_and!; [lia|lia|]. pose proof (tally_none who rs Ht). lra.
  - destruct (t !! who) as [[s' n']|]; [|lia]. destruct Hw as (-> & ? & Hs). split_and!; [lia|lia|lra].
Qed.

Lemma remove_reserved_ok t rs1 rs2 x a :
  table_ok t (rs1 ++ (x, a) :: rs2) -> table_ok (_remove_reserved t x a) (rs1 ++ rs2).
Proof.
  intros Ht.
  assert (forall who, tally_count who (rs1 ++ (x, a) :: rs2) =
    (tally_count who (rs1 ++ rs2) + if decide (x = who) then 1 else 0)%Z /\
    tally who (rs1 ++ (x, a) :: rs2) == tally who (rs1 ++ rs2) + (if decide (x = who) then a else 0))
    as Hsplit.
  { intros who. change ((x, a) :: rs2) with ([(x, a)] ++ rs2).
    rewrite !tally_count_app, !tally_app. destruct (tally_one who x a) as [-> ->]. split; [lia|lra]. }
  intros who. pose proof (Ht who) as Hw. specialize (Ht x).
  destruct (Hsplit who) as [Ew Es], (Hsplit x) as [Ex Esx].
  rewrite (decide_True (P := x = x)) in Ex by done. rewrite (decide_True (P := x = x)) in Esx by done.
  unfold _remove_reserved. destruct (t !! x) as [[s n]|] eqn:E.
  - destruct Ht as (Hn & H1 & Hs). case_bool_decide as Hle; rewrite ?lookup_delete, ?lookup_insert.
    + case_decide as Hx; [subst; lia|]. rewrite ?decide_False in Ew by done; rewrite ?decide_False in Es by done.
      destruct (t !! who) as [[s' n']|]; [|lia]. destruct Hw as (? & ? & Hs').
      split_and!; [lia|lia|lra].
    + case_decide as Hx; subst.
      * split_and!; [lia|lia|lra].
      * rewrite ?decide_False in Ew by done; rewrite ?decide_False in Es by done.
        destruct (t !! who) as [[s' n']|]; [|lia]. destruct Hw as (? & ? & Hs').
        split_and!; [lia|lia|lra].
  - pose proof (tally_count_nonneg x (rs1 ++ rs2)). lia.
Qed.

Lemma reserved_of_ok t rs who : table_ok t rs -> reserved_of t who == tally who rs.
Proof.
  intros Ht. specialize (Ht who). unfold reserved_of. destruct (t !! who) as [[s n]|]; simpl.
  - by destruct Ht as (_ & _ & ->).
  - by rewrite tally_none.
Qed.
End tables.

Definition open_user (r : reservation) : option (string * Q) :=
  if res_open r then Some (res_user r, res_amount r) else None.
Definition open_key (r : reservation) : option (Z * Q) :=
  if res_open r then k ← res_key r; Some (k, res_amount r) else None.

(** Closing a reservation takes its amount out of both tables. *)
Lemma open_closed {A} (f : reservation -> option A) rs i r r' :
  rs !! i = Some r -> f r' = None ->
  exists l1 l2, omap f rs = l1 ++ option_list (f r) ++ l2 /\ omap f (<[i := r']> rs) = l1 ++ l2.
Proof.
  intros Hi Hf. exists (omap f (take i rs)), (omap f (drop (S i) rs)). split.
  - rewrite <- (take_drop_middle rs i r Hi) at 1. rewrite omap_app. csimpl. by destruct (f r).
  - rewrite insert_take_drop by (by eapply lookup_lt_Some).
    rewrite omap_app. csimpl. by rewrite Hf.
Qed.

(** ** The invariant *)

Definition time_le (x y : landing) : Prop := x.1 <= y.1.

(** The queue of landings is what is left of their history, in order, once those
    older than the window were forgotten. *)
Definition hist_ok (hist kept : list landing) (t : Q) : Prop :=
  exists old, hist = old ++ kept /\ Forall (fun x => x.1 < t - LANDED_WINDOW_SECONDS) old /\
  StronglySorted time_le hist /\ Forall (fun x => x.1 <= t) hist.

Lemma drop_old_split cutoff q :
  exists old, q = old ++ drop_old cutoff q /\ Forall (fun x => x.1 < cutoff) old.
Proof.
  induction q as [|[t b] q (old & E & Hold)]; simpl; [by exists []|].
  case_bool_decide; [|by exists []]. exists ((t, b) :: old). rewrite E at 1.
  split; [done|]. by constructor.
Qed.

Lemma hist_forget hist kept t now :
  hist_ok hist kept t -> t <= now ->
  hist_ok hist (drop_old (now - LANDED_WINDOW_SECONDS) kept) now.
Proof.
  intros (old & -> & Hold & Hs & Ht) Hle.
  destruct (drop_old_split (now - LANDED_WINDOW_SECONDS) kept) as (old' & E & Hold').
  exists (old ++ old'). split_and!; auto.
  - by rewrite <- app_assoc, <- E.
  - apply Forall_app; split; [|done]. eapply Forall_impl; [exact Hold|]. simpl. intros; lra.
  - eapply Forall_impl; [exact Ht|]. simpl. intros; lra.
Qed.

Lemma hist_land hist kept t now b :
  hist_ok hist kept t -> t <= now ->
  hist_ok (hist ++ [(now, b)]) (drop_old (now - LANDED_WINDOW_SECONDS) (kept ++ [(now, b)])) now.
Proof.
  intros (old & -> & Hold & Hs & Ht) Hle.
  apply (hist_forget _ _ now); [|lra]. exists old. split_and!; auto.
  - by rewrite <- app_assoc.
  - eapply Forall_impl; [exact Hold|]. simpl. intros; lra.
  - clear -Hs Ht Hle. induction Hs as [|x l Hl IH Hx]; simpl; [repeat constructor|].
    apply Forall_cons in Ht as [Hx1 Ht]. constructor; [by apply IH|].
    apply Forall_app; split; [done|]. repeat constructor. unfold time_le. simpl. lra.
  - apply Forall_app; split; [|repeat constructor; simpl; lra].
    eapply Forall_impl; [exact Ht|]. simpl. intros; lra.
Qed.

Record world_wf (w : world) : Prop := {
  w_books : books (pending (led w)) (writing (led w)) (unknown (led w)) (unconfirmed_costs (led w));
  w_writing : writer (led w) <> Writing -> writing (led w) = ∅;
  w_total u h : rec_sum u h (recorded w) ==
    unc_sum u h (unconfirmed_costs (led w)) + land_sum u h (history w);
  w_hist : hist_ok (history w) (landed (led w)) (clock w);
  w_users : table_ok (reserved_users (led w)) (omap open_user (reservations w));
  w_keys : table_ok (reserved_keys (led w)) (omap open_key (reservations w))
}.

Lemma new_world_wf t : world_wf (new_world t).
Proof.
  constructor; simpl; auto.
  - constructor; try done; apply map_Forall_empty || constructor.
  - intros u h. unfold unc_sum. rewrite map_fold_empty. lra.
  - exists []. split_and!; constructor.
  - by intros who.
  - by intros who.
Qed.

(** Starting a writer touches nothing else. *)
Lemma start_write_same l b :
  (_start_write l b = l) \/ (writer l = Idle /\ _start_write l b = l <| writer := Scheduled |>).
Proof.
  unfold _start_write. destruct (decide (writer l = Idle)) as [E|E].
  - rewrite bool_decide_eq_true_2 by done. simpl. repeat case_match; auto.
  - rewrite bool_decide_eq_false_2 by done. by left.
Qed.

Lemma start_write_wf l b r h s t :
  world_wf (World l r h s t) -> world_wf (World (_start_write l b) r h s t).
Proof.
  intros Hw. destruct (start_write_same l b) as [->|[Hi ->]]; [done|].
  destruct Hw. constructor; simpl in *; auto. intros _. apply w_writing0. by rewrite Hi.
Qed.

Lemma rec_sum_snoc u h l k c : rec_sum u h (l ++ [(k, c)]) == rec_sum u h l + pick (hits u h k) c.
Proof. induction l as [|[k' c'] l IH]; simpl; [lra|]. rewrite IH. lra. Qed.

Lemma record_wf w user c api_key today b :
  world_wf w -> world_wf (world_step w (LRecord user c api_key today b)).
Proof.
  intros Hw. unfold world_step, record. cbn [enabled negb].
  destruct (bool_decide (user = ""%string) || negb (bool_decide (0 < c))) eqn:E.
  - destruct Hw. constructor; simpl; auto.
  - apply start_write_wf. destruct Hw. set (k := (user, api_key, today) : lkey).
    constructor; simpl in *; auto.
    + by apply books_record.
    + intros u h. rewrite rec_sum_snoc, unc_sum_update, w_total0. 
      change (user, api_key, today) with k. generalize (unconfirmed_costs (led w) !! k).
      intros o. destruct o; simpl; unfold pick; destruct (hits u h k); lra.
Qed.

Lemma gate_wf w today now c :
  world_wf w -> clock w <= now ->
  world_wf (w <| led := (ledger_refusal (led w) today now c).1 |> <| clock := now |>).
Proof.
  intros [] Hle. constructor; simpl; auto. by apply (hist_forget _ _ (clock w)).
Qed.

Lemma admit_wf w today now c a :
  world_wf w -> world_wf (world_step w (LAdmit today now c a)).
Proof.
  intros Hw. unfold world_step. cbn [enabled]. case_bool_decide as Hle; [|done]. cbn [negb].
  pose proof (gate_wf w today now c Hw Hle) as Hg. unfold ledger_admit.
  destruct (ledger_refusal (led w) today now c) as [l [r|]]; [done|].
  destruct Hg. destruct (check_key c) as [k|] eqn:Ek; simpl in *; constructor; simpl; auto;
    rewrite omap_app; csimpl; unfold open_key; simpl; rewrite ?Ek; simpl; rewrite ?app_nil_r;
    by try apply add_reserved_ok.
Qed.

Lemma reservation_release_wf w i : world_wf w -> world_wf (world_step w (LRelease i)).
Proof.
  intros Hw. unfold world_step. cbn [enabled negb].
  destruct (reservations w !! i) as [r|] eqn:Hi; [|done]. unfold reservation_release.
  destruct (res_open r) eqn:Ho; cycle 1.
  { destruct Hw. constructor; simpl; rewrite ?list_insert_id by done; auto. }
  set (r' := Reservation _ _ _ false).
  destruct (open_closed open_user (reservations w) i r r' Hi eq_refl) as (u1 & u2 & Eu & Eu').
  destruct (open_closed open_key (reservations w) i r r' Hi eq_refl) as (k1 & k2 & Ek & Ek').
  assert (open_user r = Some (res_user r, res_amount r)) as Eou by (unfold open_user; by rewrite Ho).
  assert (open_key r = k ← res_key r; Some (k, res_amount r)) as Eok by (unfold open_key; by rewrite Ho).
  rewrite Eou in Eu. rewrite Eok in Ek. simpl in Eu.
  destruct Hw as [Hb Hwr Ht Hh Hus Hks]. rewrite Eu in Hus. rewrite Ek in Hks.
  unfold _unreserve. destruct (res_key r) as [k|]; simpl in Hks;
    constructor; simpl; auto; rewrite ?Eu', ?Ek'; auto; by apply remove_reserved_ok.
Qed.

Lemma write_begin_wf w : world_wf w -> world_wf (world_step w LWriteBegin).
Proof.
  intros Hw. unfold world_step. cbn [enabled]. case_bool_decide as Hs; [|done]. cbn [negb].
  destruct Hw as [Hb Hwr Ht Hh Hus Hks]. rewrite Hs in Hwr. specialize (Hwr ltac:(done)).
  unfold write_begin. rewrite Hwr in Hb. case_bool_decide as He; constructor; simpl; auto.
  - rewrite Hwr. by rewrite He in Hb.
  - by apply books_begin.
  - done.
Qed.


(** The stages of a write's end, field by field. *)
Lemma land_applied_fields l ks b now :
  let l' := land_applied l ks b now in
  unconfirmed_costs l' = unconfirmed_costs (unconfirm_all l b ks) /\ pending l' = pending l /\
  writing l' = writing l /\ unknown l' = unknown l /\ reserved_users l' = reserved_users l /\
  reserved_keys l' = reserved_keys l /\
  landed l' = (if bool_decide (ks = []) then landed l
               else drop_old (now - LANDED_WINDOW_SECONDS)
                      (landed l ++ [(now, foldl (add_entry b) ∅ ks)])).
Proof.
  unfold land_applied. case_bool_decide as Ha; [subst ks; done|].
  unfold _land. fold (unconfirm_all l b ks).
  destruct (unconfirm_all_same l b ks) as (? & ? & ? & ? & Hl & ? & _).
  cbn. rewrite Hl. split_and!; auto.
Qed.

Lemma mark_unknown_fields l ks b :
  let l' := mark_all_unknown l ks b in
  unknown l' = unknown l ++ ((fun k => (k, amount_in b k)) <$> ks) /\
  unconfirmed_costs l' = unconfirmed_costs l /\ pending l' = pending l /\
  writing l' = writing l /\ reserved_users l' = reserved_users l /\
  reserved_keys l' = reserved_keys l /\ landed l' = landed l.
Proof.
  unfold mark_all_unknown. case_bool_decide as Hx; [subst ks; csimpl; rewrite app_nil_r; done|].
  done.
Qed.

Lemma requeue_fields l s ks b :
  NoDup ks -> (s = WriteCancelled -> ks = []) ->
  let l' := requeue_failed l s ks b in
  (forall k, pending l' !! k =
     if decide (k ∈ ks)
     then Some (amount_add (default no_amount (pending l !! k)) (amount_in b k))
     else pending l !! k) /\
  unconfirmed_costs l' = unconfirmed_costs l /\ writing l' = writing l /\
  unknown l' = unknown l /\ reserved_users l' = reserved_users l /\
  reserved_keys l' = reserved_keys l /\ landed l' = landed l.
Proof.
  intros Hnd Hs. cbv zeta.
  assert (ks = [] -> forall l', pending l' = pending l -> forall k, pending l' !! k =
    if decide (k ∈ ks) then Some (amount_add (default no_amount (pending l !! k)) (amount_in b k))
    else pending l !! k) as Hnil.
  { intros -> l' -> k. by rewrite decide_False by set_solver. }
  assert (let l' := _schedule_retry (repend l b ks) in
    pending l' = pending (repend l b ks) /\ unconfirmed_costs l' = unconfirmed_costs l /\
    writing l' = writing l /\ unknown l' = unknown l /\ reserved_users l' = reserved_users l /\
    reserved_keys l' = reserved_keys l /\ landed l' = landed l) as Hre.
  { destruct (repend_same l b ks) as (? & ? & ? & ? & ? & ?). unfold _schedule_retry.
    by destruct (retry (repend l b ks)). }
  unfold requeue_failed. fold (repend l b ks).
  destruct s; try (by (split_and!; [apply Hnil; auto|done..]));
    (case_bool_decide; [by (split_and!; [apply Hnil; auto|done..])|];
     destruct Hre as (Ep & ? & ? & ? & ? & ? & ?); split_and!; auto;
     intros k; rewrite Ep; by apply repend_lookup).
Qed.

Lemma write_end_wf w s now : world_wf w -> world_wf (world_step w (LWriteEnd s now)).
Proof.
  intros Hw. unfold world_step. cbn [enabled].
  destruct (bool_decide (writer (led w) = Writing) && bool_decide (clock w <= now)) eqn:Een;
    [|done]. cbn [negb]. apply andb_true_iff in Een as [_ Hle]. apply bool_decide_eq_true in Hle.
  destruct Hw as [Hb Hwr Ht Hh Hus Hks]. unfold write_end.
  pose proof (write_divides (writing (led w)) s) as Hd.
  assert (s = WriteCancelled -> (_write (writing (led w)) s).1.2 = []) as Hs by (by intros ->).
  destruct (_write (writing (led w)) s) as [[a f] x]. cbn [fst snd] in Hs.
  set (b := writing (led w)) in *. set (l0 := (led w) <| writing := ∅ |>).
  destruct (land_applied_fields l0 a b now) as (U1 & P1 & W1 & X1 & R1 & K1 & L1).
  set (l1 := land_applied l0 a b now) in *.
  destruct (mark_unknown_fields l1 x b) as (X2 & U2 & P2 & W2 & R2 & K2 & L2).
  set (l2 := mark_all_unknown l1 x b) in *.
  destruct (requeue_fields l2 s f b (div_f _ _ _ _ Hd) Hs) as (P3 & U3 & W3 & X3 & R3 & K3 & L3).
  set (l3 := requeue_failed l2 s f b) in *.
  assert (forall k, unconfirmed_costs l3 !! k = if decide (k ∈ a)
    then confirm (unconfirmed_costs (led w) !! k) (amount_in b k)
    else unconfirmed_costs (led w) !! k) as Hu.
  { intros k. rewrite U3, U2, U1. by rewrite unconfirm_all_lookup by apply Hd. }
  constructor; simpl.
  - rewrite W3, W2, W1, X3, X2, X1. simpl. eapply books_end; eauto.
    intros k. by rewrite P3, P2, P1.
  - intros _. by rewrite W3, W2, W1.
  - intros u h. rewrite U3, U2, U1, unconfirm_all_sum, Ht; [|apply Hd|].
    + case_bool_decide as Ha; [subst a; simpl; lra|].
      rewrite land_sum_app. simpl. rewrite land_entries. rewrite lookup_empty. simpl. lra.
    + intros k Hk. destruct (div_all _ _ _ _ Hd k) as [_ Hin].
      destruct (Hin ltac:(auto)) as [v Hv]. unfold amount_in. rewrite Hv. simpl.
      by eapply books_covers.
  - rewrite L3, L2, L1. simpl. case_bool_decide.
    + destruct Hh as (old & E & Ho & Hso & Hcl). exists old. split_and!; auto;
        eapply Forall_impl; eauto; simpl; intros; lra.
    + by apply (hist_land _ _ (clock w)).
  - by rewrite R3, R2, R1.
  - by rewrite K3, K2, K1.
Qed.

Lemma world_step_wf w o : world_wf w -> world_wf (world_step w o).
Proof.
  intros Hw. destruct o as [user c k today b|today now c|today now c a|i| |s now| | |remaining].
  - by apply record_wf.
  - unfold world_step. cbn [enabled]. case_bool_decide; [|done]. by apply gate_wf.
  - by apply admit_wf.
  - by apply reservation_release_wf.
  - by apply write_begin_wf.
  - by apply write_end_wf.
  - unfold world_step. cbn [enabled]. case_bool_decide as Hf; [|done]. cbn [negb].
    unfold _write_finished. apply start_write_wf. destruct Hw. constructor; simpl in *; auto.
    intros _. apply w_writing0. by rewrite Hf.
  - unfold world_step. cbn [enabled]. destruct (retry (led w)); [|done]. cbn [negb].
    unfold _retry_now. apply start_write_wf. destruct Hw. constructor; simpl in *; auto.
  - unfold world_step, flush_step. cbn [enabled negb].
    destruct (negb _); [by destruct w|].
    destruct (bool_decide (pending (led w) = ∅)); [by destruct w|].
    destruct (bool_decide (remaining <= 0)); [by destruct w|].
    destruct (retry (led w)); [|apply start_write_wf; by destruct w].
    destruct Hw. constructor; simpl in *; auto.
Qed.

Definition world_run (w : world) (l : list ledger_op) : world := fold_left world_step l w.

Lemma world_run_wf t l : world_wf (world_run (new_world t) l).
Proof. apply (foldl_invariant world_wf); [intros; by apply world_step_wf|apply new_world_wf]. Qed.

(** ** What a gate counts *)

(** The costs that count against a limit: the account's today or this month, and
    of those the key's own. *)
Definition counts_for (today : string) (key_id : option Z) (sc : scope) (wd : Quota.window) :
    selector :=
  fun ck day =>
    in_month today day &&
    match wd with WindowDay => bool_decide (day = today) | WindowMonth => true end &&
    match sc with
    | ScopeKey => bool_decide (is_Some key_id) && bool_decide (ck = key_id)
    | ScopeAccount => true
    end.

(** What is reserved against a limit. *)
Definition reserved_for (w : world) (c : spend_check) (sc : scope) : Q :=
  match sc with
  | ScopeAccount => tally (check_user c) (omap open_user (reservations w))
  | ScopeKey => match check_key c with
                | Some k => tally k (omap open_key (reservations w))
                | None => 0
                end
  end.

Lemma spent_of_add a b sc wd : spent_of (spent_add a b) sc wd == spent_of a sc wd + spent_of b sc wd.
Proof. destruct sc, wd; simpl; reflexivity. Qed.

Lemma counts_select today kid ck day c sc wd :
  spent_of (counts today kid ck day c) sc wd == pick (counts_for today kid sc wd ck day) c.
Proof.
  unfold counts, counts_for, pick. destruct (in_month today day); [|by destruct sc, wd].
  destruct sc, wd; simpl; repeat case_bool_decide; simpl; try lra; done.
Qed.

Lemma unconfirmed_select l today user kid sc wd :
  spent_of (unconfirmed_spent l today user kid) sc wd ==
  unc_sum user (counts_for today kid sc wd) (unconfirmed_costs l).
Proof.
  unfold unconfirmed_spent, unc_sum. rewrite !map_fold_foldr.
  induction (map_to_list (unconfirmed_costs l)) as [|[k v] q IH]; simpl; [by destruct sc, wd|].
  rewrite <- IH. unfold hits. case_decide as Hu.
  - rewrite bool_decide_eq_true_2 by done. rewrite spent_of_add, counts_select. done.
  - rewrite bool_decide_eq_false_2 by done. simpl. lra.
Qed.

Lemma landed_select today user kid q sc wd :
  spent_of (landed_spent today user kid q) sc wd == land_sum user (counts_for today kid sc wd) q.
Proof.
  assert (forall es, spent_of (entries_spent today kid es) sc wd ==
    entry_sum (counts_for today kid sc wd) es) as He.
  { induction es as [|[[ck d] c] es IH]; simpl; [by destruct sc, wd|].
    by rewrite spent_of_add, counts_select, IH. }
  induction q as [|[t b] q IH]; simpl; [by destruct sc, wd|].
  by rewrite spent_of_add, He, IH.
Qed.

Lemma pick_nonneg b c : 0 <= c -> 0 <= pick b c.
Proof. unfold pick. destruct b; lra. Qed.

Lemma sorted_snoc q x :
  StronglySorted time_le (q ++ [x]) -> StronglySorted time_le q /\ Forall (fun y => y.1 <= x.1) q.
Proof.
  induction q as [|y q IH]; simpl; [split; constructor|].
  intros [Hs Hy]%StronglySorted_inv. destruct (IH Hs) as [Hq Hx].
  apply Forall_app in Hy as [Hy Hyx]. apply Forall_cons in Hyx as [Hyx _].
  split; constructor; auto.
Qed.

(** Walking back from the newest landing to the first one before the read visits
    exactly those confirmed since. *)
Lemma recent_filter r q :
  StronglySorted time_le q ->
  recent r false (rev q) = rev (filter (fun x : landing => ~ x.1 < r) q).
Proof.
  induction q as [|[t b] q IH] using rev_ind; intros Hs; [done|].
  apply sorted_snoc in Hs as [Hs Hx]. rewrite rev_app_distr, filter_app. simpl.
  case_bool_decide as Ht; simpl.
  - rewrite (filter_none _ q); [by rewrite filter_cons_False by auto|].
    intros y Hy Hn. rewrite Forall_forall in Hx. specialize (Hx y Hy). simpl in Hx. apply Hn. lra.
  - rewrite filter_cons_True by done. rewrite rev_app_distr. simpl. f_equal. by apply IH.
Qed.

Lemma land_sum_split u h r q :
  land_sum u h q == land_sum u h (filter (fun x : landing => x.1 < r) q) +
                    land_sum u h (filter (fun x : landing => ~ x.1 < r) q).
Proof.
  assert (forall x q, land_sum u h (x :: q) = entry_sum h (default [] (x.2 !! u)) + land_sum u h q)
    as Hcons by (by intros [t b] q').
  induction q as [|x q IH]; [reflexivity|]. rewrite !filter_cons, Hcons.
  destruct (decide (x.1 < r)) as [Ht|Ht].
  - destruct (decide (~ x.1 < r)); [done|]. rewrite Hcons, IH. lra.
  - destruct (decide (~ x.1 < r)); [|done]. rewrite Hcons, IH. lra.
Qed.

(** What a gate counts of the landings, when its read is fresh: those confirmed
    since it read. *)
Lemma recent_landings hist kept t now r u h :
  hist_ok hist kept t -> t <= now -> now - LANDED_WINDOW_SECONDS <= r ->
  land_sum u h (recent r false (rev (drop_old (now - LANDED_WINDOW_SECONDS) kept))) ==
  land_sum u h (filter (fun x : landing => ~ x.1 < r) hist).
Proof.
  intros Hh Hle Hr. destruct (hist_forget _ _ _ _ Hh Hle) as (old & E & Ho & Hs & _).
  set (q := drop_old _ kept) in *.
  assert (StronglySorted time_le q) as Hq.
  { rewrite E in Hs. clear -Hs. induction old as [|x old IH]; [done|].
    apply StronglySorted_inv in Hs as [Hs _]. auto. }
  rewrite recent_filter by done. rewrite E, filter_app.
  transitivity (land_sum u h (filter (fun x : landing => ~ x.1 < r) q));
    [apply land_sum_perm; symmetry; apply Permutation_rev|].
  rewrite land_sum_app. assert (filter (fun x : landing => ~ x.1 < r) old = []) as ->; [|simpl; lra].
  apply filter_none. intros x Hx Hn. rewrite Forall_forall in Ho. specialize (Ho x Hx).
  apply Hn. lra.
Qed.

(** What the gate adds to what it read, for one limit. *)
Lemma extra_select w today now c sc wd :
  world_wf w -> clock w <= now -> now - LANDED_WINDOW_SECONDS <= read_at c ->
  let h := counts_for today (check_key c) sc wd in
  spent_of (_extra (led w) today (check_user c) (check_key c) (read_at c) now).2 sc wd ==
  unc_sum (check_user c) h (unconfirmed_costs (led w)) +
  land_sum (check_user c) h (filter (fun x : landing => ~ x.1 < read_at c) (history w)) +
  reserved_for w c sc.
Proof.
  intros Hw Hle Hr h. unfold _extra. cbn [snd].
  rewrite !spent_of_add, unconfirmed_select, landed_select.
  rewrite bool_decide_eq_false_2 by (intros Hlt; lra).
  change (landed (_forget_landed (led w) now)) with
    (drop_old (now - LANDED_WINDOW_SECONDS) (landed (led w))).
  rewrite (recent_landings (history w) (landed (led w)) (clock w)) by (auto; apply Hw).
  change (unconfirmed_costs (_forget_landed (led w) now)) with (unconfirmed_costs (led w)).
  change (reserved_users (_forget_landed (led w) now)) with (reserved_users (led w)).
  change (reserved_keys (_forget_landed (led w) now)) with (reserved_keys (led w)).
  pose proof (reserved_of_ok _ _ (check_user c) (w_users _ Hw)) as Eu.
  assert (match check_key c with Some k => reserved_of (reserved_keys (led w)) k | None => 0 end ==
    reserved_for w c ScopeKey) as Ek.
  { simpl. destruct (check_key c); [|reflexivity]. apply reserved_of_ok, Hw. }
  fold h. destruct sc, wd; simpl in *; lra.
Qed.

(** C1: no cost counts nowhere.  At every moment of every run -- requests
    finishing while writes are in flight, failing, retried or lost -- a gate
    that read the counters within the window, and whose reading holds the writes
    confirmed before it, counts at least everything recorded so far plus
    everything reserved: for the account's day and month and for the key's, each
    cost is in what was read or in what the ledger adds, and each open
    reservation is in the latter. *)
Theorem gate_counts_everything t0 ops today now c sc wd :
  let w := world_run (new_world t0) ops in
  let h := counts_for today (check_key c) sc wd in
  clock w <= now -> now - LANDED_WINDOW_SECONDS <= read_at c ->
  land_sum (check_user c) h (filter (fun x : landing => x.1 < read_at c) (history w)) <=
    spent_of (check_spent c) sc wd ->
  rec_sum (check_user c) h (recorded w) + reserved_for w c sc <=
  spent_of (spent_add (check_spent c)
    (_extra (led w) today (check_user c) (check_key c) (read_at c) now).2) sc wd.
Proof.
  intros w h Hle Hr Hread. pose proof (world_run_wf t0 ops) as Hw. fold w in Hw.
  rewrite spent_of_add, (extra_select w today now c sc wd Hw Hle Hr). fold h.
  rewrite (w_total _ Hw (check_user c) h), (land_sum_split (check_user c) h (read_at c) (history w)).
  lra.
Qed.

(** C2: requests admitted at the same time cannot overshoot a limit together.
    Whenever a request is admitted with the usual estimate, everything recorded
    plus everything then reserved, its own reservation included, fits under each
    limit it was checked against. *)
Theorem admission_within_limits t0 ops today now c a r l' sc wd lim :
  let w := world_run (new_world t0) ops in
  let h := counts_for today (check_key c) sc wd in
  clock w <= now -> now - LANDED_WINDOW_SECONDS <= read_at c ->
  land_sum (check_user c) h (filter (fun x : landing => x.1 < read_at c) (history w)) <=
    spent_of (check_spent c) sc wd ->
  0 <= a <= ESTIMATED_REQUEST_COST_USD ->
  ledger_admit (led w) today now c a = (l', Ok r) ->
  limit_of (check_limits c) sc wd = Some lim ->
  rec_sum (check_user c) h (recorded w) +
    reserved_for (world_step w (LAdmit today now c a)) c sc <= lim.
Proof.
  intros w h Hle Hr Hread Ha Had Hlim. pose proof (world_run_wf t0 ops) as Hw. fold w in Hw.
  assert (reserved_for (world_step w (LAdmit today now c a)) c sc <= reserved_for w c sc + a) as Hres.
  { unfold world_step. cbn [enabled]. rewrite bool_decide_eq_true_2 by done. cbn [negb].
    rewrite Had. assert (r = Reservation (check_user c) (check_key c) a true) as ->.
    { unfold ledger_admit in Had. destruct (ledger_refusal _ _ _ _) as [? [?|]]; [done|].
      by destruct (check_key c); injection Had as _ <-. }
    destruct sc; cbn -[tally].
    - destruct (check_key c) as [k|]; [|lra]. rewrite omap_app.
      change (omap open_key [_]) with [(k, a)]. rewrite tally_snoc. lra.
    - rewrite omap_app. change (omap open_user [_]) with [(check_user c, a)]. rewrite tally_snoc. lra. }
  unfold ledger_admit, ledger_refusal in Had.
  pose proof (extra_select w today now c sc wd Hw Hle Hr) as Hex. fold h in Hex.
  destruct (_extra _ _ _ _ _ _) as [l extra]. cbn [snd] in Hex.
  destruct (first_refusal _ _) as [?|] eqn:Ef; [done|].
  apply first_refusal_none in Ef as (F1 & F2 & F3 & F4).
  assert (fits (Some lim) (spent_of (spent_add (check_spent c) extra) sc wd)) as Hfit
    by (rewrite <- Hlim; by destruct sc, wd).
  unfold fits in Hfit. rewrite spent_of_add, Hex in Hfit.
  rewrite (w_total _ Hw (check_user c) h), (land_sum_split (check_user c) h (read_at c) (history w)).
  lra.
Qed.

(** ** Flushing *)

(** The writer task's next step, with a store that applies what it is given. *)
Definition writer_step (l : ledger) (now : Q) : ledger :=
  match writer l with
  | Idle => l
  | Scheduled => write_begin l true
  | Writing => write_end l AtomicApplied now
  | Finished => _write_finished l
  end.

(** [flush], alone with the writer: it awaits whenever it says so. *)
Fixpoint flush (fuel : nat) (l : ledger) (remaining now : Q) : ledger * option bool :=
  match fuel with
  | O => (l, None)
  | S fuel =>
      match flush_step l remaining with
      | (l, FlushDone ok) => (l, Some ok)
      | (l, FlushWait) => flush fuel (writer_step l now) remaining now
      | (l, FlushSleep) | (l, FlushOn) => flush fuel l remaining now
      end
  end.

Lemma time_left remaining : 0 < remaining -> bool_decide (remaining <= 0) = false.
Proof. intros Hr. apply bool_decide_eq_false_2. intros ?. lra. Qed.

Lemma flush_wait fuel l remaining now :
  writer l <> Idle -> 0 < remaining ->
  flush (S fuel) l remaining now = flush fuel (writer_step l now) remaining now.
Proof.
  intros Hw Hr. simpl. unfold flush_step. rewrite bool_decide_eq_false_2 by done.
  by rewrite time_left.
Qed.

Lemma flush_empty fuel l remaining now :
  writer l = Idle -> pending l = ∅ -> flush (S fuel) l remaining now = (l, Some true).
Proof.
  intros Hw Hp. simpl. unfold flush_step. rewrite bool_decide_eq_true_2 by done.
  cbn [negb]. by rewrite bool_decide_eq_true_2 by done.
Qed.

(** Fuel left over changes nothing. *)
Lemma flush_more n extra l remaining now r :
  flush n l remaining now = (r.1, Some r.2) -> flush (n + extra) l remaining now = (r.1, Some r.2).
Proof.
  revert l; induction n as [|n IH]; intros l; [done|]. simpl.
  destruct (flush_step l remaining) as [l' []]; auto.
Qed.

(** The end of a write that applied leaves the pending costs and the retry. *)
Lemma applied_end l now :
  pending (write_end l AtomicApplied now) = pending l /\
  writing (write_end l AtomicApplied now) = ∅ /\
  unknown (write_end l AtomicApplied now) = unknown l /\
  writer (write_end l AtomicApplied now) = Finished.
Proof.
  unfold write_end, _write, land_applied, mark_all_unknown, requeue_failed.
  rewrite !(bool_decide_eq_true_2 ([] = [])) by done.
  case_bool_decide; [by repeat split|]. unfold _land. cbn -[_unconfirm].
  pose proof (unconfirm_all_same (l <| writing := ∅ |>) (writing l) (map_to_list (writing l)).*1)
    as (_ & _ & Hp & Hw & _ & Hu & _). unfold unconfirm_all in *. simpl in *. auto.
Qed.

Lemma finished_step l now :
  writer l = Finished -> pending l = ∅ -> writer_step l now = l <| writer := Idle |>.
Proof.
  intros Hw Hp. unfold writer_step. rewrite Hw. unfold _write_finished, _start_write. cbn.
  rewrite Hp. cbn. by rewrite orb_true_r.
Qed.

(** One write of a scheduled writer: everything pending is gone after it. *)
Lemma flush_write l remaining now :
  writer l = Scheduled -> 0 < remaining ->
  exists l', flush 4 l remaining now = (l', Some true) /\
    pending l' = ∅ /\ (writing l = ∅ -> writing l' = ∅) /\ unknown l' = unknown l /\ writer l' = Idle.
Proof.
  intros Hw Hr. rewrite flush_wait by (rewrite ?Hw; done).
  assert (writer_step l now = write_begin l true) as -> by (unfold writer_step; by rewrite Hw).
  unfold write_begin. cbn [negb]. case_bool_decide as Hp.
  - rewrite flush_wait, finished_step by done.
    rewrite flush_empty by done. eexists. split; [done|]. simpl. auto.
  - set (l1 := _ <| writer := Writing |>).
    rewrite flush_wait by done. change (writer_step l1 now) with (write_end l1 AtomicApplied now).
    destruct (applied_end l1 now) as (E1 & E2 & E3 & E4).
    set (l2 := write_end l1 AtomicApplied now) in *.
    rewrite flush_wait by (rewrite ?E4; done).
    rewrite finished_step by done.
    rewrite flush_empty by done. eexists. split; [done|]. simpl. auto.
Qed.

(** An idle writer: the retry is cut short, and one write carries everything. *)
Lemma flush_idle l remaining now :
  writer l = Idle -> 0 < remaining ->
  exists l', flush 6 l remaining now = (l', Some true) /\
    pending l' = ∅ /\ (writing l = ∅ -> writing l' = ∅) /\ unknown l' = unknown l /\ writer l' = Idle.
Proof.
  intros Hw Hr. destruct (decide (pending l = ∅)) as [Hp|Hp].
  { rewrite flush_empty by done. eauto 10. }
  assert (forall l fuel, writer l = Idle -> pending l <> ∅ -> retry l = false ->
    flush (S fuel) l remaining now = flush fuel (l <| writer := Scheduled |>) remaining now) as Hgo.
  { intros x fuel Hx Hpx Hrx. cbn [flush]. unfold flush_step, _start_write.
    rewrite !(bool_decide_eq_true_2 (writer x = Idle)), Hrx by done.
    rewrite (bool_decide_eq_false_2 (pending x = ∅)), time_left by done. done. }
  destruct (retry l) eqn:Er.
  - assert (flush 6 l remaining now = flush 5 (l <| retry := false |>) remaining now) as ->.
    { change 6%nat with (S 5). cbn [flush]. unfold flush_step. rewrite Hw, Er. cbn [negb].
      rewrite (bool_decide_eq_false_2 (pending l = ∅)), time_left by done. done. }
    rewrite Hgo by done. exact (flush_write (l <| retry := false |> <| writer := Scheduled |>) remaining now eq_refl Hr).
  - rewrite Hgo by done. destruct (flush_write (l <| writer := Scheduled |>) remaining now) as (l' & E & H');
      [done|exact Hr|]. exists l'. split; [|exact H']. exact (flush_more 4 1 _ _ _ (l', true) E).
Qed.

Lemma flush_finished l remaining now :
  writer l = Finished -> 0 < remaining ->
  exists l', flush 7 l remaining now = (l', Some true) /\
    pending l' = ∅ /\ (writing l = ∅ -> writing l' = ∅) /\ unknown l' = unknown l /\ writer l' = Idle.
Proof.
  intros Hw Hr. change 7%nat with (S 6). rewrite flush_wait by (rewrite ?Hw; done).
  unfold writer_step. rewrite Hw. unfold _write_finished.
  set (l1 := l <| writer := Idle |>).
  destruct (start_write_same l1 true) as [->|[_ ->]];
    [exact (flush_idle l1 remaining now eq_refl Hr)|].
  destruct (flush_write (l1 <| writer := Scheduled |>) remaining now) as (l' & E & H'); [done..|].
  exists l'. split; [exact (flush_more 4 2 _ _ _ (l', true) E)|exact H'].
Qed.

(** flushing drains.  With a store that applies what it is given, time
    left and nobody recording meanwhile, [flush] returns [True] within ten
    passes from any state of any run -- a write scheduled, in flight or just
    finished, a failed one waiting out its back-off -- and then nothing is
    pending or being written: what stays unwritten is exactly what was already
    of unknown outcome. *)
Theorem flush_drains t0 ops remaining now :
  0 < remaining ->
  let l := led (world_run (new_world t0) ops) in
  exists l', flush 10 l remaining now = (l', Some true) /\
    writer l' = Idle /\ pending l' = ∅ /\ writing l' = ∅ /\ unknown l' = unknown l.
Proof.
  intros Hr l. pose proof (w_writing _ (world_run_wf t0 ops)) as Hwr. fold l in Hwr.
  destruct (writer l) eqn:Hw.
  - destruct (flush_idle l remaining now Hw Hr) as (l' & E & H1 & H2 & H3 & H4).
    exists l'. split; [exact (flush_more 6 4 _ _ _ (l', true) E)|]. split_and!; auto.
  - destruct (flush_write l remaining now Hw Hr) as (l' & E & H1 & H2 & H3 & H4).
    exists l'. split; [exact (flush_more 4 6 _ _ _ (l', true) E)|]. split_and!; auto.
  - destruct (applied_end l now) as (E1 & E2 & E3 & E4).
    destruct (flush_finished (write_end l AtomicApplied now) remaining now E4 Hr)
      as (l' & E & H1 & H2 & H3 & H4).
    exists l'. change 10%nat with (S 9). rewrite flush_wait by (rewrite ?Hw; done).
    unfold writer_step. rewrite Hw.
    split; [exact (flush_more 7 2 _ _ _ (l', true) E)|]. rewrite <- E3. auto.
  - destruct (flush_finished l remaining now Hw Hr) as (l' & E & H1 & H2 & H3 & H4).
    exists l'. split; [exact (flush_more 7 3 _ _ _ (l', true) E)|]. split_and!; auto.
Qed.

(** ** Rounding *)

(** Each cost is written as the counter's own rounding of it.  The amount
    a cost adds to a counter is a whole number of millionths of a dollar, at
    most half a millionth away from the cost, and half a millionth rounds away
    from zero, for costs of either sign. *)
Theorem counted_amount_rounds c :
  (exists m : Z, counted_amount c == m # 1000000) /\
  -(1 # 2000000) <= counted_amount c - c <= 1 # 2000000 /\
  (0 <= c -> -(1 # 2000000) < counted_amount c - c) /\
  (c < 0 -> counted_amount c - c < 1 # 2000000).
Proof.
  assert (forall q, let m := ((2 * Qnum q * 1000000 + Zpos (Qden q)) / (2 * Zpos (Qden q)))%Z in
    -(1 # 2000000) < (m # 1000000) - q /\ (m # 1000000) - q <= 1 # 2000000) as Hm.
  { intros [n d] m. simpl in m.
    pose proof (Z.div_mod (2 * n * 1000000 + Zpos d) (2 * Zpos d) ltac:(lia)) as Hd.
    pose proof (Z.mod_pos_bound (2 * n * 1000000 + Zpos d) (2 * Zpos d) ltac:(lia)) as Hb.
    fold m in Hd. unfold Qlt, Qle, Qminus, Qplus, Qopp; cbn [Qnum Qden].
    rewrite !Pos2Z.inj_mul. split; lia. }
  unfold counted_amount. case_bool_decide as Hc.
  - destruct (Hm (- c)) as [H1 H2].
    set (m := ((2 * Qnum (- c) * 1000000 + Zpos (Qden (- c))) / (2 * Zpos (Qden (- c))))%Z) in *.
    assert ((- m)%Z # 1000000 == - (m # 1000000)) as E by reflexivity.
    split_and!; [by eexists| | | |]; try rewrite E; intros; lra.
  - destruct (Hm c) as [H1 H2]. split_and!; [by eexists|lra|lra|done|done].
Qed.

(** ** Witnesses *)

Definition day1 : string := "2026-08-01".
Definition demo_check : spend_check :=
  SpendCheck "u" (Some 7%Z) 10 (Limits 1000 None (Some 5) None) (Spent 0 0 0 0).
Definition demo_ops : list ledger_op :=
  [LRecord "u" (1 # 2) (Some 7%Z) day1 true; LWriteBegin; LWriteEnd AtomicFailed 3;
   LAdmit day1 4 demo_check (1 # 100)].

Lemma gate_counts_everything_witness :
  let w := world_run (new_world 0) demo_ops in
  51 # 100 <= spent_of (spent_add (check_spent demo_check)
    (_extra (led w) day1 "u" (Some 7%Z) 10 11).2) ScopeKey WindowDay.
Proof.
  refine (Qle_trans _ _ _ _ (gate_counts_everything 0 demo_ops day1 11 demo_check ScopeKey WindowDay _ _ _));
    vm_compute; discriminate.
Defined.

Lemma admission_within_limits_witness :
  let w := world_run (new_world 0) demo_ops in
  rec_sum "u" (counts_for day1 (Some 7%Z) ScopeKey WindowDay) (recorded w) +
    reserved_for (world_step w (LAdmit day1 11 demo_check (1 # 100))) demo_check ScopeKey <= 5.
Proof.
  apply (admission_within_limits 0 demo_ops day1 11 demo_check (1 # 100)
    (Reservation "u" (Some 7%Z) (1 # 100) true)
    (ledger_admit (led (world_run (new_world 0) demo_ops)) day1 11 demo_check (1 # 100)).1);
    try (vm_compute; discriminate).
  - split; vm_compute; discriminate.
  - vm_compute; reflexivity.
  - reflexivity.
Defined.

Lemma flush_drains_witness :
  let l := led (world_run (new_world 0) demo_ops) in
  bool_decide (pending l = ∅) = false /\
  exists l', flush 10 l 5 20 = (l', Some true) /\
    writer l' = Idle /\ pending l' = ∅ /\ writing l' = ∅ /\ unknown l' = unknown l.
Proof.
  split; [vm_compute; reflexivity|]. apply (flush_drains 0 demo_ops 5 20). reflexivity.
Defined.
