(* ===== verification/PrefillLoad.v ===== *)
(** In-flight prefill per endpoint: [routing/prefill_load.py].

    The tracker's accounting of leases, the memory of completed prompts that
    discounts a warm continuation, the prompt anchors that prove one prompt
    contains another, the weighted draw and the choice between two of them.
    Sizing a JSON prompt and cutting it into units is not modelled: a prompt is
    its estimated tokens and its list of prefix units.  Clock readings and the
    random draws are arguments. *)

From S2P Require Import Prelude PyText.

Local Open Scope Z_scope.

(** ** Settings *)

(** The [ROUTING_PREFILL_*] and [ROUTING_PRIORITY_*] settings. *)
Record tuning : Type := Tuning {
  PREFILL_AWARE_ENABLED : bool;
  ELEPHANT_TOKENS : Z;
  ELEPHANT_LIMIT : Z;
  INTERVENE_TOKENS : Z;
  AFFINITY_BACKLOG_CEILING : Z;
  PRIORITY_INTERACTIVE : Z;
  PRIORITY_LARGE : Z;
  PRIORITY_ELEPHANT : Z;
  _PREFIX_HINT_TTL_SEC : Q
}.

Definition default_tuning : tuning := Tuning true 200000 1 50000 150000 20 15 0 1200.

Definition _PREFIX_HINT_MAX_ENTRIES : Z := 50000.

(** [elephant_tokens], [elephant_limit], for a tracker that follows the settings. *)
Definition elephant_tokens (s : tuning) : Z := Z.max (ELEPHANT_TOKENS s) 1.
Definition elephant_limit (s : tuning) : Z := Z.max (ELEPHANT_LIMIT s) 1.

(** [is_elephant] *)
Definition is_elephant (s : tuning) (tokens : Z) : bool := bool_decide (elephant_tokens s <= tokens).

(** [priority_for_prefill] *)
Definition priority_for_prefill (s : tuning) (tokens : Z) : Z :=
  if bool_decide (ELEPHANT_TOKENS s <= tokens) then PRIORITY_ELEPHANT s
  else if bool_decide (INTERVENE_TOKENS s <= tokens) then PRIORITY_LARGE s
  else PRIORITY_INTERACTIVE s.

(** ** Anchors *)

(** [hashlib.blake2b] of the UTF-8 encoding of a text, in hex. *)
Class Blake2b := digest : chars -> string.

(** [prompt_anchor], over the units [_prefix_units] yields. *)
Definition prompt_anchor `{Blake2b} (units : list chars) : option (Z * string) :=
  let length_ := Z.of_nat (length (concat units)) in
  if bool_decide (length_ = 0) then None else Some (length_, digest (concat units)).

(** The loop of [_anchor_holds]: what it feeds the digest. *)
Fixpoint anchor_take (room : nat) (units : list chars) : chars :=
  match units with
  | [] => []
  | u :: rest =>
      match room with
      | O => []
      | _ => let piece := take room u in piece ++ anchor_take (room - length piece) rest
      end
  end.

(** [_anchor_holds] *)
Definition _anchor_holds `{Blake2b} (units : list chars) (anchor : Z * string) : bool :=
  let '(length_, expected) := anchor in
  if bool_decide (length_ <= 0) then false
  else
    let seen := anchor_take (Z.to_nat length_) units in
    bool_decide (Z.of_nat (length seen) = length_) && bool_decide (digest seen = expected).

(** ** State *)

(** [_PrefixHint] *)
Record prefix_hint : Type := PrefixHint {
  hint_tokens : Z;
  hint_expires_at : Q;
  hint_fingerprint : option string;
  hint_anchor : option (Z * string)
}.

(** [PrefillLease] *)
Record prefill_lease : Type := PrefillLease {
  lease_endpoint : string;
  lease_tokens : Z;
  lease_elephant : bool;
  lease_caller : option string;
  lease_released : bool;
  lease_prompt : Z;
  lease_fingerprint : option string;
  lease_anchor : option (Z * string)
}.
#[export] Instance eta_prefill_lease : Eta prefill_lease := fun l =>
  PrefillLease (lease_endpoint l) (lease_tokens l) (lease_elephant l) (lease_caller l)
    (lease_released l) (lease_prompt l) (lease_fingerprint l) (lease_anchor l).

(** [PrefillLoadTracker]; the hints are an [OrderedDict], oldest first. *)
Record tracker : Type := Tracker {
  backlog : gmap string Z;
  elephants : gmap string Z;
  by_caller : gmap (string * string) Z;
  prefix_hints : list ((string * string) * prefix_hint);
  hint_callers : gmap string (gset string)
}.
#[export] Instance eta_tracker : Eta tracker := fun t =>
  Tracker (backlog t) (elephants t) (by_caller t) (prefix_hints t) (hint_callers t).

Definition new_tracker : tracker := Tracker ∅ ∅ ∅ [] ∅.

(** [dict.get(k, 0)] *)
Definition get0 `{Countable K} (m : gmap K Z) (k : K) : Z := default 0 (m !! k).

(** [if rest > 0: m[k] = rest else: m.pop(k, None)] *)
Definition put_or_pop `{Countable K} (m : gmap K Z) (k : K) (rest : Z) : gmap K Z :=
  if bool_decide (0 < rest) then <[k := rest]> m else delete k m.

Definition hint_for (t : tracker) (k : string * string) : option prefix_hint :=
  snd <$> head (filter (fun e => e.1 = k) (prefix_hints t)).

(** ** Operations *)

Section tracker.
Context `{Blake2b} (s : tuning).

(** [uncached_estimate] *)
Definition uncached_estimate (t : tracker) (now : Q) (endpoint_id : string) (tokens : Z)
    (caller fingerprint : option string) (messages : option (list chars)) : Z :=
  let total := Z.max tokens 0 in
  match caller with
  | None => total
  | Some a =>
      match hint_for t (a, endpoint_id) with
      | None => total
      | Some hint =>
          if bool_decide (hint_expires_at hint <= now)%Q then total
          else if bool_decide (is_Some fingerprint)
                  && negb (bool_decide (fingerprint = hint_fingerprint hint)) then total
          else if match messages with
                  | None => false
                  | Some units =>
                      negb match hint_anchor hint with
                           | Some a => _anchor_holds units a
                           | None => false
                           end
                  end then total
          else Z.max (total - hint_tokens hint) 0
      end
  end.

(** [acquire] *)
Definition prefill_acquire (t : tracker) (now : Q) (endpoint_id : string) (tokens : Z)
    (caller fingerprint : option string) (anchor : option (Z * string)) :
    tracker * prefill_lease :=
  let total := Z.max tokens 0 in
  let charged := uncached_estimate t now endpoint_id total caller None None in
  let gated := uncached_estimate t now endpoint_id total caller fingerprint None in
  let elephant := is_elephant s gated in
  let t := t <| backlog := <[endpoint_id := get0 (backlog t) endpoint_id + charged]> (backlog t) |> in
  let t := if elephant
           then t <| elephants := <[endpoint_id := get0 (elephants t) endpoint_id + 1]> (elephants t) |>
           else t in
  let t := match caller with
           | Some a => t <| by_caller := <[(endpoint_id, a) := get0 (by_caller t) (endpoint_id, a) + charged]>
                                            (by_caller t) |>
           | None => t
           end in
  (t, PrefillLease endpoint_id charged elephant caller false total fingerprint anchor).

(** The caller of an evicted hint leaves the index. *)
Definition discard_caller (m : gmap string (gset string)) (k : string * string) :
    gmap string (gset string) :=
  match m !! k.2 with
  | None => m
  | Some callers =>
      let callers := callers ∖ {[k.1]} in
      if bool_decide (callers = ∅) then delete k.2 m else <[k.2 := callers]> m
  end.

(** The eviction loop of [_remember_prompt_locked]. *)
Fixpoint evict (hints : list ((string * string) * prefix_hint)) (m : gmap string (gset string)) :
    list ((string * string) * prefix_hint) * gmap string (gset string) :=
  match hints with
  | x :: rest =>
      if bool_decide (_PREFIX_HINT_MAX_ENTRIES < Z.of_nat (length hints))
      then evict rest (discard_caller m x.1) else (hints, m)
  | [] => ([], m)
  end.

(** [_remember_prompt_locked] *)
Definition _remember_prompt (t : tracker) (caller endpoint_id : string) (hint : prefix_hint) :
    tracker :=
  let k := (caller, endpoint_id) in
  let hints := filter (fun e => e.1 <> k) (prefix_hints t) ++ [(k, hint)] in
  let callers := <[endpoint_id := {[caller]} ∪ default ∅ (hint_callers t !! endpoint_id)]>
                   (hint_callers t) in
  let '(hints, callers) := evict hints callers in
  t <| prefix_hints := hints |> <| hint_callers := callers |>.

(** [forget_endpoint] *)
Definition forget_endpoint (t : tracker) (endpoint_id : string) : tracker :=
  let callers := default ∅ (hint_callers t !! endpoint_id) in
  t <| hint_callers := delete endpoint_id (hint_callers t) |>
    <| prefix_hints := filter (fun e => ~ (e.1.2 = endpoint_id /\ e.1.1 ∈ callers)) (prefix_hints t) |>.

(** The hint a confirmed lease leaves. *)
Definition hint_of (l : prefill_lease) (now : Q) : prefix_hint :=
  PrefixHint (lease_prompt l) (now + _PREFIX_HINT_TTL_SEC s)%Q (lease_fingerprint l) (lease_anchor l).

(** [release] *)
Definition prefill_release (t : tracker) (now : Q) (l : prefill_lease) (prefill_confirmed : bool) :
    tracker * prefill_lease :=
  if lease_released l then (t, l)
  else
    let ep := lease_endpoint l in
    let t := match lease_caller l with
             | Some a => if prefill_confirmed then _remember_prompt t a ep (hint_of l now) else t
             | None => t
             end in
    let t := t <| backlog := put_or_pop (backlog t) ep (get0 (backlog t) ep - lease_tokens l) |> in
    let t := if lease_elephant l
             then t <| elephants := put_or_pop (elephants t) ep (get0 (elephants t) ep - 1) |>
             else t in
    let t := match lease_caller l with
             | Some a => t <| by_caller := put_or_pop (by_caller t) (ep, a)
                                             (get0 (by_caller t) (ep, a) - lease_tokens l) |>
             | None => t
             end in
    (t, l <| lease_released := true |>).

(** [should_keep_affinity] *)
Definition should_keep_affinity (t : tracker) (endpoint_id : string) (caller : option string) : bool :=
  if negb (PREFILL_AWARE_ENABLED s) then true
  else
    let total := get0 (backlog t) endpoint_id in
    let own := match caller with Some a => get0 (by_caller t) (endpoint_id, a) | None => 0 end in
    bool_decide (total - own <= AFFINITY_BACKLOG_CEILING s).

End tracker.

(** ** The draw *)

Definition weight_at (weights : list Q) (i : nat) : Q := py_max (default 0%Q (weights !! i)) 0.

Definition weight_sum (weights : list Q) (l : list nat) : Q :=
  foldr (fun i acc => weight_at weights i + acc)%Q 0%Q l.

(** The loop of [_weighted_pick]: the first index whose cumulative weight
    reaches the threshold, else the last. *)
Fixpoint pick_from (weights : list Q) (threshold cumulative : Q) (l : list nat) (last : nat) : nat :=
  match l with
  | [] => last
  | i :: rest =>
      let cumulative := (cumulative + weight_at weights i)%Q in
      if bool_decide (threshold <= cumulative)%Q then i
      else pick_from weights threshold cumulative rest last
  end.

(** [_weighted_pick], for a draw [r] of [random.random]. *)
Definition _weighted_pick (eligible : list nat) (weights : list Q) (r : Q) : nat :=
  let last_ := default 0%nat (last eligible) in
  let total := weight_sum weights eligible in
  if bool_decide (total <= 0)%Q then last_
  else pick_from weights (r * total)%Q 0%Q eligible last_.

Section draw.
Context `{Blake2b} (s : tuning).

(** The candidates [select_index] draws from. *)
Definition drawn_from (t : tracker) (now : Q) (keys : list string) (tokens : Z)
    (caller avoid fingerprint : option string) : list nat :=
  let all := seq 0 (length keys) in
  let eligible :=
    match avoid with
    | None => all
    | Some a =>
        match filter (fun i => keys !! i <> Some a) all with
        | [] => all
        | remaining => remaining
        end
    end in
  if negb (PREFILL_AWARE_ENABLED s) then eligible
  else
    let key i := default ""%string (keys !! i) in
    let elephant_here i :=
      is_elephant s (uncached_estimate t now (key i) tokens caller fingerprint None) in
    if existsb elephant_here eligible then
      match filter (fun i => elephant_here i = false \/
                             get0 (elephants t) (key i) < elephant_limit s) eligible with
      | [] => eligible
      | unsaturated => unsaturated
      end
    else eligible.

(** [select_index], with the two draws it may make; [None] is its [ValueError]. *)
Definition select_index (t : tracker) (now : Q) (keys : list string) (weights : list Q) (tokens : Z)
    (r1 r2 : Q) (caller avoid fingerprint : option string) : option nat :=
  match keys with
  | [] => None
  | [_] => Some 0%nat
  | _ =>
      let eligible := drawn_from t now keys tokens caller avoid fingerprint in
      let first := _weighted_pick eligible weights r1 in
      if negb (PREFILL_AWARE_ENABLED s) then Some first
      else
        let second := _weighted_pick eligible weights r2 in
        if bool_decide (first = second) then Some first
        else
          let load i := get0 (backlog t) (default ""%string (keys !! i)) in
          if bool_decide (Z.max (load first) (load second) < INTERVENE_TOKENS s) then Some first
          else Some (if bool_decide (load first <= load second) then first else second)
  end.

End draw.

(** ** What a draw picks *)

Lemma weight_at_nonneg weights i : (0 <= weight_at weights i)%Q.
Proof. unfold weight_at. apply py_max_spec. Qed.

Lemma weight_sum_nonneg weights l : (0 <= weight_sum weights l)%Q.
Proof.
  induction l as [|i l IH]; simpl; [lra|]. pose proof (weight_at_nonneg weights i). lra.
Qed.

Lemma weight_sum_app weights l l' :
  (weight_sum weights (l ++ l') == weight_sum weights l + weight_sum weights l')%Q.
Proof. induction l as [|i l IH]; simpl; [lra|]. rewrite IH. lra. Qed.

Lemma pick_from_in weights th c l last :
  l <> [] -> (th <= c + weight_sum weights l)%Q -> pick_from weights th c l last ∈ l.
Proof.
  revert c; induction l as [|i l IH]; intros c Hne Hth; [done|]. simpl in *.
  case_bool_decide as Hle; [set_solver|].
  destruct l as [|j l]; [simpl in Hth; exfalso; apply Hle; lra|].
  apply elem_of_cons. right. apply IH; [done|]. simpl in *. lra.
Qed.

Lemma weighted_pick_in eligible weights r :
  eligible <> [] -> (r <= 1)%Q -> _weighted_pick eligible weights r ∈ eligible.
Proof.
  intros Hne Hr. unfold _weighted_pick. case_bool_decide as Ht.
  - destruct (last eligible) as [x|] eqn:E; [by apply last_Some_elem_of|].
    by apply last_None in E.
  - apply pick_from_in; [done|]. nra.
Qed.

Lemma pick_from_split weights th c pre i post last :
  NoDup (pre ++ i :: post) -> (th <= c + weight_sum weights (pre ++ i :: post))%Q ->
  pick_from weights th c (pre ++ i :: post) last = i <->
  (pre = [] \/ (c + weight_sum weights pre < th)%Q) /\
  (th <= c + weight_sum weights pre + weight_at weights i)%Q.
Proof.
  revert c; induction pre as [|x pre IH]; intros c Hnd Hth; simpl in *.
  - apply NoDup_cons in Hnd as [Hi Hnd]. case_bool_decide as Hle.
    + split; [intros _; split; [by left|lra]|done].
    + destruct post as [|y post]; [simpl in Hth; exfalso; apply Hle; lra|].
      split; [|intros [_ H']; exfalso; apply Hle; lra].
      intros E. exfalso. apply Hi. rewrite <- E at 1. apply pick_from_in; [done|]. lra.
  - apply NoDup_cons in Hnd as [Hx Hnd]. pose proof (weight_sum_nonneg weights pre).
    case_bool_decide as Hle.
    + split; [intros ->; set_solver|]. intros [[?|Hlt] _]; [done|]. lra.
    + rewrite IH by (done || lra). split; intros [Hl Hr]; split; try lra.
      * right. destruct Hl as [->|Hl]; simpl; lra.
      * destruct Hl as [?|Hl]; [done|]. right. lra.
Qed.

(** The draw is proportional to the weights: for a random number [r] in [0, 1],
    candidate [i] is drawn exactly when [r] times the total falls in [i]'s own
    stretch of the cumulative weights, whose length is [i]'s weight. *)
Lemma weighted_pick_proportional pre i post weights r :
  NoDup (pre ++ i :: post) -> (0 <= r <= 1)%Q -> (0 < weight_sum weights (pre ++ i :: post))%Q ->
  let x := (r * weight_sum weights (pre ++ i :: post))%Q in
  _weighted_pick (pre ++ i :: post) weights r = i <->
  (pre = [] \/ (weight_sum weights pre < x)%Q) /\
  (x <= weight_sum weights pre + weight_at weights i)%Q.
Proof.
  intros Hnd Hr Hw x. unfold _weighted_pick. rewrite bool_decide_eq_false_2 by lra.
  rewrite pick_from_split by (done || nra). fold x.
  split; intros [H1 H2]; (split; [destruct H1; [by left|right; lra]|lra]).
Qed.

Section select.
Context `{Blake2b} (s : tuning).

(** The candidates left once the endpoint to avoid is dropped, if any are. *)
Definition not_avoided (keys : list string) (avoid : option string) (i : nat) : Prop :=
  (i < length keys)%nat /\
  (keys !! i <> avoid \/ avoid = None \/ forall j k, keys !! j = Some k -> Some k = avoid).

Lemma avoid_step keys avoid (l := seq 0 (length keys)) :
  keys <> [] ->
  let eligible := match avoid with
                  | None => l
                  | Some a => match filter (fun i => keys !! i <> Some a) l with
                              | [] => l
                              | remaining => remaining
                              end
                  end in
  eligible <> [] /\ forall i, i ∈ eligible <-> not_avoided keys avoid i.
Proof.
  intros Hne. assert (forall i, i ∈ l <-> (i < length keys)%nat) as Hl.
  { intros i. subst l. rewrite elem_of_seq. lia. }
  assert (l <> []) as Hl0 by (by destruct keys). unfold not_avoided.
  destruct avoid as [a|]; simpl; [|split; [done|intros i; rewrite Hl; naive_solver]].
  destruct (filter _ l) as [|x rest] eqn:E.
  - split; [done|]. intros i. rewrite Hl. split; [|naive_solver]. intros Hi. split; [done|].
    right; right. intros j k Hj. apply dec_stable. intros Hk.
    assert (j ∈ filter (fun i => keys !! i <> Some a) l) as Hin; [|rewrite E in Hin; set_solver].
    apply list_elem_of_filter. split; [congruence|]. apply Hl. by apply lookup_lt_Some in Hj.
  - split; [done|]. intros i. rewrite <- E, list_elem_of_filter, Hl.
    assert (exists j k, keys !! j = Some k /\ Some k <> Some a) as (j & k & Hj & Hk).
    { assert (x ∈ filter (fun i => keys !! i <> Some a) l) as Hx by (rewrite E; set_solver).
      apply list_elem_of_filter in Hx as [Hx Hlt]. apply Hl in Hlt.
      destruct (keys !! x) as [k|] eqn:Ek; [eauto|]. apply lookup_ge_None in Ek. lia. }
    split; [naive_solver|]. intros [Hi [?|[?|Hall]]]; [done|done|]. exfalso. eauto.
Qed.

Definition at_limit (t : tracker) (now : Q) (keys : list string) (tokens : Z)
    (caller fingerprint : option string) (i : nat) : Prop :=
  let key := default ""%string (keys !! i) in
  is_elephant s (uncached_estimate t now key tokens caller fingerprint None) = true /\
  elephant_limit s <= get0 (elephants t) key.

Lemma drawn_from_spec t now keys tokens caller avoid fp :
  keys <> [] ->
  let l := drawn_from s t now keys tokens caller avoid fp in
  l <> [] /\ (forall i, i ∈ l -> not_avoided keys avoid i) /\
  (PREFILL_AWARE_ENABLED s = true -> forall i, i ∈ l -> at_limit t now keys tokens caller fp i ->
     forall j, not_avoided keys avoid j -> at_limit t now keys tokens caller fp j).
Proof.
  intros Hne. destruct (avoid_step keys avoid Hne) as [H0 H1]. unfold drawn_from.
  set (eligible := match avoid with None => _ | Some a => _ end) in *. cbv zeta.
  destruct (PREFILL_AWARE_ENABLED s); cbn [negb]; [|split_and!; [done|by intros i Hi; apply H1|done]].
  set (here := fun i => is_elephant s _).
  assert (forall l : list nat, existsb here l = false -> forall i, i ∈ l -> here i = false) as Hex.
  { induction l as [|x l IH]; intros He i Hi; [set_solver|]. simpl in He.
    apply orb_false_iff in He as [? ?]. apply elem_of_cons in Hi as [->|?]; auto. }
  destruct (existsb here eligible) eqn:E.
  - destruct (filter _ eligible) as [|x rest] eqn:F.
    + split_and!; [done|by intros x Hx; apply H1|]. intros _ i Hi _ j Hj. apply H1 in Hj.
      destruct (decide (here j = false \/
        get0 (elephants t) (default ""%string (keys !! j)) < elephant_limit s)) as [Hd|Hd].
      * exfalso. assert (j ∈ []) as Hin by (rewrite <- F; by apply list_elem_of_filter). set_solver.
      * split; [|lia]. fold (here j). destruct (here j); naive_solver.
    + split_and!; [done| |].
      * intros i Hi. rewrite <- F in Hi. apply list_elem_of_filter in Hi as [_ Hi]. by apply H1.
      * intros _ i Hi [Ha Hb]. rewrite <- F in Hi. exfalso.
        apply list_elem_of_filter in Hi as [[Hi|Hi] _]; [|lia].
        cbv zeta in Ha. rewrite Hi in Ha. done.
  - split_and!; [done|by intros x Hx; apply H1|]. intros _ i Hi [Ha _]. exfalso.
    specialize (Hex _ E i Hi). unfold here in Hex. congruence.
Qed.

(** Which of its two draws [select_index] returns. *)
Lemma select_index_cases t now keys weights tokens r1 r2 caller avoid fp :
  keys <> [] -> (r1 <= 1)%Q -> (r2 <= 1)%Q ->
  let l := drawn_from s t now keys tokens caller avoid fp in
  let draw := _weighted_pick l weights in
  let load j := get0 (backlog t) (default ""%string (keys !! j)) in
  exists i, select_index s t now keys weights tokens r1 r2 caller avoid fp = Some i /\ i ∈ l /\
    (i = draw r1 \/
     (PREFILL_AWARE_ENABLED s = true /\ i = draw r2 /\
      INTERVENE_TOKENS s <= load (draw r1) /\ load i < load (draw r1))).
Proof.
  intros Hne H1 H2 l draw load.
  destruct (drawn_from_spec t now keys tokens caller avoid fp Hne) as (D0 & D1 & _). fold l in D0, D1.
  pose proof (weighted_pick_in l weights r1 D0 H1) as P1.
  pose proof (weighted_pick_in l weights r2 D0 H2) as P2. fold (draw r1) in P1. fold (draw r2) in P2.
  destruct (decide (length keys = 1%nat)) as [Hone|Hmore].
  - assert (draw r1 = 0%nat) as E0 by (destruct (D1 _ P1) as [Hi _]; lia).
    exists 0%nat. rewrite <- E0. split_and!; [|done|by left]. rewrite E0.
    by destruct keys as [|k [|]].
  - assert (select_index s t now keys weights tokens r1 r2 caller avoid fp =
      if negb (PREFILL_AWARE_ENABLED s) then Some (draw r1)
      else if bool_decide (draw r1 = draw r2) then Some (draw r1)
      else if bool_decide (Z.max (load (draw r1)) (load (draw r2)) < INTERVENE_TOKENS s)
      then Some (draw r1)
      else Some (if bool_decide (load (draw r1) <= load (draw r2)) then draw r1 else draw r2)) as ->
      by (subst l draw load; destruct keys as [|k [|]]; done).
    destruct (PREFILL_AWARE_ENABLED s); cbn [negb]; [|by eauto].
    case_bool_decide; [by eauto|]. case_bool_decide; [by eauto|]. case_bool_decide; [by eauto|].
    exists (draw r2). split_and!; [done..|]. right. split_and!; auto; lia.
Qed.

(** An automatic pick lands where it should.  A draw over one or more
    candidates always yields one of them: not the endpoint the caller was just
    moved off, if there is any other; not an endpoint that already prefills its
    limit of mega-prompts, when this prompt would be one there, unless every
    candidate left is in that state; and it departs from the plain weighted draw
    only to leave an endpoint whose backlog has reached the intervention floor
    for one with less. *)
Theorem select_index_correct t now keys weights tokens r1 r2 caller avoid fp :
  keys <> [] -> (r1 <= 1)%Q -> (r2 <= 1)%Q ->
  exists i, select_index s t now keys weights tokens r1 r2 caller avoid fp = Some i /\
    not_avoided keys avoid i /\
    (PREFILL_AWARE_ENABLED s = true -> at_limit t now keys tokens caller fp i ->
       forall j, not_avoided keys avoid j -> at_limit t now keys tokens caller fp j) /\
    let draw := _weighted_pick (drawn_from s t now keys tokens caller avoid fp) weights in
    let load j := get0 (backlog t) (default ""%string (keys !! j)) in
    i = draw r1 \/
    (PREFILL_AWARE_ENABLED s = true /\ i = draw r2 /\
     INTERVENE_TOKENS s <= load (draw r1) /\ load i < load (draw r1)).
Proof.
  intros Hne H1 H2. destruct (drawn_from_spec t now keys tokens caller avoid fp Hne) as (_ & D1 & D2).
  destruct (select_index_cases t now keys weights tokens r1 r2 caller avoid fp Hne H1 H2)
    as (i & Hs & Hi & Hc).
  exists i. split_and!; [exact Hs|by apply D1|intros Ha Hl; by eapply D2|exact Hc].
Qed.

End select.

(** ** Executions

    Leases are objects their holders share, so they live in a list; an operation
    names one by its position.  [evidence] records what a discount may rest on:
    the confirmed prefills, less those of endpoints forgotten since. *)

Record prefill_world : Type := PrefillWorld {
  trk : tracker;
  leases : list prefill_lease;
  evidence : list (prefill_lease * Q)
}.
#[export] Instance eta_prefill_world : Eta prefill_world := fun w =>
  PrefillWorld (trk w) (leases w) (evidence w).

Inductive prefill_op : Type :=
| PAcquire (now : Q) (endpoint_id : string) (tokens : Z) (caller fingerprint : option string)
    (anchor : option (Z * string))
| PAnchor (i : nat) (anchor : option (Z * string))     (* [lease.anchor = ...] *)
| PRelease (i : nat) (now : Q) (prefill_confirmed : bool)
| PForget (endpoint_id : string).

Section books.
Context `{Blake2b} (s : tuning).

Definition prefill_step (w : prefill_world) (o : prefill_op) : prefill_world :=
  match o with
  | PAcquire now ep tokens caller fp anchor =>
      let '(t, l) := prefill_acquire s (trk w) now ep tokens caller fp anchor in
      PrefillWorld t (leases w ++ [l]) (evidence w)
  | PAnchor i anchor =>
      w <| leases := alter (fun l => l <| lease_anchor := anchor |>) i (leases w) |>
  | PRelease i now confirmed =>
      match leases w !! i with
      | None => w
      | Some l =>
          let '(t, l') := prefill_release s (trk w) now l confirmed in
          PrefillWorld t (<[i := l']> (leases w))
            (if confirmed && negb (lease_released l) then evidence w ++ [(l, now)] else evidence w)
      end
  | PForget ep =>
      PrefillWorld (forget_endpoint (trk w) ep) (leases w)
        (filter (fun x => lease_endpoint x.1 <> ep) (evidence w))
  end.

Definition prefill_run (l : list prefill_op) : prefill_world :=
  fold_left prefill_step l (PrefillWorld new_tracker [] []).

(** A sum over the leases not given back. *)
Definition live_sum (f : prefill_lease -> Z) (ls : list prefill_lease) : Z :=
  foldr (fun l acc => (if lease_released l then 0 else f l) + acc) 0 ls.

Definition on_endpoint (ep : string) (l : prefill_lease) : Z :=
  if decide (lease_endpoint l = ep) then lease_tokens l else 0.
Definition elephant_on (ep : string) (l : prefill_lease) : Z :=
  if decide (lease_endpoint l = ep /\ lease_elephant l = true) then 1 else 0.
Definition of_caller (k : string * string) (l : prefill_lease) : Z :=
  if decide (lease_endpoint l = k.1 /\ lease_caller l = Some k.2) then lease_tokens l else 0.

Record books_ok (t : tracker) (ls : list prefill_lease) : Prop := {
  ok_backlog ep : get0 (backlog t) ep = live_sum (on_endpoint ep) ls;
  ok_elephants ep : get0 (elephants t) ep = live_sum (elephant_on ep) ls;
  ok_callers k : get0 (by_caller t) k = live_sum (of_caller k) ls;
  ok_tokens : Forall (fun l => 0 <= lease_tokens l) ls
}.

Lemma live_sum_app f a b : live_sum f (a ++ b) = live_sum f a + live_sum f b.
Proof. induction a as [|x a IH]; simpl; [done|]. rewrite IH. lia. Qed.

Lemma live_sum_nonneg f ls : (forall l, l ∈ ls -> 0 <= f l) -> 0 <= live_sum f ls.
Proof.
  induction ls as [|l ls IH]; intros Hf; simpl; [lia|].
  assert (0 <= f l) by (apply Hf; set_solver).
  assert (0 <= live_sum f ls) by (apply IH; intros; apply Hf; set_solver).
  destruct (lease_released l); lia.
Qed.

Lemma live_sum_insert f ls i l l' :
  ls !! i = Some l ->
  live_sum f (<[i := l']> ls) =
  live_sum f ls - (if lease_released l then 0 else f l) + (if lease_released l' then 0 else f l').
Proof.
  revert i; induction ls as [|x ls IH]; intros [|i] Hi; simplify_eq/=;
    rewrite ?(IH _ Hi); repeat case_match; lia.
Qed.

(** A lease not given back is part of its sum. *)
Lemma live_sum_le f ls i l :
  (forall x, x ∈ ls -> 0 <= f x) -> ls !! i = Some l -> lease_released l = false ->
  f l <= live_sum f ls.
Proof.
  intros Hf Hi Hr. revert i Hi. induction ls as [|x ls IH]; intros [|i] Hi; simplify_eq/=.
  - rewrite Hr. assert (0 <= live_sum f ls); [|lia].
    apply live_sum_nonneg. intros; apply Hf; set_solver.
  - assert (0 <= f x) by (apply Hf; set_solver).
    specialize (IH ltac:(intros; apply Hf; set_solver) i Hi). destruct (lease_released x); lia.
Qed.

Lemma get0_insert `{Countable K} (m : gmap K Z) k k' v :
  get0 (<[k := v]> m) k' = if decide (k = k') then v else get0 m k'.
Proof. unfold get0. rewrite lookup_insert. by case_decide. Qed.

Lemma get0_put `{Countable K} (m : gmap K Z) k k' v :
  0 <= v -> get0 (put_or_pop m k v) k' = if decide (k = k') then v else get0 m k'.
Proof.
  intros Hv. unfold put_or_pop. case_bool_decide; [apply get0_insert|].
  unfold get0. rewrite lookup_delete. case_decide; simpl; [lia|done].
Qed.

Lemma uncached_ge0 t now ep tokens caller fp ms :
  0 <= uncached_estimate t now ep tokens caller fp ms.
Proof. unfold uncached_estimate. repeat case_match; lia. Qed.

(** What [release] does to the accounts, apart from the hints. *)
Lemma release_accounts t now l c :
  lease_released l = false ->
  let t' := (prefill_release s t now l c).1 in
  let ep := lease_endpoint l in
  backlog t' = put_or_pop (backlog t) ep (get0 (backlog t) ep - lease_tokens l) /\
  elephants t' = (if lease_elephant l
                  then put_or_pop (elephants t) ep (get0 (elephants t) ep - 1) else elephants t) /\
  by_caller t' = match lease_caller l with
                 | Some a => put_or_pop (by_caller t) (ep, a) (get0 (by_caller t) (ep, a) - lease_tokens l)
                 | None => by_caller t
                 end.
Proof.
  intros Hr. unfold prefill_release. rewrite Hr. cbv zeta.
  assert (forall a e h, backlog (_remember_prompt t a e h) = backlog t /\
    elephants (_remember_prompt t a e h) = elephants t /\
    by_caller (_remember_prompt t a e h) = by_caller t) as Hrem.
  { intros a e h. unfold _remember_prompt. by destruct (evict _ _). }
  destruct (lease_caller l) as [a|], (lease_elephant l); cbn; try done;
    destruct c; cbn; try done;
    destruct (Hrem a (lease_endpoint l) (hint_of s l now)) as (-> & -> & ->); done.
Qed.

Lemma release_released t now l c :
  (prefill_release s t now l c).2 = l <| lease_released := true |> \/
  (prefill_release s t now l c) = (t, l) /\ lease_released l = true.
Proof. unfold prefill_release. destruct (lease_released l); [by right|by left]. Qed.

Lemma acquire_books t ls now ep tokens caller fp an :
  books_ok t ls ->
  let '(t', l) := prefill_acquire s t now ep tokens caller fp an in books_ok t' (ls ++ [l]).
Proof.
  intros [Hb He Hc Ht]. unfold prefill_acquire. cbv zeta.
  set (charged := uncached_estimate t now ep (Z.max tokens 0) caller None None).
  set (el := is_elephant s _). constructor.
  - intros ep'. rewrite live_sum_app. simpl. unfold on_endpoint at 2. simpl.
    rewrite <- Hb. destruct el, caller; cbn; rewrite get0_insert; repeat case_decide; subst; lia || done.
  - intros ep'. rewrite live_sum_app. simpl. unfold elephant_on at 2. simpl.
    rewrite <- He. destruct el, caller; cbn; rewrite ?get0_insert; repeat case_decide; subst;
      try tauto; try lia; naive_solver.
  - intros k. rewrite live_sum_app. simpl. unfold of_caller at 2. simpl.
    rewrite <- Hc. destruct el, caller as [a|]; cbn; rewrite ?get0_insert; destruct k as [ke ka]; simpl;
      repeat case_decide; simplify_eq/=; try lia; try tauto; naive_solver.
  - apply Forall_app. split; [done|]. repeat constructor. simpl. apply uncached_ge0.
Qed.

Lemma release_books t ls now i l c :
  books_ok t ls -> ls !! i = Some l ->
  let '(t', l') := prefill_release s t now l c in books_ok t' (<[i := l']> ls).
Proof.
  intros [Hb He Hc Ht] Hi. pose proof (release_accounts t now l c) as Ha.
  destruct (release_released t now l c) as [E|[E Hr]].
  2: { rewrite E. rewrite list_insert_id by done. by constructor. }
  destruct (lease_released l) eqn:Hr.
  { unfold prefill_release. rewrite Hr. rewrite list_insert_id by done. by constructor. }
  destruct (Ha eq_refl) as (Ab & Ae & Ac). clear Ha.
  destruct (prefill_release s t now l c) as [t' l']. cbn [fst snd] in *. subst l'.
  assert (forall x, x ∈ ls -> 0 <= lease_tokens x) as Hnn by (by apply Forall_forall).
  assert (forall f, (forall x, x ∈ ls -> 0 <= f x) -> f l <= live_sum f ls) as Hle
    by (intros f Hf; by eapply live_sum_le).
  constructor.
  - intros ep. rewrite (live_sum_insert _ _ _ _ _ Hi), Hr, Ab. simpl. rewrite get0_put.
    + rewrite <- Hb. unfold on_endpoint. repeat case_decide; subst; lia || done.
    + rewrite Hb. specialize (Hle (on_endpoint (lease_endpoint l))). unfold on_endpoint at 2 in Hle.
      rewrite decide_True in Hle by done. enough (lease_tokens l <= live_sum (on_endpoint (lease_endpoint l)) ls) by lia.
      apply Hle. intros x Hx. unfold on_endpoint. case_decide; [auto|lia].
  - intros ep. rewrite (live_sum_insert _ _ _ _ _ Hi), Hr, Ae. simpl. unfold elephant_on at 2.
    destruct (lease_elephant l) eqn:Hel.
    + rewrite get0_put.
      * rewrite <- He. repeat case_decide; subst; try tauto; lia.
      * rewrite He. specialize (Hle (elephant_on (lease_endpoint l))). unfold elephant_on at 2 in Hle.
        rewrite decide_True in Hle by done.
        enough (1 <= live_sum (elephant_on (lease_endpoint l)) ls) by lia.
        apply Hle. intros x Hx. unfold elephant_on. case_decide; lia.
    + rewrite <- He. case_decide; [naive_solver|lia].
  - intros [ke ka]. rewrite (live_sum_insert _ _ _ _ _ Hi), Hr, Ac. simpl. unfold of_caller at 2. simpl.
    destruct (lease_caller l) as [a|] eqn:Hca.
    + rewrite get0_put.
      * rewrite <- Hc. repeat case_decide; simplify_eq/=; try lia; naive_solver.
      * rewrite Hc. specialize (Hle (of_caller (lease_endpoint l, a))). unfold of_caller at 2 in Hle.
        simpl in Hle. rewrite decide_True in Hle by done.
        enough (lease_tokens l <= live_sum (of_caller (lease_endpoint l, a)) ls) by lia.
        apply Hle. intros x Hx. unfold of_caller. case_decide; [auto|lia].
    + rewrite <- Hc. case_decide; [naive_solver|lia].
  - apply Forall_insert; [done|]. simpl. apply Hnn. by eapply list_elem_of_lookup_2.
Qed.

(** *** The hints *)

Definition indexed (hints : list ((string * string) * prefix_hint)) (m : gmap string (gset string)) :
    Prop := forall a e, (a, e) ∈ hints.*1 <-> a ∈ default ∅ (m !! e).

Record hints_ok (t : tracker) (ev : list (prefill_lease * Q)) : Prop := {
  ok_keys : NoDup (prefix_hints t).*1;
  ok_max : Z.of_nat (length (prefix_hints t)) <= _PREFIX_HINT_MAX_ENTRIES;
  ok_index : indexed (prefix_hints t) (hint_callers t);
  ok_earned k h : (k, h) ∈ prefix_hints t -> exists l now, (l, now) ∈ ev /\
    lease_caller l = Some k.1 /\ lease_endpoint l = k.2 /\ h = hint_of s l now
}.

Lemma discard_lookup m k e :
  default ∅ (discard_caller m k !! e) =
  if decide (e = k.2) then default ∅ (m !! e) ∖ {[k.1]} else default ∅ (m !! e).
Proof.
  unfold discard_caller. destruct (m !! k.2) as [cs|] eqn:E.
  - case_bool_decide as Hc.
    + rewrite lookup_delete. repeat case_decide; subst; try done. rewrite E. simpl. by rewrite Hc.
    + rewrite lookup_insert. repeat case_decide; subst; try done. by rewrite E.
  - case_decide; subst; [|done]. rewrite E. simpl. set_solver.
Qed.

Lemma evict_ok hints m :
  NoDup hints.*1 -> indexed hints m ->
  let '(hints', m') := evict hints m in
  (exists old, hints = old ++ hints') /\ indexed hints' m' /\
  Z.of_nat (length hints') <= _PREFIX_HINT_MAX_ENTRIES.
Proof.
  revert m; induction hints as [|x hints IH]; intros m Hnd Hi; simpl.
  - split_and!; [by exists []|done|done].
  - case_bool_decide as Hlen; [|split_and!; [by exists []|done|simpl; lia]].
    csimpl in Hnd. apply NoDup_cons in Hnd as [Hx Hnd].
    assert (indexed hints (discard_caller m x.1)) as Hi'.
    { intros a e. rewrite discard_lookup. specialize (Hi a e). csimpl in Hi.
      rewrite elem_of_cons in Hi. destruct x as [[xa xe] xh]; simpl in *. case_decide; subst.
      - rewrite elem_of_difference, elem_of_singleton, <- Hi. split; [|naive_solver].
        intros Hin. split; [by right|]. intros ->. done.
      - rewrite <- Hi. naive_solver. }
    specialize (IH _ Hnd Hi'). destruct (evict hints _) as [h' m'].
    destruct IH as ((old & ->) & H1 & H2). split_and!; [by exists (x :: old)|done|done].
Qed.

Lemma NoDup_fst_filter {A B} (P : A * B -> Prop) `{!forall x, Decision (P x)} (l : list (A * B)) :
  NoDup l.*1 -> NoDup (filter P l).*1.
Proof.
  induction l as [|x l IH]; intros Hnd; [done|]. csimpl in Hnd. apply NoDup_cons in Hnd as [Hx Hnd].
  rewrite filter_cons. case_decide; [|auto]. csimpl. apply NoDup_cons. split; [|auto].
  intros Hin. apply Hx. apply list_elem_of_fmap in Hin as (y & -> & Hy).
  apply list_elem_of_fmap_2. by apply list_elem_of_filter in Hy as [_ ?].
Qed.

Lemma remember_ok t ev l now a :
  hints_ok t ev -> lease_caller l = Some a ->
  hints_ok (_remember_prompt t a (lease_endpoint l) (hint_of s l now)) (ev ++ [(l, now)]).
Proof.
  intros [Hk Hm Hi He] Ha. unfold _remember_prompt.
  set (k := (a, lease_endpoint l)). set (hints := filter _ _ ++ _). set (m := <[_ := _]> _).
  assert (forall x, x ∈ (filter (fun e : (string * string) * prefix_hint => e.1 <> k) (prefix_hints t)).*1 <->
    x ∈ (prefix_hints t).*1 /\ x <> k) as Hf.
  { intros x. rewrite !list_elem_of_fmap. setoid_rewrite list_elem_of_filter. naive_solver. }
  assert (NoDup hints.*1) as Hnd.
  { unfold hints. rewrite fmap_app. apply NoDup_app. split_and!.
    - by apply NoDup_fst_filter.
    - intros x [_ Hx]%Hf. set_solver.
    - apply NoDup_singleton. }
  assert (indexed hints m) as Hind.
  { intros b e. unfold hints, m. rewrite fmap_app, elem_of_app, Hf, (Hi b e). csimpl.
    rewrite list_elem_of_singleton, lookup_insert. unfold k. case_decide; subst; simpl.
    - rewrite elem_of_union, elem_of_singleton. destruct (decide (b = a)); naive_solver.
    - naive_solver. }
  pose proof (evict_ok hints m Hnd Hind) as Hev. destruct (evict hints m) as [h' m'].
  destruct Hev as ((old & Eold) & H1 & H2). constructor; simpl; auto.
  - rewrite Eold, fmap_app in Hnd. by apply NoDup_app in Hnd as (_ & _ & ?).
  - intros k' h Hin. assert ((k', h) ∈ hints) as Hin' by (rewrite Eold; set_solver).
    unfold hints in Hin'. apply elem_of_app in Hin' as [[_ Hin']%list_elem_of_filter|Hin'].
    + destruct (He _ _ Hin') as (l0 & t0 & ? & ?). exists l0, t0. set_solver.
    + apply list_elem_of_singleton in Hin' as [= -> ->]. exists l, now. set_solver.
Qed.

Lemma forget_ok t ev ep :
  hints_ok t ev ->
  hints_ok (forget_endpoint t ep) (filter (fun x => lease_endpoint x.1 <> ep) ev) /\
  forall a, hint_for (forget_endpoint t ep) (a, ep) = None.
Proof.
  intros [Hk Hm Hi He].
  assert (forall x, x ∈ prefix_hints (forget_endpoint t ep) <->
    x ∈ prefix_hints t /\ x.1.2 <> ep) as Hf.
  { intros [[a e] h]. unfold forget_endpoint; simpl. rewrite list_elem_of_filter. simpl.
    specialize (Hi a e). split; [|naive_solver]. intros [Hn Hin]. split; [done|]. intros ->.
    apply Hn. split; [done|]. apply Hi. change (a, ep) with (fst ((a, ep), h)).
    by apply list_elem_of_fmap_2. }
  split; [constructor|].
  - by apply NoDup_fst_filter.
  - etransitivity; [|exact Hm]. apply Nat2Z.inj_le, length_filter.
  - intros a e. rewrite list_elem_of_fmap. setoid_rewrite Hf. unfold forget_endpoint; simpl.
    rewrite lookup_delete. case_decide; subst; simpl.
    + split; [intros (y & E & _ & Hne); subst; by destruct y as [[]]; simplify_eq/=|set_solver].
    + rewrite <- (Hi a e), list_elem_of_fmap. split; [naive_solver|].
      intros (y & E & Hy). exists y. split_and!; auto. rewrite <- E. done.
  - intros k h [Hin Hne]%Hf. destruct (He _ _ Hin) as (l & t0 & Hev & Hc & Hep & Hh).
    exists l, t0. split_and!; auto. apply list_elem_of_filter. simpl in *. split; [congruence|done].
  - intros a. unfold hint_for. rewrite (filter_none _ (prefix_hints (forget_endpoint t ep))); [done|].
    intros x [_ Hx]%Hf E. rewrite E in Hx. done.
Qed.

Lemma list_alter_some {A} (f : A -> A) (l : list A) (i : nat) x : l !! i = Some x -> alter f i l = <[i := f x]> l.
Proof. revert i; induction l as [|y l IH]; intros [|i] Hi; simplify_eq/=; [done|]. f_equal. auto. Qed.

Lemma list_alter_none {A} (f : A -> A) (l : list A) (i : nat) : l !! i = None -> alter f i l = l.
Proof. revert i; induction l as [|y l IH]; intros [|i] Hi; simplify_eq/=; [done..|]. f_equal. auto. Qed.

Lemma hints_ok_same t t' ev ev' :
  prefix_hints t' = prefix_hints t -> hint_callers t' = hint_callers t ->
  (forall x, x ∈ ev -> x ∈ ev') -> hints_ok t ev -> hints_ok t' ev'.
Proof.
  intros E1 E2 Hsub [Hk Hm Hi He]. constructor; rewrite ?E1, ?E2; auto.
  intros k h Hin. destruct (He k h Hin) as (l & t0 & ? & ?). eauto 10.
Qed.

Record prefill_wf (w : prefill_world) : Prop := {
  wf_books : books_ok (trk w) (leases w);
  wf_hints : hints_ok (trk w) (evidence w)
}.

Lemma prefill_step_wf w o : prefill_wf w -> prefill_wf (prefill_step w o).
Proof.
  intros [Hb Hh]. destruct o as [now ep tokens caller fp an|i an|i now c|ep]; cbn [prefill_step].
  - pose proof (acquire_books (trk w) (leases w) now ep tokens caller fp an Hb) as Hb'.
    destruct (prefill_acquire s (trk w) now ep tokens caller fp an) as [t l] eqn:E.
    constructor; [done|]. eapply hints_ok_same; [..|exact Hh]; [| |done];
      unfold prefill_acquire in E; destruct (is_elephant _ _), caller; by simplify_eq/=.
  - constructor; [|done]. simpl. destruct Hb as [B1 B2 B3 B4].
    destruct (leases w !! i) as [l|] eqn:Hi; [|rewrite list_alter_none by done; by constructor].
    rewrite (list_alter_some _ _ _ _ Hi).
    constructor; intros; rewrite ?(live_sum_insert _ _ _ _ _ Hi); simpl; rewrite ?B1, ?B2, ?B3.
    1-3: unfold on_endpoint, elephant_on, of_caller; simpl; lia.
    apply Forall_insert; [done|]. simpl. exact (Forall_lookup_1 _ _ _ _ B4 Hi).
  - destruct (leases w !! i) as [l|] eqn:Hi; [|by constructor].
    pose proof (release_books (trk w) (leases w) now i l c Hb Hi) as Hb'.
    destruct (prefill_release s (trk w) now l c) as [t l'] eqn:E. constructor; [done|]. cbn [trk evidence].
    unfold prefill_release in E. destruct (lease_released l).
    { injection E as <- _. by rewrite andb_false_r. }
    rewrite andb_true_r. injection E as <- _.
    destruct (lease_caller l) as [a|] eqn:Ha, c; cbn.
    + eapply hints_ok_same; [..|apply (remember_ok _ _ l now a Hh Ha)]; try done;
        by destruct (lease_elephant l).
    + eapply hints_ok_same; [..|exact Hh]; try done; by destruct (lease_elephant l).
    + eapply hints_ok_same; [..|exact Hh]; try (by destruct (lease_elephant l)). set_solver.
    + eapply hints_ok_same; [..|exact Hh]; try done; by destruct (lease_elephant l).
  - constructor; simpl; [|by apply forget_ok]. destruct Hb. by constructor.
Qed.

Lemma prefill_run_wf l : prefill_wf (prefill_run l).
Proof.
  apply (foldl_invariant prefill_wf); [intros; by apply prefill_step_wf|].
  constructor; [by constructor|].
  constructor; simpl; [constructor|done| |set_solver].
  intros a e. simpl. rewrite lookup_empty. simpl. set_solver.
Qed.

(** *** What the decisions rest on *)

(** A live lease's part of the backlog the caller does not own itself. *)
Definition others_on (ep : string) (caller : option string) (l : prefill_lease) : Z :=
  if decide (lease_endpoint l = ep /\ (caller = None \/ lease_caller l <> caller))
  then lease_tokens l else 0.

Lemma live_sum_sub f g h ls :
  (forall l, h l = f l - g l) -> live_sum h ls = live_sum f ls - live_sum g ls.
Proof.
  intros E. induction ls as [|l ls IH]; simpl; [done|]. rewrite IH, E.
  destruct (lease_released l); lia.
Qed.

Lemma live_sum_zero ls : live_sum (fun _ => 0) ls = 0.
Proof. induction ls as [|l ls IH]; simpl; [done|]. rewrite IH. by destruct (lease_released l). Qed.

(** The tracker's books balance.  Whatever acquisitions, releases (of any
    lease, any number of times) and resets have happened, an endpoint's backlog
    is the sum of what its leases not yet given back were charged, its elephant
    count is the number of those that are elephants, and a conversation leaves
    its endpoint exactly when the live charges of the other callers there exceed
    the ceiling: never for its own load. *)
Theorem prefill_books_balance l ep caller :
  let w := prefill_run l in
  get0 (backlog (trk w)) ep = live_sum (on_endpoint ep) (leases w) /\
  get0 (elephants (trk w)) ep = live_sum (elephant_on ep) (leases w) /\
  (should_keep_affinity s (trk w) ep caller = false <->
   PREFILL_AWARE_ENABLED s = true /\
   AFFINITY_BACKLOG_CEILING s < live_sum (others_on ep caller) (leases w)).
Proof.
  intros w. destruct (wf_books _ (prefill_run_wf l)) as [Hb He Hc _]. fold w in Hb, He, Hc.
  split_and!; [done..|]. unfold should_keep_affinity.
  assert (live_sum (others_on ep caller) (leases w) =
    get0 (backlog (trk w)) ep -
    match caller with Some a => get0 (by_caller (trk w)) (ep, a) | None => 0 end) as ->.
  { rewrite Hb. destruct caller as [a|].
    - rewrite Hc. apply live_sum_sub. intros x. unfold others_on, on_endpoint, of_caller. simpl.
      repeat case_decide; try lia; naive_solver.
    - rewrite <- (live_sum_zero (leases w)). apply live_sum_sub. intros x.
      unfold others_on, on_endpoint. repeat case_decide; try lia; naive_solver. }
  destruct (PREFILL_AWARE_ENABLED s); simpl; [|naive_solver].
  rewrite bool_decide_eq_false. naive_solver lia.
Qed.

(** A discount is earned.  An estimate below the whole prompt rests on a
    prompt the same caller completed on the same endpoint, whose prefill was
    confirmed less than the hint's lifetime ago and not forgotten since; when the
    asker names its conversation, that prompt was of the same one, and when it
    shows its messages, that prompt's anchor holds of them.  The discount is never
    more than that prompt, and the memory never holds more than its cap. *)
Theorem discount_is_earned l now ep tokens caller fp ms :
  let w := prefill_run l in
  let estimate := uncached_estimate (trk w) now ep tokens caller fp ms in
  Z.of_nat (length (prefix_hints (trk w))) <= _PREFIX_HINT_MAX_ENTRIES /\
  (estimate = Z.max tokens 0 \/
   exists past confirmed_at, (past, confirmed_at) ∈ evidence w /\
     is_Some caller /\ lease_caller past = caller /\ lease_endpoint past = ep /\
     (now < confirmed_at + _PREFIX_HINT_TTL_SEC s)%Q /\
     (is_Some fp -> lease_fingerprint past = fp) /\
     (forall units, ms = Some units ->
        exists a, lease_anchor past = Some a /\ _anchor_holds units a = true) /\
     estimate = Z.max (Z.max tokens 0 - lease_prompt past) 0).
Proof.
  intros w estimate. destruct (wf_hints _ (prefill_run_wf l)) as [_ Hm _ He]. fold w in Hm, He.
  split; [done|]. unfold estimate, uncached_estimate.
  destruct caller as [a|]; [|by left]. destruct (hint_for (trk w) (a, ep)) as [h|] eqn:Hh; [|by left].
  case_bool_decide as Hexp; [by left|].
  destruct (bool_decide (is_Some fp) && _) eqn:Hfp; [by left|].
  destruct (match ms with None => _ | Some _ => _ end) eqn:Hms; [by left|]. right.
  assert (((a, ep), h) ∈ prefix_hints (trk w)) as Hin.
  { unfold hint_for in Hh. apply fmap_Some in Hh as ([k h'] & Hhd & ->).
    assert ((k, h') ∈ filter (fun e => e.1 = (a, ep)) (prefix_hints (trk w))) as Hin
      by (destruct (filter _ _); simplify_eq/=; set_solver).
    apply list_elem_of_filter in Hin as [E Hin]. simpl in E. by subst k. }
  destruct (He _ _ Hin) as (past & at_ & Hev & Hca & Hep & ->). exists past, at_. simpl in *.
  split_and!; auto; [lra| |].
  - intros Hs. apply andb_false_iff in Hfp as [Hfp|Hfp]; [by apply bool_decide_eq_false in Hfp|].
    apply negb_false_iff, bool_decide_eq_true in Hfp. done.
  - intros units ->. apply negb_false_iff in Hms. destruct (lease_anchor past); [eauto|done].
Qed.

End books.

(** ** Anchors *)

Lemma anchor_take_spec room units : anchor_take room units = take room (concat units).
Proof.
  revert room; induction units as [|u units IH]; intros room; simpl; [by rewrite take_nil|].
  destruct room as [|n]; [done|]. rewrite IH, take_app, length_take. f_equal. f_equal. lia.
Qed.

(** an anchor is proof of containment.  The anchor kept of a prompt holds
    of another prompt exactly when that one starts with the whole of the first,
    however either is cut into units, as long as the digest has no collision
    with the first prompt's text. *)
Theorem anchor_is_containment `{Blake2b} old new a :
  prompt_anchor old = Some a ->
  (forall x, digest x = digest (concat old) -> x = concat old) ->
  _anchor_holds new a = true <-> concat old `prefix_of` concat new.
Proof.
  unfold prompt_anchor. case_bool_decide as Hne; intros Ha Hinj; simplify_eq/=.
  rewrite bool_decide_eq_false_2 by lia. rewrite andb_true_iff, !bool_decide_eq_true, anchor_take_spec.
  rewrite Nat2Z.id. split.
  - intros [_ Hd%Hinj]. rewrite <- Hd. apply prefix_take.
  - intros [rest ->]. by rewrite take_app_length.
Qed.

(** ** Witnesses *)

(** A digest that tells one text from every other. *)
Definition toy_digest (known : chars) : Blake2b := fun x =>
  if bool_decide (x = known) then "known"%string else "other"%string.

(** Two endpoints, the first prefilling one mega-prompt of the same caller. *)
Definition busy_tracker : tracker :=
  trk (prefill_run (H := toy_digest []) default_tuning
    [PAcquire 0 "a" 300000 (Some "u") None None; PAcquire 1 "b" 1000 (Some "v") None None]).

Lemma select_index_correct_witness :
  exists i, select_index (H := toy_digest []) default_tuning busy_tracker 2 ["a"; "b"] [1%Q; 1%Q] 250000
      (1 # 4) (3 # 4) (Some "w") None None = Some i /\ i = 1%nat.
Proof.
  pose proof (select_index_correct (H := toy_digest []) default_tuning busy_tracker 2 ["a"; "b"]
    [1%Q; 1%Q] 250000 (1 # 4) (3 # 4) (Some "w") None None) as Hs.
  destruct Hs as (i & Hi & _); [done|by apply Qle_bool_iff|by apply Qle_bool_iff|].
  exists i. split; [exact Hi|]. vm_compute in Hi. congruence.
Defined.

(** A conversation's next turn, anchored on the turn before. *)
Lemma anchor_is_containment_witness :
  _anchor_holds (H := toy_digest [97; 98; 99]%N) [[97]; [98; 99; 100]]%N (3, "known"%string) = true.
Proof.
  apply (anchor_is_containment (H := toy_digest [97; 98; 99]%N) [[97; 98]; [99]]%N).
  - vm_compute. reflexivity.
  - intros x. unfold digest, toy_digest. simpl. repeat case_bool_decide; congruence.
  - by exists [100%N].
Defined.
