(* ===== verification/RouteSelection.v ===== *)
(** Which adapter a request is sent to: the route table, the effective weights,
    affinity, the offload route and the dispatch claim of [FixedRouter]
    ([routing/routers.py], and the adapter identities of [routing/endpoints.py]).

    The resolvers an administrator's settings come through (weight overrides,
    disabled providers and routes, offload policies) are attributes of the router
    and stay functions here; clock readings and random draws are arguments.
    Weights are rationals, so a NaN weight is not represented.  Selection runs
    without awaiting, so it is one step. *)

From S2P Require Import Prelude PyText UsageLimit Failures CircuitBreaker EndpointHealth Offload PrefillLoad.
From Stdlib Require Import Qabs.

Local Open Scope Z_scope.

(** ** Adapters *)

(** The part of an adapter's configuration routing reads.  [cfg_route_id] is
    [str(route_metadata["route_id"])], when there is one. *)
Record adapter_config : Type := AdapterConfig {
  cfg_endpoint_id : option string;
  cfg_provider : string;
  cfg_route_id : option chars;
  cfg_modalities : option (list string)
}.

Class Adapters := config : adapter -> adapter_config.

Section adapters.
Context `{Adapters}.

(** [endpoint_id_for_adapter] *)
Definition endpoint_id_for_adapter (a : adapter) : string :=
  default (cfg_provider (config a)) (truthy (cfg_endpoint_id (config a))).

(** [route_id_for_adapter] *)
Definition route_id_for_adapter (a : adapter) : chars :=
  match cfg_route_id (config a) with
  | Some (c :: r) => c :: r
  | _ => chars_of (endpoint_id_for_adapter a)
  end.

(** [adapter_supports_modalities] *)
Definition adapter_supports_modalities (a : adapter) (required : gset string) : bool :=
  let supported := match cfg_modalities (config a) with
                   | Some (x :: l) => x :: l
                   | _ => ["text"%string]
                   end in
  bool_decide (required = ∅) || bool_decide (required ⊆ list_to_set supported).

(** [adapter_in_endpoint_scope] *)
Definition adapter_in_endpoint_scope (a : adapter) (scope : option (gset string)) : bool :=
  match scope with
  | None => true
  | Some s => bool_decide (endpoint_id_for_adapter a ∈ s) || bool_decide (cfg_provider (config a) ∈ s)
  end.

End adapters.

(** ** State *)

(** [RouteConfig].  Nothing below changes one in place, so that aliases share
    it is not visible. *)
Record route_config : Type := RouteConfig {
  adapters : list (adapter * Q);
  raw_adapters : option (list (adapter * Q * string));
  canonical_model_id : option string;
  admin_only : bool;
  required_role : string;
  published : bool
}.

(** [_Affinity] *)
Record affinity : Type := Affinity {
  pinned_endpoint : string;
  expires_at : Q;
  created_at : Q
}.
#[export] Instance eta_affinity : Eta affinity := fun a =>
  Affinity (pinned_endpoint a) (expires_at a) (created_at a).

(** What [weight_override_resolver] can be: absent, an object with
    [get_snapshot_for_model], or one whose [get_for_model] returns the overrides
    or an awaitable of them. *)
Inductive override_source : Type :=
| NoResolver
| Snapshots (f : string -> gmap string Q)
| Plain (f : string -> gmap string Q)
| Awaitables (f : string -> gmap string Q).

(** The settings and resolvers of a router; [offload_policies] may raise. *)
Record router_config : Type := RouterConfig {
  weight_overrides : override_source;
  is_disabled : option (string -> bool);
  is_excluded : option (string -> chars -> bool);
  offload_policies : option (string -> result unit (option offload_policy));
  AFFINITY_ENABLED : bool;
  AFFINITY_MAX_AGE_SECONDS : Q;
  prefill_tuning : tuning
}.

Definition AFFINITY_TTL_SECONDS : Q := 300.
Definition AFFINITY_SWEEP_THRESHOLD : nat := 1000.

(** [FixedRouter] *)
Record router : Type := Router {
  routes : gmap string route_config;
  affinities : gmap (string * string) affinity;
  health_registry : registry;
  prefill_load : tracker
}.
#[export] Instance eta_router : Eta router := fun r =>
  Router (routes r) (affinities r) (health_registry r) (prefill_load r).

(** ** Errors *)

Inductive route_refusal : Type :=
| ROUTE_REFUSAL_WEIGHT_0
| ROUTE_REFUSAL_EXCLUDED
| ROUTE_REFUSAL_CIRCUIT_OPEN.

(** What an [AllCircuitsOpenError] says. *)
Inductive refusal : Type :=
| NoModality (filtered : list string)
| OutsideScope
| NoneAdmissible (refused : list (string * route_refusal)) (filtered : list string)
| OverOffloadMax
| ProbesHeld (excluded : gset string).

Inductive selection_error : Type :=
| AllCircuitsOpenError (why : refusal)
| TargetUnavailableError (endpoint_id : string)
| RuntimeError.

(** ** The arguments of a selection *)

(** [affinity_key] is the one of the request's context. *)
Record selection : Type := Selection {
  model_id : string;
  pin_provider : option string;
  required_modalities : gset string;
  prefill_tokens : Z;
  exclude : gset string;
  preferred_endpoint_id : option string;
  endpoint_scope : option (gset string);
  require_target : bool;
  fingerprint : option string;
  affinity_key : option string
}.
#[export] Instance eta_selection : Eta selection := fun q =>
  Selection (model_id q) (pin_provider q) (required_modalities q) (prefill_tokens q) (exclude q)
    (preferred_endpoint_id q) (endpoint_scope q) (require_target q) (fingerprint q)
    (affinity_key q).

(** What one selection reads of the clocks and of [random]: when the circuit of
    the [i]-th candidate is asked, when the pin is looked up, when the draw looks
    at the load and when the result is recorded; the draws; and whether an event
    loop is running. *)
Record readings : Type := Readings {
  in_loop : bool;
  gate_at : nat -> env;
  pin_at : Q;
  draw_at : Q;
  record_at : Q;
  draw1 : Q;
  draw2 : Q;
  degraded_draw : Q;
  degraded_choice : nat
}.

(** ** The route table *)

Section router.
Context `{Blake2b, Adapters} (c : router_config).

(** [register_route] *)
Definition register_route (st : router) (model : string) (adapters_with_weights : list (adapter * Q))
    (aliases : list string) (admin : bool) (role : string) (publish : bool) : router :=
  let total_weight := foldr (fun x acc => x.2 + acc)%Q 0%Q adapters_with_weights in
  if bool_decide (total_weight <= 0)%Q then st
  else
    let raw := (fun x => (x.1, x.2, endpoint_id_for_adapter x.1)) <$> adapters_with_weights in
    let normalized := (fun x => (x.1, x.2 / total_weight)%Q) <$> adapters_with_weights in
    let effective_role := if admin && bool_decide (role = "free"%string) then "admin"%string else role in
    let cfg := RouteConfig normalized (Some raw) (Some model) admin effective_role publish in
    st <| routes := fold_left (fun m alias => <[alias := cfg]> m) aliases (<[model := cfg]> (routes st)) |>.

(** [_apply_disabled_providers]; its callers always name a model. *)
Definition _apply_disabled_providers (l : list (adapter * Q)) (model : string) : list (adapter * Q) :=
  (fun x =>
     let '(a, w) := x in
     if match is_disabled c with Some f => f (cfg_provider (config a)) | None => false end
        || match is_excluded c with Some f => f model (route_id_for_adapter a) | None => false end
     then (a, 0%Q) else (a, w)) <$> l.

(** [_get_effective_adapters] *)
Definition _get_effective_adapters (in_loop : bool) (model : string) (route : route_config) :
    result selection_error (list (adapter * Q)) :=
  let override_model := default model (truthy (canonical_model_id route)) in
  let overridden (overrides : gmap string Q) raw :=
    Ok (_apply_disabled_providers
      ((fun x : adapter * Q * string => (x.1.1, default x.1.2 (overrides !! x.2))) <$> raw)
      override_model) in
  match weight_overrides c, raw_adapters route with
  | NoResolver, _ | _, None | _, Some [] =>
      Ok (_apply_disabled_providers (adapters route) override_model)
  | Snapshots f, Some raw | Plain f, Some raw => overridden (f override_model) raw
  | Awaitables f, Some raw =>
      if in_loop then Raise RuntimeError else overridden (f override_model) raw
  end.

(** The route a selection may use, if any. *)
Definition usable_route (st : router) (model : string) : option route_config :=
  route ← routes st !! model;
  if published route && negb (bool_decide (adapters route = [])) then Some route else None.

(** [_offload_target] *)
Definition _offload_target (model : string) (route : route_config) (l : list (adapter * Q)) :
    option (adapter * offload_policy) :=
  match offload_policies c with
  | None => None
  | Some source =>
      match source (default model (truthy (canonical_model_id route))) with
      | Raise _ | Ok None => None
      | Ok (Some policy) =>
          x ← head (filter (fun x => 0 < x.2 /\ route_id_for_adapter x.1 = route_id policy)%Q l);
          Some (x.1, policy)
      end
  end.

(** [_dispatch_range] *)
Definition _dispatch_range (in_loop : bool) (model : string) (route : route_config)
    (scope : option (gset string)) (modalities : gset string) :
    result selection_error (list (adapter * Q)) :=
  match _get_effective_adapters in_loop model route with
  | Raise e => Raise e
  | Ok l =>
      Ok (filter (fun x => adapter_in_endpoint_scope x.1 scope && adapter_supports_modalities x.1 modalities)
            l)
  end.

(** ** Affinity *)

(** [_affinity_expiry] *)
Definition _affinity_expiry (created now : Q) : Q :=
  let expires := (now + AFFINITY_TTL_SECONDS)%Q in
  if bool_decide (0 < AFFINITY_MAX_AGE_SECONDS c)%Q
  then py_min expires (created + AFFINITY_MAX_AGE_SECONDS c) else expires.

(** [_drop_affinity] *)
Definition _drop_affinity (st : router) (key : option string) (model : string) : router :=
  match truthy key with
  | None => st
  | Some k => st <| affinities := delete (k, model) (affinities st) |>
  end.

(** [_maybe_sweep_affinity_locked] *)
Definition _maybe_sweep_affinity (m : gmap (string * string) affinity) (now : Q) :
    gmap (string * string) affinity :=
  if bool_decide (size m <= AFFINITY_SWEEP_THRESHOLD)%nat then m
  else filter (fun x => ~ (expires_at x.2 < now)%Q) m.

(** [_record_affinity_and_return] *)
Definition _record_affinity (st : router) (model : string) (chosen : adapter) (key : option string)
    (now : Q) : router :=
  match key with
  | None => st
  | Some k =>
      st <| affinities := _maybe_sweep_affinity
              (<[(k, model) := Affinity (endpoint_id_for_adapter chosen) (_affinity_expiry now now) now]>
                 (affinities st)) now |>
  end.

(** The pin's part of [_select_adapter]: the pins after it, the adapter of a pin
    that is honoured, and the endpoint of one given up for its backlog. *)
Definition honour_pin (st : router) (model k : string) (now : Q) (allowed : list (adapter * Q)) :
    gmap (string * string) affinity * option adapter * option string :=
  match affinities st !! (k, model) with
  | None => (affinities st, None, None)
  | Some entry =>
      if bool_decide (now < expires_at entry)%Q then
        match head (filter (fun x => endpoint_id_for_adapter x.1 = pinned_endpoint entry) allowed) with
        | Some x =>
            if should_keep_affinity (prefill_tuning c) (prefill_load st) (pinned_endpoint entry) (Some k)
            then (<[(k, model) := entry <| expires_at := _affinity_expiry (created_at entry) now |>]>
                    (affinities st), Some x.1, None)
            else (affinities st, None, Some (pinned_endpoint entry))
        | None => (delete (k, model) (affinities st), None, None)
        end
      else (delete (k, model) (affinities st), None, None)
  end.

(** ** The draw *)

Definition total_weight (l : list (adapter * Q)) : Q := foldr (fun x acc => x.2 + acc)%Q 0%Q l.

(** [random.choices] over cumulative weights: a bisection capped at the last. *)
Fixpoint bisect_weights (x acc : Q) (ws : list Q) (i : nat) : nat :=
  match ws with
  | [] | [_] => i
  | w :: rest => if bool_decide (x < acc + w)%Q then i else bisect_weights x (acc + w) rest (S i)
  end.

(** What [_weighted_draw] falls back to when the prefill-aware draw raises. *)
Definition degraded_index (pool : list (adapter * Q)) (avoid : option string) (r : Q) (choice : nat) :
    option nat :=
  let all := seq 0 (length pool) in
  let candidates :=
    match filter (fun i => (endpoint_id_for_adapter ∘ fst <$> pool !! i) <> avoid) all with
    | [] => all
    | l => l
    end in
  let ws := (fun i => py_max (default 0%Q (snd <$> pool !! i)) 0) <$> candidates in
  let sum := foldr Qplus 0%Q ws in
  if bool_decide (0 < sum)%Q then candidates !! bisect_weights (r * sum)%Q 0%Q ws 0
  else candidates !! choice.

(** [_weighted_draw]; [None] would be an empty list of candidates. *)
Definition _weighted_draw (st : router) (allowed : list (adapter * Q)) (tokens : Z)
    (key avoid fp : option string) (t : readings) : option adapter :=
  let total := total_weight allowed in
  let pool := if bool_decide ((1 # 1000000000) < Qabs (total - 1))%Q
              then (fun x => (x.1, x.2 / total)%Q) <$> allowed else allowed in
  let keys := (fun x => endpoint_id_for_adapter x.1) <$> pool in
  let index :=
    match select_index (prefill_tuning c) (prefill_load st) (draw_at t) keys (snd <$> pool) tokens
            (draw1 t) (draw2 t) key avoid fp with
    | Some i => Some i
    | None => degraded_index pool avoid (degraded_draw t) (degraded_choice t)
    end in
  i ← index; fst <$> pool !! i.

(** ** Selection *)

(** The admission gates over the candidates, from the [i]-th on: the circuits
    asked, the candidates that pass and the others with the first gate that
    refused them. *)
Fixpoint gates (r : registry) (at_ : nat -> env) (excluded : gset string) (i : nat)
    (l : list (adapter * Q)) : registry * list (adapter * Q) * list (string * route_refusal) :=
  match l with
  | [] => (r, [], [])
  | (a, w) :: rest =>
      let id := endpoint_id_for_adapter a in
      let refuse r why :=
        let '(r, allowed, refused) := gates r at_ excluded (S i) rest in
        (r, allowed, (id, why) :: refused) in
      if negb (bool_decide (0 < w)%Q) then refuse r ROUTE_REFUSAL_WEIGHT_0
      else if bool_decide (id ∈ excluded) then refuse r ROUTE_REFUSAL_EXCLUDED
      else
        let '(r, ok) := registry_allow_request r (at_ i) id in
        if negb ok then refuse r ROUTE_REFUSAL_CIRCUIT_OPEN
        else
          let '(r, allowed, refused) := gates r at_ excluded (S i) rest in
          (r, (a, w) :: allowed, refused)
  end.

(** The candidates a request has on its route: in scope, and fit for its media. *)
Definition candidates (in_loop : bool) (q : selection) (route : route_config) :
    result selection_error (list (adapter * Q) * list string) :=
  match _get_effective_adapters in_loop (model_id q) route with
  | Raise e => Raise e
  | Ok effective =>
      let effective := filter (fun x => adapter_in_endpoint_scope x.1 (endpoint_scope q)) effective in
      let supported := filter (fun x => adapter_supports_modalities x.1 (required_modalities q)) effective in
      let filtered :=
        (fun x => endpoint_id_for_adapter x.1) <$>
          filter (fun x => adapter_supports_modalities x.1 (required_modalities q) = false) effective in
      if negb (bool_decide (required_modalities q = ∅)) && bool_decide (supported = [])
      then Raise (AllCircuitsOpenError (NoModality filtered))
      else if bool_decide (is_Some (endpoint_scope q)) && bool_decide (supported = [])
      then Raise (AllCircuitsOpenError OutsideScope)
      else Ok (supported, filtered)
  end.

(** The offload route is held back while anything else is admissible. *)
Definition hold_back (q : selection) (route : route_config) (snapshot allowed : list (adapter * Q)) :
    result selection_error (list (adapter * Q)) :=
  match _offload_target (model_id q) route snapshot with
  | None => Ok allowed
  | Some (off, policy) =>
      match filter (fun x => x.1 <> off) allowed with
      | [] => if takes_input policy (prefill_tokens q) then Ok allowed
              else Raise (AllCircuitsOpenError OverOffloadMax)
      | ordinary => Ok ordinary
      end
  end.

(** [_select_adapter] without a pinned provider, once the candidates are known. *)
Definition select_among (st : router) (q : selection) (t : readings) (route : route_config)
    (snapshot : list (adapter * Q)) (filtered : list string) :
    router * result selection_error (option adapter) :=
  let '(r, allowed, refused) := gates (health_registry st) (gate_at t) (exclude q) 0 snapshot in
  let st := st <| health_registry := r |> in
  match allowed with
  | [] => (st, Raise (AllCircuitsOpenError (NoneAdmissible refused filtered)))
  | _ =>
      match hold_back q route snapshot allowed with
      | Raise e => (st, Raise e)
      | Ok allowed =>
          let key := if AFFINITY_ENABLED c then truthy (affinity_key q) else None in
          let '(pins, kept, avoid) :=
            match key with
            | Some k => if require_target q then (affinities st, None, None)
                        else honour_pin st (model_id q) k (pin_at t) allowed
            | None => (affinities st, None, None)
            end in
          let st := st <| affinities := pins |> in
          let draw l avoid :=
            match _weighted_draw st l (prefill_tokens q) key avoid (fingerprint q) t with
            | None => (st, Ok None)
            | Some a => (_record_affinity st (model_id q) a key (record_at t), Ok (Some a))
            end in
          match kept with
          | Some a => (st, Ok (Some a))
          | None =>
              match truthy (preferred_endpoint_id q) with
              | None => draw allowed avoid
              | Some p =>
                  match filter (fun x => endpoint_id_for_adapter x.1 = p) allowed with
                  | [] => if require_target q then (st, Raise (TargetUnavailableError p))
                          else draw allowed avoid
                  | targeted => draw targeted None
                  end
              end
          end
      end
  end.

(** [_select_adapter]; [Ok None] is no route, or no match for the pin. *)
Definition _select_adapter (st : router) (q : selection) (t : readings) :
    router * result selection_error (option adapter) :=
  match usable_route st (model_id q) with
  | None => (st, Ok None)
  | Some route =>
      match candidates (in_loop t) q route with
      | Raise e => (st, Raise e)
      | Ok (snapshot, filtered) =>
          match truthy (pin_provider q) with
          | Some pin =>
              (st, Ok (fst <$> head (filter (fun x => (0 < x.2)%Q /\
                 (cfg_provider (config x.1) = pin \/ endpoint_id_for_adapter x.1 = pin)) snapshot)))
          | None => select_among st q t route snapshot filtered
          end
      end
  end.

End router.

(** ** Claims *)

(** What happens around one pass of selection and claim: what the selection
    reads, what other threads do to the registry before the claim, and when the
    claim is asked for. *)
Record pass : Type := Pass {
  reads : readings;
  meanwhile : list step;
  claim_at : env
}.

Section claims.
Context `{Blake2b, Adapters, ErrorText} (c : router_config).

(** [begin_dispatch] for a selected adapter, after what others did meanwhile. *)
Definition claim_for (st : router) (p : pass) (a : adapter) : router * option dispatch_claim :=
  let r := (rrun (health_registry st) (meanwhile p)).1 in
  let '(r, claim) := registry_begin_dispatch r (claim_at p) (endpoint_id_for_adapter a) in
  (st <| health_registry := r |>, claim).

(** The loop of [_select_and_claim_adapter]. *)
Fixpoint claim_loop (n j : nat) (st : router) (q : selection) (p : nat -> pass) :
    router * result selection_error (option (adapter * dispatch_claim)) :=
  match n with
  | O => (st, Raise (AllCircuitsOpenError (ProbesHeld (exclude q))))
  | S n =>
      match _select_adapter c st q (reads (p j)) with
      | (st, Raise e) => (st, Raise e)
      | (st, Ok None) => (st, Ok None)
      | (st, Ok (Some a)) =>
          match claim_for st (p j) a with
          | (st, Some cl) => (st, Ok (Some (a, cl)))
          | (st, None) =>
              claim_loop n (S j) st (q <| exclude := {[endpoint_id_for_adapter a]} ∪ exclude q |>) p
          end
      end
  end.

Definition route_attempts (st : router) (model : string) : nat :=
  match routes st !! model with
  | Some route => if bool_decide (adapters route = []) then 1 else length (adapters route)
  | None => 1
  end.

Definition with_claim (x : router * result selection_error (option (adapter * dispatch_claim))) :
    router * result selection_error (option (adapter * option dispatch_claim)) :=
  match x with
  | (st, Ok (Some (a, cl))) => (st, Ok (Some (a, Some cl)))
  | (st, Ok None) => (st, Ok None)
  | (st, Raise e) => (st, Raise e)
  end.

(** [_select_and_claim_adapter]: the adapter with the claim taken for it; a
    pinned one has none. *)
Definition _select_and_claim_adapter (st : router) (q : selection) (p : nat -> pass) :
    router * result selection_error (option (adapter * option dispatch_claim)) :=
  let q := q <| exclude := ∅ |> in
  let ordinary q := q <| preferred_endpoint_id := None |> <| require_target := false |> in
  match truthy (pin_provider q) with
  | Some _ =>
      match _select_adapter c st (ordinary q) (reads (p 0%nat)) with
      | (st, Ok (Some a)) => (st, Ok (Some (a, None)))
      | (st, Ok None) => (st, Ok None)
      | (st, Raise e) => (st, Raise e)
      end
  | None =>
      let attempts := route_attempts st (model_id q) in
      match truthy (preferred_endpoint_id q) with
      | None => with_claim (claim_loop attempts 1 st (ordinary q) p)
      | Some _ =>
          match _select_adapter c st q (reads (p 0%nat)) with
          | (st, Raise e) => (st, Raise e)
          | (st, Ok None) => with_claim (claim_loop attempts 1 st (ordinary q) p)
          | (st, Ok (Some a)) =>
              match claim_for st (p 0%nat) a with
              | (st, Some cl) => (st, Ok (Some (a, Some cl)))
              | (st, None) =>
                  let id := endpoint_id_for_adapter a in
                  if require_target q then (st, Raise (TargetUnavailableError id))
                  else with_claim (claim_loop attempts 1 st (ordinary q <| exclude := {[id]} |>) p)
              end
          end
      end
  end.

(** ** Other readers of the route *)

(** [select_adapter] *)
Definition select_adapter (st : router) (q : selection) (t : readings) :
    router * result selection_error (option adapter) :=
  _select_adapter c st (q <| pin_provider := None |> <| exclude := ∅ |> <| require_target := false |>
                          <| fingerprint := None |>) t.

(** The loop of [preferred_endpoint_for_provider]. *)
Fixpoint resolve_loop (j : nat) (l : list string) (st : router) (q : selection) (t : nat -> readings) :
    router * result selection_error (option string) :=
  match l with
  | [] => (st, Ok None)
  | id :: rest =>
      match select_adapter st (q <| preferred_endpoint_id := Some id |> <| endpoint_scope := None |>) (t j) with
      | (st, Raise (AllCircuitsOpenError _)) => (st, Ok None)
      | (st, Raise e) => (st, Raise e)
      | (st, Ok None) => resolve_loop (S j) rest st q t
      | (st, Ok (Some a)) =>
          if decide (endpoint_id_for_adapter a = id) then (st, Ok (Some id))
          else resolve_loop (S j) rest st q t
      end
  end.

(** [preferred_endpoint_for_provider] *)
Definition preferred_endpoint_for_provider (st : router) (q : selection) (provider : string)
    (loop : bool) (t : nat -> readings) : router * result selection_error (option string) :=
  match usable_route st (model_id q) with
  | None => (st, Ok None)
  | Some route =>
      match _get_effective_adapters c loop (model_id q) route with
      | Raise e => (st, Raise e)
      | Ok effective =>
          resolve_loop 0 ((fun x => endpoint_id_for_adapter x.1) <$>
              filter (fun x => cfg_provider (config x.1) = provider) effective) st q t
      end
  end.

(** The candidates [eligible_adapters] admits, its circuits asked in order. *)
Fixpoint eligible_from (r : registry) (at_ : nat -> env) (scope : option (gset string)) (i : nat)
    (l : list (adapter * Q)) : registry * list (adapter * Q) :=
  match l with
  | [] => (r, [])
  | (a, w) :: rest =>
      if negb (bool_decide (0 < w)%Q) || negb (adapter_in_endpoint_scope a scope)
      then eligible_from r at_ scope (S i) rest
      else
        let '(r, ok) := registry_allow_request r (at_ i) (endpoint_id_for_adapter a) in
        let '(r, l) := eligible_from r at_ scope (S i) rest in
        (r, if ok then (a, w) :: l else l)
  end.

(** [eligible_adapters]; [size_prompt] may be absent. *)
Definition eligible_adapters (st : router) (model : string) (scope : option (gset string))
    (size_prompt : option (adapter -> Z)) (loop : bool) (at_ : nat -> env) :
    router * result selection_error (list (adapter * Q)) :=
  match usable_route st model with
  | None => (st, Ok [])
  | Some route =>
      match _get_effective_adapters c loop model route with
      | Raise e => (st, Raise e)
      | Ok effective =>
          let '(r, eligible) := eligible_from (health_registry st) at_ scope 0 effective in
          let st := st <| health_registry := r |> in
          match _offload_target c model route eligible with
          | None => (st, Ok eligible)
          | Some (off, policy) =>
              let ordinary := filter (fun x => x.1 <> off) eligible in
              if bool_decide (is_Some (max_input_tokens policy)) &&
                 match size_prompt with Some f => negb (takes_input policy (f off)) | None => false end
              then (st, Ok ordinary)
              else (st, Ok (ordinary ++ filter (fun x => x.1 = off) eligible))
          end
      end
  end.

(** [_request_offload_target] *)
Definition _request_offload_target (st : router) (q : selection) (loop : bool) :
    result selection_error (option (adapter * offload_policy)) :=
  if bool_decide (is_Some (truthy (pin_provider q))) || bool_decide (offload_policies c = None)
  then Ok None
  else
    match routes st !! model_id q with
    | None => Ok None
    | Some route =>
        match _dispatch_range c loop (model_id q) route (endpoint_scope q) (required_modalities q) with
        | Raise e => Raise e
        | Ok l =>
            match _offload_target c (model_id q) route l with
            | Some (off, policy) =>
                Ok (if takes_input policy (prefill_tokens q) then Some (off, policy) else None)
            | None => Ok None
            end
        end
    end.

(** [_fallback_order]: the other candidates, the offload route and its policy. *)
Definition _fallback_order (st : router) (q : selection) (primary : adapter) (loop : bool) :
    result selection_error (list adapter * option adapter * option offload_policy) :=
  match routes st !! model_id q with
  | None => Ok ([], None, None)
  | Some route =>
      match _dispatch_range c loop (model_id q) route (endpoint_scope q) (required_modalities q) with
      | Raise e => Raise e
      | Ok l =>
          let target := _offload_target c (model_id q) route l in
          let '(l, target) :=
            match target with
            | Some (off, policy) =>
                if takes_input policy (prefill_tokens q) then (l, target)
                else (filter (fun x => x.1 <> off) l, None)
            | None => (l, None)
            end in
          let off := match target with
                     | Some (o, _) => if decide (o = primary) then None else Some o
                     | None => None
                     end in
          Ok (fst <$> filter (fun x => x.1 <> primary /\ (0 < x.2)%Q) l, off, snd <$> target)
      end
  end.

End claims.

(** ** Admission *)

(** The circuit of an endpoint would admit a request. *)
Definition allows (r : registry) (e : env) (id : string) : bool := (registry_allow_request r e id).2.

(** Asking one circuit changes no answer: a circuit made by asking is closed, as
    the absent one would have been. *)
Lemma allows_stable r e0 id0 e id :
  allows (registry_allow_request r e0 id0).1 e id = allows r e id.
Proof.
  unfold allows, registry_allow_request, _ensure_circuit.
  destruct (circuits r !! id0) as [b0|] eqn:E0; [done|]. simpl.
  destruct (decide (id0 = id)) as [->|Hne].
  - rewrite lookup_insert_eq, E0. done.
  - rewrite lookup_insert_ne by done. by destruct (circuits r !! id).
Qed.

Section selection_spec.
Context `{Blake2b, Adapters} (c : router_config).

(** A candidate passes the gates. *)
Definition passes (r : registry) (at_ : nat -> env) (excluded : gset string) (i : nat) (x : adapter * Q) :
    Prop :=
  (0 < x.2)%Q /\ endpoint_id_for_adapter x.1 ∉ excluded /\
  allows r (at_ i) (endpoint_id_for_adapter x.1) = true.

Lemma gates_spec r at_ excluded i l :
  let '(r', allowed, refused) := gates r at_ excluded i l in
  (forall e id, allows r' e id = allows r e id) /\
  (forall x, x ∈ allowed <-> exists k, l !! k = Some x /\ passes r at_ excluded (i + k) x).
Proof.
  revert r i; induction l as [|[a w] l IH]; intros r i; simpl; [set_solver|].
  set (id := endpoint_id_for_adapter a).
  assert (forall r', (forall e id, allows r' e id = allows r e id) ->
    let '(r'', allowed, _) := gates r' at_ excluded (S i) l in
    (forall e id, allows r'' e id = allows r e id) /\
    (forall x, x ∈ allowed <-> exists k, l !! k = Some x /\ passes r at_ excluded (i + S k) x)) as Hrest.
  { intros r' Hr'. specialize (IH r' (S i)).
    destruct (gates r' at_ excluded (S i) l) as [[r'' allowed] refused]. destruct IH as [I1 I2].
    split; [intros; by rewrite I1, Hr'|]. intros x. rewrite I2. unfold passes.
    setoid_rewrite Hr'. by setoid_rewrite <- Nat.add_succ_comm. }
  assert (~ passes r at_ excluded i (a, w) -> forall allowed : list (adapter * Q),
    (forall x, x ∈ allowed <-> exists k, l !! k = Some x /\ passes r at_ excluded (i + S k) x) ->
    forall x, x ∈ allowed <->
      exists k, ((a, w) :: l) !! k = Some x /\ passes r at_ excluded (i + k) x) as Hskip.
  { intros Hno allowed Hall x. rewrite Hall. split; [intros (k & ? & ?); by exists (S k)|].
    intros ([|k] & Hk & Hp); simplify_eq/=; [|eauto]. by rewrite Nat.add_0_r in Hp. }
  case_bool_decide as Hw; simpl.
  2: { specialize (Hrest r ltac:(done)). destruct (gates r at_ excluded (S i) l) as [[r'' al] rf].
       destruct Hrest. split; [done|]. apply Hskip; [|done]. by intros [? _]. }
  case_bool_decide as Hx.
  { specialize (Hrest r ltac:(done)). destruct (gates r at_ excluded (S i) l) as [[r'' al] rf].
    destruct Hrest. split; [done|]. apply Hskip; [|done]. by intros (_ & ? & _). }
  pose proof (allows_stable r (at_ i) id) as Hst. unfold allows in Hst at 1.
  destruct (registry_allow_request r (at_ i) id) as [r1 ok] eqn:Ea. simpl in Hst.
  specialize (Hrest r1 Hst). assert (allows r (at_ i) id = ok) as Hok by (unfold allows; by rewrite Ea).
  destruct ok; simpl; destruct (gates r1 at_ excluded (S i) l) as [[r'' al] rf]; destruct Hrest as [R1 R2];
    (split; [done|]).
  - intros x. rewrite elem_of_cons, R2. split.
    + intros [->|(k & ? & ?)]; [|by exists (S k)]. exists 0%nat. split; [done|].
      rewrite Nat.add_0_r. split_and!; done.
    + intros ([|k] & Hk & Hp); simplify_eq/=; [by left|right; eauto].
  - apply Hskip; [|done]. intros (_ & _ & Hal). simpl in Hal. fold id in Hal. congruence.
Qed.

(** *** The draw *)

Lemma weighted_draw_spec st allowed tokens key avoid fp t :
  allowed <> [] -> (draw1 t <= 1)%Q -> (draw2 t <= 1)%Q ->
  exists a w, _weighted_draw c st allowed tokens key avoid fp t = Some a /\ (a, w) ∈ allowed /\
    (Some (endpoint_id_for_adapter a) <> avoid \/
     forall x, x ∈ allowed -> Some (endpoint_id_for_adapter x.1) = avoid).
Proof.
  intros Hne H1 H2. unfold _weighted_draw. set (pool := if bool_decide _ then _ else allowed).
  assert (fst <$> pool = fst <$> allowed) as Hfst.
  { unfold pool. case_bool_decide; [|done]. by rewrite <- list_fmap_compose. }
  set (keys := _ <$> pool).
  assert (keys = endpoint_id_for_adapter <$> (fst <$> allowed)) as Hkeys.
  { unfold keys. rewrite <- Hfst, <- list_fmap_compose. done. }
  assert (keys <> []) as Hk by (rewrite Hkeys; by destruct allowed).
  destruct (select_index_cases (prefill_tuning c) (prefill_load st) (draw_at t) keys (snd <$> pool) tokens
    (draw1 t) (draw2 t) key avoid fp Hk H1 H2) as (i & -> & Hi & _).
  destruct (drawn_from_spec (prefill_tuning c) (prefill_load st) (draw_at t) keys tokens key avoid fp Hk)
    as (_ & Hd & _). destruct (Hd _ Hi) as [Hlt Hav]. simpl.
  assert (length keys = length allowed) as Hlen by (rewrite Hkeys; by rewrite !length_fmap).
  destruct (lookup_lt_is_Some_2 allowed i) as [[a w] Haw]; [lia|].
  assert ((fst <$> pool) !! i = Some a) as Hpa by (rewrite Hfst, list_lookup_fmap, Haw; done).
  rewrite list_lookup_fmap in Hpa. exists a, w. rewrite Hpa.
  split_and!; [done|by eapply list_elem_of_lookup_2|].
  assert (forall j x, allowed !! j = Some x -> keys !! j = Some (endpoint_id_for_adapter x.1)) as Hat.
  { intros j x Hj. rewrite Hkeys, !list_lookup_fmap, Hj. done. }
  rewrite (Hat _ _ Haw) in Hav. simpl in Hav. destruct Hav as [?|[->|Hall]]; [by left|by left|].
  right. intros x Hx. apply list_elem_of_lookup_1 in Hx as [j Hj]. by eapply Hall, Hat.
Qed.

(** *** The candidates *)

(** [x] is the [k]-th of the routes the request may use, and the gates let it
    through. *)
Definition candidate (st : router) (q : selection) (t : readings) (k : nat) (x : adapter * Q) : Prop :=
  exists route l, usable_route st (model_id q) = Some route /\
    _dispatch_range c (in_loop t) (model_id q) route (endpoint_scope q) (required_modalities q) = Ok l /\
    l !! k = Some x /\ passes (health_registry st) (gate_at t) (exclude q) k x.

(** [off] is the offload route of the request, under [policy]. *)
Definition offload_of (st : router) (q : selection) (t : readings) (off : adapter) (pol : offload_policy) :
    Prop :=
  exists route l, usable_route st (model_id q) = Some route /\
    _dispatch_range c (in_loop t) (model_id q) route (endpoint_scope q) (required_modalities q) = Ok l /\
    _offload_target c (model_id q) route l = Some (off, pol).

(** The administrator's switches and the request's own bounds leave [a] usable. *)
Definition permitted (route : route_config) (q : selection) (a : adapter) : Prop :=
  adapter_in_endpoint_scope a (endpoint_scope q) = true /\
  adapter_supports_modalities a (required_modalities q) = true /\
  (forall f, is_disabled c = Some f -> f (cfg_provider (config a)) = false) /\
  (forall f, is_excluded c = Some f ->
     f (default (model_id q) (truthy (canonical_model_id route))) (route_id_for_adapter a) = false).

(** Effective weights are the switches applied to as many routes as there are. *)
Lemma effective_shape loop model route l :
  _get_effective_adapters c loop model route = Ok l ->
  exists l0, l = _apply_disabled_providers c l0 (default model (truthy (canonical_model_id route))) /\
    (l0 = adapters route \/ exists raw, raw_adapters route = Some raw /\ length l0 = length raw).
Proof.
  unfold _get_effective_adapters. generalize (_apply_disabled_providers c). intros ap Hl.
  destruct (weight_overrides c), (raw_adapters route) as [[|x raw]|]; try destruct loop;
    try discriminate Hl; injection Hl as <-; eexists; (split; [reflexivity|]); eauto;
    right; eexists; (split; [reflexivity|]); csimpl; by rewrite length_fmap.
Qed.

Lemma effective_permitted loop model route l a w :
  _get_effective_adapters c loop model route = Ok l -> (a, w) ∈ l -> (0 < w)%Q ->
  (forall f, is_disabled c = Some f -> f (cfg_provider (config a)) = false) /\
  (forall f, is_excluded c = Some f ->
     f (default model (truthy (canonical_model_id route))) (route_id_for_adapter a) = false).
Proof.
  intros Hl Ha Hw.
  apply effective_shape in Hl as (l0 & -> & _).
  unfold _apply_disabled_providers in Ha. apply list_elem_of_fmap in Ha as ([a' w'] & E & _).
  destruct (_ || _) eqn:Hor; simplify_eq/=; [lra|]. apply orb_false_iff in Hor as [Hd Hx].
  split; intros f Hf; [by rewrite Hf in Hd|by rewrite Hf in Hx].
Qed.

Lemma range_permitted q loop route l a w :
  _dispatch_range c loop (model_id q) route (endpoint_scope q) (required_modalities q) = Ok l ->
  (a, w) ∈ l -> (0 < w)%Q -> permitted route q a.
Proof.
  unfold _dispatch_range. destruct (_get_effective_adapters _ _ _ _) as [eff|] eqn:He; intros Hl Ha Hw; [|done].
  simplify_eq. apply list_elem_of_filter in Ha as [Hs Ha]. simpl in Hs.
  apply Is_true_true, andb_true_iff in Hs as [? ?].
  destruct (effective_permitted _ _ _ _ _ _ He Ha Hw). split_and!; done.
Qed.

Lemma range_candidates loop q route :
  let range := _dispatch_range c loop (model_id q) route (endpoint_scope q) (required_modalities q) in
  match candidates c loop q route with
  | Ok (l, _) => range = Ok l
  | Raise (AllCircuitsOpenError _) => range = Ok []
  | Raise RuntimeError => loop = true /\ exists f, weight_overrides c = Awaitables f
  | Raise _ => False
  end.
Proof.
  unfold candidates, _dispatch_range.
  destruct (_get_effective_adapters c loop (model_id q) route) as [eff|e] eqn:He.
  - set (sup := filter _ (filter _ eff)).
    assert (filter (fun x => adapter_in_endpoint_scope x.1 (endpoint_scope q) &&
                             adapter_supports_modalities x.1 (required_modalities q)) eff = sup) as ->.
    { unfold sup. rewrite list_filter_filter. apply list_filter_iff. intros x. rewrite andb_True. tauto. }

    destruct (negb _ && _) eqn:E1; [|destruct (bool_decide _ && _) eqn:E2; [|done]]; bool_facts; by f_equal.
  - unfold _get_effective_adapters in He.
    destruct (weight_overrides c) as [| | |f] eqn:Hw, (raw_adapters route) as [[]|];
      try destruct loop; simplify_eq; eauto.
Qed.

(** *** Choosing among them *)

Lemma hold_back_spec q route snapshot allowed :
  allowed <> [] ->
  match hold_back c q route snapshot allowed with
  | Ok al =>
      al <> [] /\ (forall x, x ∈ al -> x ∈ allowed) /\
      (forall x, x ∈ allowed -> x ∉ al ->
         exists pol, _offload_target c (model_id q) route snapshot = Some (x.1, pol) /\
           exists y, y ∈ al /\ y.1 <> x.1) /\
      (forall off pol x, _offload_target c (model_id q) route snapshot = Some (off, pol) ->
         x ∈ al -> x.1 = off ->
         takes_input pol (prefill_tokens q) = true /\ forall y, y ∈ allowed -> y.1 = off)
  | Raise e => exists off pol, e = AllCircuitsOpenError OverOffloadMax /\
      _offload_target c (model_id q) route snapshot = Some (off, pol) /\
      takes_input pol (prefill_tokens q) = false /\ forall y, y ∈ allowed -> y.1 = off
  end.
Proof.
  intros Hne. unfold hold_back.
  destruct (_offload_target c (model_id q) route snapshot) as [[off pol]|] eqn:Ht.
  2: { split_and!; auto; [set_solver|done]. }
  assert (forall x, x ∈ filter (fun x : adapter * Q => x.1 <> off) allowed <-> x ∈ allowed /\ x.1 <> off)
    as Hf by (intros x; rewrite list_elem_of_filter; tauto).
  destruct (filter _ allowed) as [|y rest] eqn:E.
  - assert (forall y, y ∈ allowed -> y.1 = off) as Hall.
    { intros y Hy. apply dec_stable. intros Hn. by apply (not_elem_of_nil y), Hf. }
    destruct (takes_input pol _) eqn:Hti; [|eauto 10].
    split_and!; auto; [set_solver|]. intros off' pol' x [= <- <-] _ _. done.
  - split_and!; [done|intros x Hx; by apply Hf| |].
    + intros x Hx Hn. exists pol. assert (x.1 = off) as ->.
      { apply dec_stable. intros Hd. by apply Hn, Hf. }
      split; [done|]. exists y. split; [set_solver|]. apply Hf. set_solver.
    + intros off' pol' x [= <- <-] Hx Hox. apply Hf in Hx as [_ Hx]. done.
Qed.

Lemma honour_pin_kept st model k now allowed pins a avoid :
  honour_pin c st model k now allowed = (pins, Some a, avoid) ->
  exists w entry, (a, w) ∈ allowed /\ affinities st !! (k, model) = Some entry /\
    (now < expires_at entry)%Q /\ endpoint_id_for_adapter a = pinned_endpoint entry /\
    pins = <[(k, model) := entry <| expires_at := _affinity_expiry c (created_at entry) now |>]>
             (affinities st).
Proof.
  unfold honour_pin. destruct (affinities st !! (k, model)) as [entry|] eqn:He; [|done].
  case_bool_decide; [|done]. destruct (head _) as [[a' w]|] eqn:Hh; [|done].
  destruct (should_keep_affinity _ _ _ _); [|done]. intros [= <- <- <-].
  assert ((a', w) ∈ filter (fun x => endpoint_id_for_adapter x.1 = pinned_endpoint entry) allowed) as Hin
    by (destruct (filter _ _); simplify_eq/=; set_solver).
  apply list_elem_of_filter in Hin as [Hp Hin]. eauto 10.
Qed.

(** What the last part of a selection hands out, over what is left to it. *)
Lemma select_among_spec st q t route snapshot filtered :
  (draw1 t <= 1)%Q -> (draw2 t <= 1)%Q ->
  let '(_, allowed, _) := gates (health_registry st) (gate_at t) (exclude q) 0 snapshot in
  match (select_among c st q t route snapshot filtered).2 with
  | Ok (Some a) => exists al w, hold_back c q route snapshot allowed = Ok al /\ allowed <> [] /\
      (a, w) ∈ al /\
      (require_target q = true -> forall p, truthy (preferred_endpoint_id q) = Some p ->
         endpoint_id_for_adapter a = p)
  | Ok None => False
  | Raise (TargetUnavailableError p) => exists al, hold_back c q route snapshot allowed = Ok al /\
      allowed <> [] /\ require_target q = true /\ truthy (preferred_endpoint_id q) = Some p /\
      forall x, x ∈ al -> endpoint_id_for_adapter x.1 <> p
  | Raise (AllCircuitsOpenError why) =>
      allowed = [] \/ hold_back c q route snapshot allowed = Raise (AllCircuitsOpenError why)
  | Raise RuntimeError => False
  end.
Proof.
  intros H1 H2. unfold select_among.
  destruct (gates _ _ _ _ _) as [[r allowed] refused]. destruct allowed as [|x0 allowed0] eqn:Eal; [by left|].
  rewrite <- Eal. assert (allowed <> []) as Hne by (by subst).
  pose proof (hold_back_spec q route snapshot allowed Hne) as Hhb.
  destruct (hold_back c q route snapshot allowed) as [al|e] eqn:Ehb.
  2: { destruct Hhb as (off & pol & -> & _). simpl. by right. }
  destruct Hhb as (Halne & _).
  set (key := if AFFINITY_ENABLED c then _ else _).
  destruct (match key with Some k => _ | None => _ end) as [[pins kept] avoid] eqn:Ek.
  set (st' := _ <| affinities := pins |>).
  assert (forall l av, l <> [] -> exists a w, (a, w) ∈ l /\
    _weighted_draw c st' l (prefill_tokens q) key av (fingerprint q) t = Some a) as Hdraw.
  { intros l av Hl. destruct (weighted_draw_spec st' l (prefill_tokens q) key av (fingerprint q) t Hl H1 H2)
      as (a & w & Hd & Ha & _). eauto. }
  assert (require_target q = true -> kept = None) as Hreq.
  { intros Hr. rewrite Hr in Ek. destruct key; by simplify_eq. }
  destruct kept as [a|].
  - simpl. destruct key as [k|]; [|done]. destruct (require_target q) eqn:Hr; [done|].
    apply honour_pin_kept in Ek as (w & _ & Ha & _). exists al, w. split_and!; auto. congruence.
  - destruct (truthy (preferred_endpoint_id q)) as [p|] eqn:Hp.
    2: { destruct (Hdraw al avoid Halne) as (a & w & Ha & Hd). rewrite Hd. simpl.
         exists al, w. split_and!; auto. congruence. }
    destruct (filter _ al) as [|y rest] eqn:Ef.
    + destruct (require_target q) eqn:Hr; simpl.
      * exists al. split_and!; auto. intros x Hx Hxp. apply (not_elem_of_nil x). rewrite <- Ef.
        by apply list_elem_of_filter.
      * destruct (Hdraw al avoid Halne) as (a & w & Ha & Hd). rewrite Hd. simpl.
        exists al, w. split_and!; auto. congruence.
    + destruct (Hdraw (y :: rest) None ltac:(done)) as (a & w & Ha & Hd). rewrite Hd. simpl.
      rewrite <- Ef in Ha. apply list_elem_of_filter in Ha as [Hap Ha]. simpl in Hap.
      exists al, w. split_and!; auto. intros _ p' [= <-]. done.
Qed.

End selection_spec.

Section selection_theorems.
Context `{Blake2b, Adapters} (c : router_config).

(** The candidates of a request whose route is known. *)
Lemma candidate_gates st q t route l k x :
  usable_route st (model_id q) = Some route ->
  _dispatch_range c (in_loop t) (model_id q) route (endpoint_scope q) (required_modalities q) = Ok l ->
  candidate c st q t k x <->
  l !! k = Some x /\ passes (health_registry st) (gate_at t) (exclude q) k x.
Proof.
  intros Hr Hl. unfold candidate. split; [|eauto 10].
  intros (route' & l' & Hr' & Hl' & Hk & Hp). rewrite Hr in Hr'. simplify_eq. rewrite Hl in Hl'. by simplify_eq.
Qed.

Lemma offload_of_iff st q t route l off pol :
  usable_route st (model_id q) = Some route ->
  _dispatch_range c (in_loop t) (model_id q) route (endpoint_scope q) (required_modalities q) = Ok l ->
  offload_of c st q t off pol <-> _offload_target c (model_id q) route l = Some (off, pol).
Proof.
  intros Hr Hl. unfold offload_of. split; [|eauto 10].
  intros (route' & l' & Hr' & Hl' & Ht). rewrite Hr in Hr'. simplify_eq. rewrite Hl in Hl'. by simplify_eq.
Qed.

(** What a selection promises of its result. *)
Definition selection_outcome (st : router) (q : selection) (t : readings)
    (res : result selection_error (option adapter)) : Prop :=
  match res with
  | Ok (Some a) =>
      exists route k w, usable_route st (model_id q) = Some route /\
        candidate c st q t k (a, w) /\ permitted c route q a /\
        (forall pol, offload_of c st q t a pol ->
           takes_input pol (prefill_tokens q) = true /\ forall k' y, candidate c st q t k' y -> y.1 = a) /\
        (require_target q = true -> forall p, truthy (preferred_endpoint_id q) = Some p ->
           endpoint_id_for_adapter a = p)
  | Ok None => usable_route st (model_id q) = None
  | Raise (AllCircuitsOpenError _) =>
      forall k y, candidate c st q t k y ->
        exists pol, offload_of c st q t y.1 pol /\ takes_input pol (prefill_tokens q) = false
  | Raise (TargetUnavailableError p) =>
      require_target q = true /\ truthy (preferred_endpoint_id q) = Some p /\
      forall k y, candidate c st q t k y -> endpoint_id_for_adapter y.1 = p ->
        exists pol, offload_of c st q t y.1 pol /\ exists k' z, candidate c st q t k' z /\ z.1 <> y.1
  | Raise RuntimeError => in_loop t = true /\ exists f, weight_overrides c = Awaitables f
  end.

Lemma select_spec st q t :
  truthy (pin_provider q) = None -> (draw1 t <= 1)%Q -> (draw2 t <= 1)%Q ->
  selection_outcome st q t (_select_adapter c st q t).2.
Proof.
  intros Hpin H1 H2. unfold _select_adapter. rewrite Hpin.
  destruct (usable_route st (model_id q)) as [route|] eqn:Hr; [|done].
  pose proof (range_candidates c (in_loop t) q route) as Hc.
  destruct (candidates c (in_loop t) q route) as [[l filtered]|[why|p|]]; simpl in Hc |- *; try done.
  2: { intros k y Hy. apply (candidate_gates _ _ _ _ _ _ _ Hr Hc) in Hy as [Hy _]. done. }
  pose proof (select_among_spec c st q t route l filtered H1 H2) as Hs.
  pose proof (gates_spec (health_registry st) (gate_at t) (exclude q) 0 l) as Hg.
  destruct (gates _ _ _ _ l) as [[r allowed] refused]. destruct Hg as [_ Hg]. simpl in Hg.
  assert (forall y, y ∈ allowed <-> exists k, candidate c st q t k y) as Hcand.
  { intros y. rewrite Hg. by setoid_rewrite (candidate_gates _ _ _ _ _ _ _ Hr Hc). }
  assert (forall off pol, offload_of c st q t off pol <-> _offload_target c (model_id q) route l = Some (off, pol))
    as Hoff by (intros; by apply offload_of_iff).
  destruct (select_among c st q t route l filtered) as [st' [[a|]|[why|p|]]]; simpl in Hs |- *; try done.
  - destruct Hs as (al & w & Hhb & Hne & Ha & Htarget).
    pose proof (hold_back_spec c q route l allowed Hne) as Hh. rewrite Hhb in Hh.
    destruct Hh as (_ & Hsub & _ & Hlast).
    destruct (proj1 (Hcand _) (Hsub _ Ha)) as [k Hk]. exists route, k, w.
    split_and!; [done|done| | |done].
    + apply (candidate_gates _ _ _ _ _ _ _ Hr Hc) in Hk as [Hk [Hw _]].
      eapply range_permitted; [exact Hc|by eapply list_elem_of_lookup_2|done].
    + intros pol Ho%Hoff. destruct (Hlast _ _ _ Ho Ha eq_refl) as [Ht Hall]. split; [done|].
      intros k' y Hy. apply Hall, Hcand. eauto.
  - destruct Hs as [->|Hhb].
    + intros k y Hy. exfalso. apply (not_elem_of_nil y), Hcand. eauto.
    + intros k y Hy. assert (y ∈ allowed) as Hya by (apply Hcand; eauto).
      assert (allowed <> []) as Hne by (intros ->; set_solver).
      pose proof (hold_back_spec c q route l allowed Hne) as Hh. rewrite Hhb in Hh.
      destruct Hh as (off & pol & _ & Ho & Ht & Hall). exists pol. rewrite (Hall y Hya).
      split; [by apply Hoff|done].
  - destruct Hs as (al & Hhb & Hne & Hreq & Hp & Hno). split_and!; [done|done|].
    intros k y Hy Hyp. assert (y ∈ allowed) as Hya by (apply Hcand; eauto).
    pose proof (hold_back_spec c q route l allowed Hne) as Hh. rewrite Hhb in Hh.
    destruct Hh as (_ & Hsub & Hout & _).
    destruct (Hout y Hya) as (pol & Ho & z & Hz & Hzy); [intros Hin; by eapply Hno|].
    exists pol. split; [by apply Hoff|]. destruct (proj1 (Hcand _) (Hsub _ Hz)) as [k' Hk']. eauto.
Qed.

(** C5: automatic selection is sound and complete.  A request without a
    pinned provider gets an adapter exactly when it can be served: the adapter
    has a positive effective weight, is inside the request's scope, takes its
    media, is neither excluded nor disabled by an administrator, and its circuit
    admits the request; it is the offload route only when no other route is
    admissible and the prompt fits; it is the required target when one is
    required.  No adapter comes back only when the model has no usable route; a
    refusal means that no route was admissible but an offload route too small
    for the prompt, and a lost target that the target was not admissible, or is
    an offload route held back. *)
Theorem selection_correct st q t :
  truthy (pin_provider q) = None -> (draw1 t <= 1)%Q -> (draw2 t <= 1)%Q ->
  selection_outcome st q t (_select_adapter c st q t).2.
Proof. apply select_spec. Qed.

End selection_theorems.

(** ** Affinity *)

Section affinity_spec.
Context `{Blake2b, Adapters} (c : router_config).

(** The caller a selection pins for. *)
Definition pin_key (q : selection) : option string :=
  if AFFINITY_ENABLED c then truthy (affinity_key q) else None.

Lemma expiry_not_past now : (now <= _affinity_expiry c now now)%Q.
Proof.
  unfold _affinity_expiry, AFFINITY_TTL_SECONDS. case_bool_decide; [|lra].
  apply py_min_glb; lra.
Qed.

(** Recording a choice leaves the caller pinned to it: a sweep spares it. *)
Lemma record_pins st model a k now :
  affinities (_record_affinity c st model a (Some k) now) !! (k, model) =
  Some (Affinity (endpoint_id_for_adapter a) (_affinity_expiry c now now) now).
Proof.
  unfold _record_affinity, _maybe_sweep_affinity. cbn -[lookup insert filter size].
  case_bool_decide; [by rewrite lookup_insert_eq|].
  apply map_lookup_filter_Some. rewrite lookup_insert_eq. split; [done|]. simpl.
  pose proof (expiry_not_past now). lra.
Qed.

(** How a successful selection leaves the caller's pin: made anew, or renewed. *)
Lemma pin_after st q t st' a k :
  truthy (pin_provider q) = None -> pin_key q = Some k -> _select_adapter c st q t = (st', Ok (Some a)) ->
  affinities st' !! (k, model_id q) =
    Some (Affinity (endpoint_id_for_adapter a) (_affinity_expiry c (record_at t) (record_at t)) (record_at t)) \/
  exists entry, affinities st !! (k, model_id q) = Some entry /\ (pin_at t < expires_at entry)%Q /\
    pinned_endpoint entry = endpoint_id_for_adapter a /\ require_target q = false /\
    affinities st' !! (k, model_id q) =
      Some (entry <| expires_at := _affinity_expiry c (created_at entry) (pin_at t) |>).
Proof.
  unfold pin_key, _select_adapter. intros Hpin Hkey. rewrite Hpin.
  destruct (usable_route st (model_id q)) as [route|]; [|done].
  destruct (candidates c (in_loop t) q route) as [[l filtered]|]; [|done].
  unfold select_among. destruct (gates _ _ _ _ _) as [[r allowed] refused].
  destruct allowed as [|x0 al0]; [done|]. set (allowed := x0 :: al0). clearbody allowed.
  destruct (hold_back c q route l allowed) as [al|]; [|done].
  rewrite Hkey. set (st0 := st <| health_registry := r |>). change (affinities st) with (affinities st0).
  destruct (if require_target q then _ else _) as [[pins kept] avoid] eqn:Ek.
  set (st1 := st0 <| affinities := pins |>).
  assert (forall l' av,
    match _weighted_draw c st1 l' (prefill_tokens q) (Some k) av (fingerprint q) t with
    | Some a0 => (_record_affinity c st1 (model_id q) a0 (Some k) (record_at t), Ok (Some a0))
    | None => (st1, Ok None)
    end = (st', Ok (Some a)) :> router * result selection_error (option adapter) ->
    affinities st' !! (k, model_id q) =
    Some (Affinity (endpoint_id_for_adapter a) (_affinity_expiry c (record_at t) (record_at t)) (record_at t)))
    as Hdraw.
  { intros l' av. destruct (_weighted_draw _ _ _ _ _ _ _ _) as [a0|]; [|done].
    intros E. injection E as <- <-. exact (record_pins st1 (model_id q) a0 k (record_at t)). }
  destruct kept as [a0|].
  - intros E. injection E as <- ->. right. destruct (require_target q); [done|].
    apply honour_pin_kept in Ek as (w & entry & _ & He & Hlive & Hid & ->). exists entry.
    split_and!; auto. simpl. by rewrite lookup_insert_eq.
  - intros E. left. destruct (truthy (preferred_endpoint_id q)) as [p|]; [|by eapply Hdraw].
    destruct (filter _ al); [|by eapply Hdraw]. destruct (require_target q); [done|by eapply Hdraw].
Qed.

(** *** The age of a pin *)

Definition pins_ok (m : gmap (string * string) affinity) : Prop :=
  map_Forall (fun _ e => (0 < AFFINITY_MAX_AGE_SECONDS c)%Q ->
    (expires_at e <= created_at e + AFFINITY_MAX_AGE_SECONDS c)%Q) m.

Lemma expiry_capped created now :
  (0 < AFFINITY_MAX_AGE_SECONDS c)%Q ->
  (_affinity_expiry c created now <= created + AFFINITY_MAX_AGE_SECONDS c)%Q.
Proof. intros Hm. unfold _affinity_expiry. rewrite bool_decide_eq_true_2 by done. apply py_min_spec. Qed.

Lemma pins_ok_insert m k e created now :
  pins_ok m -> pins_ok (<[k := Affinity e (_affinity_expiry c created now) created]> m).
Proof. intros Hm. apply map_Forall_insert_2; [|done]. intros H'. by apply expiry_capped. Qed.

Lemma pins_ok_delete m k : pins_ok m -> pins_ok (delete k m).
Proof. apply map_Forall_delete. Qed.

Lemma pins_ok_record st model a key now :
  pins_ok (affinities st) -> pins_ok (affinities (_record_affinity c st model a key now)).
Proof.
  intros Hm. destruct key as [k|]; [|done]. unfold _record_affinity, _maybe_sweep_affinity.
  cbn -[insert filter size]. case_bool_decide; [by apply pins_ok_insert|].
  intros x e [He _]%map_lookup_filter_Some. eapply pins_ok_insert; eauto.
Qed.

Lemma pins_ok_honour st model k now allowed :
  pins_ok (affinities st) -> pins_ok (honour_pin c st model k now allowed).1.1.
Proof.
  intros Hm. unfold honour_pin. destruct (affinities st !! (k, model)) as [entry|]; [|done].
  case_bool_decide; [|by apply pins_ok_delete]. destruct (head _); [|by apply pins_ok_delete].
  destruct (should_keep_affinity _ _ _ _); [|done]. by apply pins_ok_insert.
Qed.

Lemma select_pins_ok st q t : pins_ok (affinities st) -> pins_ok (affinities (_select_adapter c st q t).1).
Proof.
  intros Hm. unfold _select_adapter. destruct (usable_route _ _) as [route|]; [|done].
  destruct (candidates _ _ _ _) as [[l filtered]|]; [|done]. destruct (truthy (pin_provider q)); [done|].
  unfold select_among. destruct (gates _ _ _ _ _) as [[r allowed] refused].
  destruct allowed as [|x0 al0]; [done|]. destruct (hold_back _ _ _ _ _) as [al|]; [|done].
  set (key := if AFFINITY_ENABLED c then _ else _).
  set (w := match key with Some k => _ | None => _ end).
  assert (pins_ok w.1.1) as Hw.
  { subst w. destruct key; [|done]. destruct (require_target q); [done|]. by apply pins_ok_honour. }
  destruct w as [[pins kept] avoid]. simpl in Hw.
  destruct kept; [done|].
  repeat case_match; try done; by apply pins_ok_record.
Qed.

(** What can happen to a router: selections, pins dropped after a failure, and
    anything that leaves the pins alone. *)
Inductive router_step : router -> router -> Prop :=
| RSelect st q t : router_step st (_select_adapter c st q t).1
| RDrop st key model : router_step st (_drop_affinity st key model)
| ROther st rts r load : router_step st (Router rts (affinities st) r load).

Lemma reachable_pins_ok st st' : rtc router_step st st' -> pins_ok (affinities st) -> pins_ok (affinities st').
Proof.
  induction 1 as [|st st1 st2 Hs _ IH]; intros Hm; [done|]. apply IH. clear IH.
  destruct Hs; [by apply select_pins_ok| |done].
  unfold _drop_affinity. destruct (truthy key); [|done]. by apply pins_ok_delete.
Qed.

(** A pin cannot outlive its maximum age.  However busy its caller, once a
    pin is as old as the maximum age, the caller's next successful selection is
    a fresh draw, recorded as made at that moment; before that, it either is one
    too or keeps the pin's endpoint and its date of making. *)
Theorem pin_age_bounded st0 st q t st' a k entry :
  affinities st0 = ∅ -> rtc router_step st0 st -> (0 < AFFINITY_MAX_AGE_SECONDS c)%Q ->
  truthy (pin_provider q) = None -> pin_key q = Some k ->
  affinities st !! (k, model_id q) = Some entry -> _select_adapter c st q t = (st', Ok (Some a)) ->
  exists entry', affinities st' !! (k, model_id q) = Some entry' /\
    pinned_endpoint entry' = endpoint_id_for_adapter a /\
    (created_at entry' = record_at t \/
     (pin_at t < created_at entry + AFFINITY_MAX_AGE_SECONDS c)%Q /\
     created_at entry' = created_at entry /\ pinned_endpoint entry' = pinned_endpoint entry).
Proof.
  intros Hinit Hr Hmax Hpin Hk He Hs.
  assert (pins_ok (affinities st)) as Hok by (eapply reachable_pins_ok; [done|]; by rewrite Hinit).
  destruct (pin_after st q t st' a k Hpin Hk Hs) as [Hf|(entry0 & He0 & Hlive & Hid & _ & Hf)].
  - eexists. split_and!; [exact Hf|done|]. by left.
  - rewrite He in He0. injection He0 as <-. eexists. split_and!; [exact Hf|done|]. right. simpl.
    split_and!; [|done|done]. specialize (Hok _ _ He Hmax). simpl in Hok. lra.
Qed.

(** A live pin decides.  While a caller's pin is live, its endpoint passes
    the gates, is not an offload route held back, and carries no more of other
    callers' prefill than the ceiling, the caller's selection stays on that
    endpoint, renews the pin and touches nothing else, whatever endpoint the
    selection was asked to prefer, unless it requires it. *)
Theorem live_pin_decides st q t k entry n x :
  truthy (pin_provider q) = None -> require_target q = false -> pin_key q = Some k ->
  affinities st !! (k, model_id q) = Some entry -> (pin_at t < expires_at entry)%Q ->
  candidate c st q t n x -> endpoint_id_for_adapter x.1 = pinned_endpoint entry ->
  (forall pol, ~ offload_of c st q t x.1 pol) ->
  should_keep_affinity (prefill_tuning c) (prefill_load st) (pinned_endpoint entry) (Some k) = true ->
  exists st' a, _select_adapter c st q t = (st', Ok (Some a)) /\
    endpoint_id_for_adapter a = pinned_endpoint entry /\
    affinities st' = <[(k, model_id q) :=
      entry <| expires_at := _affinity_expiry c (created_at entry) (pin_at t) |>]> (affinities st).
Proof.
  intros Hpin Hreq Hkey He Hlive Hcand Hid Hnooff Hkeep.
  pose proof Hcand as (route & l & Hr & Hl & Hx & Hp).
  assert (forall pol, _offload_target c (model_id q) route l <> Some (x.1, pol)) as Hoff.
  { intros pol Ht. eapply Hnooff. by eapply offload_of_iff. }
  unfold _select_adapter. rewrite Hr, Hpin.
  pose proof (range_candidates c (in_loop t) q route) as Hc.
  destruct (candidates c (in_loop t) q route) as [[l' filtered]|[why|p|]] eqn:Ec; simpl in Hc; try done.
  2: { rewrite Hl in Hc. by simplify_eq/=. }
  2: { destruct Hc as [Hloop [f Hf]]. unfold _dispatch_range, _get_effective_adapters in Hl.
       unfold candidates, _get_effective_adapters in Ec. rewrite Hf, Hloop in Hl, Ec.
       destruct (raw_adapters route) as [[]|]; try done; by repeat case_match; simplify_eq. }
  rewrite Hl in Hc. injection Hc as <-. unfold select_among.
  pose proof (gates_spec (health_registry st) (gate_at t) (exclude q) 0 l) as Hg.
  destruct (gates _ _ _ _ l) as [[r allowed] refused]. destruct Hg as [_ Hg].
  assert (x ∈ allowed) as Hxa by (apply Hg; eauto).
  destruct allowed as [|x0 al0] eqn:Eal; [set_solver|]. rewrite <- Eal in *. clear Eal Hg.
  pose proof (hold_back_spec c q route l allowed ltac:(intros ->; set_solver)) as Hh.
  destruct (hold_back c q route l allowed) as [al|].
  2: { destruct Hh as (off & pol & _ & Ht & _ & Hall). exfalso. rewrite <- (Hall x Hxa) in Ht. by eapply Hoff. }
  destruct Hh as (_ & _ & Hout & _).
  assert (x ∈ al) as Hxal.
  { destruct (decide (x ∈ al)) as [|Hn]; [done|]. destruct (Hout x Hxa Hn) as (pol & Ht & _). by destruct (Hoff pol). }
  unfold pin_key in Hkey. rewrite Hkey, Hreq.
  unfold honour_pin. cbn [affinities prefill_load set_to]. rewrite He, bool_decide_eq_true_2 by done.
  destruct (head _) as [y|] eqn:Hy0.
  - rewrite Hkeep. eexists _, _. split_and!; [reflexivity| |done].
    assert (y ∈ filter (fun x => endpoint_id_for_adapter x.1 = pinned_endpoint entry) al) as Hy
      by (destruct (filter _ _); simplify_eq/=; set_solver).
    by apply list_elem_of_filter in Hy as [? _].
  - exfalso. assert (x ∈ filter (fun x => endpoint_id_for_adapter x.1 = pinned_endpoint entry) al) as Hy
      by (by apply list_elem_of_filter). destruct (filter _ al); [set_solver|done].
Qed.

End affinity_spec.

(** ** Claims *)

Section claim_theorems.
Context `{Blake2b, Adapters, ErrorText} (c : router_config).

Lemma select_routes st q t : routes (_select_adapter c st q t).1 = routes st.
Proof.
  unfold _select_adapter, select_among, _record_affinity. repeat case_match; by simplify_eq/=.
Qed.

Lemma claim_for_routes st p a : routes (claim_for st p a).1 = routes st.
Proof. unfold claim_for. by destruct (registry_begin_dispatch _ _ _). Qed.

Lemma claim_for_endpoint st p a cl :
  (claim_for st p a).2 = Some cl -> claim_endpoint cl = endpoint_id_for_adapter a.
Proof.
  unfold claim_for, registry_begin_dispatch. destruct (_ensure_circuit _ _ _) as [r b].
  destruct (begin_dispatch _ _) as [b' [[] tok]]; intros E; by simplify_eq/=.
Qed.

Lemma select_never_held st q t ex : (_select_adapter c st q t).2 <> Raise (AllCircuitsOpenError (ProbesHeld ex)).
Proof.
  unfold _select_adapter. destruct (usable_route _ _) as [route|]; [|done].
  destruct (candidates c (in_loop t) q route) as [[l filtered]|e] eqn:Ec.
  2: { simpl. intros [= ->]. unfold candidates in Ec.
       destruct (_get_effective_adapters _ _ _ _) as [eff|e'] eqn:Ee; [by repeat case_match; simplify_eq|].
       unfold _get_effective_adapters in Ee. simplify_eq.
       destruct (weight_overrides c), (raw_adapters route) as [[]|], (in_loop t); done. }
  destruct (truthy (pin_provider q)); [done|]. unfold select_among.
  destruct (gates _ _ _ _ _) as [[r allowed] refused]. destruct allowed as [|x0 al0]; [done|].
  destruct (hold_back _ _ _ _ _) as [al|e] eqn:Eh.
  2: { simpl. intros [= ->]. unfold hold_back in Eh. by repeat case_match; simplify_eq. }
  destruct (match (if AFFINITY_ENABLED c then _ else _) with Some k => _ | None => _ end) as [[pins kept] avoid].
  destruct kept; [done|]. destruct (truthy (preferred_endpoint_id q)); repeat case_match; done.
Qed.

(** The range of a request does not depend on the event loop, save that it may
    not be readable inside one. *)
Definition range_of (q : selection) (route : route_config) (l : list (adapter * Q)) : Prop :=
  exists loop, _dispatch_range c loop (model_id q) route (endpoint_scope q) (required_modalities q) = Ok l.

Lemma range_unique q route l l' : range_of q route l -> range_of q route l' -> l = l'.
Proof.
  intros [b Hb] [b' Hb'].
  assert (_dispatch_range c false (model_id q) route (endpoint_scope q) (required_modalities q) = Ok l) as E.
  { destruct b; [|done]. revert Hb. unfold _dispatch_range, _get_effective_adapters.
    by destruct (weight_overrides c), (raw_adapters route) as [[]|]. }
  assert (_dispatch_range c false (model_id q) route (endpoint_scope q) (required_modalities q) = Ok l') as E'.
  { destruct b'; [|done]. revert Hb'. unfold _dispatch_range, _get_effective_adapters.
    by destruct (weight_overrides c), (raw_adapters route) as [[]|]. }
  congruence.
Qed.

(** The endpoints of the routes in a list. *)
Definition endpoints (l : list (adapter * Q)) : gset string :=
  list_to_set ((fun x => endpoint_id_for_adapter x.1) <$> l).

Lemma elem_of_endpoints l id :
  id ∈ endpoints l <-> exists x, x ∈ l /\ endpoint_id_for_adapter x.1 = id.
Proof.
  unfold endpoints. rewrite elem_of_list_to_set, list_elem_of_fmap. naive_solver.
Qed.

Lemma endpoints_size l : (size (endpoints l) <= length l)%nat.
Proof.
  induction l as [|x l IH]; [done|]. unfold endpoints in *. csimpl.
  rewrite size_union_alt, size_singleton.
  assert (size (list_to_set ((fun x => endpoint_id_for_adapter x.1) <$> l) ∖ {[endpoint_id_for_adapter x.1]} : gset string)
    <= size (list_to_set ((fun x => endpoint_id_for_adapter x.1) <$> l) : gset string))%nat
    by (apply subseteq_size; set_solver). lia.
Qed.

(** Every pass draws numbers of at most 1. *)
Definition draws_ok (p : nat -> pass) : Prop :=
  forall j, (draw1 (reads (p j)) <= 1)%Q /\ (draw2 (reads (p j)) <= 1)%Q.

(** A request without a preference that leaves out some endpoints. *)
Definition plain (q : selection) (ex : gset string) : selection :=
  q <| exclude := ex |> <| preferred_endpoint_id := None |> <| require_target := false |>.

(** What the registry answers a pass that selected [id], after what others did to it
    since the selection. *)
Definition begin_at (p : pass) (s : router) (id : string) : registry * option dispatch_claim :=
  registry_begin_dispatch (rrun (health_registry s) (meanwhile p)).1 (claim_at p) id.

(** The passes of a request: [asked j s q'] when pass [j] selects in state [s] with
    the arguments [q'].  A pass follows another whose claim the registry refused. *)
Inductive asked (st : router) (q : selection) (p : nat -> pass) : nat -> router -> selection -> Prop :=
| AskPreferred pref :
    truthy (preferred_endpoint_id q) = Some pref -> asked st q p 0 st (q <| exclude := ∅ |>)
| AskPlain : truthy (preferred_endpoint_id q) = None -> asked st q p 1 st (plain q ∅)
| AskUnrouted pref st1 :
    truthy (preferred_endpoint_id q) = Some pref ->
    _select_adapter c st (q <| exclude := ∅ |>) (reads (p 0%nat)) = (st1, Ok None) -> asked st q p 1 st1 (plain q ∅)
| AskAgain j s q' s1 a r :
    asked st q p j s q' -> _select_adapter c s q' (reads (p j)) = (s1, Ok (Some a)) ->
    begin_at (p j) s1 (endpoint_id_for_adapter a) = (r, None) -> require_target q' = false ->
    asked st q p (S j) (s1 <| health_registry := r |>) (plain q ({[endpoint_id_for_adapter a]} ∪ exclude q')).

(** A pass of the request selected [id] and the registry of that moment refused its
    claim. *)
Definition refused_claim (st : router) (q : selection) (p : nat -> pass) (id : string) : Prop :=
  exists j s q' s1 a r, asked st q p j s q' /\ _select_adapter c s q' (reads (p j)) = (s1, Ok (Some a)) /\
    endpoint_id_for_adapter a = id /\ begin_at (p j) s1 id = (r, None).

(** What a granted claim rests on: a pass of the request whose selection chose the
    adapter and to which the registry of that moment granted this claim, leaving the
    registry [st'] has. *)
Definition well_claimed (st : router) (q : selection) (p : nat -> pass) (st' : router) (route : route_config)
    (a : adapter) (cl : dispatch_claim) : Prop :=
  claim_endpoint cl = endpoint_id_for_adapter a /\ permitted c route q a /\
  exists j s q' s1 r k w, asked st q p j s q' /\ _select_adapter c s q' (reads (p j)) = (s1, Ok (Some a)) /\
    candidate c s q' (reads (p j)) k (a, w) /\ begin_at (p j) s1 (endpoint_id_for_adapter a) = (r, Some cl) /\
    st' = s1 <| health_registry := r |>.

Lemma claim_for_begin s p a s2 o :
  claim_for s p a = (s2, o) ->
  exists r, begin_at p s (endpoint_id_for_adapter a) = (r, o) /\ s2 = s <| health_registry := r |>.
Proof.
  unfold claim_for, begin_at. destruct (registry_begin_dispatch _ _ _) as [r cl]. intros [= <- <-]. by exists r.
Qed.

Lemma claim_loop_spec st0 q0 route n j st q p :
  draws_ok p -> asked st0 q0 p j st q -> q = plain q0 (exclude q) ->
  truthy (pin_provider q) = None -> usable_route st (model_id q) = Some route ->
  match claim_loop c n j st q p with
  | (st', Ok (Some (a, cl))) => well_claimed st0 q0 p st' route a cl
  | (_, Raise (AllCircuitsOpenError (ProbesHeld ex))) =>
      exclude q ⊆ ex /\ size ex = (n + size (exclude q))%nat /\
      forall id, id ∈ ex -> id ∉ exclude q ->
        refused_claim st0 q0 p id /\ exists l, range_of q route l /\ id ∈ endpoints l
  | (_, Ok None) => False
  | _ => True
  end.
Proof.
  intros Hd. revert j st q; induction n as [|n IH]; intros j st q Hask Hq Hpin Hr; cbn [claim_loop]; [set_solver|].
  destruct (Hd j) as [Hd1 Hd2].
  pose proof (select_spec c st q (reads (p j)) Hpin Hd1 Hd2) as Hs.
  pose proof (select_never_held st q (reads (p j))) as Hnh.
  pose proof (select_routes st q (reads (p j))) as Hrt.
  destruct (_select_adapter c st q (reads (p j))) as [st1 [[a|]|e]] eqn:Es; cbn [fst snd] in *.
  2: congruence.
  2: { destruct e as [[]| |]; try done. by edestruct Hnh. }
  destruct Hs as (route' & k & w & Hr' & Hcand & Hperm & _ & _). rewrite Hr in Hr'. injection Hr' as <-.
  assert (permitted c route q0 a) as Hperm0 by (by rewrite Hq in Hperm).
  pose proof (claim_for_routes st1 (p j) a) as Hrt2.
  pose proof (claim_for_endpoint st1 (p j) a) as Hep. pose proof (claim_for_begin st1 (p j) a) as Hbegin.
  destruct (claim_for st1 (p j) a) as [st2 o]. destruct (Hbegin st2 o eq_refl) as (r & Hb & Hst2).
  destruct o as [cl|]; cbn [fst snd] in *.
  { split_and!; [by apply Hep|done|]. exists j, st, q, st1, r, k, w. by split_and!. }
  set (q' := q <| exclude := {[endpoint_id_for_adapter a]} ∪ exclude q |>).
  assert (q' = plain q0 ({[endpoint_id_for_adapter a]} ∪ exclude q)) as Hq' by (subst q'; by rewrite Hq).
  assert (asked st0 q0 p (S j) st2 q') as Hask2.
  { rewrite Hq', Hst2. apply (AskAgain _ _ _ j st q st1 a r); [done..|by rewrite Hq]. }
  specialize (IH (S j) st2 q' Hask2 Hq' Hpin).
  assert (usable_route st2 (model_id q') = Some route) as Hr2.
  { unfold usable_route in *. by rewrite Hrt2, Hrt. }
  specialize (IH Hr2). destruct (claim_loop c n (S j) st2 q' p) as [st3 [[[a' cl]|]|[[]| |]]]; try done; simpl in *.
  - destruct IH as (I1 & I2 & I3). destruct Hcand as (route' & l & Hr' & Hl & Hk & Hp).
    assert (endpoint_id_for_adapter a ∉ exclude q) as Hnew by apply Hp.
    rewrite size_union in I2 by set_solver. rewrite size_singleton in I2.
    split_and!; [set_solver|lia|]. intros id Hid Hnot.
    destruct (decide (id = endpoint_id_for_adapter a)) as [->|Hne].
    + split; [by exists j, st, q, st1, a, r|]. exists l. split; [|apply elem_of_endpoints].
      * exists (in_loop (reads (p j))). congruence.
      * exists (a, w). split; [by eapply list_elem_of_lookup_2|done].
    + apply I3; [done|]. set_solver.
Qed.

(** A route lists as many raw weights as routes, as [register_route] makes it. *)
Definition route_ok (route : route_config) : Prop :=
  forall raw, raw_adapters route = Some raw -> length raw = length (adapters route).

Lemma register_route_ok st model l aliases admin role publish :
  map_Forall (fun _ => route_ok) (routes st) ->
  map_Forall (fun _ => route_ok) (routes (register_route st model l aliases admin role publish)).
Proof.
  intros Hok. unfold register_route. case_bool_decide; [done|]. cbn [routes set_to].
  set (cfg := RouteConfig _ _ _ _ _ _).
  assert (route_ok cfg) as Hcfg.
  { intros raw [= <-]. simpl. by rewrite !length_fmap. }
  assert (map_Forall (fun _ => route_ok) (<[model := cfg]> (routes st))) as Hm
    by (by apply map_Forall_insert_2).
  revert Hm. generalize (<[model := cfg]> (routes st)). induction aliases as [|al aliases IH]; intros m Hm; simpl;
    [done|]. apply IH. by apply map_Forall_insert_2.
Qed.

Lemma range_length q route l :
  route_ok route -> range_of q route l -> (length l <= length (adapters route))%nat.
Proof.
  intros Hok [b Hb]. unfold _dispatch_range in Hb.
  destruct (_get_effective_adapters _ _ _ _) as [eff|] eqn:Ee; [|done]. simplify_eq.
  apply effective_shape in Ee as (l0 & -> & Hl0).
  etransitivity; [apply length_filter|]. unfold _apply_disabled_providers. rewrite length_fmap.
  destruct Hl0 as [->|(raw & Hraw & ->)]; [done|]. by rewrite (Hok raw Hraw).
Qed.

(** A loop with a pass for every route of the model gives up only when every
    endpoint of the request's range has been refused. *)
Lemma claim_loop_exhaustive st0 q0 route j st q p ex l :
  draws_ok p -> asked st0 q0 p j st q -> q = plain q0 (exclude q) -> truthy (pin_provider q) = None -> usable_route st (model_id q) = Some route ->
  route_ok route -> range_of q route l -> exclude q ⊆ endpoints l ->
  (forall id, id ∈ exclude q -> refused_claim st0 q0 p id) ->
  (claim_loop c (route_attempts st (model_id q)) j st q p).2 = Raise (AllCircuitsOpenError (ProbesHeld ex)) ->
  forall id, id ∈ endpoints l -> id ∈ ex /\ refused_claim st0 q0 p id.
Proof.
  intros Hd Hask Hq Hpin Hr Hok Hl Hex Href Hres.
  pose proof (claim_loop_spec st0 q0 route (route_attempts st (model_id q)) j st q p Hd Hask Hq Hpin Hr) as Hs.
  destruct (claim_loop c _ j st q p) as [st' res]. cbn [snd] in Hres. subst res. destruct Hs as (S1 & S2 & S3).
  assert (route_attempts st (model_id q) = length (adapters route)) as Hn.
  { unfold usable_route in Hr. unfold route_attempts. destruct (routes st !! model_id q) as [rt|]; [|done].
    simpl in Hr. destruct (published rt); [|done]. simpl in Hr. by case_bool_decide; simplify_eq/=. }
  assert (forall id, id ∈ ex -> id ∈ endpoints l /\ refused_claim st0 q0 p id) as Hin.
  { intros id Hid. destruct (decide (id ∈ exclude q)) as [?|Hnot]; [auto|].
    destruct (S3 id Hid Hnot) as (? & l' & Hl' & ?). by rewrite (range_unique _ _ _ _ Hl Hl'). }
  assert (ex ≡ endpoints l) as Heq.
  { apply set_subseteq_size_equiv; [intros id Hid; by apply Hin|].
    pose proof (endpoints_size l). pose proof (range_length q route l Hok Hl). lia. }
  intros id Hid. assert (id ∈ ex) by set_solver. split; [done|]. by apply Hin.
Qed.

(** What selection and claim promise of their result. *)
Definition claim_outcome (st : router) (q : selection) (p : nat -> pass)
    (x : router * result selection_error (option (adapter * option dispatch_claim))) : Prop :=
  match x.2 with
  | Ok (Some (a, Some cl)) =>
      exists route, usable_route st (model_id q) = Some route /\ well_claimed st q p x.1 route a cl /\
        (require_target q = true -> forall pref, truthy (preferred_endpoint_id q) = Some pref ->
           endpoint_id_for_adapter a = pref)
  | Ok (Some (_, None)) => False
  | Ok None => usable_route st (model_id q) = None
  | Raise (AllCircuitsOpenError (ProbesHeld ex)) =>
      forall route l, usable_route st (model_id q) = Some route -> route_ok route -> range_of q route l ->
        forall id, id ∈ endpoints l -> id ∈ ex /\ refused_claim st q p id
  | Raise _ => True
  end.

(** The loop without a preference, entered after the endpoints in [ex0] refused. *)
Lemma claim_loop_outcome st st1 q p ex0 :
  let q1 := plain q ex0 in
  asked st q p 1 st1 q1 -> truthy (pin_provider q) = None -> draws_ok p -> routes st1 = routes st ->
  (forall route l, usable_route st (model_id q) = Some route -> range_of q route l -> ex0 ⊆ endpoints l) ->
  (forall id, id ∈ ex0 -> refused_claim st q p id) ->
  (require_target q = true -> truthy (preferred_endpoint_id q) = None \/ usable_route st (model_id q) = None) ->
  claim_outcome st q p (with_claim (claim_loop c (route_attempts st (model_id q)) 1 st1 q1 p)).
Proof.
  intros q1 Hask Hpin Hd Hrt Hex Href Hreq.
  assert (usable_route st1 (model_id q) = usable_route st (model_id q)) as Hu
    by (unfold usable_route; by rewrite Hrt).
  assert (route_attempts st1 (model_id q) = route_attempts st (model_id q)) as Hn
    by (unfold route_attempts; by rewrite Hrt).
  destruct (usable_route st (model_id q)) as [route|] eqn:Hr.
  - pose proof (claim_loop_spec st q route (route_attempts st (model_id q)) 1 st1 q1 p Hd Hask eq_refl Hpin Hu) as Hs.
    pose proof (claim_loop_exhaustive st q route 1 st1 q1 p) as He.
    change (model_id q1) with (model_id q) in He. rewrite Hn in He.
    destruct (claim_loop c _ 1 st1 q1 p) as [st2 [[[a cl]|]|[[]| |]]]; try done; simpl in *.
    + exists route. split_and!; [done..|intros Hq pref Hp; destruct (Hreq Hq); congruence].
    + intros route' l Hr' Hok Hl. rewrite Hr in Hr'. injection Hr' as <-. eapply He; eauto.
  - assert (exists n, route_attempts st (model_id q) = S n) as [n ->].
    { unfold route_attempts. destruct (routes st !! _) as [rt|]; [|eauto]. case_bool_decide; [eauto|].
      destruct (adapters rt); [done|]. simpl. eauto. }
    cbn [claim_loop]. unfold _select_adapter. change (model_id q1) with (model_id q). by rewrite Hu.
Qed.

Lemma claim_spec st q p :
  truthy (pin_provider q) = None -> draws_ok p ->
  claim_outcome st q p (_select_and_claim_adapter c st q p).
Proof.
  intros Hpin Hd. unfold _select_and_claim_adapter. set (q0 := q <| exclude := ∅ |>).
  change (pin_provider q0) with (pin_provider q). rewrite Hpin.
  change (preferred_endpoint_id q0) with (preferred_endpoint_id q). change (model_id q0) with (model_id q).
  destruct (truthy (preferred_endpoint_id q)) as [pref|] eqn:Hpref.
  2: { apply (claim_loop_outcome st st q p ∅); [by apply AskPlain|done|done|done|set_solver|set_solver|by left]. }
  destruct (Hd 0%nat) as [Hd1 Hd2].
  pose proof (select_spec c st q0 (reads (p 0%nat)) Hpin Hd1 Hd2) as Hs.
  pose proof (select_never_held st q0 (reads (p 0%nat))) as Hnh.
  pose proof (select_routes st q0 (reads (p 0%nat))) as Hrt.
  destruct (_select_adapter c st q0 (reads (p 0%nat))) as [st1 [[a|]|e]] eqn:Es; cbn [fst snd] in *.
  - destruct Hs as (route & k & w & Hr & Hcand & Hperm & _ & Htarget).
    pose proof (claim_for_routes st1 (p 0%nat) a) as Hrt2.
    pose proof (claim_for_endpoint st1 (p 0%nat) a) as Hep.
    pose proof (claim_for_begin st1 (p 0%nat) a) as Hbegin.
    destruct (claim_for st1 (p 0%nat) a) as [st2 o]. destruct (Hbegin st2 o eq_refl) as (r & Hb & Hst2).
    assert (asked st q p 0 st q0) as Hask by (by apply (AskPreferred _ _ _ pref)).
    destruct o as [cl|]; cbn [fst snd] in *.
    + exists route. split_and!; [done| |done]. split_and!; [by apply Hep|done|].
      exists 0%nat, st, q0, st1, r, k, w. by split_and!.
    + change (require_target q0) with (require_target q). destruct (require_target q) eqn:Hreq; [done|].
      apply (claim_loop_outcome st st2 q p {[endpoint_id_for_adapter a]}); [|done|done|by rewrite Hrt2, Hrt| | |congruence].
      * assert (({[endpoint_id_for_adapter a]} : gset string) = {[endpoint_id_for_adapter a]} ∪ exclude q0) as -> by set_solver.
        subst st2. by apply (AskAgain _ _ _ 0 st q0).
      * intros route' l Hr' Hl. change (model_id q0) with (model_id q) in Hr. rewrite Hr in Hr'.
        injection Hr' as <-. destruct Hcand as (route' & l' & Hr' & Hl' & Hk & _).
        change (model_id q0) with (model_id q) in Hr'. rewrite Hr in Hr'. injection Hr' as <-.
        assert (l = l') as -> by (eapply range_unique; [done|]; eexists; exact Hl').
        apply singleton_subseteq_l, elem_of_endpoints. exists (a, w).
        split; [by eapply list_elem_of_lookup_2|done].
      * intros id ->%elem_of_singleton. by exists 0%nat, st, q0, st1, a, r.
  - apply (claim_loop_outcome st st1 q p ∅); [by eapply AskUnrouted|done|done|done|set_solver|set_solver|]. by right.
  - destruct e as [[]| |]; try done. by edestruct Hnh.
Qed.

(** C6: selection and claim commit to one adapter.  An automatic dispatch that
    is placed holds the claim the health registry granted for its own endpoint, in the
    state that registry was in when one of the request's passes asked it, on an adapter
    that pass selected and found permitted, and on the required target if there is one;
    none is placed only when the model has no usable route; and the loop gives up for
    refused claims only after every endpoint of the request's range was selected by a
    pass and refused by the registry of that moment, so a pass per route is enough. *)
Theorem claim_correct st q p :
  truthy (pin_provider q) = None -> draws_ok p ->
  claim_outcome st q p (_select_and_claim_adapter c st q p).
Proof. apply claim_spec. Qed.

End claim_theorems.

(** ** Instances at concrete values *)

Module SampleRoute.

(** Two routes of one model: adapter 0 at [east], adapter 1 at [west]. *)
#[export] Instance two_adapters : Adapters := fun a =>
  if decide (a = 0%nat) then AdapterConfig (Some "east"%string) "acme" None None
  else AdapterConfig (Some "west"%string) "bolt" None None.
#[export] Instance digest0 : Blake2b := toy_digest [].
#[export] Instance texts0 : ErrorText := fun _ => None.

Definition cfg : router_config :=
  RouterConfig NoResolver None None None true 3600 default_tuning.

Definition empty_router : router := Router ∅ ∅ new_registry new_tracker.
Definition router0 : router :=
  register_route empty_router "m" [(0%nat, 1%Q); (1%nat, 3%Q)] ["alias"%string] false "free" true.

Definition reads_at (now r : Q) : readings :=
  Readings true (fun _ => Sample.at_time now) now now now r r 0 0.

Definition ask (pref : option string) : selection :=
  Selection "m" None ∅ 100 ∅ pref None false None (Some "key"%string).

(** A first request at time 1 draws [east]. *)
Definition router1 : router := (_select_adapter cfg router0 (ask None) (reads_at 1 (1 # 8))).1.

Definition passes0 (j : nat) : pass := Pass (reads_at 2 (1 # 2)) [] (Sample.at_time 2).

Lemma passes0_ok : draws_ok passes0.
Proof. intros j. split; by apply Qle_bool_iff. Defined.

End SampleRoute.
Import SampleRoute.

Lemma selection_correct_witness :
  (_select_adapter cfg router0 (ask None) (reads_at 1 (1 # 8))).2 = Ok (Some 0%nat) /\
  exists route k w, usable_route router0 "m" = Some route /\
    candidate cfg router0 (ask None) (reads_at 1 (1 # 8)) k (0%nat, w).
Proof.
  assert ((1 # 8) <= 1)%Q as Hq by (by apply Qle_bool_iff).
  pose proof (selection_correct cfg router0 (ask None) (reads_at 1 (1 # 8)) eq_refl Hq Hq) as Hs.
  assert ((_select_adapter cfg router0 (ask None) (reads_at 1 (1 # 8))).2 = Ok (Some 0%nat)) as E
    by (vm_compute; reflexivity).
  rewrite E in Hs. split; [exact E|]. destruct Hs as (route & k & w & Hr & Hc & _). eauto.
Defined.

(** The next turn at time 2 keeps [east], though its draw would be [west] and it
    was asked to prefer it. *)
Lemma live_pin_decides_witness :
  exists st' a, _select_adapter cfg router1 (ask (Some "west"%string)) (reads_at 2 (7 # 8)) = (st', Ok (Some a)) /\
    endpoint_id_for_adapter a = "east"%string.
Proof.
  destruct (live_pin_decides cfg router1 (ask (Some "west"%string)) (reads_at 2 (7 # 8)) "key"
    (Affinity "east" 301 1) 0 (0%nat, (1 # 4)%Q)) as (st' & a & Hs & Ha & _).
  - reflexivity.
  - reflexivity.
  - reflexivity.
  - vm_compute. reflexivity.
  - vm_compute. reflexivity.
  - eexists _, _. split; [vm_compute; reflexivity|]. split; [vm_compute; reflexivity|].
    split; [vm_compute; reflexivity|]. split_and!; [by vm_compute|set_solver|by vm_compute].
  - reflexivity.
  - intros pol (route & l & _ & _ & Ht). vm_compute in Ht. congruence.
  - vm_compute. reflexivity.
  - eauto.
Defined.

(** An hour on, the pin has run out and the draw moves the caller. *)
Lemma pin_age_bounded_witness :
  exists entry', affinities (_select_adapter cfg router1 (ask None) (reads_at 4000 (7 # 8))).1
      !! ("key"%string, "m"%string) = Some entry' /\ pinned_endpoint entry' = "west"%string /\
    created_at entry' = 4000%Q.
Proof.
  destruct (_select_adapter cfg router1 (ask None) (reads_at 4000 (7 # 8))) as [st' res] eqn:E.
  assert (res = Ok (Some 1%nat)) as ->
    by (change res with (st', res).2; rewrite <- E; vm_compute; reflexivity).
  destruct (pin_age_bounded cfg router0 router1 (ask None) (reads_at 4000 (7 # 8)) st' 1%nat "key"
    (Affinity "east" 301 1)) as (entry' & He & Hp & Hc).
  - reflexivity.
  - apply rtc_once, RSelect.
  - by vm_compute.
  - reflexivity.
  - reflexivity.
  - vm_compute. reflexivity.
  - exact E.
  - exists entry'. split_and!; [exact He|exact Hp|]. destruct Hc as [Hc|[Hc _]]; [exact Hc|].
    by vm_compute in Hc.
Defined.

Lemma claim_correct_witness :
  exists a cl, (_select_and_claim_adapter cfg router1 (ask None) passes0).2 = Ok (Some (a, Some cl)) /\
    claim_endpoint cl = endpoint_id_for_adapter a.
Proof.
  pose proof (claim_correct cfg router1 (ask None) passes0 eq_refl passes0_ok) as Hc.
  assert ((_select_and_claim_adapter cfg router1 (ask None) passes0).2 =
    Ok (Some (0%nat, Some (DispatchClaim "east" None)))) as E by (vm_compute; reflexivity).
  unfold claim_outcome in Hc. rewrite E in Hc. exists 0%nat, (DispatchClaim "east" None). split; [exact E|].
  destruct Hc as (route & _ & (Hid & _) & _). exact Hid.
Defined.

(** The provider of [west] has an admitted endpoint and is reported to have none,
    while the caller's pin on [east] is live. *)
Example pin_hides_provider :
  (preferred_endpoint_for_provider cfg router1 (ask None) "bolt" true (fun _ => reads_at 2 (7 # 8))).2 = Ok None /\
  (preferred_endpoint_for_provider cfg router0 (ask None) "bolt" true (fun _ => reads_at 2 (7 # 8))).2 =
    Ok (Some "west"%string).
Proof. vm_compute. split; reflexivity. Qed.
