(* ===== verification/Request.v ===== *)
(** One request through the router, from its arguments to its answer:
    [chat_completion] and [stream_chat_completion] of [routing/routers.py] as the
    composition of selection ([RouteSelection]), the dispatch over the route
    ([FixedRouter]) and the prefill leases ([PrefillLoad]).

    The route table and the administrator's settings may change while an attempt
    is on the wire, so the fallback reads its own.  The execution binding is taken
    to be the selected adapter's own. *)

From S2P Require Import Prelude PyText UsageLimit Failures CircuitBreaker EndpointHealth Offload FixedRouter.
From S2P Require Import PrefillLoad RouteSelection.

Local Open Scope Z_scope.

(** ** Leases of one attempt *)

(** What surrounds an attempt's lease: when it is taken, what other requests do
    to the tracker before the first token and after it, and when it ends. *)
Record lease_env : Type := LeaseEnv {
  taken_at : Q;
  others_before : list prefill_op;
  confirmed_at : Q;
  others_after : list prefill_op;
  finished_at : Q
}.

(** What a request charges its endpoints with. *)
Record prompt : Type := Prompt {
  prompt_tokens : Z;
  prompt_caller : option string;
  prompt_fingerprint : option string;
  anchor_for : adapter -> option (Z * string)      (* [_PromptAnchor.for_endpoint] *)
}.

Section leases.
Context `{Blake2b} (s : tuning) (endpoint_of : adapter -> string).

Definition prefill_steps (pw : prefill_world) (l : list prefill_op) : prefill_world :=
  fold_left (prefill_step s) l pw.

(** [_on_failure], the tracker's part. *)
Definition forget_after (pw : prefill_world) (exc : exn) (id : string) : prefill_world :=
  if failure_may_lose_prefix_cache (Some exc) then prefill_step s pw (PForget id) else pw.

(** An attempt holding lease [i], to its end. *)
Definition attempt_lease (m : mode) (primary_attempt : bool) (pw : prefill_world) (i : nat) (id : string)
    (e : attempt_env) (le : lease_env) : prefill_world :=
  let free pw := prefill_step s pw (PRelease i (finished_at le) false) in
  let pw := prefill_steps pw (others_before le) in
  match m with
  | Chat =>
      match ended e with
      | Served => free (prefill_step s pw (PRelease i (confirmed_at le) true))
      | Raised exc _ => forget_after (free pw) exc id
      | Unwound => free pw
      end
  | Stream =>
      let pw := if token_seen e then prefill_step s pw (PRelease i (confirmed_at le) true) else pw in
      let pw := prefill_steps pw (others_after le) in
      match ended e with
      | Raised exc _ =>
          if primary_attempt then forget_after (free pw) exc id else free (forget_after pw exc id)
      | _ => free pw
      end
  end.

(** The leases of a whole request, along its events: the primary's, taken at
    selection, has index [i0]; every other attempt takes its own.  Returns the
    indices of the request's leases too. *)
Fixpoint request_leases (m : mode) (x : prompt) (w : nat -> attempt_env) (lw : nat -> lease_env) (i0 : nat)
    (evs : list router_event) (pw : prefill_world) : prefill_world * list nat :=
  match evs with
  | [] => (pw, [])
  | Dispatched j a _ :: rest =>
      let id := endpoint_of a in
      let '(pw, i) :=
        if decide (j = 0%nat) then (pw, i0)
        else (prefill_step s pw (PAcquire (taken_at (lw j)) id (prompt_tokens x) (prompt_caller x)
                (prompt_fingerprint x) (anchor_for x a)), length (leases pw)) in
      let pw := attempt_lease m (bool_decide (j = 0%nat)) pw i id (w j) (lw j) in
      let '(pw, own) := request_leases m x w lw i0 rest pw in
      (pw, i :: own)
  | _ :: rest => request_leases m x w lw i0 rest pw
  end.

End leases.

(** ** The request *)

(** What the caller of the router gets, when nothing was dispatched. *)
Inductive reply : Type :=
| Replied (ans : answer)
| NoRouteError                            (* [ValueError] *)
| ProviderPinError
| Refused (e : selection_error)
| OrderUnreadable (e : selection_error).  (* raised while reading the fallback order *)

(** The router's state around one request: its own, and the leases handed out. *)
Record served : Type := ServedState {
  final_router : router;
  final_load : prefill_world;
  own_leases : list nat;
  events : list router_event;
  failures : list route_attempt;
  request_reply : reply
}.

(** The settings a request reads once its primary has failed. *)
Record later : Type := Later {
  later_config : router_config;
  later_routes : gmap string route_config;
  later_loop : bool
}.

Section serve.
Context `{Blake2b, Adapters, ErrorText, ErrorTexts} (context_window : adapter -> option Z).

(** [_primary_offload]: the registry after its look at the offload circuit, the
    reason and the deadline; [serves] is [_serves_caller] of the offload route. *)
Definition _primary_offload (c : router_config) (st : router) (q : selection) (loop allow : bool)
    (prim : adapter) (e : env) (serves : bool) : registry * option offload_reason * option Q :=
  let r := health_registry st in
  match _request_offload_target c st q loop with
  | Raise _ | Ok None => (r, None, None)
  | Ok (Some (off, pol)) =>
      if decide (off = prim) then (r, Some OFFLOAD_LAST_RESORT, None)
      else if negb allow then (r, None, None)
      else
        let '(r, deadline) :=
          _queue_deadline endpoint_id_for_adapter context_window r e (Some off) (Some pol) None serves in
        (r, None, deadline)
  end.

(** [chat_completion] and [stream_chat_completion]; [p] are the passes of
    selection and claim, [w] and [lw] the surroundings of the attempts, [anchors]
    the anchor of the prompt for an adapter that uses one. *)
Definition serve (m : mode) (c : router_config) (st : router) (pw : prefill_world) (q : selection)
    (anchors : adapter -> option (Z * string)) (allow : bool) (reason : chars) (p : nat -> pass) (serves : bool) (now : later)
    (w : nat -> attempt_env) (lw : nat -> lease_env) : served :=
  let pinned := bool_decide (is_Some (truthy (pin_provider q))) in
  match _select_and_claim_adapter c (st <| prefill_load := trk pw |>) q p with
  | (st, Raise e) => ServedState st pw [] [] [] (Refused e)
  | (st, Ok None) => ServedState st pw [] [] [] (if pinned then ProviderPinError else NoRouteError)
  | (st, Ok (Some (prim, cl))) =>
      let s := prefill_tuning c in
      let x := Prompt (prefill_tokens q) (truthy (affinity_key q)) (fingerprint q) anchors in
      let i0 := length (leases pw) in
      let pw := prefill_step s pw (PAcquire (taken_at (lw 0%nat)) (endpoint_id_for_adapter prim)
                  (prompt_tokens x) (prompt_caller x) (prompt_fingerprint x) None) in
      let pw := prefill_step s pw (PAnchor i0 (anchor_for x prim)) in
      let '(r, offload_reason, deadline) :=
        _primary_offload c st q (in_loop (reads (p 0%nat))) allow prim (at_begin (w 0%nat)) serves in
      let order := _fallback_order (later_config now) (st <| routes := later_routes now |>) q prim
                     (later_loop now) in
      let '(others, off, pol) := match order with Ok y => y | Raise _ => ([], None, None) end in
      let readable := match order with Ok _ => true | Raise _ => false end in
      let req := Request prim cl offload_reason deadline pinned (allow && readable) others off pol reason in
      let '(r, evs, attempts, ans) := dispatch endpoint_id_for_adapter context_window m req r w in
      let '(pw, own) := request_leases s endpoint_id_for_adapter m x w lw i0 evs pw in
      (* the backstop of the stream's outermost [finally] *)
      let pw := match m, last own with
                | Stream, Some i => prefill_step s pw (PRelease i (finished_at (lw 0%nat)) false)
                | _, _ => pw
                end in
      let st := st <| health_registry := r |> <| prefill_load := trk pw |> in
      let walked_on := negb pinned && allow && negb (bool_decide (length attempts = 0%nat)) in
      let st := if walked_on then _drop_affinity st (affinity_key q) (model_id q) else st in
      ServedState st pw own evs attempts
        match order, ended (w 0%nat) with
        | Raise e, Raised _ yielded =>
            if walked_on && negb (committed m yielded) then OrderUnreadable e else Replied ans
        | _, _ => Replied ans
        end
  end.

End serve.

(** ** Leases *)

Section lease_spec.
Context `{Blake2b} (s : tuning) (endpoint_of : adapter -> string).

#[local] Arguments prefill_step : simpl never.

Definition released_at (pw : prefill_world) (i : nat) : Prop :=
  exists l, leases pw !! i = Some l /\ lease_released l = true.

Lemma release_marks t now l b : lease_released (prefill_release s t now l b).2 = true.
Proof. unfold prefill_release. by destruct (lease_released l) eqn:E. Qed.

(** A lease once given back stays so, and leases are only added. *)
Lemma step_released pw o i : released_at pw i -> released_at (prefill_step s pw o) i.
Proof.
  intros (l & Hl & Hr). destruct o as [now ep tokens caller fp an|k an|k now b|ep]; unfold prefill_step.
  - destruct (prefill_acquire _ _ _ _ _ _ _ _) as [t l']. exists l. split; [|done]. simpl.
    by apply lookup_app_l_Some.
  - unfold released_at. cbn [leases set_to].
    destruct (leases pw !! k) as [lk|] eqn:Hk; [|rewrite list_alter_none by done; by exists l].
    rewrite (list_alter_some _ _ _ _ Hk). destruct (decide (k = i)) as [->|Hne].
    + eexists. rewrite list_lookup_insert_eq by (by apply lookup_lt_Some in Hk).
      split; [done|]. by simplify_eq.
    + exists l. by rewrite list_lookup_insert_ne.
  - destruct (leases pw !! k) as [lk|] eqn:Hk; [|by exists l].
    pose proof (release_marks (trk pw) now lk b) as Hm.
    destruct (prefill_release s (trk pw) now lk b) as [t l']. cbn [snd] in Hm. unfold released_at. simpl.
    destruct (decide (k = i)) as [->|Hne].
    + exists l'. split; [|done]. rewrite list_lookup_insert_eq; [done|]. by apply lookup_lt_Some in Hk.
    + exists l. by rewrite list_lookup_insert_ne.
  - by exists l.
Qed.

Lemma step_length pw o : (length (leases pw) <= length (leases (prefill_step s pw o)))%nat.
Proof.
  destruct o as [now ep tokens caller fp an|k an|k now b|ep]; unfold prefill_step.
  - destruct (prefill_acquire _ _ _ _ _ _ _ _) as [t l']. simpl. rewrite length_app. lia.
  - simpl. by rewrite length_alter.
  - destruct (leases pw !! k) as [lk|]; [|done].
    destruct (prefill_release s (trk pw) now lk b) as [t l']. simpl. by rewrite length_insert.
  - done.
Qed.

Lemma step_release pw i now b :
  (i < length (leases pw))%nat -> released_at (prefill_step s pw (PRelease i now b)) i.
Proof.
  intros Hi. unfold prefill_step. destruct (leases pw !! i) as [l|] eqn:Hl;
    [|apply lookup_ge_None in Hl; lia].
  pose proof (release_marks (trk pw) now l b) as Hm.
  destruct (prefill_release s (trk pw) now l b) as [t l']. exists l'. simpl.
  by rewrite list_lookup_insert_eq.
Qed.

Lemma steps_released pw l i : released_at pw i -> released_at (prefill_steps s pw l) i.
Proof. intros Hi. apply (foldl_invariant (fun pw => released_at pw i)); [|done]. intros; by apply step_released. Qed.

Lemma steps_length pw l : (length (leases pw) <= length (leases (prefill_steps s pw l)))%nat.
Proof.
  apply (foldl_invariant (fun pw' => length (leases pw) <= length (leases pw'))%nat); [|done].
  intros pw' o Hle. etransitivity; [exact Hle|apply step_length].
Qed.

Lemma forget_released pw exc id i : released_at pw i -> released_at (forget_after s pw exc id) i.
Proof. unfold forget_after. destruct (failure_may_lose_prefix_cache _); [apply step_released|done]. Qed.

Lemma forget_length pw exc id : (length (leases pw) <= length (leases (forget_after s pw exc id)))%nat.
Proof. unfold forget_after. destruct (failure_may_lose_prefix_cache _); [apply step_length|done]. Qed.

Create HintDb lease.
#[local] Hint Resolve step_released steps_released forget_released : lease.

Lemma attempt_keeps m b pw i id e le k :
  released_at pw k -> released_at (attempt_lease s m b pw i id e le) k.
Proof. intros Hk. unfold attempt_lease. repeat case_match; eauto 8 with lease. Qed.

Ltac length_steps :=
  repeat first [done | etransitivity; [|apply step_length] | etransitivity; [|apply steps_length]
               | etransitivity; [|apply forget_length]].

Lemma attempt_length m b pw i id e le :
  (length (leases pw) <= length (leases (attempt_lease s m b pw i id e le)))%nat.
Proof. unfold attempt_lease. repeat case_match; length_steps. Qed.

(** Whatever becomes of an attempt, its lease is given back. *)
Lemma attempt_releases m b pw i id e le :
  (i < length (leases pw))%nat -> released_at (attempt_lease s m b pw i id e le) i.
Proof.
  intros Hi. unfold attempt_lease.
  repeat case_match; try apply forget_released; try apply step_release;
    (eapply Nat.lt_le_trans; [exact Hi|]); length_steps.
Qed.

Lemma request_leases_spec m x w lw i0 evs pw :
  (i0 < length (leases pw))%nat ->
  let '(pw', own) := request_leases s endpoint_of m x w lw i0 evs pw in
  length own = length (omap dispatched_of evs) /\
  (forall i, i ∈ own -> released_at pw' i) /\
  (forall i, released_at pw i -> released_at pw' i).
Proof.
  revert pw; induction evs as [|ev evs IH]; intros pw Hi; simpl; [set_solver|].
  destruct ev as [c|j a d|c]; simpl; [by apply IH| |by apply IH].
  set (got := if decide (j = 0%nat) then (pw, i0) else _).
  assert ((got.2 < length (leases got.1))%nat /\ (length (leases pw) <= length (leases got.1))%nat /\
    forall i, released_at pw i -> released_at got.1 i) as (G1 & G2 & G3).
  { unfold got. case_decide; cbn [fst snd]; [auto|].
    split; [|split; [apply step_length|intros; by apply step_released]].
    unfold prefill_step. destruct (prefill_acquire _ _ _ _ _ _ _ _). simpl. rewrite length_app. simpl. lia. }
  destruct got as [pw1 i]. cbn [fst snd] in *.
  set (pw2 := attempt_lease s m _ pw1 i _ _ _).
  assert (released_at pw2 i) as Hrel by (by apply attempt_releases).
  assert (length (leases pw1) <= length (leases pw2))%nat as Hlen by apply attempt_length.
  specialize (IH pw2 ltac:(lia)). destruct (request_leases _ _ _ _ _ _ _ evs pw2) as [pw3 own].
  destruct IH as (I1 & I2 & I3). split_and!; [by csimpl; f_equal| |].
  - intros k [->|Hk]%elem_of_cons; auto.
  - intros k Hk. apply I3, attempt_keeps; auto.
Qed.

End lease_spec.

(** ** Which adapters a request reaches *)

Section reach.
Context `{ErrorText, ErrorTexts} (endpoint_of : adapter -> string) (context_window : adapter -> option Z).
Context (P : adapter -> Prop).

Definition order_in (o : fallback_order) : Prop :=
  forall a, a ∈ ordinary o \/ offload o = Some a \/ a ∈ retries o -> P a.

Lemma order_next_in o a r o' : order_in o -> order_next o = Some (a, r, o') -> P a /\ order_in o'.
Proof.
  unfold order_next, order_in. intros Ho.
  destruct (offload o) as [x|] eqn:E; [destruct (_ || _)|];
    [|destruct (ordinary o) as [|y l] eqn:Hor; [destruct (retries o) as [|z l'] eqn:Hre|]..];
    intros En; simplify_eq/=; rewrite ?E, ?Hor, ?Hre in *; simpl; set_solver.
Qed.

Lemma order_failed_in o e a : order_in o -> P a -> order_in (order_record_failure o e (Some a)).
Proof.
  unfold order_in. intros Ho Ha x. destruct (record_failure_parts o e (Some a)) as [-> ->].
  pose proof (record_failure_retries o e a) as E.
  destruct (_ && _); injection E as -> _; set_solver.
Qed.

(** From attempt [k] on, every attempt is on a permitted adapter. *)
Definition reaches_in (k : nat) (evs : list router_event) : Prop :=
  forall j a d, Dispatched j a d ∈ evs -> (k <= j)%nat /\ P a.

Lemma reaches_app k l l' : reaches_in k l -> reaches_in k l' -> reaches_in k (l ++ l').
Proof. unfold reaches_in. set_solver. Qed.

Lemma reaches_later k evs : reaches_in (S k) evs -> reaches_in k evs.
Proof. intros Hr j a d Hj. destruct (Hr j a d Hj). split; [lia|done]. Qed.

Lemma fallback_loop_in m prim pol reason fuel j r o attempts refused pc w :
  order_in o ->
  reaches_in j (fallback_loop endpoint_of context_window m prim pol reason fuel j r o attempts refused pc w).1.1.1.2.
Proof.
  revert j r o attempts refused pc; induction fuel as [|fuel IH]; intros j r o attempts refused pc Ho;
    cbn [fallback_loop]; [by intros ? ? ? ?%elem_of_nil|].
  destruct (order_next o) as [[[a off] o1]|] eqn:En; [|by intros ? ? ? ?%elem_of_nil].
  destruct (order_next_in o a off o1 Ho En) as [Ha Ho1].
  destruct (_window_cannot_fit context_window a refused); [by apply reaches_later, IH|].
  set (pre := if decide (a = prim) then _ else _).
  assert (reaches_in j pre.1.2) as Hpre by (unfold pre, reaches_in; case_decide; set_solver).
  destruct pre as [[r1 evs1] pc1]. cbn [fst snd] in Hpre.
  destruct (registry_begin_dispatch _ _ _) as [r2 [c|]]; cycle 1.
  { specialize (IH (S j) r2 o1 attempts refused pc1 Ho1). apply reaches_later in IH.
    destruct (fallback_loop _ _ _ _ _ _ _ _ _ _ _ _ _ _) as [[[[r3 evs] pc3] at3] ans].
    by apply reaches_app. }
  destruct (match off with Some _ => _ | None => _ end) as [r3 dl].
  assert (reaches_in j ((evs1 ++ [FixedRouter.Claimed (Some c); Dispatched j a dl]) ++ [Ended (Some c)])) as Hevs.
  { apply reaches_app; [apply reaches_app; [done|]|]; unfold reaches_in; set_solver. }
  destruct (ended (w j)) as [|exc yielded|]; [done| |done].
  destruct (record_failure _ _ _ _ _ _) as [[r5 fx] [err|]]; [done|].
  destruct (committed m yielded); [done|].
  destruct (request_refusals_end_fallback _); [done|].
  pose proof (order_failed_in o1 exc a Ho1 Ha) as Ho2.
  specialize (IH (S j) (registry_end_dispatch r5 (Some c)) _ (attempts ++ [RouteAttempt exc off a])
    (_widest_refused_window context_window refused a exc) pc1 Ho2). apply reaches_later in IH.
  destruct (fallback_loop _ _ _ _ _ _ _ _ _ _ _ _ _ _) as [[[[r6 evs] pc3] at3] ans].
  by apply reaches_app.
Qed.

(** A request's first attempt is on its primary, every later one on the primary again,
    on another candidate or on the offload route. *)
Lemma dispatch_in m q r w :
  P (primary q) -> (forall a, a ∈ others q -> P a) -> (forall a, offload_route q = Some a -> P a) ->
  forall j a d, Dispatched j a d ∈ (dispatch endpoint_of context_window m q r w).1.1.2 ->
    j = 0%nat /\ a = primary q \/ (1 <= j)%nat /\ P a.
Proof.
  intros Hp Ho Hf. unfold dispatch.
  assert (forall pc j a d, Dispatched j a d ∈ [FixedRouter.Claimed (claim q); Dispatched 0 (primary q) (primary_deadline q)]
    ++ [Ended pc] -> j = 0%nat /\ a = primary q \/ (1 <= j)%nat /\ P a) as Hone by set_solver.
  destruct (ended (w 0%nat)) as [|exc yielded|]; [apply Hone| |apply Hone].
  destruct (record_failure _ _ _ _ _ _) as [[r5 fx] [err|]]; [apply Hone|].
  destruct (_ || _); [apply Hone|].
  set (o := order_record_failure _ _ _).
  assert (order_in o) as Hord.
  { apply order_failed_in; [|done]. unfold new_order. intros a [Ha|[Ha|Ha]]; simpl in Ha; [|auto|set_solver].
    apply list_elem_of_filter in Ha as [_ Ha]. auto. }
  pose proof (fallback_loop_in m (primary q) (FixedRouter.policy q) (failure_reason q) (walk_bound q) 1 r5 o
    [RouteAttempt exc (primary_reason q) (primary q)]
    (_widest_refused_window context_window None (primary q) exc) (claim q) w Hord) as Hl.
  destruct (fallback_loop _ _ _ _ _ _ _ _ _ _ _ _ _ _) as [[[[r6 evs] pc3] at3] ans]. cbn [fst snd] in *.
  intros j a d. rewrite !elem_of_app. intros [[Hj|Hj]|Hj]; [|right; by apply (Hl j a d)|].
  - apply (Hone (claim q) j a d). set_solver.
  - set_solver.
Qed.

(** The first attempt is made. *)
Lemma dispatch_first m q r w :
  Dispatched 0 (primary q) (primary_deadline q) ∈ (dispatch endpoint_of context_window m q r w).1.1.2.
Proof.
  unfold dispatch. destruct (ended (w 0%nat)) as [|exc yielded|]; [set_solver| |set_solver].
  destruct (record_failure _ _ _ _ _ _) as [[r5 fx] [err|]]; [set_solver|].
  destruct (_ || _); [set_solver|].
  destruct (fallback_loop _ _ _ _ _ _ _ _ _ _ _ _ _ _) as [[[[r6 evs] pc3] at3] ans]. set_solver.
Qed.

End reach.

Section serve_spec.
Context `{Blake2b, Adapters, ErrorText, ErrorTexts} (context_window : adapter -> option Z).

Lemma offload_target_in c model route l off pol :
  _offload_target c model route l = Some (off, pol) -> exists w, (off, w) ∈ l /\ (0 < w)%Q.
Proof.
  unfold _offload_target. destruct (offload_policies c) as [src|]; [|done].
  destruct (src _) as [[pl|]|]; [|done..]. destruct (head _) as [[o w]|] eqn:Hh; [|done].
  intros [= <- <-]. exists w.
  assert ((o, w) ∈ filter (fun x => 0 < x.2 /\ route_id_for_adapter x.1 = route_id pl)%Q l) as Hin
    by (destruct (filter _ _); simplify_eq/=; set_solver).
  apply list_elem_of_filter in Hin as [[? _] ?]. done.
Qed.

(** The fallback order holds only routes the settings of its moment permit. *)
Lemma fallback_order_permitted c st q prim loop others off pol :
  _fallback_order c st q prim loop = Ok (others, off, pol) ->
  forall a, a ∈ others \/ off = Some a ->
    exists route, routes st !! model_id q = Some route /\ permitted c route q a.
Proof.
  unfold _fallback_order. destruct (routes st !! model_id q) as [route|]; [|intros [= <- <- <-]; set_solver].
  destruct (_dispatch_range c loop _ route _ _) as [l|] eqn:Hl; [|done].
  assert (forall a w, (a, w) ∈ l -> (0 < w)%Q -> permitted c route q a) as Hperm
    by (intros; by eapply range_permitted).
  intros Hres a Ha. exists route. split; [done|].
  destruct (_offload_target c (model_id q) route l) as [[o pl]|] eqn:Ht.
  - assert (exists w, (o, w) ∈ l /\ (0 < w)%Q) as (w0 & Ho & Hw0).
    { by eapply offload_target_in. }
    destruct (takes_input pl (prefill_tokens q)); simplify_eq; destruct Ha as [Ha|Ha].
    + apply list_elem_of_fmap in Ha as ([a' w'] & -> & [[_ Hw] Hin]%list_elem_of_filter). by eapply Hperm.
    + case_decide; simplify_eq. by eapply Hperm.
    + apply list_elem_of_fmap in Ha as ([a' w'] & -> & [[_ Hw] Hin]%list_elem_of_filter).
      apply list_elem_of_filter in Hin as [_ Hin]. by eapply Hperm.
    + done.
  - simplify_eq. destruct Ha as [Ha|Ha]; [|done].
    apply list_elem_of_fmap in Ha as ([a' w'] & -> & [[_ Hw] Hin]%list_elem_of_filter). by eapply Hperm.
Qed.

Lemma pinned_permitted c st q t st' a pin :
  truthy (pin_provider q) = Some pin -> _select_adapter c st q t = (st', Ok (Some a)) ->
  exists route, usable_route st (model_id q) = Some route /\ permitted c route q a.
Proof.
  unfold _select_adapter. intros ->. destruct (usable_route st (model_id q)) as [route|]; [|done].
  intros Hsel. exists route. split; [done|].
  pose proof (range_candidates c (in_loop t) q route) as Hc.
  destruct (candidates c (in_loop t) q route) as [[l filtered]|]; [|done].
  destruct (head _) as [[a' w]|] eqn:Hh; simplify_eq/=.
  assert ((a, w) ∈ filter (fun x : adapter * Q => (0 < x.2)%Q /\
    (cfg_provider (config x.1) = pin \/ endpoint_id_for_adapter x.1 = pin)) l) as Hin
    by (destruct (filter _ _); simplify_eq/=; set_solver).
  apply list_elem_of_filter in Hin as [[Hw _] Hin]. by eapply range_permitted.
Qed.

(** A placed request's primary is permitted, pinned or not. *)
Lemma placed_permitted c st q p st' prim cl :
  draws_ok p -> _select_and_claim_adapter c st q p = (st', Ok (Some (prim, cl))) ->
  exists route, usable_route st (model_id q) = Some route /\ permitted c route q prim.
Proof.
  intros Hd Hsel. destruct (truthy (pin_provider q)) as [pin|] eqn:Hpin.
  - unfold _select_and_claim_adapter in Hsel. set (q0 := q <| exclude := ∅ |>) in Hsel.
    change (pin_provider q0) with (pin_provider q) in Hsel. rewrite Hpin in Hsel. cbv zeta in Hsel.
    set (q1 := q0 <| preferred_endpoint_id := None |> <| require_target := false |>) in Hsel.
    destruct (_select_adapter c st q1 (reads (p 0%nat))) as [st2 [[a|]|]] eqn:Es; simplify_eq.
    by apply (pinned_permitted c st q1 _ st' prim pin Hpin) in Es.
  - pose proof (claim_spec c st q p Hpin Hd) as Hc. rewrite Hsel in Hc. simpl in Hc.
    destruct cl as [cl|]; [|done]. destruct Hc as (route & Hr & (_ & Hp & _) & _). eauto.
Qed.

(** C4: a request stays inside its bounds and cleans up.  Whatever the
    attempts do and other requests do meanwhile, the first adapter the request is
    sent to is permitted by the settings at its arrival, and every later one by
    those read when the primary has failed, unless it is the first adapter again; each
    attempt took one prefill lease, and every one of them is given back at the
    end; every dispatch claim is handed back; and what was placed is answered. *)
Theorem serve_safe m c st pw q anchors allow reason p serves now w lw :
  draws_ok p ->
  let z := serve context_window m c st pw q anchors allow reason p serves now w lw in
  (forall j a d, Dispatched j a d ∈ events z ->
     if decide (j = 0%nat) then exists route, usable_route st (model_id q) = Some route /\ permitted c route q a
     else (exists route, later_routes now !! model_id q = Some route /\ permitted (later_config now) route q a) \/
          exists d0, Dispatched 0 a d0 ∈ events z) /\
  length (own_leases z) = length (omap dispatched_of (events z)) /\
  (forall i, i ∈ own_leases z -> released_at (final_load z) i) /\
  fold_left claims_held (events z) [] = [] /\ request_reply z <> Replied Unfinished.
Proof.
  intros Hd z. unfold z, serve.
  set (st0 := st <| prefill_load := trk pw |>).
  destruct (_select_and_claim_adapter c st0 q p) as [st1 [[[prim cl]|]|e]] eqn:Hsel;
    [|by split_and!; simpl; auto; set_solver || case_match|by split_and!; simpl; auto; set_solver].
  destruct (placed_permitted c st0 q p st1 prim cl Hd Hsel) as (route & Hr & Hperm).
  change (usable_route st (model_id q) = Some route) in Hr.
  set (pw1 := prefill_step _ (prefill_step _ pw _) _).
  assert (length (leases pw) < length (leases pw1))%nat as Hlen.
  { unfold pw1. eapply Nat.lt_le_trans; [|apply step_length]. unfold prefill_step.
    destruct (prefill_acquire _ _ _ _ _ _ _ _). simpl. rewrite length_app. simpl. lia. }
  destruct (_primary_offload _ _ _ _ _ _ _ _ _) as [[r1 off_reason] deadline].
  set (order := _fallback_order _ _ q prim _).
  destruct (match order with Ok y => y | Raise _ => ([], None, None) end) as [[oth off] pol] eqn:Eo.
  set (req := Request _ _ _ _ _ _ _ _ _ _).
  set (P := fun a => (exists route, later_routes now !! model_id q = Some route /\ permitted (later_config now) route q a) \/ a = prim).
  assert (forall a, a ∈ oth \/ off = Some a -> P a) as Hoth.
  { intros a Ha. left. destruct order as [y|] eqn:Eord; [subst y|simplify_eq; set_solver].
    exact (fallback_order_permitted _ _ _ _ _ _ _ _ Eord a Ha). }
  pose proof (dispatch_in endpoint_id_for_adapter context_window P m req r1 w
    ltac:(by right) ltac:(auto) ltac:(auto)) as Hin.
  pose proof (dispatch_first endpoint_id_for_adapter context_window m req r1 w) as Hfirst.
  pose proof (dispatch_ok endpoint_id_for_adapter context_window m req r1 w) as Hok.
  destruct (dispatch _ _ m req r1 w) as [[[r2 evs] attempts] ans]. destruct Hok as ((Hcl & Hun & _) & _).
  set (x := Prompt _ _ _ _).
  pose proof (request_leases_spec (prefill_tuning c) endpoint_id_for_adapter m x w lw _ evs pw1 Hlen) as Hrl.
  destruct (request_leases _ _ m x w lw _ evs pw1) as [pw2 own]. destruct Hrl as (L1 & L2 & _).
  cbn [events own_leases final_load request_reply].
  split; [|split; [exact L1|]].
  { intros j a d Hj. cbn [fst snd] in Hin, Hfirst. destruct (Hin j a d Hj) as [[-> ->]|[Hj1 Ha]].
    - rewrite decide_True by done. by exists route.
    - rewrite decide_False by lia. destruct Ha as [Ha|Ha]; [by left|right]. subst a. by eexists. }
  split; [|split; [exact Hcl|]].
  - intros i Hi. destruct m; [by apply L2|]. destruct (last own); [apply step_released|]; by apply L2.
  - repeat case_match; congruence.
Qed.

End serve_spec.

(** ** Instances at concrete values *)

Module SampleRequest.

Import SampleRoute.
#[export] Instance no_texts : ErrorTexts := fun _ => [].

Definition dropped : exn := Exn OtherException no_attrs.

(** The first attempt's connection drops, the second is answered. *)
Definition attempts0 (j : nat) : attempt_env :=
  AttemptEnv (Sample.at_time 3) true [] (Sample.at_time 4) false []
    (if decide (j = 0%nat) then Raised dropped false else Served) (Sample.at_time 5).

Definition leases0 (j : nat) : lease_env := LeaseEnv 3 [] 4 [] 5.

Definition later0 : later := Later SampleRoute.cfg (routes SampleRoute.router0) true.

Definition served0 : served :=
  serve (fun _ => None) Chat SampleRoute.cfg SampleRoute.router1 (PrefillWorld new_tracker [] [])
    (SampleRoute.ask None) (fun _ => None) true (chars_of "chat_exception") SampleRoute.passes0 true later0
    attempts0 leases0.

End SampleRequest.
Import SampleRoute SampleRequest.

(** [east] fails, [west] answers: two leases, both given back. *)
Lemma serve_safe_witness :
  SampleRequest.served0.(request_reply) = Replied Answered /\
  own_leases SampleRequest.served0 = [0%nat; 1%nat] /\
  released_at (final_load SampleRequest.served0) 1.
Proof.
  pose proof (serve_safe (fun _ => None) Chat SampleRoute.cfg SampleRoute.router1
    (PrefillWorld new_tracker [] []) (SampleRoute.ask None) (fun _ => None) true (chars_of "chat_exception")
    SampleRoute.passes0 true SampleRequest.later0 SampleRequest.attempts0 SampleRequest.leases0
    SampleRoute.passes0_ok) as (_ & _ & Hr & _).
  assert (own_leases SampleRequest.served0 = [0%nat; 1%nat]) as Hown by (vm_compute; reflexivity).
  split; [vm_compute; reflexivity|]. split; [exact Hown|]. apply Hr.
  change (1%nat ∈ own_leases SampleRequest.served0). rewrite Hown.
  apply elem_of_cons; right. apply elem_of_cons; by left.
Defined.
