(* ===== verification/UserAdmission.v ===== *)
(** Admission of a user's requests: [serving/servers/concurrency.py] and the
    in-flight counts of [serving/batch/interactive_load.py], over the reservations
    of [SpendLedger].

    The limiter's slots, the interactive load and the ledger are shared by all
    requests; every block of [enforce_user_concurrency] and
    [enforce_count_tokens_concurrency] between awaits is one operation on them.
    The limits provider, the exemption resolver and the request body appear as
    the answers they give. *)

From S2P Require Import Prelude Quota SpendLedger.

Local Open Scope Z_scope.

(** ** The limiter *)

Definition UNLIMITED_CONCURRENCY : Z := 0.
Definition EXEMPT_MODEL_USER_CONCURRENCY_LIMIT : Z := 64.
Definition COUNT_TOKENS_USER_CONCURRENCY_LIMIT : Z := 4.

(** [_FALLBACK_LIMITS], from the registry's defaults. *)
Definition _FALLBACK_LIMITS : gmap string Z :=
  list_to_map [("free"%string, 3); ("pro"%string, 3); ("internal"%string, 10); ("admin"%string, 0)].

(** [_UserSlot] *)
Record user_slot : Type := UserSlot { capacity : Z; slot_role : string; in_use : Z }.
#[export] Instance eta_user_slot : Eta user_slot := fun s => UserSlot (capacity s) (slot_role s) (in_use s).

(** [_UserSlot.try_acquire] *)
Definition slot_try_acquire (s : user_slot) : user_slot * bool :=
  if negb (bool_decide (capacity s = UNLIMITED_CONCURRENCY)) && bool_decide (capacity s <= in_use s)
  then (s, false) else (s <| in_use := in_use s + 1 |>, true).

(** [_UserSlot.release] *)
Definition slot_release (s : user_slot) : user_slot :=
  if bool_decide (0 < in_use s) then s <| in_use := in_use s - 1 |> else s.

(** [_read_limits]: [None] is a provider that raised. *)
Definition _read_limits (answer : option (gmap string Z)) : gmap string Z := default _FALLBACK_LIMITS answer.

(** [_limit_for] *)
Definition _limit_for (role : string) (is_admin : bool) (limits : gmap string Z) : Z :=
  let get key := default (default 0 (_FALLBACK_LIMITS !! key)) (limits !! key) in
  if is_admin then get "admin"%string
  else match limits !! role with
       | Some n => n
       | None => get "free"%string
       end.

(** [_role_label] *)
Definition _role_label (role : string) (is_admin : bool) (limits : gmap string Z) : string :=
  if is_admin then "admin" else if bool_decide (is_Some (limits !! role)) then role else "free".

(** [UserConcurrencyLimiter.try_acquire], once the limits are read: granted, the
    capacity and the slot's label. *)
Definition limiter_try_acquire (m : gmap string user_slot) (key role : string) (is_admin : bool)
    (override : option Z) (limits : gmap string Z) : gmap string user_slot * (bool * Z * string) :=
  let target := match override with Some n => n | None => _limit_for role is_admin limits end in
  let slot := default (UserSlot target (_role_label role is_admin limits) 0) (m !! key) in
  let slot := slot <| capacity := target |> in
  let '(slot, granted) := slot_try_acquire slot in
  (<[key := slot]> m, (granted, capacity slot, slot_role slot)).

(** [UserConcurrencyLimiter.release] *)
Definition limiter_release (m : gmap string user_slot) (key : string) : gmap string user_slot :=
  match m !! key with
  | None => m
  | Some slot => <[key := slot_release slot]> m
  end.

(** ** Which slot a request takes *)

(** What the gate reads of an authenticated user. *)
Record user : Type := User {
  user_id : string;
  user_role : option string;
  user_is_admin : bool;
  max_concurrent_requests : option Z
}.

(** [user.get("role", "free") or "free"] *)
Definition role_of (u : user) : string :=
  match user_role u with
  | Some r => if decide (r = ""%string) then "free" else r
  | None => "free"
  end.

(** [_exempt_slot_key], [_count_tokens_slot_key] *)
Definition _exempt_slot_key (id : string) : string := (id +:+ ":exempt")%string.
Definition _count_tokens_slot_key (id : string) : string := (id +:+ ":count_tokens")%string.

(** [_slot_for_canonical]; [exempt] is the resolver's answer for a known model,
    false if it failed. *)
Definition _slot_for_canonical (u : user) (exempt : bool) : string * option Z :=
  if negb exempt then (user_id u, max_concurrent_requests u)
  else
    (_exempt_slot_key (user_id u),
     Some match max_concurrent_requests u with
          | None => EXEMPT_MODEL_USER_CONCURRENCY_LIMIT
          | Some n => Z.min n EXEMPT_MODEL_USER_CONCURRENCY_LIMIT
          end).

(** The slot of [enforce_count_tokens_concurrency]. *)
Definition count_tokens_slot (u : user) : string * option Z :=
  (_count_tokens_slot_key (user_id u),
   Some match max_concurrent_requests u with
        | None => COUNT_TOKENS_USER_CONCURRENCY_LIMIT
        | Some n => Z.min n COUNT_TOKENS_USER_CONCURRENCY_LIMIT
        end).

(** ** Interactive load *)

(** [InteractiveLoad._increment] *)
Definition _increment (m : gmap string Z) (model : option string) : gmap string Z :=
  match model with
  | Some x => <[x := default 0 (m !! x) + 1]> m
  | None => m
  end.

(** [InteractiveLoad._decrement] *)
Definition _decrement (m : gmap string Z) (model : option string) : gmap string Z :=
  match model with
  | Some x =>
      let remaining := default 0 (m !! x) - 1 in
      if bool_decide (0 < remaining) then <[x := remaining]> m else delete x m
  | None => m
  end.

(** [InteractiveLoadTracker.retarget], on a tracker that is active. *)
Definition retarget (m : gmap string Z) (old new : option string) : gmap string Z :=
  if decide (new = old) then m else _increment (_decrement m old) new.

(** [SharedInteractiveLoad.read]; [None] is rows that could not be read. *)
Definition shared_read (others : option (gmap string Z)) (local : gmap string Z) : option (gmap string Z) :=
  others ← others;
  Some (filter (fun x => 0 < x.2) (union_with (fun a b => Some (a + b)) others local)).

(** ** The requests *)

(** How a request's admission ends. *)
Inductive closing : Type :=
| TooMany (limit : Z) (role : string)      (* 429 of the limiter *)
| OverBudget (r : budget_refusal)          (* 429 of the spend check *)
| BodyLost                                 (* 400: the client went away *)
| Complete.                                (* the response ended, or anything unwound it *)

Inductive stage : Type := Seated | Funded | Serving | Closed (why : closing).

(** What a request holds: its slot, its reservation (an index into those handed
    out) and the model its active tracker counts. *)
Record ticket : Type := Ticket {
  t_slot : option string;
  t_reservation : option nat;
  t_load : option (option string);
  t_stage : stage
}.
#[export] Instance eta_ticket : Eta ticket := fun t =>
  Ticket (t_slot t) (t_reservation t) (t_load t) (t_stage t).

Record adm_state : Type := GateState {
  slots : gmap string user_slot;
  load : gmap string Z;
  money : world;
  tickets : list ticket
}.
#[export] Instance eta_adm_state : Eta adm_state := fun g =>
  GateState (slots g) (load g) (money g) (tickets g).

Definition new_adm (t : Q) : adm_state := GateState ∅ ∅ (new_world t) [].

(** [spend_check_of]: none, or a check with the day and clock it is used at. *)
Inductive spend_gate : Type :=
| NoCheck
| Check (today : string) (now : Q) (c : spend_check).

(** The ledger's clock does not run backwards. *)
Definition in_order (m : world) (s : spend_gate) : bool :=
  match s with NoCheck => true | Check _ now _ => bool_decide (clock m <= now)%Q end.

(** [_admit_spend]: the index of the reservation. *)
Definition _admit_spend (m : world) (g : spend_gate) : world * result budget_refusal (option nat) :=
  match g with
  | NoCheck => (m, Ok None)
  | Check today now c =>
      (world_step m (LAdmit today now c ESTIMATED_REQUEST_COST_USD),
       match (ledger_admit (led m) today now c ESTIMATED_REQUEST_COST_USD).2 with
       | Ok _ => Ok (Some (length (reservations m)))
       | Raise r => Raise r
       end)
  end.

(** The unwinding of a request: its tracker exits, its reservation is released,
    its slot is given back. *)
Definition close_ticket (g : adm_state) (i : nat) (t : ticket) (why : closing) : adm_state :=
  let g := match t_load t with
           | Some m => g <| load := _decrement (load g) m |>
           | None => g
           end in
  let g := match t_reservation t with
           | Some j => g <| money := world_step (money g) (LRelease j) |>
           | None => g
           end in
  let g := match t_slot t with
           | Some k => g <| slots := limiter_release (slots g) k |>
           | None => g
           end in
  g <| tickets := <[i := Ticket None None None (Closed why)]> (tickets g) |>.

Definition is_closed (t : ticket) : bool := match t_stage t with Closed _ => true | _ => false end.

Inductive adm_op : Type :=
| GEnter (u : user) (exempt : bool) (limits : option (gmap string Z))   (* an inference request *)
| GCount (u : user) (limits : option (gmap string Z))                   (* a token count *)
| GUnguarded                                    (* an inference request, with no limiter *)
| GSpend (i : nat) (s : spend_gate)
| GBody (i : nat) (arrived : bool) (canonical : option string)
| GRetarget (i : nat) (model : option string)
| GEnd (i : nat)
| GMoney (o : ledger_op).                       (* recording, gates and the writer *)

(** A ledger operation that is neither an admission nor a release. *)
Definition bookkeeping (o : ledger_op) : bool :=
  match o with LAdmit _ _ _ _ | LRelease _ => false | _ => true end.

(** A request takes the slot [slot] or is turned away. *)
Definition enter (g : adm_state) (slot : string * option Z) (u : user) (limits : option (gmap string Z))
    (first : stage) : adm_state :=
  let '(m, (granted, limit, label)) :=
    limiter_try_acquire (slots g) slot.1 (role_of u) (user_is_admin u) slot.2 (_read_limits limits) in
  g <| slots := m |>
    <| tickets := tickets g ++
         [if granted then Ticket (Some slot.1) None None first
          else Ticket None None None (Closed (TooMany limit label))] |>.

Definition adm_step (g : adm_state) (o : adm_op) : adm_state :=
  match o with
  | GEnter u exempt limits => enter g (_slot_for_canonical u exempt) u limits Seated
  | GCount u limits => enter g (count_tokens_slot u) u limits Serving
  | GUnguarded => g <| tickets := tickets g ++ [Ticket None None None Seated] |>
  | GSpend i s =>
      match tickets g !! i with
      | Some t =>
          match t_stage t, in_order (money g) s with
          | Seated, true =>
              let '(m, r) := _admit_spend (money g) s in
              let g := g <| money := m |> in
              match r with
              | Ok res => g <| tickets := <[i := t <| t_reservation := res |> <| t_stage := Funded |>]> (tickets g) |>
              | Raise refusal => close_ticket g i t (OverBudget refusal)
              end
          | _, _ => g
          end
      | None => g
      end
  | GBody i arrived canonical =>
      match tickets g !! i with
      | Some t =>
          match t_stage t with
          | Funded =>
              if arrived
              then g <| load := _increment (load g) canonical |>
                     <| tickets := <[i := t <| t_load := Some canonical |> <| t_stage := Serving |>]> (tickets g) |>
              else close_ticket g i t BodyLost
          | _ => g
          end
      | None => g
      end
  | GRetarget i model =>
      match tickets g !! i with
      | Some t =>
          match t_load t with
          | Some old =>
              g <| load := retarget (load g) old model |>
                <| tickets := <[i := t <| t_load := Some model |>]> (tickets g) |>
          | None => g
          end
      | None => g
      end
  | GEnd i =>
      match tickets g !! i with
      | Some t => if is_closed t then g else close_ticket g i t Complete
      | None => g
      end
  | GMoney o => if bookkeeping o then g <| money := world_step (money g) o |> else g
  end.

Definition adm_run (t : Q) (l : list adm_op) : adm_state := fold_left adm_step l (new_adm t).

(** ** Counting *)

Definition total (f : ticket -> Z) (ts : list ticket) : Z := foldr (fun t acc => f t + acc) 0 ts.

Definition holds (k : string) (t : ticket) : Z := if decide (t_slot t = Some k) then 1 else 0.
Definition tracks (m : string) (t : ticket) : Z := if decide (t_load t = Some (Some m)) then 1 else 0.
Definition owns (j : nat) (t : ticket) : Z := if decide (t_reservation t = Some j) then 1 else 0.

Lemma total_app f a b : total f (a ++ b) = total f a + total f b.
Proof. induction a as [|t a IH]; simpl; [done|]. rewrite IH. lia. Qed.

Lemma total_insert f ts i t t' :
  ts !! i = Some t -> total f (<[i := t']> ts) = total f ts - f t + f t'.
Proof.
  revert i; induction ts as [|x ts IH]; intros [|i] Hi; simplify_eq/=; [lia|]. rewrite (IH _ Hi). lia.
Qed.

Lemma total_nonneg f ts : (forall t, 0 <= f t) -> 0 <= total f ts.
Proof. intros Hf. induction ts as [|t ts IH]; simpl; [lia|]. specialize (Hf t). lia. Qed.

Lemma total_ge f ts i t : (forall t, 0 <= f t) -> ts !! i = Some t -> f t <= total f ts.
Proof.
  intros Hf. revert i; induction ts as [|x ts IH]; intros [|i] Hi; simplify_eq/=.
  - pose proof (total_nonneg f ts Hf). lia.
  - specialize (IH _ Hi). specialize (Hf x). lia.
Qed.

Lemma total_pos f ts : (forall t, 0 <= f t) -> 0 < total f ts -> exists i t, ts !! i = Some t /\ 0 < f t.
Proof.
  intros Hf. induction ts as [|x ts IH]; simpl; intros Hp; [lia|].
  destruct (decide (0 < f x)) as [Hx|Hx]; [by exists 0%nat, x|].
  destruct IH as (i & t & Hi & Ht); [specialize (Hf x); lia|]. by exists (S i), t.
Qed.

Lemma holds_nonneg k t : 0 <= holds k t. Proof. unfold holds. case_decide; lia. Qed.
Lemma tracks_nonneg m t : 0 <= tracks m t. Proof. unfold tracks. case_decide; lia. Qed.
Lemma owns_nonneg j t : 0 <= owns j t. Proof. unfold owns. case_decide; lia. Qed.
#[export] Hint Resolve holds_nonneg tracks_nonneg owns_nonneg : gateway.

(** Whether reservation [j] is open, as a number. *)
Definition open_res (l : list reservation) (j : nat) : Z :=
  match l !! j with Some r => if res_open r then 1 else 0 | None => 0 end.

Definition used (m : gmap string user_slot) (k : string) : Z := default 0 (in_use <$> m !! k).

(** A request takes its reservation after its slot and its tracker last; a closed
    one holds nothing. *)
Definition settled (t : ticket) : Prop :=
  match t_stage t with
  | Seated => t_reservation t = None /\ t_load t = None
  | Funded => t_load t = None
  | Serving => True
  | Closed _ => t_slot t = None /\ t_reservation t = None /\ t_load t = None
  end.

Record adm_wf (g : adm_state) : Prop := {
  g_slots k : used (slots g) k = total (holds k) (tickets g);
  g_load m : default 0 (load g !! m) = total (tracks m) (tickets g);
  g_res j : open_res (reservations (money g)) j = total (owns j) (tickets g);
  g_money : world_wf (money g);
  g_settled : Forall settled (tickets g)
}.

(** *** The pieces *)

Lemma used_insert m k s k' : used (<[k := s]> m) k' = if decide (k = k') then in_use s else used m k'.
Proof. unfold used. rewrite lookup_insert. by case_decide. Qed.

Lemma release_used m k k' :
  0 < used m k -> used (limiter_release m k) k' = used m k' - (if decide (k = k') then 1 else 0).
Proof.
  intros Hk. unfold limiter_release. unfold used in Hk. destruct (m !! k) as [s|] eqn:E; simpl in Hk; [|lia].
  rewrite used_insert. unfold slot_release. rewrite bool_decide_eq_true_2 by done.
  case_decide; subst; simpl; [|lia]. unfold used. rewrite E. done.
Qed.

Lemma increment_at m x y :
  default 0 (_increment m x !! y) = default 0 (m !! y) + (if decide (x = Some y) then 1 else 0).
Proof.
  destruct x as [x|]; simpl; [|lia]. rewrite lookup_insert.
  repeat case_decide; simplify_eq/=; lia || done.
Qed.

Lemma decrement_at m x y :
  (forall z, x = Some z -> 0 < default 0 (m !! z)) ->
  default 0 (_decrement m x !! y) = default 0 (m !! y) - (if decide (x = Some y) then 1 else 0).
Proof.
  intros Hx. destruct x as [x|]; simpl; [|lia]. specialize (Hx x eq_refl).
  case_bool_decide as Hr; [rewrite lookup_insert|rewrite lookup_delete];
    repeat case_decide; simplify_eq/=; try done; lia.
Qed.

Lemma bookkeeping_reservations m o : bookkeeping o = true -> reservations (world_step m o) = reservations m.
Proof. unfold world_step. destruct (negb (enabled m o)); [done|]. by destruct o. Qed.

Lemma open_res_insert l j r j' :
  (j < length l)%nat ->
  open_res (<[j := r]> l) j' = if decide (j = j') then (if res_open r then 1 else 0) else open_res l j'.
Proof.
  intros Hj. unfold open_res. case_decide; subst; [by rewrite list_lookup_insert_eq|].
  by rewrite list_lookup_insert_ne.
Qed.

Lemma release_open m j j' :
  open_res (reservations (world_step m (LRelease j))) j' =
  if decide (j = j') then 0 else open_res (reservations m) j'.
Proof.
  unfold world_step. cbn [enabled negb]. destruct (reservations m !! j) as [r|] eqn:Hj.
  - unfold reservation_release. destruct (res_open r) eqn:Hr; simpl.
    + by rewrite open_res_insert by (by apply lookup_lt_Some in Hj).
    + rewrite list_insert_id by done. case_decide; [|done]. subst. unfold open_res. by rewrite Hj, Hr.
  - case_decide; [|done]. subst. unfold open_res. by rewrite Hj.
Qed.

Lemma open_res_snoc l r j : open_res (l ++ [r]) j =
  if decide (j = length l) then (if res_open r then 1 else 0) else open_res l j.
Proof.
  unfold open_res. case_decide as Hj.
  - subst. by rewrite lookup_app_r, Nat.sub_diag by lia.
  - destruct (decide (j < length l)%nat).
    + by rewrite lookup_app_l.
    + rewrite lookup_app_r by lia. rewrite (lookup_ge_None_2 l) by lia.
      by rewrite lookup_ge_None_2 by (simpl; lia).
Qed.

Lemma open_res_end l : open_res l (length l) = 0.
Proof. unfold open_res. by rewrite lookup_ge_None_2. Qed.

(** What [_admit_spend] does to the reservations. *)
Lemma admit_spend_res m g :
  in_order m g = true ->
  let '(m', r) := _admit_spend m g in
  forall j, open_res (reservations m') j = open_res (reservations m) j +
    match r with Ok (Some j') => if decide (j = j') then 1 else 0 | _ => 0 end.
Proof.
  destruct g as [|today now c]; simpl; intros Hen; [intros; lia|]. intros j.
  unfold world_step. cbn [enabled]. rewrite Hen. cbn [negb].
  destruct (ledger_admit (led m) today now c _) as [l' [r|r]] eqn:Ha; simpl; [|lia].
  assert (res_open r = true) as Hr.
  { unfold ledger_admit in Ha. destruct (ledger_refusal _ _ _ _) as [l0 [x|]]; by simplify_eq/=. }
  rewrite open_res_snoc, Hr. case_decide; subst; [|lia]. rewrite open_res_end. lia.
Qed.

(** *** Steps *)

Lemma settled_closed why : settled (Ticket None None None (Closed why)).
Proof. done. Qed.

Lemma close_wf g i t why :
  adm_wf g -> tickets g !! i = Some t -> adm_wf (close_ticket g i t why).
Proof.
  intros [Hs Hl Hr Hm Hc] Hi.
  assert (forall f, (forall t, 0 <= f t) -> 0 < f t -> 0 < total f (tickets g)) as Hpos
    by (intros f Hf Ht; pose proof (total_ge f _ _ _ Hf Hi); lia).
  unfold close_ticket. constructor.
  - intros k.
    transitivity (used (match t_slot t with Some k0 => limiter_release (slots g) k0 | None => slots g end) k).
    { destruct (t_load t), (t_reservation t), (t_slot t); done. }
    transitivity (total (holds k) (<[i := Ticket None None None (Closed why)]> (tickets g))).
    2: { destruct (t_load t), (t_reservation t), (t_slot t); done. }
    rewrite (total_insert _ _ _ _ _ Hi), <- Hs. unfold holds at 2. simpl.
    unfold holds. destruct (t_slot t) as [k0|] eqn:Ek; [|rewrite decide_False by done; lia].
    rewrite release_used.
    + repeat case_decide; simplify_eq; lia || done.
    + rewrite Hs. apply Hpos; [auto with gateway|]. unfold holds. rewrite decide_True by done. lia.
  - intros m.
    transitivity (default 0 (match t_load t with Some x => _decrement (load g) x | None => load g end !! m)).
    { destruct (t_load t), (t_reservation t), (t_slot t); done. }
    transitivity (total (tracks m) (<[i := Ticket None None None (Closed why)]> (tickets g))).
    2: { destruct (t_load t), (t_reservation t), (t_slot t); done. }
    rewrite (total_insert _ _ _ _ _ Hi), <- Hl. unfold tracks at 2. simpl.
    unfold tracks. destruct (t_load t) as [x|] eqn:Ex; [|rewrite decide_False by done; lia].
    rewrite decrement_at.
    + repeat case_decide; simplify_eq; lia || done.
    + intros z ->. rewrite Hl. apply Hpos; [auto with gateway|]. unfold tracks. rewrite decide_True by done. lia.
  - intros j.
    transitivity (open_res (reservations match t_reservation t with
      | Some j0 => world_step (money g) (LRelease j0) | None => money g end) j).
    { destruct (t_load t), (t_reservation t), (t_slot t); done. }
    transitivity (total (owns j) (<[i := Ticket None None None (Closed why)]> (tickets g))).
    2: { destruct (t_load t), (t_reservation t), (t_slot t); done. }
    rewrite (total_insert _ _ _ _ _ Hi), <- Hr. unfold owns at 2. simpl.
    unfold owns. destruct (t_reservation t) as [j0|] eqn:Ej; [|rewrite decide_False by done; lia].
    rewrite release_open. pose proof (total_ge (owns j) _ _ _ (owns_nonneg j) Hi) as Hge.
    rewrite <- Hr in Hge. unfold owns in Hge. rewrite Ej in Hge.
    assert (open_res (reservations (money g)) j <= 1) by (unfold open_res; repeat case_match; lia).
    repeat case_decide; simplify_eq; lia || done.
  - destruct (t_load t), (t_reservation t), (t_slot t); simpl; auto; by apply world_step_wf.
  - assert (Forall settled (<[i := Ticket None None None (Closed why)]> (tickets g))) as Hf
      by (apply Forall_insert; [done|apply settled_closed]).
    destruct (t_load t), (t_reservation t), (t_slot t); exact Hf.
Qed.

(** Taking a slot: exactly when the holders are below the cap. *)
Definition cap_of (slot : string * option Z) (u : user) (limits : option (gmap string Z)) : Z :=
  match slot.2 with Some n => n | None => _limit_for (role_of u) (user_is_admin u) (_read_limits limits) end.

Definition has_room (g : adm_state) (slot : string * option Z) (u : user) (limits : option (gmap string Z)) :
    bool :=
  bool_decide (cap_of slot u limits = UNLIMITED_CONCURRENCY) ||
  bool_decide (used (slots g) slot.1 < cap_of slot u limits).

Lemma enter_spec g slot u limits first :
  exists m label, enter g slot u limits first =
    GateState m (load g) (money g) (tickets g ++
      [if has_room g slot u limits then Ticket (Some slot.1) None None first
       else Ticket None None None (Closed (TooMany (cap_of slot u limits) label))]) /\
    forall k, used m k = used (slots g) k + (if has_room g slot u limits && bool_decide (slot.1 = k) then 1 else 0).
Proof.
  unfold enter, limiter_try_acquire, has_room. fold (cap_of slot u limits). set (cap := cap_of slot u limits).
  set (s0 := default _ (slots g !! slot.1)).
  assert (in_use s0 = used (slots g) slot.1) as Hu.
  { unfold s0, used. by destruct (slots g !! slot.1). }
  unfold slot_try_acquire. cbn [capacity in_use set_to].
  assert (negb (bool_decide (cap = UNLIMITED_CONCURRENCY)) && bool_decide (cap <= in_use s0) =
    negb (bool_decide (cap = UNLIMITED_CONCURRENCY) || bool_decide (used (slots g) slot.1 < cap))) as ->.
  { rewrite Hu. repeat case_bool_decide; simpl; done || lia. }
  destruct (_ || _) eqn:E; cbn [negb].
  - exists (<[slot.1 := UserSlot cap (slot_role s0) (in_use s0 + 1)]> (slots g)), ""%string. split; [reflexivity|].
    intros k. rewrite used_insert. simpl. rewrite Hu. clear E. repeat (case_decide || case_bool_decide); subst; lia || done.
  - exists (<[slot.1 := UserSlot cap (slot_role s0) (in_use s0)]> (slots g)), (slot_role s0).
    split; [reflexivity|]. intros k. rewrite used_insert. simpl. rewrite Hu.
    clear E. case_decide; subst; simpl; lia.
Qed.

Lemma enter_wf g slot u limits first :
  settled (Ticket (Some slot.1) None None first) -> adm_wf g -> adm_wf (enter g slot u limits first).
Proof.
  intros Hf [Hs Hl Hr Hm Hc]. destruct (enter_spec g slot u limits first) as (m & label & -> & Hused).
  destruct (has_room g slot u limits).
  - constructor; simpl; auto.
    + intros k. rewrite Hused, total_app, Hs. simpl. unfold holds at 3. simpl.
      case_bool_decide; case_decide; simplify_eq/=; lia || done.
    + intros k. rewrite total_app, Hl. simpl. unfold tracks at 3. simpl. lia.
    + intros k. rewrite total_app, Hr. simpl. unfold owns at 3. simpl. lia.
    + apply Forall_app. split; [done|]. by repeat constructor.
  - constructor; simpl; auto.
    + intros k. rewrite Hused, total_app, Hs. simpl. unfold holds at 3. simpl. lia.
    + intros k. rewrite total_app, Hl. simpl. unfold tracks at 3. simpl. lia.
    + intros k. rewrite total_app, Hr. simpl. unfold owns at 3. simpl. lia.
    + apply Forall_app. split; [done|]. by repeat constructor.
Qed.

Lemma new_adm_wf t : adm_wf (new_adm t).
Proof. constructor; simpl; auto using new_world_wf. Qed.

(** A step that rewrites one ticket, keeping the others. *)
Lemma retake_wf g i t t' l m :
  adm_wf g -> tickets g !! i = Some t -> t_slot t' = t_slot t ->
  (forall x, default 0 (l !! x) = default 0 (load g !! x) - tracks x t + tracks x t') ->
  (forall j, open_res (reservations m) j = open_res (reservations (money g)) j - owns j t + owns j t') ->
  world_wf m -> settled t' ->
  adm_wf (GateState (slots g) l m (<[i := t']> (tickets g))).
Proof.
  intros [Hs Hl Hr Hm Hc] Hi Hslot Hload Hres Hw Hopen. constructor; simpl.
  - intros k. rewrite (total_insert _ _ _ _ _ Hi), Hs. unfold holds. rewrite Hslot. lia.
  - intros x. by rewrite (total_insert _ _ _ _ _ Hi), Hload, Hl.
  - intros j. by rewrite (total_insert _ _ _ _ _ Hi), Hres, Hr.
  - done.
  - by apply Forall_insert.
Qed.

Lemma reservations_wf g m :
  adm_wf g -> (forall j, open_res (reservations m) j = open_res (reservations (money g)) j) -> world_wf m ->
  adm_wf (GateState (slots g) (load g) m (tickets g)).
Proof. intros [Hs Hl Hr Hm Hc] E Hw. constructor; simpl; auto. intros j. by rewrite E. Qed.

Lemma admit_spend_world m s : world_wf m -> world_wf (_admit_spend m s).1.
Proof. intros Hm. destruct s; [done|]. by apply world_step_wf. Qed.

Lemma unfunded_owns j t : t_reservation t = None -> owns j t = 0.
Proof. intros E. unfold owns. by rewrite E. Qed.

Lemma untracked t x : t_load t = None -> tracks x t = 0.
Proof. intros E. unfold tracks. by rewrite E. Qed.

Lemma spend_wf g i t s :
  adm_wf g -> tickets g !! i = Some t -> t_stage t = Seated ->
  in_order (money g) s = true ->
  adm_wf (adm_step g (GSpend i s)).
Proof.
  intros Hg Hi Hst Hok. pose proof (admit_spend_res _ _ Hok) as Hres.
  pose proof (admit_spend_world _ s (g_money _ Hg)) as Hw.
  assert (settled t) as Hset by (by eapply Forall_lookup_1; [apply g_settled|]).
  unfold settled in Hset. rewrite Hst in Hset. destruct Hset as [Hnr Hnl].
  cbn [adm_step]. rewrite Hi, Hst, Hok. destruct (_admit_spend (money g) s) as [m [res|refusal]].
  - eapply (retake_wf g i t); simpl; auto.
    + intros x. unfold tracks. simpl. lia.
    + intros j. rewrite Hres, (unfunded_owns _ _ Hnr). unfold owns. simpl.
      destruct res as [j'|]; repeat case_decide; simplify_eq; lia || done.
  - apply close_wf; [|done]. apply (reservations_wf g m); auto. intros j. rewrite Hres. lia.
Qed.

Lemma body_wf g i t canonical :
  adm_wf g -> tickets g !! i = Some t -> t_stage t = Funded ->
  adm_wf (g <| load := _increment (load g) canonical |>
            <| tickets := <[i := t <| t_load := Some canonical |> <| t_stage := Serving |>]> (tickets g) |>).
Proof.
  intros Hg Hi Hst.
  assert (settled t) as Hset by (by eapply Forall_lookup_1; [apply g_settled|]).
  unfold settled in Hset. rewrite Hst in Hset.
  apply (retake_wf g i t); simpl; auto using g_money.
  - intros x. rewrite increment_at, (untracked _ _ Hset). unfold tracks. simpl.
    repeat case_decide; simplify_eq; lia || done.
  - intros j. unfold owns. simpl. lia.
  - done.
Qed.

Lemma retarget_wf g i t old model :
  adm_wf g -> tickets g !! i = Some t -> t_load t = Some old ->
  adm_wf (g <| load := retarget (load g) old model |>
            <| tickets := <[i := t <| t_load := Some model |>]> (tickets g) |>).
Proof.
  intros Hg Hi Hl.
  assert (settled t) as Hset by (by eapply Forall_lookup_1; [apply g_settled|]).
  apply (retake_wf g i t); simpl; auto using g_money.
  - intros x. unfold retarget. destruct (decide (model = old)) as [->|Hne].
    { unfold tracks. simpl. rewrite Hl. lia. }
    rewrite increment_at, decrement_at.
    + unfold tracks. simpl. rewrite Hl. repeat case_decide; simplify_eq; lia || done.
    + intros z ->. rewrite (g_load _ Hg). pose proof (total_ge (tracks z) _ _ _ (tracks_nonneg z) Hi) as H.
      unfold tracks in H at 1. rewrite Hl, decide_True in H by done. lia.
  - intros j. unfold owns. simpl. lia.
  - unfold settled in *. simpl. destruct (t_stage t); naive_solver.
Qed.

Lemma adm_step_wf g o : adm_wf g -> adm_wf (adm_step g o).
Proof.
  intros Hg. destruct o as [u e l|u l| |i s|i a c|i m|i|o].
  - by apply enter_wf.
  - by apply enter_wf.
  - destruct Hg as [Hs Hl Hr Hm Hc]. constructor; simpl; auto.
    1-3: intros k; rewrite total_app; simpl; first [rewrite Hs|rewrite Hl|rewrite Hr]; cbv [holds tracks owns]; simpl; lia.
    apply Forall_app. split; [done|]. by repeat constructor.
  - destruct (tickets g !! i) as [t|] eqn:Hi; [|cbn [adm_step]; by rewrite Hi].
    destruct (t_stage t) eqn:Hst; try (cbn [adm_step]; rewrite Hi, Hst; done).
    destruct (in_order (money g) s) eqn:Hok.
    + by eapply spend_wf.
    + cbn [adm_step]. by rewrite Hi, Hst, Hok.
  - cbn [adm_step]. destruct (tickets g !! i) as [t|] eqn:Hi; [|done].
    destruct (t_stage t) eqn:Hst; try done. destruct a; [by apply body_wf|by apply close_wf].
  - cbn [adm_step]. destruct (tickets g !! i) as [t|] eqn:Hi; [|done].
    destruct (t_load t) as [old|] eqn:Hl; [by apply retarget_wf|done].
  - cbn [adm_step]. destruct (tickets g !! i) as [t|] eqn:Hi; [|done].
    destruct (is_closed t); [done|by apply close_wf].
  - cbn [adm_step]. destruct (bookkeeping o) eqn:Hb; [|done].
    apply (reservations_wf g); [done| |by apply world_step_wf, g_money].
    intros j. by rewrite bookkeeping_reservations.
Qed.

Lemma adm_run_wf t l : adm_wf (adm_run t l).
Proof. apply (foldl_invariant adm_wf); [intros; by apply adm_step_wf|apply new_adm_wf]. Qed.

(** *** Bounds on a slot's holders *)

(** The slot an operation asks for and the cap it comes with. *)
Definition asks (o : adm_op) : option (string * Z) :=
  match o with
  | GEnter u exempt limits => let s := _slot_for_canonical u exempt in Some (s.1, cap_of s u limits)
  | GCount u limits => let s := count_tokens_slot u in Some (s.1, cap_of s u limits)
  | _ => None
  end.

Lemma close_tickets g i t why :
  tickets (close_ticket g i t why) = <[i := Ticket None None None (Closed why)]> (tickets g).
Proof. unfold close_ticket. by destruct (t_load t), (t_reservation t), (t_slot t). Qed.

Lemma holders_insert k ts i t t' :
  ts !! i = Some t -> t_slot t' = t_slot t \/ t_slot t' = None ->
  total (holds k) (<[i := t']> ts) <= total (holds k) ts.
Proof.
  intros Hi Hs. rewrite (total_insert _ _ _ _ _ Hi). pose proof (holds_nonneg k t).
  unfold holds in *. destruct Hs as [-> | ->]; [lia|]. simpl. lia.
Qed.

Lemma holders_idle k g o :
  asks o = None -> total (holds k) (tickets (adm_step g o)) <= total (holds k) (tickets g).
Proof.
  destruct o as [u e l|u l| |i s|i a c|i m|i|o]; intros Ha; try done; cbn [adm_step].
  - simpl. rewrite total_app. unfold holds at 2. simpl. lia.
  - destruct (tickets g !! i) as [t|] eqn:Hi; [|done].
    destruct (t_stage t), (in_order (money g) s); try done.
    destruct (_admit_spend (money g) s) as [m [res|refusal]]; [|rewrite close_tickets];
      eapply holders_insert; eauto.
  - destruct (tickets g !! i) as [t|] eqn:Hi; [|done]. destruct (t_stage t); try done.
    destruct a; [|rewrite close_tickets]; eapply holders_insert; eauto.
  - destruct (tickets g !! i) as [t|] eqn:Hi; [|done]. destruct (t_load t); [|done].
    eapply holders_insert; eauto.
  - destruct (tickets g !! i) as [t|] eqn:Hi; [|done]. destruct (is_closed t); [done|].
    rewrite close_tickets. eapply holders_insert; eauto.
  - by destruct (bookkeeping o).
Qed.

Lemma holders_enter k g slot u limits first b :
  adm_wf g -> total (holds k) (tickets g) <= b -> (slot.1 = k -> 1 <= cap_of slot u limits <= b) ->
  total (holds k) (tickets (enter g slot u limits first)) <= b.
Proof.
  intros Hg Hb Hcap. destruct (enter_spec g slot u limits first) as (m & label & -> & _).
  cbn [tickets]. rewrite total_app. unfold has_room. rewrite (g_slots _ Hg).
  destruct (decide (slot.1 = k)) as [<-|Hne].
  - specialize (Hcap eq_refl). rewrite bool_decide_eq_false_2 by (unfold UNLIMITED_CONCURRENCY; lia). simpl.
    case_bool_decide; simpl; unfold holds at 2; simpl; [case_decide|]; lia.
  - assert (forall b : bool, holds k (if b then Ticket (Some slot.1) None None first
      else Ticket None None None (Closed (TooMany (cap_of slot u limits) label))) = 0) as E
      by (intros []; unfold holds; simpl; [rewrite decide_False by congruence|]; done).
    simpl. rewrite E. lia.
Qed.

(** If every request for slot [k] comes with a cap between 1 and [b], [k] never has
    more than [b] holders. *)
Lemma holders_bounded t ops k b :
  0 <= b -> Forall (fun o => forall cap, asks o = Some (k, cap) -> 1 <= cap <= b) ops ->
  total (holds k) (tickets (adm_run t ops)) <= b.
Proof.
  intros Hb Hops. induction ops as [|o ops IH] using rev_ind; [done|].
  apply Forall_app in Hops as [Hops Ho]. apply Forall_inv in Ho. specialize (IH Hops).
  pose proof (adm_run_wf t ops) as Hw. unfold adm_run in *. rewrite fold_left_app. cbn [fold_left].
  set (g := fold_left adm_step ops (new_adm t)) in *.
  destruct (asks o) as [[k' cap']|] eqn:Ha; [|pose proof (holders_idle k g o Ha); lia].
  destruct o; simplify_eq/=; (apply holders_enter; [done|done|intros E; apply Ho; by rewrite <- E]).
Qed.

(** Identifiers carry no colon ([_exempt_slot_key]'s docstring), so the three budgets
    of a user are three slots. *)
Definition colon : Ascii.ascii := Ascii.Ascii false true false true true true false false.

Fixpoint no_colon (s : string) : bool :=
  match s with
  | EmptyString => true
  | String c s => negb (bool_decide (c = colon)) && no_colon s
  end.

Lemma no_colon_cons c s : no_colon (String c s) = true -> c <> colon /\ no_colon s = true.
Proof. simpl. rewrite andb_true_iff, negb_true_iff. by rewrite bool_decide_eq_false. Qed.

Lemma colon_splits a b x y :
  no_colon a = true -> no_colon b = true -> (a +:+ String colon x)%string = (b +:+ String colon y)%string -> a = b /\ x = y.
Proof.
  revert b. induction a as [|c a IH]; intros [|d b] Ha Hb E; simplify_eq/=; try done.
  apply no_colon_cons in Ha as [_ Ha]. apply no_colon_cons in Hb as [_ Hb].
  match goal with E : (_ +:+ _)%string = _ |- _ => by destruct (IH _ Ha Hb E) as [-> ->] end.
Qed.

Lemma colon_free a b x : no_colon a = true -> a <> (b +:+ String colon x)%string.
Proof.
  revert b. induction a as [|c a IH]; intros [|d b] Ha E; try done; injection E as -> E.
  - done.
  - apply no_colon_cons in Ha as [_ Ha]. by eapply IH.
Qed.

(** The user of a request is one the gateway stores: an identifier with no colon, an
    override of at least one ([UserUpdate.max_concurrent_requests]). *)
Definition stored_user (u : user) : Prop :=
  no_colon (user_id u) = true /\ match max_concurrent_requests u with Some n => 1 <= n | None => True end.

Definition stored_op (o : adm_op) : Prop :=
  match o with GEnter u _ _ | GCount u _ => stored_user u | _ => True end.

Lemma exempt_cap id o cap :
  no_colon id = true -> stored_op o -> asks o = Some (_exempt_slot_key id, cap) ->
  1 <= cap <= EXEMPT_MODEL_USER_CONCURRENCY_LIMIT.
Proof.
  unfold EXEMPT_MODEL_USER_CONCURRENCY_LIMIT.
  destruct o as [u e l|u l| | | | | |]; intros Hid Hs E; try done; destruct Hs as [Hu Hn].
  - simpl in E. destruct e; simplify_eq/=.
    + unfold cap_of. simpl. destruct (max_concurrent_requests u); unfold EXEMPT_MODEL_USER_CONCURRENCY_LIMIT; lia.
    + match goal with E : _ = _ |- _ => by apply colon_free in E end.
  - simpl in E. simplify_eq/=.
    match goal with E : _ = _ |- _ => by apply colon_splits in E as [] end.
Qed.

Lemma count_cap id o cap :
  no_colon id = true -> stored_op o -> asks o = Some (_count_tokens_slot_key id, cap) ->
  1 <= cap <= COUNT_TOKENS_USER_CONCURRENCY_LIMIT.
Proof.
  unfold COUNT_TOKENS_USER_CONCURRENCY_LIMIT.
  destruct o as [u e l|u l| | | | | |]; intros Hid Hs E; try done; destruct Hs as [Hu Hn].
  - simpl in E. destruct e; simplify_eq/=.
    + match goal with E : _ = _ |- _ => by apply colon_splits in E as [] end.
    + match goal with E : _ = _ |- _ => by apply colon_free in E end.
  - simpl in E. simplify_eq/=.
    unfold cap_of. simpl. destruct (max_concurrent_requests u); unfold COUNT_TOKENS_USER_CONCURRENCY_LIMIT; lia.
Qed.

(** *** Consequences of the balance *)

Lemma total_zero f ts : Forall (fun t => f t = 0) ts -> total f ts = 0.
Proof. induction 1 as [|t ts Ht _ IH]; simpl; [done|]. by rewrite Ht, IH. Qed.

Lemma settled_holds_none g :
  adm_wf g -> forallb is_closed (tickets g) = true ->
  Forall (fun t => t_slot t = None /\ t_reservation t = None /\ t_load t = None) (tickets g).
Proof.
  intros Hg Hall. apply Forall_forall. intros t Hin. rewrite forallb_forall in Hall.
  specialize (Hall t (proj1 (list_elem_of_In _ _) Hin)).
  pose proof (proj1 (Forall_forall _ _) (g_settled _ Hg) t Hin) as Hs. unfold settled in Hs.
  unfold is_closed in Hall. by destruct (t_stage t).
Qed.

Lemma no_open_user (l : list reservation) :
  (forall j, open_res l j = 0) -> omap open_user l = [] /\ omap open_key l = [].
Proof.
  induction l as [|r l IH]; intros H; [done|].
  pose proof (H 0%nat) as H0. unfold open_res in H0. simpl in H0.
  destruct (res_open r) eqn:Er; [done|].
  destruct IH as [IHu IHk]; [intros j; exact (H (S j))|].
  simpl. unfold open_user at 1, open_key at 1. rewrite Er. done.
Qed.

Lemma table_empty `{Countable K} (t : gmap K (Q * Z)) : table_ok t [] -> t = ∅.
Proof.
  intros Ht. apply map_eq. intros k. rewrite lookup_empty. specialize (Ht k).
  destruct (t !! k) as [[s n]|]; [|done]. simpl in Ht. lia.
Qed.

Lemma all_closed_empty g :
  adm_wf g -> forallb is_closed (tickets g) = true ->
  (forall k, used (slots g) k = 0) /\ (forall m, default 0 (load g !! m) = 0) /\
  reserved_users (led (money g)) = ∅ /\ reserved_keys (led (money g)) = ∅.
Proof.
  intros Hg Hall. pose proof (settled_holds_none _ Hg Hall) as Hn.
  destruct (no_open_user (reservations (money g))) as [Hu Hk].
  { intros j. rewrite (g_res _ Hg). apply total_zero. eapply Forall_impl; [exact Hn|].
    intros x (_ & Hr & _). by apply unfunded_owns. }
  split_and!.
  - intros k. rewrite (g_slots _ Hg). apply total_zero. eapply Forall_impl; [exact Hn|].
    intros x (Hs & _). unfold holds. by rewrite Hs.
  - intros m. rewrite (g_load _ Hg). apply total_zero. eapply Forall_impl; [exact Hn|].
    intros x (_ & _ & Hl). by apply untracked.
  - apply table_empty. rewrite <- Hu. apply w_users, g_money, Hg.
  - apply table_empty. rewrite <- Hk. apply w_keys, g_money, Hg.
Qed.

(** ** What admission guarantees *)

(** C25: Whatever requests arrive, are admitted, refused, retargeted, cut off or
    completed, in any order and with any ledger traffic between them: each slot's
    [in_use] is the number of requests holding it, each model's in-flight count the
    number of active trackers on it, each reservation is open exactly while one request
    owns it, and a request that has ended holds nothing. Once every request has ended
    all three are zero: no slot, no load and no reserved money leaks. *)
Theorem user_admission_balanced t ops :
  let g := adm_run t ops in
  (forall k, used (slots g) k = total (holds k) (tickets g)) /\
  (forall m, default 0 (load g !! m) = total (tracks m) (tickets g)) /\
  (forall j, open_res (reservations (money g)) j = total (owns j) (tickets g)) /\
  (forall i tk, tickets g !! i = Some tk -> is_closed tk = true ->
     t_slot tk = None /\ t_reservation tk = None /\ t_load tk = None) /\
  (forallb is_closed (tickets g) = true ->
     (forall k, used (slots g) k = 0) /\ (forall m, default 0 (load g !! m) = 0) /\
     reserved_users (led (money g)) = ∅ /\ reserved_keys (led (money g)) = ∅).
Proof.
  intros g. pose proof (adm_run_wf t ops) as Hg. fold g in Hg. split_and!.
  - apply (g_slots _ Hg).
  - apply (g_load _ Hg).
  - apply (g_res _ Hg).
  - intros i tk Hi Hc. pose proof (Forall_lookup_1 _ _ _ _ (g_settled _ Hg) Hi) as Hs.
    unfold settled, is_closed in *. by destruct (t_stage tk).
  - intros Hall. apply (all_closed_empty _ Hg Hall).
Qed.

(** An inference request is admitted exactly when its cap is the unlimited
    sentinel or fewer requests than the cap hold its slot; otherwise it ends at once
    with a 429 that reports the cap, holding nothing, and no other request, count or
    reservation changes. *)
Theorem admission_exact t ops u exempt limits :
  let g := adm_run t ops in
  let slot := _slot_for_canonical u exempt in
  let cap := cap_of slot u limits in
  exists label, let g' := adm_step g (GEnter u exempt limits) in
  tickets g' = tickets g ++
    [if bool_decide (cap = UNLIMITED_CONCURRENCY) || bool_decide (total (holds slot.1) (tickets g) < cap)
     then Ticket (Some slot.1) None None Seated
     else Ticket None None None (Closed (TooMany cap label))] /\
  load g' = load g /\ money g' = money g.
Proof.
  intros g slot cap. pose proof (adm_run_wf t ops) as Hg. fold g in Hg.
  destruct (enter_spec g slot u limits Seated) as (m & label & E & _).
  exists label. cbn [adm_step]. fold slot. rewrite E. cbn [tickets load money].
  unfold has_room. by rewrite (g_slots _ Hg).
Qed.

(** Exempt models and token counting have budgets of their own: if every user
    is a stored one (no colon in the identifier, an override of at least one), no user
    ever has more than 64 exempt-model requests or more than 4 token counts in flight,
    whatever the role limits say. *)
Theorem separate_budgets_bounded t ops id :
  Forall stored_op ops -> no_colon id = true ->
  total (holds (_exempt_slot_key id)) (tickets (adm_run t ops)) <= EXEMPT_MODEL_USER_CONCURRENCY_LIMIT /\
  total (holds (_count_tokens_slot_key id)) (tickets (adm_run t ops)) <= COUNT_TOKENS_USER_CONCURRENCY_LIMIT.
Proof.
  intros Hops Hid. split; (apply holders_bounded; [done|]; eapply Forall_impl; [exact Hops|]; intros o Ho cap);
    [by apply exempt_cap|by apply count_cap].
Qed.

(** *** Witnesses *)

Definition ann : user := User "ann" (Some "free"%string) false None.
Definition five_counts : list adm_op := repeat (GCount ann None) 5.

(** The fifth concurrent token count is refused with the limit 4. *)
Lemma separate_budgets_bounded_witness :
  let g := adm_run 0 five_counts in
  total (holds (_exempt_slot_key "ann")) (tickets g) <= 64 /\
  total (holds (_count_tokens_slot_key "ann")) (tickets g) <= 4 /\
  t_stage <$> last (tickets g) = Some (Closed (TooMany 4 "free")).
Proof.
  destruct (separate_budgets_bounded 0 five_counts "ann") as [H1 H2].
  - repeat constructor.
  - reflexivity.
  - split; [exact H1|]. split; [exact H2|]. vm_compute. reflexivity.
Defined.
