(* ===== verification/GrantToken.v ===== *)
(** Inference-grant tokens: [serving/grants.py].

    A token is [agr.<payload>.<signature>], both parts in URL-safe base64 without
    padding.  Python's codecs are written out as the interpreter has them: the
    lenient base64 decoder that skips foreign characters and stops at padding, and
    the JSON string escapes.  The digest functions are parameters. *)

From Stdlib Require Import ZifyBool.
From S2P Require Import Prelude PyText.

Local Open Scope N_scope.

(** ** base64 *)

(** The standard alphabet after [-] and [_] replaced [+] and [/]. *)
Definition b64_char (v : N) : N :=
  if v <? 26 then 65 + v
  else if v <? 52 then 97 + (v - 26)
  else if v <? 62 then 48 + (v - 52)
  else if v =? 62 then 45 else 95.

(** The decoder's table, both alphabets included: [urlsafe_b64decode] translates
    [-_] to [+/] and leaves [+/] as they are. *)
Definition b64_value (c : N) : option N :=
  if in_range 65 90 c then Some (c - 65)
  else if in_range 97 122 c then Some (c - 97 + 26)
  else if in_range 48 57 c then Some (c - 48 + 52)
  else if (c =? 45) || (c =? 43) then Some 62
  else if (c =? 95) || (c =? 47) then Some 63
  else None.

Definition PAD : N := 61.

(** [base64.urlsafe_b64encode] *)
Fixpoint urlsafe_b64encode (raw : list N) : chars :=
  match raw with
  | [] => []
  | [a] => [b64_char (a / 4); b64_char (a mod 4 * 16); PAD; PAD]
  | [a; b] => [b64_char (a / 4); b64_char (a mod 4 * 16 + b / 16); b64_char (b mod 16 * 4); PAD]
  | a :: b :: c :: rest =>
      b64_char (a / 4) :: b64_char (a mod 4 * 16 + b / 16) ::
      b64_char (b mod 16 * 4 + c / 64) :: b64_char (c mod 64) :: urlsafe_b64encode rest
  end.

(** [rstrip("=")] *)
Fixpoint lstrip_pad (l : chars) : chars :=
  match l with
  | c :: l' => if c =? PAD then lstrip_pad l' else l
  | [] => []
  end.
Definition rstrip_pad (l : chars) : chars := rev (lstrip_pad (rev l)).

(** [_b64encode] *)
Definition _b64encode (raw : list N) : chars := rstrip_pad (urlsafe_b64encode raw).

(** [binascii.a2b_base64], not strict: [quad] characters of the current group are
    read, [left] holds their unused bits, [pads] the padding seen since. *)
Fixpoint a2b_base64 (l : chars) (quad left pads : N) : option (list N) :=
  match l with
  | [] => if quad =? 0 then Some [] else None
  | c :: l =>
      if c =? PAD then
        if (2 <=? quad) && (4 <=? quad + (pads + 1)) then Some []
        else a2b_base64 l quad left (if 2 <=? quad then pads + 1 else pads)
      else
        match b64_value c with
        | None => a2b_base64 l quad left pads
        | Some v =>
            if quad =? 0 then a2b_base64 l 1 v 0
            else if quad =? 1 then cons (left * 4 + v / 16) <$> a2b_base64 l 2 (v mod 16) 0
            else if quad =? 2 then cons (left * 16 + v / 4) <$> a2b_base64 l 3 (v mod 4) 0
            else cons (left * 64 + v) <$> a2b_base64 l 0 0 0
        end
  end.

(** [base64.urlsafe_b64decode] of a string: anything outside ASCII is a ValueError. *)
Definition urlsafe_b64decode (value : chars) : option (list N) :=
  if forallb (fun c => c <? 128) value then a2b_base64 value 0 0 0 else None.

(** [_b64decode] *)
Definition _b64decode (value : chars) : option (list N) :=
  urlsafe_b64decode (value ++ repeat PAD ((4 - length value mod 4) mod 4)%nat).

(** ** JSON *)

Inductive json : Type :=
| JNull
| JBool (b : bool)
| JNumber (lexeme : chars)
| JString (s : chars)
| JArray (items : list json)
| JObject (members : list (chars * json)).

Definition QUOTE : N := 34.
Definition BACKSLASH : N := 92.

Definition hex_digit (v : N) : N := if v <? 10 then 48 + v else 97 + (v - 10).
Definition hex4 (v : N) : chars :=
  [hex_digit (v / 4096 mod 16); hex_digit (v / 256 mod 16); hex_digit (v / 16 mod 16); hex_digit (v mod 16)].

Definition hex_value (c : N) : option N :=
  if in_range 48 57 c then Some (c - 48)
  else if in_range 97 102 c then Some (c - 97 + 10)
  else if in_range 65 70 c then Some (c - 65 + 10)
  else None.

Definition unhex4 (a b c d : N) : option N :=
  a ← hex_value a; b ← hex_value b; c ← hex_value c; d ← hex_value d;
  Some (a * 4096 + b * 256 + c * 16 + d).

(** One character of a string, as [json.dumps] with [ensure_ascii] writes it. *)
Definition escape_char (c : N) : chars :=
  if c =? QUOTE then [BACKSLASH; QUOTE]
  else if c =? BACKSLASH then [BACKSLASH; BACKSLASH]
  else if c =? 10 then [BACKSLASH; 110]
  else if c =? 13 then [BACKSLASH; 114]
  else if c =? 9 then [BACKSLASH; 116]
  else if c =? 12 then [BACKSLASH; 102]
  else if c =? 8 then [BACKSLASH; 98]
  else if in_range 32 126 c then [c]
  else if c <? 65536 then BACKSLASH :: 117 :: hex4 c
  else BACKSLASH :: 117 :: hex4 (55296 + (c - 65536) / 1024) ++
       BACKSLASH :: 117 :: hex4 (56320 + (c - 65536) mod 1024).

(** [json.dumps] of a string *)
Definition dumps_string (s : chars) : chars := QUOTE :: (s ≫= escape_char) ++ [QUOTE].

(** The character an escape letter stands for. *)
Definition unescape (c : N) : option N :=
  if (c =? QUOTE) || (c =? BACKSLASH) || (c =? 47) then Some c
  else if c =? 110 then Some 10
  else if c =? 114 then Some 13
  else if c =? 116 then Some 9
  else if c =? 102 then Some 12
  else if c =? 98 then Some 8
  else None.

Definition is_high (v : N) : bool := in_range 55296 56319 v.
Definition is_low (v : N) : bool := in_range 56320 57343 v.
Definition join_surrogates (hi lo : N) : N := 65536 + (hi - 55296) * 1024 + (lo - 56320).

(** The string after its opening quote, and what follows its closing one. *)
Fixpoint scanstring (l : chars) : option (chars * chars) :=
  match l with
  | [] => None
  | c :: l =>
      if c =? QUOTE then Some ([], l)
      else if c =? BACKSLASH then
        match l with
        | [] => None
        | e :: l1 =>
            if e =? 117 then
              match l1 with
              | a :: b :: c' :: d :: l2 =>
                  hi ← unhex4 a b c' d;
                  match l2 with
                  | s :: u :: a2 :: b2 :: c2 :: d2 :: l3 =>
                      if is_high hi && (s =? BACKSLASH) && (u =? 117) then
                        lo ← unhex4 a2 b2 c2 d2;
                        if is_low lo then '(t, r) ← scanstring l3; Some (join_surrogates hi lo :: t, r)
                        else '(t, r) ← scanstring l2; Some (hi :: t, r)
                      else '(t, r) ← scanstring l2; Some (hi :: t, r)
                  | _ => '(t, r) ← scanstring l2; Some (hi :: t, r)
                  end
              | _ => None
              end
            else x ← unescape e; '(t, r) ← scanstring l1; Some (x :: t, r)
        end
      else if c <? 32 then None
      else '(t, r) ← scanstring l; Some (c :: t, r)
  end.

Definition is_ws (c : N) : bool := (c =? 32) || (c =? 9) || (c =? 10) || (c =? 13).
Fixpoint skip_ws (l : chars) : chars :=
  match l with
  | c :: l' => if is_ws c then skip_ws l' else l
  | [] => []
  end.

Fixpoint take_digits (l : chars) : chars * chars :=
  match l with
  | c :: l' => if is_digit c then let '(d, r) := take_digits l' in (c :: d, r) else ([], l)
  | [] => ([], [])
  end.

(** [NUMBER_RE] at the start of [l]: the text it matches and the rest. *)
Definition scan_number (l : chars) : option (chars * chars) :=
  let '(sign, l1) := match l with c :: r => if c =? 45 then ([c], r) else ([], l) | [] => ([], l) end in
  '(int, l2) ← match l1 with
               | c :: r => if c =? 48 then Some ([c], r)
                           else if in_range 49 57 c then Some (take_digits l1) else None
               | [] => None
               end;
  let '(frac, l3) := match l2 with
                     | c :: r => if c =? 46
                                 then match take_digits r with ([], _) => ([], l2) | (d, r') => (c :: d, r') end
                                 else ([], l2)
                     | [] => ([], l2)
                     end in
  let '(exp, l4) :=
    match l3 with
    | c :: r =>
        if (c =? 101) || (c =? 69) then
          let '(s, r1) := match r with x :: r' => if (x =? 45) || (x =? 43) then ([x], r') else ([], r) | [] => ([], r) end in
          match take_digits r1 with ([], _) => ([], l3) | (d, r') => (c :: s ++ d, r') end
        else ([], l3)
    | [] => ([], l3)
    end in
  Some (sign ++ int ++ frac ++ exp, l4).

(** A fixed word at the start of [l]. *)
Definition word (w : string) (l : chars) : option chars :=
  if is_prefix (chars_of w) l then Some (drop (length (chars_of w)) l) else None.

(** [scan_once], the members of an object after [{] or a comma, and the items of an
    array; the fuel for [n] characters is [2 + 2 * n]. *)
Fixpoint scan_once (fuel : nat) (l : chars) : option (json * chars) :=
  match fuel with
  | O => None
  | S fuel =>
      match l with
      | [] => None
      | c :: r =>
          if c =? QUOTE then '(s, r) ← scanstring r; Some (JString s, r)
          else if c =? 123 then
            match skip_ws r with
            | q :: r' => if q =? 125 then Some (JObject [], r')
                         else '(ms, r) ← scan_members fuel (q :: r'); Some (JObject ms, r)
            | [] => None
            end
          else if c =? 91 then
            match skip_ws r with
            | q :: r' => if q =? 93 then Some (JArray [], r')
                         else '(xs, r) ← scan_items fuel (q :: r'); Some (JArray xs, r)
            | [] => None
            end
          else
            match word "null" l, word "true" l, word "false" l with
            | Some r, _, _ => Some (JNull, r)
            | _, Some r, _ => Some (JBool true, r)
            | _, _, Some r => Some (JBool false, r)
            | _, _, _ =>
                match scan_number l with
                | Some (n, r) => Some (JNumber n, r)
                | None =>
                    match word "NaN" l, word "Infinity" l, word "-Infinity" l with
                    | Some r, _, _ => Some (JNumber (chars_of "NaN"), r)
                    | _, Some r, _ => Some (JNumber (chars_of "Infinity"), r)
                    | _, _, Some r => Some (JNumber (chars_of "-Infinity"), r)
                    | _, _, _ => None
                    end
                end
            end
      end
  end
with scan_members (fuel : nat) (l : chars) : option (list (chars * json) * chars) :=
  match fuel with
  | O => None
  | S fuel =>
      match l with
      | q :: r =>
          if q =? QUOTE then
            '(k, r) ← scanstring r;
            match skip_ws r with
            | colon :: r =>
                if colon =? 58 then
                  '(v, r) ← scan_once fuel (skip_ws r);
                  match skip_ws r with
                  | d :: r =>
                      if d =? 125 then Some ([(k, v)], r)
                      else if d =? 44 then '(ms, r) ← scan_members fuel (skip_ws r); Some ((k, v) :: ms, r)
                      else None
                  | [] => None
                  end
                else None
            | [] => None
            end
          else None
      | [] => None
      end
  end
with scan_items (fuel : nat) (l : chars) : option (list json * chars) :=
  match fuel with
  | O => None
  | S fuel =>
      '(v, r) ← scan_once fuel l;
      match skip_ws r with
      | d :: r =>
          if d =? 93 then Some ([v], r)
          else if d =? 44 then '(xs, r) ← scan_items fuel (skip_ws r); Some (v :: xs, r)
          else None
      | [] => None
      end
  end.

(** [json.loads] of a string; [None] is a JSONDecodeError. *)
Definition loads_text (s : chars) : option json :=
  let s := skip_ws s in
  '(v, r) ← scan_once (2 + 2 * length s) s;
  match skip_ws r with [] => Some v | _ => None end.

(** A member of an object: the last of that name. *)
Definition member (k : chars) (ms : list (chars * json)) : option json :=
  snd <$> find (fun m => bool_decide (m.1 = k)) (rev ms).

(** ** Tokens *)

(** What the digests and the decoding of unusual payloads give. *)
Class Digests := {
  sha256 : list N -> list N;
  hmac_sha256 : list N -> list N -> list N;
  decode_other : list N -> option chars;  (* a payload that is not plain ASCII *)
  str_of : json -> chars                  (* [str] of a value that is no string *)
}.

(** A digest is a list of bytes. *)
Class DigestLaws (D : Digests) : Prop :=
  digest_bytes : forall k m, Forall (fun b => b < 256) (hmac_sha256 k m).

Inductive token_error : Type :=
| InvalidGrantToken (why : string)
| SecretUnset                      (* ValueError of [_signing_key] *)
| PayloadNotText.                  (* UnicodeDecodeError of [json.loads] *)

Definition _TOKEN_PREFIX : chars := chars_of "agr".
Definition _SIGNING_CONTEXT : list N := chars_of "agent-inference-grant:v1".

Fixpoint split_on (sep : N) (l cur : chars) : list chars :=
  match l with
  | [] => [cur]
  | c :: l => if c =? sep then cur :: split_on sep l [] else split_on sep l (cur ++ [c])
  end.

Definition DOT : N := 46.

Section tokens.
Context `{Digests}.

(** [_signing_key] *)
Definition _signing_key (secret : list N) : result token_error (list N) :=
  match secret with
  | [] => Raise SecretUnset
  | _ => Ok (sha256 (_SIGNING_CONTEXT ++ secret))
  end.

(** The payload of a grant: [json.dumps({"g": grant_id})]. *)
Definition claims (grant_id : chars) : list N :=
  123 :: dumps_string (chars_of "g") ++ 58 :: dumps_string grant_id ++ [125].

Local Open Scope result_scope.

(** [mint_grant_token] *)
Definition mint_grant_token (secret : list N) (grant_id : chars) : result token_error chars :=
  let payload := claims grant_id in
  try! key <- _signing_key secret ;;
  let signature := hmac_sha256 key payload in
  Ok (_TOKEN_PREFIX ++ DOT :: _b64encode payload ++ DOT :: _b64encode signature).

(** [looks_like_grant_token] *)
Definition looks_like_grant_token (token : option chars) : bool :=
  match token with
  | None | Some [] => false
  | Some t => is_prefix (_TOKEN_PREFIX ++ [DOT]) t
  end.

(** The text of a payload: ASCII without NUL is its own UTF-8. *)
Definition payload_text (payload : list N) : option chars :=
  if forallb (fun b => (0 <? b) && (b <? 128)) payload then Some payload else decode_other payload.

(** [str(json.loads(payload)["g"])] *)
Definition claimed_id (payload : list N) : result token_error chars :=
  match payload_text payload with
  | None => Raise PayloadNotText
  | Some text =>
      match loads_text text with
      | Some (JObject ms) =>
          match member (chars_of "g") ms with
          | Some (JString s) => Ok s
          | Some v => Ok (str_of v)
          | None => Raise (InvalidGrantToken "bad claims")
          end
      | _ => Raise (InvalidGrantToken "bad claims")
      end
  end.

(** [parse_grant_token] *)
Definition parse_grant_token (secret : list N) (token : chars) : result token_error chars :=
  match token with
  | [] => Raise (InvalidGrantToken "empty token")
  | _ =>
      match split_on DOT token [] with
      | [prefix; p; s] =>
          if negb (bool_decide (prefix = _TOKEN_PREFIX)) then Raise (InvalidGrantToken "malformed token")
          else
            match _b64decode p, _b64decode s with
            | Some payload, Some signature =>
                try! key <- _signing_key secret ;;
                if negb (bool_decide (signature = hmac_sha256 key payload))
                then Raise (InvalidGrantToken "bad signature")
                else
                  try! id <- claimed_id payload ;;
                  match id with
                  | [] => Raise (InvalidGrantToken "bad claims")
                  | _ => Ok id
                  end
            | _, _ => Raise (InvalidGrantToken "undecodable token")
            end
      | _ => Raise (InvalidGrantToken "malformed token")
      end
  end.
End tokens.

(** ** base64 round trip *)

Definition byte (b : N) : Prop := b < 256.

Lemma below_seq (P : N -> bool) n v :
  v < N.of_nat n -> forallb P (N.of_nat <$> seq 0 n) = true -> P v = true.
Proof.
  intros Hv Hall. rewrite forallb_forall in Hall. apply Hall. apply list_elem_of_In.
  apply list_elem_of_fmap. exists (N.to_nat v). rewrite N2Nat.id. split; [done|].
  apply elem_of_seq. lia.
Qed.

Definition has_value (o : option N) (v : N) : bool := match o with Some w => w =? v | None => false end.

Lemma value_is o v : has_value o v = true -> o = Some v.
Proof. destruct o as [w|]; simpl; [|done]. by intros ->%N.eqb_eq. Qed.

Lemma b64_char_value v : v < 64 -> b64_value (b64_char v) = Some v.
Proof.
  intros Hv. apply value_is, (below_seq (fun v => has_value (b64_value (b64_char v)) v) 64); [lia|]. by vm_compute.
Qed.

(** A text character of a token part: ASCII, neither padding nor a dot. *)
Definition plain (c : N) : bool := (c <? 128) && negb (c =? PAD) && negb (c =? DOT).

Lemma b64_char_plain v : v < 64 -> plain (b64_char v) = true.
Proof. intros Hv. apply (below_seq (fun v => plain (b64_char v)) 64); [lia|]. by vm_compute. Qed.

(** Lists by groups of three, as the encoder reads them. *)
Lemma triples_ind {A} (P : list A -> Prop) :
  P [] -> (forall a, P [a]) -> (forall a b, P [a; b]) ->
  (forall a b c l, P l -> P (a :: b :: c :: l)) -> forall l, P l.
Proof.
  intros H0 H1 H2 H3. fix IH 1. intros [|a [|b [|c l]]]; [done|done|done|]. apply H3, IH.
Qed.

(** The encoding without its padding. *)
Fixpoint b64_body (raw : list N) : chars :=
  match raw with
  | [] => []
  | [a] => [b64_char (a / 4); b64_char (a mod 4 * 16)]
  | [a; b] => [b64_char (a / 4); b64_char (a mod 4 * 16 + b / 16); b64_char (b mod 16 * 4)]
  | a :: b :: c :: rest =>
      b64_char (a / 4) :: b64_char (a mod 4 * 16 + b / 16) ::
      b64_char (b mod 16 * 4 + c / 64) :: b64_char (c mod 64) :: b64_body rest
  end.

(** Bits of bytes are below 64. *)
Ltac sextet :=
  unfold byte in *; zify; Z.to_euclidean_division_equations; lia.

Ltac bytes_of H :=
  repeat (apply Forall_cons in H; let B := fresh "B" in destruct H as [B H]).

Lemma b64_body_plain raw : Forall byte raw -> Forall (fun c => plain c = true) (b64_body raw).
Proof.
  induction raw as [|a|a b|a b c l IH] using triples_ind; intros Hr; bytes_of Hr;
    repeat constructor; try (apply b64_char_plain; sextet). by apply IH.
Qed.

Lemma b64_padded raw :
  urlsafe_b64encode raw = b64_body raw ++ repeat PAD ((4 - length (b64_body raw) mod 4) mod 4)%nat.
Proof.
  induction raw as [|a|a b|a b c l IH] using triples_ind; try done.
  cbn [urlsafe_b64encode b64_body app length]. do 4 f_equal. rewrite IH. do 3 f_equal.
  change (S (S (S (S (length (b64_body l)))))) with (4 + length (b64_body l))%nat.
  rewrite <- Nat.Div0.add_mod_idemp_l. done.
Qed.

Lemma lstrip_plain l : Forall (fun c => plain c = true) l -> lstrip_pad l = l.
Proof.
  destruct l as [|c l]; intros Hl; [done|]. apply Forall_cons in Hl as [Hc _]. simpl.
  unfold plain in Hc. by destruct (c =? PAD); [rewrite andb_false_r in Hc|].
Qed.

Lemma lstrip_repeat n l : lstrip_pad (repeat PAD n ++ l) = lstrip_pad l.
Proof. induction n as [|n IH]; [done|]. exact IH. Qed.

Lemma b64encode_body raw : Forall byte raw -> _b64encode raw = b64_body raw.
Proof.
  intros Hr. unfold _b64encode, rstrip_pad. rewrite b64_padded, rev_app_distr, rev_repeat, lstrip_repeat.
  rewrite lstrip_plain; [apply rev_involutive|]. apply Forall_rev, b64_body_plain, Hr.
Qed.

Lemma a2b_value v l quad left pads : v < 64 ->
  a2b_base64 (b64_char v :: l) quad left pads =
    if quad =? 0 then a2b_base64 l 1 v 0
    else if quad =? 1 then cons (left * 4 + v / 16) <$> a2b_base64 l 2 (v mod 16) 0
    else if quad =? 2 then cons (left * 16 + v / 4) <$> a2b_base64 l 3 (v mod 4) 0
    else cons (left * 64 + v) <$> a2b_base64 l 0 0 0.
Proof.
  intros Hv. cbn [a2b_base64]. rewrite b64_char_value by done.
  pose proof (b64_char_plain v Hv) as Hp. unfold plain in Hp.
  by destruct (b64_char v =? PAD); [rewrite andb_false_r in Hp|].
Qed.

Lemma a2b_encode raw : Forall byte raw -> a2b_base64 (urlsafe_b64encode raw) 0 0 0 = Some raw.
Proof.
  induction raw as [|a|a b|a b c l IH] using triples_ind; intros Hr; bytes_of Hr; [done|..];
    cbn [urlsafe_b64encode]; rewrite !a2b_value by sextet; cbn [N.eqb Pos.eqb a2b_base64].
  - simpl. do 2 f_equal. sextet.
  - simpl. repeat f_equal; sextet.
  - rewrite IH by done. simpl. repeat f_equal; sextet.
Qed.

Lemma b64decode_encode raw : Forall byte raw -> _b64decode (_b64encode raw) = Some raw.
Proof.
  intros Hr. unfold _b64decode, urlsafe_b64decode. rewrite b64encode_body, <- b64_padded by done.
  rewrite a2b_encode by done. replace (forallb _ _) with true; [done|]. symmetry.
  apply forallb_forall. intros c Hc%list_elem_of_In. rewrite b64_padded in Hc.
  apply elem_of_app in Hc as [Hc|Hc].
  - pose proof (proj1 (Forall_forall _ _) (b64_body_plain raw Hr) c Hc) as Hp. unfold plain in Hp.
    by destruct (c <? 128).
  - apply list_elem_of_In, repeat_spec in Hc. by subst.
Qed.

(** ** JSON strings round trip *)

(** A Unicode scalar value: no surrogate. *)
Definition scalar (c : N) : Prop := c < 1114112 /\ ~ (55296 <= c <= 57343).

Lemma hex_digit_value v : v < 16 -> hex_value (hex_digit v) = Some v.
Proof.
  intros Hv. apply value_is, (below_seq (fun v => has_value (hex_value (hex_digit v)) v) 16); [lia|]. by vm_compute.
Qed.

Lemma unhex4_hex4 (v : N) : v < 65536 ->
  unhex4 (hex_digit (v / 4096 mod 16)) (hex_digit (v / 256 mod 16)) (hex_digit (v / 16 mod 16))
    (hex_digit (v mod 16)) = Some v.
Proof. intros Hv. unfold unhex4. rewrite !hex_digit_value by sextet. simpl. f_equal. sextet. Qed.

Definition keep (c : N) (x : option (chars * chars)) : option (chars * chars) :=
  '(t, r) ← x; Some (c :: t, r).

Lemma scan_u (v : N) l : v < 65536 -> is_high v = false ->
  scanstring (BACKSLASH :: 117 :: hex4 v ++ l) = keep v (scanstring l).
Proof.
  intros Hv Hh. cbn -[hex_digit unhex4 N.div N.modulo is_high].
  rewrite unhex4_hex4 by done. cbn -[hex_digit unhex4 is_high]. rewrite Hh.
  destruct l as [|? [|? [|? [|? [|? [|? ?]]]]]]; done.
Qed.

Lemma scan_pair (hi lo : N) l : is_high hi = true -> is_low lo = true ->
  scanstring (BACKSLASH :: 117 :: hex4 hi ++ BACKSLASH :: 117 :: hex4 lo ++ l) =
  keep (join_surrogates hi lo) (scanstring l).
Proof.
  intros Hh Hl. cbn -[hex_digit unhex4 N.div N.modulo is_high is_low join_surrogates].
  assert (hi < 65536 /\ lo < 65536) as [? ?] by (unfold is_high, is_low, in_range in *; lia).
  rewrite !unhex4_hex4 by done. cbn -[hex_digit unhex4 is_high is_low join_surrogates].
  by rewrite Hh, Hl.
Qed.

Lemma scan_escaped (c : N) l : scalar c -> scanstring (escape_char c ++ l) = keep c (scanstring l).
Proof.
  intros [Hc Hs]. unfold escape_char.
  destruct (c =? QUOTE) eqn:E1; [apply N.eqb_eq in E1; by subst|].
  destruct (c =? BACKSLASH) eqn:E2; [apply N.eqb_eq in E2; by subst|].
  destruct (c =? 10) eqn:E3; [apply N.eqb_eq in E3; by subst|].
  destruct (c =? 13) eqn:E4; [apply N.eqb_eq in E4; by subst|].
  destruct (c =? 9) eqn:E5; [apply N.eqb_eq in E5; by subst|].
  destruct (c =? 12) eqn:E6; [apply N.eqb_eq in E6; by subst|].
  destruct (c =? 8) eqn:E7; [apply N.eqb_eq in E7; by subst|].
  destruct (in_range 32 126 c) eqn:E8.
  { simpl. rewrite E1, E2. replace (c <? 32) with false by (unfold in_range in E8; lia). done. }
  destruct (c <? 65536) eqn:E9.
  - apply scan_u; [lia|]. unfold is_high, in_range. lia.
  - rewrite <- !app_comm_cons, <- app_assoc, <- !app_comm_cons.
    rewrite scan_pair by (unfold is_high, is_low, in_range; sextet).
    f_equal. unfold join_surrogates. sextet.
Qed.

Lemma scan_dumped s l : Forall scalar s -> scanstring ((s ≫= escape_char) ++ QUOTE :: l) = Some (s, l).
Proof.
  induction 1 as [|c s Hc _ IH]; [done|].
  rewrite bind_cons, <- app_assoc, scan_escaped by done. by rewrite IH.
Qed.

(** ** The scanner's fuel suffices *)

Lemma skip_ws_length l : (length (skip_ws l) <= length l)%nat.
Proof. induction l as [|c l IH]; simpl; [done|]. destruct (is_ws c); simpl; lia. Qed.

Lemma take_digits_length l : (length (take_digits l).2 <= length l)%nat.
Proof.
  induction l as [|c l IH]; simpl; [done|]. destruct (is_digit c); [|done].
  destruct (take_digits l); simpl in *; lia.
Qed.

Lemma keep_Some c x t r : keep c x = Some (t, r) -> exists t', x = Some (t', r).
Proof. destruct x as [[t' r']|]; simpl; [|done]. intros [= _ ->]. by exists t'. Qed.

Lemma scanstring_length l s r : scanstring l = Some (s, r) -> (length r < length l)%nat.
Proof.
  remember (length l) as n eqn:Hn. revert l s r Hn. induction (lt_wf n) as [n _ IH]. intros l s r -> E.
  assert (forall l' c, keep c (scanstring l') = Some (s, r) -> (length l' < length l)%nat ->
    (length r < length l)%nat) as Hk.
  { intros l' c [t Ht]%keep_Some Hl. pose proof (IH _ Hl l' t r eq_refl Ht). lia. }
  destruct l as [|c l]; [done|]. cbn -[unhex4 unescape is_high is_low] in E.
  destruct (c =? QUOTE); [simplify_eq; simpl; lia|].
  destruct (c =? BACKSLASH).
  - destruct l as [|e l1]; [done|]. destruct (e =? 117).
    + destruct l1 as [|a1 [|b1 [|c1 [|d1 l2]]]]; try done.
      destruct (unhex4 a1 b1 c1 d1) as [hi|]; [|done]. cbn -[unhex4 is_high is_low] in E.
      destruct l2 as [|x1 [|x2 [|x3 [|x4 [|x5 [|x6 l3]]]]]];
        try (eapply (Hk _ hi); [exact E|simpl; lia]).
      destruct (is_high hi && _ && _); [|eapply (Hk (x1 :: x2 :: x3 :: x4 :: x5 :: x6 :: l3) hi); [exact E|simpl; lia]].
      destruct (unhex4 x3 x4 x5 x6) as [lo|]; [|done]. cbn -[unhex4 is_high is_low] in E.
      destruct (is_low lo).
      * eapply (Hk l3 (join_surrogates hi lo)); [exact E|simpl; lia].
      * eapply (Hk (x1 :: x2 :: x3 :: x4 :: x5 :: x6 :: l3) hi); [|simpl; lia]. exact E.
    + destruct (unescape e) as [x|]; [|done]. eapply (Hk _ x); [exact E|simpl; lia].
  - destruct (c <? 32); [done|]. eapply (Hk _ c); [exact E|simpl; lia].
Qed.

Lemma scan_number_length l s r : scan_number l = Some (s, r) -> (length r < length l)%nat.
Proof.
  unfold scan_number.
  assert (forall l1 l2 i, (match l1 with c :: r => if c =? 48 then Some ([c], r)
    else if in_range 49 57 c then Some (take_digits l1) else None | [] => None end) = Some (i, l2) ->
    (length l2 < length l1)%nat) as Hint.
  { intros [|c l1] l2 i E; [done|]. destruct (c =? 48); [simplify_eq; simpl; lia|].
    destruct (in_range 49 57 c) eqn:Hd; [|done]. simplify_eq. cbn [take_digits] in *.
    replace (is_digit c) with true in * by (unfold is_digit, in_range in *; lia).
    pose proof (take_digits_length l1). destruct (take_digits l1); simplify_eq/=. lia. }
  destruct (match l with c :: r0 => _ | [] => _ end) as [sign l1] eqn:Es.
  assert (length l1 <= length l)%nat as H1 by (destruct l as [|c l]; [by simplify_eq|]; destruct (c =? 45); simplify_eq/=; lia).
  destruct (match l1 with c :: r0 => _ | [] => _ end) as [[i l2]|] eqn:Ei; [|done]. apply Hint in Ei. simpl.
  destruct (match l2 with c :: r0 => _ | [] => _ end) as [frac l3] eqn:Ef.
  assert (length l3 <= length l2)%nat as H3.
  { destruct l2 as [|c l2]; [by simplify_eq|]. destruct (c =? 46); [|by simplify_eq].
    pose proof (take_digits_length l2). destruct (take_digits l2) as [[|? ?] ?]; simplify_eq/=; lia. }
  destruct (match l3 with c :: r0 => _ | [] => _ end) as [exp l4] eqn:Ee.
  assert (length l4 <= length l3)%nat as H4; [|intros; simplify_eq; lia].
  clear -Ee. destruct l3 as [|c l3]; [by simplify_eq|]. destruct (_ || _); [|by simplify_eq].
  destruct (match l3 with x :: r' => _ | [] => _ end) as [s r1] eqn:E1.
  assert (length r1 <= length l3)%nat by (destruct l3 as [|x l3]; [by simplify_eq|]; destruct (_ || _); simplify_eq/=; lia).
  pose proof (take_digits_length r1). destruct (take_digits r1) as [[|? ?] ?]; simplify_eq/=; lia.
Qed.

Lemma word_length w l r : w <> ""%string -> word w l = Some r -> (length r < length l)%nat.
Proof.
  intros Hw. unfold word. destruct (is_prefix (chars_of w) l) eqn:E; [|done]. intros [= <-].
  rewrite length_drop. destruct w as [|a w]; [done|]. destruct l as [|c l]; [done|].
  unfold chars_of. simpl. lia.
Qed.

(** Every scanner leaves less than it was given. *)
Lemma scan_shrinks n :
  (forall l v r, scan_once n l = Some (v, r) -> (length r < length l)%nat) /\
  (forall l v r, scan_members n l = Some (v, r) -> (length r < length l)%nat) /\
  (forall l v r, scan_items n l = Some (v, r) -> (length r < length l)%nat).
Proof.
  induction n as [|n (IHo & IHm & IHi)]; [done|]. split_and!.
  - intros [|c l] v r E; [done|]. cbn [scan_once] in E.
    destruct (c =? QUOTE).
    { destruct (scanstring l) as [[s r']|] eqn:Es; [|done]. apply scanstring_length in Es.
      simplify_eq/=. lia. }
    pose proof (skip_ws_length l) as Hw. destruct (c =? 123).
    { destruct (skip_ws l) as [|q r'] eqn:Eq; [done|]. simpl in Hw. destruct (q =? 125); [simplify_eq/=; lia|].
      destruct (scan_members n (q :: r')) as [[ms r'']|] eqn:Em; [|done]. apply IHm in Em. simplify_eq/=. lia. }
    destruct (c =? 91).
    { destruct (skip_ws l) as [|q r'] eqn:Eq; [done|]. simpl in Hw. destruct (q =? 93); [simplify_eq/=; lia|].
      destruct (scan_items n (q :: r')) as [[ms r'']|] eqn:Em; [|done]. apply IHi in Em. simplify_eq/=. lia. }
    pose proof (fun w r => word_length w (c :: l) r) as Hword.
    repeat match type of E with
    | match word ?w ?l with _ => _ end = _ => destruct (word w l) eqn:?; [simplify_eq; eapply Hword; [|eassumption]; done|]
    | match scan_number ?l with _ => _ end = _ =>
        destruct (scan_number l) as [[? ?]|] eqn:?; [simplify_eq; eapply scan_number_length; eassumption|]
    end; done.
  - intros [|q l] v r E; [done|]. cbn [scan_members] in E. destruct (q =? QUOTE); [|done].
    destruct (scanstring l) as [[k r1]|] eqn:Es; [|done]. apply scanstring_length in Es. simpl in E.
    pose proof (skip_ws_length r1). destruct (skip_ws r1) as [|co r2]; [done|]. destruct (co =? 58); [|done].
    destruct (scan_once n (skip_ws r2)) as [[x r3]|] eqn:Eo; [|done]. apply IHo in Eo. simpl in E.
    pose proof (skip_ws_length r2). pose proof (skip_ws_length r3). simpl in *.
    destruct (skip_ws r3) as [|d r4]; [done|]. destruct (d =? 125); [simplify_eq/=; lia|].
    destruct (d =? 44); [|done]. destruct (scan_members n (skip_ws r4)) as [[ms r5]|] eqn:Em; [|done].
    apply IHm in Em. pose proof (skip_ws_length r4). simplify_eq/=. lia.
  - intros l v r E. cbn [scan_items] in E. destruct (scan_once n l) as [[x r3]|] eqn:Eo; [|done].
    apply IHo in Eo. simpl in E. pose proof (skip_ws_length r3).
    destruct (skip_ws r3) as [|d r4]; [done|]. simpl in *. destruct (d =? 93); [simplify_eq/=; lia|].
    destruct (d =? 44); [|done]. destruct (scan_items n (skip_ws r4)) as [[ms r5]|] eqn:Em; [|done].
    apply IHi in Em. pose proof (skip_ws_length r4). simplify_eq/=. lia.
Qed.

(** Beyond [2 + 2 * length l] the fuel does not matter. *)
Lemma scan_fuel n :
  (forall m l, (2 * length l < n)%nat -> (2 * length l < m)%nat -> scan_once n l = scan_once m l) /\
  (forall m l, (2 * length l < n)%nat -> (2 * length l < m)%nat -> scan_members n l = scan_members m l) /\
  (forall m l, (1 + 2 * length l < n)%nat -> (1 + 2 * length l < m)%nat -> scan_items n l = scan_items m l).
Proof.
  induction n as [|n (IHo & IHm & IHi)]; [split_and!; intros; lia|]. split_and!; intros [|m] l Hn Hm; try lia.
  - destruct l as [|c l]; [done|]. cbn [scan_once]. pose proof (skip_ws_length l) as Hw. simpl in Hn, Hm.
    destruct (c =? QUOTE); [done|]. destruct (skip_ws l) as [|q r']; [done|].
    rewrite (IHm m (q :: r')), (IHi m (q :: r')) by lia. done.
  - destruct l as [|q l]; [done|]. cbn [scan_members]. simpl in Hn, Hm. destruct (q =? QUOTE); [|done].
    destruct (scanstring l) as [[k r1]|] eqn:Es; [|done]. apply scanstring_length in Es. simpl.
    pose proof (skip_ws_length r1). destruct (skip_ws r1) as [|co r2]; [done|]. destruct (co =? 58); [|done].
    pose proof (skip_ws_length r2). simpl in *. rewrite (IHo m (skip_ws r2)) by lia.
    destruct (scan_once m (skip_ws r2)) as [[x r3]|] eqn:Eo; [|done].
    apply (proj1 (scan_shrinks m)) in Eo. simpl. pose proof (skip_ws_length r3).
    destruct (skip_ws r3) as [|d r4]; [done|]. pose proof (skip_ws_length r4). simpl in *.
    by rewrite (IHm m (skip_ws r4)) by lia.
  - cbn [scan_items]. rewrite (IHo m l) by lia. destruct (scan_once m l) as [[x r3]|] eqn:Eo; [|done].
    apply (proj1 (scan_shrinks m)) in Eo. simpl. pose proof (skip_ws_length r3).
    destruct (skip_ws r3) as [|d r4]; [done|]. pose proof (skip_ws_length r4). simpl in *.
    by rewrite (IHi m (skip_ws r4)) by lia.
Qed.

(** So any larger budget reads the same value. *)
Lemma loads_text_fuel s n :
  (2 + 2 * length (skip_ws s) <= n)%nat ->
  loads_text s = ('(v, r) ← scan_once n (skip_ws s); match skip_ws r with [] => Some v | _ => None end).
Proof. intros Hn. unfold loads_text. by rewrite (proj1 (scan_fuel _) n) by lia. Qed.

(** ** Tokens round trip *)

Lemma escape_ascii c : Forall (fun b => ((0 <? b) && (b <? 128)) = true) (escape_char c).
Proof.
  assert (forall v, v < 16 -> ((0 <? hex_digit v) && (hex_digit v <? 128)) = true) as Hh
    by (intros v Hv; apply (below_seq (fun v => (0 <? hex_digit v) && (hex_digit v <? 128)) 16); [lia|by vm_compute]).
  assert (forall v, Forall (fun b => ((0 <? b) && (b <? 128)) = true) (hex4 v)) as H4
    by (intros v; repeat constructor; apply Hh, N.mod_lt; lia).
  unfold escape_char. repeat case_match; repeat (constructor; [done|]); try done.
  - repeat constructor. unfold in_range in *. lia.
  - apply Forall_app. split; [apply H4|]. do 2 (constructor; [done|]). apply H4.
Qed.

Lemma claims_text id rest :
  claims id ++ rest = [123; QUOTE; 103; QUOTE; 58; QUOTE] ++ (id ≫= escape_char) ++ QUOTE :: 125 :: rest.
Proof.
  change (claims id) with ([123; QUOTE; 103; QUOTE; 58; QUOTE] ++ ((id ≫= escape_char) ++ [QUOTE]) ++ [125]).
  by rewrite <- !app_assoc.
Qed.

Lemma claims_ascii id : Forall (fun b => ((0 <? b) && (b <? 128)) = true) (claims id).
Proof.
  rewrite <- (app_nil_r (claims id)), claims_text. cbn [app]. repeat (constructor; [done|]).
  apply Forall_app. split; [|by repeat constructor]. apply Forall_bind, Forall_forall. intros c _. apply escape_ascii.
Qed.

Lemma loads_claims id : Forall scalar id -> loads_text (claims id) = Some (JObject [(chars_of "g", JString id)]).
Proof.
  intros Hid. rewrite (loads_text_fuel _ (3 + 2 * length (skip_ws (claims id)))) by lia.
  rewrite <- (app_nil_r (claims id)), claims_text. cbn [app skip_ws is_ws N.eqb Pos.eqb orb].
  set (n := (2 * _)%nat). clearbody n.
  cbn [scan_once scan_members scanstring skip_ws is_ws Nat.add N.eqb Pos.eqb N.ltb N.compare Pos.compare Pos.compare_cont
    orb QUOTE BACKSLASH mbind option_bind].
  rewrite (scan_dumped id [125] Hid). done.
Qed.

Lemma split_on_part sep a l cur :
  Forall (fun c => (c =? sep) = false) a ->
  split_on sep (a ++ sep :: l) cur = (cur ++ a) :: split_on sep l [].
Proof.
  intros Ha. revert cur. induction Ha as [|c a Hc Ha IH]; intros cur; simpl.
  - by rewrite N.eqb_refl, app_nil_r.
  - rewrite Hc, IH. by rewrite <- app_assoc.
Qed.

Lemma split_on_last sep a cur :
  Forall (fun c => (c =? sep) = false) a -> split_on sep a cur = [cur ++ a].
Proof.
  intros Ha. revert cur. induction Ha as [|c a Hc Ha IH]; intros cur; simpl.
  - by rewrite app_nil_r.
  - rewrite Hc, IH. by rewrite <- app_assoc.
Qed.

Lemma encoded_no_dot raw : Forall byte raw -> Forall (fun c => (c =? DOT) = false) (_b64encode raw).
Proof.
  intros Hr. rewrite b64encode_body by done. eapply Forall_impl; [by apply b64_body_plain|].
  intros c Hc. simpl in Hc. unfold plain in Hc. by destruct (c =? DOT); [rewrite andb_false_r in Hc|].
Qed.

Section roundtrip.
Context `{D : Digests, !DigestLaws D}.

Lemma claims_bytes id : Forall byte (claims id).
Proof. eapply Forall_impl; [apply claims_ascii|]. intros b Hb. unfold byte. simpl in Hb. lia. Qed.

Lemma claimed_claims id : Forall scalar id -> claimed_id (claims id) = Ok id.
Proof.
  intros Hid. unfold claimed_id, payload_text.
  replace (forallb _ _) with true by (symmetry; apply forallb_forall; intros b Hb%list_elem_of_In;
    apply (proj1 (Forall_forall _ _) (claims_ascii id) b Hb)).
  by rewrite loads_claims.
Qed.

Lemma parse_mint secret id :
  secret <> [] -> id <> [] -> Forall scalar id ->
  exists t, mint_grant_token secret id = Ok t /\ looks_like_grant_token (Some t) = true /\
    parse_grant_token secret t = Ok id.
Proof.
  intros Hsecret Hne Hid. unfold mint_grant_token, parse_grant_token, _signing_key.
  destruct secret as [|b secret]; [done|]. cbn [bind_result].
  set (key := sha256 _). set (payload := claims id).
  eexists. split; [reflexivity|]. split; [done|].
  assert (Forall byte (hmac_sha256 key payload)) as Hs by apply digest_bytes.
  assert (Forall byte payload) as Hp by apply claims_bytes.
  change (_TOKEN_PREFIX ++ ?l) with (97 :: [103; 114] ++ l). cbn [app].
  change (97 :: 103 :: 114 :: ?l) with (_TOKEN_PREFIX ++ l).
  rewrite split_on_part by (by repeat constructor). rewrite split_on_part by (by apply encoded_no_dot).
  rewrite split_on_last by (by apply encoded_no_dot). cbn [app].
  rewrite bool_decide_eq_true_2 by done. cbn [negb]. rewrite !b64decode_encode by done. cbn [bind_result].
  rewrite bool_decide_eq_true_2 by done. cbn [negb].
  unfold payload. rewrite claimed_claims by done. cbn [bind_result]. by destruct id.
Qed.
End roundtrip.

(** C37: Every token the gateway mints is read back as its grant: for any grant id of
    Unicode scalar values and any non-empty secret, minting succeeds, the token is
    recognised as a grant token, and parsing it under the same secret returns the id,
    through the JSON escapes, both base64 parts and the signature check. *)
Theorem grant_token_roundtrip `{D : Digests} `{!DigestLaws D} secret id :
  secret <> [] -> id <> [] -> Forall scalar id ->
  exists t, mint_grant_token secret id = Ok t /\ looks_like_grant_token (Some t) = true /\
    parse_grant_token secret t = Ok id.
Proof. apply parse_mint. Qed.

(** A keyed checksum, to run the codecs. *)
#[local] Instance toy_digests : Digests := {|
  sha256 m := [foldr N.add 0 m mod 256];
  hmac_sha256 k m := [foldr N.add 0 (k ++ m) mod 256; N.of_nat (length m) mod 256];
  decode_other _ := None;
  str_of _ := chars_of "value"
|}.

#[local] Instance toy_laws : DigestLaws toy_digests.
Proof. intros k m. repeat constructor; apply N.mod_lt; lia. Qed.

(** An id with a quote, a control character and a character outside the BMP. *)
Definition odd_id : chars := [97; 34; 10; 128512].

Lemma grant_token_roundtrip_witness :
  exists t, mint_grant_token [115] odd_id = Ok t /\ looks_like_grant_token (Some t) = true /\
    parse_grant_token [115] t = Ok odd_id.
Proof.
  apply (grant_token_roundtrip [115] odd_id); [done|done|]. repeat constructor; lia.
Defined.

(** Changing one character of the payload of a minted token is noticed. *)
Example tampered_token :
  match mint_grant_token [115] (chars_of "agr_1") with
  | Ok t => parse_grant_token [115] (<[13%nat := 69]> t) = Raise (InvalidGrantToken "bad signature")
  | Raise _ => False
  end.
Proof. vm_compute. reflexivity. Qed.
