(* ===== verification/VersionedCache.v ===== *)
(** The per-model override caches: [ModelVisibilityResolver]
    ([serving/config/model_visibility.py]) and [ModelConcurrencyResolver]
    ([serving/config/model_concurrency.py]).

    Both read a row of the store per model, keep what it says for [ttl] seconds and
    guard the cache with a version per model that every invalidation advances.  The
    component is written once over the row type and its reading [of_row]; each locked
    block and each store read is one step, so lookups, writes and invalidations
    interleave freely. *)

From S2P Require Import Prelude KeyPool.

Local Open Scope Q_scope.

(** ** The cache *)

Section cache.
Context {R V : Type} (of_row : option R -> V).

Record resolver : Type := Resolver {
  r_cache : gmap string (Q * V);
  r_versions : gmap string Z
}.

(** The first locked block of a lookup: an answer, or the version the read starts at. *)
Definition lookup_begin (ttl : Q) (s : resolver) (m : string) (now : Q) : resolver * (V + Z) :=
  match r_cache s !! m with
  | Some (at_, v) =>
      if decide (now - at_ < ttl) then (s, inl v)
      else let n := default 0%Z (r_versions s !! m) in
           (Resolver (r_cache s) (<[m := n]> (r_versions s)), inr n)
  | None =>
      let n := default 0%Z (r_versions s !! m) in
      (Resolver (r_cache s) (<[m := n]> (r_versions s)), inr n)
  end.

(** The second: [None] is a retry, the version having moved. *)
Definition lookup_end (s : resolver) (m : string) (version : Z) (row : option R) (refreshed_at : Q) :
    resolver * option V :=
  if decide (default 0%Z (r_versions s !! m) = version)
  then (Resolver (<[m := (refreshed_at, of_row row)]> (r_cache s)) (r_versions s), Some (of_row row))
  else (s, None).

(** [invalidate_model] *)
Definition invalidate_model (s : resolver) (m : string) : resolver :=
  Resolver (delete m (r_cache s)) (<[m := (default 0 (r_versions s !! m) + 1)%Z]> (r_versions s)).

(** [invalidate_cache] *)
Definition invalidate_cache (s : resolver) : resolver :=
  Resolver ∅ ((fun n => (n + 1)%Z) <$> r_versions s).

(** ** Lookups in flight *)

Inductive lookup_stage : Type :=
| Asking (m : string) (version : Z)                       (* the store is being read *)
| Fetched (m : string) (version : Z) (row : option R)     (* the row has arrived *)
| Answered.                                               (* returned or failed *)

(** The store, the cache, the lookups, the answers given so far and, per model, the
    rows the store has held since the model was last invalidated. *)
Record cache_world : Type := CacheWorld {
  rows : gmap string R;
  res : resolver;
  lookups : list lookup_stage;
  answers : list (string * V);
  since : gmap string (list (option R))
}.

Definition new_cache_world (rows : gmap string R) : cache_world :=
  CacheWorld rows (Resolver ∅ ∅) [] [] ∅.

Inductive cache_op : Type :=
| CLookup (m : string) (now : Q)
| CFetch (i : nat)
| CFinish (i : nat) (now : Q)
| CFail (i : nat)                       (* the store read raised *)
| CWrite (m : string) (row : option R)  (* set or delete the override *)
| CInvalidate (m : string)
| CInvalidateAll.

(** The rows of [m] since its last invalidation, the current one among them. *)
Definition recent (w : cache_world) (m : string) : list (option R) :=
  default [rows w !! m] (since w !! m).

(** The head of the loop for lookup [i]. *)
Definition begin_at (ttl : Q) (w : cache_world) (m : string) (now : Q) : cache_world * lookup_stage :=
  match lookup_begin ttl (res w) m now with
  | (s, inl v) => (CacheWorld (rows w) s (lookups w) (answers w ++ [(m, v)]) (since w), Answered)
  | (s, inr n) => (CacheWorld (rows w) s (lookups w) (answers w) (since w), Asking m n)
  end.

Definition set_lookup (w : cache_world) (i : nat) (st : lookup_stage) : cache_world :=
  CacheWorld (rows w) (res w) (<[i := st]> (lookups w)) (answers w) (since w).

Definition cache_step (ttl : Q) (w : cache_world) (o : cache_op) : cache_world :=
  match o with
  | CLookup m now =>
      let '(w, st) := begin_at ttl w m now in
      CacheWorld (rows w) (res w) (lookups w ++ [st]) (answers w) (since w)
  | CFetch i =>
      match lookups w !! i with
      | Some (Asking m n) => set_lookup w i (Fetched m n (rows w !! m))
      | _ => w
      end
  | CFinish i now =>
      match lookups w !! i with
      | Some (Fetched m n row) =>
          match lookup_end (res w) m n row now with
          | (s, Some v) =>
              set_lookup (CacheWorld (rows w) s (lookups w) (answers w ++ [(m, v)]) (since w)) i Answered
          | (s, None) => let '(w, st) := begin_at ttl w m now in set_lookup w i st
          end
      | _ => w
      end
  | CFail i =>
      match lookups w !! i with
      | Some (Asking _ _) => set_lookup w i Answered
      | _ => w
      end
  | CWrite m row =>
      CacheWorld (partial_alter (fun _ => row) m (rows w)) (res w) (lookups w) (answers w)
        (<[m := recent w m ++ [row]]> (since w))
  | CInvalidate m =>
      CacheWorld (rows w) (invalidate_model (res w) m) (lookups w) (answers w) (delete m (since w))
  | CInvalidateAll =>
      CacheWorld (rows w) (invalidate_cache (res w)) (lookups w) (answers w) ∅
  end.

Definition cache_run (ttl : Q) (w : cache_world) (l : list cache_op) : cache_world :=
  fold_left (cache_step ttl) l w.

(** ** Freshness *)

(** A lookup in flight started at a version not above the current one, and a row it
    fetched at the current version is one the store held since the invalidation. *)
Definition lookup_ok (w : cache_world) (st : lookup_stage) : Prop :=
  match st with
  | Asking m n => exists cur, r_versions (res w) !! m = Some cur /\ (n <= cur)%Z
  | Fetched m n row =>
      exists cur, r_versions (res w) !! m = Some cur /\ (n <= cur)%Z /\ (n = cur -> row ∈ recent w m)
  | Answered => True
  end.

Record cache_ok (w : cache_world) : Prop := {
  ok_current m : rows w !! m ∈ recent w m;
  ok_cache m t v : r_cache (res w) !! m = Some (t, v) -> v ∈ of_row <$> recent w m;
  ok_lookups : Forall (lookup_ok w) (lookups w)
}.

(** What a step may change for the others: versions only grow, and recent rows stay
    recent unless the version moved. *)
Definition moves (w w' : cache_world) : Prop :=
  forall m cur, r_versions (res w) !! m = Some cur ->
  exists cur', r_versions (res w') !! m = Some cur' /\ (cur <= cur')%Z /\
    (cur = cur' -> forall row, row ∈ recent w m -> row ∈ recent w' m).

Lemma lookup_ok_moves w w' st : moves w w' -> lookup_ok w st -> lookup_ok w' st.
Proof.
  intros Hm. destruct st as [m n|m n row|]; simpl; [| |done].
  - intros (cur & Hc & Hle). destruct (Hm m cur Hc) as (cur' & Hc' & Hle' & _). exists cur'. split; [done|lia].
  - intros (cur & Hc & Hle & Hrow). destruct (Hm m cur Hc) as (cur' & Hc' & Hle' & Hrec).
    exists cur'. split_and!; [done|lia|]. intros ->. apply Hrec; [lia|]. apply Hrow. lia.
Qed.

Lemma moves_refl w w' :
  r_versions (res w') = r_versions (res w) -> rows w' = rows w -> since w' = since w -> moves w w'.
Proof.
  intros Hv Hr Hs m cur Hc. exists cur. rewrite Hv. split_and!; [done|lia|].
  intros _ row. unfold recent. by rewrite Hr, Hs.
Qed.

Lemma lookups_moves w w' : moves w w' -> Forall (lookup_ok w) (lookups w) -> Forall (lookup_ok w') (lookups w).
Proof. intros Hm H. eapply Forall_impl; [exact H|]. intros st. by apply lookup_ok_moves. Qed.

(** The head of the loop keeps the invariant, answers with a recent row, and leaves a
    lookup in order. *)
Lemma begin_at_ok ttl w m now :
  cache_ok w ->
  let '(w', st) := begin_at ttl w m now in
  cache_ok w' /\ lookup_ok w' st /\ lookups w' = lookups w /\ rows w' = rows w /\ since w' = since w /\
  exists l, answers w' = answers w ++ l /\ Forall (fun a => a.2 ∈ of_row <$> recent w a.1) l.
Proof.
  intros [Hcur Hcache Hlook]. unfold begin_at, lookup_begin.
  assert (forall v, moves w (CacheWorld (rows w) (Resolver (r_cache (res w))
    (<[m := default 0%Z (r_versions (res w) !! m)]> (r_versions (res w)))) (lookups w) v (since w))) as Hmv.
  { intros v k cur Hc. simpl. exists cur. split_and!; [|lia|done]. rewrite lookup_insert.
    case_decide; [|done]. subst. by rewrite Hc. }
  destruct (r_cache (res w) !! m) as [[t v]|] eqn:Em; [destruct (decide (now - t < ttl))|].
  - split_and!; try done.
    exists [(m, v)]. split; [done|]. repeat constructor. simpl. by eapply Hcache.
  - split_and!; try done.
    + constructor; simpl; [done|done|]. by apply (lookups_moves w).
    + simpl. exists (default 0%Z (r_versions (res w) !! m)). rewrite lookup_insert_eq. split; [done|lia].
    + exists []. by rewrite app_nil_r.
  - split_and!; try done.
    + constructor; simpl; [done|done|]. by apply (lookups_moves w).
    + simpl. exists (default 0%Z (r_versions (res w) !! m)). rewrite lookup_insert_eq. split; [done|lia].
    + exists []. by rewrite app_nil_r.
Qed.

Lemma set_lookup_ok w i st : cache_ok w -> lookup_ok w st -> cache_ok (set_lookup w i st).
Proof.
  intros [Hcur Hcache Hlook] Hst. constructor; simpl; [done|done|].
  apply (lookups_moves w (set_lookup w i st)) in Hlook; [|by apply moves_refl].
  apply Forall_insert; [done|]. eapply lookup_ok_moves; [|exact Hst]. by apply moves_refl.
Qed.

Lemma recent_write w m row k :
  recent (cache_step 0 w (CWrite m row)) k = if decide (m = k) then recent w m ++ [row] else recent w k.
Proof.
  unfold recent at 1. simpl. rewrite lookup_insert. case_decide; [done|].
  simpl. by rewrite lookup_partial_alter_ne.
Qed.

Lemma write_ok ttl w m row : cache_ok w -> cache_ok (cache_step ttl w (CWrite m row)).
Proof.
  intros [Hcur Hcache Hlook]. pose proof (recent_write w m row) as Hrec.
  assert (forall k x, x ∈ recent w k -> x ∈ recent (cache_step 0 w (CWrite m row)) k) as Hsub.
  { intros k x Hx. rewrite Hrec. case_decide; [subst; apply elem_of_app; by left|done]. }
  constructor.
  - intros k. change (recent (cache_step ttl w _) k) with (recent (cache_step 0 w (CWrite m row)) k).
    rewrite Hrec. simpl. case_decide; subst.
    + rewrite lookup_partial_alter_eq. apply elem_of_app. right. by apply list_elem_of_singleton.
    + by rewrite lookup_partial_alter_ne.
  - intros k t v Hv. apply Hcache in Hv. apply list_elem_of_fmap in Hv as (x & -> & Hx).
    apply list_elem_of_fmap. exists x. split; [done|]. by apply Hsub.
  - apply (lookups_moves w (cache_step ttl w (CWrite m row))); [|done].
    intros k cur Hc. exists cur. split_and!; [done|lia|]. intros _ x Hx. by apply Hsub.
Qed.

Lemma invalidate_ok ttl w m : cache_ok w -> cache_ok (cache_step ttl w (CInvalidate m)).
Proof.
  intros [Hcur Hcache Hlook].
  assert (forall k, recent (cache_step ttl w (CInvalidate m)) k = if decide (m = k) then [rows w !! k] else recent w k)
    as Hrec by (intros k; unfold recent; simpl; rewrite lookup_delete; by case_decide).
  constructor.
  - intros k. rewrite Hrec. simpl. case_decide; [by apply list_elem_of_singleton|done].
  - intros k t v. rewrite Hrec. simpl. rewrite lookup_delete. case_decide; [done|]. apply Hcache.
  - apply (lookups_moves w (cache_step ttl w (CInvalidate m))); [|done].
    intros k cur Hc. cbn [cache_step res invalidate_model r_versions]. rewrite lookup_insert. case_decide as Hk.
    + subst k. rewrite Hc. simpl. exists (cur + 1)%Z. split_and!; [done|lia|]. intros; lia.
    + exists cur. split_and!; [done|lia|]. intros _ x. rewrite Hrec. by rewrite decide_False.
Qed.

Lemma invalidate_all_ok ttl w : cache_ok w -> cache_ok (cache_step ttl w CInvalidateAll).
Proof.
  intros [Hcur Hcache Hlook]. constructor.
  - intros k. unfold recent. simpl. rewrite lookup_empty. by apply list_elem_of_singleton.
  - intros k t v. simpl. by rewrite lookup_empty.
  - apply (lookups_moves w (cache_step ttl w CInvalidateAll)); [|done].
    intros k cur Hc. cbn [cache_step res invalidate_cache r_versions]. rewrite lookup_fmap, Hc. simpl.
    exists (cur + 1)%Z. split_and!; [done|lia|]. intros; lia.
Qed.

(** Finishing at the current version caches and answers with a recent row. *)
Lemma cache_finish_ok w i m n row now v :
  cache_ok w -> lookups w !! i = Some (Fetched m n row) -> lookup_end (res w) m n row now = (v, Some (of_row row)) ->
  cache_ok (set_lookup (CacheWorld (rows w) v (lookups w) (answers w ++ [(m, of_row row)]) (since w)) i Answered) /\
  of_row row ∈ of_row <$> recent w m.
Proof.
  intros [Hcur Hcache Hlook] Hi. unfold lookup_end. case_decide as Hv; [|done]. intros [= <-].
  assert (row ∈ recent w m) as Hrow.
  { pose proof (Forall_lookup_1 _ _ _ _ Hlook Hi) as (cur & Hc & _ & Hrow). apply Hrow.
    by rewrite Hc in Hv. }
  assert (of_row row ∈ of_row <$> recent w m) as Hin by (apply list_elem_of_fmap; by exists row).
  split; [|done]. apply set_lookup_ok; [|done]. constructor; simpl; [done| |].
  - intros k t x. rewrite lookup_insert. case_decide; [|apply Hcache]. intros [= _ <-]. by subst.
  - by apply (lookups_moves w); [apply moves_refl|].
Qed.

Lemma cache_step_ok ttl w o :
  cache_ok w ->
  cache_ok (cache_step ttl w o) /\
  exists l, answers (cache_step ttl w o) = answers w ++ l /\
    Forall (fun a => a.2 ∈ of_row <$> recent (cache_step ttl w o) a.1) l.
Proof.
  intros Hw.
  assert (forall w' : cache_world, answers w' = answers w ->
    exists l, answers w' = answers w ++ l /\ Forall (fun a => a.2 ∈ of_row <$> recent w' a.1) l) as Hnone
    by (intros w' ->; exists []; by rewrite app_nil_r).
  destruct o as [m now|i|i now|i|m row|m|].
  - cbn [cache_step]. pose proof (begin_at_ok ttl w m now Hw) as H. destruct (begin_at ttl w m now) as [w' st].
    destruct H as (Hw' & Hst & Hl & Hr & Hs & l & Ha & Hf). split.
    + destruct Hw' as [Hcur Hcache Hlook]. constructor; simpl; [done|done|].
      apply Forall_app. split; [|repeat constructor; by eapply lookup_ok_moves; [apply (moves_refl w')|]].
      eapply Forall_impl; [exact Hlook|]. intros x. apply lookup_ok_moves. by apply moves_refl.
    + exists l. split; [done|]. eapply Forall_impl; [exact Hf|]. intros a. unfold recent. simpl. by rewrite Hr, Hs.
  - cbn [cache_step]. destruct (lookups w !! i) as [[m n| |]|] eqn:Hi; try (split; [done|by apply Hnone]).
    split; [|by apply Hnone]. apply set_lookup_ok; [done|].
    pose proof (Forall_lookup_1 _ _ _ _ (ok_lookups _ Hw) Hi) as (cur & Hc & Hle).
    exists cur. split_and!; [done|done|]. intros _. apply ok_current, Hw.
  - cbn [cache_step]. destruct (lookups w !! i) as [[|m n row|]|] eqn:Hi; try (split; [done|by apply Hnone]).
    destruct (lookup_end (res w) m n row now) as [s [v|]] eqn:E.
    + assert (v = of_row row) as -> by (unfold lookup_end in E; case_decide; by simplify_eq).
      destruct (cache_finish_ok w i m n row now s Hw Hi E) as [Hok Hin]. split; [done|].
      exists [(m, of_row row)]. split; [done|]. by repeat constructor.
    + pose proof (begin_at_ok ttl w m now Hw) as H. destruct (begin_at ttl w m now) as [w' st].
      destruct H as (Hw' & Hst & Hl & Hr & Hs & l & Ha & Hf). split; [by apply set_lookup_ok|].
      exists l. split; [done|]. eapply Forall_impl; [exact Hf|]. intros a. unfold recent. simpl. by rewrite Hr, Hs.
  - cbn [cache_step]. destruct (lookups w !! i) as [[m n| |]|] eqn:Hi; try (split; [done|by apply Hnone]).
    split; [by apply set_lookup_ok|by apply Hnone].
  - split; [by apply write_ok|by apply Hnone].
  - split; [by apply invalidate_ok|by apply Hnone].
  - split; [by apply invalidate_all_ok|by apply Hnone].
Qed.

Lemma new_cache_world_ok rows0 : cache_ok (new_cache_world rows0).
Proof. constructor; simpl; [|done|done]. intros m. by apply list_elem_of_singleton. Qed.

Lemma cache_run_ok ttl w l : cache_ok w -> cache_ok (cache_run ttl w l).
Proof. intros Hw. apply (foldl_invariant cache_ok); [|done]. intros a b Ha. by apply cache_step_ok. Qed.

(** Without a write to [m] since its invalidation, the only recent row is the stored one. *)
Definition writes_to (m : string) (o : cache_op) : bool :=
  match o with CWrite m' _ => bool_decide (m' = m) | _ => false end.

Lemma recent_stays ttl w o m row :
  writes_to m o = false -> recent w m = [row] -> rows w !! m = row ->
  recent (cache_step ttl w o) m = [row] /\ rows (cache_step ttl w o) !! m = row.
Proof.
  intros Hw Hr Hrow. destruct o as [k now|i|i now|i|k x|k|]; cbn [cache_step].
  - unfold begin_at. destruct (lookup_begin ttl (res w) k now) as [s [v|n]]; done.
  - by destruct (lookups w !! i) as [[| |]|].
  - destruct (lookups w !! i) as [[|k n x|]|]; try done. destruct (lookup_end (res w) k n x now) as [s [v|]]; [done|].
    unfold begin_at. by destruct (lookup_begin ttl (res w) k now) as [s' [v|n']].
  - by destruct (lookups w !! i) as [[| |]|].
  - simpl in Hw. apply bool_decide_eq_false in Hw. unfold recent in *. simpl.
    by rewrite lookup_insert_ne, lookup_partial_alter_ne.
  - unfold recent in *. simpl. rewrite lookup_delete. by case_decide; subst.
  - unfold recent. simpl. rewrite lookup_empty. simpl. by rewrite Hrow.
Qed.

Lemma answers_after ttl w m row ops :
  cache_ok w -> recent w m = [row] -> rows w !! m = row -> forallb (fun o => negb (writes_to m o)) ops = true ->
  exists l, answers (cache_run ttl w ops) = answers w ++ l /\ forall v, (m, v) ∈ l -> v = of_row row.
Proof.
  unfold cache_run. revert w. induction ops as [|o ops IH]; intros w Hw Hr Hrow Hops; simpl.
  - exists []. rewrite app_nil_r. split; [done|]. intros v Hv. by apply not_elem_of_nil in Hv.
  - simpl in Hops. apply andb_true_iff in Hops as [Ho Hops]. apply negb_true_iff in Ho.
    destruct (cache_step_ok ttl w o Hw) as (Hw' & l1 & Ha & Hf).
    destruct (recent_stays ttl w o m row Ho Hr Hrow) as [Hr' Hrow'].
    destruct (IH _ Hw' Hr' Hrow' Hops) as (l2 & Ha2 & Hv2).
    exists (l1 ++ l2). rewrite Ha2, Ha, app_assoc. split; [done|]. intros v [Hv|Hv]%elem_of_app; [|by apply Hv2].
    pose proof (proj1 (Forall_forall _ _) Hf _ Hv) as Hin. simpl in Hin. rewrite Hr' in Hin. simpl in Hin.
    by apply list_elem_of_singleton in Hin.
Qed.
End cache.

(** ** The two resolvers *)

(** What [ModelVisibilityResolver] makes of a row: a role that is not one fails closed. *)
Definition visibility_of (row : option (option string)) : option string :=
  match row with
  | Some (Some r) => if decide (is_Some (ROLE_RANK r)) then Some r else Some "admin"%string
  | _ => None
  end.

(** [override or default_role] *)
Definition effective_role (override : option string) (default_role : string) : string :=
  match override with
  | Some r => if decide (r = ""%string) then default_role else r
  | None => default_role
  end.

(** What [ModelConcurrencyResolver] makes of a row. *)
Definition exemption_of (row : option unit) : bool := bool_decide (is_Some row).

(** An override takes effect at once. However lookups, store reads, writes,
    invalidations and failures interleave before and after: once a model's row is
    written and the model invalidated, every answer given for it from then on, also to
    lookups that were already reading the old row, is the new row's, until the next
    write. *)
Theorem override_takes_effect {R V} (of_row : option R -> V) ttl rows0 before m row after :
  forallb (fun o => negb (writes_to m o)) after = true ->
  let w := cache_run of_row ttl (new_cache_world rows0) (before ++ [CWrite m row; CInvalidate m]) in
  exists l, answers (cache_run of_row ttl w after) = answers w ++ l /\
    forall v, (m, v) ∈ l -> v = of_row row.
Proof.
  intros Hafter w. apply answers_after; [by apply cache_run_ok, new_cache_world_ok| | |done].
  - unfold w, cache_run. rewrite fold_left_app. simpl. unfold recent. simpl.
    by rewrite lookup_delete_eq, lookup_partial_alter_eq.
  - unfold w, cache_run. rewrite fold_left_app. simpl. by rewrite lookup_partial_alter_eq.
Qed.

(** A lookup reads the old role, the override lands, and the lookup answers with the
    new one after a second read. *)
Definition visibility_race : list (@cache_op (option string)) :=
  [CLookup "m" 0; CFetch 0].
Definition visibility_race_after : list (@cache_op (option string)) :=
  [CFinish 0 1; CFetch 0; CFinish 0 2; CLookup "m" 3].

Lemma override_takes_effect_witness :
  let w := cache_run visibility_of 30 (new_cache_world {[ "m"%string := Some "free"%string ]})
             (visibility_race ++ [CWrite "m" (Some (Some "pro"%string)); CInvalidate "m"]) in
  (exists l, answers (cache_run visibility_of 30 w visibility_race_after) = answers w ++ l /\
     forall v, ("m"%string, v) ∈ l -> v = Some "pro"%string) /\
  answers (cache_run visibility_of 30 w visibility_race_after) =
    [("m"%string, Some "pro"%string); ("m"%string, Some "pro"%string)].
Proof.
  split; [|vm_compute; reflexivity].
  apply (override_takes_effect visibility_of 30 {[ "m"%string := Some "free"%string ]} visibility_race "m"
    (Some (Some "pro"%string)) visibility_race_after). reflexivity.
Defined.
