(* ===== verification/ModelAccess.v ===== *)
(** Who may use a model: [serving/model_access.py], and the list of models an agent's
    grant may name, [serving/model_catalog.py].

    Model ids are texts, preferences the JSON stored with the account, and the runtime
    role override of a model the value its resolver answers ([VersionedCache]). *)

From S2P Require Import Prelude PyText KeyPool GrantToken VersionedCache.

(** ** Denylists *)

(** Comparison of Python strings. *)
Fixpoint chars_leb (a b : chars) : bool :=
  match a, b with
  | [], _ => true
  | _ :: _, [] => false
  | x :: a, y :: b => if (x <? y)%N then true else if (x =? y)%N then chars_leb a b else false
  end.

Definition chars_le (a b : chars) : Prop := chars_leb a b = true.
#[export] Instance chars_le_dec a b : Decision (chars_le a b) := decide (chars_leb a b = true).

(** [normalize_disabled_models] of a list of strings *)
Definition normalize_strings (l : list chars) : list chars :=
  merge_sort chars_le (remove_dups (filter (fun s => s <> []) (strip <$> l))).

(** [normalize_disabled_models] *)
Definition normalize_disabled_models (value : option json) : list chars :=
  match value with
  | Some (JArray items) =>
      normalize_strings (omap (fun v => match v with JString s => Some s | _ => None end) items)
  | _ => []
  end.

Definition DISABLED_MODELS_PREFERENCE_KEY : chars := chars_of "disabled_models".

(** [get_disabled_models_from_preferences] *)
Definition get_disabled_models_from_preferences (preferences : option json) : list chars :=
  match preferences with
  | Some (JObject ms) => normalize_disabled_models (member DISABLED_MODELS_PREFERENCE_KEY ms)
  | _ => []
  end.

(** ** The caller and the route *)

(** What the check reads of a caller; a scope that is absent is [None]. *)
Record user_ctx : Type := UserCtx {
  ctx_role : option string;
  ctx_disabled : list chars;
  key_allowed_models : option (list chars);
  agent_allowed_models : option (list chars)
}.

(** What it reads of a route: the id and type of its first adapter's model. *)
Record model_route : Type := ModelRoute {
  published : bool;
  first_config : option (chars * chars);
  required_role : string;
  admin_only : bool
}.

(** [is_model_disabled_for_user] *)
Definition is_model_disabled_for_user (canonical : chars) (u : option user_ctx) : bool :=
  match u with
  | None => false
  | Some u => bool_decide (canonical ∈ normalize_strings (ctx_disabled u))
  end.

(** [is_model_outside_grant_scope], [is_model_outside_key_scope] *)
Definition outside (canonical : chars) (allowed : option (list chars)) : bool :=
  match allowed with
  | None => false
  | Some l => negb (bool_decide (canonical ∈ l))
  end.
Definition is_model_outside_grant_scope (canonical : chars) (u : option user_ctx) : bool :=
  match u with None => false | Some u => outside canonical (agent_allowed_models u) end.
Definition is_model_outside_key_scope (canonical : chars) (u : option user_ctx) : bool :=
  match u with None => false | Some u => outside canonical (key_allowed_models u) end.

Inductive ModelAccessDenial : Type := UNPUBLISHED | ROLE | DISABLED | OUTSIDE_KEY | OUTSIDE_GRANT.

(** [route_canonical_model_id] *)
Definition route_canonical_model_id (r : model_route) (model_id : chars) : chars :=
  match first_config r with Some (id, _) => id | None => model_id end.

(** [baseline_required_role] *)
Definition baseline_required_role (r : model_route) : string :=
  if decide (required_role r = ""%string) then (if admin_only r then "admin" else "free") else required_role r.

(** [(user_ctx or {}).get("role") or "free"] *)
Definition caller_role (u : option user_ctx) : string :=
  match u with
  | Some u => match ctx_role u with
              | Some r => if decide (r = ""%string) then "free" else r
              | None => "free"
              end
  | None => "free"
  end.

(** [model_access_denial]; [override] is the resolver's answer per canonical id. *)
Definition model_access_denial (r : model_route) (model_id : chars) (u : option user_ctx)
    (override : chars -> option string) (grant_scope : bool) : option ModelAccessDenial :=
  if negb (published r) then Some UNPUBLISHED
  else
    let canonical := route_canonical_model_id r model_id in
    let required := effective_role (override canonical) (baseline_required_role r) in
    if negb (has_role (caller_role u) required) then Some ROLE
    else if is_model_disabled_for_user canonical u then Some DISABLED
    else if is_model_outside_key_scope canonical u then Some OUTSIDE_KEY
    else if grant_scope && is_model_outside_grant_scope canonical u then Some OUTSIDE_GRANT
    else None.

(** ** The agent catalogue *)

Definition _AGENT_MODEL_TYPE : chars := chars_of "chat".

(** [_route_allows] *)
Definition _route_allows (r : model_route) (canonical : chars) (u : option user_ctx)
    (override : chars -> option string) : bool :=
  match model_access_denial r canonical u override false with None => true | Some _ => false end.

(** [agent_visible_models]: the loop over the routes, with the ids seen so far. *)
Fixpoint visible_from (routes : list (chars * model_route)) (u : option user_ctx)
    (override : chars -> option string) (seen : list chars) : list chars :=
  match routes with
  | [] => []
  | (_, r) :: routes =>
      match first_config r with
      | None => visible_from routes u override seen
      | Some (canonical, model_type) =>
          if bool_decide (canonical ∈ seen) then visible_from routes u override seen
          else if negb (bool_decide (model_type = _AGENT_MODEL_TYPE)) then visible_from routes u override seen
          else if negb (_route_allows r canonical u override) then visible_from routes u override seen
          else canonical :: visible_from routes u override (canonical :: seen)
      end
  end.

Definition agent_visible_models (routes : list (chars * model_route)) (u : option user_ctx)
    (override : chars -> option string) : list chars := visible_from routes u override [].

(** ** Properties *)

Lemma elem_normalize_strings c l : c ∈ normalize_strings l <-> c <> [] /\ exists s, s ∈ l /\ strip s = c.
Proof.
  unfold normalize_strings. rewrite merge_sort_Permutation, elem_of_remove_dups, list_elem_of_filter, list_elem_of_fmap.
  naive_solver.
Qed.

(** The checks a caller passes, as one predicate. *)
Definition may_use (r : model_route) (canonical : chars) (u : option user_ctx)
    (override : chars -> option string) : Prop :=
  published r = true /\
  has_role (caller_role u) (effective_role (override canonical) (baseline_required_role r)) = true /\
  (forall c, u = Some c -> (forall s, s ∈ ctx_disabled c -> strip s = canonical -> canonical = [])) /\
  (forall c l, u = Some c -> key_allowed_models c = Some l -> canonical ∈ l).

Definition in_grant (canonical : chars) (u : option user_ctx) : Prop :=
  forall c l, u = Some c -> agent_allowed_models c = Some l -> canonical ∈ l.

Lemma disabled_iff canonical u :
  is_model_disabled_for_user canonical u = false <->
  forall c, u = Some c -> (forall s, s ∈ ctx_disabled c -> strip s = canonical -> canonical = []).
Proof.
  destruct u as [c|]; simpl; [|naive_solver].
  rewrite bool_decide_eq_false, elem_normalize_strings. split.
  - intros Hn c' [= <-] s Hs Hc. destruct (decide (canonical = [])); [done|]. naive_solver.
  - intros H (Hne & s & Hs & Hc). naive_solver.
Qed.

Lemma outside_iff canonical o : outside canonical o = false <-> forall l, o = Some l -> canonical ∈ l.
Proof.
  destruct o as [l|]; simpl; [|naive_solver]. rewrite negb_false_iff, bool_decide_eq_true. naive_solver.
Qed.

Lemma access_allowed r model_id u override grant_scope :
  let canonical := route_canonical_model_id r model_id in
  model_access_denial r model_id u override grant_scope = None <->
  may_use r canonical u override /\ (grant_scope = true -> in_grant canonical u).
Proof.
  intros canonical. unfold model_access_denial, may_use, in_grant. fold canonical.
  pose proof (disabled_iff canonical u) as Hd.
  assert (is_model_outside_key_scope canonical u = false <->
    forall c l, u = Some c -> key_allowed_models c = Some l -> canonical ∈ l) as Hk.
  { destruct u as [c|]; simpl; [rewrite outside_iff|]; naive_solver. }
  assert (is_model_outside_grant_scope canonical u = false <->
    forall c l, u = Some c -> agent_allowed_models c = Some l -> canonical ∈ l) as Hg.
  { destruct u as [c|]; simpl; [rewrite outside_iff|]; naive_solver. }
  rewrite <- Hd, <- Hk, <- Hg. clear.
  destruct (published r), (has_role _ _), (is_model_disabled_for_user canonical u),
    (is_model_outside_key_scope canonical u), (is_model_outside_grant_scope canonical u), grant_scope;
    simpl; naive_solver.
Qed.

Lemma visible_from_spec routes u override seen c :
  c ∈ visible_from routes u override seen -> c ∉ seen /\
  exists name r, (name, r) ∈ routes /\ first_config r = Some (c, _AGENT_MODEL_TYPE) /\ may_use r c u override.
Proof.
  revert seen. induction routes as [|[name r] routes IH]; intros seen; simpl.
  { intros H. by apply not_elem_of_nil in H. }
  assert (forall seen', c ∈ visible_from routes u override seen' -> c ∉ seen' /\
    exists name' r', (name', r') ∈ (name, r) :: routes /\ first_config r' = Some (c, _AGENT_MODEL_TYPE) /\
      may_use r' c u override) as Hrec.
  { intros seen' H. destruct (IH seen' H) as (Hs & n' & r' & Hin & Hf & Hm). split; [done|].
    exists n', r'. split_and!; try done. by apply list_elem_of_further. }
  destruct (first_config r) as [[canonical ty]|] eqn:Ef; [|apply Hrec].
  case_bool_decide as Hseen; [apply Hrec|]. case_bool_decide as Hty; simpl; [|apply Hrec].
  destruct (_route_allows r canonical u override) eqn:Ha; simpl; [|apply Hrec].
  intros [->|H]%elem_of_cons.
  - split; [done|]. exists name, r. split_and!; [by left|by rewrite Ef, Hty|].
    unfold _route_allows in Ha. destruct (model_access_denial r canonical u override false) eqn:E; [done|].
    apply access_allowed in E as [E _]. unfold route_canonical_model_id in E. by rewrite Ef in E.
  - apply Hrec in H as (Hs & Hex). split; [set_solver|done].
Qed.

Lemma visible_nodup routes u override : NoDup (agent_visible_models routes u override).
Proof.
  unfold agent_visible_models. generalize (@nil chars). induction routes as [|[name r] routes IH]; intros seen; simpl.
  { constructor. }
  destruct (first_config r) as [[canonical ty]|]; [|apply IH].
  repeat (case_match; [apply IH|]). constructor; [|apply IH].
  intros Hin. apply visible_from_spec in Hin as [Hin _]. apply Hin. by left.
Qed.
