(* ===== verification/GrantAccess.v ===== *)
(** Inference grants: the clamps and liveness of [serving/grants.py], the endpoints of
    [serving/servers/routers/agent_grants.py] over the rows of
    [serving/storage/postgres_operational.py], and the authentication of a sandbox's
    model call in [serving/grant_auth.py] and [verify_api_key].

    Instants are microseconds.  The gateway's clock and the database's [NOW()] are two
    inputs; which models exist, and the role override of each, are inputs of the calls
    that read them. *)

From S2P Require Import Prelude PyText UsageLimit KeyPool Quota SpendLedger UserAdmission.
From S2P Require Import GrantToken VersionedCache ModelAccess.

Local Open Scope Z_scope.

(** ** Clamps and liveness *)

Definition MAX_GRANT_TTL_S : Z := 900.
Definition DEFAULT_GRANT_TTL_S : Z := 300.
Definition MAX_RENEW_TTL_S : Z := DEFAULT_GRANT_TTL_S.

(** [clamp_ttl] *)
Definition clamp_ttl (requested : option Z) : Z :=
  match requested with
  | None => DEFAULT_GRANT_TTL_S
  | Some n => if bool_decide (n <= 0) then DEFAULT_GRANT_TTL_S else Z.min n MAX_GRANT_TTL_S
  end.

(** [clamp_models] *)
Definition clamp_models (requested : option (list chars)) (visible : list chars) : list chars :=
  match requested with
  | None => visible
  | Some wanted => filter (fun m => m ∈ wanted) visible
  end.

(** [expiry_from] *)
Definition expiry_from (ttl_seconds : Z) (now : datetime_us) : datetime_us := now + ttl_seconds * SECOND.

(** A row of [agent_grants]. *)
Record grant_row : Type := GrantRow {
  g_id : chars;
  g_user : string;
  g_job : string;
  g_attempt : string;
  g_models : list chars;
  g_expires : datetime_us;
  g_revoked : option datetime_us
}.
#[export] Instance eta_grant_row : Eta grant_row := fun r =>
  GrantRow (g_id r) (g_user r) (g_job r) (g_attempt r) (g_models r) (g_expires r) (g_revoked r).

(** [is_live] *)
Definition is_live (r : grant_row) (now : datetime_us) : bool :=
  match g_revoked r with
  | Some _ => false
  | None => bool_decide (now < g_expires r)
  end.

(** ** The store *)

(** What the grant code reads of a user row. *)
Record account : Type := Account {
  acc_status : string;
  acc_role : option string;
  acc_preferences : option json;
  acc_max_concurrent : option Z
}.

Record grant_store : Type := GrantStore {
  accounts : gmap string account;
  grants : gmap chars grant_row
}.
#[export] Instance eta_grant_store : Eta grant_store := fun s => GrantStore (accounts s) (grants s).

Inductive grant_error : Type :=
| SubjectUnavailable                 (* 403 *)
| GrantConflict                      (* 409 *)
| UnknownGrant                       (* 404 *)
| GrantNotLive                       (* 404 *)
| DuplicateId                        (* the primary key *)
| TokenFailed (e : token_error).

(** The row of an attempt: the columns under the unique index. *)
Definition of_attempt (job attempt : string) (r : grant_row) : bool :=
  bool_decide (g_job r = job) && bool_decide (g_attempt r = attempt).
Definition find_attempt (s : grant_store) (job attempt : string) : option grant_row :=
  snd <$> find (fun p => of_attempt job attempt p.2) (map_to_list (grants s)).

(** [upsert_agent_grant] *)
Definition upsert_agent_grant (s : grant_store) (r : grant_row) : grant_store * result grant_error grant_row :=
  match find_attempt s (g_job r) (g_attempt r) with
  | Some old => (s, Ok old)
  | None =>
      match grants s !! g_id r with
      | Some _ => (s, Raise DuplicateId)
      | None => (s <| grants := <[g_id r := r]> (grants s) |>, Ok r)
      end
  end.

(** [renew_agent_grant]; [db_now] is [NOW()]. *)
Definition renew_agent_grant (s : grant_store) (id : chars) (expires : datetime_us) (db_now : datetime_us) :
    grant_store * option grant_row :=
  match grants s !! id with
  | Some r => if is_live r db_now
              then let r := r <| g_expires := expires |> in (s <| grants := <[id := r]> (grants s) |>, Some r)
              else (s, None)
  | None => (s, None)
  end.

(** [revoke_agent_grant] *)
Definition revoke_agent_grant (s : grant_store) (id : chars) (db_now : datetime_us) : grant_store * bool :=
  match grants s !! id with
  | Some r => match g_revoked r with
              | None => (s <| grants := <[id := r <| g_revoked := Some db_now |>]> (grants s) |>, true)
              | Some _ => (s, false)
              end
  | None => (s, false)
  end.

(** ** The endpoints *)

(** The registry and the role overrides a call sees. *)
Record catalogue : Type := Catalogue {
  routes : list (chars * model_route);
  override : chars -> option string
}.

(** [MintGrantRequest] *)
Record mint_request : Type := MintRequest {
  req_user : string;
  req_job : string;
  req_attempt : string;
  req_models : option (list chars);
  req_ttl : option Z
}.

(** [_active_user], [_active_subject]: an account that may call. *)
Definition active_account (s : grant_store) (uid : string) : option account :=
  a ← accounts s !! uid;
  if decide (acc_status a = "active"%string) then Some a else None.

Definition account_role (a : account) : string :=
  match acc_role a with
  | Some r => if decide (r = ""%string) then "free" else r
  | None => "free"
  end.

(** The context the endpoint checks an owner's models in. *)
Definition owner_ctx (a : account) : user_ctx :=
  UserCtx (Some (account_role a)) (get_disabled_models_from_preferences (acc_preferences a)) None None.

Section endpoints.
Context `{Digests} (secret : list N).

(** [mint_grant] *)
Definition mint_grant (s : grant_store) (c : catalogue) (q : mint_request) (new_id : chars) (now : datetime_us) :
    grant_store * result grant_error (grant_row * chars) :=
  match active_account s (req_user q) with
  | None => (s, Raise SubjectUnavailable)
  | Some a =>
      let visible := agent_visible_models (routes c) (Some (owner_ctx a)) (override c) in
      let effective := clamp_models (req_models q) visible in
      let ttl := clamp_ttl (req_ttl q) in
      let '(s, r) := upsert_agent_grant s
        (GrantRow new_id (req_user q) (req_job q) (req_attempt q) effective (expiry_from ttl now) None) in
      match r with
      | Raise e => (s, Raise e)
      | Ok r =>
          if negb (bool_decide (g_user r = req_user q)) || negb (bool_decide (g_models r = effective))
          then (s, Raise GrantConflict)
          else
            match mint_grant_token secret (g_id r) with
            | Ok t => (s, Ok (r, t))
            | Raise e => (s, Raise (TokenFailed e))
            end
      end
  end.

(** [renew_grant] *)
Definition renew_grant (s : grant_store) (id : chars) (now db_now : datetime_us) :
    grant_store * result grant_error grant_row :=
  match grants s !! id with
  | None => (s, Raise UnknownGrant)
  | Some r =>
      match active_account s (g_user r) with
      | None => (s, Raise SubjectUnavailable)
      | Some _ =>
          match renew_agent_grant s id (expiry_from MAX_RENEW_TTL_S now) db_now with
          | (s, Some r) => (s, Ok r)
          | (s, None) => (s, Raise GrantNotLive)
          end
      end
  end.

(** [revoke_grant]: whether the grant was revoked already. *)
Definition revoke_grant (s : grant_store) (id : chars) (db_now : datetime_us) :
    grant_store * result grant_error bool :=
  match grants s !! id with
  | None => (s, Raise UnknownGrant)
  | Some _ => let '(s, did) := revoke_agent_grant s id db_now in (s, Ok (negb did))
  end.

(** ** Authenticating a model call *)

(** [AgentModelAuthError] by status, the quota refusal, and what escapes the handlers. *)
Inductive agent_error : Type :=
| AuthError (status : Z)
| AgentQuotaExceeded (r : budget_refusal)
| Crash (e : token_error).

(** The answers of the store's reads; [None] is a read that raised. *)
Record quota_row : Type := QuotaRow { quota_daily_cost_usd : option Q; quota_monthly_cost_usd : option Q }.
Record reads : Type := Reads {
  grant_readable : bool;
  user_readable : bool;
  quota_rows : option (list quota_row);
  spend_rows : option (Q * Q)              (* the day's and the month's cost *)
}.

(** [_resolve_grant] *)
Definition _resolve_grant (s : option grant_store) (api_key : chars) (rd : reads) (now : datetime_us) :
    result agent_error grant_row :=
  match s with
  | None => Raise (AuthError 401)
  | Some s =>
      match parse_grant_token secret api_key with
      | Raise (InvalidGrantToken _) => Raise (AuthError 401)
      | Raise e => Raise (Crash e)
      | Ok id =>
          if negb (grant_readable rd) then Raise (AuthError 503)
          else
            match grants s !! id with
            | None => Raise (AuthError 401)
            | Some r => if is_live r now then Ok r else Raise (AuthError 401)
            end
      end
  end.

(** [_active_subject] *)
Definition _active_subject (s : grant_store) (uid : string) (rd : reads) : result agent_error account :=
  if negb (user_readable rd) then Raise (AuthError 503)
  else match active_account s uid with Some a => Ok a | None => Raise (AuthError 403) end.

(** [_quota_check] *)
Definition _quota_check (uid : string) (rd : reads) (read_at : Q) : result agent_error spend_check :=
  match quota_rows rd with
  | None => Raise (AuthError 503)
  | Some [] => Raise (AuthError 403)
  | Some [k] =>
      match spend_rows rd with
      | None => Raise (AuthError 503)
      | Some (day, month) =>
          Ok (SpendCheck uid None read_at
                (Limits (resolve_quota (quota_daily_cost_usd k)) (quota_monthly_cost_usd k) None None)
                (Spent day (match quota_monthly_cost_usd k with Some _ => month | None => 0%Q end) 0 0))
      end
  | Some _ => Raise (AuthError 403)
  end.

(** What a grant call runs as. *)
Record grant_ctx : Type := GrantCtx {
  gc_user : user;
  gc_ctx : user_ctx;
  gc_job : string;
  gc_grant : chars;
  gc_check : spend_check
}.

(** [authenticate_grant_model_call]; the ledger forgets what it no longer needs. *)
Definition authenticate_grant_model_call (s : option grant_store) (l : ledger) (api_key : chars) (rd : reads)
    (now : datetime_us) (today : string) (mono read_at : Q) : ledger * result agent_error grant_ctx :=
  match _resolve_grant s api_key rd now, s with
  | Raise e, _ => (l, Raise e)
  | Ok _, None => (l, Raise (AuthError 401))
  | Ok row, Some s =>
      match _active_subject s (g_user row) rd with
      | Raise e => (l, Raise e)
      | Ok a =>
          match _quota_check (g_user row) rd read_at with
          | Raise e => (l, Raise e)
          | Ok c =>
              match ledger_refusal l today mono c with
              | (l, Some refusal) => (l, Raise (AgentQuotaExceeded refusal))
              | (l, None) =>
                  (l, Ok (GrantCtx (User (g_user row) (Some (account_role a)) false (acc_max_concurrent a))
                            (UserCtx (Some (account_role a)) (get_disabled_models_from_preferences (acc_preferences a))
                               None (Some (g_models row)))
                            (g_job row) (g_id row) c))
              end
          end
      end
  end.

Definition _AGENT_TOKEN_PATHS : list chars :=
  chars_of <$> ["/v1/chat/completions"; "/v1/completions"; "/v1/messages"; "/v1/messages/count_tokens";
    "/v1/responses"; "/anthropic/v1/messages"; "/anthropic/v1/messages/count_tokens"]%string.

(** [request.url.path.rstrip("/")] *)
Fixpoint lstrip_slash (l : chars) : chars :=
  match l with
  | c :: l' => if (c =? 47)%N then lstrip_slash l' else l
  | [] => []
  end.

(** [_is_inference_path] *)
Definition _is_inference_path (path : chars) : bool :=
  bool_decide (rev (lstrip_slash (rev path)) ∈ _AGENT_TOKEN_PATHS).

(** The grant branch of [verify_api_key]; [None] leaves the key to the other branches. *)
Definition verify_grant_key (s : option grant_store) (l : ledger) (path api_key : chars) (rd : reads)
    (now : datetime_us) (today : string) (mono read_at : Q) : option (ledger * result agent_error grant_ctx) :=
  if looks_like_grant_token (Some api_key) then
    Some (if negb (_is_inference_path path) then (l, Raise (AuthError 403))
          else authenticate_grant_model_call s l api_key rd now today mono read_at)
  else None.
End endpoints.

(** ** Histories *)

Inductive grant_op : Type :=
| OMint (c : catalogue) (q : mint_request) (new_id : chars) (now : datetime_us)
| ORenew (id : chars) (now db_now : datetime_us)
| ORevoke (id : chars) (db_now : datetime_us)
| OAccount (uid : string) (a : option account).   (* sign-up, suspension, role, preferences *)

(** What happened to the rows: a row was created from a request, with the store and the
    catalogue it was decided in; a grant was renewed; a grant was revoked. *)
Inductive grant_event : Type :=
| EMinted (r : grant_row) (q : mint_request) (s : grant_store) (c : catalogue) (at_ : datetime_us)
| ERenewed (id : chars) (at_ : datetime_us)
| ERevoked (id : chars).

Record grant_world : Type := GrantWorld { gw_store : grant_store; gw_log : list grant_event }.

Section histories.
Context `{D : Digests} (secret : list N).

Definition grant_step (w : grant_world) (o : grant_op) : grant_world :=
  let s := gw_store w in
  match o with
  | OMint c q new_id now =>
      let '(s', _) := mint_grant secret s c q new_id now in
      GrantWorld s'
        (match grants s !! new_id, grants s' !! new_id with
         | None, Some r => gw_log w ++ [EMinted r q s c now]
         | _, _ => gw_log w
         end)
  | ORenew id now db_now =>
      let '(s', r) := renew_grant s id now db_now in
      GrantWorld s' (match r with Ok _ => gw_log w ++ [ERenewed id now] | Raise _ => gw_log w end)
  | ORevoke id db_now =>
      let '(s', r) := revoke_grant s id db_now in
      GrantWorld s' (match r with Ok _ => gw_log w ++ [ERevoked id] | Raise _ => gw_log w end)
  | OAccount uid a =>
      GrantWorld (s <| accounts := partial_alter (fun _ => a) uid (accounts s) |>) (gw_log w)
  end.

Definition new_grants (accs : gmap string account) : grant_world := GrantWorld (GrantStore accs ∅) [].
Definition grant_run (accs : gmap string account) (l : list grant_op) : grant_world :=
  fold_left grant_step l (new_grants accs).

(** *** The invariant *)

(** A row was minted as it stands, but for its expiry and revocation. *)
Definition minted_as (log : list grant_event) (r : grant_row) : Prop :=
  exists r0 q s c t, EMinted r0 q s c t ∈ log /\ g_id r0 = g_id r /\ g_user r0 = g_user r /\
    g_job r0 = g_job r /\ g_attempt r0 = g_attempt r /\ g_models r0 = g_models r.

(** The lease an event gives [id]: since when, and until when. *)
Definition lease_event (id : chars) (e : grant_event) : option (datetime_us * datetime_us) :=
  match e with
  | EMinted r q _ _ t => if decide (g_id r = id) then Some (t, t + clamp_ttl (req_ttl q) * SECOND) else None
  | ERenewed id' t => if decide (id' = id) then Some (t, t + MAX_RENEW_TTL_S * SECOND) else None
  | ERevoked _ => None
  end.

(** The lease of [id] now is the one its last mint or renewal gave it. *)
Definition last_lease (log : list grant_event) (id : chars) : option (datetime_us * datetime_us) :=
  last (omap (lease_event id) log).

Definition row_ok (log : list grant_event) (id : chars) (r : grant_row) : Prop :=
  g_id r = id /\ minted_as log r /\ snd <$> last_lease log id = Some (g_expires r) /\
  (g_revoked r = None -> ERevoked id ∉ log).

(** A mint was for an active account and its scope what the request and the account's
    visible models share. *)
Definition event_ok (w : grant_world) (e : grant_event) : Prop :=
  match e with
  | EMinted r q s c t =>
      is_Some (grants (gw_store w) !! g_id r) /\ g_user r = req_user q /\
      exists a, active_account s (req_user q) = Some a /\
        g_models r = clamp_models (req_models q) (agent_visible_models (routes c) (Some (owner_ctx a)) (override c))
  | ERenewed id _ | ERevoked id => is_Some (grants (gw_store w) !! id)
  end.

Record grants_wf (w : grant_world) : Prop := {
  gw_rows : map_Forall (row_ok (gw_log w)) (grants (gw_store w));
  gw_events : Forall (event_ok w) (gw_log w);
  gw_unique i j r r' : grants (gw_store w) !! i = Some r -> grants (gw_store w) !! j = Some r' ->
    g_job r = g_job r' -> g_attempt r = g_attempt r' -> i = j
}.

Lemma minted_as_app log l r : minted_as log r -> minted_as (log ++ l) r.
Proof.
  intros (r0 & q & s & c & t & Hin & Hr). exists r0, q, s, c, t. split; [|done]. apply elem_of_app. by left.
Qed.

Lemma last_lease_app log e id :
  last_lease (log ++ [e]) id = match lease_event id e with Some x => Some x | None => last_lease log id end.
Proof.
  unfold last_lease. rewrite omap_app. cbn [omap list_omap]. destruct (lease_event id e) as [x|]; [by rewrite last_snoc|].
  by rewrite app_nil_r.
Qed.

Lemma row_ok_app log e id r :
  e <> ERevoked id -> lease_event id e = None -> row_ok log id r -> row_ok (log ++ [e]) id r.
Proof.
  intros He Hle (Hid & Hm & Hl & Hr). split_and!; [done|by apply minted_as_app|by rewrite last_lease_app, Hle|].
  intros Hn [Hin|Hin]%elem_of_app; [by apply Hr|]. apply list_elem_of_singleton in Hin. congruence.
Qed.

(** An event stays in order while no row disappears. *)
Lemma event_ok_mono w w' e :
  (forall id, is_Some (grants (gw_store w) !! id) -> is_Some (grants (gw_store w') !! id)) ->
  event_ok w e -> event_ok w' e.
Proof. intros Hsub. destruct e; simpl; naive_solver. Qed.

Lemma events_mono w w' :
  (forall id, is_Some (grants (gw_store w) !! id) -> is_Some (grants (gw_store w') !! id)) ->
  Forall (event_ok w) (gw_log w) -> Forall (event_ok w') (gw_log w).
Proof. intros Hsub H. eapply Forall_impl; [exact H|]. intros e. by apply event_ok_mono. Qed.

(** *** Rows of an attempt *)

Lemma find_attempt_Some s job attempt r :
  find_attempt s job attempt = Some r ->
  exists id, grants s !! id = Some r /\ g_job r = job /\ g_attempt r = attempt.
Proof.
  unfold find_attempt. destruct (find _ _) as [[id r']|] eqn:E; [|done]. intros [= ->].
  apply find_some in E as [Hin Ht]. apply list_elem_of_In, elem_of_map_to_list in Hin.
  simpl in Ht. unfold of_attempt in Ht. bool_facts. by exists id.
Qed.

Lemma find_attempt_None s job attempt id r :
  find_attempt s job attempt = None -> grants s !! id = Some r -> g_job r = job -> g_attempt r <> attempt.
Proof.
  unfold find_attempt. destruct (find _ _) as [p|] eqn:E; [done|]. intros _ Hr <- Ha.
  assert (of_attempt (g_job r) attempt r = false) as Hf
    by (apply (find_none _ _ E (id, r)); by apply list_elem_of_In, elem_of_map_to_list).
  unfold of_attempt in Hf. by rewrite !bool_decide_eq_true_2 in Hf.
Qed.

(** What minting does to the rows: nothing, or the new row is added. *)
Lemma mint_rows s c q new_id now :
  let '(s', res) := mint_grant secret s c q new_id now in
  s' = s \/
  (exists a, active_account s (req_user q) = Some a /\ find_attempt s (req_job q) (req_attempt q) = None /\
     grants s !! new_id = None /\
     s' = s <| grants := <[new_id := GrantRow new_id (req_user q) (req_job q) (req_attempt q)
       (clamp_models (req_models q) (agent_visible_models (routes c) (Some (owner_ctx a)) (override c)))
       (expiry_from (clamp_ttl (req_ttl q)) now) None]> (grants s) |>).
Proof.
  unfold mint_grant. destruct (active_account s (req_user q)) as [a|]; [|cbn; by left].
  unfold upsert_agent_grant. cbn [g_job g_attempt g_id].
  destruct (find_attempt s (req_job q) (req_attempt q)) as [r|] eqn:Ef.
  - destruct (_ || _); [by left|]. destruct (mint_grant_token secret (g_id r)); by left.
  - destruct (grants s !! new_id) eqn:En; [by left|]. cbn [g_user g_models g_id].
    destruct (_ || _); [|destruct (mint_grant_token secret new_id)]; right; by exists a.
Qed.

Lemma clamp_ttl_bounds o : 1 <= clamp_ttl o <= MAX_GRANT_TTL_S.
Proof.
  unfold clamp_ttl, MAX_GRANT_TTL_S, DEFAULT_GRANT_TTL_S. destruct o as [n|]; [|lia]. case_bool_decide; lia.
Qed.

(** *** Steps *)

Lemma mint_wf w c q new_id now : grants_wf w -> grants_wf (grant_step w (OMint c q new_id now)).
Proof.
  intros Hw. pose proof (mint_rows (gw_store w) c q new_id now) as Hm. cbn [grant_step].
  destruct (mint_grant secret (gw_store w) c q new_id now) as [s' res].
  destruct Hm as [->|(a & Ha & Hf & Hn & ->)].
  { assert (match grants (gw_store w) !! new_id, grants (gw_store w) !! new_id with
      | None, Some r => gw_log w ++ [EMinted r q (gw_store w) c now] | _, _ => gw_log w end = gw_log w) as ->
      by (by destruct (grants (gw_store w) !! new_id)). by destruct w. }
  rewrite Hn. cbn [grants set_to]. rewrite lookup_insert_eq.
  set (r := GrantRow _ _ _ _ _ _ _). destruct Hw as [Hrows Hev Hun].
  assert (forall id, ERevoked id ∈ gw_log w -> is_Some (grants (gw_store w) !! id)) as Hrev
    by (intros id Hin; apply (proj1 (Forall_forall _ _) Hev _ Hin)).
  constructor; cbn [gw_store gw_log grants set_to].
  - intros id x. rewrite lookup_insert. case_decide as Hid.
    + intros [= <-]. subst id. split_and!; [done| | |].
      * exists r, q, (gw_store w), c, now. split; [|done]. apply elem_of_app. right. by apply list_elem_of_singleton.
      * rewrite last_lease_app. cbn [lease_event r g_id]. by rewrite decide_True.
      * intros _ [Hin|Hin]%elem_of_app; [|by apply list_elem_of_singleton in Hin].
        apply Hrev in Hin. rewrite Hn in Hin. by destruct Hin.
    + intros Hx. apply row_ok_app; [done| |by apply Hrows]. cbn [lease_event r g_id]. by rewrite decide_False.
  - apply Forall_app. split.
    + apply (events_mono w); [|done]. intros id Hid. cbn [gw_store grants set_to].
      rewrite lookup_insert. case_decide; [by eexists|done].
    + repeat constructor; cbn [gw_store grants set_to g_id].
      * rewrite lookup_insert_eq. by eexists.
      * by exists a.
  - intros i j x y. rewrite !lookup_insert.
    destruct (decide (new_id = i)) as [Hi|Hi], (decide (new_id = j)) as [Hj|Hj]; [congruence| | |by apply Hun].
    + intros [= <-] Hy Hjob Hat. by destruct (find_attempt_None _ _ _ _ _ Hf Hy (eq_sym Hjob)).
    + intros Hx [= <-] Hjob Hat. by destruct (find_attempt_None _ _ _ _ _ Hf Hx Hjob).
Qed.

(** Rewriting the expiry or the revocation of a row. *)
Lemma update_wf w id r r' e :
  grants_wf w -> grants (gw_store w) !! id = Some r ->
  g_id r' = g_id r -> g_user r' = g_user r -> g_job r' = g_job r -> g_attempt r' = g_attempt r ->
  g_models r' = g_models r ->
  row_ok (gw_log w ++ [e]) id r' -> (forall k, k <> id -> e <> ERevoked k /\ lease_event k e = None) ->
  event_ok w e ->
  grants_wf (GrantWorld ((gw_store w) <| grants := <[id := r']> (grants (gw_store w)) |>) (gw_log w ++ [e])).
Proof.
  intros [Hrows Hev Hun] Hr Hid Hu Hj Ha Hmod Hok Hrevk He.
  assert (forall k, is_Some (grants (gw_store w) !! k) -> is_Some ((<[id := r']> (grants (gw_store w))) !! k)) as Hsub
    by (intros k Hk; rewrite lookup_insert; case_decide; [by eexists|done]).
  constructor; cbn [gw_store gw_log grants set_to].
  - intros k x. rewrite lookup_insert. case_decide as Hk; [intros [= <-]; by subst|].
    intros Hx. destruct (Hrevk k) as [? ?]; [congruence|]. apply row_ok_app; [done|done|]. by apply Hrows.
  - apply Forall_app. split; [by apply (events_mono w)|]. repeat constructor. by apply (event_ok_mono w).
  - assert (forall k x, (<[id := r']> (grants (gw_store w))) !! k = Some x ->
      exists y, grants (gw_store w) !! k = Some y /\ g_job x = g_job y /\ g_attempt x = g_attempt y) as Hold.
    { intros k x. rewrite lookup_insert. case_decide; [intros [= <-]; subst; by exists r|]. intros; by exists x. }
    intros i j x y Hx Hy Hjob Hatt. apply Hold in Hx as (x' & Hx & Hx1 & Hx2). apply Hold in Hy as (y' & Hy & Hy1 & Hy2).
    apply (Hun i j x' y'); congruence.
Qed.

(** An event about [id] that changes no row. *)
Lemma note_wf w id e :
  grants_wf w -> event_ok w e -> (forall k, k <> id -> e <> ERevoked k) -> (forall k, lease_event k e = None) ->
  (forall r, grants (gw_store w) !! id = Some r -> is_Some (g_revoked r)) ->
  grants_wf (GrantWorld (gw_store w) (gw_log w ++ [e])).
Proof.
  intros [Hrows Hev Hun] He Hk Hle Hrev. constructor; cbn [gw_store gw_log]; [| |done].
  - intros k x Hx. destruct (Hrows k x Hx) as (Hid & Hm & Hl & Hr).
    destruct (decide (k = id)) as [->|Hne]; [|by apply row_ok_app; [apply Hk|apply Hle|]].
    split_and!; [done|by apply minted_as_app|by rewrite last_lease_app, Hle|].
    intros Hn. destruct (Hrev x Hx) as [? ?]. congruence.
  - apply Forall_app. split; [by apply (events_mono w)|]. by repeat constructor.
Qed.

Lemma renew_wf w id now db_now : grants_wf w -> grants_wf (grant_step w (ORenew id now db_now)).
Proof.
  intros Hw. cbn [grant_step]. unfold renew_grant.
  destruct (grants (gw_store w) !! id) as [r|] eqn:Hr; [|by destruct w].
  destruct (active_account (gw_store w) (g_user r)); [|by destruct w]. unfold renew_agent_grant. rewrite Hr.
  destruct (is_live r db_now) eqn:Hlive; [|by destruct w].
  destruct (gw_rows _ Hw id r Hr) as (Hid & Hm & Hl & Hrev).
  apply (update_wf w id r); try done; [|by intros k Hk; split; [|cbn; rewrite decide_False]|by eexists].
  split_and!; [done|by apply (minted_as_app _ _ r)| |].
  - rewrite last_lease_app. cbn [lease_event]. by rewrite decide_True.
  - cbn [g_revoked set_to]. intros Hn [Hin|Hin]%elem_of_app; [by apply Hrev|]. by apply list_elem_of_singleton in Hin.
Qed.

Lemma revoke_wf w id db_now : grants_wf w -> grants_wf (grant_step w (ORevoke id db_now)).
Proof.
  intros Hw. cbn [grant_step]. unfold revoke_grant.
  destruct (grants (gw_store w) !! id) as [r|] eqn:Hr; [|by destruct w]. unfold revoke_agent_grant. rewrite Hr.
  destruct (gw_rows _ Hw id r Hr) as (Hid & Hm & Hl & Hrev).
  destruct (g_revoked r) as [t|] eqn:Ht.
  - apply (note_wf w id); try done; [by eexists|congruence|..]. intros r' Hr'. rewrite Hr in Hr'. simplify_eq. by eexists.
  - apply (update_wf w id r); try done; [|split; [congruence|done]|by eexists].
    split_and!; [done|by apply (minted_as_app _ _ r)|by rewrite last_lease_app|done].
Qed.

Lemma grant_step_wf w o : grants_wf w -> grants_wf (grant_step w o).
Proof.
  intros Hw. destruct o as [c q new_id now|id now db_now|id db_now|uid a].
  - by apply mint_wf.
  - by apply renew_wf.
  - by apply revoke_wf.
  - destruct Hw as [Hrows Hev Hun]. constructor; [done| |done]. by apply (events_mono w).
Qed.

Lemma grant_run_wf accs l : grants_wf (grant_run accs l).
Proof.
  apply (foldl_invariant grants_wf); [intros; by apply grant_step_wf|].
  constructor; simpl; [|done|].
  - intros id r. by rewrite lookup_empty.
  - intros i j r r'. by rewrite lookup_empty.
Qed.

(** *** What a granted call shows *)

Lemma may_use_scope r m role dis scope scope' ov :
  may_use r m (Some (UserCtx role dis None scope)) ov -> may_use r m (Some (UserCtx role dis None scope')) ov.
Proof. intros (Hp & Hr & Hd & Hk). split_and!; [done|done| |]; naive_solver. Qed.

Lemma clamp_models_elem requested visible m :
  m ∈ clamp_models requested visible <-> m ∈ visible /\ forall wanted, requested = Some wanted -> m ∈ wanted.
Proof.
  destruct requested as [w|]; simpl; [rewrite list_elem_of_filter|]; naive_solver.
Qed.

Lemma resolve_spec s token rd now row :
  _resolve_grant secret s token rd now = Ok row ->
  exists s0 id, s = Some s0 /\ parse_grant_token secret token = Ok id /\ grants s0 !! id = Some row /\
    g_revoked row = None /\ now < g_expires row.
Proof.
  unfold _resolve_grant. destruct s as [s|]; [|done].
  destruct (parse_grant_token secret token) as [id|[]] eqn:Ep; try done.
  destruct (grant_readable rd); simpl; [|done]. destruct (grants s !! id) as [r|] eqn:Er; [|done].
  destruct (is_live r now) eqn:El; [|done]. intros [= ->]. exists s, id. unfold is_live in El.
  destruct (g_revoked row); [done|]. apply bool_decide_eq_true in El. done.
Qed.

(** The quotas of account [uid], by the rows read: it has one quota row, and one more
    request fits under its daily quota (the default one if it sets none) and, if it has
    one, its monthly quota, on top of what was read as spent and what the ledger holds
    that the reading did not see.  [chk] is what later admission checks against: the same
    account, limits and reading. *)
Definition within_quota (l : ledger) (uid : string) (rd : reads) (today : string) (mono at_ : Q) (chk : spend_check) : Prop :=
  exists k day month, quota_rows rd = Some [k] /\ spend_rows rd = Some (day, month) /\
    check_user chk = uid /\ check_key chk = None /\ read_at chk = at_ /\
    account_quota (check_limits chk) = resolve_quota (quota_daily_cost_usd k) /\
    account_quota_monthly (check_limits chk) = quota_monthly_cost_usd k /\
    account_day (check_spent chk) = day /\
    (is_Some (quota_monthly_cost_usd k) -> account_month (check_spent chk) = month) /\
    let unseen := (_extra l today uid None at_ mono).2 in
    fits (Some (resolve_quota (quota_daily_cost_usd k))) (day + account_day unseen) /\
    fits (quota_monthly_cost_usd k) (month + account_month unseen).

Lemma quota_check_within l uid rd today mono at_ chk :
  _quota_check uid rd at_ = Ok chk -> (ledger_refusal l today mono chk).2 = None ->
  within_quota l uid rd today mono at_ chk.
Proof.
  unfold _quota_check, within_quota. destruct (quota_rows rd) as [[|k [|? ?]]|]; try done.
  destruct (spend_rows rd) as [[day month]|]; [|done]. intros [= <-]. unfold ledger_refusal. cbn [check_user check_key read_at].
  destruct (_extra l today uid None at_ mono) as [l1 x]. cbn [snd].
  intros (_ & _ & Hd & Hm)%first_refusal_none. exists k, day, month. split_and!; try done.
  - cbn. by intros [? ->].
  - cbn in Hm |- *. by destruct (quota_monthly_cost_usd k).
Qed.

Lemma authenticate_spec s l token rd now today mono read_at l' ctx :
  authenticate_grant_model_call secret s l token rd now today mono read_at = (l', Ok ctx) ->
  exists s0 id row a, s = Some s0 /\ parse_grant_token secret token = Ok id /\ grants s0 !! id = Some row /\
    g_revoked row = None /\ now < g_expires row /\ active_account s0 (g_user row) = Some a /\
    user_id (gc_user ctx) = g_user row /\ gc_grant ctx = g_id row /\
    gc_ctx ctx = UserCtx (Some (account_role a)) (get_disabled_models_from_preferences (acc_preferences a))
                   None (Some (g_models row)) /\
    within_quota l (g_user row) rd today mono read_at (gc_check ctx).
Proof.
  unfold authenticate_grant_model_call. destruct (_resolve_grant secret s token rd now) as [row|e] eqn:Er; [|done].
  apply resolve_spec in Er as (s0 & id & -> & Hp & Hrow & Hrev & Hexp).
  unfold _active_subject. destruct (user_readable rd); cbn [negb]; [|done].
  destruct (active_account s0 (g_user row)) as [a|] eqn:Ea; [|done].
  destruct (_quota_check (g_user row) rd read_at) as [c|e] eqn:Ec; [|done].
  pose proof (quota_check_within l (g_user row) rd today mono read_at c Ec) as Hq.
  destruct (ledger_refusal l today mono c) as [l1 [x|]] eqn:El; [done|]. intros [= <- <-].
  exists s0, id, row, a. cbn [user_id gc_user gc_grant gc_ctx gc_check]. split_and!; try done. by apply Hq.
Qed.

Lemma verify_grant_spec s l path token rd now today mono read_at l' ctx :
  verify_grant_key secret s l path token rd now today mono read_at = Some (l', Ok ctx) ->
  _is_inference_path path = true /\
  authenticate_grant_model_call secret s l token rd now today mono read_at = (l', Ok ctx).
Proof.
  unfold verify_grant_key. destruct (looks_like_grant_token _); [|done].
  destruct (_is_inference_path path); simpl; [|done]. by intros [= ->].
Qed.

(** The lease that the last mint or renewal of [id] gave it has not lapsed; no lease is
    longer than the longest time to live. *)
Definition leased (log : list grant_event) (id : chars) (now : datetime_us) : Prop :=
  exists since until, last_lease log id = Some (since, until) /\ now < until /\
    until <= since + MAX_GRANT_TTL_S * SECOND.

(** A mint for [uid] whose scope holds [m]: the request asked for it and the account,
    active then, could use it then. *)
Definition scoped (log : list grant_event) (id : chars) (uid : string) (m : chars) : Prop :=
  exists r q s c t a, EMinted r q s c t ∈ log /\ g_id r = id /\ req_user q = uid /\
    active_account s uid = Some a /\
    (forall wanted, req_models q = Some wanted -> m ∈ wanted) /\
    exists name route, (name, route) ∈ routes c /\ may_use route m (Some (owner_ctx a)) (override c).

Lemma lease_bounded log id since until :
  last_lease log id = Some (since, until) -> until <= since + MAX_GRANT_TTL_S * SECOND.
Proof.
  unfold last_lease. intros Hl. apply last_Some_elem_of, list_elem_of_omap in Hl as (e & _ & He).
  destruct e as [r q s c t|id' t|id']; cbn in He; [..|done]; case_decide; simplify_eq.
  - pose proof (clamp_ttl_bounds (req_ttl q)). unfold SECOND. lia.
  - unfold MAX_RENEW_TTL_S, DEFAULT_GRANT_TTL_S, MAX_GRANT_TTL_S, SECOND. lia.
Qed.

Lemma row_leased log id r now : row_ok log id r -> now < g_expires r -> leased log id now.
Proof.
  intros (_ & _ & Hl & _) Hnow. destruct (last_lease log id) as [[since until]|] eqn:El; [|done]. simplify_eq/=.
  exists since, (g_expires r). split_and!; [done|done|]. by eapply lease_bounded.
Qed.

Lemma row_scoped w id r m :
  grants_wf w -> grants (gw_store w) !! id = Some r -> m ∈ g_models r -> scoped (gw_log w) id (g_user r) m.
Proof.
  intros Hw Hr Hm. destruct (gw_rows _ Hw id r Hr) as (Hid & (r0 & q & s & c & t & Hin & Hid0 & Hu & _ & _ & Hmod) & _).
  pose proof (proj1 (Forall_forall _ _) (gw_events _ Hw) _ Hin) as (_ & Huser & a & Ha & Hscope).
  rewrite <- Hmod, Hscope in Hm. apply clamp_models_elem in Hm as [Hvis Hwanted].
  apply visible_from_spec in Hvis as (_ & name & route & Hroute & _ & Hmay).
  exists r0, q, s, c, t, a. split_and!; try done; [congruence|congruence|by rewrite <- Hu, Huser|].
  by exists name, route.
Qed.

(** A mint that answers left the answered row in the store under its id. *)
Lemma mint_answer accs ops c q new_id now s' r t :
  mint_grant secret (gw_store (grant_run accs ops)) c q new_id now = (s', Ok (r, t)) ->
  grants s' !! g_id r = Some r /\ g_user r = req_user q /\ mint_grant_token secret (g_id r) = Ok t.
Proof.
  pose proof (grant_run_wf accs ops) as Hw. set (s := gw_store (grant_run accs ops)) in *.
  unfold mint_grant. destruct (active_account s (req_user q)) as [a|]; [|done].
  unfold upsert_agent_grant. cbn [g_job g_attempt g_id].
  destruct (find_attempt s (req_job q) (req_attempt q)) as [r0|] eqn:Ef.
  - destruct (_ || _) eqn:E; [done|]. apply orb_false_iff in E as [E1 _].
    apply negb_false_iff, bool_decide_eq_true in E1.
    destruct (mint_grant_token secret (g_id r0)) as [t0|] eqn:Et; [|done]. intros [= <- <- <-].
    apply find_attempt_Some in Ef as (id & Hr & _). destruct (gw_rows _ Hw id r0 Hr) as (Hid & _).
    split_and!; [by rewrite Hid|done|done].
  - destruct (grants s !! new_id) eqn:En; [done|]. cbn [g_user g_models g_id].
    destruct (_ || _) eqn:E; [done|].
    destruct (mint_grant_token secret new_id) as [t0|] eqn:Et; [|done]. intros [= <- <- <-].
    cbn [grants set_to g_id]. by rewrite lookup_insert_eq.
Qed.
End histories.

(** ** What grants guarantee *)

(** C26: whatever mints, renewals, revocations and account changes came before, a
    grant call that passes [verify_api_key] and the model check (1) is on an inference
    path; (2) carries a token signed for a grant that was never revoked, and comes before
    the end of the lease that the last mint or renewal of that grant gave it: the time
    to live the mint asked for, clamped to at most 15 minutes, or five minutes from the
    renewal; (3) runs as an account that is active now, whose role and denylist admit the
    model now; (4) the account has one quota row, and the request fits under that row's
    daily quota and, if it sets one, its monthly quota, counting the spending read and
    what the ledger holds beyond it, and it is those limits that admission will check;
    and (5) names a model in the scope of the grant's mint: one the mint asked for and
    that the same account could use then. *)
Theorem grant_authority `{D : Digests} secret accs ops l path token rd now today mono read_at l' ctx name r ov :
  let w := grant_run secret accs ops in
  let m := route_canonical_model_id r name in
  verify_grant_key secret (Some (gw_store w)) l path token rd now today mono read_at = Some (l', Ok ctx) ->
  model_access_denial r name (Some (gc_ctx ctx)) ov true = None ->
  _is_inference_path path = true /\
  exists id a, parse_grant_token secret token = Ok id /\ ERevoked id ∉ gw_log w /\
    leased (gw_log w) id now /\
    active_account (gw_store w) (user_id (gc_user ctx)) = Some a /\ may_use r m (Some (owner_ctx a)) ov /\
    within_quota l (user_id (gc_user ctx)) rd today mono read_at (gc_check ctx) /\
    scoped (gw_log w) id (user_id (gc_user ctx)) m.
Proof.
  intros w m Hv Hacc. pose proof (grant_run_wf secret accs ops) as Hw. fold w in Hw.
  apply verify_grant_spec in Hv as [Hpath Hauth]. split; [done|].
  apply authenticate_spec in Hauth as (s0 & id & row & a & [= <-] & Hp & Hrow & Hrev & Hexp & Ha & Hu & Hg & Hctx & Href).
  apply access_allowed in Hacc as [Hmay Hin]. fold m in Hmay, Hin. rewrite Hctx in Hmay.
  exists id, a. split_and!; [done| | |by rewrite Hu|by eapply may_use_scope|by rewrite Hu|].
  - by apply (gw_rows _ Hw id row Hrow).
  - by apply (row_leased _ id row); [apply gw_rows|].
  - rewrite Hu. apply (row_scoped w); [done|done|]. apply (Hin eq_refl (gc_ctx ctx)); [done|by rewrite Hctx].
Qed.

(** The first mint of an attempt decides: in every history a mint that names an
    attempt which already has a grant changes no row, and answers with that grant and a
    token for it if the subject and the clamped scope are the same, and with a conflict
    or another refusal otherwise; and no two rows ever share an attempt. *)
Theorem mint_once `{D : Digests} secret accs ops c q new_id now id r :
  let s := gw_store (grant_run secret accs ops) in
  grants s !! id = Some r -> g_job r = req_job q -> g_attempt r = req_attempt q ->
  (mint_grant secret s c q new_id now).1 = s /\
  (forall r' t, (mint_grant secret s c q new_id now).2 = Ok (r', t) ->
     r' = r /\ g_user r = req_user q /\ mint_grant_token secret id = Ok t /\
     exists a, active_account s (req_user q) = Some a /\
       g_models r = clamp_models (req_models q) (agent_visible_models (routes c) (Some (owner_ctx a)) (override c))) /\
  (forall id' r', grants s !! id' = Some r' -> g_job r' = g_job r -> g_attempt r' = g_attempt r -> id' = id).
Proof.
  intros s Hr Hj Ha. pose proof (grant_run_wf secret accs ops) as Hw.
  assert (find_attempt s (req_job q) (req_attempt q) = Some r) as Hf.
  { destruct (find_attempt s (req_job q) (req_attempt q)) as [r'|] eqn:E.
    - apply find_attempt_Some in E as (id' & Hr' & Hj' & Ha').
      assert (id' = id) as -> by (apply (gw_unique _ Hw id' id r' r); try done; congruence). congruence.
    - by destruct (find_attempt_None _ _ _ _ _ E Hr Hj). }
  split_and!.
  - unfold mint_grant. destruct (active_account s (req_user q)) as [a|]; [|done].
    unfold upsert_agent_grant. cbn [g_job g_attempt]. rewrite Hf. destruct (_ || _); [done|].
    by destruct (mint_grant_token secret (g_id r)).
  - intros r' t. unfold mint_grant. destruct (active_account s (req_user q)) as [a|]; [|done].
    unfold upsert_agent_grant. cbn [g_job g_attempt]. rewrite Hf. destruct (_ || _) eqn:E; [done|].
    apply orb_false_iff in E as [E1 E2]. apply negb_false_iff, bool_decide_eq_true in E1, E2.
    destruct (mint_grant_token secret (g_id r)) as [t'|] eqn:Et; [|done]. intros [= <- <-].
    destruct (gw_rows _ Hw id r Hr) as (Hid & _). split_and!; [done|done|by rewrite <- Hid|]. by exists a.
  - intros id' r' Hr' Hj' Ha'. by apply (gw_unique _ Hw id' id r' r).
Qed.

(** A minted grant works: in every history, if a mint answers with a grant and a
    token, then while that grant is live, its owner active, the reads succeed and no
    quota refuses, presenting the token on an inference path authenticates as the owner,
    never as an administrator, with the grant's models as the only models allowed. *)
Theorem minted_grant_authenticates `{D : Digests} `{!DigestLaws D} secret accs ops c q new_id now
    s' r t l path now' today mono read_at k day month a chk :
  mint_grant secret (gw_store (grant_run secret accs ops)) c q new_id now = (s', Ok (r, t)) ->
  g_id r <> [] -> Forall scalar (g_id r) -> is_live r now' = true ->
  active_account s' (g_user r) = Some a ->
  _is_inference_path path = true ->
  _quota_check (g_user r) (Reads true true (Some [k]) (Some (day, month))) read_at = Ok chk ->
  (ledger_refusal l today mono chk).2 = None ->
  exists l' ctx,
    verify_grant_key secret (Some s') l path t (Reads true true (Some [k]) (Some (day, month)))
      now' today mono read_at = Some (l', Ok ctx) /\
    user_id (gc_user ctx) = req_user q /\ user_is_admin (gc_user ctx) = false /\
    agent_allowed_models (gc_ctx ctx) = Some (g_models r) /\ gc_grant ctx = g_id r.
Proof.
  intros Hm Hne Hsc Hlive Ha Hpath Hq Href.
  destruct (mint_answer _ _ _ _ _ _ _ _ _ _ Hm) as (Hrow & Hu & Ht).
  destruct (parse_mint secret (g_id r)) as (t' & Ht' & Hlook & Hparse); [|done|done|].
  { intros ->. unfold mint_grant_token, _signing_key in Ht. done. }
  assert (t' = t) as -> by congruence.
  unfold verify_grant_key. rewrite Hlook, Hpath. cbn [negb].
  unfold authenticate_grant_model_call, _resolve_grant. rewrite Hparse. cbn [grant_readable negb].
  rewrite Hrow, Hlive. unfold _active_subject. cbn [user_readable negb]. rewrite Ha, Hq.
  destruct (ledger_refusal l today mono chk) as [l1 [x|]]; [done|].
  eexists _, _. split; [reflexivity|]. by rewrite <- Hu.
Qed.

(** *** Witnesses *)

Definition demo_accounts : gmap string account :=
  {[ "ann"%string := Account "active" (Some "free"%string) None None ]}.
Definition demo_model : chars := chars_of "small".
Definition demo_route : model_route := ModelRoute true (Some (demo_model, _AGENT_MODEL_TYPE)) "free" false.
Definition demo_catalogue : catalogue := Catalogue [(demo_model, demo_route)] (fun _ => None).
Definition demo_request : mint_request := MintRequest "ann" "job" "attempt" None (Some 600).
Definition demo_id : chars := chars_of "agr_1".
Definition demo_ops : list grant_op :=
  [OMint demo_catalogue demo_request demo_id 0; ORenew demo_id (500 * SECOND) (500 * SECOND)].
Definition demo_secret : list N := [115%N].
Definition demo_world : grant_world := @grant_run toy_digests demo_secret demo_accounts demo_ops.
Definition demo_token : chars :=
  match @mint_grant_token toy_digests demo_secret demo_id with Ok t => t | Raise _ => [] end.
Definition demo_reads : reads := Reads true true (Some [QuotaRow (Some 5%Q) None]) (Some (0%Q, 0%Q)).
Definition demo_answer : option (ledger * result agent_error grant_ctx) :=
  @verify_grant_key toy_digests demo_secret (Some (gw_store demo_world)) new_ledger (chars_of "/v1/messages/")
    demo_token demo_reads (790 * SECOND) "2026-01-01" 0 0.
Definition demo_ctx : grant_ctx :=
  match demo_answer with
  | Some (_, Ok ctx) => ctx
  | _ => GrantCtx (User "" None false None) (UserCtx None [] None None) "" [] (SpendCheck "" None 0 (Limits 0 None None None) (Spent 0 0 0 0))
  end.
Definition demo_ledger : ledger := match demo_answer with Some (l, _) => l | None => new_ledger end.

Lemma grant_authority_witness :
  demo_answer = Some (demo_ledger, Ok demo_ctx) /\ gc_grant demo_ctx = demo_id /\
  _is_inference_path (chars_of "/v1/messages/") = true.
Proof.
  split; [vm_compute; reflexivity|]. split; [vm_compute; reflexivity|].
  refine (proj1 (@grant_authority toy_digests demo_secret demo_accounts demo_ops new_ledger (chars_of "/v1/messages/")
    demo_token demo_reads (790 * SECOND) "2026-01-01" 0 0 demo_ledger demo_ctx demo_model demo_route (fun _ => None) _ _)).
  - vm_compute. reflexivity.
  - vm_compute. reflexivity.
Defined.

Definition demo_row : grant_row :=
  GrantRow demo_id "ann" "job" "attempt" [demo_model] (600 * SECOND) None.

(** A retried mint gets the same grant, whatever lifetime it asks for. *)
Lemma mint_once_witness :
  let s := gw_store (@grant_run toy_digests demo_secret demo_accounts [OMint demo_catalogue demo_request demo_id 0]) in
  (@mint_grant toy_digests demo_secret s demo_catalogue (MintRequest "ann" "job" "attempt" None (Some 900))
     (chars_of "agr_2") (60 * SECOND)).1 = s.
Proof.
  refine (proj1 (@mint_once toy_digests demo_secret demo_accounts [OMint demo_catalogue demo_request demo_id 0]
    demo_catalogue (MintRequest "ann" "job" "attempt" None (Some 900)) (chars_of "agr_2") (60 * SECOND) demo_id demo_row
    _ _ _)); vm_compute; reflexivity.
Defined.

Definition demo_store : grant_store :=
  (@mint_grant toy_digests demo_secret (GrantStore demo_accounts ∅) demo_catalogue demo_request demo_id 0).1.
Definition demo_check : spend_check := SpendCheck "ann" None 0 (Limits 5 None None None) (Spent 0 0 0 0).

Lemma minted_grant_authenticates_witness :
  exists l' ctx,
    @verify_grant_key toy_digests demo_secret (Some demo_store) new_ledger (chars_of "/v1/responses") demo_token
      demo_reads (599 * SECOND) "2026-01-01" 0 0 = Some (l', Ok ctx) /\
    user_id (gc_user ctx) = "ann"%string /\ user_is_admin (gc_user ctx) = false /\
    agent_allowed_models (gc_ctx ctx) = Some [demo_model] /\ gc_grant ctx = demo_id.
Proof.
  apply (@minted_grant_authenticates toy_digests toy_laws demo_secret demo_accounts [] demo_catalogue demo_request
    demo_id 0 demo_store demo_row demo_token new_ledger (chars_of "/v1/responses") (599 * SECOND) "2026-01-01" 0 0
    (QuotaRow (Some 5%Q) None) 0 0 (Account "active" (Some "free"%string) None None) demo_check).
  - vm_compute. reflexivity.
  - done.
  - repeat constructor; vm_compute; done || (intros [? ?]; done).
  - vm_compute. reflexivity.
  - vm_compute. reflexivity.
  - vm_compute. reflexivity.
  - vm_compute. reflexivity.
  - vm_compute. reflexivity.
Defined.
