(* ===== verification/AuthBlocklist.v ===== *)
(** The sources refused for repeated authentication failures:
    [serving/utils/auth_failure_blocklist.py], and the buckets of addresses of
    [serving/utils/request_ip.py].

    A source is given as text; here it is what the [ipaddress] module reads that
    text as.  Every body under the module's lock runs without awaiting, so it is one
    step.  Instants are the rationals of [time.time()]. *)

From S2P Require Import Prelude.
From Stdlib Require Import Qround.

Local Open Scope Z_scope.

(** ** Addresses and buckets *)

(** A text as [ipaddress] reads it: an IPv4 address, an IPv6 address with its scope
    id, a /64 network (which is no address), or none of these. *)
Inductive source : Type :=
| V4 (n : Z)
| V6 (n : Z) (scope : option string)
| Net6 (prefix : Z) (scope : option string)
| Other (s : string).
#[export] Instance source_eq_dec : EqDecision source.
Proof. solve_decision. Defined.
#[export] Instance source_countable : Countable source.
Proof.
  refine (inj_countable'
    (fun s => match s with
              | V4 n => inl (inl n)
              | V6 n sc => inl (inr (n, sc))
              | Net6 p sc => inr (inl (p, sc))
              | Other t => inr (inr t)
              end)
    (fun x => match x with
              | inl (inl n) => V4 n
              | inl (inr (n, sc)) => V6 n sc
              | inr (inl (p, sc)) => Net6 p sc
              | inr (inr t) => Other t
              end) _).
  by intros [].
Defined.

(** [ipv4_mapped]: the address embedded in [::ffff:0:0/96]. *)
Definition ipv4_mapped (n : Z) : option Z :=
  if bool_decide (Z.shiftr n 32 = 65535) then Some (Z.land n (2 ^ 32 - 1)) else None.

(** [normalize_ip_bucket] *)
Definition normalize_ip_bucket (s : source) : source :=
  match s with
  | V4 n => V4 n
  | V6 n scope =>
      match ipv4_mapped n with
      | Some m => V4 m
      | None => Net6 (Z.shiftr n 64) (if bool_decide (Z.land n (2 ^ 64 - 1) = 0) then scope else None)
      end
  | Net6 _ _ | Other _ => s
  end.

(** A network of the exemption setting, as [ip_network] reads an entry. *)
Inductive network : Type :=
| Network4 (base prefixlen : Z)
| Network6 (base prefixlen : Z).

(** [parsed in net] *)
Definition in_network (s : source) (net : network) : bool :=
  match s, net with
  | V4 n, Network4 b p => bool_decide (Z.shiftr n (32 - p) = Z.shiftr b (32 - p))
  | V6 n _, Network6 b p => bool_decide (Z.shiftr n (128 - p) = Z.shiftr b (128 - p))
  | _, _ => false
  end.

(** [_is_exempt] *)
Definition _is_exempt (exempt : list network) (s : source) : bool :=
  match s with
  | V4 _ => existsb (in_network s) exempt
  | V6 n _ => existsb (in_network (from_option V4 s (ipv4_mapped n))) exempt
  | Net6 _ _ | Other _ => false
  end.

(** ** The tracker *)

(** The settings; the entries of the exemption list that parse. *)
Record block_settings : Type := BlockSettings {
  auth_failure_block_enabled : bool;
  auth_failure_block_threshold : Z;
  auth_failure_block_window_sec : Z;
  auth_failure_block_duration_sec : Z;
  unresolved_threshold : Z;
  unresolved_window_sec : Z;
  unresolved_duration_sec : Z;
  exempt_networks : list network
}.

Record blocklist : Type := Blocklist {
  _failures : gmap source (list Q);
  _blocked_until : gmap source Q;
  _unresolved_failures : list Q;
  _unresolved_blocked_until : option Q;
  _sweep_counter : Z
}.
#[export] Instance eta_blocklist : Eta blocklist := fun b =>
  Blocklist (_failures b) (_blocked_until b) (_unresolved_failures b) (_unresolved_blocked_until b) (_sweep_counter b).

Definition new_blocklist : blocklist := Blocklist ∅ ∅ [] None 0.

Definition _SWEEP_EVERY : Z := 1024.

(** [while bucket and bucket[0] < cutoff: bucket.popleft()] *)
Fixpoint drop_before (cutoff : Q) (l : list Q) : list Q :=
  match l with
  | t :: rest => if bool_decide (t < cutoff)%Q then drop_before cutoff rest else l
  | [] => []
  end.

(** [_sweep_inactive] *)
Definition _sweep_inactive (c : block_settings) (b : blocklist) (now : Q) (window_sec : Z) : blocklist :=
  b <| _failures := omap (fun l => match drop_before (now - inject_Z window_sec) l with
                                   | [] => None
                                   | l => Some l
                                   end) (_failures b) |>
    <| _blocked_until := filter (fun p => ~ (p.2 <= now)%Q) (_blocked_until b) |>
    <| _unresolved_failures := drop_before (now - inject_Z (unresolved_window_sec c)) (_unresolved_failures b) |>
    <| _unresolved_blocked_until :=
         match _unresolved_blocked_until b with
         | Some u => if bool_decide (u <= now)%Q then None else Some u
         | None => None
         end |>.

(** [max(1, int(until - now + 0.999))] *)
Definition retry_after (until now : Q) : Z := Z.max 1 (Qfloor (until - now + (999 # 1000))).

(** [is_ip_blocked]; [None] is a source that was not resolved. *)
Definition is_ip_blocked (c : block_settings) (b : blocklist) (ip : option source) (now : Q) :
    blocklist * (bool * Z) :=
  if negb (auth_failure_block_enabled c) then (b, (false, 0))
  else
    match ip with
    | None =>
        match _unresolved_blocked_until b with
        | None => (b, (false, 0))
        | Some u => if bool_decide (u <= now)%Q then (b <| _unresolved_blocked_until := None |>, (false, 0))
                    else (b, (true, retry_after u now))
        end
    | Some s =>
        if _is_exempt (exempt_networks c) s then (b, (false, 0))
        else
          let key := normalize_ip_bucket s in
          match _blocked_until b !! key with
          | None => (b, (false, 0))
          | Some u => if bool_decide (u <= now)%Q then (b <| _blocked_until := delete key (_blocked_until b) |>, (false, 0))
                      else (b, (true, retry_after u now))
          end
    end.

(** The branch of [record_auth_failure] without a resolved source. *)
Definition record_unresolved (c : block_settings) (b : blocklist) (now : Q) : blocklist * bool :=
  let b := b <| _unresolved_failures :=
                  drop_before (now - inject_Z (unresolved_window_sec c)) (_unresolved_failures b) |> in
  if match _unresolved_blocked_until b with Some u => bool_decide (now < u)%Q | None => false end then (b, false)
  else
    let l := _unresolved_failures b ++ [now] in
    if bool_decide (unresolved_threshold c <= Z.of_nat (length l)) then
      (b <| _unresolved_blocked_until := Some (now + inject_Z (unresolved_duration_sec c))%Q |>
         <| _unresolved_failures := [] |>, true)
    else (b <| _unresolved_failures := l |>, false).

(** [record_auth_failure] *)
Definition record_auth_failure (c : block_settings) (b : blocklist) (ip : option source) (now : Q) :
    blocklist * bool :=
  if negb (auth_failure_block_enabled c) then (b, false)
  else
    match ip with
    | None => record_unresolved c b now
    | Some s =>
        if _is_exempt (exempt_networks c) s then (b, false)
        else
          let key := normalize_ip_bucket s in
          let b := b <| _sweep_counter := _sweep_counter b + 1 |> in
          let b := if bool_decide (_SWEEP_EVERY <= _sweep_counter b)
                   then _sweep_inactive c (b <| _sweep_counter := 0 |>) now (auth_failure_block_window_sec c)
                   else b in
          if match _blocked_until b !! key with Some u => bool_decide (now < u)%Q | None => false end then (b, false)
          else
            let l := drop_before (now - inject_Z (auth_failure_block_window_sec c))
                       (default [] (_failures b !! key)) ++ [now] in
            if bool_decide (auth_failure_block_threshold c <= Z.of_nat (length l)) then
              (b <| _blocked_until := <[key := (now + inject_Z (auth_failure_block_duration_sec c))%Q]> (_blocked_until b) |>
                 <| _failures := delete key (_failures b) |>, true)
            else (b <| _failures := <[key := l]> (_failures b) |>, false)
    end.

(** [ActiveBlock], less the wait that [retry_after] derives. *)
Record active_block : Type := ActiveBlock { ip_bucket : source; blocked_until : Q }.

#[export] Instance longest_first_dec : RelDecision (fun x y => (blocked_until y <= blocked_until x)%Q).
Proof. intros x y. apply _. Defined.

(** [list_active_blocks], longest wait first; equal deadlines, which the code orders
    by the bucket's text, stay in the table's order. *)
Definition list_active_blocks (c : block_settings) (b : blocklist) (now : Q) : blocklist * list active_block :=
  if negb (auth_failure_block_enabled c) then (b, [])
  else
    let b := b <| _unresolved_blocked_until :=
                    match _unresolved_blocked_until b with
                    | Some u => if bool_decide (u <= now)%Q then None else Some u
                    | None => None
                    end |>
               <| _blocked_until := filter (fun p => ~ (p.2 <= now)%Q) (_blocked_until b) |> in
    (b, merge_sort (fun x y => (blocked_until y <= blocked_until x)%Q)
          (from_option (fun u => [ActiveBlock (Other "unresolved-global") u]) [] (_unresolved_blocked_until b) ++
           ((fun p => ActiveBlock p.1 p.2) <$> map_to_list (_blocked_until b)))).

(** [clear_block] *)
Definition clear_block (c : block_settings) (b : blocklist) (ip : source) (now : Q) : blocklist * bool :=
  if negb (auth_failure_block_enabled c) then (b, false)
  else
    let key := normalize_ip_bucket ip in
    let lifted until := match until with Some u => bool_decide (now < u)%Q | None => false end in
    if decide (key = Other "unresolved-global") then
      (b <| _unresolved_blocked_until := None |> <| _unresolved_failures := [] |>, lifted (_unresolved_blocked_until b))
    else
      (b <| _blocked_until := delete key (_blocked_until b) |> <| _failures := delete key (_failures b) |>,
       lifted (_blocked_until b !! key)).

(** ** Histories *)

Inductive block_op : Type :=
| OpAsk (ip : option source) (at_ : Q)
| OpFail (ip : option source) (at_ : Q)
| OpList (at_ : Q)
| OpClear (ip : source) (at_ : Q).

Definition op_time (o : block_op) : Q :=
  match o with OpAsk _ t | OpFail _ t | OpList t | OpClear _ t => t end.

Definition block_step (c : block_settings) (b : blocklist) (o : block_op) : blocklist :=
  match o with
  | OpAsk ip t => (is_ip_blocked c b ip t).1
  | OpFail ip t => (record_auth_failure c b ip t).1
  | OpList t => (list_active_blocks c b t).1
  | OpClear ip t => (clear_block c b ip t).1
  end.

(** ** One bucket on its own

    What the tracker promises about a bucket ([None] is the budget of unresolved
    sources), read off its own failures and clearances alone: every failure since the
    last block or clearance is remembered, and the deadline of the last block. *)

Record bucket_state : Type := BucketState { bs_failures : list Q; bs_until : option Q }.

(** A deadline that has not passed. *)
Definition live (until : option Q) (now : Q) : option Q :=
  match until with
  | Some u => if decide (now < u)%Q then Some u else None
  | None => None
  end.

Section bucket.
Context (c : block_settings).

(** The bucket of a source that is not exempt. *)
Definition bucket_of (ip : option source) : option (option source) :=
  match ip with
  | None => Some None
  | Some s => if _is_exempt (exempt_networks c) s then None else Some (Some (normalize_ip_bucket s))
  end.
Definition cleared_bucket (ip : source) : option source :=
  let key := normalize_ip_bucket ip in if decide (key = Other "unresolved-global") then None else Some key.

Definition threshold (k : option source) : Z :=
  match k with Some _ => auth_failure_block_threshold c | None => unresolved_threshold c end.
Definition window_sec (k : option source) : Q :=
  inject_Z match k with Some _ => auth_failure_block_window_sec c | None => unresolved_window_sec c end.
Definition duration_sec (k : option source) : Q :=
  inject_Z match k with Some _ => auth_failure_block_duration_sec c | None => unresolved_duration_sec c end.

(** The operations about a bucket: its failures and its clearances. *)
Definition about (k : option source) (o : block_op) : Prop :=
  match o with
  | OpFail ip _ => bucket_of ip = Some k
  | OpClear ip _ => cleared_bucket ip = k
  | OpAsk _ _ | OpList _ => False
  end.
#[export] Instance about_dec k o : Decision (about k o).
Proof. destruct o; simpl; apply _. Defined.

Definition bucket_step (k : option source) (st : bucket_state) (o : block_op) : bucket_state :=
  match o with
  | OpFail _ t =>
      match live (bs_until st) t with
      | Some _ => st
      | None =>
          let l := bs_failures st ++ [t] in
          if decide (threshold k <= Z.of_nat (length (filter (fun t' => (t - window_sec k <= t')%Q) l)))
          then BucketState [] (Some (t + duration_sec k)%Q)
          else BucketState l (bs_until st)
      end
  | OpClear _ _ => BucketState [] None
  | OpAsk _ _ | OpList _ => st
  end.

Definition bucket_history (k : option source) (ops : list block_op) : bucket_state :=
  fold_left (bucket_step k) (filter (about k) ops) (BucketState [] None).

(** When the failures of a bucket were recorded. *)
Definition failure_time (o : block_op) : option Q := match o with OpFail _ t => Some t | _ => None end.
Definition failure_times (k : option source) (ops : list block_op) : list Q :=
  omap failure_time (filter (about k) ops).
End bucket.

(** ** The tracker is its buckets *)

Lemma drop_before_twice c1 c2 l r :
  (c1 <= c2)%Q -> drop_before c2 (drop_before c1 l ++ r) = drop_before c2 (l ++ r).
Proof.
  intros Hc. induction l as [|t l IH]; [done|]. cbn [drop_before].
  case_bool_decide as Ht; [|done]. rewrite IH. cbn [app drop_before]. by rewrite bool_decide_true by lra.
Qed.

Lemma drop_before_filter cutoff l :
  StronglySorted Qle l -> drop_before cutoff l = filter (fun t => (cutoff <= t)%Q) l.
Proof.
  induction 1 as [|t l Hs IH Hf]; [done|]. cbn [drop_before]. rewrite filter_cons.
  case_bool_decide as Ht.
  - rewrite decide_False by lra. done.
  - rewrite decide_True by lra. f_equal. symmetry. apply filter_every.
    rewrite Forall_forall in Hf. intros x Hx%Hf. simpl in Hx. lra.
Qed.

Lemma live_some until now u : live until now = Some u <-> until = Some u /\ (now < u)%Q.
Proof. unfold live. destruct until as [v|]; [|naive_solver]. case_decide; naive_solver. Qed.

Lemma live_none until now : live until now = None <-> forall u, until = Some u -> (u <= now)%Q.
Proof.
  unfold live. destruct until as [v|]; [|naive_solver].
  case_decide; split; try naive_solver; intros; [exfalso; pose proof (H0 v eq_refl); lra|simplify_eq; lra].
Qed.

Section tracks.
Context (c : block_settings).
Implicit Types (b : blocklist) (k : option source) (st : bucket_state).

(** What the tables hold of a bucket. *)
Definition stored_until b k : option Q :=
  match k with Some s => _blocked_until b !! s | None => _unresolved_blocked_until b end.
Definition stored_failures b k : list Q :=
  match k with Some s => default [] (_failures b !! s) | None => _unresolved_failures b end.

(** Two deadlines, and two lists of failures, that nobody can tell apart from an
    instant on. *)
Definition same_until (t : Q) (u u' : option Q) : Prop := forall t', (t <= t')%Q -> live u t' = live u' t'.
Definition same_failures k (t : Q) (l l' : list Q) : Prop :=
  forall t', (t <= t')%Q -> drop_before (t' - window_sec c k) l = drop_before (t' - window_sec c k) l'.

(** Nothing that matters about a bucket changes. *)
Definition settled k (t : Q) b b' : Prop :=
  same_until t (stored_until b' k) (stored_until b k) /\
  same_failures k t (stored_failures b' k) (stored_failures b k).

Record tracks b k st (t : Q) : Prop := {
  tr_until : same_until t (stored_until b k) (bs_until st);
  tr_failures : same_failures k t (stored_failures b k) (bs_failures st);
  tr_sorted : StronglySorted Qle (bs_failures st);
  tr_past : Forall (fun t' => t' <= t)%Q (bs_failures st)
}.

Lemma settled_refl k t b : settled k t b b.
Proof. split; by intros ??. Qed.

Lemma settled_trans k t b1 b2 b3 : settled k t b1 b2 -> settled k t b2 b3 -> settled k t b1 b3.
Proof. intros [U1 F1] [U2 F2]. split; intros t' Ht; [rewrite U2, U1|rewrite F2, F1]; done. Qed.

Lemma tracks_settled b b' k st t t' : tracks b k st t -> (t <= t')%Q -> settled k t' b b' -> tracks b' k st t'.
Proof.
  intros [U F S P] Ht [U' F']. split; [| |done|].
  - intros t1 H1. rewrite U' by done. apply U. lra.
  - intros t1 H1. rewrite F' by done. apply F. lra.
  - eapply Forall_impl; [exact P|]. simpl. intros x Hx. lra.
Qed.

(** A lapsed deadline may be forgotten. *)
Lemma lapsed_until (t : Q) u : same_until t (if bool_decide (u <= t)%Q then None else Some u) (Some u).
Proof. intros t' Ht. case_bool_decide; [|done]. simpl. by rewrite decide_False by lra. Qed.

Lemma pruned_failures k t t0 l : (t0 <= t)%Q -> same_failures k t (drop_before (t0 - window_sec c k) l) l.
Proof.
  intros Ht t' Ht'. rewrite <- (app_nil_r (drop_before (t0 - _) l)), drop_before_twice by lra.
  by rewrite app_nil_r.
Qed.

(** The blocks of the table that have not lapsed. *)
Lemma kept_until (m : gmap source Q) s t :
  same_until t (filter (fun p => ~ (p.2 <= t)%Q) m !! s) (m !! s).
Proof.
  rewrite map_lookup_filter. destruct (m !! s) as [u|]; simpl; [|by intros ??].
  intros t' Ht. case_guard as Hu; simpl; [done|]. by rewrite decide_False by (simpl in Hu; lra).
Qed.

Lemma lapsed_option t u :
  same_until t (match u with Some u => if bool_decide (u <= t)%Q then None else Some u | None => None end) u.
Proof. destruct u; [apply lapsed_until|by intros ??]. Qed.

Lemma settled_sweep k t b : settled k t b (_sweep_inactive c b t (auth_failure_block_window_sec c)).
Proof.
  destruct k as [s|]; split; cbn -[drop_before live].
  - apply kept_until.
  - rewrite lookup_omap. destruct (_failures b !! s) as [l|]; cbn -[drop_before]; [|by intros ??].
    intros t' Ht. pose proof (pruned_failures (Some s) t t l ltac:(lra) t' Ht) as Hp. cbn -[drop_before] in Hp.
    by destruct (drop_before _ l).
  - apply lapsed_option.
  - apply (pruned_failures None). lra.
Qed.

Lemma settled_counter k t b n : settled k t b (b <| _sweep_counter := n |>).
Proof. destruct k; split; by intros ??. Qed.

Lemma settled_ask k t b ip : settled k t b (is_ip_blocked c b ip t).1.
Proof.
  unfold is_ip_blocked. destruct (auth_failure_block_enabled c); [|apply settled_refl]. simpl negb. cbv iota.
  destruct ip as [s|].
  - destruct (_is_exempt _ s); [apply settled_refl|]. cbv zeta.
    destruct (_blocked_until b !! normalize_ip_bucket s) as [u|] eqn:E; [|apply settled_refl].
    case_bool_decide as Hu; [|apply settled_refl]. split; [|by intros ??].
    destruct k as [s'|]; cbn -[live]; [|by intros ??]. rewrite lookup_delete. case_decide; [subst|by intros ??].
    intros t' Ht. rewrite E. simpl. by rewrite decide_False by lra.
  - destruct (_unresolved_blocked_until b) as [u|] eqn:E; [|apply settled_refl].
    case_bool_decide as Hu; [|apply settled_refl]. split; [|by intros ??].
    destruct k as [s'|]; cbn -[live]; [by intros ??|].
    intros t' Ht. rewrite E. simpl. by rewrite decide_False by lra.
Qed.

Lemma settled_list k t b : settled k t b (list_active_blocks c b t).1.
Proof.
  unfold list_active_blocks. destruct (auth_failure_block_enabled c); [|apply settled_refl].
  split; [|by intros ??]. destruct k; cbn -[live]; [apply kept_until|apply lapsed_option].
Qed.

(** The tables as a fresh bucket leaves them. *)
Lemma tracks_fresh b k t : stored_until b k = None -> stored_failures b k = [] -> tracks b k (BucketState [] None) t.
Proof. intros Hu Hf. split; [by rewrite Hu|by rewrite Hf|constructor|constructor]. Qed.

(** The bucket named like the budget of unresolved sources cannot be cleared. *)
Definition clearable k : Prop := k <> Some (Other "unresolved-global").

Lemma tracks_clear b k st t ip t' :
  auth_failure_block_enabled c = true -> clearable k -> tracks b k st t -> (t <= t')%Q ->
  tracks (clear_block c b ip t').1 k
    (if decide (about c k (OpClear ip t')) then bucket_step c k st (OpClear ip t') else st) t'.
Proof.
  intros Hen Hk Ht Htt. unfold clear_block. rewrite Hen. cbn [negb]. cbv zeta.
  destruct (decide (about c k (OpClear ip t'))) as [Hc|Hc]; cbn [about] in Hc; unfold cleared_bucket in Hc; cbv zeta in Hc.
  - case_decide; subst k; apply tracks_fresh; cbn; try done; by rewrite lookup_delete_eq.
  - apply (tracks_settled b _ _ _ t); [done..|]. case_decide; destruct k as [s|]; try done; try apply settled_refl.
    assert (normalize_ip_bucket ip <> s) by congruence.
    split; intros t1 H1; cbn -[live drop_before]; by rewrite lookup_delete_ne by done.
Qed.

(** A failure of a bucket that is not blocked: what is counted, and what is kept. *)
Lemma counted_failures b k st t t' :
  tracks b k st t -> (t <= t')%Q -> (0 <= window_sec c k)%Q ->
  drop_before (t' - window_sec c k) (stored_failures b k) ++ [t'] =
  filter (fun x => (t' - window_sec c k <= x)%Q) (bs_failures st ++ [t']).
Proof.
  intros [_ F S _] Ht Hw. rewrite F by done. rewrite drop_before_filter by done.
  rewrite filter_app. f_equal. rewrite filter_cons_True, filter_nil by lra. done.
Qed.

Lemma tracks_failure b b' k st t t' :
  tracks b k st t -> (t <= t')%Q -> (0 <= window_sec c k)%Q -> live (stored_until b k) t' = None ->
  (let l := drop_before (t' - window_sec c k) (stored_failures b k) ++ [t'] in
   if decide (threshold c k <= Z.of_nat (length l))
   then stored_until b' k = Some (t' + duration_sec c k)%Q /\ stored_failures b' k = []
   else stored_until b' k = stored_until b k /\ stored_failures b' k = l) ->
  tracks b' k (bucket_step c k st (OpFail k t')) t'.
Proof.
  intros Ht Htt Hw Hl. cbv zeta. rewrite (counted_failures b k st t) by done. cbn [bucket_step].
  pose proof Ht as [U F S P]. rewrite <- U, Hl by done. cbv zeta.
  case_decide; intros [Hu Hf]; split; cbn [bs_until bs_failures].
  - by rewrite Hu.
  - by rewrite Hf.
  - constructor.
  - constructor.
  - intros t1 H1. rewrite Hu. apply U. lra.
  - intros t1 H1. rewrite Hf, <- (counted_failures b k st t) by done.
    rewrite F by done. apply drop_before_twice. lra.
  - clear -S P Htt. induction S as [|x l S IH Hx]; simpl; [repeat constructor|].
    inversion P; subst. constructor; [by apply IH|]. apply Forall_app. split; [done|]. constructor; [lra|done].
  - apply Forall_app. split; [eapply Forall_impl; [exact P|]; simpl; intros; lra|]. constructor; [lra|done].
Qed.

Definition live_blocked (u : option Q) (t : Q) : bool :=
  match u with Some u => bool_decide (t < u)%Q | None => false end.
Lemma live_blocked_true u t : live_blocked u t = true <-> is_Some (live u t).
Proof.
  unfold live_blocked, live. destruct u as [u|]; [|split; [done|by intros [? ?]]].
  case_bool_decide; case_decide; split; try done; by intros [? ?].
Qed.
Lemma live_blocked_false u t : live_blocked u t = false <-> live u t = None.
Proof.
  rewrite <- not_true_iff_false, live_blocked_true, <- eq_None_not_Some. done.
Qed.

Lemma tracks_fail b k st t ip t' :
  auth_failure_block_enabled c = true -> (0 <= window_sec c k)%Q -> tracks b k st t -> (t <= t')%Q ->
  tracks (record_auth_failure c b ip t').1 k
    (if decide (about c k (OpFail ip t')) then bucket_step c k st (OpFail ip t') else st) t'.
Proof.
  intros Hen Hw Ht Htt. unfold record_auth_failure. rewrite Hen. cbn [negb]. cbv iota.
  destruct (decide (about c k (OpFail ip t'))) as [Ha|Ha]; cbn [about] in Ha; unfold bucket_of in Ha.
  - destruct ip as [s|]; [destruct (_is_exempt _ s) eqn:Ee; [done|]|]; injection Ha as <-.
    + change (bucket_step c ?k st (OpFail (Some s) t')) with (bucket_step c k st (OpFail k t')).
      cbv zeta. set (b1 := if bool_decide _ then _ else _).
      assert (tracks b1 (Some (normalize_ip_bucket s)) st t') as Hb1.
      { apply (tracks_settled b _ _ _ t); [done..|]. subst b1. case_bool_decide; [|apply settled_counter].
        eapply settled_trans; [|apply settled_sweep]. apply (settled_counter _ _ b). }
      clearbody b1. fold (live_blocked (_blocked_until b1 !! normalize_ip_bucket s) t').
      destruct (live_blocked _ t') eqn:El; cbn [fst].
      * apply live_blocked_true in El as [u El]. pose proof Hb1 as [U _ _ _]. specialize (U t' ltac:(lra)).
        cbn [stored_until] in U. rewrite El in U. cbn [bucket_step]. by rewrite <- U.
      * apply live_blocked_false in El. apply (tracks_failure b1 _ _ _ t'); [done|lra|done|done|]. cbv zeta.
        cbn [threshold stored_failures stored_until window_sec duration_sec]. case_decide as Hc.
        -- rewrite bool_decide_true by done. cbn. by rewrite lookup_insert_eq, lookup_delete_eq.
        -- rewrite bool_decide_false by done. cbn. by rewrite lookup_insert_eq.
    + unfold record_unresolved. cbv zeta. set (b1 := b <| _unresolved_failures := _ |>).
      assert (tracks b1 None st t') as Hb1.
      { apply (tracks_settled b _ _ _ t); [done..|]. split; [by intros ??|]. apply (pruned_failures None). lra. }
      fold (live_blocked (_unresolved_blocked_until b1) t'). destruct (live_blocked _ t') eqn:El; cbn [fst].
      * apply live_blocked_true in El as [u El]. pose proof Hb1 as [U _ _ _]. specialize (U t' ltac:(lra)).
        cbn [stored_until] in U. rewrite El in U. cbn [bucket_step]. by rewrite <- U.
      * apply live_blocked_false in El. apply (tracks_failure b1 _ None _ t'); [done|lra|done|done|]. cbv zeta.
        assert (drop_before (t' - window_sec c None) (stored_failures b1 None) = _unresolved_failures b1) as ->.
        { cbn [stored_failures]. change (_unresolved_failures b1) with
            (drop_before (t' - window_sec c None) (_unresolved_failures b)).
          rewrite <- (app_nil_r (drop_before _ (_unresolved_failures b))) at 1.
          rewrite drop_before_twice by lra. by rewrite app_nil_r. }
        cbn [threshold]. case_decide as Hc; [by rewrite bool_decide_true by done|by rewrite bool_decide_false by done].
  - apply (tracks_settled b _ _ _ t); [done..|]. destruct ip as [s|].
    + destruct (_is_exempt _ s); [apply settled_refl|]. cbv zeta. set (b1 := if bool_decide _ then _ else _).
      assert (settled k t' b b1) as Hb1.
      { subst b1. case_bool_decide; [|apply settled_counter].
        eapply settled_trans; [|apply settled_sweep]. apply (settled_counter _ _ b). }
      clearbody b1. destruct (match _blocked_until b1 !! _ with Some _ => _ | None => _ end); [done|].
      assert (Some (normalize_ip_bucket s) <> k) as Hk by congruence.
      eapply settled_trans; [exact Hb1|]. case_bool_decide; destruct k as [s'|]; try (split; by intros ??).
      * split; intros t1 H1; cbn -[live drop_before]; by rewrite ?lookup_insert_ne, ?lookup_delete_ne by congruence.
      * split; intros t1 H1; cbn -[live drop_before]; by rewrite ?lookup_insert_ne by congruence.
    + destruct k as [s'|]; [|done]. unfold record_unresolved. cbv zeta.
      destruct (match _ with Some _ => _ | None => _ end); [|case_bool_decide]; split; by intros ??.
Qed.

Lemma tracks_step b k st t o :
  auth_failure_block_enabled c = true -> (0 <= window_sec c k)%Q -> clearable k -> tracks b k st t -> (t <= op_time o)%Q ->
  tracks (block_step c b o) k (if decide (about c k o) then bucket_step c k st o else st) (op_time o).
Proof.
  intros Hen Hw Hk Ht Ho. destruct o as [ip t'|ip t'|t'|ip t']; cbn [block_step op_time] in *.
  - rewrite decide_False by (intros []). eapply tracks_settled; [done..|]. apply settled_ask.
  - by apply (tracks_fail _ _ _ t).
  - rewrite decide_False by (intros []). eapply tracks_settled; [done..|]. apply settled_list.
  - by apply (tracks_clear _ _ _ t).
Qed.

(** Over a whole history whose clock does not go back. *)
Lemma tracks_run k ops b st t now :
  auth_failure_block_enabled c = true -> (0 <= window_sec c k)%Q -> clearable k -> tracks b k st t ->
  StronglySorted Qle (t :: (op_time <$> ops) ++ [now]) ->
  tracks (fold_left (block_step c) ops b) k (fold_left (bucket_step c k) (filter (about c k) ops) st) now.
Proof.
  intros Hen Hw Hk. revert b st t. induction ops as [|o ops IH]; intros b st t Ht Hs;
    apply StronglySorted_inv in Hs as [Hs Hf]; inversion Hf as [|? ? Ho _]; subst.
  - eapply tracks_settled; [done..|]. apply settled_refl.
  - cbn [fold_left]. rewrite filter_cons. pose proof (tracks_step b k st t o Hen Hw Hk Ht Ho) as Hstep.
    specialize (IH _ _ _ Hstep Hs). by case_decide.
Qed.
End tracks.

(** ** Blocks are earned *)

Section earned.
Context (c : block_settings) (k : option source).

(** A deadline set by enough failures within one window. *)
Definition earned (times : list Q) (u : Q) : Prop :=
  exists t0 ts, u = (t0 + duration_sec c k)%Q /\ ts `sublist_of` times /\
    threshold c k <= Z.of_nat (length ts) /\ Forall (fun t => t0 - window_sec c k <= t <= t0)%Q ts.

Lemma earned_app times times' u : earned times u -> earned (times ++ times') u.
Proof.
  intros (t0 & ts & ? & Hs & ? & ?). exists t0, ts. split_and!; [done| |done..]. by apply sublist_inserts_r.
Qed.

Lemma bucket_earned l :
  StronglySorted Qle (op_time <$> l) ->
  let st := fold_left (bucket_step c k) l (BucketState [] None) in
  bs_failures st `sublist_of` omap failure_time l /\ forall u, bs_until st = Some u -> earned (omap failure_time l) u.
Proof.
  induction l as [|o l IH] using rev_ind; intros Hs; [split; [constructor|done]|]. cbv zeta.
  rewrite fold_left_app, omap_app. cbn [fold_left]. rewrite fmap_app in Hs.
  assert (StronglySorted Qle (op_time <$> l) /\ Forall (fun t => t <= op_time o)%Q (op_time <$> l)) as [Hl Hp].
  { clear IH. induction (op_time <$> l) as [|x ts IH]; [by split; constructor|]. cbn [app] in Hs.
    apply StronglySorted_inv in Hs as [Hs Hf]. destruct (IH Hs) as [H1 H2]. apply Forall_app in Hf as [Hf Ho].
    split; constructor; [done..| |done]. by inversion Ho. }
  destruct (IH Hl) as [Hf Hu]. clear IH. set (st := fold_left _ _ _) in *.
  destruct o as [ip t|ip t|t|ip t]; cbn [bucket_step]; cbn [op_time] in Hp;
    try (split; [by apply sublist_inserts_r|intros u E; by apply earned_app, Hu]).
  - change (omap failure_time [OpFail ip t]) with [t]. destruct (live _ _);
      [split; [by apply sublist_inserts_r|intros u E; by apply earned_app, Hu]|]. cbv zeta.
    assert (bs_failures st ++ [t] `sublist_of` omap failure_time l ++ [t]) as Hsub by (by apply sublist_app).
    case_decide as Hc; cbn [bs_failures bs_until].
    + split; [apply sublist_nil_l|]. intros u [= <-]. eexists t, _. split_and!; [done| |exact Hc|].
      * etrans; [apply sublist_filter|exact Hsub].
      * apply Forall_forall. intros x [Hx Hin]%list_elem_of_filter. split; [done|].
        apply elem_of_app in Hin as [Hin|Hin]; [|apply list_elem_of_singleton in Hin; subst; lra].
        rewrite Forall_forall in Hp. apply Hp. eapply elem_of_sublist in Hin; [|exact Hf].
        apply list_elem_of_omap in Hin as (o & Ho & Ho'). destruct o; simplify_eq/=. apply list_elem_of_fmap. by exists (OpFail ip0 x).
    + split; [done|]. intros u E. by apply earned_app, Hu.
  - split; [apply sublist_nil_l|done].
Qed.
End earned.

(** ** What callers are told *)

(** Clearing what a listing shows clears the bucket it names. *)
Lemma bucket_idempotent s : normalize_ip_bucket (normalize_ip_bucket s) = normalize_ip_bucket s.
Proof.
  destruct s as [| n sc | |]; [reflexivity| |reflexivity..]. cbn [normalize_ip_bucket].
  destruct (ipv4_mapped n); reflexivity.
Qed.

(** The wait a caller is told is at least a second, and less than a millisecond short. *)
Lemma retry_after_bounds until now :
  1 <= retry_after until now /\ (until - now - (1 # 1000) < inject_Z (retry_after until now))%Q.
Proof.
  unfold retry_after. set (x := (until - now + (999 # 1000))%Q). split; [lia|].
  assert (until - now - (1 # 1000) == x - 1)%Q as -> by (unfold x; ring).
  pose proof (Qlt_floor x) as Hx. apply Qlt_le_trans with (inject_Z (Qfloor x)).
  - rewrite inject_Z_plus in Hx. unfold inject_Z at 2 in Hx. lra.
  - rewrite <- Zle_Qle. lia.
Qed.

(** An exempt source is never refused. *)
Lemma exempt_not_blocked c b ip now : bucket_of c ip = None -> (is_ip_blocked c b ip now).2 = (false, 0).
Proof.
  unfold bucket_of, is_ip_blocked. destruct ip as [s|]; [|done].
  destruct (_is_exempt _ s); [|done]. by destruct (auth_failure_block_enabled c).
Qed.

Lemma ask_stored c b ip k now :
  auth_failure_block_enabled c = true -> bucket_of c ip = Some k ->
  (is_ip_blocked c b ip now).2 =
  match live (stored_until b k) now with Some u => (true, retry_after u now) | None => (false, 0) end.
Proof.
  intros Hen Hb. unfold is_ip_blocked. rewrite Hen. cbn [negb]. cbv iota.
  unfold bucket_of in Hb. destruct ip as [s|]; [destruct (_is_exempt _ s); [done|]|]; injection Hb as <-;
    cbv zeta; cbn [stored_until]; unfold live.
  - destruct (_blocked_until b !! _) as [u|]; [|done].
    case_bool_decide; [rewrite decide_False by lra|rewrite decide_True by lra]; done.
  - destruct (_unresolved_blocked_until b) as [u|]; [|done].
    case_bool_decide; [rewrite decide_False by lra|rewrite decide_True by lra]; done.
Qed.

(** C14: sources are refused exactly when they earned it.  Over every history of
    failures, questions, listings and clearances with a clock that does not go back,
    a source that is not exempt is told it is blocked exactly when its own bucket,
    read alone from its own failures and clearances, is: sweeps, lapsed entries and
    all other buckets make no difference.  A block it is told of was earned by the
    configured number of failures of that bucket within one window, and ends the
    configured duration after the last of them. *)
Theorem blocklist_exact c ops ip k now :
  auth_failure_block_enabled c = true -> (0 <= window_sec c k)%Q -> bucket_of c ip = Some k -> clearable k ->
  StronglySorted Qle ((op_time <$> ops) ++ [now]) ->
  (is_ip_blocked c (fold_left (block_step c) ops new_blocklist) ip now).2 =
    match live (bs_until (bucket_history c k ops)) now with
    | Some u => (true, retry_after u now)
    | None => (false, 0)
    end /\
  (forall u, live (bs_until (bucket_history c k ops)) now = Some u -> earned c k (failure_times c k ops) u).
Proof.
  intros Hen Hw Hb Hk Hs. split.
  - rewrite (ask_stored c _ ip k) by done. set (t := default now (head (op_time <$> ops))).
    assert (StronglySorted Qle (t :: (op_time <$> ops) ++ [now])) as Hs'.
    { subst t. constructor; [done|]. destruct (op_time <$> ops) as [|x l]; cbn in *; [constructor; [lra|done]|].
      apply StronglySorted_inv in Hs as [_ Hf]. constructor; [lra|done]. }
    pose proof (tracks_run c k ops new_blocklist (BucketState [] None) t now Hen Hw Hk) as Hr.
    rewrite (tr_until _ _ _ _ _ (Hr ltac:(by apply tracks_fresh; destruct k) Hs')) by lra. done.
  - intros u [Hu _]%live_some. apply (bucket_earned c k (filter (about c k) ops)); [|done].
    clear -Hs. assert (StronglySorted Qle (op_time <$> ops)) as H.
    { induction (op_time <$> ops) as [|x l IH]; [constructor|]. cbn [app] in Hs. apply StronglySorted_inv in Hs as [Hs Hf].
      constructor; [by apply IH|]. by apply Forall_app in Hf as [? _]. }
    clear Hs. induction ops as [|o ops IH]; [constructor|]. apply StronglySorted_inv in H as [H Hf].
    rewrite filter_cons. case_decide; [|by apply IH]. constructor; [by apply IH|].
    eapply Forall_impl; [|intros x Hx; exact Hx]. rewrite Forall_forall in *. intros x Hx. apply Hf.
    apply list_elem_of_fmap in Hx as (y & -> & Hy). apply list_elem_of_fmap. exists y. split; [done|].
    by apply list_elem_of_filter in Hy as [_ ?].
Qed.

(** ** A source that rotates its addresses *)

Definition sample_settings : block_settings := BlockSettings true 2 60 600 3 60 60 [Network4 (10 * 2 ^ 24) 8].
Definition sample_source (host : Z) : option source := Some (V6 (Z.lor (Z.shiftl 2306139568115548160 64) host) None).
Definition sample_blocks : list block_op :=
  [OpFail (sample_source 1) 0; OpFail (Some (V4 (10 * 2 ^ 24 + 5))) 5; OpAsk (sample_source 7) 6;
   OpFail (sample_source 2) 30; OpFail (sample_source 3) 40].

Lemma blocklist_exact_witness :
  (is_ip_blocked sample_settings (fold_left (block_step sample_settings) sample_blocks new_blocklist)
     (sample_source 9) 100).2 = (true, 530).
Proof.
  destruct (blocklist_exact sample_settings sample_blocks (sample_source 9) (Some (Net6 2306139568115548160 None)) 100)
    as [-> _].
  - reflexivity.
  - by vm_compute.
  - vm_compute. reflexivity.
  - discriminate.
  - repeat constructor; cbn; lra.
  - vm_compute. reflexivity.
Defined.
