(* ===== verification/KeyAuth.v ===== *)
(** Authenticating a caller by API key: [serving/servers/auth.py] over the rows of
    [serving/storage/postgres_operational.py], for a live request ([verify_api_key],
    its grant branch being [GrantAccess]'s) and for work stored under a key
    ([authenticate_stored_key]).

    A request may read the store several times and the store may change in between:
    each read sees a snapshot of its own, or fails.  What the reads of the runtime
    settings answer is part of the configuration. *)

From S2P Require Import Prelude PyText UsageLimit KeyPool Quota SpendLedger UserAdmission.
From S2P Require Import GrantToken VersionedCache ModelAccess GrantAccess AuthBlocklist.

Local Open Scope Z_scope.
Local Open Scope result_scope.

(** ** The rows *)

(** A row of [api_keys], by its hash. *)
Record key_row : Type := KeyRow {
  k_id : Z;
  k_user : string;
  k_user_name : option string;
  k_status : string;
  k_expires_at : option datetime_us;
  k_quota_daily : option Q;
  k_quota_monthly : option Q;
  k_budget_daily : option Q;
  k_budget_monthly : option Q;
  k_allowed_models : option (list chars)
}.

(** A row of [users]. *)
Record user_row : Type := UserRow {
  us_status : string;
  us_role : option string;
  us_name : option string;
  us_email : option string;
  us_email_verified : bool;
  us_login_name : option string;
  us_phone : option string;
  us_phone_verified : bool;
  us_preferences : option json;
  us_max_concurrent : option Z
}.

(** The tables at one instant; costs are per day, [db_day] is today's. *)
Record auth_db : Type := AuthDb {
  db_now : datetime_us;
  db_day : string;
  api_keys : gmap chars key_row;
  users : gmap string user_row;
  user_daily_cost : gmap (string * string) Q;
  api_key_daily_cost : gmap (Z * string) Q
}.

(** The sum of a counter's rows from the first of the month on. *)
Definition month_cost `{Countable K} (costs : gmap (K * string) Q) (who : K) (day : string) : Q :=
  map_fold (fun p cost total =>
      if bool_decide (p.1 = who) && String.leb (String.substring 0 7 day +:+ "-01") p.2 then (cost + total)%Q else total)
    0%Q costs.

(** [get_user_cost_today] *)
Definition get_user_cost_today (db : auth_db) (uid : string) : Q := default 0%Q (user_daily_cost db !! (uid, db_day db)).

(** [get_user_cost_period(uid, "month")] *)
Definition get_user_cost_month (db : auth_db) (uid : string) : Q := month_cost (user_daily_cost db) uid (db_day db).

(** [get_key_spend] *)
Definition get_key_spend (db : auth_db) (key : Z) : Q * Q :=
  (default 0%Q (api_key_daily_cost db !! (key, db_day db)), month_cost (api_key_daily_cost db) key (db_day db)).

(** Who a request is attributed to: the columns the checks and the context read.
    The spend columns come with one of the two lookups only. *)
Record identity : Type := Identity {
  id_user : string;
  id_name : option string;
  id_role : option string;
  id_quota_daily : option Q;
  id_quota_monthly : option Q;
  id_budget_daily : option Q;
  id_budget_monthly : option Q;
  id_key_spent : option (Q * Q);
  id_month_spent : option Q;
  id_preferences : option json;
  id_max_concurrent : option Z;
  id_allowed_models : option (list chars)
}.

(** An auth-context row: the key's id, the identity, and the account's own columns. *)
Record auth_row : Type := AuthRow { row_key : Z; row_identity : identity; row_user : user_row }.

(** The filters every lookup applies: an active, unexpired key of an active user. *)
Definition live_key (db : auth_db) (hash : chars) : option (key_row * user_row) :=
  k ← api_keys db !! hash;
  u ← users db !! k_user k;
  if bool_decide (k_status k = "active"%string) &&
     match k_expires_at k with None => true | Some e => bool_decide (db_now db < e) end &&
     bool_decide (us_status u = "active"%string)
  then Some (k, u) else None.

Definition auth_row_of (k : key_row) (u : user_row) (key_spent : option (Q * Q)) (month : option Q) : auth_row :=
  AuthRow (k_id k)
    (Identity (k_user k) (k_user_name k) (us_role u) (k_quota_daily k) (k_quota_monthly k) (k_budget_daily k)
       (k_budget_monthly k) key_spent month (us_preferences u) (us_max_concurrent u) (k_allowed_models k)) u.

(** [get_auth_context_by_key_hash] *)
Definition get_auth_context_by_key_hash (db : auth_db) (hash : chars) : option auth_row :=
  (fun x => auth_row_of x.1 x.2 None None) <$> live_key db hash.

(** [get_auth_context_with_spend]: the row, and the day's cost of its owner.  The sums
    of a key without a budget, and of an account without a monthly quota, are empty. *)
Definition get_auth_context_with_spend (db : auth_db) (hash : chars) : option (auth_row * Q) :=
  (fun x =>
     let '(k, u) := x in
     let key_spent := match k_budget_daily k, k_budget_monthly k with
                      | None, None => (0%Q, 0%Q)
                      | _, _ => get_key_spend db (k_id k)
                      end in
     let month := match k_quota_monthly k with Some _ => get_user_cost_month db (k_user k) | None => 0%Q end in
     (auth_row_of k u (Some key_spent) (Some month), get_user_cost_today db (k_user k))) <$> live_key db hash.

(** ** Configuration, requests and answers *)

Record auth_config : Type := AuthConfig {
  user_auth_enabled : bool;
  api_key_secret : list N;
  rag_api_key : chars;
  require_verification : bool;
  blocking : block_settings
}.

Record auth_request : Type := AuthRequest {
  aq_path : chars;
  aq_ip : option source;
  aq_authorization : option chars;
  aq_x_api_key : option chars;
  aq_on_behalf_of : option string
}.

(** The clock readings of a request; [today] is the ledger's day. *)
Record clocks : Type := Clocks {
  t_ask : Q;
  t_failure : Q;
  t_spend_read : Q;
  t_refusal : Q;
  t_touch : Q;
  today : string
}.

(** What each read of the store sees; [None] is a read that raised. *)
Record snapshots : Type := Snapshots {
  at_lookup : option auth_db;
  at_target : option auth_db;
  at_day : option auth_db;
  at_key : option auth_db;
  at_month : option auth_db
}.

(** What the process keeps: the blocklist, the ledger and when each key's
    [last_used_at] was last written. *)
Record auth_state : Type := AuthState {
  au_blocks : blocklist;
  au_ledger : ledger;
  au_touched : gmap Z Q
}.
#[export] Instance eta_auth_state : Eta auth_state := fun s => AuthState (au_blocks s) (au_ledger s) (au_touched s).

(** How an authentication fails. *)
Inductive auth_error : Type :=
| IpBlocked (retry : Z)                  (* 429 *)
| MissingKey                             (* 401 *)
| InvalidKey                             (* 401 *)
| NotVerified                            (* 403 *)
| NoDatabase                             (* 503 *)
| SecretUnset                            (* ValueError *)
| StoreFailed                            (* whatever the store raised *)
| BudgetExceeded (r : budget_refusal)    (* 429 *)
| GrantRefused (e : agent_error).

(** The user context of a key. *)
Record key_ctx : Type := KeyCtx {
  kc_user : user;
  kc_name : option string;
  kc_access : user_ctx;
  kc_authenticated : bool;
  kc_quota_daily : Q;
  kc_spent_today : Q;
  kc_key_hash : option chars;
  kc_api_key_id : option Z;
  kc_check : option spend_check
}.

Inductive auth_context : Type :=
| KeyContext (c : key_ctx)
| GrantContext (c : grant_ctx).

(** ** Keys *)

(** [str.encode()] *)
Definition utf8 (c : N) : list N :=
  (if c <? 128 then [c]
   else if c <? 2048 then [192 + c / 64; 128 + c mod 64]
   else if c <? 65536 then [224 + c / 4096; 128 + c / 64 mod 64; 128 + c mod 64]
   else [240 + c / 262144; 128 + c / 4096 mod 64; 128 + c / 64 mod 64; 128 + c mod 64])%N.

(** [hexdigest] *)
Definition hexdigest (l : list N) : chars := l ≫= fun b => [hex_digit (b / 16); hex_digit (b mod 16)]%N.

(** [_extract_api_key] *)
Definition _extract_api_key (authorization x_api_key : option chars) : option chars :=
  match authorization with
  | Some a => if is_prefix (chars_of "Bearer ") a then Some (drop 7 a)
              else match x_api_key with Some [] => None | x => x end
  | None => match x_api_key with Some [] => None | x => x end
  end.

Definition LAST_USED_DEBOUNCE_SECONDS : Q := 60.
Definition _LAST_USED_SWEEP_AT : Z := 4096.

(** [touch_key_last_used]: the table, and whether a write was scheduled. *)
Definition touch_key_last_used (written : gmap Z Q) (key : Z) (now : Q) : gmap Z Q * bool :=
  if match written !! key with
     | Some last => bool_decide (now - last < LAST_USED_DEBOUNCE_SECONDS)%Q
     | None => false
     end then (written, false)
  else
    let written := if bool_decide (_LAST_USED_SWEEP_AT <= Z.of_nat (size written))
                   then filter (fun p => ~ (LAST_USED_DEBOUNCE_SECONDS <= now - p.2)%Q) written else written in
    (<[key := now]> written, true).

(** [phone_identity_unverified]; a string column that is empty counts as absent. *)
Definition phone_identity_unverified (u : user_row) : bool :=
  match truthy (us_email u), truthy (us_login_name u), truthy (us_phone u) with
  | None, None, Some _ => negb (us_phone_verified u)
  | None, None, None => true
  | _, _, _ => false
  end.

(** [_verification_pending] *)
Definition _verification_pending (c : auth_config) (u : user_row) : bool :=
  (require_verification c && bool_decide (is_Some (truthy (us_email u))) && negb (us_email_verified u)) ||
  phone_identity_unverified u.

(** [_daily_quota_usd] *)
Definition _daily_quota_usd (i : identity) : Q := resolve_quota (id_quota_daily i).

Definition read_store {A} (s : option auth_db) (f : auth_db -> A) : result auth_error A :=
  match s with Some db => Ok (f db) | None => Raise StoreFailed end.

(** [_spend_check] *)
Definition _spend_check (i : identity) (api_key_id : option Z) (sn : snapshots) (quota spent_today read_at : Q) :
    result auth_error spend_check :=
  let daily := match api_key_id with Some _ => id_budget_daily i | None => None end in
  let monthly := match api_key_id with Some _ => id_budget_monthly i | None => None end in
  try! key_spent <-
    match daily, monthly, api_key_id with
    | None, None, _ | _, _, None => Ok (0%Q, 0%Q)
    | _, _, Some key =>
        match id_key_spent i with
        | Some s => Ok s
        | None => read_store (at_key sn) (fun db => get_key_spend db key)
        end
    end ;;
  try! month <-
    match id_quota_monthly i with
    | None => Ok 0%Q
    | Some _ => match id_month_spent i with
                | Some m => Ok m
                | None => read_store (at_month sn) (fun db => get_user_cost_month db (id_user i))
                end
    end ;;
  Ok (SpendCheck (id_user i) api_key_id read_at (Limits quota (id_quota_monthly i) daily monthly)
        (Spent spent_today month key_spent.1 key_spent.2)).

(** [_anonymous_context] *)
Definition _anonymous_context : key_ctx :=
  KeyCtx (User "anonymous" (Some "admin"%string) true None) None (UserCtx (Some "admin"%string) [] None None) false 0 0
    None None None.

(** [reads_every_owner] *)
Definition reads_every_owner (c : key_ctx) : bool :=
  kc_authenticated c && has_role (role_of (kc_user c)) "admin".

(** [_user_context], with the spend check the caller adds. *)
Definition _user_context (i : identity) (hash : chars) (api_key_id : option Z) (quota spent_today : Q)
    (check : option spend_check) : key_ctx :=
  let role := default "free"%string (truthy (id_role i)) in
  KeyCtx (User (id_user i) (Some role) (bool_decide (role = "admin"%string)) (id_max_concurrent i)) (id_name i)
    (UserCtx (Some role) (get_disabled_models_from_preferences (id_preferences i))
       (match api_key_id with Some _ => id_allowed_models i | None => None end) None)
    true quota spent_today (Some hash) api_key_id check.

(** [_auth_context_with_spend] of a real store. *)
Definition _auth_context_with_spend (s : option auth_db) (hash : chars) (want_spend : bool) :
    result auth_error (option (auth_row * option Q)) :=
  read_store s (fun db =>
    if want_spend then (fun x => (x.1, Some x.2)) <$> get_auth_context_with_spend db hash
    else (fun r => (r, None)) <$> get_auth_context_by_key_hash db hash).

Section auth.
Context `{Digests}.

(** [hash_api_key] *)
Definition hash_api_key (c : auth_config) (key : chars) : option chars :=
  match api_key_secret c with
  | [] => None
  | secret => Some (hexdigest (hmac_sha256 secret (key ≫= utf8)))
  end.

(** ** A live request *)

(** [_authenticate_by_api_key] *)
Definition _authenticate_by_api_key (c : auth_config) (st : auth_state) (rq : auth_request) (ck : clocks)
    (store : option snapshots) (want_spend : bool) :
    auth_state * result auth_error (auth_row * chars * option Q) :=
  let '(blocks, (blocked, retry)) := is_ip_blocked (blocking c) (au_blocks st) (aq_ip rq) (t_ask ck) in
  let st := st <| au_blocks := blocks |> in
  let failed e := (st <| au_blocks := (record_auth_failure (blocking c) (au_blocks st) (aq_ip rq) (t_failure ck)).1 |>,
                   Raise e) in
  if blocked then (st, Raise (IpBlocked retry))
  else
    match _extract_api_key (aq_authorization rq) (aq_x_api_key rq) with
    | None | Some [] => failed MissingKey
    | Some key =>
        match store with
        | None => (st, Raise NoDatabase)
        | Some sn =>
            match hash_api_key c key with
            | None => (st, Raise SecretUnset)
            | Some hash =>
                match _auth_context_with_spend (at_lookup sn) hash want_spend with
                | Raise e => (st, Raise e)
                | Ok None => failed InvalidKey
                | Ok (Some (row, spend)) =>
                    if _verification_pending c (row_user row) then (st, Raise NotVerified)
                    else (st, Ok (row, hash, spend))
                end
            end
        end
    end.

(** [_impersonation_service_key_hashes] *)
Definition _impersonation_service_key_hashes (c : auth_config) : list chars :=
  match strip (rag_api_key c) with
  | [] => []
  | key => match hash_api_key c key with Some h => [h] | None => [] end
  end.

(** [_resolve_effective_identity]; [None] is the caller itself. *)
Definition _resolve_effective_identity (c : auth_config) (hash : chars) (on_behalf_of : option string)
    (s : option auth_db) : result auth_error (option identity) :=
  match truthy on_behalf_of with
  | None => Ok None
  | Some uid =>
      if bool_decide (hash ∈ _impersonation_service_key_hashes c) then
        try! target <- read_store s (fun db => users db !! uid) ;;
        Ok match target with
           | Some u => if bool_decide (us_status u = "active"%string)
                       then Some (Identity uid (us_name u) (us_role u) None None None None None None (us_preferences u)
                                    (us_max_concurrent u) None)
                       else None
           | None => None
           end
      else Ok None
  end.

(** The rest of [verify_api_key] for a key that authenticated. *)
Definition admit_caller (c : auth_config) (st : auth_state) (rq : auth_request) (ck : clocks) (sn : snapshots)
    (row : auth_row) (hash : chars) (spend : option Q) : auth_state * result auth_error key_ctx :=
  match _resolve_effective_identity c hash (aq_on_behalf_of rq) (at_target sn) with
  | Raise e => (st, Raise e)
  | Ok target =>
      let i := default (row_identity row) target in
      let api_key_id := match target with Some _ => None | None => Some (row_key row) end in
      let checked :=
        try! cost <- match spend with
                     | Some s => Ok s
                     | None => read_store (at_day sn) (fun db => get_user_cost_today db (id_user i))
                     end ;;
        try! check <- _spend_check i api_key_id sn (_daily_quota_usd i) cost (t_spend_read ck) ;;
        Ok (cost, check) in
      match checked with
      | Raise e => (st, Raise e)
      | Ok (cost, check) =>
          let '(l, refusal) := ledger_refusal (au_ledger st) (today ck) (t_refusal ck) check in
          let st := st <| au_ledger := l |> in
          match refusal with
          | Some r => (st, Raise (BudgetExceeded r))
          | None =>
              (st <| au_touched := (touch_key_last_used (au_touched st) (row_key row) (t_touch ck)).1 |>,
               Ok (_user_context i hash api_key_id (_daily_quota_usd i) cost (Some check)))
          end
      end
  end.

(** What the grant branch is given. *)
Record grant_env : Type := GrantEnv {
  ge_secret : list N;
  ge_store : option grant_store;
  ge_reads : reads;
  ge_now : datetime_us
}.

(** [verify_api_key] *)
Definition verify_api_key (c : auth_config) (st : auth_state) (rq : auth_request) (ck : clocks)
    (store : option snapshots) (ge : grant_env) : auth_state * result auth_error auth_context :=
  let presented := default [] (_extract_api_key (aq_authorization rq) (aq_x_api_key rq)) in
  match verify_grant_key (ge_secret ge) (ge_store ge) (au_ledger st) (aq_path rq) presented (ge_reads ge) (ge_now ge)
          (today ck) (t_refusal ck) (t_spend_read ck) with
  | Some (l, r) =>
      (st <| au_ledger := l |>, match r with Ok g => Ok (GrantContext g) | Raise e => Raise (GrantRefused e) end)
  | None =>
      if negb (user_auth_enabled c) then (st, Ok (KeyContext _anonymous_context))
      else
        let want_spend := negb (bool_decide (is_Some (truthy (aq_on_behalf_of rq)))) in
        let '(st, a) := _authenticate_by_api_key c st rq ck store want_spend in
        match a, store with
        | Raise e, _ => (st, Raise e)
        | Ok _, None => (st, Raise NoDatabase)
        | Ok (row, hash, spend), Some sn =>
            let '(st, r) := admit_caller c st rq ck sn row hash spend in
            (st, match r with Ok x => Ok (KeyContext x) | Raise e => Raise e end)
        end
  end.

(** ** Stored work *)

Inductive stored_error : Type :=
| StoredKeyRejected
| StoredKeyQuotaExceeded (r : budget_refusal)
| StoredUnknown.                         (* no store to ask, or it raised *)

(** [authenticate_stored_key]; the ledger forgets what it no longer needs. *)
Definition authenticate_stored_key (c : auth_config) (l : ledger) (hash : option chars) (ck : clocks)
    (store : option snapshots) (check_quota : bool) : ledger * result stored_error key_ctx :=
  if negb (user_auth_enabled c) then (l, Ok _anonymous_context)
  else
    match hash, store with
    | None, _ => (l, Raise StoredKeyRejected)
    | Some _, None => (l, Raise StoredUnknown)
    | Some hash, Some sn =>
        match _auth_context_with_spend (at_lookup sn) hash true with
        | Raise _ => (l, Raise StoredUnknown)
        | Ok None => (l, Raise StoredKeyRejected)
        | Ok (Some (row, spend)) =>
            if _verification_pending c (row_user row) then (l, Raise StoredKeyRejected)
            else
              let i := row_identity row in
              let cost := default 0%Q spend in
              let context check :=
                Ok (_user_context i hash (Some (row_key row)) (_daily_quota_usd i) cost check) in
              if negb check_quota then (l, context None)
              else
                match _spend_check i (Some (row_key row)) sn (_daily_quota_usd i) cost (t_spend_read ck) with
                | Raise _ => (l, Raise StoredUnknown)
                | Ok check =>
                    match ledger_refusal l (today ck) (t_refusal ck) check with
                    | (l, Some r) => (l, Raise (StoredKeyQuotaExceeded r))
                    | (l, None) => (l, context (Some check))
                    end
                end
        end
    end.
End auth.

(** ** What a context proves *)

Lemma live_key_some db hash k u :
  live_key db hash = Some (k, u) <->
  api_keys db !! hash = Some k /\ users db !! k_user k = Some u /\ k_status k = "active"%string /\
  (forall e, k_expires_at k = Some e -> db_now db < e) /\ us_status u = "active"%string.
Proof.
  unfold live_key. destruct (api_keys db !! hash) as [k'|]; cbn [mbind option_bind]; [|naive_solver].
  destruct (users db !! k_user k') as [u'|] eqn:Eu; cbn [mbind option_bind]; [|naive_solver].
  destruct (bool_decide (k_status k' = _)) eqn:Es; simpl; [|apply bool_decide_eq_false in Es; naive_solver].
  apply bool_decide_eq_true in Es.
  destruct (bool_decide (us_status u' = _)) eqn:Et;
    [apply bool_decide_eq_true in Et|apply bool_decide_eq_false in Et; rewrite andb_false_r; naive_solver].
  rewrite andb_true_r. destruct (k_expires_at k') as [e|] eqn:Ee; [|naive_solver].
  case_bool_decide; split; naive_solver.
Qed.

(** Both lookups find the same rows. *)
Lemma auth_context_rows s hash want row spend :
  _auth_context_with_spend s hash want = Ok (Some (row, spend)) ->
  exists db k u, s = Some db /\ live_key db hash = Some (k, u) /\ row_key row = k_id k /\ row_user row = u /\
    (exists ks m, row = auth_row_of k u ks m) /\ (want = true -> spend = Some (get_user_cost_today db (k_user k))) /\
    (want = false -> spend = None).
Proof.
  unfold _auth_context_with_spend, read_store. destruct s as [db|]; [|done]. intros [= Hr].
  destruct want; [unfold get_auth_context_with_spend in Hr|unfold get_auth_context_by_key_hash in Hr];
    destruct (live_key db hash) as [[k u]|] eqn:El; simplify_eq/=;
    exists db, k, u; split_and!; try done; by eauto.
Qed.

Lemma spend_check_shape i api_key_id sn quota cost read_at check :
  _spend_check i api_key_id sn quota cost read_at = Ok check ->
  check_user check = id_user i /\ check_key check = api_key_id /\ account_day (check_spent check) = cost /\
  check_limits check = Limits quota (id_quota_monthly i)
    (match api_key_id with Some _ => id_budget_daily i | None => None end)
    (match api_key_id with Some _ => id_budget_monthly i | None => None end).
Proof.
  unfold _spend_check. cbv zeta. destruct (match _ with Some _ => id_budget_daily i | None => None end),
    (match _ with Some _ => id_budget_monthly i | None => None end);
  repeat (match goal with |- context [bind_result ?m _] => destruct m; cbn [bind_result]; [|done] end);
  intros [= <-]; done.
Qed.

Section authority.
Context `{Digests}.

(** A caller accepted with a key: what was checked, and in whose name it runs. *)
Record authorised (c : auth_config) (st : auth_state) (rq : auth_request) (ck : clocks) (sn : snapshots) (x : key_ctx)
    (key hash : chars) (db : auth_db) (k : key_row) (u : user_row) : Prop := {
  az_presented : _extract_api_key (aq_authorization rq) (aq_x_api_key rq) = Some key;
  az_not_blocked : (is_ip_blocked (blocking c) (au_blocks st) (aq_ip rq) (t_ask ck)).2.1 = false;
  az_hash : hash_api_key c key = Some hash /\ kc_key_hash x = Some hash;
  az_live : at_lookup sn = Some db /\ live_key db hash = Some (k, u) /\ _verification_pending c u = false;
  az_authenticated : kc_authenticated x = true;
  az_affordable : exists check, kc_check x = Some check /\ check_user check = user_id (kc_user x) /\
    check_key check = kc_api_key_id x /\ account_day (check_spent check) = kc_spent_today x /\
    (ledger_refusal (au_ledger st) (today ck) (t_refusal ck) check).2 = None
}.

(** The key's owner, with the key's own limits. *)
Definition as_owner (x : key_ctx) (k : key_row) (u : user_row) : Prop :=
  user_id (kc_user x) = k_user k /\ role_of (kc_user x) = default "free"%string (truthy (us_role u)) /\
  kc_api_key_id x = Some (k_id k) /\ key_allowed_models (kc_access x) = k_allowed_models k /\
  check_limits <$> kc_check x =
    Some (Limits (resolve_quota (k_quota_daily k)) (k_quota_monthly k) (k_budget_daily k) (k_budget_monthly k)).

(** Another active user, named by the trusted service. *)
Definition on_behalf (c : auth_config) (rq : auth_request) (sn : snapshots) (x : key_ctx) (hash : chars) : Prop :=
  exists uid db u, aq_on_behalf_of rq = Some uid /\ hash ∈ _impersonation_service_key_hashes c /\
    at_target sn = Some db /\ users db !! uid = Some u /\ us_status u = "active"%string /\
    user_id (kc_user x) = uid /\ role_of (kc_user x) = default "free"%string (truthy (us_role u)) /\
    kc_api_key_id x = None /\ key_allowed_models (kc_access x) = None.

Lemma role_of_context i hash key quota cost check :
  role_of (kc_user (_user_context i hash key quota cost check)) = default "free"%string (truthy (id_role i)).
Proof.
  unfold role_of. cbn. unfold truthy. destruct (id_role i) as [r|]; [|done].
  by destruct (decide (r = ""%string)); cbn; [|rewrite decide_False].
Qed.

Lemma admit_caller_authorised c st rq ck sn row hash spend st' x :
  admit_caller c st rq ck sn row hash spend = (st', Ok x) ->
  kc_key_hash x = Some hash /\ kc_authenticated x = true /\
  (exists check, kc_check x = Some check /\ check_user check = user_id (kc_user x) /\
     check_key check = kc_api_key_id x /\ account_day (check_spent check) = kc_spent_today x /\
     (ledger_refusal (au_ledger st) (today ck) (t_refusal ck) check).2 = None) /\
  (forall k u ks m, row = auth_row_of k u ks m -> as_owner x k u \/ on_behalf c rq sn x hash).
Proof.
  unfold admit_caller. destruct (_resolve_effective_identity _ _ _ _) as [target|e] eqn:Et; [|done].
  set (i := default (row_identity row) target). set (key := match target with Some _ => None | None => _ end). cbv zeta.
  destruct (match spend with Some _ => _ | None => _ end) as [cost|e]; cbn [bind_result]; [|done].
  destruct (_spend_check i key sn _ cost _) as [check|e] eqn:Ec; cbn [bind_result]; [|done].
  apply spend_check_shape in Ec as (Hu & Hk & Hd & Hl).
  destruct (ledger_refusal _ _ _ check) as [l refusal] eqn:El. destruct refusal; [done|].
  intros [= <- <-]. split_and!; [done|done|exists check; split_and!; try done; by rewrite El|].
  intros k u ks m ->. destruct target as [t|].
  - right. unfold _resolve_effective_identity in Et. destruct (truthy (aq_on_behalf_of rq)) as [uid|] eqn:Eo; [|done].
    case_bool_decide as Hs; [|done]. unfold read_store in Et. destruct (at_target sn) as [db|] eqn:Edb; [|done].
    cbn [bind_result] in Et. destruct (users db !! uid) as [u'|] eqn:Eu; [|done].
    case_bool_decide as Ha; [|done]. injection Et as <-. exists uid, db, u'. split_and!; try done; [|apply role_of_context].
    unfold truthy in Eo. destruct (aq_on_behalf_of rq); [|done]. by case_decide; simplify_eq.
  - left. unfold as_owner. rewrite role_of_context. split_and!; try done. cbn. by rewrite Hl.
Qed.

(** C12: nobody is let in without an entitled key.  While user authentication is on,
    a request is given a key's context only if it presented, from a source that is not
    blocked, a key whose hash is a row of an active, unexpired key of an active and
    verified account, and the spend check found room under every limit.  The context
    is that of the key's owner with the key's own budgets and model list; or, only
    when the key is the trusted service's and names an active user, that user's,
    charged to no key. *)
Theorem key_authority c st rq ck store ge st' x :
  user_auth_enabled c = true -> verify_api_key c st rq ck store ge = (st', Ok (KeyContext x)) ->
  exists key hash sn db k u, store = Some sn /\ authorised c st rq ck sn x key hash db k u /\
    looks_like_grant_token (Some key) = false /\ (as_owner x k u \/ on_behalf c rq sn x hash).
Proof.
  intros Hen. unfold verify_api_key. destruct (verify_grant_key _ _ _ _ _ _ _ _ _ _) as [[l r]|] eqn:Eg;
    [by destruct r|]. rewrite Hen. cbn [negb]. cbv zeta.
  unfold _authenticate_by_api_key. destruct (is_ip_blocked _ _ _ _) as [blocks [blocked retry]] eqn:Eb.
  cbv zeta. destruct blocked; [done|].
  destruct (_extract_api_key _ _) as [key|] eqn:Ek; [|done]. destruct key as [|a key]; [done|].
  set (full := a :: key) in *. destruct store as [sn|]; [|done]. destruct (hash_api_key c full) as [hash|] eqn:Eh; [|done].
  destruct (_auth_context_with_spend _ _ _) as [[[row spend]|]|e] eqn:Ea; [|done..].
  destruct (_verification_pending c _) eqn:Ev; [done|].
  destruct (admit_caller _ _ _ _ _ _ _ _) as [st1 [y|e]] eqn:Eadm; [|done]. intros [= <- <-].
  apply auth_context_rows in Ea as (db & k & u & Hdb & Hl & _ & Hu & (ks & m & Hrow) & _ & _).
  apply admit_caller_authorised in Eadm as (Hh & Hauth & Hc & Hwho).
  exists full, hash, sn, db, k, u. split_and!; [done| | |by eapply Hwho].
  - split; try done; [by rewrite Eb|split_and!; [done..|by rewrite <- Hu]].
  - unfold verify_grant_key in Eg. change (default [] (Some full)) with full in Eg.
    by destruct (looks_like_grant_token (Some full)).
Qed.
End authority.

(** ** Stored work stops where a request would *)

Section stored.
Context `{Digests}.

(** What a live request's answer is for work stored under the same key. *)
Definition as_stored (r : result auth_error auth_context) : option (result stored_error key_ctx) :=
  match r with
  | Ok (KeyContext x) => Some (Ok x)
  | Raise InvalidKey | Raise NotVerified => Some (Raise StoredKeyRejected)
  | Raise (BudgetExceeded b) => Some (Raise (StoredKeyQuotaExceeded b))
  | Raise StoreFailed | Raise NoDatabase => Some (Raise StoredUnknown)
  | _ => None
  end.

(** A store all of whose reads see one instant. *)
Definition still (s : option auth_db) : snapshots := Snapshots s s s s s.

(** The spend read apart is the spend read with the row. *)
Lemma spend_check_apart db k u quota cost read_at :
  let key_spent := match k_budget_daily k, k_budget_monthly k with
                   | None, None => (0%Q, 0%Q)
                   | _, _ => get_key_spend db (k_id k)
                   end in
  let month := match k_quota_monthly k with Some _ => get_user_cost_month db (k_user k) | None => 0%Q end in
  _spend_check (row_identity (auth_row_of k u None None)) (Some (k_id k)) (still (Some db)) quota cost read_at =
  _spend_check (row_identity (auth_row_of k u (Some key_spent) (Some month))) (Some (k_id k)) (still (Some db)) quota
    cost read_at.
Proof.
  unfold _spend_check. cbn.
  destruct (k_budget_daily k), (k_budget_monthly k), (k_quota_monthly k); reflexivity.
Qed.

(** A caller that acts for itself. *)
Definition for_itself (c : auth_config) (rq : auth_request) (hash : chars) : Prop :=
  truthy (aq_on_behalf_of rq) = None \/ hash ∉ _impersonation_service_key_hashes c.

Lemma effective_itself c rq hash s :
  for_itself c rq hash -> _resolve_effective_identity c hash (aq_on_behalf_of rq) s = Ok None.
Proof.
  unfold _resolve_effective_identity. intros [->|Hn]; [done|].
  destruct (truthy _); [|done]. by rewrite bool_decide_false.
Qed.

(** C13: stored work is refused exactly where a live request would be.  Take a key
    presented by a request that acts for itself, from a source that is not blocked,
    and work stored under that key, both authenticated against one state of the store
    and the ledger: the work is given the very context the request is given, and is
    rejected, or found over its limit, exactly when the request is, with the same
    refusal; so does a deployment without user authentication.  An [X-On-Behalf-Of]
    header of any key but the service's changes nothing. *)
Theorem stored_key_agrees c st rq ck s ge key hash :
  _extract_api_key (aq_authorization rq) (aq_x_api_key rq) = Some key -> key <> [] ->
  looks_like_grant_token (Some key) = false -> hash_api_key c key = Some hash ->
  (is_ip_blocked (blocking c) (au_blocks st) (aq_ip rq) (t_ask ck)).2.1 = false -> for_itself c rq hash ->
  as_stored (verify_api_key c st rq ck (Some (still s)) ge).2 =
    Some (authenticate_stored_key c (au_ledger st) (Some hash) ck (Some (still s)) true).2 /\
  au_ledger (verify_api_key c st rq ck (Some (still s)) ge).1 =
    (authenticate_stored_key c (au_ledger st) (Some hash) ck (Some (still s)) true).1.
Proof.
  intros Hkey Hne Hg Hh Hb Hi. unfold verify_api_key, authenticate_stored_key, verify_grant_key. rewrite Hkey.
  change (default [] (Some key)) with key. rewrite Hg. destruct (user_auth_enabled c); [|done]. cbn [negb]. cbv zeta iota.
  unfold _authenticate_by_api_key. rewrite Hkey, Hh. destruct (is_ip_blocked _ _ _ _) as [blocks [blocked retry]].
  simpl in Hb. subst blocked. cbv zeta. destruct key as [|a key]; [done|]. clear Hne Hg Hkey.
  unfold _auth_context_with_spend, read_store. cbn [at_lookup still]. destruct s as [db|]; [|done].
  unfold get_auth_context_with_spend, get_auth_context_by_key_hash.
  destruct (live_key db hash) as [[k u]|]; [|by destruct (negb _)]. cbn [fmap option_fmap option_map fst snd].
  set (ks := match k_budget_daily k, k_budget_monthly k with None, None => _ | _, _ => _ end).
  set (m := match k_quota_monthly k with Some _ => _ | None => _ end).
  set (cost := get_user_cost_today db (k_user k)).
  assert (admit_caller c (st <| au_blocks := blocks |>) rq ck (still (Some db)) (auth_row_of k u None None) hash None =
    admit_caller c (st <| au_blocks := blocks |>) rq ck (still (Some db)) (auth_row_of k u (Some ks) (Some m)) hash (Some cost))
    as Hsame.
  { unfold admit_caller. rewrite effective_itself by done.
    cbv zeta. cbn [default from_option at_day still read_store bind_result row_key auth_row_of]. unfold id.
    change (id_user (row_identity (auth_row_of k u None None))) with (k_user k). fold cost.
    rewrite spend_check_apart. fold ks m. done. }
  destruct (negb (bool_decide _)); cbn [fmap option_fmap option_map]; cbn [fst snd row_user auth_row_of];
    (destruct (_verification_pending c u); [done|]); cbv zeta; rewrite ?Hsame;
    unfold admit_caller; rewrite effective_itself by done; cbv zeta;
    cbn [default from_option bind_result row_key auth_row_of]; unfold id;
    (destruct (_spend_check _ _ _ _ _ _) as [check|e] eqn:Ec; cbn [bind_result];
      [|unfold _spend_check in Ec; cbn in Ec; destruct (k_budget_daily k), (k_budget_monthly k), (k_quota_monthly k); done]);
    change (au_ledger (st <| au_blocks := blocks |>)) with (au_ledger st);
    by destruct (ledger_refusal _ _ _ check) as [l [r|]].
Qed.
End stored.

(** ** What a refusal leaves behind *)

Section traces.
Context `{Digests}.

(** Only a missing or an invalid key counts against its source: running out of money,
    an unverified account or a store that fails does not. *)
Lemma only_bad_keys_count c st rq ck store ge st' r :
  verify_api_key c st rq ck store ge = (st', r) ->
  let asked := (is_ip_blocked (blocking c) (au_blocks st) (aq_ip rq) (t_ask ck)).1 in
  match r with
  | Raise MissingKey | Raise InvalidKey =>
      au_blocks st' = (record_auth_failure (blocking c) asked (aq_ip rq) (t_failure ck)).1
  | _ => au_blocks st' = au_blocks st \/ au_blocks st' = asked
  end.
Proof.
  unfold verify_api_key. cbv zeta. destruct (verify_grant_key _ _ _ _ _ _ _ _ _ _) as [[l g]|].
  { intros [= <- <-]. destruct g as [g|e]; by left. }
  destruct (user_auth_enabled c); [|intros [= <- <-]; by left]. cbn [negb]. cbv iota.
  unfold _authenticate_by_api_key. destruct (is_ip_blocked _ _ _ _) as [blocks [blocked retry]]. cbv zeta.
  destruct blocked; [intros [= <- <-]; by right|].
  destruct (_extract_api_key _ _) as [[|a key]|]; [by intros [= <- <-]| |by intros [= <- <-]].
  destruct store as [sn|]; [|intros [= <- <-]; by right].
  destruct (hash_api_key c _) as [hash|]; [|intros [= <- <-]; by right].
  destruct (_auth_context_with_spend _ _ _) as [[[row spend]|]|e] eqn:Ea;
    [|by intros [= <- <-]|intros [= <- <-]; unfold _auth_context_with_spend, read_store in Ea;
      destruct (at_lookup sn); simplify_eq; by right].
  destruct (_verification_pending c _); [intros [= <- <-]; by right|].
  destruct (admit_caller _ _ _ _ _ _ _ _) as [st1 y] eqn:Eadm. intros [= <- <-].
  assert (au_blocks st1 = blocks /\ forall e, y = Raise e -> e <> MissingKey /\ e <> InvalidKey) as [Hb Hy].
  { clear -Eadm. unfold admit_caller in Eadm.
    destruct (_resolve_effective_identity _ _ _ _) as [t|e] eqn:Et.
    - cbv zeta in Eadm. destruct (bind_result _ _) as [[cost check]|e] eqn:Ec.
      + destruct (ledger_refusal _ _ _ _) as [l [b|]]; injection Eadm as <- <-; (split; [done|]); intros ? [= <-]; done.
      + injection Eadm as <- <-. split; [done|]. intros ? [= <-].
        repeat (match goal with
                | Hx : bind_result ?m _ = Raise _ |- _ => destruct m eqn:?; cbn [bind_result] in Hx
                | Hx : _spend_check _ _ _ _ _ _ = _ |- _ => unfold _spend_check in Hx; cbv zeta in Hx
                | Hx : read_store _ _ = _ |- _ => unfold read_store in Hx
                | Hx : context [match ?d with _ => _ end] |- _ => destruct d
                end; simplify_eq); done.
    - injection Eadm as <- <-. split; [done|]. intros ? [= <-].
      unfold _resolve_effective_identity, read_store in Et.
      destruct (truthy _); [|done]. case_bool_decide; [|done]. destruct (at_target sn); cbn in Et; by simplify_eq. }
  rewrite Hb. destruct y as [x|e]; [by right|]. destruct (Hy e eq_refl). destruct e; try done; by right.
Qed.

(** A key's [last_used_at] is written at most once a minute. *)
Lemma touch_debounced (m : gmap Z Q) key now m' t (last : Q) :
  touch_key_last_used m key now = (m', true) -> m !! key = Some last -> (last + 60 <= now)%Q /\
  (touch_key_last_used m' key t = (m', false) <-> (t < now + 60)%Q).
Proof.
  unfold touch_key_last_used at 1. intros E Hl. rewrite Hl in E. case_bool_decide as Hd; [done|].
  unfold LAST_USED_DEBOUNCE_SECONDS in *. injection E as E. split; [lra|]. rewrite <- E.
  unfold touch_key_last_used. rewrite lookup_insert_eq. unfold LAST_USED_DEBOUNCE_SECONDS.
  destruct (bool_decide (t - now < 60)%Q) eqn:Eb; [apply bool_decide_eq_true in Eb|apply bool_decide_eq_false in Eb];
    split; [intros _; lra|done|done|intros ?; exfalso; lra].
Qed.
End traces.

(** ** A key at work *)

Module SampleAuth.
Definition cfg : auth_config := AuthConfig true [115%N] (chars_of "hyi-rag") true sample_settings.
Definition hash_of (key : string) : chars := default [] (@hash_api_key toy_digests cfg (chars_of key)).
Definition ann : user_row := UserRow "active" (Some "pro"%string) None (Some "ann@x"%string) true None None false None None.
Definition key (id : Z) (user : string) : key_row :=
  KeyRow id user None "active" (Some 100) None None (Some 5%Q) None (Some [chars_of "m"]).
Definition db : auth_db :=
  AuthDb 50 "2026-08-02" {[hash_of "hyi-ann" := key 7 "ann"; hash_of "hyi-rag" := key 8 "rag"]}
    {["ann"%string := ann; "rag"%string := UserRow "active" None None None false (Some "rag"%string) None false None None]}
    {[("ann", "2026-08-01")%string := 3%Q]} {[(7, "2026-08-02"%string) := 2%Q]}.
Definition st : auth_state := AuthState new_blocklist new_ledger ∅.
Definition asks (k : string) (behalf : option string) : auth_request :=
  AuthRequest (chars_of "/v1/chat/completions") (Some (V4 5)) (Some (chars_of ("Bearer " +:+ k))) None behalf.
Definition ck : clocks := Clocks 1 1 1 1 1 "2026-08-02".
Definition ge : grant_env := GrantEnv [115%N] None (Reads true true None None) 50.
Definition verify (rq : auth_request) : auth_state * result auth_error auth_context :=
  @verify_api_key toy_digests cfg st rq ck (Some (still (Some db))) ge.

(** Who a request of the service's key on behalf of [ann] runs as. *)
Definition behalf_user (r : result auth_error auth_context) : option (string * option Z) :=
  match r with
  | Ok (KeyContext x) => Some (user_id (kc_user x), kc_api_key_id x)
  | _ => None
  end.
Example on_behalf_of_ann : behalf_user (verify (asks "hyi-rag" (Some "ann"%string))).2 = Some ("ann"%string, None).
Proof. vm_compute. reflexivity. Qed.
End SampleAuth.

Lemma key_authority_witness :
  exists k u, live_key SampleAuth.db (SampleAuth.hash_of "hyi-ann") = Some (k, u) /\ k_user k = "ann"%string.
Proof.
  destruct (SampleAuth.verify (SampleAuth.asks "hyi-ann" None)) as [st' [[x|g]|e]] eqn:E;
    [|exfalso; revert E; vm_compute; discriminate..].
  unfold SampleAuth.verify in E.
  destruct (@key_authority toy_digests SampleAuth.cfg SampleAuth.st (SampleAuth.asks "hyi-ann" None) SampleAuth.ck
    (Some (still (Some SampleAuth.db))) SampleAuth.ge st' x eq_refl E) as (key & hash & sn & db & k & u & Hs & Ha & _ & _).
  destruct Ha as [Hp _ [Hh _] [Hdb [Hl _]] _ _]. injection Hs as <-. injection Hdb as <-. exists k, u.
  assert (key = chars_of "hyi-ann") as -> by (revert Hp; vm_compute; congruence).
  assert (hash = SampleAuth.hash_of "hyi-ann") as -> by (unfold SampleAuth.hash_of; by rewrite Hh).
  split; [exact Hl|]. revert Hl. vm_compute. by intros [= <- <-].
Defined.

Lemma stored_key_agrees_witness :
  as_stored (SampleAuth.verify (SampleAuth.asks "hyi-ann" (Some "bob"%string))).2 =
  Some (@authenticate_stored_key SampleAuth.cfg new_ledger (Some (SampleAuth.hash_of "hyi-ann")) SampleAuth.ck
    (Some (still (Some SampleAuth.db))) true).2.
Proof.
  destruct (@stored_key_agrees toy_digests SampleAuth.cfg SampleAuth.st (SampleAuth.asks "hyi-ann" (Some "bob"%string))
    SampleAuth.ck (Some SampleAuth.db) SampleAuth.ge (chars_of "hyi-ann") (SampleAuth.hash_of "hyi-ann")) as [Hs _].
  - vm_compute. reflexivity.
  - discriminate.
  - vm_compute. reflexivity.
  - vm_compute. reflexivity.
  - vm_compute. reflexivity.
  - right. apply (bool_decide_unpack _). vm_compute. exact I.
  - exact Hs.
Defined.
