(* ===== verification/AutoMode.v ===== *)
(** Auto mode: the model an [auto-*] request is served by.  The tier's candidates and
    their limits, the ranking, the session rules and the store of sessions
    ([routing/model_selection]), and the choice for one request, with what its caller
    may use and what is up ([serving/auto_mode.py]).

    Model names, efforts and input kinds are texts.  The route table, the caller's
    access and the endpoints admitted are read through the entry of a model; a digest
    names the version of a tier. *)

From S2P Require Import Prelude PyText KeyPool GrantToken VersionedCache ModelAccess.

Local Open Scope Z_scope.

(** ** Candidates and requests *)

(** [Candidate] *)
Record candidate : Type := Candidate { cand_model : chars; cand_effort : option chars }.
#[export] Instance candidate_eq_dec : EqDecision candidate.
Proof. solve_decision. Defined.
#[export] Instance candidate_countable : Countable candidate.
Proof.
  refine (inj_countable' (fun c => (cand_model c, cand_effort c)) (fun p => Candidate p.1 p.2) _). by intros [].
Defined.

(** [CandidateInfo] *)
Record candidate_info : Type := CandidateInfo {
  ci_context_length : Z;
  ci_max_output_length : Z;
  ci_input_modalities : gset chars;
  ci_supports_tools : bool;
  ci_reasoning_efforts : gset chars
}.

(** [TurnKind] *)
Inductive turn_kind : Type := NEW_TURN | TOOL_CONTINUATION | SIDE_CALL.
#[export] Instance turn_kind_eq_dec : EqDecision turn_kind.
Proof. solve_decision. Defined.

(** [RequestFeatures] *)
Record request_features : Type := RequestFeatures {
  rf_prompt_tokens : Z;
  rf_turn : turn_kind;
  rf_max_tokens : option Z;
  rf_input_modalities : gset chars;
  rf_uses_tools : bool
}.

(** [DropReason] *)
Inductive why : Type := UNAVAILABLE | EFFORT | TOOLS | MODALITY | CONTEXT.
#[export] Instance why_eq_dec : EqDecision why.
Proof. solve_decision. Defined.

(** [SessionAction] *)
Inductive session_action : Type := NEW | KEEP | TURN_SWITCH | FORCED_SWITCH | SIDE.

(** [SessionState] *)
Record session_state : Type := SessionState {
  ss_candidate : candidate;
  ss_version : chars;
  ss_turns : Z;
  ss_switches : Z
}.

(** [Decision], less the names it is logged under. *)
Record decision : Type := AutoDecision {
  ranked : list candidate;
  dropped : list (candidate * why);
  action : session_action;
  next_state : option session_state
}.

(** [Decision.chosen] *)
Definition chosen (d : decision) : option candidate := head (ranked d).

(** ** Limits *)

(** [math.ceil(tokens * PROMPT_ESTIMATE_HEADROOM)], the headroom being 1.25. *)
Definition sized_prompt (tokens : Z) : Z := (5 * tokens + 3) / 4.

(** [drop_reason] *)
Definition drop_reason (c : candidate) (info : option candidate_info) (f : request_features) : option why :=
  match info with
  | None => Some UNAVAILABLE
  | Some i =>
      if match cand_effort c with Some e => bool_decide (e ∉ ci_reasoning_efforts i) | None => false end then Some EFFORT
      else if rf_uses_tools f && negb (ci_supports_tools i) then Some TOOLS
      else if negb (bool_decide (rf_input_modalities f ⊆ ci_input_modalities i)) then Some MODALITY
      else
        let reserved := match rf_max_tokens f with
                        | Some m => if bool_decide (m = 0) then 0 else Z.min m (ci_max_output_length i)
                        | None => 0
                        end in
        if bool_decide (ci_context_length i < sized_prompt (rf_prompt_tokens f) + reserved) then Some CONTEXT else None
  end.

(** [split_by_constraints] *)
Fixpoint split_by_constraints (l : list candidate) (catalog : chars -> option candidate_info) (f : request_features) :
    list candidate * list (candidate * why) :=
  match l with
  | [] => ([], [])
  | c :: rest =>
      let '(able, out) := split_by_constraints rest catalog f in
      match drop_reason c (catalog (cand_model c)) f with
      | None => (c :: able, out)
      | Some r => (able, (c, r) :: out)
      end
  end.

(** ** Ranking *)

(** [StaticScorer(candidates)] *)
Definition static_quality (l : list candidate) : gmap candidate Q :=
  list_to_map (reverse (imap (fun i c =>
    (c, inject_Z (Z.of_nat (length l) - Z.of_nat i) / inject_Z (Z.of_nat (length l)))%Q) l)).

(** [sorted(l, key)]: stable. *)
Fixpoint insert_by (key : candidate -> Q) (x : candidate) (l : list candidate) : list candidate :=
  match l with
  | [] => [x]
  | y :: rest => if bool_decide (key x <= key y)%Q then x :: l else y :: insert_by key x rest
  end.
Definition sorted_by (key : candidate -> Q) (l : list candidate) : list candidate := foldr (insert_by key) [] l.

(** [MaxQuality.rank] of the static scores *)
Definition rank_by_quality (tier able : list candidate) : list candidate :=
  sorted_by (fun c => - default 0 (static_quality tier !! c))%Q able.

(** ** Sessions *)

(** [(current, *(candidate for candidate in order if candidate != current))] *)
Definition to_front (current : candidate) (order : list candidate) : list candidate :=
  current :: filter (fun c => c <> current) order.

(** [continue_session] *)
Definition continue_session (order : list candidate) (state : option session_state) (turn : turn_kind) (version : chars) :
    list candidate * session_action * option session_state :=
  let usable := s ← state; if decide (ss_version s = version) then Some s else None in
  match turn with
  | SIDE_CALL =>
      (match ss_candidate <$> usable with
       | Some current => if decide (current ∈ order) then to_front current order else order
       | None => order
       end, SIDE, None)
  | _ =>
      match order with
      | [] => (order, match usable with None => NEW | Some _ => FORCED_SWITCH end, None)
      | first :: _ =>
          let new_turn := if decide (turn = NEW_TURN) then 1 else 0 in
          match usable with
          | None => (order, NEW, Some (SessionState first version new_turn 0))
          | Some s =>
              let current := ss_candidate s in
              let turns := ss_turns s + new_turn in
              let moved a := (order, a, Some (SessionState first version turns (ss_switches s + 1))) in
              if decide (current ∈ order) then
                if decide (turn = TOOL_CONTINUATION \/ first = current)
                then (to_front current order, KEEP, Some (SessionState current version turns (ss_switches s)))
                else moved TURN_SWITCH
              else moved FORCED_SWITCH
          end
      end
  end.

(** [AutoProfile] with the static scorer. *)
Record auto_profile : Type := AutoProfile {
  pf_name : chars;
  pf_candidates : list candidate;
  pf_version : chars
}.

(** [select] of [routing.model_selection] *)
Definition select (p : auto_profile) (f : request_features) (catalog : chars -> option candidate_info)
    (state : option session_state) : decision :=
  let '(able, out) := split_by_constraints (pf_candidates p) catalog f in
  let '(order, action, next) := continue_session (rank_by_quality (pf_candidates p) able) state (rf_turn f) (pf_version p) in
  AutoDecision order out action next.

(** *** The store *)

(** A session's key: the caller, its grant, the session it declares and the opening
    of its conversation. *)
Definition skey : Type := string * option chars * option chars * option chars.

(** [SessionStore]: the entries in the order they were last stored. *)
Record session_store : Type := SessionStore {
  idle_timeout : Q;
  max_sessions : nat;
  entries : list (skey * (session_state * Q))
}.
#[export] Instance eta_session_store : Eta session_store := fun s => SessionStore (idle_timeout s) (max_sessions s) (entries s).

Definition session_entry (s : session_store) (k : skey) : option (session_state * Q) :=
  snd <$> find (fun e => bool_decide (e.1 = k)) (entries s).
Definition without (k : skey) (l : list (skey * (session_state * Q))) : list (skey * (session_state * Q)) :=
  filter (fun e => e.1 <> k) l.

(** [SessionStore.get] *)
Definition store_get (s : session_store) (k : skey) (now : Q) : session_store * option session_state :=
  match session_entry s k with
  | None => (s, None)
  | Some (st, at_) =>
      if bool_decide (idle_timeout s < now - at_)%Q then (s <| entries := without k (entries s) |>, None)
      else (s, Some st)
  end.

(** The first [while] of [put]. *)
Fixpoint drop_idle (timeout now : Q) (l : list (skey * (session_state * Q))) : list (skey * (session_state * Q)) :=
  match l with
  | (k, (st, at_)) :: rest => if bool_decide (now - at_ <= timeout)%Q then l else drop_idle timeout now rest
  | [] => []
  end.

(** [SessionStore.put] *)
Definition store_put (s : session_store) (k : skey) (st : session_state) (now : Q) : session_store :=
  let l := drop_idle (idle_timeout s) now (without k (entries s) ++ [(k, (st, now))]) in
  s <| entries := drop (length l - max_sessions s) l |>.

(** ** One request *)

(** What the gateway reads of an endpoint's [ModelConfig]. *)
Record model_config : Type := ModelConfig {
  mc_context_length : Z;
  mc_max_output_length : Z;
  mc_input_modalities : list chars;
  mc_supports_tools : bool;
  mc_takes_effort : bool;                 (* ["reasoning_effort" in supported_params] *)
  mc_reasoning_efforts : list chars
}.

(** [candidate_info]; there is at least one endpoint. *)
Definition least (l : list Z) : Z := match l with [] => 0 | x :: rest => fold_left Z.min rest x end.
Definition shared (l : list (gset chars)) : gset chars := match l with [] => ∅ | x :: rest => fold_left (∩) rest x end.
Definition candidate_info_of (l : list model_config) : candidate_info :=
  CandidateInfo (least (mc_context_length <$> l)) (least (mc_max_output_length <$> l))
    (shared ((fun c => list_to_set (match mc_input_modalities c with [] => [chars_of "text"] | m => m end)) <$> l))
    (forallb mc_supports_tools l)
    (shared ((fun c => if mc_takes_effort c then list_to_set (mc_reasoning_efforts c) else ∅) <$> l)).

(** What the route table holds under a name: the route, its adapters' configurations
    and those of the adapters admitted now. *)
Record model_entry : Type := ModelEntry {
  me_route : model_route;
  me_configs : list model_config;
  me_eligible : list model_config
}.

(** [_Reachable] *)
Record reachable_model : Type := Reachable { re_canonical : chars; re_info : candidate_info; re_up : bool }.

Record auto_config : Type := AutoConfig {
  default_profile : chars;
  profiles : list (chars * auto_profile)
}.

Definition AUTO_MODEL_ID : chars := chars_of "auto".
Definition AUTO_MODEL_PREFIX : chars := chars_of "auto-".

Definition profile_named (c : auto_config) (name : chars) : option auto_profile :=
  snd <$> find (fun p => bool_decide (p.1 = name)) (profiles c).

(** [AutoConfig.resolve] *)
Definition resolve (c : auto_config) (model : chars) : option auto_profile :=
  if bool_decide (model = AUTO_MODEL_ID) then profile_named c (default_profile c)
  else if is_prefix AUTO_MODEL_PREFIX model then profile_named c (List.skipn (length AUTO_MODEL_PREFIX) model)
  else None.

Section requests.
Context (table : chars -> option model_entry) (user : option user_ctx) (override : chars -> option string).

(** [AutoMode.reachable], for one of the tier's models. *)
Definition reachable (model : chars) : option reachable_model :=
  match table model with
  | None => None
  | Some e =>
      match me_configs e with
      | [] => None
      | configs =>
          match model_access_denial (me_route e) model user override true with
          | Some _ => None
          | None =>
              Some (Reachable (route_canonical_model_id (me_route e) model)
                      (candidate_info_of (match me_eligible e with [] => configs | l => l end))
                      (match me_eligible e with [] => false | _ => true end))
          end
      end
  end.

(** The catalog of [AutoMode.select]. *)
Definition catalog (model : chars) : option candidate_info :=
  r ← reachable model; if re_up r then Some (re_info r) else None.

(** The reasons [_unavailable] gathers; [None] when a candidate is only down. *)
Fixpoint unavailable_reasons (l : list candidate) (f : request_features) : option (list why) :=
  match l with
  | [] => Some []
  | c :: rest =>
      match reachable (cand_model c) with
      | None => unavailable_reasons rest f
      | Some r => match drop_reason c (Some (re_info r)) f with
                  | None => None
                  | Some reason => (reason ::.) <$> unavailable_reasons rest f
                  end
      end
  end.

(** [_unavailable], as its status *)
Definition _unavailable (l : list candidate) (f : request_features) : Z :=
  match unavailable_reasons l f with
  | None => 503
  | Some reasons => if existsb (fun r => bool_decide (r = CONTEXT \/ r = MODALITY \/ r = TOOLS)) reasons then 400 else 404
  end.

(** [AutoSelection], less what is only logged. *)
Record auto_selection : Type := AutoSelection {
  as_decision : decision;
  as_candidate : candidate;
  as_model_id : chars;
  as_switches : Z
}.

(** [AutoMode.select]; the error is [AutoModelUnavailable]'s status. *)
Definition auto_select (c : auto_config) (s : session_store) (requested : chars) (f : request_features)
    (session : option skey) (now_get now_put : Q) : session_store * result Z auto_selection :=
  match resolve c requested with
  | None => (s, Raise 404)
  | Some p =>
      let '(s, state) := match session with Some k => store_get s k now_get | None => (s, None) end in
      let d := select p f catalog state in
      match chosen d with
      | None => (s, Raise (_unavailable (pf_candidates p) f))
      | Some c =>
          let s := match session, next_state d with
                   | Some k, Some st => store_put s k st now_put
                   | _, _ => s
                   end in
          let switches := match next_state d with
                          | Some st => ss_switches st
                          | None => from_option ss_switches 0 state
                          end in
          (s, Ok (AutoSelection d c (from_option re_canonical [] (reachable (cand_model c))) switches))
      end
  end.
End requests.

(** ** The configuration *)

(** The [auto:] section once its shape is validated: the profiles in the order of
    the mapping. *)
Record auto_spec : Type := AutoSpec { sp_default : chars; sp_profiles : list (chars * list candidate) }.

Inductive auto_problem : Type :=
| DefaultMissing
| BadName (profile : chars)
| ListedTwice (profile : chars) (index : nat)
| IsAutoModel (profile : chars) (index : nat).

(** [_PROFILE_NAME.fullmatch]: words of lower-case letters and digits between single
    hyphens. *)
Fixpoint profile_name (in_word : bool) (l : chars) : bool :=
  match l with
  | [] => in_word
  | c :: rest =>
      if (in_range 97 122 c || in_range 48 57 c)%N then profile_name true rest
      else if (c =? 45)%N then in_word && profile_name false rest
      else false
  end.

(** [_virtual_model_ids] *)
Definition _virtual_model_ids (names : list chars) : list chars :=
  AUTO_MODEL_ID :: ((AUTO_MODEL_PREFIX ++.) <$> names).

(** The inner loop of [parse_auto_config] over the candidates of a profile. *)
Fixpoint candidate_problems (virtual : list chars) (name : chars) (seen : gset candidate) (index : nat)
    (l : list candidate) : list auto_problem :=
  match l with
  | [] => []
  | c :: rest =>
      (if decide (c ∈ seen) then [ListedTwice name index] else []) ++
      (if decide (cand_model c ∈ virtual) then [IsAutoModel name index] else []) ++
      candidate_problems virtual name ({[c]} ∪ seen) (S index) rest
  end.

(** [parse_auto_config] *)
Definition auto_problems (sp : auto_spec) : list auto_problem :=
  let virtual := _virtual_model_ids (sp_profiles sp).*1 in
  (if decide (sp_default sp ∈ (sp_profiles sp).*1) then [] else [DefaultMissing]) ++
  (sp_profiles sp ≫= fun p => (if profile_name false p.1 then [] else [BadName p.1]) ++
                              candidate_problems virtual p.1 ∅ 0 p.2).
Definition parse_auto_config (version : chars -> list candidate -> chars) (sp : auto_spec) :
    result (list auto_problem) auto_config :=
  match auto_problems sp with
  | [] => Ok (AutoConfig (sp_default sp)
                ((fun p => (p.1, AutoProfile p.1 p.2 (version p.1 p.2))) <$> sp_profiles sp))
  | problems => Raise problems
  end.

(** The conflicts of [check_against_catalog]: registered names a tier would hide. *)
Definition conflicts (c : auto_config) (registered : gset chars) : list chars :=
  filter (fun m => m ∈ registered) (merge_sort chars_le (remove_dups (_virtual_model_ids (profiles c).*1))).

(** ** Ranking keeps the configured order *)

Lemma strongly_sorted_lookup {A} (R : relation A) (l : list A) :
  (forall i j x y, l !! i = Some x -> l !! j = Some y -> (i < j)%nat -> R x y) -> StronglySorted R l.
Proof.
  induction l as [|x l IH]; intros Hl; constructor.
  - apply IH. intros i j y z Hi Hj Hij. apply (Hl (S i) (S j)); [done..|lia].
  - apply Forall_lookup. intros i y Hi. apply (Hl 0%nat (S i)); [done..|lia].
Qed.

Lemma sorted_filter {A} (R : relation A) (P : A -> Prop) `{!forall x, Decision (P x)} (l : list A) :
  StronglySorted R l -> StronglySorted R (filter P l).
Proof.
  induction 1 as [|x l Hs IH Hf]; [constructor|]. rewrite filter_cons. case_decide; [|done].
  constructor; [done|]. rewrite Forall_forall in *. intros y Hy%list_elem_of_filter. naive_solver.
Qed.

(** A list already in order is left as it is. *)
Lemma sorted_by_id key l : StronglySorted (fun x y => key x <= key y)%Q l -> sorted_by key l = l.
Proof.
  induction 1 as [|x l Hs IH Hf]; [done|]. cbn. unfold sorted_by in IH. rewrite IH.
  destruct l as [|y l]; [done|]. cbn. inversion Hf; subst. by rewrite bool_decide_true.
Qed.

Lemma static_quality_lookup l i c :
  NoDup l -> l !! i = Some c ->
  static_quality l !! c = Some (inject_Z (Z.of_nat (length l) - Z.of_nat i) / inject_Z (Z.of_nat (length l)))%Q.
Proof.
  intros Hn Hi. unfold static_quality. apply elem_of_list_to_map_1.
  - rewrite reverse_Permutation, fmap_imap.
    assert (imap (fun n => fst ∘ (fun c => (c, inject_Z (Z.of_nat (length l) - Z.of_nat n) / inject_Z (Z.of_nat (length l)))%Q)) l = l)
      as ->; [|done]. change (imap (const (@id candidate)) l = l). by rewrite imap_const, list_fmap_id.
  - apply elem_of_reverse, elem_of_lookup_imap. eauto.
Qed.

Lemma rank_keeps_order tier (P : candidate -> Prop) `{!forall c, Decision (P c)} :
  NoDup tier -> rank_by_quality tier (filter P tier) = filter P tier.
Proof.
  intros Hn. apply sorted_by_id, sorted_filter, strongly_sorted_lookup. intros i j x y Hi Hj Hij.
  rewrite (static_quality_lookup tier i x), (static_quality_lookup tier j y) by done. cbn [default from_option id].
  pose proof (lookup_lt_Some _ _ _ Hj). apply Qopp_le_compat. unfold Qdiv. apply Qmult_le_compat_r.
  - rewrite <- Zle_Qle. lia.
  - apply Qinv_le_0_compat. change 0%Q with (inject_Z 0). rewrite <- Zle_Qle. lia.
Qed.

Lemma split_able l catalog f :
  (split_by_constraints l catalog f).1 = filter (fun c => drop_reason c (catalog (cand_model c)) f = None) l.
Proof.
  induction l as [|c l IH]; [done|]. rewrite filter_cons. cbn [split_by_constraints].
  destruct (split_by_constraints l catalog f) as [able out]. cbn [fst] in IH. destruct (drop_reason c _ f) eqn:E; [by rewrite decide_False|by rewrite decide_True, <- IH].
Qed.

(** A configuration that was accepted lists no candidate twice, and its default tier
    exists. *)
Lemma candidate_problems_none virtual name seen i l :
  candidate_problems virtual name seen i l = [] ->
  NoDup l /\ forall c, c ∈ l -> c ∉ seen /\ cand_model c ∉ virtual.
Proof.
  revert seen i. induction l as [|c l IH]; intros seen i Hp; [split; [constructor|]; set_solver|].
  cbn in Hp. apply app_eq_nil in Hp as [H1 Hp]. apply app_eq_nil in Hp as [H2 Hp].
  apply IH in Hp as [Hn Hp]. destruct (decide (c ∈ seen)); [done|]. destruct (decide (cand_model c ∈ virtual)); [done|].
  split; [constructor; [|done]; intros Hc; apply Hp in Hc; set_solver|].
  intros c' [->|Hc]%elem_of_cons; [done|]. apply Hp in Hc. set_solver.
Qed.

Lemma parsed_profiles version sp c :
  parse_auto_config version sp = Ok c ->
  is_Some (profile_named c (default_profile c)) /\
  forall model p, resolve c model = Some p ->
    NoDup (pf_candidates p) /\ forall x, x ∈ pf_candidates p -> cand_model x ∉ _virtual_model_ids (profiles c).*1.
Proof.
  unfold parse_auto_config. destruct (auto_problems sp) eqn:Ep; [|done]. intros [= <-].
  unfold auto_problems in Ep. apply app_eq_nil in Ep as [Hd Ep]. destruct (decide (_ ∈ _)) as [Hin|]; [|done].
  set (c := AutoConfig _ _).
  assert ((profiles c).*1 = (sp_profiles sp).*1) as Hnames.
  { cbn. rewrite <- list_fmap_compose. by apply list_fmap_ext. }
  assert (forall name p, profile_named c name = Some p ->
    NoDup (pf_candidates p) /\ forall x, x ∈ pf_candidates p -> cand_model x ∉ _virtual_model_ids (profiles c).*1) as Hall.
  { intros name p. unfold profile_named. intros ([n p'] & Hf & ->)%fmap_Some. apply find_some in Hf as [Hf _].
    apply list_elem_of_In, list_elem_of_fmap in Hf as ([n' l] & [= -> ->] & Hl). rewrite Hnames. cbn [pf_candidates].
    assert (candidate_problems (_virtual_model_ids (sp_profiles sp).*1) n' ∅ 0 l = []) as Hp.
    { assert (forall x, x ∉ (sp_profiles sp ≫= fun p => (if profile_name false p.1 then [] else [BadName p.1]) ++
        candidate_problems (_virtual_model_ids (sp_profiles sp).*1) p.1 ∅ 0 p.2)) as Hno by (rewrite Ep; set_solver).
      destruct (candidate_problems _ n' ∅ 0 l) as [|x rest] eqn:E; [done|]. exfalso. apply (Hno x).
      apply list_elem_of_bind. exists (n', l). split; [|done]. apply elem_of_app. right. cbn. rewrite E. left. }
    apply candidate_problems_none in Hp as [Hn Hp]. split; [done|]. intros x Hx. by apply Hp. }
  split.
  - unfold profile_named. cbn [default_profile profiles c]. apply list_elem_of_fmap in Hin as ([n l] & Hn & Hin).
    destruct (find _ _) eqn:Ef; [by eexists|]. exfalso.
    assert (In (n, AutoProfile n l (version n l)) (profiles c)) as Hp.
    { apply list_elem_of_In, list_elem_of_fmap. by exists (n, l). }
    pose proof (find_none _ _ Ef _ Hp) as Hf. cbn in Hf. by apply bool_decide_eq_false in Hf.
  - intros model p. unfold resolve. case_bool_decide; [apply Hall|]. destruct (is_prefix _ _); [apply Hall|done].
Qed.

(** ** Which model serves *)

Section choice.
Context (table : chars -> option model_entry) (user : option user_ctx) (override : chars -> option string).
Notation reachable := (reachable table user override).
Notation catalog := (catalog table user override).

(** The candidates of a tier that can serve a request, in the tier's order. *)
Definition able (p : auto_profile) (f : request_features) : list candidate :=
  filter (fun c => drop_reason c (catalog (cand_model c)) f = None) (pf_candidates p).

(** What the session has settled on in this version of the tier. *)
Definition settled_on (p : auto_profile) (state : option session_state) : option session_state :=
  s ← state; if decide (ss_version s = pf_version p) then Some s else None.

(** Whom the rules choose among the able: the session's candidate in a tool loop or a
    side call while it is able, and the first of the tier otherwise. *)
Definition rule (order : list candidate) (turn : turn_kind) (settled : option session_state) : option candidate :=
  match turn, settled with
  | NEW_TURN, _ | _, None => head order
  | _, Some s => if decide (ss_candidate s ∈ order) then Some (ss_candidate s) else head order
  end.

(** What is remembered of a turn served by a candidate. *)
Definition remembered (p : auto_profile) (turn : turn_kind) (settled : option session_state) (c : candidate) :
    session_state :=
  let new_turn := if decide (turn = NEW_TURN) then 1 else 0 in
  match settled with
  | None => SessionState c (pf_version p) new_turn 0
  | Some s => SessionState c (pf_version p) (ss_turns s + new_turn)
                (ss_switches s + if decide (c = ss_candidate s) then 0 else 1)
  end.

(** The decision is the rule's. *)
Lemma select_rule p f state :
  NoDup (pf_candidates p) ->
  let d := select p f catalog state in
  chosen d = rule (able p f) (rf_turn f) (settled_on p state) /\ ranked d ≡ₚ able p f /\
  next_state d = (if decide (rf_turn f = SIDE_CALL) then None
                  else remembered p (rf_turn f) (settled_on p state) <$> chosen d).
Proof.
  intros Hn. unfold select. pose proof (split_able (pf_candidates p) catalog f) as Hs.
  destruct (split_by_constraints _ _ _) as [l out]. cbn [fst] in Hs. subst l. rewrite rank_keeps_order by done.
  fold (able p f). assert (NoDup (able p f)) as Ha by (by apply NoDup_filter).
  assert (forall c, c ∈ able p f -> to_front c (able p f) ≡ₚ able p f) as Hfront.
  { intros c Hc. unfold to_front. revert Ha Hc. generalize (able p f) as l. intros l Hl Hc.
    apply elem_of_Permutation in Hc as [l' Hl']. rewrite Hl' in Hl |- *. apply NoDup_cons in Hl as [Hl _].
    rewrite filter_cons_False by naive_solver. rewrite filter_every; [done|]. intros x Hx ->. done. }
  unfold continue_session. fold (settled_on p state). destruct (settled_on p state) as [s|].
  - cbn [fmap option_fmap option_map].
    destruct (rf_turn f) eqn:Et; cbn [rule]; [| |].
    + destruct (able p f) as [|c l] eqn:Eo; [done|]. rewrite <- Eo in *. cbv zeta.
      destruct (decide (ss_candidate s ∈ able p f)) as [Hin|Hin].
      * destruct (decide (NEW_TURN = TOOL_CONTINUATION \/ c = ss_candidate s)) as [[?|Hc]|Hc]; [done| |].
        -- unfold chosen. cbn [ranked to_front head next_state]. split_and!; [by rewrite Eo, Hc|by apply Hfront|].
           unfold remembered. cbn. rewrite (decide_True (P := ss_candidate s = ss_candidate s)) by done. by rewrite (Z.add_0_r (ss_switches s)).
        -- unfold chosen. cbn [ranked next_state]. split_and!; [done|done|]. rewrite Eo. cbn. unfold remembered. cbn.
           rewrite (decide_False (P := c = ss_candidate s)); [done|]. intros ->. apply Hc. by right.
      * unfold chosen. cbn [ranked next_state]. split_and!; [done|done|]. rewrite Eo. cbn. unfold remembered. cbn.
        rewrite (decide_False (P := c = ss_candidate s)); [done|].
        intros Hc. apply Hin. rewrite Eo, Hc. left.
    + destruct (able p f) as [|c l] eqn:Eo; [by rewrite decide_False by set_solver|]. rewrite <- Eo in *. cbv zeta.
      destruct (decide (ss_candidate s ∈ able p f)) as [Hin|Hin].
      * rewrite (decide_True (P := TOOL_CONTINUATION = TOOL_CONTINUATION \/ _)) by (by left).
        unfold chosen. cbn [ranked to_front head next_state].
        split_and!; [done|by apply Hfront|]. unfold remembered. cbn. rewrite (decide_True (P := ss_candidate s = ss_candidate s)) by done. by rewrite (Z.add_0_r (ss_switches s)).
      * unfold chosen. cbn [ranked next_state]. split_and!; [done|done|]. rewrite Eo. cbn. unfold remembered. cbn.
        rewrite (decide_False (P := c = ss_candidate s)); [done|].
        intros Hc. apply Hin. rewrite Eo, Hc. left.
    + unfold chosen. cbn [ranked next_state]. destruct (decide (ss_candidate s ∈ able p f)); [|done].
      split_and!; [done|by apply Hfront|done].
  - cbn [fmap option_fmap option_map]. destruct (rf_turn f); cbn [rule]; [| |done];
      (destruct (able p f) as [|c l]; [done|]; unfold chosen; cbn; done).
Qed.
End choice.

(** ** What a session keeps *)

Inductive session_op : Type :=
| SGet (k : skey) (now : Q)
| SPut (k : skey) (st : session_state) (now : Q).

Definition session_step (s : session_store) (o : session_op) : session_store :=
  match o with
  | SGet k now => (store_get s k now).1
  | SPut k st now => store_put s k st now
  end.

(** An entry is held, with at most [n] stored after it. *)
Definition held (s : session_store) (k : skey) (st : session_state) (t : Q) (n : nat) : Prop :=
  exists front back, entries s = front ++ (k, (st, t)) :: back /\ k ∉ front.*1 /\ (length back <= n)%nat.

Lemma held_get s k st t n now :
  held s k st t n -> (now - t <= idle_timeout s)%Q -> store_get s k now = (s, Some st).
Proof.
  intros (front & back & He & Hk & _) Ht. unfold store_get, session_entry. rewrite He.
  assert (find (fun e => bool_decide (e.1 = k)) (front ++ (k, (st, t)) :: back) = Some (k, (st, t))) as ->.
  { clear He. induction front as [|e front IH]; cbn; [by rewrite bool_decide_true|].
    apply not_elem_of_cons in Hk as [? Hk]. rewrite bool_decide_false by done. by apply IH. }
  cbn. by rewrite bool_decide_false by lra.
Qed.

(** Dropping from the front spares an entry that is live and recent enough. *)
Lemma drop_front {A} (l1 : list A) x l2 m : (length l2 < m)%nat ->
  exists l1', l1' `suffix_of` l1 /\ drop (length (l1 ++ x :: l2) - m) (l1 ++ x :: l2) = l1' ++ x :: l2.
Proof.
  intros Hm. exists (drop (length (l1 ++ x :: l2) - m) l1). split.
  - exists (take (length (l1 ++ x :: l2) - m) l1). by rewrite take_drop.
  - rewrite length_app. cbn. rewrite skipn_app. replace (length l1 + S (length l2) - m - length l1)%nat with 0%nat by lia. done.
Qed.

Lemma drop_idle_front timeout now l1 k st t l2 :
  (now - t <= timeout)%Q ->
  exists l1', l1' `suffix_of` l1 /\ drop_idle timeout now (l1 ++ (k, (st, t)) :: l2) = l1' ++ (k, (st, t)) :: l2.
Proof.
  intros Ht. induction l1 as [|[k' [st' t']] l1 IH]; cbn.
  - exists []. by rewrite bool_decide_true.
  - case_bool_decide; [by exists ((k', (st', t')) :: l1)|]. destruct IH as (l1' & Hs & ->).
    exists l1'. split; [by apply suffix_cons_r|done].
Qed.

Lemma suffix_fresh (k : skey) (l1 l2 : list (skey * (session_state * Q))) : l1 `suffix_of` l2 -> k ∉ l2.*1 -> k ∉ l1.*1.
Proof. intros [l ->]. rewrite fmap_app. set_solver. Qed.

Lemma held_put_own s k st now :
  (0 < idle_timeout s)%Q -> (1 <= max_sessions s)%nat -> held (store_put s k st now) k st now 0.
Proof.
  intros Hi Hm. unfold store_put, held. cbv zeta. cbn.
  destruct (drop_idle_front (idle_timeout s) now (without k (entries s)) k st now []) as (l1 & H1 & ->); [lra|].
  destruct (drop_front l1 (k, (st, now)) [] (max_sessions s)) as (l2 & H2 & ->); [cbn; lia|].
  exists l2, []. split_and!; [done| |done]. eapply suffix_fresh; [exact H2|]. eapply suffix_fresh; [exact H1|].
  unfold without. rewrite list_elem_of_fmap. intros (e & -> & He%list_elem_of_filter). naive_solver.
Qed.

Lemma held_get_other s k st t n k' now :
  held s k st t n -> (now - t <= idle_timeout s)%Q -> held (store_get s k' now).1 k st t n.
Proof.
  intros Hh Ht. destruct (decide (k' = k)) as [->|Hk]; [by rewrite (held_get s k st t n now) by done|].
  unfold store_get. destruct (session_entry s k') as [[st' t']|]; [|done]. case_bool_decide; [|done]. cbn.
  destruct Hh as (front & back & He & Hf & Hb). exists (without k' front), (without k' back). cbn. rewrite He.
  unfold without. rewrite filter_app, filter_cons_True by (cbn; congruence). split_and!; [done| |].
  - rewrite list_elem_of_fmap. intros (e & -> & Hin%list_elem_of_filter). apply Hf, list_elem_of_fmap. naive_solver.
  - etrans; [|exact Hb]. apply length_filter.
Qed.

Lemma held_put_other s k st t n k' st' now :
  held s k st t n -> (S n < max_sessions s)%nat -> k' <> k -> (now - t <= idle_timeout s)%Q ->
  held (store_put s k' st' now) k st t (S n).
Proof.
  intros (front & back & He & Hf & Hb) Hm Hk Ht. unfold store_put, held. cbv zeta. cbn. rewrite He.
  unfold without. rewrite filter_app, filter_cons_True by (cbn; congruence). rewrite <- app_assoc. cbn [app].
  set (f' := filter _ front). set (b' := filter _ back).
  assert (length b' <= length back)%nat as Hb' by apply length_filter.
  destruct (drop_idle_front (idle_timeout s) now f' k st t (b' ++ [(k', (st', now))])) as (l1 & H1 & ->); [done|].
  destruct (drop_front l1 (k, (st, t)) (b' ++ [(k', (st', now))]) (max_sessions s)) as (l2 & H2 & ->);
    [rewrite length_app; cbn; lia|].
  exists l2, (b' ++ [(k', (st', now))]). split_and!; [done| |rewrite length_app; cbn; lia].
  eapply suffix_fresh; [exact H2|]. eapply suffix_fresh; [exact H1|]. rewrite list_elem_of_fmap.
  intros (e & -> & Hin%list_elem_of_filter). apply Hf, list_elem_of_fmap. naive_solver.
Qed.

Lemma session_settings s o :
  idle_timeout (session_step s o) = idle_timeout s /\ max_sessions (session_step s o) = max_sessions s.
Proof.
  destruct o as [k t|k st t]; cbn; [|done]. unfold store_get.
  destruct (session_entry s k) as [[? ?]|]; [case_bool_decide|]; done.
Qed.

Definition is_put (o : session_op) : bool := match o with SPut _ _ _ => true | SGet _ _ => false end.
Definition spares (k : skey) (t idle : Q) (o : session_op) : Prop :=
  match o with
  | SGet _ now => (now - t <= idle)%Q
  | SPut k' _ now => k' <> k /\ (now - t <= idle)%Q
  end.

(** A session is remembered until it has been idle for the timeout, or as many others
    as the store holds were stored since. *)
Lemma session_remembered s k st t ops now :
  (0 < idle_timeout s)%Q -> (1 <= max_sessions s)%nat -> Forall (spares k t (idle_timeout s)) ops ->
  (length (filter is_put ops) < max_sessions s)%nat -> (now - t <= idle_timeout s)%Q ->
  (store_get (fold_left session_step ops (store_put s k st t)) k now).2 = Some st.
Proof.
  intros Hi Hm Hops Hn Hnow.
  assert (forall l s' n, idle_timeout s' = idle_timeout s -> max_sessions s' = max_sessions s -> held s' k st t n ->
    Forall (spares k t (idle_timeout s)) l -> (n + length (filter is_put l) < max_sessions s)%nat ->
    idle_timeout (fold_left session_step l s') = idle_timeout s /\ exists m, held (fold_left session_step l s') k st t m) as Hrun.
  { induction l as [|o l IH]; intros s' n Hti Hmx Hh Hl Hc; [by eauto|]. inversion Hl as [|? ? Ho Hl']; subst.
    destruct (session_settings s' o) as [E1 E2]. cbn [fold_left]. rewrite filter_bool_cons in Hc.
    destruct o as [k' t'|k' st' t']; cbn in Ho, Hc.
    - apply (IH _ n); [congruence..| |done|done]. apply held_get_other; [done|by rewrite Hti].
    - destruct Ho as [Hk Ht]. apply (IH _ (S n)); [congruence..| |done|lia].
      apply held_put_other; [done|lia|done|by rewrite Hti]. }
  destruct (Hrun ops (store_put s k st t) 0%nat eq_refl eq_refl (held_put_own s k st t Hi Hm) Hops Hn) as [Ht [m Hh]].
  by rewrite (held_get _ _ _ _ _ now Hh) by (by rewrite Ht).
Qed.

(** ** The choice for one request *)

Section requests_served.
Context (table : chars -> option model_entry) (user : option user_ctx) (override : chars -> option string).
Notation reachable := (reachable table user override).
Notation catalog := (catalog table user override).
Notation able := (able table user override).

(** A model the caller may use, with an endpoint admitted. *)
Definition usable (model canonical : chars) : Prop :=
  exists e, table model = Some e /\ model_access_denial (me_route e) model user override true = None /\
    me_eligible e <> [] /\ canonical = route_canonical_model_id (me_route e) model.

Lemma catalog_usable model info :
  catalog model = Some info -> usable model (from_option re_canonical [] (reachable model)).
Proof.
  unfold AutoMode.catalog, AutoMode.reachable, usable. destruct (table model) as [e|]; [|done].
  destruct (me_configs e); [done|]. destruct (model_access_denial _ _ _ _ _) eqn:Ed; [done|].
  destruct (me_eligible e) as [|x xs] eqn:Ee; [done|]. intros _. exists e.
  by rewrite Ed, Ee.
Qed.

(** Why a request nobody can serve is refused.  A candidate dropped for its [EFFORT]
    alone does not count as unfit: the code answers 404 for it. *)
Definition refusal_status (p : auto_profile) (f : request_features) (status : Z) : Prop :=
  let down := exists c r, c ∈ pf_candidates p /\ reachable (cand_model c) = Some r /\ drop_reason c (Some (re_info r)) f = None in
  let unfit := exists c r y, c ∈ pf_candidates p /\ reachable (cand_model c) = Some r /\
                 drop_reason c (Some (re_info r)) f = Some y /\ (y = CONTEXT \/ y = MODALITY \/ y = TOOLS) in
  (status = 503 /\ down) \/ (status = 400 /\ ~ down /\ unfit) \/ (status = 404 /\ ~ down /\ ~ unfit).

Lemma unavailable_reasons_spec l f :
  match unavailable_reasons table user override l f with
  | None => exists c r, c ∈ l /\ reachable (cand_model c) = Some r /\ drop_reason c (Some (re_info r)) f = None
  | Some reasons =>
      ~ (exists c r, c ∈ l /\ reachable (cand_model c) = Some r /\ drop_reason c (Some (re_info r)) f = None) /\
      forall y, y ∈ reasons <->
        exists c r, c ∈ l /\ reachable (cand_model c) = Some r /\ drop_reason c (Some (re_info r)) f = Some y
  end.
Proof.
  induction l as [|c l IH]; cbn [unavailable_reasons]; [set_solver|].
  destruct (reachable (cand_model c)) as [r|] eqn:Er.
  - destruct (drop_reason c (Some (re_info r)) f) as [y|] eqn:Ed.
    + destruct (unavailable_reasons _ _ _ l f) as [rs|]; cbn [fmap option_fmap option_map].
      * destruct IH as [Hno Hiff]. split.
        -- intros (x & r' & [->|Hx]%elem_of_cons & Hr & Hd); [congruence|]. apply Hno. eauto.
        -- intros y'. rewrite elem_of_cons, Hiff. setoid_rewrite elem_of_cons. split.
           ++ intros [->|(x & r' & ? & ? & ?)]; [exists c, r; auto|exists x, r'; auto].
           ++ intros (x & r' & [->|Hx] & Hr & Hd); [left; congruence|right; eauto].
      * destruct IH as (x & r' & Hx & Hr & Hd). exists x, r'. split_and!; [by right|done..].
    + exists c, r. split_and!; [left|done..].
  - destruct (unavailable_reasons _ _ _ l f) as [rs|].
    + destruct IH as [Hno Hiff]. split.
      * intros (x & r' & [->|Hx]%elem_of_cons & Hr & Hd); [congruence|]. apply Hno. eauto.
      * intros y. rewrite Hiff. setoid_rewrite elem_of_cons. split; [naive_solver|].
        intros (x & r' & [->|Hx] & Hr & Hd); [congruence|eauto].
    + destruct IH as (x & r' & Hx & Hr & Hd). exists x, r'. split_and!; [by right|done..].
Qed.

Lemma unavailable_status p f : refusal_status p f (_unavailable table user override (pf_candidates p) f).
Proof.
  unfold refusal_status, _unavailable. cbv zeta. pose proof (unavailable_reasons_spec (pf_candidates p) f) as Hs.
  destruct (unavailable_reasons _ _ _ _ f) as [rs|]; [|by left]. destruct Hs as [Hno Hiff]. right.
  destruct (existsb _ rs) eqn:Ee; [left|right]; (split_and!; [done|done|]).
  - apply existsb_exists in Ee as (y & Hy%list_elem_of_In & Hb%bool_decide_eq_true). apply Hiff in Hy. naive_solver.
  - intros (c & r & y & Hc & Hr & Hd & Hy). apply not_true_iff_false in Ee. apply Ee, existsb_exists.
    exists y. split; [apply list_elem_of_In, Hiff; eauto|by apply bool_decide_eq_true].
Qed.

(** C15: auto mode serves with the model its rules name.  With an accepted
    configuration, a request for a tier is served by a candidate of that tier whose
    model the caller may use, which has an endpoint admitted and can take the
    request: the session's own candidate in a tool loop or a side call while it is
    able, the first able one in the configured order otherwise.  What the session
    remembers is that candidate, its turn counted and a switch counted when it
    changed, as long as the store keeps sessions at all (a positive idle timeout and
    room for one); a side call changes nothing.  A request for no tier is answered 404.
    A request for a tier is refused only if no candidate is able: with 503 if one the
    caller may use would be able were an endpoint admitted; otherwise with 400 if one
    the caller may use falls short of the request's context, media or tools; otherwise
    with 404, also when the only thing a model the caller may use lacks is the
    candidate's effort level. *)
Theorem auto_select_correct version sp c s requested f session t1 t2 s' r :
  parse_auto_config version sp = Ok c ->
  auto_select table user override c s requested f session t1 t2 = (s', r) ->
  let state := k ← session; (store_get s k t1).2 in
  match resolve c requested with
  | None => r = Raise 404 /\ s' = s
  | Some p =>
      match r with
      | Raise status => able p f = [] /\ refusal_status p f status
      | Ok sel =>
          let x := as_candidate sel in
          rule (able p f) (rf_turn f) (settled_on p state) = Some x /\ x ∈ able p f /\
          usable (cand_model x) (as_model_id sel) /\
          match session with
          | None => s' = s
          | Some k =>
              if decide (rf_turn f = SIDE_CALL) then s' = (store_get s k t1).1
              else (0 < idle_timeout s)%Q -> (1 <= max_sessions s)%nat ->
                   (store_get s' k t2).2 = Some (remembered p (rf_turn f) (settled_on p state) x)
          end
      end
  end.
Proof.
  intros Hc E state. unfold auto_select in E. destruct (resolve c requested) as [p|] eqn:Ep; [|by injection E as <- <-].
  destruct (parsed_profiles _ _ _ Hc) as [_ Hall]. destruct (Hall _ _ Ep) as [Hn _]. clear Hall.
  assert (match session with Some k => store_get s k t1 | None => (s, None) end =
          (from_option (fun k => (store_get s k t1).1) s session, state)) as Hget.
  { subst state. destruct session as [k|]; [|done]. cbn. by destruct (store_get s k t1). }
  rewrite Hget in E. cbv zeta in E.
  destruct (select_rule table user override p f state Hn) as (Hch & Hperm & Hnext).
  destruct (chosen (select p f catalog state)) as [x|] eqn:Ex.
  - injection E as <- <-. cbn [as_candidate as_model_id].
    assert (x ∈ able p f) as Hx.
    { rewrite <- Hperm. unfold chosen in Ex. destruct (ranked _); [done|]. injection Ex as ->. left. }
    split_and!; [by rewrite <- Hch|done| |].
    + apply list_elem_of_filter in Hx as [Hd _]. destruct (catalog (cand_model x)) as [i|] eqn:Ei; [|done].
      by eapply catalog_usable.
    + destruct session as [k|]; [|done]. cbn [from_option]. rewrite Hnext.
      destruct (decide (rf_turn f = SIDE_CALL)); [done|]. cbn [fmap option_fmap option_map]. intros Hi Hm.
      assert (idle_timeout (store_get s k t1).1 = idle_timeout s /\ max_sessions (store_get s k t1).1 = max_sessions s)
        as [E1 E2] by apply (session_settings s (SGet k t1)).
      rewrite (held_get _ _ (remembered p (rf_turn f) (settled_on p state) x) t2 0); [done| |cbn; rewrite E1; lra].
      apply held_put_own; [by rewrite E1|by rewrite E2].
  - injection E as <- <-. split; [|apply unavailable_status].
    unfold chosen in Ex. apply head_None in Ex. rewrite Ex in Hperm. by apply Permutation_nil_l in Hperm.
Qed.
End requests_served.

(** ** A tier of two models *)

Module SampleAuto.
Definition m1 : candidate := Candidate (chars_of "big") (Some (chars_of "high")).
Definition m2 : candidate := Candidate (chars_of "mid") None.
Definition spec : auto_spec := AutoSpec (chars_of "balance") [(chars_of "balance", [m1; m2])].
Definition version (_ : chars) (l : list candidate) : chars := [N.of_nat (length l)].
Definition conf : auto_config := match parse_auto_config version spec with Ok c => c | Raise _ => AutoConfig [] [] end.
Definition mc (context : Z) : model_config := ModelConfig context 1000 [] true true [chars_of "high"].
Definition entry (name : string) (up : bool) : model_entry :=
  ModelEntry (ModelRoute true (Some (chars_of name, chars_of "chat")) "free" false) [mc 4000] (if up then [mc 4000] else []).
(** The big model's endpoints are down. *)
Definition table (m : chars) : option model_entry :=
  if decide (m = chars_of "big") then Some (entry "big" false)
  else if decide (m = chars_of "mid") then Some (entry "mid" true) else None.
Definition ask (turn : turn_kind) : request_features := RequestFeatures 1000 turn (Some 500) {[chars_of "text"]} true.
Definition key : skey := ("ann"%string, None, Some (chars_of "s"), None).
Definition store : session_store := SessionStore 1800 10 [].

(** A model whose only candidate asks for an effort it does not take: the caller may
    use it, and is told it does not exist. *)
Definition odd : auto_spec := AutoSpec (chars_of "odd") [(chars_of "odd", [Candidate (chars_of "mid") (Some (chars_of "max"))])].
Definition odd_conf : auto_config := match parse_auto_config version odd with Ok c => c | Raise _ => AutoConfig [] [] end.
Example effort_only_404 :
  (auto_select table None (fun _ => None) odd_conf store (chars_of "auto") (ask NEW_TURN) None 0 0).2 = Raise 404.
Proof. vm_compute. reflexivity. Qed.
End SampleAuto.

Lemma auto_select_correct_witness :
  exists sel, (auto_select SampleAuto.table None (fun _ => None) SampleAuto.conf SampleAuto.store (chars_of "auto-balance")
                 (SampleAuto.ask TOOL_CONTINUATION) (Some SampleAuto.key) 0 1).2 = Ok sel /\
    as_candidate sel = SampleAuto.m2.
Proof.
  pose proof (auto_select_correct SampleAuto.table None (fun _ => None) SampleAuto.version SampleAuto.spec SampleAuto.conf
    SampleAuto.store (chars_of "auto-balance") (SampleAuto.ask TOOL_CONTINUATION) (Some SampleAuto.key) 0 1 _ _ eq_refl
    (surjective_pairing _)) as Hs.
  destruct (auto_select _ _ _ _ _ _ _ _ _ _).2 as [sel|e] eqn:E; [|exfalso; revert E; vm_compute; discriminate].
  exists sel. split; [done|]. cbv zeta in Hs.
  destruct (resolve SampleAuto.conf (chars_of "auto-balance")) as [p|] eqn:Ep; [|by destruct Hs].
  destruct Hs as [Hr _]. assert (Some p = resolve SampleAuto.conf (chars_of "auto-balance")) as Hp by done.
  vm_compute in Hp. injection Hp as ->. revert Hr. vm_compute. congruence.
Defined.
