(* ===== verification/HybridFrames.v ===== *)
(** The SSE frames of a streamed answer: which ones the client sees, what the
    hybrid layer adds to them ([routing/hybrid_stream_frames.py]) and what the
    serving layer forwards ([serving/openai_chat_serializer.py]).

    A frame is text; parsing it is the JSON scanner of [GrantToken], and writing
    one is [json.dumps] here.  A dict is the list of its items, a JSON object the
    list of the members read, so that a name given twice is resolved where the
    dict is made. *)

From S2P Require Import Prelude PyText GrantToken.

Local Open Scope N_scope.

(** ** Python values read from JSON *)

(** [d[k] = v] on the items of a dict: in place, or at the end. *)
Fixpoint set_item {A} (k : chars) (v : A) (d : list (chars * A)) : list (chars * A) :=
  match d with
  | [] => [(k, v)]
  | (k', v') :: d => if decide (k' = k) then (k, v) :: d else (k', v') :: set_item k v d
  end.

(** The dict made of a sequence of members. *)
Definition dict_items {A} (ms : list (chars * A)) : list (chars * A) :=
  fold_left (fun d m => set_item m.1 m.2 d) ms [].

(** [d.get(k)]; [None] is Python's, from an absent member or a [null]. *)
Definition get (k : string) (ms : list (chars * json)) : option json :=
  match member (chars_of k) ms with
  | None | Some JNull => None
  | Some v => Some v
  end.

(** [d.pop(k, None)] *)
Definition pop_key (k : string) (ms : list (chars * json)) : list (chars * json) :=
  filter (fun m => m.1 <> chars_of k) ms.

(** A number is zero: every digit before its exponent is. *)
Fixpoint zero_lexeme (l : chars) : bool :=
  match l with
  | [] => true
  | c :: l => if (c =? 101) || (c =? 69) then true
              else if (c =? 45) || (c =? 46) || (c =? 48) then zero_lexeme l else false
  end.

(** [bool(v)] *)
Definition truthy_json (v : option json) : bool :=
  match v with
  | None | Some JNull | Some (JString []) | Some (JArray []) | Some (JObject []) => false
  | Some (JBool b) => b
  | Some (JNumber n) => negb (zero_lexeme n)
  | _ => true
  end.

(** [str] of the number a lexeme is read as ([1e3] is written [1000.0]). *)
Class NumberText := number_text : chars -> chars.

Fixpoint join_text (sep : chars) (parts : list chars) : chars :=
  match parts with
  | [] => []
  | [p] => p
  | p :: rest => p ++ sep ++ join_text sep rest
  end.

(** [json.dumps] *)
Fixpoint dumps `{NumberText} (v : json) : chars :=
  match v with
  | JNull => chars_of "null"
  | JBool true => chars_of "true"
  | JBool false => chars_of "false"
  | JNumber n => number_text n
  | JString s => dumps_string s
  | JArray items => chars_of "[" ++ join_text (chars_of ", ") (List.map dumps items) ++ chars_of "]"
  | JObject ms =>
      chars_of "{" ++
      join_text (chars_of ", ")
        (List.map (fun m => dumps_string m.1 ++ chars_of ": " ++ m.2)
           (dict_items (List.map (fun m => (m.1, dumps m.2)) ms))) ++
      chars_of "}"
  end.

(** ** Frames *)

(** What a stream yields: a string, a dict, or anything else (bytes). *)
Inductive chunk : Type :=
| Text (t : chars)
| Dict (ms : list (chars * json))
| Opaque (n : nat).

Definition DATA : chars := chars_of "data: ".
Definition _ROUTING_KEY : chars := QUOTE :: chars_of "_routing" ++ [QUOTE].

(** [carries_routing] *)
Definition carries_routing (c : chunk) : bool :=
  match c with
  | Text t => contains _ROUTING_KEY t
  | _ => true
  end.

(** The dict of a [data:] frame that may carry routing: what both readers below
    do before they look at it. *)
Definition frame_payload (c : chunk) : option (list (chars * json)) :=
  match c with
  | Text t =>
      if negb (is_prefix DATA t) then None
      else if negb (carries_routing c) then None
      else
        let raw := strip (drop 6 t) in
        if bool_decide (raw = chars_of "[DONE]") then None
        else match loads_text raw with
             | Some (JObject ms) => Some ms
             | _ => None
             end
  | _ => None
  end.

(** [is_client_visible] *)
Definition is_client_visible (c : chunk) : bool :=
  match frame_payload c with
  | None => true
  | Some ms =>
      match member (chars_of "_routing") ms with
      | None => true
      | Some _ => truthy_json (member (chars_of "choices") ms) || bool_decide (is_Some (get "usage" ms))
      end
  end.

(** [routing.setdefault("backend", name)] and the like. *)
Definition setdefault (k : string) (v : json) (ms : list (chars * json)) : list (chars * json) :=
  match member (chars_of k) ms with
  | Some _ => ms
  | None => set_item (chars_of k) v ms
  end.

(** An [f"data: {json.dumps(payload)}\n\n"] frame. *)
Definition data_frame `{NumberText} (payload : json) : chunk := Text (DATA ++ dumps payload ++ [10; 10]).

(** [tag_backend_chunk] *)
Definition tag_backend_chunk `{NumberText} (c : chunk) (backend_name : chars) : chunk :=
  match frame_payload c with
  | None => c
  | Some ms =>
      match member (chars_of "_routing") ms with
      | Some (JObject routing) =>
          data_frame (JObject (set_item (chars_of "_routing")
            (JObject (setdefault "backend" (JString backend_name) (dict_items routing))) (dict_items ms)))
      | _ => c
      end
  end.

(** ** The serving layer *)

(** [SerializerMode] *)
Inductive serializer_mode : Type := STRICT_OPENAI | REASONING_PASSTHROUGH.

(** [SanitizeResult] *)
Record sanitize_result : Type := SanitizeResult {
  chunk_json : option (list (chars * json));
  should_forward : bool;
  usage_data : option json;
  routing_info : option json
}.

(** The choices with the first one's delta stripped of its reasoning. *)
Definition strip_reasoning (choice : list (chars * json)) (delta : list (chars * json)) : json :=
  JObject (set_item (chars_of "delta")
    (JObject (pop_key "thinking" (pop_key "reasoning" (pop_key "reasoning_content" delta)))) (dict_items choice)).

(** [sanitize_chunk]; [None] is the exception raised when [choices[0]] or its delta
    is no object. *)
Definition sanitize_chunk (payload : list (chars * json)) (mode : serializer_mode) :
    option sanitize_result :=
  let usage := get "usage" payload in
  let routing := get "_routing" payload in
  let kept := pop_key "_routing" (dict_items payload) in
  if bool_decide (is_Some routing) && negb (truthy_json (member (chars_of "choices") payload)) &&
     bool_decide (usage = None)
  then Some (SanitizeResult None false usage routing)
  else
    match mode with
    | REASONING_PASSTHROUGH => Some (SanitizeResult (Some kept) true usage routing)
    | STRICT_OPENAI =>
        let choices := member (chars_of "choices") payload in
        if negb (truthy_json choices) then Some (SanitizeResult (Some kept) true usage routing)
        else
          match choices with
          | Some (JArray (JObject choice :: others)) =>
              match default (JObject []) (member (chars_of "delta") choice) with
              | JObject delta =>
                  let has_reasoning := truthy_json (member (chars_of "reasoning_content") delta) ||
                    truthy_json (member (chars_of "reasoning") delta) ||
                    truthy_json (member (chars_of "thinking") delta) in
                  let has_content := truthy_json (member (chars_of "content") delta) in
                  let has_tool_calls := truthy_json (member (chars_of "tool_calls") delta) in
                  if has_reasoning && negb has_content && negb has_tool_calls
                  then Some (SanitizeResult None false usage routing)
                  else if has_reasoning && (has_content || has_tool_calls)
                  then Some (SanitizeResult
                         (Some (set_item (chars_of "choices")
                            (JArray (strip_reasoning choice (dict_items delta) :: others)) kept))
                         true usage routing)
                  else Some (SanitizeResult (Some kept) true usage routing)
              | _ => None
              end
          | _ => None
          end
    end.

(** ** What is written is read back *)

Lemma set_item_fresh {A} k (v : A) d : k ∉ d.*1 -> set_item k v d = d ++ [(k, v)].
Proof.
  induction d as [|[k' v'] d IH]; [done|]. cbn. intros Hk. apply not_elem_of_cons in Hk as [? Hk].
  rewrite decide_False by done. by rewrite IH.
Qed.

Lemma dict_items_app {A} (d ms : list (chars * A)) :
  NoDup (d ++ ms).*1 -> fold_left (fun d m => set_item m.1 m.2 d) ms d = d ++ ms.
Proof.
  revert d; induction ms as [|[k v] ms IH]; intros d Hd; simpl; [by rewrite app_nil_r|].
  rewrite set_item_fresh.
  - rewrite IH, <- app_assoc; [done|]. by rewrite <- app_assoc.
  - rewrite fmap_app in Hd. apply NoDup_app in Hd as (_ & Hd & _). intros Hk. apply (Hd k Hk). set_solver.
Qed.

(** A dict without repeated names is its items. *)
Lemma dict_items_id {A} (ms : list (chars * A)) : NoDup ms.*1 -> dict_items ms = ms.
Proof. intros Hm. unfold dict_items. by rewrite dict_items_app. Qed.

(** What may follow a value inside a document. *)
Definition value_end (rest : chars) : Prop :=
  match rest with [] => True | c :: _ => c = 44 \/ c = 93 \/ c = 125 end.

Section dumps.
Context `{NumberText}.

(** Values [json.dumps] writes so that they read back: distinct names, strings of
    scalar values, numbers in the form Python writes. *)
Fixpoint json_ok (v : json) : Prop :=
  match v with
  | JNull | JBool _ => True
  | JNumber n =>
      number_text n = n /\ forall rest, value_end rest -> scan_number (n ++ rest) = Some (n, rest)
  | JString s => Forall scalar s
  | JArray items => foldr (fun v P => json_ok v /\ P) True items
  | JObject ms =>
      NoDup ms.*1 /\ foldr (fun m P => (Forall scalar m.1 /\ json_ok m.2) /\ P) True ms
  end.

(** [text] is read as [v], whatever follows it. *)
Definition reads_as (text : chars) (v : json) : Prop :=
  exists n, forall m rest, (n <= m)%nat -> value_end rest -> scan_once m (text ++ rest) = Some (v, rest).

(** A written value starts with neither whitespace nor a closing bracket. *)
Definition starts_value (text : chars) : Prop :=
  match text with [] => False | c :: _ => is_ws c = false /\ c <> 93 /\ c <> 125 end.

Lemma number_head n :
  (forall rest, value_end rest -> scan_number (n ++ rest) = Some (n, rest)) ->
  match n with [] => False | c :: _ => c = 45 \/ is_digit c = true end.
Proof.
  intros Hn. specialize (Hn [] I). rewrite app_nil_r in Hn. destruct n as [|c n]; [done|].
  unfold scan_number in Hn. destruct (c =? 45) eqn:Ec; [left; lia|]. right.
  destruct (c =? 48) eqn:E0; [unfold is_digit, in_range; lia|].
  destruct (in_range 49 57 c) eqn:E1; [|done]. unfold is_digit, in_range in *. lia.
Qed.

Lemma dumps_starts v : json_ok v -> starts_value (dumps v).
Proof.
  destruct v as [|[]|n|s|items|ms]; cbn [dumps json_ok]; try done.
  intros [-> Hn]. apply number_head in Hn. destruct n as [|c n]; [done|]. cbn.
  unfold is_digit, in_range, is_ws in *. destruct Hn as [->|Hn]; [done|]. lia.
Qed.

Lemma skip_ws_id c l : is_ws c = false -> skip_ws (c :: l) = c :: l.
Proof. simpl. by intros ->. Qed.

Lemma skip_ws_starts text rest : starts_value text -> skip_ws (text ++ rest) = text ++ rest.
Proof. destruct text as [|c t]; [done|]. intros [? _]. by apply skip_ws_id. Qed.

Lemma dumped_string s rest : Forall scalar s ->
  exists t, dumps_string s ++ rest = QUOTE :: t /\ scanstring t = Some (s, rest).
Proof.
  intros Hs. exists ((s ≫= escape_char) ++ QUOTE :: rest). split; [|by apply scan_dumped].
  unfold dumps_string. by rewrite <- app_comm_cons, <- app_assoc.
Qed.

Lemma reads_string s : Forall scalar s -> reads_as (dumps_string s) (JString s).
Proof.
  intros Hs. exists 1%nat. intros [|m] rest Hm _; [lia|].
  destruct (dumped_string s rest Hs) as (t & -> & Ht). cbn [scan_once]. by rewrite N.eqb_refl, Ht.
Qed.

Lemma reads_number n :
  (forall rest, value_end rest -> scan_number (n ++ rest) = Some (n, rest)) -> reads_as n (JNumber n).
Proof.
  intros Hn. exists 1%nat. intros [|m] rest Hm Hr; [lia|]. pose proof (number_head n Hn) as Hh.
  destruct n as [|c n]; [done|]. specialize (Hn rest Hr).
  assert ((c =? QUOTE) = false /\ (c =? 123) = false /\ (c =? 91) = false) as (E1 & E2 & E3)
    by (unfold is_digit, in_range, QUOTE in *; lia).
  cbn [app scan_once]. rewrite E1, E2, E3. cbn [app] in Hn. rewrite Hn.
  assert (forall a w, (Ascii.N_of_ascii a =? c) = false -> word (String a w) (c :: n ++ rest) = None) as Hw.
  { intros a w Ha. unfold word, chars_of. simpl. unfold char_eqb. by rewrite Ha. }
  rewrite !Hw; [done|..]; cbn; unfold is_digit, in_range in Hh; lia.
Qed.

(** The items of a non-empty array, up to its bracket. *)
Lemma reads_items items :
  Forall (fun v => reads_as (dumps v) v /\ starts_value (dumps v)) items -> items <> [] ->
  exists n, forall m rest, (n <= m)%nat ->
    scan_items m (join_text [44; 32] (List.map dumps items) ++ 93 :: rest) = Some (items, rest).
Proof.
  induction 1 as [|v items [[n Hv] Hs] Hi IH]; [done|]. intros _. destruct items as [|v' items].
  - exists (S n). intros [|m] rest Hm; [lia|]. cbn [List.map join_text scan_items].
    rewrite Hv; [done|lia|simpl; tauto].
  - destruct (IH ltac:(done)) as [n' Hrest]. exists (S (n + n')). intros [|m] rest Hm; [lia|].
    set (more := v' :: items) in *.
    assert (join_text [44; 32] (List.map dumps (v :: more)) =
      dumps v ++ [44; 32] ++ join_text [44; 32] (List.map dumps more)) as -> by done.
    cbn [scan_items]. rewrite <- !app_assoc. rewrite Hv; [|lia|simpl; tauto].
    assert (starts_value (join_text [44; 32] (List.map dumps more))) as Hs'.
    { apply Forall_inv in Hi as [_ Hs']. unfold more. cbn [List.map join_text].
      destruct (List.map dumps items); [done|]. by destruct (dumps v'). }
    cbn [mbind option_bind app]. rewrite skip_ws_id by done. cbn -[join_text skip_ws].
    assert (forall t, skip_ws (32 :: t) = skip_ws t) as -> by done.
    rewrite skip_ws_starts by done. rewrite Hrest by lia. done.
Qed.

(** One member of an object. *)
Definition written (m : chars * json) : chars := dumps_string m.1 ++ [58; 32] ++ dumps m.2.

(** The members of a non-empty object, up to its brace. *)
Lemma reads_members ms :
  Forall (fun m => Forall scalar m.1 /\ reads_as (dumps m.2) m.2 /\ starts_value (dumps m.2)) ms -> ms <> [] ->
  exists n, forall m rest, (n <= m)%nat ->
    scan_members m (join_text [44; 32] (List.map written ms) ++ 125 :: rest) = Some (ms, rest).
Proof.
  induction 1 as [|[k v] ms (Hk & [n Hv] & Hs) Hi IH]; [done|]. intros _. cbn [fst snd] in *.
  assert (forall m rest, (S n <= m)%nat -> value_end rest ->
    scan_members m (written (k, v) ++ rest) =
      match skip_ws rest with
      | d :: r => if d =? 125 then Some ([(k, v)], r)
                  else if d =? 44 then '(ms, r) ← scan_members (m - 1) (skip_ws r); Some ((k, v) :: ms, r)
                  else None
      | [] => None
      end) as Hone.
  { intros [|m] rest Hm Hr; [lia|]. unfold written. cbn [fst snd]. rewrite <- !app_assoc.
    destruct (dumped_string k ([58; 32] ++ dumps v ++ rest) Hk) as (t & -> & Ht).
    cbn [scan_members]. rewrite N.eqb_refl, Ht. cbn [mbind option_bind app].
    rewrite skip_ws_id by done. cbn -[skip_ws dumps scan_members].
    assert (forall t, skip_ws (32 :: t) = skip_ws t) as -> by done.
    rewrite skip_ws_starts, Hv by (done || lia). cbn -[skip_ws scan_members].
    by rewrite Nat.sub_0_r. }
  destruct ms as [|m' ms].
  - exists (S n). intros m rest Hm. cbn [List.map join_text]. rewrite Hone; [done|lia|simpl; tauto].
  - destruct (IH ltac:(done)) as [n' Hrest]. exists (S (n + n')). intros m rest Hm.
    set (more := m' :: ms) in *.
    assert (join_text [44; 32] (List.map written ((k, v) :: more)) =
      written (k, v) ++ [44; 32] ++ join_text [44; 32] (List.map written more)) as -> by done.
    rewrite <- !app_assoc. rewrite Hone; [|lia|simpl; tauto]. rewrite <- app_comm_cons, skip_ws_id by done.
    cbn -[join_text skip_ws scan_members]. assert (forall t, skip_ws (32 :: t) = skip_ws t) as -> by done.
    assert (starts_value (join_text [44; 32] (List.map written more))) as Hs'.
    { unfold more. cbn [List.map join_text]. by destruct (List.map written ms). }
    rewrite skip_ws_starts by done. rewrite Hrest by lia. done.
Qed.

Lemma written_items ms : NoDup ms.*1 ->
  List.map (fun m => dumps_string m.1 ++ chars_of ": " ++ m.2)
    (dict_items (List.map (fun m => (m.1, dumps m.2)) ms)) = List.map written ms.
Proof.
  intros Hm. rewrite dict_items_id; [by rewrite List.map_map|].
  assert ((List.map (fun m => (m.1, dumps m.2)) ms).*1 = ms.*1) as ->; [|done].
  clear Hm. induction ms as [|m ms IH]; [done|]. cbn. by f_equal.
Qed.

Lemma dumps_reads v : json_ok v -> reads_as (dumps v) v.
Proof.
  revert v; fix IH 1; intros [|[]|n|s|items|ms] Hv.
  - exists 1%nat. intros [|m] rest Hm _; [lia|done].
  - exists 1%nat. intros [|m] rest Hm _; [lia|done].
  - exists 1%nat. intros [|m] rest Hm _; [lia|done].
  - destruct Hv as [Ht Hn]. cbn [dumps]. rewrite Ht. by apply reads_number.
  - by apply reads_string.
  - assert (Forall (fun v => reads_as (dumps v) v /\ starts_value (dumps v)) items) as Hi.
    { cbn [json_ok] in Hv. induction items as [|v items IHi]; [constructor|]. destruct Hv as [Hv Hvs].
      constructor; [split; [by apply IH|by apply dumps_starts]|by apply IHi]. }
    destruct items as [|v items]; [exists 2%nat; intros [|m] rest Hm _; [lia|done]|].
    destruct (reads_items _ Hi ltac:(done)) as [n Hn]. exists (S n). intros [|m] rest Hm _; [lia|].
    cbn [dumps]. change (chars_of "[") with [91]. change (chars_of "]") with [93].
    change (chars_of ", ") with [44; 32].
    rewrite <- !app_assoc. cbn [app scan_once]. change (91 =? QUOTE) with false. cbn [N.eqb Pos.eqb].
    specialize (Hn m rest ltac:(lia)). apply Forall_inv in Hi as [_ Hs].
    assert (exists c t, join_text [44; 32] (List.map dumps (v :: items)) ++ 93 :: rest = c :: t /\
      is_ws c = false /\ c <> 93) as (c & t & E & Hc & Hc').
    { cbn [List.map join_text]. destruct (dumps v) as [|c t]; [done|]. destruct Hs as (? & ? & _).
      destruct (List.map dumps items); eauto. }
    rewrite E in Hn |- *. rewrite skip_ws_id by done. apply N.eqb_neq in Hc'. by rewrite Hc', Hn.
  - destruct Hv as [Hd Hv].
    assert (Forall (fun m => Forall scalar m.1 /\ reads_as (dumps m.2) m.2 /\ starts_value (dumps m.2)) ms) as Hi.
    { clear Hd. induction ms as [|[k v] ms IHi]; [constructor|]. destruct Hv as [[Hk Hv] Hvs].
      constructor; [split; [done|]; split; [by apply IH|by apply dumps_starts]|by apply IHi]. }
    destruct ms as [|m0 ms]; [exists 2%nat; intros [|m] rest Hm _; [lia|done]|].
    destruct (reads_members _ Hi ltac:(done)) as [n Hn]. exists (S n). intros [|m] rest Hm _; [lia|].
    cbn [dumps]. rewrite written_items by done. change (chars_of "{") with [123]. change (chars_of "}") with [125].
    change (chars_of ", ") with [44; 32].
    rewrite <- !app_assoc. cbn [app scan_once]. change (123 =? QUOTE) with false. cbn [N.eqb Pos.eqb].
    specialize (Hn m rest ltac:(lia)).
    assert (exists t, join_text [44; 32] (List.map written (m0 :: ms)) ++ 125 :: rest = QUOTE :: t) as (t & E).
    { cbn [List.map join_text]. destruct (List.map written ms); by eexists. }
    rewrite E in Hn |- *. rewrite skip_ws_id by done. change (QUOTE =? 125) with false. by rewrite Hn.
Qed.

(** [json.loads(json.dumps(v))] *)
Lemma loads_dumps v : json_ok v -> loads_text (dumps v) = Some v.
Proof.
  intros Hv. destruct (dumps_reads v Hv) as [n Hn].
  rewrite (loads_text_fuel _ (n + 2 + 2 * length (skip_ws (dumps v)))) by lia.
  rewrite <- (app_nil_r (dumps v)), skip_ws_starts by (by apply dumps_starts).
  by rewrite Hn by (done || lia).
Qed.

End dumps.

(** ** Frames the gateway writes *)

Lemma is_prefix_app p l : is_prefix p (p ++ l) = true.
Proof. induction p as [|c p IH]; [done|]. cbn. unfold char_eqb. by rewrite N.eqb_refl. Qed.

Lemma contains_app p a b : contains p (a ++ p ++ b) = true.
Proof.
  induction a as [|c a IH].
  - pose proof (is_prefix_app p b) as Hp. cbn [app]. by destruct (p ++ b); cbn [contains]; rewrite Hp.
  - cbn [app contains]. rewrite IH. apply orb_true_r.
Qed.

Lemma join_text_elem sep part parts : part ∈ parts -> exists a b, join_text sep parts = a ++ part ++ b.
Proof.
  induction 1 as [part parts|part p parts Hin IH].
  - destruct parts as [|q parts]; [exists [], []; by rewrite app_nil_r|]. by exists [], (sep ++ join_text sep (q :: parts)).
  - destruct parts as [|q parts]; [by apply elem_of_nil in Hin|]. destruct IH as (a & b & E).
    exists (p ++ sep ++ a), b. change (join_text sep (p :: q :: parts)) with (p ++ sep ++ join_text sep (q :: parts)).
    by rewrite E, <- !app_assoc.
Qed.

(** [member] on the items of a dict. *)
Lemma member_elem k v ms : NoDup ms.*1 -> member k ms = Some v <-> (k, v) ∈ ms.
Proof.
  intros Hd. unfold member.
  assert (forall l, NoDup l.*1 -> (snd <$> find (fun m : chars * json => bool_decide (m.1 = k)) l) = Some v <-> (k, v) ∈ l)
    as Hf.
  { clear. intros l. induction l as [|[k' v'] l IH]; cbn [find fmap list_fmap]; [set_solver|].
    intros [Hn Hd]%NoDup_cons. cbn [fst]. case_bool_decide as Hk.
    - subst k'. cbn. rewrite elem_of_cons. split; [intros [= ->]; by left|].
      intros [[= ->]|Hin]; [done|]. destruct Hn. by apply (list_elem_of_fmap_2 fst _ (k, v)).
    - rewrite IH, elem_of_cons by done. split; [by right|]. by intros [[= -> ->]|]. }
  assert (rev ms ≡ₚ ms) as Hp by (symmetry; apply Permutation_rev).
  rewrite Hf; [by rewrite Hp|]. by rewrite Hp.
Qed.

Lemma set_item_keys {A} k (v : A) d : (set_item k v d).*1 = if decide (k ∈ d.*1) then d.*1 else d.*1 ++ [k].
Proof.
  induction d as [|[k' v'] d IH]; [done|]. cbn. destruct (decide (k' = k)) as [->|Hne]; cbn.
  - rewrite decide_True by set_solver. done.
  - rewrite IH. destruct (decide (k ∈ d.*1)).
    + by rewrite decide_True by set_solver.
    + by rewrite decide_False by set_solver.
Qed.

Lemma set_item_NoDup {A} k (v : A) d : NoDup d.*1 -> NoDup (set_item k v d).*1.
Proof.
  intros Hd. rewrite set_item_keys. destruct (decide _); [done|]. apply NoDup_app. split_and!; [done| |apply NoDup_singleton].
  set_solver.
Qed.

Lemma elem_of_set_item {A} k (v : A) d x : NoDup d.*1 ->
  x ∈ set_item k v d <-> x = (k, v) \/ (x ∈ d /\ x.1 <> k).
Proof.
  induction d as [|[k' v'] d IH]; cbn; [set_solver|]. intros [Hn Hd]%NoDup_cons.
  destruct (decide (k' = k)) as [->|Hne].
  - rewrite !elem_of_cons. split; [|naive_solver]. intros [->|Hin]; [by left|]. right. split; [by right|].
    intros Hk. destruct Hn. rewrite <- Hk. by apply (list_elem_of_fmap_2 fst).
  - rewrite elem_of_cons, IH, elem_of_cons by done. naive_solver.
Qed.

Lemma member_set_item k k' v ms : NoDup ms.*1 ->
  member k (set_item k' v ms) = if decide (k = k') then Some v else member k ms.
Proof.
  intros Hd. apply option_eq. intros x. rewrite member_elem, elem_of_set_item by auto using set_item_NoDup.
  destruct (decide (k = k')) as [->|Hne].
  - split; [intros [[= ->]|[_ ?]]; done|]. intros [= ->]. by left.
  - rewrite member_elem by done. naive_solver.
Qed.

Section frames.
Context `{NumberText}.

Lemma chars_of_scalar s : Forall scalar (chars_of s).
Proof.
  unfold chars_of. apply Forall_fmap, Forall_true. intros a. pose proof (Ascii.N_ascii_bounded a) as Ha.
  unfold scalar. simpl. lia.
Qed.

Lemma json_ok_object ms : json_ok (JObject ms) <->
  NoDup ms.*1 /\ forall k v, (k, v) ∈ ms -> Forall scalar k /\ json_ok v.
Proof.
  cbn [json_ok]. split; intros [Hd Hm]; (split; [done|]); clear Hd.
  - induction ms as [|[k v] ms IH]; [set_solver|]. destruct Hm as [Hkv Hm].
    intros k' v' [[= -> ->]|Hin]%elem_of_cons; [done|by apply IH].
  - induction ms as [|[k v] ms IH]; [done|]. cbn. split; [apply (Hm k v); set_solver|]. apply IH. set_solver.
Qed.

Lemma json_ok_set_item k v ms : json_ok (JObject ms) -> Forall scalar k -> json_ok v ->
  json_ok (JObject (set_item k v ms)).
Proof.
  rewrite !json_ok_object. intros [Hd Hm] Hk Hv. split; [by apply set_item_NoDup|].
  intros k' v'. rewrite elem_of_set_item by done. intros [[= -> ->]|[? _]]; [done|eauto].
Qed.

(** A written frame that names its routing is read back whole. *)
Lemma data_frame_payload ms :
  json_ok (JObject ms) -> is_Some (member (chars_of "_routing") ms) -> frame_payload (data_frame (JObject ms)) = Some ms.
Proof.
  intros Hok [r Hr]. pose proof (loads_dumps _ Hok) as Hl. pose proof Hok as [Hd _].
  apply member_elem in Hr; [|done].
  assert (exists t, dumps (JObject ms) = 123 :: t ++ [125] /\ exists a b, t = a ++ _ROUTING_KEY ++ b) as (t & E & a & b & Et).
  { cbn [dumps]. rewrite written_items by done. change (chars_of "{") with [123]. change (chars_of "}") with [125].
    eexists. split; [reflexivity|].
    destruct (join_text_elem (chars_of ", ") (written (chars_of "_routing", r)) (List.map written ms)) as (a & b & ->).
    { apply list_elem_of_fmap. by exists (chars_of "_routing", r). }
    exists a, (chars_of ": " ++ dumps r ++ b). unfold written. cbn [fst snd].
    change (dumps_string (chars_of "_routing")) with _ROUTING_KEY. by rewrite <- !app_assoc. }
  unfold frame_payload, data_frame. rewrite is_prefix_app. cbn [negb carries_routing].
  assert (contains _ROUTING_KEY (DATA ++ dumps (JObject ms) ++ [10; 10]) = true) as ->.
  { rewrite E, Et.
    replace (DATA ++ (123 :: (a ++ _ROUTING_KEY ++ b) ++ [125]) ++ [10; 10])
      with ((DATA ++ 123 :: a) ++ _ROUTING_KEY ++ (b ++ [125; 10; 10])); [apply contains_app|].
    rewrite <- !app_assoc. f_equal. cbn [app]. by rewrite <- !app_assoc. }
  cbn [negb]. change (drop 6 (DATA ++ dumps (JObject ms) ++ [10; 10])) with (dumps (JObject ms) ++ [10; 10]).
  assert (strip (dumps (JObject ms) ++ [10; 10]) = dumps (JObject ms)) as ->.
  { rewrite E. unfold strip. cbn -[rev]. change (123 :: (t ++ [125]) ++ [10; 10]) with ((123 :: t ++ [125]) ++ [10; 10]).
    rewrite rev_app_distr. cbn [rev app drop_space]. change (is_space 10) with true. cbn [app drop_space].
    rewrite rev_app_distr. cbn [rev app drop_space]. change (is_space 10) with true. cbn [drop_space].
    change (is_space 125) with false. cbn. by rewrite rev_app_distr, rev_involutive. }
  rewrite bool_decide_eq_false_2 by (rewrite E; intros [=]). by rewrite Hl.
Qed.

(** Tagging a written frame adds the backend's name to its routing and nothing else. *)
Lemma tag_payload c name ms routing :
  frame_payload c = Some ms -> json_ok (JObject ms) -> Forall scalar name ->
  member (chars_of "_routing") ms = Some (JObject routing) ->
  frame_payload (tag_backend_chunk c name) =
    Some (set_item (chars_of "_routing") (JObject (setdefault "backend" (JString name) routing)) ms).
Proof.
  intros Hc Hok Hname Hr. unfold tag_backend_chunk. rewrite Hc, Hr.
  pose proof Hok as [Hd _].
  assert (json_ok (JObject routing)) as Hro.
  { apply json_ok_object in Hok as [_ Hm]. apply member_elem, Hm in Hr as [_ ?]; done. }
  rewrite (dict_items_id ms), (dict_items_id routing) by (done || apply Hro).
  apply data_frame_payload.
  - apply json_ok_set_item; [done|apply chars_of_scalar|]. unfold setdefault.
    destruct (member (chars_of "backend") routing); [done|]. apply json_ok_set_item; [done|apply chars_of_scalar|done].
  - rewrite member_set_item, decide_True by done. done.
Qed.

(** A frame is shown to the client exactly when the serving layer forwards it. *)
Lemma visible_forwarded c ms :
  frame_payload c = Some ms -> member (chars_of "_routing") ms <> Some JNull ->
  is_client_visible c =
    default false (should_forward <$> sanitize_chunk ms REASONING_PASSTHROUGH).
Proof.
  intros Hc Hn. unfold is_client_visible, sanitize_chunk. rewrite Hc. cbn zeta. unfold get.
  destruct (member (chars_of "_routing") ms) as [r|]; [|by rewrite bool_decide_eq_false_2 by (by intros [? ?])].
  assert (is_Some (match r with JNull => None | _ => Some r end)) as Hr by (destruct r; done).
  rewrite (bool_decide_eq_true_2 _ Hr). cbn [andb].
  destruct (truthy_json _); [done|]. cbn [negb orb andb].
  by destruct (member (chars_of "usage") ms) as [[]|].
Qed.

(** C11: the hybrid layer and the serving layer agree on what the client sees.
    A frame that parses and carries a routing object commits an attempt exactly when
    [sanitize_chunk] forwards it by default; the strict serializer only ever
    forwards less.  Naming the backend in such a frame leaves every member of the
    frame other than its routing, and every member of the routing other than
    [backend], as it was; [backend] is the given name unless the routing had one
    already.  So the named frame commits an attempt, and is forwarded by default,
    exactly when the original is. *)
Theorem visibility_agrees (c : chunk) ms routing name :
  frame_payload c = Some ms -> member (chars_of "_routing") ms = Some (JObject routing) ->
  json_ok (JObject ms) -> Forall scalar name ->
  is_client_visible c = default false (should_forward <$> sanitize_chunk ms REASONING_PASSTHROUGH) /\
  (forall r, sanitize_chunk ms STRICT_OPENAI = Some r -> should_forward r = true -> is_client_visible c = true) /\
  is_client_visible (tag_backend_chunk c name) = is_client_visible c /\
  exists ms' routing', frame_payload (tag_backend_chunk c name) = Some ms' /\
    default false (should_forward <$> sanitize_chunk ms' REASONING_PASSTHROUGH) =
      default false (should_forward <$> sanitize_chunk ms REASONING_PASSTHROUGH) /\
    (forall k, k <> chars_of "_routing" -> member k ms' = member k ms) /\
    member (chars_of "_routing") ms' = Some (JObject routing') /\
    (forall k, k <> chars_of "backend" -> member k routing' = member k routing) /\
    member (chars_of "backend") routing' = Some (default (JString name) (member (chars_of "backend") routing)).
Proof.
  intros Hc Hr Hok Hname. pose proof (visible_forwarded c ms Hc) as Hv. rewrite Hr in Hv.
  pose proof (tag_payload c name ms routing Hc Hok Hname Hr) as Ht. pose proof Hok as [Hd _].
  assert (NoDup (fst <$> routing)) as Hdr
    by (apply json_ok_object in Hok as [_ Hm]; apply member_elem, Hm in Hr as [_ [? _]]; done).
  assert (is_client_visible (tag_backend_chunk c name) = is_client_visible c) as Hsame.
  { unfold is_client_visible. rewrite Ht, Hc, Hr. unfold get.
    by rewrite !member_set_item, decide_True, !decide_False by done. }
  split_and!.
  - by apply Hv.
  - intros r Hs Hf. rewrite Hv by done. revert Hs. unfold sanitize_chunk. cbn zeta.
    destruct (_ && _ && _); [intros [= <-]; done|done].
  - exact Hsame.
  - do 2 eexists. split; [done|]. split_and!.
    + rewrite <- Hv by done. rewrite <- Hsame. symmetry. apply visible_forwarded; [done|].
      by rewrite member_set_item, decide_True by done.
    + intros k Hk. by rewrite member_set_item, decide_False by done.
    + by rewrite member_set_item, decide_True by done.
    + intros k Hk. unfold setdefault. destruct (member (chars_of "backend") routing); [done|].
      by rewrite member_set_item, decide_False by done.
    + unfold setdefault. destruct (member (chars_of "backend") routing) eqn:Eb; [done|].
      by rewrite member_set_item, decide_True by done.
Qed.

End frames.

(** A frame written with single quotes for double ones. *)
Definition frame_of (s : string) : chunk :=
  Text (chars_of "data: " ++ ((fun c => if c =? 39 then QUOTE else c) <$> chars_of s) ++ [10; 10]).

(** The routing frame a router emits first. *)
Definition sample_frame : chunk := frame_of "{'choices': [], '_routing': {'endpoint_id': 'm:a', 'fallback': true}}".

Lemma visibility_agrees_witness :
  let _ : NumberText := fun n => n in
  is_client_visible sample_frame = false /\
  is_client_visible (tag_backend_chunk sample_frame (chars_of "cloud")) = false.
Proof.
  intros HN.
  pose proof (visibility_agrees sample_frame
    [(chars_of "choices", JArray []);
     (chars_of "_routing", JObject [(chars_of "endpoint_id", JString (chars_of "m:a")); (chars_of "fallback", JBool true)])]
    [(chars_of "endpoint_id", JString (chars_of "m:a")); (chars_of "fallback", JBool true)] (chars_of "cloud")) as Hv.
  destruct Hv as (Hv & _ & Ht & _).
  - vm_compute. reflexivity.
  - vm_compute. reflexivity.
  - rewrite json_ok_object. split; [apply (bool_decide_unpack _); vm_compute; exact I|].
    intros k v Hkv. rewrite !elem_of_cons in Hkv. destruct Hkv as [[= -> ->]|[[= -> ->]|[]%elem_of_nil]].
    + split; [apply chars_of_scalar|exact I].
    + split; [apply chars_of_scalar|]. cbn [json_ok foldr].
      split; [apply (bool_decide_unpack _); vm_compute; exact I|]. split_and!; solve [apply chars_of_scalar|exact I].
  - apply chars_of_scalar.
  - rewrite Ht. split; vm_compute; reflexivity.
Defined.

(** The routing of a frame may be [null]: then the serving layer forwards the frame
    and the hybrid layer still takes it for one the client does not see. *)
Lemma null_routing_forwarded :
  let c := frame_of "{'choices': [], '_routing': null, 'id': 'x'}" in
  exists ms, frame_payload c = Some ms /\ is_client_visible c = false /\
    should_forward <$> sanitize_chunk ms REASONING_PASSTHROUGH = Some true.
Proof. eexists. split; [vm_compute; reflexivity|]. split; vm_compute; reflexivity. Qed.
