(* ===== verification/AutoRequest.v ===== *)
(** What auto mode does around the choice of a model ([serving/auto_mode.py]): when a
    request is its, the session the request belongs to, what the choice reads of the
    request, how the request is rewritten for the model chosen, and how the answer is
    made to name the model the caller asked for.

    A request's body is a JSON object, an answer's stream a list of bytes. *)

From S2P Require Import Prelude PyText GrantToken HybridFrames ModelAccess AutoMode.

Local Open Scope N_scope.

(** ** Turning auto mode on *)

(** [is_auto_model_id] *)
Definition is_auto_model_id (model : chars) : bool :=
  bool_decide (model = AUTO_MODEL_ID) || is_prefix AUTO_MODEL_PREFIX model.

(** [auto_mode_for]: [enabled] is the runtime switch. *)
Definition auto_mode_for (model : option chars) (auto_mode : option auto_config) (enabled : bool) : option auto_config :=
  match model with
  | None => None                                    (* no string *)
  | Some m =>
      if negb (is_auto_model_id m) then None
      else match auto_mode with
           | None => None
           | Some c => match resolve c m with
                       | None => None
                       | Some _ => if enabled then Some c else None
                       end
           end
  end.

(** [load_auto_mode] of a section whose shape is valid; [registered] are the names the
    route table answers to with an adapter. *)
Definition load_auto_mode (version : chars -> list candidate -> chars) (section : option auto_spec)
    (registered : gset chars) : option auto_config :=
  match section with
  | None => None
  | Some sp => match parse_auto_config version sp with
               | Raise _ => None
               | Ok c => match conflicts c registered with [] => Some c | _ => None end
               end
  end.

(** [session_key]; [user] and [grant] are the caller's, [declared] the session id the
    client declares. *)
Definition session_key (user : option string) (grant declared opening : option chars) : option skey :=
  match declared, opening with
  | None, None => None
  | _, _ =>
      let caller := match user with Some u => if bool_decide (u = ""%string) then "anonymous"%string else u
                                  | None => "anonymous"%string end in
      Some (caller, grant, declared, opening)
  end.

(** ** What the choice reads of a request *)

Definition jget (k : string) (v : json) : option json :=
  match v with JObject ms => get k ms | _ => None end.
Definition is_str (o : option json) (s : string) : bool :=
  match o with Some (JString t) => bool_decide (t = chars_of s) | _ => false end.

(** [openai_features]; the prompt's size is [estimate_prefill_tokens]'s. *)
Definition openai_features (messages : list json) (tools : option json) (max_tokens : option Z)
    (required_modalities : gset chars) (prompt_tokens : Z) : request_features :=
  let in_tool_loop := match last messages with Some m => is_str (jget "role" m) "tool" | None => false end in
  RequestFeatures prompt_tokens (if in_tool_loop then TOOL_CONTINUATION else NEW_TURN) max_tokens
    ({[chars_of "text"]} ∪ required_modalities) (truthy_json tools).

Definition is_object (v : json) : bool := match v with JObject _ => true | _ => false end.
Definition objects (l : list json) : list json := filter is_object l.

(** The blocks of one content block: itself, and those of a tool result. *)
Definition block_and_inner (block : json) : list json :=
  block :: (if is_str (jget "type" block) "tool_result"
            then match jget "content" block with Some (JArray inner) => objects inner | _ => [] end
            else []).

(** [_anthropic_blocks], less the roles, which no caller reads. *)
Definition _anthropic_blocks (messages : list json) : list json :=
  messages ≫= fun m => match jget "content" m with
                       | Some (JArray content) => objects content ≫= block_and_inner
                       | _ => []
                       end.

Definition messages_of (body : list (chars * json)) : list json :=
  match get "messages" body with Some (JArray l) => l | _ => [] end.

(** The value of an integer's lexeme. *)
Fixpoint decimal (acc : Z) (l : chars) : option Z :=
  match l with
  | [] => Some acc
  | c :: l => if is_digit c then decimal (10 * acc + Z.of_N (c - 48)) l else None
  end.
Definition int_lexeme (l : chars) : option Z :=
  match l with
  | 45 :: l => Z.opp <$> decimal 0 l
  | l => decimal 0 l
  end.
(** [v if isinstance(v, int) else None]: a bool is an int. *)
Definition as_int (v : option json) : option Z :=
  match v with
  | Some (JNumber n) => int_lexeme n
  | Some (JBool b) => Some (if b then 1 else 0)%Z
  | _ => None
  end.

(** [anthropic_features] *)
Definition anthropic_features (body : list (chars * json)) (prompt_tokens : Z) (side_call : bool) : request_features :=
  let messages := messages_of body in
  let in_tool_loop := match last messages with
                      | Some m => is_str (jget "role" m) "user" &&
                                  existsb (fun b => is_str (jget "type" b) "tool_result") (_anthropic_blocks [m])
                      | None => false
                      end in
  let turn := if side_call then SIDE_CALL else if in_tool_loop then TOOL_CONTINUATION else NEW_TURN in
  let has_image := existsb (fun b => is_str (jget "type" b) "image") (_anthropic_blocks messages) in
  RequestFeatures prompt_tokens turn (as_int (member (chars_of "max_tokens") body))
    (if has_image then {[chars_of "text"; chars_of "image"]} else {[chars_of "text"]})
    (truthy_json (member (chars_of "tools") body)).

(** ** Rewriting the request *)

(** [apply_to_chat_request]: the payload's model and effort, and whether the
    candidate's effort was applied. *)
Definition apply_to_chat_request (model : chars) (effort payload_effort : option chars) : chars * option chars * bool :=
  match effort, payload_effort with
  | Some e, None => (model, Some e, true)
  | _, _ => (model, payload_effort, false)
  end.

(** [apply_to_anthropic_body] *)
Definition apply_to_anthropic_body (model : chars) (effort : option chars) (body : list (chars * json)) :
    list (chars * json) * bool :=
  let body := set_item (chars_of "model") (JString model) (dict_items body) in
  let output_config := get "output_config" body in
  let client_effort := bool_decide (is_Some (get "reasoning_effort" body)) ||
    match output_config with Some (JObject oc) => bool_decide (is_Some (get "effort" oc)) | _ => false end in
  match effort with
  | None => (body, false)
  | Some e =>
      if client_effort then (body, false)
      else match output_config with
           | None => (set_item (chars_of "output_config") (JObject [(chars_of "effort", JString e)]) body, true)
           | Some (JObject oc) =>
               (set_item (chars_of "output_config")
                  (JObject (set_item (chars_of "effort") (JString e) (dict_items oc))) body, true)
           | Some _ => (body, false)
           end
  end.

(** *** Another model's thinking *)

Definition is_assistant (m : json) : bool := is_str (jget "role" m) "assistant".
(** [isinstance(block, dict) and block.get("type") in _THINKING_BLOCK_TYPES] *)
Definition is_thinking (b : json) : bool :=
  is_str (jget "type" b) "thinking" || is_str (jget "type" b) "redacted_thinking".

(** [max] of the indices of the assistant's messages. *)
Fixpoint last_assistant (i : nat) (l : list json) : option nat :=
  match l with
  | [] => None
  | m :: l => match last_assistant (S i) l with
              | Some j => Some j
              | None => if is_assistant m then Some i else None
              end
  end.

(** The loop over the messages: the blocks removed and the messages kept. *)
Fixpoint strip_loop (keep : option nat) (i : nat) (l : list json) : Z * list json :=
  match l with
  | [] => (0%Z, [])
  | m :: l =>
      let '(removed, kept) := strip_loop keep (S i) l in
      match m, jget "content" m with
      | JObject ms, Some (JArray content) =>
          if bool_decide (Some i = keep) || negb (is_assistant m) then (removed, m :: kept)
          else
            let remaining := filter (fun b => negb (is_thinking b)) content in
            (removed + Z.of_nat (length content - length remaining),
             match remaining with
             | [] => kept
             | _ => JObject (set_item (chars_of "content") (JArray remaining) (dict_items ms)) :: kept
             end)%Z
      | _, _ => (removed, m :: kept)
      end
  end.

(** [strip_foreign_thinking]: what it removes and the body it leaves. *)
Definition keep_index (turn : turn_kind) (act : session_action) (messages : list json) : option nat :=
  match turn, act with
  | TOOL_CONTINUATION, KEEP => last_assistant 0 messages
  | _, _ => None
  end.
Definition strip_foreign_thinking (switches : Z) (turn : turn_kind) (act : session_action) (body : list (chars * json)) :
    Z * list (chars * json) :=
  if bool_decide (switches = 0)%Z then (0%Z, body)
  else match get "messages" body with
       | Some (JArray messages) =>
           let '(removed, kept) := strip_loop (keep_index turn act messages) 0 messages in
           (removed, if bool_decide (removed = 0)%Z then body
                     else set_item (chars_of "messages") (JArray kept) (dict_items body))
       | _ => (0%Z, body)
       end.

(** ** The model named in the answer *)

(** [buffer.find(delimiter)] *)
Fixpoint find_bytes (p l : list N) : option nat :=
  if is_prefix p l then Some 0%nat
  else match l with [] => None | _ :: l => S <$> find_bytes p l end.

Definition LF2 : list N := [10; 10].
Definition CRLF2 : list N := [13; 10; 13; 10].

(** [_event_end] *)
Definition _event_end (buffer : list N) : option nat :=
  let ends := omap (fun d => (fun i => i + length d)%nat <$> find_bytes d buffer) [LF2; CRLF2] in
  match ends with [] => None | e :: rest => Some (fold_left Nat.min rest e) end.

(** [bytes.strip()]: ASCII whitespace. *)
Definition byte_space (b : N) : bool := in_range 9 13 b || (b =? 32).
Fixpoint drop_byte_space (l : list N) : list N :=
  match l with b :: r => if byte_space b then drop_byte_space r else l | [] => [] end.
Definition strip_bytes (l : list N) : list N := rev (drop_byte_space (rev (drop_byte_space l))).

(** [AnthropicStreamModelRenamer] *)
Record renamer : Type := Renamer { rn_model : chars; held : list N; rn_done : bool }.
Definition new_renamer (model : chars) : renamer := Renamer model [] false.
Definition _MAX_HELD : N := 65536.

Section renamer.
Context `{Digests} `{NumberText}.

(** The line of a [message_start] naming another model. *)
Definition start_line (model : chars) (ms message : list (chars * json)) (line : list N) : list N :=
  DATA ++ dumps (JObject (set_item (chars_of "message")
            (JObject (set_item (chars_of "model") (JString model) (dict_items message))) (dict_items ms))) ++
  (match last line with Some 13 => [13] | _ => [] end).

(** The loop of [_rename] over the event's lines. *)
Fixpoint rename_lines (model : chars) (lines : list (list N)) : option (list (list N)) :=
  match lines with
  | [] => None
  | line :: rest =>
      if negb (is_prefix (chars_of "data:") line) then (line ::.) <$> rename_lines model rest
      else
        match payload_text (strip_bytes (List.skipn 5 line)) ≫= loads_text with
        | Some (JObject ms) =>
            if negb (is_str (get "type" ms) "message_start") then None
            else match get "message" ms with
                 | Some (JObject message) => Some (start_line model ms message line :: rest)
                 | _ => None
                 end
        | _ => None
        end
  end.

(** [_rename] *)
Definition _rename (model : chars) (event : list N) : option (list N) :=
  join_text [10] <$> rename_lines model (split_on 10 event []).

(** The loop of [feed]: what is still held, what is sent and whether the opening is
    over. *)
Fixpoint feed_loop (fuel : nat) (model : chars) (buffer out : list N) : list N * list N * bool :=
  match fuel with
  | O => (buffer, out, false)
  | S fuel =>
      match _event_end buffer with
      | None => (buffer, out, bool_decide (_MAX_HELD < N.of_nat (length buffer)))
      | Some e =>
          let event := take e buffer in
          let buffer := drop e buffer in
          match _rename model event with
          | Some renamed => (buffer, out ++ renamed, true)
          | None => feed_loop fuel model buffer (out ++ event)
          end
      end
  end.

(** [feed] *)
Definition feed (r : renamer) (data : list N) : renamer * list N :=
  if rn_done r then (r, data)
  else
    let buffer := held r ++ data in
    let '(buffer, out, over) := feed_loop (S (length buffer)) (rn_model r) buffer [] in
    if over then (Renamer (rn_model r) [] true, out ++ buffer)
    else (Renamer (rn_model r) buffer false, out).

(** [flush] *)
Definition flush (r : renamer) : renamer * list N := (Renamer (rn_model r) [] true, held r).

(** The whole of a stream: [feed] for each of its chunks, then [flush]. *)
Fixpoint feed_all (r : renamer) (chunks : list (list N)) : renamer * list N :=
  match chunks with
  | [] => (r, [])
  | c :: rest => let '(r, out) := feed r c in let '(r, out') := feed_all r rest in (r, out ++ out')
  end.
Definition rename_stream (model : chars) (chunks : list (list N)) : list N :=
  let '(r, out) := feed_all (new_renamer model) chunks in out ++ (flush r).2.
End renamer.

(** ** Events *)

Lemma is_prefix_extend p a b : is_prefix p a = true -> is_prefix p (a ++ b) = true.
Proof.
  revert a. induction p as [|x p IH]; intros [|y a]; cbn; try done.
  intros [E Hp]%andb_true_iff. by rewrite E, IH.
Qed.

Lemma is_prefix_app_inv p a b : (length p <= length a)%nat -> is_prefix p (a ++ b) = true -> is_prefix p a = true.
Proof.
  revert a. induction p as [|x p IH]; intros [|y a]; cbn; try (done || lia).
  intros Hl [E Hp]%andb_true_iff. rewrite E. apply IH; [lia|done].
Qed.

Lemma is_prefix_length p a : is_prefix p a = true -> (length p <= length a)%nat.
Proof. revert a. induction p as [|x p IH]; intros [|y a]; cbn; try (done || lia). intros [_ Hp%IH]%andb_true_iff. lia. Qed.

Lemma find_bytes_bound p l i : find_bytes p l = Some i -> (i + length p <= length l)%nat.
Proof.
  revert i. induction l as [|x l IH]; intros i; cbn [find_bytes].
  - destruct (is_prefix p []) eqn:E; [|done]. intros [= <-]. by apply is_prefix_length in E.
  - destruct (is_prefix p (x :: l)) eqn:E; [intros [= <-]; by apply is_prefix_length in E|].
    intros (j & Hj%IH & ->)%fmap_Some. cbn. lia.
Qed.

(** More bytes do not move the first occurrence, and it is found once it is there. *)
Lemma find_bytes_app p a b i : (i + length p <= length a)%nat -> find_bytes p (a ++ b) = Some i <-> find_bytes p a = Some i.
Proof.
  revert i. induction a as [|x a IH]; intros i Hi.
  - destruct i, p; cbn in Hi; try lia. cbn. by destruct b.
  - cbn [app find_bytes]. change (x :: a ++ b) with ((x :: a) ++ b).
    assert (is_prefix p ((x :: a) ++ b) = is_prefix p (x :: a)) as ->.
    { destruct (is_prefix p (x :: a)) eqn:E; [by apply is_prefix_extend|].
      destruct (is_prefix p ((x :: a) ++ b)) eqn:E'; [|done]. apply is_prefix_app_inv in E'; [congruence|lia]. }
    destruct (is_prefix p (x :: a)); [done|]. rewrite !fmap_Some.
    split; intros (j & Hj & ->); exists j; (split; [|done]); (apply IH; [cbn in Hi; lia|done]).
Qed.

Lemma event_end_spec l e :
  _event_end l = Some e <->
  (exists i, find_bytes LF2 l = Some i /\ e = (i + 2)%nat /\ forall j, find_bytes CRLF2 l = Some j -> (e <= j + 4)%nat) \/
  (exists j, find_bytes CRLF2 l = Some j /\ e = (j + 4)%nat /\ forall i, find_bytes LF2 l = Some i -> (e <= i + 2)%nat).
Proof.
  unfold _event_end. cbn [omap list_omap]. change (length LF2) with 2%nat. change (length CRLF2) with 4%nat.
  destruct (find_bytes LF2 l) as [i|], (find_bytes CRLF2 l) as [j|]; cbn [fmap option_fmap option_map fold_left].
  - split.
    + intros [= <-]. destruct (decide (i + 2 <= j + 4)%nat); [left; exists i|right; exists j]; (split_and!; [done|lia|]); intros ? [= <-]; lia.
    + intros [(? & [= <-] & -> & Hm)|(? & [= <-] & -> & Hm)]; specialize (Hm _ eq_refl); f_equal; lia.
  - split; [intros [= <-]; left; exists i; split_and!; [done..|]; done|naive_solver].
  - split; [intros [= <-]; right; exists j; split_and!; [done..|]; done|naive_solver].
  - split; [done|naive_solver].
Qed.

Lemma event_end_bound l e : _event_end l = Some e -> (0 < e <= length l)%nat.
Proof.
  rewrite event_end_spec. intros [(i & Hi%find_bytes_bound & -> & _)|(i & Hi%find_bytes_bound & -> & _)]; cbn in Hi; lia.
Qed.

(** The first event of a stream is the first of any part of it that holds it whole. *)
Lemma event_end_app a b e : (e <= length a)%nat -> _event_end (a ++ b) = Some e <-> _event_end a = Some e.
Proof.
  intros He. rewrite !event_end_spec.
  assert (forall p i, (i + length p <= length a)%nat -> find_bytes p (a ++ b) = Some i <-> find_bytes p a = Some i) as Hf
    by (intros; by apply find_bytes_app).
  assert (forall p i, find_bytes p a = Some i -> find_bytes p (a ++ b) = Some i) as Hup
    by (intros p i Hi; apply Hf; [by apply find_bytes_bound|done]).
  split.
  - intros [(i & Hi & -> & Hm)|(i & Hi & -> & Hm)]; [left|right]; exists i; (split_and!; [apply Hf; [cbn; lia|done]|done|]);
      intros j Hj; apply Hm, Hup, Hj.
  - intros [(i & Hi & -> & Hm)|(i & Hi & -> & Hm)]; [left|right]; exists i; (split_and!; [by apply Hup|done|]); intros j Hj.
    + destruct (decide (j + 4 <= length a)%nat); [apply Hm, Hf; [cbn; lia|done]|lia].
    + destruct (decide (j + 2 <= length a)%nat); [apply Hm, Hf; [cbn; lia|done]|lia].
Qed.

(** The complete events of a stream and what follows the last. *)
Fixpoint events_from (fuel : nat) (l : list N) : list (list N) * list N :=
  match fuel, _event_end l with
  | S fuel, Some e => let '(evs, rest) := events_from fuel (drop e l) in (take e l :: evs, rest)
  | _, _ => ([], l)
  end.
Definition events (l : list N) : list (list N) * list N := events_from (length l) l.

Lemma events_from_fuel n m l : (length l <= n)%nat -> (length l <= m)%nat -> events_from n l = events_from m l.
Proof.
  revert m l. induction n as [|n IH]; intros m l Hn Hm.
  - destruct l; [|cbn in Hn; lia]. by destruct m.
  - destruct m as [|m]; [destruct l; [done|cbn in Hm; lia]|]. cbn [events_from].
    destruct (_event_end l) as [e|] eqn:Ee; [|done]. apply event_end_bound in Ee.
    rewrite (IH m) by (rewrite length_drop; lia). done.
Qed.

Lemma events_unfold l :
  events l = match _event_end l with
             | None => ([], l)
             | Some e => (take e l :: (events (drop e l)).1, (events (drop e l)).2)
             end.
Proof.
  unfold events at 1. destruct (_event_end l) as [e|] eqn:Ee.
  - pose proof (event_end_bound _ _ Ee). destruct (length l) as [|n] eqn:En; [lia|]. cbn [events_from]. rewrite Ee.
    unfold events. rewrite (events_from_fuel n (length (drop e l))) by (rewrite length_drop; lia).
    by destruct (events_from _ (drop e l)).
  - destruct (length l); cbn [events_from]; by rewrite ?Ee.
Qed.

Lemma events_concat l : mjoin (events l).1 ++ (events l).2 = l.
Proof.
  remember (length l) as n eqn:En. assert (length l <= n)%nat as Hn by lia. clear En. revert l Hn.
  induction n as [|n IH]; intros l Hn; rewrite events_unfold; destruct (_event_end l) as [e|] eqn:Ee; try done;
    apply event_end_bound in Ee; [lia|]. cbn. rewrite <- app_assoc, IH by (rewrite length_drop; lia). apply take_drop.
Qed.

Section renamed.
Context `{Digests} `{NumberText} (model : chars).

(** Of a list of events, the first [message_start] renamed. *)
Fixpoint rename_first (evs : list (list N)) : option (list (list N)) :=
  match evs with
  | [] => None
  | ev :: rest => match _rename model ev with
                  | Some ev' => Some (ev' :: rest)
                  | None => (ev ::.) <$> rename_first rest
                  end
  end.
(** The stream with that event renamed and everything else as it came. *)
Definition renamed (l : list N) : list N :=
  mjoin (default (events l).1 (rename_first (events l).1)) ++ (events l).2.

(** The events up to the [message_start]. *)
Fixpoint opening (evs : list (list N)) : list (list N) :=
  match evs with
  | [] => []
  | ev :: rest => ev :: match _rename model ev with Some _ => [] | None => opening rest end
  end.
Definition opening_fits (l : list N) : Prop :=
  Forall (fun ev => N.of_nat (length ev) <= _MAX_HELD) (opening (events l).1).

Lemma renamed_unfold l :
  renamed l = match _event_end l with
              | None => l
              | Some e => match _rename model (take e l) with
                          | Some r => r ++ drop e l
                          | None => take e l ++ renamed (drop e l)
                          end
              end.
Proof.
  unfold renamed at 1. rewrite events_unfold. destruct (_event_end l) as [e|]; [|done]. cbn [fst snd rename_first].
  destruct (_rename model (take e l)) as [r|].
  - cbn. by rewrite <- app_assoc, events_concat.
  - unfold renamed. destruct (rename_first (events (drop e l)).1); cbn; by rewrite <- app_assoc.
Qed.

Lemma fits_unfold l :
  opening_fits l <-> match _event_end l with
                     | None => True
                     | Some e => N.of_nat (length (take e l)) <= _MAX_HELD /\
                         match _rename model (take e l) with Some _ => True | None => opening_fits (drop e l) end
                     end.
Proof.
  unfold opening_fits at 1. rewrite events_unfold. destruct (_event_end l) as [e|]; cbn [fst opening]; [|by split].
  rewrite Forall_cons. unfold opening_fits. destruct (_rename model (take e l)); [|done]. by rewrite Forall_nil.
Qed.

(** How far a renamer is through a stream [l] of which it has sent [out]. *)
Definition waits (l out buffer : list N) : Prop :=
  l = out ++ buffer /\ _event_end buffer = None /\
  forall b, renamed (l ++ b) = out ++ renamed (buffer ++ b) /\ (opening_fits (l ++ b) -> opening_fits (buffer ++ b)).

Lemma feed_loop_spec fuel buffer out buffer' out' over :
  (length buffer < fuel)%nat -> feed_loop fuel model buffer out = (buffer', out', over) ->
  exists sent, out' = out ++ sent /\
    if over then (forall b, renamed (buffer ++ b) = sent ++ buffer' ++ b) \/
                 (waits buffer sent buffer' /\ _MAX_HELD < N.of_nat (length buffer'))
    else waits buffer sent buffer' /\ N.of_nat (length buffer') <= _MAX_HELD.
Proof.
  revert buffer out. induction fuel as [|fuel IH]; intros buffer out Hf; [lia|]. cbn [feed_loop].
  destruct (_event_end buffer) as [e|] eqn:Ee.
  - pose proof (event_end_bound _ _ Ee) as He.
    assert (forall b, _event_end (buffer ++ b) = Some e) as Eb by (intros b; apply event_end_app; [lia|done]).
    assert (forall b, take e (buffer ++ b) = take e buffer) as Et by (intros b; apply take_app_le; lia).
    assert (forall b, drop e (buffer ++ b) = drop e buffer ++ b) as Ed by (intros b; apply drop_app_le; lia).
    destruct (_rename model (take e buffer)) as [r|] eqn:Er.
    + intros [= <- <- <-]. exists r. split; [done|]. left. intros b. by rewrite renamed_unfold, Eb, Et, Ed, Er.
    + intros E. apply IH in E as (sent & -> & Hs); [|rewrite length_drop; lia].
      exists (take e buffer ++ sent). split; [by rewrite app_assoc|].
      assert (forall buffer', waits (drop e buffer) sent buffer' -> waits buffer (take e buffer ++ sent) buffer') as Hw.
      { intros buf (Hl & Hn & Hb). split_and!; [by rewrite <- app_assoc, <- Hl, take_drop|done|]. intros b.
        destruct (Hb b) as [Hr Hfit]. split.
        - by rewrite renamed_unfold, Eb, Et, Ed, Er, Hr, app_assoc.
        - rewrite fits_unfold, Eb, Et, Ed, Er. intros [_ Hx]. by apply Hfit. }
      destruct over; [destruct Hs as [Hs|[Hs Hlen]]; [left|right; by eauto]|destruct Hs; by eauto].
      intros b. by rewrite renamed_unfold, Eb, Et, Ed, Er, Hs, app_assoc.
  - intros [= <- <- <-]. exists []. rewrite app_nil_r. split; [done|].
    assert (waits buffer [] buffer) as Hw by (by split_and!).
    case_bool_decide; [by right|]. split; [done|lia].
Qed.

(** An opening too long for what is held is sent as it came. *)
Lemma too_long buffer b :
  _event_end buffer = None -> _MAX_HELD < N.of_nat (length buffer) ->
  renamed (buffer ++ b) = buffer ++ b \/ ~ opening_fits (buffer ++ b).
Proof.
  intros Hn Hl. rewrite renamed_unfold, fits_unfold. destruct (_event_end (buffer ++ b)) as [e|] eqn:Ee; [|by left].
  right. intros [Hle _]. pose proof (event_end_bound _ _ Ee). rewrite length_take_le in Hle by lia.
  destruct (decide (e <= length buffer)%nat) as [He|]; [|lia]. apply event_end_app in Ee; [congruence|done].
Qed.

(** What a renamer has yet to do after [l], of which it sent [out]. *)
Definition progress (r : renamer) (l out : list N) : Prop :=
  rn_model r = model /\ N.of_nat (length (held r)) <= _MAX_HELD /\
  if rn_done r then
    held r = [] /\ ((forall b, renamed (l ++ b) = out ++ b) \/
                    (l = out /\ forall b, renamed (l ++ b) = l ++ b \/ ~ opening_fits (l ++ b)))
  else waits l out (held r).

Lemma feed_progress r l out c : progress r l out -> progress (feed r c).1 (l ++ c) (out ++ (feed r c).2).
Proof.
  intros (Hm & Hh & Hp). unfold feed. destruct (rn_done r) eqn:Ed.
  - destruct Hp as [He Hp]. cbn. split_and!; [done..|]. rewrite Ed. split; [done|].
    destruct Hp as [Hp|[-> Hp]]; [left; intros b; by rewrite <- !app_assoc|right]. split; [done|]. intros b. by rewrite <- app_assoc.
  - destruct Hp as (-> & Hn & Hb). rewrite Hm.
    destruct (feed_loop (S (length (held r ++ c))) model (held r ++ c) []) as [[buffer o] over] eqn:E.
    apply feed_loop_spec in E as (sent & -> & Hs); [|lia]. cbn [app].
    assert (forall b, renamed (((out ++ held r) ++ c) ++ b) = out ++ renamed ((held r ++ c) ++ b) /\
      (opening_fits (((out ++ held r) ++ c) ++ b) -> opening_fits ((held r ++ c) ++ b))) as Hb'.
    { intros b. specialize (Hb (c ++ b)). by rewrite !app_assoc in Hb. }
    clear Hb. destruct over; cbn [fst snd].
    + split_and!; [done..|]. cbn [rn_done held]. split; [done|]. destruct Hs as [Hs|[(Hl & Hn' & Hw) Hlen]]; [left|right].
      * intros b. destruct (Hb' b) as [-> _]. by rewrite Hs, !app_assoc.
      * split; [by rewrite <- !app_assoc, Hl|]. intros b. destruct (Hb' b) as [-> Hfit]. destruct (Hw b) as [-> Hfit'].
        destruct (too_long buffer b Hn' Hlen) as [->|Hno]; [left|right; naive_solver].
        by rewrite <- (app_assoc out), Hl, <- !app_assoc.
    + destruct Hs as [(Hl & Hn' & Hw) Hlen]. split_and!; [done..|]. cbn [rn_done held].
      split_and!; [by rewrite <- !app_assoc, Hl|done|]. intros b. destruct (Hb' b) as [-> Hfit]. destruct (Hw b) as [-> Hfit'].
      split; [by rewrite !app_assoc|auto].
Qed.

Lemma feed_all_progress chunks r l out :
  progress r l out -> progress (feed_all r chunks).1 (l ++ mjoin chunks) (out ++ (feed_all r chunks).2).
Proof.
  revert r l out. induction chunks as [|c chunks IH]; intros r l out Hp; [by cbn; rewrite !app_nil_r|].
  cbn. apply (feed_progress _ _ _ c) in Hp. destruct (feed r c) as [r' o]. apply IH in Hp. cbn [fst snd] in Hp.
  destruct (feed_all r' chunks) as [r'' o']. cbn [fst snd] in *. by rewrite !app_assoc.
Qed.

(** C16: the renamed stream does not depend on how its bytes arrive.  Whatever chunks
    a stream comes in, what is sent is the stream with its first [message_start] event
    rewritten to name the model the caller asked for and every other byte as it came;
    only a stream one of whose events up to that one is longer than 65536 bytes may
    instead be sent wholly as it came.  Never more than 65536 bytes are held between
    two chunks, and nothing is held once the opening is over. *)
Theorem rename_transparent chunks :
  (rename_stream model chunks = renamed (mjoin chunks) \/
   rename_stream model chunks = mjoin chunks /\ ~ opening_fits (mjoin chunks)) /\
  let r := (feed_all (new_renamer model) chunks).1 in
  N.of_nat (length (held r)) <= _MAX_HELD /\ (rn_done r = true -> held r = []).
Proof.
  assert (progress (new_renamer model) [] []) as Hp by (by split_and!).
  apply (feed_all_progress chunks) in Hp. cbn [app] in Hp. unfold rename_stream.
  destruct (feed_all (new_renamer model) chunks) as [r out]. cbn [fst snd flush] in *. destruct Hp as (_ & Hh & Hp).
  destruct (rn_done r) eqn:Ed; rewrite ?Ed in Hp.
  - destruct Hp as [-> Hp]. split; [|done]. rewrite app_nil_r. destruct Hp as [Hp|[Hl Hp]].
    + left. specialize (Hp []). by rewrite !app_nil_r in Hp.
    + specialize (Hp []). rewrite !app_nil_r in Hp. destruct Hp as [Hp|Hp]; [left; congruence|right; by split].
  - destruct Hp as (Hl & Hn & Hb). split; [|done]. left. destruct (Hb []) as [Hr _]. rewrite !app_nil_r in Hr.
    by rewrite Hr, renamed_unfold, Hn.
Qed.
End renamed.

(** ** The thinking left *)

Lemma member_snoc k k' v ms : member k (ms ++ [(k', v)]) = if decide (k = k') then Some v else member k ms.
Proof. unfold member. rewrite rev_app_distr. cbn. by destruct (decide (k = k')); [rewrite bool_decide_true|rewrite bool_decide_false]. Qed.

Lemma dict_items_snoc {A} (ms : list (chars * A)) m : dict_items (ms ++ [m]) = set_item m.1 m.2 (dict_items ms).
Proof. unfold dict_items. by rewrite fold_left_app. Qed.

Lemma dict_items_NoDup {A} (ms : list (chars * A)) : NoDup (dict_items ms).*1.
Proof.
  induction ms as [|m ms IH] using rev_ind; [constructor|]. rewrite dict_items_snoc. by apply set_item_NoDup.
Qed.

(** The dict made of an object's members has the values read of the object. *)
Lemma member_dict_items k ms : member k (dict_items ms) = member k ms.
Proof.
  induction ms as [|[k' v] ms IH] using rev_ind; [done|].
  rewrite dict_items_snoc, member_set_item, member_snoc by apply dict_items_NoDup. cbn [fst snd]. by rewrite IH.
Qed.

Lemma get_set_dict k k' v ms :
  get k (set_item k' v (dict_items ms)) =
    if decide (chars_of k = k') then match v with JNull => None | _ => Some v end else get k ms.
Proof.
  unfold get. rewrite member_set_item, member_dict_items by apply dict_items_NoDup.
  repeat case_decide; try congruence.
Qed.

(** The blocks of a message whose content is a list. *)
Definition content_of (m : json) : list json := match jget "content" m with Some (JArray l) => l | _ => [] end.
Definition spoken (m : json) : list json := filter (fun b => negb (is_thinking b)) (content_of m).

Lemma with_content ms remaining :
  let m := JObject (set_item (chars_of "content") (JArray remaining) (dict_items ms)) in
  content_of m = remaining /\ is_assistant m = is_assistant (JObject ms).
Proof. unfold content_of, is_assistant, jget. by rewrite !get_set_dict. Qed.

Lemma filter_bool_all {A} (f : A -> bool) (l : list A) : filter f (filter f l) = filter f l.
Proof. apply filter_every. intros x Hx. by apply list_elem_of_filter in Hx as [? _]. Qed.

(** From the [i]-th message on, the thinking of the assistant's messages but the kept
    one is taken, and nothing else. *)
Record stripped (keep : option nat) (i : nat) (l : list json) (removed : Z) (kept : list json) : Prop := {
  spoken_kept : kept ≫= spoken = l ≫= spoken;
  others_kept : filter (fun m => negb (is_assistant m)) kept = filter (fun m => negb (is_assistant m)) l;
  all_counted : Z.of_nat (length (l ≫= content_of)) = (removed + Z.of_nat (length (kept ≫= content_of)))%Z;
  count_positive : (0 <= removed)%Z;
  thinking_own : forall m b, m ∈ kept -> is_assistant m = true -> b ∈ content_of m -> is_thinking b = true ->
    exists j, keep = Some (i + j)%nat /\ l !! j = Some m;
  none_missed : removed = 0%Z -> forall j m b, l !! j = Some m -> is_assistant m = true -> b ∈ content_of m ->
    is_thinking b = true -> keep = Some (i + j)%nat
}.

Lemma thinking_later keep i m l n k : stripped keep (S i) l n k ->
  forall m' b, m' ∈ k -> is_assistant m' = true -> b ∈ content_of m' -> is_thinking b = true ->
    exists j, keep = Some (i + j)%nat /\ (m :: l) !! j = Some m'.
Proof.
  intros Hst m' b H1 H2 H3 H4. destruct (thinking_own _ _ _ _ _ Hst m' b H1 H2 H3 H4) as (j & -> & Hj).
  exists (S j). split; [f_equal; lia|done].
Qed.

Lemma stripped_keep keep i m l n k :
  stripped keep (S i) l n k -> (is_assistant m = true -> content_of m <> [] -> Some i = keep) ->
  stripped keep i (m :: l) n (m :: k).
Proof.
  intros Hst Hk. pose proof (thinking_later _ _ m _ _ _ Hst) as Hlater. destruct Hst as [Hs Ho Hn Hp _ Hz].
  assert (forall b, is_assistant m = true -> b ∈ content_of m -> keep = Some (i + 0)%nat) as Hown.
  { intros b Ha Hb. rewrite Nat.add_0_r. symmetry. apply Hk; [done|]. intros Hc. rewrite Hc in Hb. set_solver. }
  split; [by rewrite !bind_cons, Hs|by rewrite !filter_bool_cons, Ho|rewrite !bind_cons, !length_app; lia|done|..].
  - intros m' b [->|Hm]%elem_of_cons; [|by apply Hlater]. intros Ha Hb _. exists 0%nat. by eauto.
  - intros Hr [|j] m' b Hj Ha Hb Hth; [injection Hj as <-; by eauto|]. rewrite <- Nat.add_succ_comm. by eapply Hz.
Qed.

Lemma stripped_cut keep i ms content l n k :
  stripped keep (S i) l n k -> is_assistant (JObject ms) = true -> content_of (JObject ms) = content ->
  let remaining := filter (fun b => negb (is_thinking b)) content in
  stripped keep i (JObject ms :: l) (n + Z.of_nat (length content - length remaining))
    (match remaining with
     | [] => k
     | _ => JObject (set_item (chars_of "content") (JArray remaining) (dict_items ms)) :: k
     end).
Proof.
  intros Hst Ha Em remaining. pose proof (thinking_later _ _ (JObject ms) _ _ _ Hst) as Hlater. destruct Hst as [Hs Ho Hn Hp _ Hz].
  assert (length remaining <= length content)%nat as Hlen by apply length_filter.
  destruct (with_content ms remaining) as [W1 W2]. set (m' := JObject (set_item _ _ _)) in *. rewrite Ha in W2.
  assert (spoken m' = remaining) as W3 by (unfold spoken; rewrite W1; apply filter_bool_all).
  assert (spoken (JObject ms) = remaining) as W4 by (unfold spoken; by rewrite Em).
  set (kept := match remaining with [] => k | _ => m' :: k end).
  assert (kept = k /\ remaining = [] \/ kept = m' :: k) as Hk by (subst kept; destruct remaining; auto).
  split.
  - rewrite bind_cons, W4, <- Hs. destruct Hk as [[-> ->]| ->]; [done|]. by rewrite bind_cons, W3.
  - rewrite filter_bool_cons, Ha, <- Ho. destruct Hk as [[-> _]| ->]; [done|]. by rewrite filter_bool_cons, W2.
  - rewrite bind_cons, length_app, Em. destruct Hk as [[-> E]| ->]; [rewrite E in *; cbn; lia|].
    rewrite bind_cons, length_app, W1. lia.
  - lia.
  - intros x b Hx. assert (x = m' \/ x ∈ k) as [->|Hx'] by (destruct Hk as [[E _]|E]; rewrite E in Hx; set_solver).
    + intros _. rewrite W1. unfold remaining. rewrite list_elem_of_filter. intros [Hb _] Hth. by rewrite Hth in Hb.
    + by apply Hlater.
  - intros Hr [|j] m b Hj Ha' Hb Hth; [|rewrite <- Nat.add_succ_comm; by apply (Hz ltac:(lia) j m b)].
    injection Hj as <-. rewrite Em in Hb. assert (length remaining < length content)%nat; [|lia].
    apply (length_filter_lt _ _ b); [done|]. rewrite Hth. by intros [].
Qed.

Lemma strip_loop_spec keep i l : stripped keep i l (strip_loop keep i l).1 (strip_loop keep i l).2.
Proof.
  revert i. induction l as [|m l IH]; intros i; cbn [strip_loop]; [split; try done; set_solver|].
  specialize (IH (S i)). destruct (strip_loop keep (S i) l) as [n k]. cbn [fst snd] in IH.
  destruct m as [| | | | |ms]; try (apply stripped_keep; [done|discriminate]).
  destruct (jget "content" (JObject ms)) as [v|] eqn:Ec; [|apply stripped_keep; [done|]; unfold content_of; by rewrite Ec].
  assert (content_of (JObject ms) = match v with JArray c => c | _ => [] end) as Em by (unfold content_of; by rewrite Ec).
  destruct v as [| | | |content|]; try (apply stripped_keep; [done|by rewrite Em]).
  destruct (bool_decide (Some i = keep) || negb (is_assistant (JObject ms))) eqn:Eb.
  - apply stripped_keep; [done|]. intros Ha _. rewrite Ha, orb_false_r in Eb. by apply bool_decide_eq_true in Eb.
  - apply orb_false_iff in Eb as [_ Ha%negb_false_iff]. by apply stripped_cut.
Qed.

(** The last of the assistant's messages. *)
Lemma last_assistant_spec i l j :
  last_assistant i l = Some j ->
  exists d m, j = (i + d)%nat /\ l !! d = Some m /\ is_assistant m = true /\
    forall d' m', l !! d' = Some m' -> is_assistant m' = true -> (d' <= d)%nat.
Proof.
  assert (forall i l, last_assistant i l = None -> forall d' m', l !! d' = Some m' -> is_assistant m' = false) as Hnone.
  { intros i' l'. revert i'. induction l' as [|m l' IH]; intros i' Hl d' m' Hd; [done|]. cbn in Hl.
    destruct (last_assistant (S i') l') eqn:E; [done|]. destruct (is_assistant m) eqn:Em; [done|].
    destruct d' as [|d']; [by injection Hd as <-|by eapply IH]. }
  revert i. induction l as [|m l IH]; intros i; [done|]. cbn.
  destruct (last_assistant (S i) l) as [j'|] eqn:E.
  - intros [= ->]. destruct (IH _ E) as (d & m' & -> & Hd & Ha & Hm). exists (S d), m'. split_and!; [lia|done..|].
    intros [|d'] x Hx Hax; [lia|]. specialize (Hm d' x Hx Hax). lia.
  - destruct (is_assistant m) eqn:Em; [|done]. intros [= <-]. exists 0%nat, m. split_and!; [lia|done..|].
    intros [|d'] x Hx Hax; [lia|]. rewrite (Hnone _ _ E d' x Hx) in Hax. done.
Qed.

(** The body sent to another model carries no thinking but its own: none at all, or
    that of the assistant's last message when a tool loop stays on its model.  What
    is said, and what others wrote, is untouched; the number returned is that of the
    blocks taken. *)
Lemma foreign_thinking_gone switches turn act body messages :
  (switches <> 0)%Z -> get "messages" body = Some (JArray messages) ->
  let '(removed, body') := strip_foreign_thinking switches turn act body in
  exists messages', get "messages" body' = Some (JArray messages') /\
    messages' ≫= spoken = messages ≫= spoken /\
    filter (fun m => negb (is_assistant m)) messages' = filter (fun m => negb (is_assistant m)) messages /\
    Z.of_nat (length (messages ≫= content_of)) = (removed + Z.of_nat (length (messages' ≫= content_of)))%Z /\
    forall m b, m ∈ messages' -> is_assistant m = true -> b ∈ content_of m -> is_thinking b = true ->
      turn = TOOL_CONTINUATION /\ act = KEEP /\
      exists j, messages !! j = Some m /\ forall j' m', messages !! j' = Some m' -> is_assistant m' = true -> (j' <= j)%nat.
Proof.
  intros Hsw Hms. unfold strip_foreign_thinking. rewrite bool_decide_false, Hms by done.
  set (keep := keep_index turn act messages). pose proof (strip_loop_spec keep 0 messages) as [Hs Ho Hn Hp Ht Hz].
  destruct (strip_loop keep 0 messages) as [n k]. cbn [fst snd] in *.
  assert (forall j m, keep = Some (0 + j)%nat -> messages !! j = Some m -> turn = TOOL_CONTINUATION /\ act = KEEP /\
    exists j, messages !! j = Some m /\ forall j' m', messages !! j' = Some m' -> is_assistant m' = true -> (j' <= j)%nat) as Hkeep.
  { intros j m Hj Hm. subst keep. unfold keep_index in Hj. destruct turn, act; try done. split_and!; [done..|].
    apply last_assistant_spec in Hj as (d & _ & Hd & _ & _ & Hlast). assert (j = d) as -> by lia. by eauto. }
  case_bool_decide as Hr.
  - exists messages. split_and!; [done..|lia|]. intros m b Hm Ha Hb Hth. apply list_elem_of_lookup in Hm as [j Hj].
    by eapply Hkeep; [eapply Hz|].
  - exists k. split_and!; [|done..|]; [by rewrite get_set_dict|]. intros m b Hm Ha Hb Hth.
    destruct (Ht m b Hm Ha Hb Hth) as (j & Hj & Hl). by eapply Hkeep.
Qed.

(** ** Names *)

Lemma is_prefix_split p l : is_prefix p l = true -> l = p ++ List.skipn (length p) l.
Proof.
  revert l. induction p as [|x p IH]; intros [|y l]; cbn; try done.
  intros [E%N.eqb_eq Hp]%andb_true_iff. by rewrite E, <- IH.
Qed.

Lemma resolve_virtual c model p : resolve c model = Some p -> model ∈ _virtual_model_ids (profiles c).*1.
Proof.
  unfold resolve, _virtual_model_ids. case_bool_decide as E; [intros _; subst; left|]. destruct (is_prefix _ _) eqn:Ep; [|done].
  unfold profile_named. intros ([n q] & [Hin%list_elem_of_In Hn%bool_decide_eq_true]%find_some & _)%fmap_Some. cbn in Hn.
  right. apply list_elem_of_fmap. exists n. split; [rewrite Hn; by apply is_prefix_split|]. apply list_elem_of_fmap. by exists (n, q).
Qed.

(** Auto mode never answers for a registered model. *)
Lemma auto_hides_nothing version section registered c model enabled c' :
  load_auto_mode version section registered = Some c ->
  auto_mode_for (Some model) (Some c) enabled = Some c' -> c' = c /\ enabled = true /\ model ∉ registered.
Proof.
  unfold load_auto_mode, auto_mode_for. destruct section as [sp|]; [|done]. destruct (parse_auto_config version sp) as [d|]; [|done].
  destruct (conflicts d registered) as [|x l] eqn:Ec; [|done]. intros [= ->].
  destruct (is_auto_model_id model); [|done]. destruct (resolve c model) as [p|] eqn:Er; [|done].
  destruct enabled; [|done]. intros [= <-]. split_and!; [done..|]. intros Hreg. apply resolve_virtual in Er.
  assert (model ∈ conflicts c registered) as Hin; [|rewrite Ec in Hin; set_solver].
  unfold conflicts. apply list_elem_of_filter. split; [done|]. rewrite merge_sort_Permutation. by apply elem_of_remove_dups.
Qed.

(** Callers never share a session. *)
Lemma sessions_apart u u' g g' d d' o o' k :
  u <> ""%string -> u' <> ""%string ->
  session_key (Some u) g d o = Some k -> session_key (Some u') g' d' o' = Some k -> u = u' /\ g = g' /\ d = d' /\ o = o'.
Proof.
  intros Hu Hu'. unfold session_key. rewrite !bool_decide_false by done.
  destruct d, o; try done; intros [= <-]; destruct d', o'; try done; naive_solver.
Qed.

(** ** A conversation *)

Module SampleRequest.
Definition digests : Digests := toy_digests.
Definition numbers : NumberText := fun n => n.
Definition LF : list N := [10].
Definition CRLF : list N := [13; 10].
Definition ping (eol : list N) : list N := chars_of "event: ping" ++ eol ++ chars_of "data: {}" ++ eol ++ eol.
Definition start (model : string) (eol : list N) : list N :=
  chars_of "event: message_start" ++ eol ++
  chars_of "data: {" ++ dumps_string (chars_of "type") ++ chars_of ": " ++ dumps_string (chars_of "message_start") ++
  chars_of ", " ++ dumps_string (chars_of "message") ++ chars_of ": {" ++ dumps_string (chars_of "model") ++ chars_of ": " ++
  dumps_string (chars_of model) ++ chars_of "}}" ++ eol ++ eol.
Definition bytewise (l : list N) : list (list N) := (fun b => [b]) <$> l.
Definition renamed_to (chunks : list (list N)) : list N := @rename_stream digests numbers (chars_of "auto") chunks.

Example renamed_whole :
  renamed_to [start "big" CRLF ++ ping CRLF ++ start "big" LF] = start "auto" CRLF ++ ping CRLF ++ start "big" LF.
Proof. vm_compute. reflexivity. Qed.
Example renamed_bytewise :
  renamed_to (bytewise (ping LF ++ start "big" CRLF ++ ping LF)) = ping LF ++ start "auto" CRLF ++ ping LF.
Proof. vm_compute. reflexivity. Qed.

(** A tool loop whose session is forgotten: idle for longer than the timeout, it is
    ranked anew while its model is down, and the model that takes over is sent the
    first one's thinking, for the new session has not switched. *)
Definition up (m : chars) : option model_entry :=
  if decide (m = chars_of "big") then Some (SampleAuto.entry "big" true) else SampleAuto.table m.
Definition ask_at (table : chars -> option model_entry) (s : session_store) (turn : turn_kind) (now : Q) :=
  auto_select table None (fun _ => None) SampleAuto.conf s (chars_of "auto-balance") (SampleAuto.ask turn) (Some SampleAuto.key) now now.
Definition block (type : string) : json := JObject [(chars_of "type", JString (chars_of type))].
Definition said (role : string) (blocks : list json) : json :=
  JObject [(chars_of "role", JString (chars_of role)); (chars_of "content", JArray blocks)].
Definition body : list (chars * json) :=
  [(chars_of "messages", JArray [said "user" [block "text"]; said "assistant" [block "thinking"; block "tool_use"];
                                 said "user" [block "tool_result"]])].
Example forgotten_session_sends_thinking :
  let '(s, first) := ask_at up SampleAuto.store NEW_TURN 0 in
  let '(_, later) := ask_at SampleAuto.table s TOOL_CONTINUATION 1801 in
  exists a b, first = Ok a /\ later = Ok b /\ as_candidate a = SampleAuto.m1 /\ as_candidate b = SampleAuto.m2 /\
    strip_foreign_thinking (as_switches b) TOOL_CONTINUATION (action (as_decision b)) body = (0%Z, body).
Proof. vm_compute. eexists _, _. split_and!; reflexivity. Qed.
Example switched_session_strips :
  let '(s, _) := ask_at up SampleAuto.store NEW_TURN 0 in
  let '(_, later) := ask_at SampleAuto.table s TOOL_CONTINUATION 1800 in
  exists b, later = Ok b /\ (strip_foreign_thinking (as_switches b) TOOL_CONTINUATION (action (as_decision b)) body).1 = 1%Z.
Proof. vm_compute. eexists. split; reflexivity. Qed.
End SampleRequest.
