(* ===== verification/BatchStore.v ===== *)
(** Batch storage: the life of batches, their items and the attempts at them,
    [serving/storage/batch_store.py].

    Every method is one transaction; the locks it takes (the batch row, and for claims
    and heartbeats the model's advisory lock) make it atomic, so it is one function here.
    The rows are grouped by their foreign keys, which cascade: a batch holds its items
    and an item its attempts, and an item is addressed with its batch.  [now] is the
    transaction's [now()], which waiting for a lock leaves behind the clock; [real] is
    [clock_timestamp()].  Instants are microseconds; dollar amounts are exact, the three
    cost columns having the same scale. *)

From S2P Require Import Prelude UsageLimit.

Local Open Scope Z_scope.

(** ** Rows *)

Inductive item_status : Type := Queued | Running | ICompleted | IFailed | ICancelled | IExpired.
#[export] Instance item_status_eq : EqDecision item_status.
Proof. solve_decision. Defined.

(** An attempt's [cost_status], and how it ended. *)
Inductive billing : Type := Billed | NotBilled | UnknownCost.
#[export] Instance billing_eq : EqDecision billing.
Proof. solve_decision. Defined.
Inductive outcome : Type := Succeeded | OFailed | ORetry | Released | Abandoned.
#[export] Instance outcome_eq : EqDecision outcome.
Proof. solve_decision. Defined.

(** A row of [batch_attempts]. *)
Record attempt : Type := Attempt {
  a_worker : string;
  a_dispatched : bool;
  a_outcome : option outcome;
  a_cost : option Q;
  a_billing : option billing
}.
#[export] Instance eta_attempt : Eta attempt := fun a =>
  Attempt (a_worker a) (a_dispatched a) (a_outcome a) (a_cost a) (a_billing a).

(** A row of [batch_items]. *)
Record item : Type := Item {
  i_model : string;
  i_status : item_status;
  i_attempts : Z;
  i_seq : Z;
  i_claimed : option string;
  i_lease : option datetime_us;
  i_next : option datetime_us;
  i_cost : option Q;
  i_unknown : bool;                 (* cost_status = 'unknown' *)
  i_tries : gmap Z attempt
}.
#[export] Instance eta_item : Eta item := fun i =>
  Item (i_model i) (i_status i) (i_attempts i) (i_seq i) (i_claimed i) (i_lease i) (i_next i) (i_cost i)
    (i_unknown i) (i_tries i).

Inductive batch_status : Type := Validating | InProgress | Cancelling | Completed | BFailed | BExpired | Cancelled.
#[export] Instance batch_status_eq : EqDecision batch_status.
Proof. solve_decision. Defined.
Inductive batch_phase : Type := PValidating | PRunnable | PSealing | PSealed.
#[export] Instance batch_phase_eq : EqDecision batch_phase.
Proof. solve_decision. Defined.

(** A row of [batch_jobs] with its items. *)
Record batch : Type := Batch {
  b_user : string;
  b_key : option string;
  b_file : bool;                        (* api_surface = 'openai_file' *)
  b_schema : Z;
  b_supported : bool;                   (* its kind is one this worker runs *)
  b_models : list string;
  b_created : datetime_us;
  b_expires : option datetime_us;
  b_status : batch_status;
  b_phase : batch_phase;
  b_pending : option batch_status;      (* pending_terminal_status *)
  b_paused : option datetime_us;
  b_delete_requested : bool;
  b_claim_seq : option Z;
  b_work_owner : option string;
  b_work_expires : option datetime_us;
  b_generation : Z;                     (* seal_generation *)
  b_request_count : Z;
  b_completed : Z;
  b_failed : Z;
  b_cancelled : Z;
  b_expired : Z;
  b_cost : Q;
  b_unknown : Z;
  b_items : gmap Z item
}.
#[export] Instance eta_batch : Eta batch := fun b =>
  Batch (b_user b) (b_key b) (b_file b) (b_schema b) (b_supported b) (b_models b) (b_created b) (b_expires b)
    (b_status b) (b_phase b) (b_pending b) (b_paused b) (b_delete_requested b) (b_claim_seq b) (b_work_owner b)
    (b_work_expires b) (b_generation b) (b_request_count b) (b_completed b) (b_failed b) (b_cancelled b)
    (b_expired b) (b_cost b) (b_unknown b) (b_items b).

Definition SCHEMA_VERSION : Z := 2.

(** ** Predicates *)

Definition before (t : option datetime_us) (now : datetime_us) : bool :=   (* IS NULL OR <= now *)
  match t with None => true | Some t => bool_decide (t <= now) end.

Definition is_open (i : item) : bool :=
  match i_status i with Queued | Running => true | _ => false end.

(** Running under a lease that has not, or has, run out. *)
Definition lease_live (now : datetime_us) (i : item) : bool :=
  bool_decide (i_status i = Running) && match i_lease i with Some t => bool_decide (now < t) | None => false end.
Definition lease_over (now : datetime_us) (i : item) : bool :=
  bool_decide (i_status i = Running) && match i_lease i with Some t => bool_decide (t <= now) | None => false end.

(** [_claimable_job_sql] *)
Definition claimable_job (now : datetime_us) (b : batch) : bool :=
  bool_decide (b_phase b = PRunnable) && bool_decide (b_status b = Validating \/ b_status b = InProgress)
  && before (b_paused b) now
  && match b_expires b with None => true | Some t => bool_decide (now < t) end
  && negb (b_delete_requested b) && b_supported b.

(** The items of [_CLAIM_CANDIDATES_SQL] and [_CLAIM_ITEMS_SQL]. *)
Definition claimable_item (now : datetime_us) (i : item) : bool :=
  (bool_decide (i_status i = Queued) && before (i_next i) now) || lease_over now i.

(** [_ITEM_GUARD] *)
Definition item_guard (worker : string) (attempt : Z) (i : item) : bool :=
  bool_decide (i_status i = Running) && bool_decide (i_claimed i = Some worker) && bool_decide (i_seq i = attempt).

(** ** Attempts *)

(** [_CLOSE_ATTEMPT_SQL]: closes an attempt once. *)
Definition close_attempt (i : item) (n : Z) (o : outcome) (cost : option Q) (status : billing) : item :=
  match i_tries i !! n with
  | Some a =>
      match a_outcome a with
      | None => i <| i_tries := <[n := a <| a_outcome := Some o |> <| a_cost := cost |> <| a_billing := Some status |>]>
                                  (i_tries i) |>
      | Some _ => i
      end
  | None => i
  end.

(** [_abandon_attempts] of one attempt: the item, and whether its cost became unknown. *)
Definition abandon_attempt (i : item) (n : Z) : item * bool :=
  match i_tries i !! n with
  | Some a =>
      match a_outcome a with
      | None =>
          let status := if a_dispatched a then UnknownCost else NotBilled in
          let i := i <| i_tries := <[n := a <| a_outcome := Some Abandoned |> <| a_billing := Some status |>]> (i_tries i) |> in
          if a_dispatched a then (i <| i_unknown := true |>, true) else (i, false)
      | Some _ => (i, false)
      end
  | None => (i, false)
  end.

(** ** Settling a batch *)

(** [_ITEM_VERDICTS] *)
Definition _ITEM_VERDICTS (s : batch_status) : option item_status :=
  match s with
  | Cancelling => Some ICancelled
  | BFailed => Some IFailed
  | BExpired => Some IExpired
  | _ => None
  end.

(** [_FINAL_STATUS] *)
Definition _FINAL_STATUS (s : batch_status) : option batch_status :=
  match s with
  | Validating | InProgress => Some Completed
  | Cancelling => Some Cancelled
  | BFailed => Some BFailed
  | BExpired => Some BExpired
  | Completed | Cancelled => None
  end.

(** One item of [_settle]: abandoned if its lease ran out, then given the verdict if it
    is queued or was abandoned; with whether a cost became unknown and whether it got
    the verdict. *)
Definition settle_item (now : datetime_us) (verdict : item_status) (i : item) : item * bool * bool :=
  let '(i, lost) := if lease_over now i then abandon_attempt i (i_seq i) else (i, false) in
  if bool_decide (i_status i = Queued) || lease_over now i
  then (i <| i_status := verdict |> <| i_next := None |> <| i_lease := None |>, lost, true)
  else (i, lost, false).

Definition one_if (b : bool) : Z := if b then 1 else 0.
Definition count_if (f : item -> bool) (m : gmap Z item) : Z := zsum (fun i => one_if (f i)) m.

(** The verdict applied to all items, with the counters. *)
Definition apply_verdict (now : datetime_us) (s : batch_status) (verdict : item_status) (b : batch) : batch :=
  let items := (fun i => (settle_item now verdict i).1.1) <$> b_items b in
  let lost := count_if (fun i => (settle_item now verdict i).1.2) (b_items b) in
  let settled := count_if (fun i => (settle_item now verdict i).2) (b_items b) in
  let b := b <| b_items := items |> <| b_unknown := b_unknown b + lost |> in
  if decide (s = Cancelling) then b <| b_cancelled := b_cancelled b + settled |>
  else b <| b_failed := b_failed b + settled |>
         <| b_expired := b_expired b + (if decide (s = BExpired) then settled else 0) |>.

(** [_HAS_OPEN_ITEMS_SQL] *)
Definition has_open (b : batch) : bool := bool_decide (0 < count_if is_open (b_items b)).

(** [_finalize] *)
Definition _finalize (b : batch) (final : batch_status) : batch :=
  if bool_decide (b_phase b = PSealing \/ b_phase b = PSealed) then b
  else if b_file b
  then b <| b_phase := PSealing |> <| b_pending := Some final |> <| b_work_owner := None |> <| b_work_expires := None |>
  else b <| b_status := final |> <| b_phase := PSealed |> <| b_pending := Some final |>.

(** [_settle] *)
Definition _settle (now : datetime_us) (b : batch) (s : batch_status) : batch :=
  if negb (bool_decide (b_phase b = PRunnable)) then b
  else
    let b := match _ITEM_VERDICTS s with Some v => apply_verdict now s v b | None => b end in
    match _FINAL_STATUS s with
    | None => b
    | Some final =>
        if has_open b then b
        else if bool_decide (s = BFailed \/ s = BExpired) && bool_decide (b_schema b < 2) then b
        else _finalize b final
    end.

(** ** Worker reports *)

(** What a finished attempt reports: whether it failed, the cost charged (not a number is
    no cost), the billing it claims, and whether its result is over the size limit. *)
Record report : Type := Report {
  rp_error : bool;
  rp_cost : option Q;
  rp_billing : option billing;
  rp_too_large : bool
}.

Definition settled_billing (r : report) (no_cost : billing) : billing :=
  match rp_billing r with
  | Some s => s
  | None => match rp_cost r with Some _ => Billed | None => no_cost end
  end.

(** The cost that counts: none when its billing is unknown. *)
Definition counted_cost (s : billing) (cost : option Q) : option Q :=
  if decide (s = UnknownCost) then None else cost.

(** [CASE WHEN $10 IS NULL THEN cost_usd ELSE COALESCE(cost_usd, 0) + $10 END] *)
Definition add_cost (old new : option Q) : option Q :=
  match new with
  | None => old
  | Some c => Some (default 0%Q old + c)%Q
  end.

(** [complete_item]; [None] is the answer False. *)
Definition complete_item (now : datetime_us) (id : Z) (worker : string) (n : Z) (r : report) (b : batch) :
    option batch :=
  let status := settled_billing r (if rp_error r then NotBilled else UnknownCost) in
  let cost := counted_cost status (rp_cost r) in
  let failed := rp_error r || rp_too_large r in
  i ← b_items b !! id;
  if negb (item_guard worker n i) then None
  else
    let i := i <| i_status := if failed then IFailed else ICompleted |>
               <| i_cost := add_cost (i_cost i) cost |>
               <| i_unknown := bool_decide (status = UnknownCost) || i_unknown i |>
               <| i_lease := None |> <| i_next := None |> in
    let i := close_attempt i n (if failed then OFailed else Succeeded) cost status in
    let b := b <| b_items := <[id := i]> (b_items b) |>
               <| b_completed := b_completed b + one_if (negb failed) |>
               <| b_failed := b_failed b + one_if failed |>
               <| b_cost := (b_cost b + default 0 cost)%Q |>
               <| b_unknown := b_unknown b + one_if (bool_decide (status = UnknownCost)) |> in
    Some (_settle now b (b_status b)).

(** [retry_item] *)
Definition retry_item (now : datetime_us) (id : Z) (worker : string) (n : Z) (r : report) (next : datetime_us)
    (b : batch) : option batch :=
  let status := settled_billing r NotBilled in
  let cost := counted_cost status (rp_cost r) in
  i ← b_items b !! id;
  if negb (item_guard worker n i) then None
  else
    let i := i <| i_status := Queued |> <| i_next := Some next |>
               <| i_cost := add_cost (i_cost i) cost |>
               <| i_unknown := bool_decide (status = UnknownCost) || i_unknown i |>
               <| i_claimed := None |> <| i_lease := None |> in
    let i := close_attempt i n ORetry cost status in
    let b := b <| b_items := <[id := i]> (b_items b) |>
               <| b_cost := (b_cost b + default 0 cost)%Q |>
               <| b_unknown := b_unknown b + one_if (bool_decide (status = UnknownCost)) |> in
    Some (_settle now b (b_status b)).

(** [release_item] *)
Definition release_item (now : datetime_us) (id : Z) (worker : string) (n : Z) (next : option datetime_us)
    (dispatched : bool) (b : batch) : option batch :=
  i ← b_items b !! id;
  if negb (item_guard worker n i) then None
  else
    let i := i <| i_status := Queued |> <| i_attempts := Z.max (i_attempts i - 1) 0 |> <| i_next := next |>
               <| i_unknown := dispatched || i_unknown i |>
               <| i_claimed := None |> <| i_lease := None |> in
    let i := close_attempt i n (if dispatched then Abandoned else Released) None
               (if dispatched then UnknownCost else NotBilled) in
    let b := b <| b_items := <[id := i]> (b_items b) |>
               <| b_unknown := b_unknown b + one_if dispatched |> in
    Some (_settle now b (b_status b)).

(** [mark_dispatched] *)
Definition mark_dispatched (id : Z) (worker : string) (n : Z) (b : batch) : option batch :=
  i ← b_items b !! id;
  a ← i_tries i !! n;
  if item_guard worker n i && bool_decide (a_outcome a = None)
  then Some (b <| b_items := <[id := i <| i_tries := <[n := a <| a_dispatched := true |>]> (i_tries i) |>]> (b_items b) |>)
  else None.

(** [heartbeat] of one item *)
Definition heartbeat_item (real lease_us : Z) (id : Z) (worker : string) (b : batch) : batch :=
  match b_items b !! id with
  | Some i =>
      if lease_live real i && bool_decide (i_claimed i = Some worker)
      then b <| b_items := <[id := i <| i_lease := Some (real + lease_us) |>]> (b_items b) |>
      else b
  | None => b
  end.

(** One item of a claim: its lost attempt is abandoned, its next one opened. *)
Definition claim_item (now lease_us : Z) (worker model : string) (id : Z) (b : batch) : option batch :=
  i ← b_items b !! id;
  if claimable_item now i && bool_decide (i_model i = model) then
    let '(i, lost) := if lease_over now i then abandon_attempt i (i_seq i) else (i, false) in
    let n := i_seq i + 1 in
    let i := i <| i_status := Running |> <| i_attempts := i_attempts i + 1 |> <| i_seq := n |>
               <| i_claimed := Some worker |> <| i_lease := Some (now + lease_us) |> <| i_next := None |> in
    let i := match i_tries i !! n with
             | None => i <| i_tries := <[n := Attempt worker false None None None]> (i_tries i) |>
             | Some _ => i
             end in
    Some (b <| b_items := <[id := i]> (b_items b) |> <| b_unknown := b_unknown b + one_if lost |>)
  else None.

(** ** Owner and sweep transitions *)

(** [fail_batch]; [None] is the answer False. *)
Definition fail_batch (now : datetime_us) (b : batch) : option batch :=
  if bool_decide (b_status b = Validating \/ b_status b = InProgress)
     && bool_decide (b_phase b = PRunnable \/ b_phase b = PValidating)
  then Some (_settle now (b <| b_status := BFailed |>) BFailed) else None.

(** [cancel_batch] *)
Definition cancel_batch (now : datetime_us) (b : batch) : batch :=
  if bool_decide (b_status b = Validating \/ b_status b = InProgress)
     && bool_decide (b_phase b = PRunnable \/ b_phase b = PValidating) && negb (b_delete_requested b)
  then _settle now (b <| b_status := Cancelling |>) Cancelling else b.

(** The first step of [sweep], for one overdue batch. *)
Definition expire_batch (now : datetime_us) (b : batch) : batch :=
  if bool_decide (b_status b = Validating \/ b_status b = InProgress)
     && bool_decide (b_phase b = PRunnable \/ b_phase b = PValidating)
     && match b_expires b with Some t => bool_decide (t <= now) | None => false end && b_supported b
  then _settle now (b <| b_status := BExpired |>) BExpired else b.

(** Its second step, for one batch. *)
Definition sweep_settle (now : datetime_us) (b : batch) : batch := _settle now b (b_status b).

(** [pause_user_batches], for one batch. *)
Definition pause_batch (user : string) (until : datetime_us) (key_hash : option string) (b : batch) : batch :=
  if bool_decide (b_user b = user) && bool_decide (b_status b = Validating \/ b_status b = InProgress)
     && match key_hash with None => true | Some k => bool_decide (b_key b = Some k) end
  then b <| b_paused := Some until |> else b.

(** ** Validation and sealing *)

(** [claim_batch_work], for the batch it takes. *)
Definition claim_batch_work (phase : batch_phase) (worker : string) (now lease_us : Z) (b : batch) : option batch :=
  if bool_decide (b_phase b = phase)
     && (bool_decide (phase = PSealing) || bool_decide (phase = PValidating) && bool_decide (b_status b = Validating))
     && negb (b_delete_requested b) && before (b_work_expires b) now && b_supported b
  then Some (b <| b_work_owner := Some worker |> <| b_work_expires := Some (now + lease_us) |>
               <| b_generation := b_generation b + one_if (bool_decide (phase = PSealing)) |>)
  else None.

(** [extend_batch_work] *)
Definition extend_batch_work (phase : batch_phase) (worker : string) (now lease_us : Z) (b : batch) : option batch :=
  if bool_decide (b_work_owner b = Some worker) && bool_decide (b_phase b = phase) && negb (b_delete_requested b)
  then Some (b <| b_work_expires := Some (now + lease_us) |>) else None.

(** [reset_staged_items] *)
Definition reset_staged_items (worker : string) (b : batch) : option batch :=
  if bool_decide (b_work_owner b = Some worker) && bool_decide (b_phase b = PValidating)
  then Some (b <| b_items := ∅ |> <| b_request_count := 0 |> <| b_models := [] |>) else None.

Definition new_item (model : string) : item := Item model Queued 0 0 None None None None false ∅.

(** [stage_items], within the caps; [ids] are the new item ids with their models. *)
Definition stage_items (worker : string) (now : datetime_us) (ids : list (Z * string)) (b : batch) : option batch :=
  if bool_decide (b_work_owner b = Some worker) && bool_decide (b_phase b = PValidating)
     && bool_decide (b_status b = Validating) && negb (b_delete_requested b)
     && bool_decide (NoDup ids.*1) && forallb (fun p => bool_decide (b_items b !! p.1 = None)) ids
  then Some (b <| b_items := list_to_map (prod_map id new_item <$> ids) ∪ b_items b |>
               <| b_request_count := b_request_count b + Z.of_nat (length ids) |>
               <| b_work_expires := match b_work_expires b with
                                    | Some t => Some (Z.max t (now + 60 * SECOND))
                                    | None => Some (now + 60 * SECOND)
                                    end |>)
  else None.

(** [sorted(set(models))] *)
Definition str_le (a b : string) : Prop := String.compare a b <> Gt.
#[export] Instance str_le_dec a b : Decision (str_le a b) := decide (String.compare a b <> Gt).
Definition sorted_set (l : list string) : list string := merge_sort str_le (remove_dups l).

(** [publish_validated] *)
Definition publish_validated (worker : string) (now : datetime_us) (models : list string) (b : batch) : option batch :=
  if bool_decide (b_work_owner b = Some worker) && bool_decide (b_phase b = PValidating)
     && bool_decide (b_status b = Validating) && negb (b_delete_requested b)
  then
    let b := b <| b_phase := PRunnable |> <| b_status := InProgress |> <| b_models := sorted_set models |>
               <| b_work_owner := None |> <| b_work_expires := None |> in
    Some (if has_open b then b else _settle now b InProgress)
  else None.

(** [fail_validation]; [worker] is [None] from the sweep. *)
Definition fail_validation (worker : option string) (b : batch) : option batch :=
  if bool_decide (b_phase b = PValidating)
     && match worker with None => true | Some w => bool_decide (b_work_owner b = Some w) end
  then
    let final := match b_status b with Cancelling => Cancelled | BExpired => BExpired | _ => BFailed end in
    let b := b <| b_items := ∅ |> <| b_request_count := 0 |> <| b_completed := 0 |> <| b_failed := 0 |>
               <| b_cancelled := 0 |> <| b_expired := 0 |> <| b_phase := PRunnable |>
               <| b_work_owner := None |> <| b_work_expires := None |> in
    Some (_finalize b final)
  else None.

(** [commit_seal] *)
Definition commit_seal (worker : string) (generation : Z) (b : batch) : option batch :=
  if bool_decide (b_phase b = PSealing) && bool_decide (b_work_owner b = Some worker)
     && bool_decide (b_generation b = generation) && negb (b_delete_requested b)
  then Some (b <| b_phase := PSealed |> <| b_status := default Completed (b_pending b) |>
               <| b_work_owner := None |> <| b_work_expires := None |>)
  else None.

(** ** Creating and deleting *)

(** [_insert_batch]: the queued items and those that failed admission, with their ids. *)
Definition insert_batch (now : datetime_us) (user : string) (key : option string) (file supported : bool)
    (models : list string) (window : option Z) (phase : batch_phase) (status : batch_status)
    (queued failed : list (Z * string)) : batch :=
  let items := list_to_map (prod_map id new_item <$> queued) ∪
               list_to_map (prod_map id (fun m => (new_item m) <| i_status := IFailed |>) <$> failed) in
  let b := Batch user key file SCHEMA_VERSION supported models now ((fun w => now + w) <$> window) status phase
             None None false None None None 0 (Z.of_nat (length queued + length failed)) 0
             (Z.of_nat (length failed)) 0 0 0 0 items in
  if bool_decide (phase = PRunnable) && (negb (bool_decide (failed = [])) || bool_decide (queued = []))
  then _settle now b status else b.

(** Whether [delete_batch] may go ahead: no item has a live lease. *)
Definition delete_blocked (real : datetime_us) (b : batch) : bool :=
  bool_decide (0 < count_if (lease_live real) (b_items b)).

(** ** Claims *)

Record batch_store : Type := BatchStore {
  batches : gmap string batch;
  user_seq : gmap string Z;        (* batch_user_state.claim_seq *)
  next_seq : Z                     (* nextval('batch_claim_seq') *)
}.
#[export] Instance eta_batch_store : Eta batch_store := fun s =>
  BatchStore (batches s) (user_seq s) (next_seq s).

(** A candidate of [_CLAIM_CANDIDATES_SQL], with its position in its batch. *)
Record candidate : Type := Candidate {
  c_user : string;
  c_user_seq : option Z;
  c_batch : string;
  c_id : Z;
  c_claim_seq : option Z;
  c_created : datetime_us;
  c_pos : Z
}.

(** Lexicographic comparison: the first difference decides. *)
Definition lex (c d : comparison) : comparison := match c with Eq => d | _ => c end.
(** [ASC NULLS FIRST] *)
Definition nulls_first (a b : option Z) : comparison :=
  match a, b with
  | None, None => Eq
  | None, _ => Lt
  | _, None => Gt
  | Some x, Some y => Z.compare x y
  end.
Definition not_gt (c : comparison) : bool := match c with Gt => false | _ => true end.

(** The order of a user's candidates. *)
Definition cmp_in_user (a b : candidate) : comparison :=
  lex (Z.compare (c_pos a) (c_pos b)) (lex (nulls_first (c_claim_seq a) (c_claim_seq b))
    (lex (Z.compare (c_created a) (c_created b)) (String.compare (c_batch a) (c_batch b)))).
(** The order across users, with each candidate's position among its user's. *)
Definition cmp_users (a b : nat * candidate) : comparison :=
  lex (Nat.compare a.1 b.1) (lex (nulls_first (c_user_seq a.2) (c_user_seq b.2))
    (lex (String.compare (c_user a.2) (c_user b.2)) (lex (Z.compare (c_pos a.2) (c_pos b.2))
      (Z.compare (c_id a.2) (c_id b.2))))).

Definition in_user_order (a b : candidate) : Prop := not_gt (cmp_in_user a b) = true.
#[export] Instance in_user_order_dec a b : Decision (in_user_order a b) := decide (not_gt (cmp_in_user a b) = true).
Definition users_order (a b : nat * candidate) : Prop := not_gt (cmp_users a b) = true.
#[export] Instance users_order_dec a b : Decision (users_order a b) := decide (not_gt (cmp_users a b) = true).

(** Items in id order. *)
Definition by_id (p q : Z * item) : Prop := p.1 <= q.1.
#[export] Instance by_id_dec p q : Decision (by_id p q) := decide (p.1 <= q.1).
Definition items_by_id (m : gmap Z item) : list (Z * item) := merge_sort by_id (map_to_list m).

(** A batch's candidates: its first [room] claimable items of the model. *)
Definition batch_candidates (now : datetime_us) (model : string) (room : nat) (seqs : gmap string Z)
    (bid : string) (b : batch) : list candidate :=
  if claimable_job now b && bool_decide (model ∈ b_models b) then
    imap (fun k p => Candidate (b_user b) (seqs !! b_user b) bid p.1 (b_claim_seq b) (b_created b) (Z.of_nat k + 1))
      (take room (filter (fun p => claimable_item now p.2 && bool_decide (i_model p.2 = model) = true)
                    (items_by_id (b_items b))))
  else [].

(** [row_number() OVER (PARTITION BY user_id ...)] of a list in its order. *)
Fixpoint number (l seen : list candidate) : list (nat * candidate) :=
  match l with
  | [] => []
  | c :: l => (S (length (filter (fun d => c_user d = c_user c) seen)), c) :: number l (c :: seen)
  end.

Definition all_candidates (now : datetime_us) (model : string) (room : nat) (s : batch_store) : list candidate :=
  map_to_list (batches s) ≫= fun p => batch_candidates now model room (user_seq s) p.1 p.2.
Definition ranked_candidates (now : datetime_us) (model : string) (room : nat) (s : batch_store) : list (nat * candidate) :=
  merge_sort users_order (number (merge_sort in_user_order (all_candidates now model room s)) []).
(** [_CLAIM_CANDIDATES_SQL] *)
Definition claim_candidates (now : datetime_us) (model : string) (room : nat) (s : batch_store) : list candidate :=
  take room (ranked_candidates now model room s).*2.

(** The live items of a model across the deployment. *)
Definition live_count (now : datetime_us) (model : string) (m : gmap string batch) : Z :=
  zsum (fun b => count_if (fun i => lease_live now i && bool_decide (i_model i = model)) (b_items b)) m.

(** The items of the candidates that are still claimable, claimed in turn. *)
Fixpoint claim_each (now lease_us : Z) (worker model : string) (cands : list candidate) (m : gmap string batch) :
    gmap string batch * list candidate :=
  match cands with
  | [] => (m, [])
  | c :: cands =>
      match b ← m !! c_batch c; if claimable_job now b then claim_item now lease_us worker model (c_id c) b else None with
      | Some b =>
          let '(m, served) := claim_each now lease_us worker model cands (<[c_batch c := b]> m) in
          (m, c :: served)
      | None => claim_each now lease_us worker model cands m
      end
  end.

(** [_CLAIM_TOUCH_BATCHES_SQL], [_CLAIM_TOUCH_USERS_SQL]: the batches and users served,
    each placed by its last item. *)
Definition touch_batch (m : gmap string batch) (p : string * Z) : gmap string batch :=
  alter (fun b => b <| b_claim_seq := Some p.2 |>
                    <| b_status := if decide (b_status b = Validating) then InProgress else b_status b |>) p.1 m.
Definition seqs_from (n : Z) (l : list string) : list (string * Z) := imap (fun k x => (x, n + Z.of_nat k)) l.

(** [claim_items], given what the candidate query answered. *)
Definition claim_from (now lease_us : Z) (worker model : string) (limit max_running : Z)
    (cands : list candidate) (s : batch_store) : batch_store * list candidate :=
  let room := Z.min limit (max_running - live_count now model (batches s)) in
  if bool_decide (limit <= 0) || bool_decide (max_running <= 0) || bool_decide (room <= 0) then (s, [])
  else
    let '(m, served) := claim_each now lease_us worker model (take (Z.to_nat room) cands) (batches s) in
    let bs := remove_dups (c_batch <$> served) in
    let us := remove_dups (c_user <$> served) in
    let users := seqs_from (next_seq s + Z.of_nat (length bs)) us in
    (BatchStore (fold_left touch_batch (seqs_from (next_seq s) bs) m)
       (list_to_map users ∪ user_seq s)
       (next_seq s + Z.of_nat (length bs) + Z.of_nat (length us)), served).

(** [claim_items], with nothing committed between the candidate query, which takes no
    locks, and the claims: in a history, [BClaim] takes any candidates. *)
Definition claim_items (now lease_us : Z) (worker model : string) (limit max_running : Z) (s : batch_store) :
    batch_store * list candidate :=
  let room := Z.min limit (max_running - live_count now model (batches s)) in
  claim_from now lease_us worker model limit max_running
    (claim_candidates now model (Z.to_nat room) s) s.

(** ** Histories *)

(** The calls of gateway processes, workers and owners.  A batch id and item ids given to
    [BInsert] and [BStage] are new; a heartbeat or a claim names the rows it found
    unlocked or as candidates. *)
Inductive batch_op : Type :=
| BInsert (bid user : string) (key : option string) (file supported : bool) (models : list string)
    (window : option Z) (phase : batch_phase) (status : batch_status) (queued failed : list (Z * string))
    (now : datetime_us)
| BClaim (worker model : string) (limit max_running lease_us : Z) (cands : list candidate) (now real : datetime_us)
| BHeartbeat (worker : string) (rows : list (string * Z)) (lease_us : Z) (real : datetime_us)
| BDispatch (bid : string) (id : Z) (worker : string) (n : Z)
| BComplete (bid : string) (id : Z) (worker : string) (n : Z) (r : report) (now : datetime_us)
| BRetry (bid : string) (id : Z) (worker : string) (n : Z) (r : report) (next now : datetime_us)
| BRelease (bid : string) (id : Z) (worker : string) (n : Z) (next : option datetime_us) (dispatched : bool)
    (now : datetime_us)
| BFail (bid : string) (now : datetime_us)
| BCancel (bid : string) (now : datetime_us)
| BExpire (bid : string) (now : datetime_us)
| BSettle (bid : string) (now : datetime_us)
| BPause (user : string) (until : datetime_us) (key_hash : option string)
| BWork (bid : string) (phase : batch_phase) (worker : string) (now lease_us : Z)
| BExtend (bid : string) (phase : batch_phase) (worker : string) (now lease_us : Z)
| BReset (bid worker : string)
| BStage (bid worker : string) (ids : list (Z * string)) (now : datetime_us)
| BPublish (bid worker : string) (models : list string) (now : datetime_us)
| BFailValidation (bid : string) (worker : option string)
| BSeal (bid worker : string) (generation : Z)
| BDelete (bid : string) (reading : bool) (real : datetime_us)
| BPurge (bid : string)
| BDeleteUser (user : string).

(** A transaction on one batch that may change nothing. *)
Definition on_batch (s : batch_store) (bid : string) (f : batch -> option batch) : batch_store :=
  match b ← batches s !! bid; f b with
  | Some b => s <| batches := <[bid := b]> (batches s) |>
  | None => s
  end.

Definition heartbeat (worker : string) (rows : list (string * Z)) (lease_us real : Z) (s : batch_store) : batch_store :=
  fold_left (fun s p => on_batch s p.1 (fun b => Some (heartbeat_item real lease_us p.2 worker b))) rows s.

Definition pause_user_batches (user : string) (until : datetime_us) (key_hash : option string) (s : batch_store) : batch_store :=
  s <| batches := pause_batch user until key_hash <$> batches s |>.

(** [delete_batch]; [reading] when a download holds a read lease.  A live lease refuses. *)
Definition delete_batch (bid : string) (reading : bool) (real : datetime_us) (s : batch_store) : batch_store :=
  match batches s !! bid with
  | Some b =>
      if b_delete_requested b || delete_blocked real b then s
      else if reading then s <| batches := <[bid := b <| b_delete_requested := true |>]> (batches s) |>
      else s <| batches := delete bid (batches s) |>
  | None => s
  end.

Definition delete_user_batches (user : string) (s : batch_store) : batch_store :=
  s <| batches := filter (fun p => b_user p.2 <> user) (batches s) |> <| user_seq := delete user (user_seq s) |>.

(** The items [BInsert] would create are distinct, and its phase and status those its
    callers give: a runnable batch, or one to be validated with no item yet. *)
Definition insertable (phase : batch_phase) (status : batch_status) (file : bool) (queued failed : list (Z * string)) :
    bool :=
  bool_decide (NoDup (queued ++ failed).*1) &&
  (bool_decide (phase = PRunnable) && bool_decide (status = Validating \/ status = InProgress)
   || bool_decide (phase = PValidating) && bool_decide (status = Validating) && file
      && bool_decide (queued = []) && bool_decide (failed = [])).

Definition batch_step (s : batch_store) (o : batch_op) : batch_store :=
  match o with
  | BInsert bid user key file supported models window phase status queued failed now =>
      if bool_decide (batches s !! bid = None) && insertable phase status file queued failed
      then s <| batches := <[bid := insert_batch now user key file supported models window phase status queued failed]>
                             (batches s) |>
      else s
  | BClaim worker model limit max_running lease_us cands now real =>
      (claim_from now lease_us worker model limit max_running cands s).1
  | BHeartbeat worker rows lease_us real => heartbeat worker rows lease_us real s
  | BDispatch bid id worker n => on_batch s bid (mark_dispatched id worker n)
  | BComplete bid id worker n r now => on_batch s bid (complete_item now id worker n r)
  | BRetry bid id worker n r next now => on_batch s bid (retry_item now id worker n r next)
  | BRelease bid id worker n next dispatched now => on_batch s bid (release_item now id worker n next dispatched)
  | BFail bid now => on_batch s bid (fail_batch now)
  | BCancel bid now => on_batch s bid (fun b => Some (cancel_batch now b))
  | BExpire bid now => on_batch s bid (fun b => Some (expire_batch now b))
  | BSettle bid now => on_batch s bid (fun b => Some (sweep_settle now b))
  | BPause user until key_hash => pause_user_batches user until key_hash s
  | BWork bid phase worker now lease_us => on_batch s bid (claim_batch_work phase worker now lease_us)
  | BExtend bid phase worker now lease_us => on_batch s bid (extend_batch_work phase worker now lease_us)
  | BReset bid worker => on_batch s bid (reset_staged_items worker)
  | BStage bid worker ids now => on_batch s bid (stage_items worker now ids)
  | BPublish bid worker models now => on_batch s bid (publish_validated worker now models)
  | BFailValidation bid worker => on_batch s bid (fail_validation worker)
  | BSeal bid worker generation => on_batch s bid (commit_seal worker generation)
  | BDelete bid reading real => delete_batch bid reading real s
  | BPurge bid => s <| batches := delete bid (batches s) |>
  | BDeleteUser user => delete_user_batches user s
  end.

Definition new_store : batch_store := BatchStore ∅ ∅ 1.
Definition batch_run (l : list batch_op) : batch_store := fold_left batch_step l new_store.

(** ** Books *)

Definition done_of (i : item) : Z := one_if (bool_decide (i_status i = ICompleted)).
Definition failed_of (i : item) : Z := one_if (bool_decide (i_status i = IFailed \/ i_status i = IExpired)).
Definition cancelled_of (i : item) : Z := one_if (bool_decide (i_status i = ICancelled)).
Definition expired_of (i : item) : Z := one_if (bool_decide (i_status i = IExpired)).

(** What the attempts at an item cost, and how many of them have an unknown cost. *)
Definition try_cost (a : attempt) : Q := default 0%Q (a_cost a).
Definition try_unknown (a : attempt) : Z := one_if (bool_decide (a_billing a = Some UnknownCost)).
Definition spent_on (i : item) : Q := qsum try_cost (i_tries i).
Definition unknown_on (i : item) : Z := zsum try_unknown (i_tries i).

(** How an attempt's outcome and the item's status go together. *)
Definition try_ok (i : item) (n : Z) (a : attempt) : Prop :=
  1 <= n <= i_seq i /\
  match a_outcome a with
  | None => i_status i = Running /\ n = i_seq i /\ a_cost a = None /\ a_billing a = None
  | Some Succeeded => i_status i = ICompleted /\ n = i_seq i
  | Some OFailed => i_status i = IFailed /\ n = i_seq i
  | Some _ => True
  end.

Record item_ok (i : item) : Prop := {
  it_tries n a : i_tries i !! n = Some a -> try_ok i n a;
  it_running : i_status i = Running ->
    is_Some (i_claimed i) /\ is_Some (i_lease i) /\
    exists a, i_tries i !! i_seq i = Some a /\ a_outcome a = None;
  it_done : i_status i = ICompleted -> exists a, i_tries i !! i_seq i = Some a /\ a_outcome a = Some Succeeded;
  it_seq : 0 <= i_seq i;
  it_cost : (default 0 (i_cost i) == spent_on i)%Q
}.

(** The counters of a batch against its items. *)
Record books_ok (b : batch) : Prop := {
  bk_items : map_Forall (fun _ i => item_ok i) (b_items b);
  bk_requests : b_request_count b = Z.of_nat (size (b_items b));
  bk_done : b_completed b = zsum done_of (b_items b);
  bk_failed : b_failed b = zsum failed_of (b_items b);
  bk_cancelled : b_cancelled b = zsum cancelled_of (b_items b);
  bk_expired : b_expired b = zsum expired_of (b_items b);
  bk_cost : (b_cost b == qsum spent_on (b_items b))%Q;
  bk_unknown : b_unknown b = zsum unknown_on (b_items b)
}.

Definition terminal (s : batch_status) : bool :=
  match s with Completed | BFailed | BExpired | Cancelled => true | _ => false end.

(** The phases: staged items are untouched, a fixed result has no open item, and the
    status a batch ends with was decided when its last item closed. *)
Record phase_ok (b : batch) : Prop := {
  ph_staged : b_phase b = PValidating ->
    b_file b = true /\ forall k i, b_items b !! k = Some i -> i_status i = Queued /\ i_tries i = ∅;
  ph_fixed : b_phase b = PSealing \/ b_phase b = PSealed -> zsum (fun i => one_if (is_open i)) (b_items b) = 0;
  ph_sealing : b_phase b = PSealing ->
    exists f, b_pending b = Some f /\ terminal f = true /\ (terminal (b_status b) = true -> b_status b = f);
  ph_sealed : b_phase b = PSealed -> terminal (b_status b) = true /\ b_pending b = Some (b_status b);
  ph_open : b_phase b = PValidating \/ b_phase b = PRunnable ->
    b_status b <> Completed /\ b_status b <> Cancelled
}.

Definition batch_ok (b : batch) : Prop := books_ok b /\ phase_ok b.
Definition store_ok (s : batch_store) : Prop := map_Forall (fun _ b => batch_ok b) (batches s).

(** *** Items *)

Lemma one_if_ext (P Q : Prop) `{!Decision P, !Decision Q} :
  (P <-> Q) -> one_if (bool_decide P) = one_if (bool_decide Q).
Proof. intros E. by rewrite (bool_decide_ext P Q). Qed.

Lemma close_spec i n a o c s :
  i_tries i !! n = Some a -> a_outcome a = None ->
  close_attempt i n o c s =
    i <| i_tries := <[n := Attempt (a_worker a) (a_dispatched a) (Some o) c (Some s)]> (i_tries i) |>.
Proof. intros Ha Ho. unfold close_attempt. by rewrite Ha, Ho. Qed.

(** The status an item takes when its attempt ends. *)
Definition ends_as (o : outcome) (st : item_status) : Prop :=
  st <> Running /\ (o = Succeeded <-> st = ICompleted) /\ (o = OFailed -> st = IFailed).

(** Ending the open attempt of a running item. *)
Lemma end_attempt i i' a a' o c s :
  item_ok i -> i_status i = Running -> i_tries i !! i_seq i = Some a -> a_outcome a = None ->
  i_tries i' = <[i_seq i := a']> (i_tries i) -> i_seq i' = i_seq i ->
  a_outcome a' = Some o -> a_cost a' = c -> a_billing a' = Some s -> ends_as o (i_status i') ->
  (default 0 (i_cost i') == default 0 (i_cost i) + default 0 c)%Q ->
  item_ok i' /\ (spent_on i' == spent_on i + default 0 c)%Q /\
  unknown_on i' = unknown_on i + one_if (bool_decide (s = UnknownCost)).
Proof.
  intros Hi Hrun Ha Hao Ht Hseq Ho Hc Hs (Hst & Hsucc & Hfail) Hcost.
  pose proof (it_tries _ Hi _ _ Ha) as [Hn Htry]. rewrite Hao in Htry. destruct Htry as (_ & _ & Hac & Hab).
  assert (spent_on i' == spent_on i + default 0 c)%Q as Espent.
  { unfold spent_on. rewrite Ht, (qsum_update _ _ _ a) by done. unfold try_cost. rewrite Hac, Hc. simpl. lra. }
  assert (forall n x, i_tries i !! n = Some x -> n <> i_seq i -> is_Some (a_outcome x) /\
    a_outcome x <> Some Succeeded /\ a_outcome x <> Some OFailed) as Hother.
  { intros n x Hx Hne. destruct (it_tries _ Hi _ _ Hx) as [_ Hx2]. destruct (a_outcome x) as [[]|]; try done;
      naive_solver. }
  split_and!; [constructor| |].
  - intros n x. rewrite Ht, lookup_insert. case_decide as Hk.
    + intros [= <-]. subst n. split; [lia|]. rewrite Ho. destruct o; try done; naive_solver.
    + intros Hx. destruct (Hother n x Hx (not_eq_sym Hk)) as ([o' Ho'] & H1 & H2). split; [rewrite Hseq; apply (it_tries _ Hi _ _ Hx)|].
      rewrite Ho'. destruct o'; try done; congruence.
  - done.
  - intros Hc'. exists a'. rewrite Hseq, Ht, lookup_insert_eq. split; [done|]. rewrite Ho. f_equal. by apply Hsucc.
  - rewrite Hseq. apply Hi.
  - rewrite Hcost, Espent, (it_cost _ Hi). done.
  - done.
  - unfold unknown_on. rewrite Ht, (zsum_update _ _ _ a) by done. unfold try_unknown. rewrite Hab, Hs.
    rewrite bool_decide_eq_false_2 by done. rewrite (one_if_ext (Some s = Some UnknownCost) (s = UnknownCost)); [simpl; lia|].
    split; congruence.
Qed.

Lemma running_open i : item_ok i -> i_status i = Running -> exists a, i_tries i !! i_seq i = Some a /\ a_outcome a = None.
Proof. intros Hi Hr. apply (it_running _ Hi Hr). Qed.

(** Opening the next attempt of an item that is not running. *)
Lemma open_attempt i w t m :
  item_ok i -> i_status i = Queued -> i_tries i !! (i_seq i + 1) = None ->
  let i' := Item m Running (i_attempts i + 1) (i_seq i + 1) (Some w) (Some t) None (i_cost i) (i_unknown i)
              (<[i_seq i + 1 := Attempt w false None None None]> (i_tries i)) in
  item_ok i' /\ (spent_on i' == spent_on i)%Q /\ unknown_on i' = unknown_on i.
Proof.
  intros Hi Hq Hn i'.
  assert (spent_on i' == spent_on i)%Q as Es
    by (unfold spent_on; simpl; rewrite qsum_insert by done; unfold try_cost at 1; simpl; lra).
  split_and!; [constructor| |].
  - intros n x. simpl. rewrite lookup_insert. case_decide as Hk.
    + intros [= <-]. subst n. pose proof (it_seq _ Hi). split; simpl; [lia|done].
    + intros Hx. destruct (it_tries _ Hi _ _ Hx) as [Hr Hx2]. split; simpl; [lia|].
      rewrite Hq in Hx2. destruct (a_outcome x) as [[]|]; naive_solver.
  - intros _. split_and!; [by eexists|by eexists|]. eexists. simpl. by rewrite lookup_insert_eq.
  - done.
  - simpl. pose proof (it_seq _ Hi). lia.
  - simpl. rewrite Es. apply Hi.
  - done.
  - unfold unknown_on. simpl. rewrite zsum_insert by done. unfold try_unknown at 1. simpl. done.
Qed.

Lemma next_try_free i : item_ok i -> i_tries i !! (i_seq i + 1) = None.
Proof.
  intros Hi. destruct (i_tries i !! (i_seq i + 1)) as [a|] eqn:E; [|done].
  apply (it_tries _ Hi) in E as [E _]. lia.
Qed.

Lemma new_item_ok m : item_ok (new_item m).
Proof.
  by constructor.
Qed.

(** Changing a queued item's verdict, without an attempt. *)
Lemma verdict_queued i st :
  item_ok i -> i_status i = Queued -> st <> Running -> st <> ICompleted ->
  item_ok (i <| i_status := st |> <| i_next := None |> <| i_lease := None |>).
Proof.
  intros Hi Hq Hr Hc. constructor; simpl; try done; try apply Hi.
  intros n a Ha. destruct (it_tries _ Hi _ _ Ha) as [Hn Ht]. split; [done|]. rewrite Hq in Ht. simpl.
  destruct (a_outcome a) as [[]|]; naive_solver.
Qed.

(** *** How a row may change *)

(** An item keeps its model, only moves on to later attempts, and keeps every closed
    attempt; once it is closed nothing of it changes, and it runs again, or under another
    worker, only in a later attempt. *)
Definition item_evolves (i i' : item) : Prop :=
  i_model i' = i_model i /\ i_seq i <= i_seq i' /\ (is_open i = false -> i' = i) /\
  (forall n a, i_tries i !! n = Some a -> a_outcome a <> None -> i_tries i' !! n = Some a) /\
  (i_seq i' = i_seq i -> i_status i' = Running -> i_status i = Running /\ i_claimed i' = i_claimed i).

(** No lease is gained. *)
Definition item_quiet (i i' : item) : Prop := forall t, lease_live t i' = true -> lease_live t i = true.

#[export] Instance item_evolves_preorder : PreOrder item_evolves.
Proof.
  split.
  - intros i. split_and!; [done|lia|done|done|done].
  - intros i j k (M1 & S1 & C1 & T1 & R1) (M2 & S2 & C2 & T2 & R2). split_and!; [congruence|lia| | |].
    + intros Hc. specialize (C1 Hc). subst j. auto.
    + intros n a Ha Ho. auto.
    + intros Hs Hr. destruct (R2 ltac:(lia) Hr) as [Hj Ej]. destruct (R1 ltac:(lia) Hj) as [Hi Ei].
      split; [done|congruence].
Qed.

Lemma open_is_open i : is_open i = true <-> i_status i = Queued \/ i_status i = Running.
Proof. unfold is_open. destruct (i_status i); naive_solver. Qed.

Lemma lease_over_running now i : lease_over now i = true -> i_status i = Running.
Proof. unfold lease_over. rewrite andb_true_iff, bool_decide_eq_true. tauto. Qed.
Lemma lease_live_running now i : lease_live now i = true -> i_status i = Running.
Proof. unfold lease_live. rewrite andb_true_iff, bool_decide_eq_true. tauto. Qed.

Lemma not_running_quiet i i' : i_status i' <> Running -> item_quiet i i'.
Proof. intros H t Ht. by apply lease_live_running in Ht. Qed.

(** Ending an open attempt changes no closed one. *)
Lemma end_evolves i i' a a' :
  i_status i = Running -> i_tries i !! i_seq i = Some a -> a_outcome a = None ->
  i_model i' = i_model i -> i_seq i' = i_seq i -> i_tries i' = <[i_seq i := a']> (i_tries i) ->
  (i_status i' = Running -> i_claimed i' = i_claimed i) -> item_evolves i i'.
Proof.
  intros Hr Ha Ho Hm Hs Ht Hcl. split_and!; [done|lia| | |auto].
  - unfold is_open. by rewrite Hr.
  - intros n x Hx Hxo. rewrite Ht, lookup_insert_ne; [done|]. intros <-. congruence.
Qed.

Lemma abandon_spec i a :
  i_tries i !! i_seq i = Some a -> a_outcome a = None ->
  abandon_attempt i (i_seq i) =
    (Item (i_model i) (i_status i) (i_attempts i) (i_seq i) (i_claimed i) (i_lease i) (i_next i) (i_cost i)
       (a_dispatched a || i_unknown i)
       (<[i_seq i := Attempt (a_worker a) (a_dispatched a) (Some Abandoned) (a_cost a)
                       (Some (if a_dispatched a then UnknownCost else NotBilled))]> (i_tries i)),
     a_dispatched a).
Proof. intros Ha Ho. unfold abandon_attempt. rewrite Ha, Ho. destruct a as [w d o c s]. by destruct d. Qed.

(** An abandoned item under any status but running and completed. *)
Lemma abandoned_ok i a st cl ls nx at_ :
  item_ok i -> i_status i = Running -> i_tries i !! i_seq i = Some a -> a_outcome a = None ->
  st <> Running -> st <> ICompleted ->
  let i' := Item (i_model i) st at_ (i_seq i) cl ls nx (i_cost i) (a_dispatched a || i_unknown i)
       (<[i_seq i := Attempt (a_worker a) (a_dispatched a) (Some Abandoned) (a_cost a)
                       (Some (if a_dispatched a then UnknownCost else NotBilled))]> (i_tries i)) in
  item_ok i' /\ item_evolves i i' /\ (spent_on i' == spent_on i)%Q /\
  unknown_on i' = unknown_on i + one_if (a_dispatched a).
Proof.
  intros Hi Hr Ha Ho Hst Hsc i'. destruct (it_tries _ Hi _ _ Ha) as [_ Ht]. rewrite Ho in Ht.
  destruct Ht as (_ & _ & Hac & _).
  destruct (end_attempt i i' a (Attempt (a_worker a) (a_dispatched a) (Some Abandoned) (a_cost a)
      (Some (if a_dispatched a then UnknownCost else NotBilled))) Abandoned None
      (if a_dispatched a then UnknownCost else NotBilled)) as (Hok & Hsp & Hun); try done.
  - simpl. lra.
  - split_and!; [done| | |].
    + by eapply end_evolves.
    + rewrite Hsp. simpl. lra.
    + rewrite Hun. by destruct (a_dispatched a).
Qed.

Definition verdict_status (v : item_status) : Prop := v = ICancelled \/ v = IFailed \/ v = IExpired.

Lemma settle_item_spec now v i :
  item_ok i -> verdict_status v ->
  let '(i', lost, hit) := settle_item now v i in
  item_ok i' /\ item_evolves i i' /\ item_quiet i i' /\ (spent_on i' == spent_on i)%Q /\
  unknown_on i' = unknown_on i + one_if lost /\
  (if hit then is_open i = true /\ i_status i' = v else i' = i).
Proof.
  intros Hi Hv. assert (v <> Running /\ v <> ICompleted) as [Hv1 Hv2] by (destruct Hv as [->|[->| ->]]; done).
  unfold settle_item. destruct (lease_over now i) eqn:Eo.
  - pose proof (lease_over_running _ _ Eo) as Hr. destruct (running_open _ Hi Hr) as (a & Ha & Hao).
    rewrite (abandon_spec _ _ Ha Hao).
    replace (lease_over now _) with true by (unfold lease_over in *; simpl; done).
    rewrite orb_true_r. simpl.
    destruct (abandoned_ok i a v (i_claimed i) None None (i_attempts i) Hi Hr Ha Hao Hv1 Hv2) as (H1 & H2 & H3 & H4).
    split_and!; [done|done| |done|done| |done].
    + by apply not_running_quiet.
    + apply open_is_open. tauto.
  - rewrite Eo, orb_false_r. case_bool_decide as Hq.
    + split_and!; [by apply verdict_queued| | |done|unfold unknown_on; simpl; lia| |done].
      * split_and!; [done|simpl; lia| |done|by intros]. unfold is_open. by rewrite Hq.
      * by apply not_running_quiet.
      * apply open_is_open. tauto.
    + split_and!; [done|done| |done|simpl; lia|done]. by intros t.
Qed.

(** A claim of one item. *)
Lemma claim_item_spec i now w t :
  item_ok i -> claimable_item now i = true ->
  exists i' lost,
  (let '(i, lost) := if lease_over now i then abandon_attempt i (i_seq i) else (i, false) in
   let n := i_seq i + 1 in
   let i := i <| i_status := Running |> <| i_attempts := i_attempts i + 1 |> <| i_seq := n |>
              <| i_claimed := Some w |> <| i_lease := Some t |> <| i_next := None |> in
   (match i_tries i !! n with
    | None => i <| i_tries := <[n := Attempt w false None None None]> (i_tries i) |>
    | Some _ => i
    end, lost)) = (i', lost) /\
  item_ok i' /\ item_evolves i i' /\ is_open i = true /\ i_status i' = Running /\ i_seq i' = i_seq i + 1 /\
  i_claimed i' = Some w /\ i_lease i' = Some t /\ (spent_on i' == spent_on i)%Q /\
  unknown_on i' = unknown_on i + one_if lost.
Proof.
  intros Hi Hc. destruct (lease_over now i) eqn:Eo.
  - pose proof (lease_over_running _ _ Eo) as Hr. destruct (running_open _ Hi Hr) as (a & Ha & Hao).
    rewrite (abandon_spec _ _ Ha Hao). simpl. rewrite lookup_insert_ne by lia.
    rewrite (next_try_free _ Hi). do 2 eexists. split; [done|].
    destruct (abandoned_ok i a Queued None None None (i_attempts i) Hi Hr Ha Hao ltac:(done) ltac:(done)) as (H1 & H2 & H3 & H4).
    destruct (open_attempt _ w t (i_model i) H1 eq_refl (next_try_free _ H1)) as (G1 & G2 & G3).
    split_and!; [done| |by apply open_is_open; right|done|done|done|done| |].
    + transitivity (Item (i_model i) Queued (i_attempts i) (i_seq i) None None None (i_cost i) (a_dispatched a || i_unknown i)
       (<[i_seq i := Attempt (a_worker a) (a_dispatched a) (Some Abandoned) (a_cost a)
                       (Some (if a_dispatched a then UnknownCost else NotBilled))]> (i_tries i))); [done|].
      split_and!; simpl; [done|lia|done| |lia]. intros n x Hx _. pose proof (it_tries _ H1 _ _ Hx) as [Hn _]. simpl in Hn.
      rewrite lookup_insert_ne by lia. done.
    + by rewrite G2.
    + etransitivity; [exact G3|exact H4].
  - assert (i_status i = Queued) as Hq.
    { unfold claimable_item in Hc. rewrite Eo, orb_false_r in Hc. apply andb_true_iff in Hc as [Hc _].
      by apply bool_decide_eq_true in Hc. }
    simpl. rewrite (next_try_free _ Hi). do 2 eexists. split; [done|].
    destruct (open_attempt _ w t (i_model i) Hi Hq (next_try_free _ Hi)) as (G1 & G2 & G3).
    split_and!; [done| |by apply open_is_open; left|done|done|done|done|done|].
    + split_and!; simpl; [done|lia|unfold is_open; by rewrite Hq| |lia]. intros n x Hx _.
      pose proof (it_tries _ Hi _ _ Hx) as [Hn _]. by rewrite lookup_insert_ne by lia.
    + etransitivity; [exact G3|simpl; lia].
Qed.

(** *** Batches *)

Definition phase_rank (p : batch_phase) : Z :=
  match p with PValidating => 0 | PRunnable => 1 | PSealing => 2 | PSealed => 3 end.
Definition fixed (b : batch) : Prop := b_phase b = PSealing \/ b_phase b = PSealed.

(** A batch only moves forward; past validation it keeps its items, once its result is
    fixed they stay as they are, and once it is sealed so does its status. *)
Record batch_evolves (b b' : batch) : Prop := {
  ev_user : b_user b' = b_user b;
  ev_phase : phase_rank (b_phase b) <= phase_rank (b_phase b');
  ev_items : b_phase b <> PValidating -> forall id i, b_items b !! id = Some i ->
    exists i', b_items b' !! id = Some i' /\ item_evolves i i';
  ev_count : b_phase b <> PValidating -> b_request_count b' = b_request_count b;
  ev_fixed : fixed b -> b_items b' = b_items b /\ b_pending b' = b_pending b;
  ev_sealed : b_phase b = PSealed -> b_status b' = b_status b
}.

(** The items of a model running under a live lease. *)
Definition live_of (t : datetime_us) (model : string) (b : batch) : Z :=
  count_if (fun i => lease_live t i && bool_decide (i_model i = model)) (b_items b).
Definition batch_quiet (b b' : batch) : Prop := forall t model, live_of t model b' <= live_of t model b.

(** What every transaction but a claim and a heartbeat keeps. *)
Definition fine (b b' : batch) : Prop := batch_ok b' /\ batch_evolves b b' /\ batch_quiet b b'.

Lemma rank_inj p q : phase_rank p = phase_rank q -> p = q.
Proof. by destruct p, q. Qed.

#[export] Instance batch_evolves_preorder : PreOrder batch_evolves.
Proof.
  split.
  - intros b. constructor; try done. intros _ id i Hi. exists i. split; [done|reflexivity].
  - intros a b c [U1 P1 I1 N1 F1 S1] [U2 P2 I2 N2 F2 S2].
    assert (b_phase a <> PValidating -> b_phase b <> PValidating) as Hv.
    { intros H E. rewrite E in P1. destruct (b_phase a); simpl in P1; try lia. done. }
    assert (fixed a -> fixed b) as Hf.
    { unfold fixed. intros [E|E]; rewrite E in P1; destruct (b_phase b); simpl in P1; try lia; tauto. }
    constructor; [congruence|lia| | | |].
    + intros H id i Hi. destruct (I1 H id i Hi) as (j & Hj & Hij). destruct (I2 (Hv H) id j Hj) as (k & Hk & Hjk).
      exists k. split; [done|]. by transitivity j.
    + intros H. rewrite N2, N1 by auto. done.
    + intros H. destruct (F1 H) as [<- <-]. auto.
    + intros H. rewrite S2, S1; [done|done|]. rewrite H in P1. destruct (b_phase b); simpl in P1; try lia. done.
Qed.

Lemma fine_refl b : batch_ok b -> fine b b.
Proof. intros Hb. split_and!; [done|reflexivity|]. intros t m. lia. Qed.
Lemma fine_trans a b c : fine a b -> fine b c -> fine a c.
Proof.
  intros (_ & E1 & Q1) (Hc & E2 & Q2). split_and!; [done|by transitivity b|]. intros t m.
  specialize (Q1 t m). specialize (Q2 t m). lia.
Qed.

Lemma one_if_nonneg x : 0 <= one_if x.
Proof. by destruct x. Qed.
#[export] Hint Resolve one_if_nonneg : core.
Lemma one_if_le x y : (x = true -> y = true) -> one_if x <= one_if y.
Proof. destruct x, y; simpl; intros H; try lia. Qed.
Lemma count_if_le f g m : (forall k i, m !! k = Some i -> f i = true -> g i = true) -> count_if f m <= count_if g m.
Proof. intros H. apply zsum_le. intros k i Hi. apply one_if_le. eauto. Qed.

Lemma fixed_closed b id i : phase_ok b -> fixed b -> b_items b !! id = Some i -> is_open i = false.
Proof.
  intros Hp Hf Hi. pose proof (ph_fixed _ Hp Hf) as H0.
  assert (one_if (is_open i) <= zsum (fun i => one_if (is_open i)) (b_items b)) as H1
    by (apply (zsum_one (fun i => one_if (is_open i)) _ id i); [intros; apply one_if_nonneg|done]).
  destruct (is_open i); [simpl in H1; lia|done].
Qed.

(** A batch holding a running item is being worked on. *)
Lemma running_runnable b id i : batch_ok b -> b_items b !! id = Some i -> i_status i = Running -> b_phase b = PRunnable.
Proof.
  intros [_ Hp] Hi Hr. assert (is_open i = true) as Ho by (apply open_is_open; by right).
  destruct (b_phase b) eqn:Eph; [|done| |].
  - destruct (ph_staged _ Hp Eph) as [_ H]. apply H in Hi as [Hq _]. congruence.
  - rewrite (fixed_closed b id i) in Ho; [done|done|by left|done].
  - rewrite (fixed_closed b id i) in Ho; [done|done|by right|done].
Qed.

(** In a runnable batch only the status can be wrong. *)
Lemma runnable_phase_ok b :
  b_phase b = PRunnable -> b_status b <> Completed -> b_status b <> Cancelled -> phase_ok b.
Proof. intros E H1 H2. constructor; rewrite E; try done; intros [|]; done. Qed.

Lemma open_counts_nothing i :
  is_open i = true -> done_of i = 0 /\ failed_of i = 0 /\ cancelled_of i = 0 /\ expired_of i = 0.
Proof.
  rewrite open_is_open. unfold done_of, failed_of, cancelled_of, expired_of.
  intros [->| ->]; split_and!; done.
Qed.

(** One open item of a runnable batch replaced, with the counters moved along. *)
Lemma replace_item b b' id i i' c u :
  batch_ok b -> b_items b !! id = Some i -> is_open i = true -> b_phase b = PRunnable ->
  item_ok i' -> item_evolves i i' -> (spent_on i' == spent_on i + c)%Q -> unknown_on i' = unknown_on i + u ->
  b_items b' = <[id := i']> (b_items b) ->
  b_user b' = b_user b -> b_phase b' = b_phase b -> b_request_count b' = b_request_count b ->
  b_status b' <> Completed -> b_status b' <> Cancelled ->
  b_completed b' = b_completed b + done_of i' -> b_failed b' = b_failed b + failed_of i' ->
  b_cancelled b' = b_cancelled b + cancelled_of i' -> b_expired b' = b_expired b + expired_of i' ->
  (b_cost b' == b_cost b + c)%Q -> b_unknown b' = b_unknown b + u ->
  batch_ok b' /\ batch_evolves b b' /\
  (forall t m, live_of t m b' = live_of t m b - one_if (lease_live t i && bool_decide (i_model i = m))
     + one_if (lease_live t i' && bool_decide (i_model i = m))).
Proof.
  intros [Hb Hp] Hi Ho Hph Hi' Hev Hsp Hun Eit Eus Eph Erq Hs1 Hs2 E1 E2 E3 E4 Ec Eu.
  destruct (open_counts_nothing i Ho) as (O1 & O2 & O3 & O4). split_and!.
  - split.
    + constructor; rewrite ?Eit, ?(zsum_update _ _ _ i) by done.
      * apply map_Forall_insert_2; [done|apply Hb].
      * rewrite Erq, (bk_requests _ Hb). by rewrite map_size_insert_Some by (by eexists).
      * rewrite E1, (bk_done _ Hb). lia.
      * rewrite E2, (bk_failed _ Hb). lia.
      * rewrite E3, (bk_cancelled _ Hb). lia.
      * rewrite E4, (bk_expired _ Hb). lia.
      * rewrite Ec, (bk_cost _ Hb), (qsum_update _ _ _ i) by done. rewrite Hsp. lra.
      * rewrite Eu, (bk_unknown _ Hb). lia.
    + apply runnable_phase_ok; congruence.
  - constructor; try done.
    + by rewrite Eph.
    + intros _ k j Hj. rewrite Eit, lookup_insert. case_decide as Hk; [|exists j; split; [done|reflexivity]].
      subst k. exists i'. split; [done|]. by replace j with i by congruence.
    + intros [H|H]; congruence.
    + congruence.
  - intros t m. unfold live_of, count_if. rewrite Eit, (zsum_update _ _ _ i) by done.
    by replace (i_model i') with (i_model i) by (symmetry; apply Hev).
Qed.

(** The same where no lease is gained. *)
Lemma replaced_fine b b' i i' :
  batch_ok b' /\ batch_evolves b b' /\
  (forall t m, live_of t m b' = live_of t m b - one_if (lease_live t i && bool_decide (i_model i = m))
     + one_if (lease_live t i' && bool_decide (i_model i = m))) ->
  item_quiet i i' -> fine b b'.
Proof.
  intros (H1 & H2 & H3) Hq. split_and!; [done|done|]. intros t m. rewrite H3.
  pose proof (one_if_le (lease_live t i' && bool_decide (i_model i = m)) (lease_live t i && bool_decide (i_model i = m))).
  assert (one_if (lease_live t i' && bool_decide (i_model i = m)) <= one_if (lease_live t i && bool_decide (i_model i = m)));
    [|lia]. apply H. rewrite !andb_true_iff. intros [Hl Hm]. split; [by apply Hq|done].
Qed.

(** A change of the batch's own columns. *)
Lemma columns_fine b b' :
  batch_ok b -> b_items b' = b_items b -> b_user b' = b_user b ->
  b_request_count b' = b_request_count b -> b_completed b' = b_completed b -> b_failed b' = b_failed b ->
  b_cancelled b' = b_cancelled b -> b_expired b' = b_expired b -> b_cost b' = b_cost b -> b_unknown b' = b_unknown b ->
  phase_ok b' -> phase_rank (b_phase b) <= phase_rank (b_phase b') ->
  (fixed b -> b_pending b' = b_pending b) -> (b_phase b = PSealed -> b_status b' = b_status b) -> fine b b'.
Proof.
  intros [Hb Hp] Ei Eus E0 E1 E2 E3 E4 Ec Eu Hp' Hr Hf Hs. split_and!; [split; [|done]|constructor|]; try done.
  - constructor; rewrite ?Ei, ?E0, ?E1, ?E2, ?E3, ?E4, ?Ec, ?Eu; apply Hb.
  - intros _ id i Hi. rewrite Ei. exists i. split; [done|reflexivity].
  - intros H. split; [done|by apply Hf].
  - intros t m. unfold live_of. rewrite Ei. lia.
Qed.

(** *** Settling *)

Lemma zsum_shift g h p k (m : gmap Z item) :
  (forall id i, m !! id = Some i -> g (h i) = g i + k * one_if (p i)) ->
  zsum g (h <$> m) = zsum g m + k * count_if p m.
Proof.
  intros H. rewrite zsum_fmap, (zsum_ext _ (fun i => g i + k * one_if (p i))) by done.
  rewrite zsum_add. f_equal. unfold count_if. clear H.
  induction m as [|id i m Hi IH] using map_ind; [unfold zsum; rewrite !map_fold_empty; lia|]. rewrite !zsum_insert by done. lia.
Qed.

Lemma verdict_of s v : _ITEM_VERDICTS s = Some v -> verdict_status v.
Proof. unfold verdict_status. destruct s; simpl; intros [= <-]; tauto. Qed.

Section verdict.
Context (now : datetime_us) (s : batch_status) (v : item_status) (b : batch).
Hypothesis (Hb : batch_ok b) (Hrun : b_phase b = PRunnable) (Hs : b_status b = s) (Hv : _ITEM_VERDICTS s = Some v).

Let hit (i : item) : bool := (settle_item now v i).2.
Let after (i : item) : item := (settle_item now v i).1.1.
Let lost (i : item) : bool := (settle_item now v i).1.2.

Lemma settled_item id i : b_items b !! id = Some i ->
  item_ok (after i) /\ item_evolves i (after i) /\ item_quiet i (after i) /\ (spent_on (after i) == spent_on i)%Q /\
  unknown_on (after i) = unknown_on i + 1 * one_if (lost i) /\
  (if hit i then is_open i = true /\ i_status (after i) = v else after i = i).
Proof.
  intros Hi. pose proof (settle_item_spec now v i (bk_items _ (proj1 Hb) _ _ Hi) (verdict_of _ _ Hv)) as H.
  unfold hit, after, lost. destruct (settle_item now v i) as [[i' l] h]. cbn [fst snd]. by rewrite Z.mul_1_l.
Qed.

Lemma settled_count g k :
  (forall i, is_open i = true -> g i = 0) -> (forall i, i_status i = v -> g i = k) ->
  zsum g (after <$> b_items b) = zsum g (b_items b) + k * count_if hit (b_items b).
Proof.
  intros H0 Hk. apply zsum_shift. intros id i Hi. destruct (settled_item id i Hi) as (_ & _ & _ & _ & _ & Hh).
  destruct (hit i); simpl; [|rewrite Hh; lia]. destruct Hh as [Ho Hst]. rewrite (H0 i Ho), (Hk _ Hst). lia.
Qed.

Lemma apply_verdict_books : books_ok (apply_verdict now s v b).
Proof.
  assert (forall g k, (forall i, is_open i = true -> g i = 0) -> (forall i, i_status i = v -> g i = k) ->
    zsum g (b_items (apply_verdict now s v b)) = zsum g (b_items b) + k * count_if hit (b_items b)) as Hc.
  { intros g k H0 Hk. rewrite <- settled_count by done. unfold apply_verdict. by case_decide. }
  assert (b_items (apply_verdict now s v b) = after <$> b_items b) as Eit by (unfold apply_verdict; by case_decide).
  destruct Hb as [Hk Hp]. pose proof Hk as [B0 B1 B2 B3 B4 B5 B6 B7].
  constructor.
  - rewrite Eit. intros id j. rewrite lookup_fmap_Some. intros (i & <- & Hi). apply (settled_item id i Hi).
  - rewrite Eit, map_size_fmap. unfold apply_verdict. by case_decide.
  - rewrite (Hc done_of 0); [|intros; by apply open_counts_nothing|intros i Ei; unfold done_of; rewrite Ei; clear -Hv; destruct s; by inversion Hv].
    rewrite Z.mul_0_l, Z.add_0_r, <- B2. unfold apply_verdict. by case_decide.
  - rewrite (Hc failed_of (if decide (s = Cancelling) then 0 else 1)); [|intros; by apply open_counts_nothing|intros i Ei; unfold failed_of; rewrite Ei; clear -Hv; destruct s; by inversion Hv].
    rewrite <- B3. unfold apply_verdict. case_decide; simpl; fold hit; [lia|].  unfold hit. lia.
  - rewrite (Hc cancelled_of (if decide (s = Cancelling) then 1 else 0)); [|intros; by apply open_counts_nothing|intros i Ei; unfold cancelled_of; rewrite Ei; clear -Hv; destruct s; by inversion Hv].
    rewrite <- B4. unfold apply_verdict. case_decide; simpl; unfold hit; lia.
  - rewrite (Hc expired_of (if decide (s = BExpired) then 1 else 0)); [|intros; by apply open_counts_nothing|intros i Ei; unfold expired_of; rewrite Ei; clear -Hv; destruct s; by inversion Hv].
    rewrite <- B5. unfold apply_verdict, hit. destruct (decide (s = Cancelling)) as [->|]; simpl; [lia|]. case_decide; lia.
  - rewrite Eit, qsum_fmap, (qsum_ext _ spent_on), <- B6; [unfold apply_verdict; by case_decide|].
    intros id i Hi. apply (settled_item id i Hi).
  - rewrite Eit, (zsum_shift _ _ lost 1), <- B7; [unfold apply_verdict, lost; case_decide; simpl; lia|].
    intros id i Hi. apply (settled_item id i Hi).
Qed.

Lemma apply_verdict_fine : fine b (apply_verdict now s v b).
Proof.
  assert (b_items (apply_verdict now s v b) = after <$> b_items b) as Eit by (unfold apply_verdict; by case_decide).
  assert (b_phase (apply_verdict now s v b) = PRunnable) as Ep by (unfold apply_verdict; by case_decide).
  assert (b_status (apply_verdict now s v b) = s) as Es by (unfold apply_verdict; by case_decide).
  split_and!; [split|constructor|].
  - apply apply_verdict_books.
  - apply runnable_phase_ok; [done| |]; rewrite Es; clear -Hv; by destruct s.
  - unfold apply_verdict. by case_decide.
  - by rewrite Ep, Hrun.
  - intros _ id i Hi. rewrite Eit, lookup_fmap, Hi. exists (after i). split; [done|]. apply (settled_item id i Hi).
  - intros _. unfold apply_verdict. by case_decide.
  - intros [H|H]; congruence.
  - congruence.
  - intros t m. unfold live_of, count_if. rewrite Eit, zsum_fmap. apply zsum_le. intros id i Hi. apply one_if_le.
    destruct (settled_item id i Hi) as (_ & Hev & Hq & _). rewrite !andb_true_iff. intros [Hl Hm].
    split; [by apply Hq|]. by replace (i_model i) with (i_model (after i)) by apply Hev.
Qed.
End verdict.

Lemma has_open_false b : has_open b = false -> zsum (fun i => one_if (is_open i)) (b_items b) = 0.
Proof.
  unfold has_open. rewrite bool_decide_eq_false. intros H. pose proof (zsum_nonneg (fun i => one_if (is_open i)) (b_items b)).
  unfold count_if in H. assert (0 <= zsum (fun i => one_if (is_open i)) (b_items b)); [|lia]. apply H0. intros; apply one_if_nonneg.
Qed.

Lemma finalize_fine b f :
  batch_ok b -> b_phase b = PRunnable -> has_open b = false -> terminal f = true ->
  (terminal (b_status b) = true -> b_status b = f) -> fine b (_finalize b f).
Proof.
  intros Hb Hph Ho Hf Hst. pose proof (has_open_false _ Ho) as H0. unfold _finalize.
  rewrite bool_decide_eq_false_2 by (intros [H|H]; congruence).
  destruct (b_file b); apply columns_fine; try done.
  - constructor; simpl; try done; [intros _; by exists f|intros [|]; done].
  - by rewrite Hph.
  - intros [H|H]; congruence.
  - constructor; simpl; try done. intros [|]; done.
  - by rewrite Hph.
  - intros [H|H]; congruence.
  - congruence.
Qed.

Lemma settle_fine now b : batch_ok b -> fine b (_settle now b (b_status b)).
Proof.
  intros Hb. unfold _settle. case_bool_decide as Hph; [|by apply fine_refl]. cbn [negb].
  set (b1 := match _ITEM_VERDICTS (b_status b) with Some v => apply_verdict now (b_status b) v b | None => b end).
  assert (fine b b1 /\ b_phase b1 = PRunnable /\ b_status b1 = b_status b) as (Hf & Hp1 & Hs1).
  { unfold b1. destruct (_ITEM_VERDICTS (b_status b)) as [v|] eqn:Ev; [|split; [by apply fine_refl|done]].
    split; [by apply apply_verdict_fine|]. unfold apply_verdict. by case_decide. }
  destruct (_FINAL_STATUS (b_status b)) as [f|] eqn:Ef; [|done]. destruct (has_open b1) eqn:Eo; [done|].
  case_match; [done|]. apply (fine_trans _ b1); [done|].
  apply finalize_fine; [apply Hf|done|done| |]; rewrite ?Hs1; destruct (b_status b); simpl in *; by inversion Ef.
Qed.

Lemma settle_fine_as now b s : batch_ok b -> b_status b = s -> fine b (_settle now b s).
Proof. intros Hb <-. by apply settle_fine. Qed.

(** *** Transactions on one batch *)

Definition keeps (f : batch -> option batch) : Prop := forall b b', batch_ok b -> f b = Some b' -> fine b b'.

Lemma guard_running w n i : item_guard w n i = true -> i_status i = Running /\ i_claimed i = Some w /\ i_seq i = n.
Proof. unfold item_guard. rewrite !andb_true_iff, !bool_decide_eq_true. tauto. Qed.

(** A report from the worker holding the open attempt, which closes it, and the item too
    when it is final. *)
Definition accepted (b b' : batch) (id : Z) (w : string) (n : Z) (final : bool) : Prop :=
  fine b b' /\
  (exists i, b_items b !! id = Some i /\ i_status i = Running /\ i_claimed i = Some w /\ i_seq i = n) /\
  exists i a, b_items b' !! id = Some i /\ i_tries i !! n = Some a /\ a_outcome a <> None /\
    (final = true -> is_open i = false).

(** A report of the open attempt: the item's new state, the attempt's end, the counters. *)
Lemma report_accepted now b b1 id i i1 o c s w final :
  b_items b1 = <[id := close_attempt i1 (i_seq i) o c s]> (b_items b) ->
  batch_ok b -> b_items b !! id = Some i -> i_status i = Running -> i_claimed i = Some w ->
  (final = true -> is_open i1 = false) -> i_seq i1 = i_seq i -> i_tries i1 = i_tries i -> i_model i1 = i_model i ->
  i_status i1 <> Running -> (o = Succeeded <-> i_status i1 = ICompleted) -> (o = OFailed -> i_status i1 = IFailed) ->
  (default 0 (i_cost i1) == default 0 (i_cost i) + default 0 c)%Q ->
  (b_status b1 = b_status b /\ b_user b1 = b_user b /\ b_phase b1 = b_phase b /\ b_request_count b1 = b_request_count b) ->
  b_completed b1 = b_completed b + done_of i1 -> b_failed b1 = b_failed b + failed_of i1 ->
  b_cancelled b1 = b_cancelled b + cancelled_of i1 -> b_expired b1 = b_expired b + expired_of i1 ->
  (b_cost b1 == b_cost b + default 0 c)%Q -> b_unknown b1 = b_unknown b + one_if (bool_decide (s = UnknownCost)) ->
  accepted b (_settle now b1 (b_status b)) id w (i_seq i) final.
Proof.
  intros Eit Hb Hi Hr Hw Hfin Hsq Htr Hm Hst Hsu Hfa Hco (Es & Eus & Eph & Erq) E1 E2 E3 E4 Ec Eu.
  pose proof (bk_items _ (proj1 Hb) _ _ Hi) as Hio. destruct (running_open _ Hio Hr) as (a & Ha & Hao).
  pose proof (running_runnable _ _ _ Hb Hi Hr) as Hph. pose proof (ph_open _ (proj2 Hb) (or_intror Hph)) as [N1 N2].
  rewrite (close_spec i1 (i_seq i) a) in Eit by (rewrite ?Htr; done).
  set (a' := Attempt (a_worker a) (a_dispatched a) (Some o) c (Some s)) in *.
  destruct (end_attempt i (i1 <| i_tries := <[i_seq i := a']> (i_tries i1) |>) a a' o c s) as (Hok & Hsp & Hun);
    try done; [by rewrite Htr|].
  set (i' := i1 <| i_tries := <[i_seq i := a']> (i_tries i1) |>) in *.
  assert (item_evolves i i') as Hev by (eapply (end_evolves i i' a a'); try done; unfold i'; simpl; by rewrite Htr).
  assert (is_open i = true) as Ho by (apply open_is_open; by right).
  epose proof (replace_item b b1 id i i' (default 0%Q c) _ Hb Hi Ho Hph Hok Hev Hsp Hun Eit Eus Eph Erq) as Hrep.
  rewrite Es in Hrep. specialize (Hrep N1 N2 E1 E2 E3 E4 Ec Eu).
  assert (fine b b1) as Hf1 by (eapply replaced_fine; [exact Hrep|]; by apply not_running_quiet).
  pose proof (settle_fine_as now b1 _ (proj1 Hf1) Es) as Hf2.
  split_and!; [by apply (fine_trans _ b1)|by exists i|].
  destruct Hf2 as (_ & Hev2 & _). destruct (ev_items _ _ Hev2 ltac:(congruence) id i') as (i2 & Hi2 & Hie).
  { rewrite Eit. apply lookup_insert_eq. }
  exists i2, a'. destruct Hie as (_ & _ & Hcl & Hkeep & _). split_and!; [done| |done|].
  - apply Hkeep; [unfold i'; simpl; apply lookup_insert_eq|done].
  - intros Hf. specialize (Hfin Hf). by rewrite (Hcl Hfin).
Qed.

Lemma add_cost_spec old c : (default 0 (add_cost old c) == default 0 old + default 0 c)%Q.
Proof. destruct c; simpl; lra. Qed.

(** What a worker reports of an attempt. *)
Inductive item_report : Type :=
| RComplete (r : report)
| RRetry (r : report) (next : datetime_us)
| RRelease (next : option datetime_us) (dispatched : bool).

Definition report_item (now : datetime_us) (id : Z) (worker : string) (n : Z) (v : item_report) (b : batch) : option batch :=
  match v with
  | RComplete r => complete_item now id worker n r b
  | RRetry r next => retry_item now id worker n r next b
  | RRelease next dispatched => release_item now id worker n next dispatched b
  end.
Definition final_report (v : item_report) : bool := match v with RComplete _ => true | _ => false end.

Lemma report_item_accepted now id w n v b b' :
  batch_ok b -> report_item now id w n v b = Some b' -> accepted b b' id w n (final_report v).
Proof.
  intros Hb. destruct v as [r|r next|next d]; cbn [report_item]; unfold complete_item, retry_item, release_item;
    (destruct (b_items b !! id) as [i|] eqn:Hi; [|done]); cbn [mbind option_bind];
    (destruct (item_guard w n i) eqn:G; [|done]); apply guard_running in G as (Hr & Hw & <-); cbn [negb]; intros [= <-];
    (eapply (report_accepted now b _ id i); [reflexivity|..]); try done; try apply add_cost_spec.
  all: try (unfold failed_of, done_of, cancelled_of, expired_of; simpl; lia); try (simpl; lra).
  all: first [by destruct d|destruct (rp_error r), (rp_too_large r)]; try done;
    unfold failed_of, done_of, cancelled_of, expired_of; simpl; lia.
Qed.

Lemma report_keeps now id w n v : keeps (report_item now id w n v).
Proof. intros b b' Hb H. by apply (report_item_accepted now id w n v). Qed.

Lemma same_phase_ok b b' :
  phase_ok b -> b_phase b' = b_phase b -> b_status b' = b_status b -> b_pending b' = b_pending b ->
  b_file b' = b_file b -> b_items b' = b_items b -> phase_ok b'.
Proof. intros Hp Ep Es En Ef Ei. constructor; rewrite ?Ep, ?Es, ?En, ?Ef, ?Ei; apply Hp. Qed.

(** Owners, leases of the batch's own work, pauses, models and the deletion mark. *)
Ltac side_change Hb :=
  apply columns_fine; try done; [eapply same_phase_ok; [exact (proj2 Hb)|done..]].

Lemma dispatch_keeps id w n : keeps (mark_dispatched id w n).
Proof.
  intros b b' Hb. unfold mark_dispatched. destruct (b_items b !! id) as [i|] eqn:Hi; [|done]. cbn [mbind option_bind].
  destruct (i_tries i !! n) as [a|] eqn:Ha; [|done]. cbn [mbind option_bind].
  destruct (item_guard w n i) eqn:G; [|done]. case_bool_decide as Ho; [|done]. cbn [andb]. intros [= <-].
  apply guard_running in G as (Hr & _ & <-). pose proof (running_runnable _ _ _ Hb Hi Hr) as Hph.
  pose proof (ph_open _ (proj2 Hb) (or_intror Hph)) as [N1 N2]. pose proof (bk_items _ (proj1 Hb) _ _ Hi) as Hio.
  set (a' := a <| a_dispatched := true |>). set (i' := i <| i_tries := <[i_seq i := a']> (i_tries i) |>).
  assert (spent_on i' == spent_on i)%Q as Hsp.
  { unfold spent_on, i'. simpl. rewrite (qsum_update _ _ _ a) by done. unfold try_cost, a'. simpl. lra. }
  eapply (replaced_fine b _ i i'); [|by intros t].
  apply (replace_item b _ id i i' 0%Q 0); try done; try (simpl; lra); try (simpl; lia).
  - apply open_is_open. by right.
  - constructor; simpl; try apply Hio.
    + intros k x. rewrite lookup_insert. case_decide as Hk; [|apply Hio]. intros [= <-]. subst k. apply (it_tries _ Hio _ _ Ha).
    + intros _. destruct (it_running _ Hio Hr) as (H1 & H2 & _). split_and!; [done|done|]. exists a'. by rewrite lookup_insert_eq.
    + congruence.
    + etransitivity; [apply (it_cost _ Hio)|symmetry; exact Hsp].
  - by eapply (end_evolves i i' a a').
  - unfold unknown_on, i'. simpl. rewrite (zsum_update _ _ _ a) by done. unfold try_unknown. simpl. lia.
  - unfold done_of. simpl. rewrite Hr. simpl. lia.
  - unfold failed_of. simpl. rewrite Hr. simpl. lia.
  - unfold cancelled_of. simpl. rewrite Hr. simpl. lia.
  - unfold expired_of. simpl. rewrite Hr. simpl. lia.
Qed.

Lemma status_fine b s :
  batch_ok b -> b_phase b = PRunnable \/ b_phase b = PValidating -> s <> Completed -> s <> Cancelled ->
  fine b (b <| b_status := s |>).
Proof.
  intros Hb Hph H1 H2. apply columns_fine; try done.
  - constructor; simpl; try apply Hb; try done; intros; destruct Hph; congruence.
  - simpl. intros; destruct Hph; congruence.
Qed.

Lemma settled_status now b s :
  batch_ok b -> b_phase b = PRunnable \/ b_phase b = PValidating -> s <> Completed -> s <> Cancelled ->
  fine b (_settle now (b <| b_status := s |>) s).
Proof.
  intros Hb Hph H1 H2. pose proof (status_fine b s Hb Hph H1 H2) as H. eapply fine_trans; [exact H|].
  apply settle_fine_as; [apply H|done].
Qed.

Lemma fail_keeps now : keeps (fail_batch now).
Proof.
  intros b b' Hb. unfold fail_batch. case_match eqn:E; [|done]. intros [= <-].
  rewrite andb_true_iff, !bool_decide_eq_true in E. apply settled_status; tauto || done.
Qed.
Lemma cancel_keeps now : keeps (fun b => Some (cancel_batch now b)).
Proof.
  intros b b' Hb [= <-]. unfold cancel_batch. case_match eqn:E; [|by apply fine_refl].
  rewrite !andb_true_iff, !bool_decide_eq_true in E. apply settled_status; tauto || done.
Qed.
Lemma expire_keeps now : keeps (fun b => Some (expire_batch now b)).
Proof.
  intros b b' Hb [= <-]. unfold expire_batch. case_match eqn:E; [|by apply fine_refl].
  rewrite !andb_true_iff, !bool_decide_eq_true in E. apply settled_status; tauto || done.
Qed.
Lemma settle_keeps now : keeps (fun b => Some (sweep_settle now b)).
Proof. intros b b' Hb [= <-]. by apply settle_fine. Qed.
Lemma pause_keeps u t k : keeps (fun b => Some (pause_batch u t k b)).
Proof.
  intros b b' Hb [= <-]. unfold pause_batch. destruct (_ && _); [side_change Hb|by apply fine_refl].
Qed.
Lemma work_keeps p w now l : keeps (claim_batch_work p w now l).
Proof. intros b b' Hb. unfold claim_batch_work. case_match; [|done]. intros [= <-]. side_change Hb. Qed.
Lemma extend_keeps p w now l : keeps (extend_batch_work p w now l).
Proof. intros b b' Hb. unfold extend_batch_work. case_match; [|done]. intros [= <-]. side_change Hb. Qed.
Lemma mark_deleted_keeps : keeps (fun b => Some (b <| b_delete_requested := true |>)).
Proof. intros b b' Hb [= <-]. side_change Hb. Qed.

(** *** Validation *)

(** Nothing has happened yet to a staged item. *)
Lemma staged_zero b : batch_ok b -> b_phase b = PValidating ->
  b_completed b = 0 /\ b_failed b = 0 /\ b_cancelled b = 0 /\ b_expired b = 0 /\ (b_cost b == 0)%Q /\ b_unknown b = 0.
Proof.
  intros [Hk Hp] Hph. destruct (ph_staged _ Hp Hph) as [_ Hst]. destruct Hk as [_ _ -> -> -> -> -> ->].
  split_and!; try (apply zsum_zero; intros id i Hi; apply Hst in Hi as [Hq Ht];
    unfold done_of, failed_of, cancelled_of, expired_of, unknown_on; rewrite ?Hq, ?Ht; done).
  apply qsum_zero. intros id i Hi. apply Hst in Hi as [_ Ht]. unfold spent_on. by rewrite Ht.
Qed.

Lemma live_nonneg t m b : 0 <= live_of t m b.
Proof. apply zsum_nonneg. intros; apply one_if_nonneg. Qed.

(** From validation, to a batch all of whose items are queued and new. *)
Lemma validating_fine b b' :
  batch_ok b -> b_phase b = PValidating -> b_user b' = b_user b ->
  (forall id i, b_items b' !! id = Some i -> i_status i = Queued /\ i_tries i = ∅ /\ item_ok i) ->
  b_request_count b' = Z.of_nat (size (b_items b')) ->
  b_completed b' = 0 /\ b_failed b' = 0 /\ b_cancelled b' = 0 /\ b_expired b' = 0 ->
  b_cost b' = b_cost b -> b_unknown b' = b_unknown b -> phase_ok b' -> fine b b'.
Proof.
  intros Hb Hph Eus Hit Hrq (E1 & E2 & E3 & E4) Ec Eu Hp.
  destruct (staged_zero b Hb Hph) as (_ & _ & _ & _ & Z1 & Z2).
  split_and!; [split; [constructor|done]|constructor|]; try done; try congruence.
  - intros id i Hi. apply (Hit id i Hi).
  - rewrite E1. symmetry. apply zsum_zero. intros id i Hi. apply Hit in Hi as (Hq & _). unfold done_of. by rewrite Hq.
  - rewrite E2. symmetry. apply zsum_zero. intros id i Hi. apply Hit in Hi as (Hq & _). unfold failed_of. by rewrite Hq.
  - rewrite E3. symmetry. apply zsum_zero. intros id i Hi. apply Hit in Hi as (Hq & _). unfold cancelled_of. by rewrite Hq.
  - rewrite E4. symmetry. apply zsum_zero. intros id i Hi. apply Hit in Hi as (Hq & _). unfold expired_of. by rewrite Hq.
  - rewrite Ec, Z1. symmetry. apply qsum_zero. intros id i Hi. apply Hit in Hi as (_ & Ht & _). unfold spent_on. by rewrite Ht.
  - rewrite Eu, Z2. symmetry. apply zsum_zero. intros id i Hi. apply Hit in Hi as (_ & Ht & _). unfold unknown_on. by rewrite Ht.
  - rewrite Hph. simpl. destruct (b_phase b'); simpl; lia.
  - intros [H|H]; congruence.
  - intros t m. transitivity 0; [|apply live_nonneg]. apply Z.eq_le_incl. apply zsum_zero. intros id i Hi.
    apply Hit in Hi as (Hq & _). unfold lease_live. by rewrite Hq.
Qed.

Definition mk_items (f : string -> item) (ids : list (Z * string)) : gmap Z item := list_to_map (prod_map id f <$> ids).

Lemma mk_items_keys (f : string -> item) (ids : list (Z * string)) :
  ((prod_map id f <$> ids : list (Z * item))).*1 = ids.*1.
Proof. rewrite <- list_fmap_compose. apply list_fmap_ext. intros ? []; done. Qed.
Lemma mk_items_size f ids : NoDup ids.*1 -> size (mk_items f ids) = length ids.
Proof. intros H. unfold mk_items. rewrite map_size_list_to_map, length_fmap; [done|]. by rewrite mk_items_keys. Qed.
Lemma mk_items_lookup f ids k i : mk_items f ids !! k = Some i -> exists m, i = f m /\ (k, m) ∈ ids.
Proof.
  intros H. apply elem_of_list_to_map_2, list_elem_of_fmap in H as ([k' m] & E & Hin). inversion E. subst.
  by exists m.
Qed.
Lemma mk_items_disjoint f g p q : NoDup (p ++ q).*1 -> mk_items f p ##ₘ mk_items g q.
Proof.
  rewrite fmap_app, NoDup_app. intros (_ & H & _). apply map_disjoint_spec. intros k i j Hi Hj.
  apply mk_items_lookup in Hi as (m & _ & Hi), Hj as (m' & _ & Hj).
  apply (H k); apply list_elem_of_fmap; [by exists (k, m)|by exists (k, m')].
Qed.

Lemma reset_keeps w : keeps (reset_staged_items w).
Proof.
  intros b b' Hb. unfold reset_staged_items. case_match eqn:E; [|done]. intros [= <-].
  rewrite andb_true_iff, !bool_decide_eq_true in E. destruct E as [_ Hph].
  destruct (staged_zero b Hb Hph) as (Z1 & Z2 & Z3 & Z4 & _).
  apply validating_fine; try done.
  constructor; simpl; try congruence; [|intros [|]; congruence|apply Hb].
  intros _. split; [by apply (ph_staged _ (proj2 Hb))|]. done.
Qed.

Lemma stage_keeps w now ids : keeps (stage_items w now ids).
Proof.
  intros b b' Hb. unfold stage_items. case_match eqn:E; [|done]. intros [= <-].
  rewrite !andb_true_iff, !bool_decide_eq_true, forallb_forall in E. destruct E as [[[[[_ Hph] Hst] _] Hnd] Hnew].
  destruct (staged_zero b Hb Hph) as (Z1 & Z2 & Z3 & Z4 & _). fold (mk_items new_item ids).
  destruct (ph_staged _ (proj2 Hb) Hph) as [Hfile Hq].
  assert (forall k i, (mk_items new_item ids ∪ b_items b) !! k = Some i -> i_status i = Queued /\ i_tries i = ∅ /\ item_ok i) as Hall.
  { intros k i. rewrite lookup_union_Some_raw. intros [H|[_ H]].
    - apply mk_items_lookup in H as (m & -> & _). split_and!; [done|done|apply new_item_ok].
    - destruct (Hq k i H). split_and!; [done|done|]. apply (bk_items _ (proj1 Hb) _ _ H). }
  apply validating_fine; try done.
  - simpl. rewrite map_size_disj_union, mk_items_size, (bk_requests _ (proj1 Hb)); [lia|done|].
    apply map_disjoint_spec. intros k i j Hi Hj. apply mk_items_lookup in Hi as (m & _ & Hi).
    apply list_elem_of_In, Hnew, bool_decide_eq_true in Hi. simpl in Hi. congruence.
  - constructor; simpl; try congruence; [|intros [|]; congruence|apply Hb].
    intros _. split; [done|]. intros k i Hi. destruct (Hall k i Hi) as (?&?&?). done.
Qed.

Lemma publish_keeps w now models : keeps (publish_validated w now models).
Proof.
  intros b b' Hb. unfold publish_validated. case_match eqn:E; [|done]. intros [= <-].
  rewrite !andb_true_iff, !bool_decide_eq_true in E. destruct E as [[[_ Hph] _] _].
  match goal with |- fine _ (if _ then ?x else _) => assert (fine b x) as Hf end.
  { apply columns_fine; try done; [by apply runnable_phase_ok|by rewrite Hph|]; simpl; congruence. }
  case_match; [done|]. eapply fine_trans; [exact Hf|]. apply settle_fine_as; [apply Hf|done].
Qed.

Lemma fail_validation_keeps w : keeps (fail_validation w).
Proof.
  intros b b' Hb. unfold fail_validation. case_match eqn:E; [|done].
  rewrite !andb_true_iff, !bool_decide_eq_true in E. destruct E as [Hph _].
  destruct (ph_open _ (proj2 Hb) (or_introl Hph)) as [N1 N2]. intros [= <-].
  match goal with |- fine _ (_finalize ?x ?f) => assert (fine b x) as Hf end.
  { by apply validating_fine. }
  eapply fine_trans; [exact Hf|]. apply finalize_fine; [apply Hf|done|done| |]; simpl; by destruct (b_status b).
Qed.

Lemma seal_keeps w g : keeps (commit_seal w g).
Proof.
  intros b b' Hb. unfold commit_seal. case_match eqn:E; [|done].
  rewrite !andb_true_iff, !bool_decide_eq_true in E. destruct E as [[[Hph _] _] _]. intros [= <-].
  destruct (ph_sealing _ (proj2 Hb) Hph) as (f & Hpend & Hterm & _).
  apply columns_fine; try done; simpl; [|by rewrite Hph|congruence].
  constructor; simpl; try done; [intros _; apply (ph_fixed _ (proj2 Hb)); by left| |intros [|]; done].
  intros _. by rewrite Hpend.
Qed.

(** *** New batches *)

Lemma failed_item_ok m : item_ok ((new_item m) <| i_status := IFailed |>).
Proof. by constructor. Qed.

Lemma insert_ok now user key file sup models window phase status q f :
  insertable phase status file q f = true ->
  batch_ok (insert_batch now user key file sup models window phase status q f) /\
  forall t m, live_of t m (insert_batch now user key file sup models window phase status q f) = 0.
Proof.
  unfold insertable. rewrite andb_true_iff, orb_true_iff, !andb_true_iff, !bool_decide_eq_true. intros [Hnd Hcase].
  unfold insert_batch. fold (mk_items new_item q).
  fold (mk_items (fun m => (new_item m) <| i_status := IFailed |>) f).
  set (F := mk_items (fun m => (new_item m) <| i_status := IFailed |>) f). set (Q := mk_items new_item q).
  match goal with |- context [if _ then _settle now ?x _ else _] => set (b := x) end.
  assert (Q ##ₘ F) as Hdis by (by apply mk_items_disjoint).
  assert (NoDup q.*1 /\ NoDup f.*1) as [Hnq Hnf] by (rewrite fmap_app, NoDup_app in Hnd; tauto).
  assert (forall k i, (Q ∪ F) !! k = Some i -> i_tries i = ∅ /\ item_ok i /\ (i_status i = Queued \/ i_status i = IFailed)) as Hall.
  { intros k i. rewrite lookup_union_Some_raw. intros [H|[_ H]]; apply mk_items_lookup in H as (m & -> & _);
      (split_and!; [done| |]); [apply new_item_ok|by left|apply failed_item_ok|by right]. }
  assert (forall g, (forall m, g (new_item m) = 0) -> (forall m, g ((new_item m) <| i_status := IFailed |>) = 0) ->
    zsum g (Q ∪ F) = 0) as Hzero.
  { intros g Hg1 Hg2. apply zsum_zero. intros k i. rewrite lookup_union_Some_raw.
    intros [H|[_ H]]; by apply mk_items_lookup in H as (m & -> & _). }
  assert (books_ok b) as Hbooks.
  { constructor; simpl; try (symmetry; by apply Hzero).
    - intros k i Hi. by apply (Hall k i).
    - rewrite map_size_disj_union by done. unfold Q, F. rewrite !mk_items_size by done. lia.
    - rewrite zsum_union by done. rewrite (zsum_zero _ Q), (zsum_ext _ (fun _ => 1) F), zsum_size.
      + unfold F. by rewrite mk_items_size.
      + intros k i Hi. by apply mk_items_lookup in Hi as (m & -> & _).
      + intros k i Hi. by apply mk_items_lookup in Hi as (m & -> & _).
    - symmetry. apply qsum_zero. intros k i Hi. apply Hall in Hi as (Ht & _). unfold spent_on. by rewrite Ht. }
  assert (forall t m, live_of t m b = 0) as Hlive by (intros t m; by apply Hzero).
  assert (batch_ok b) as Hb.
  { split; [done|]. destruct Hcase as [[-> Hs]|[[[[-> ->] Hfile] ->] ->]].
    - apply runnable_phase_ok; simpl; destruct Hs; congruence.
    - by constructor. }
  case_match; [|done]. pose proof (settle_fine now b Hb) as (H1 & _ & H3). split; [done|].
  intros t m. specialize (H3 t m). rewrite Hlive in H3. pose proof (live_nonneg t m (_settle now b (b_status b))).
  change (b_status b) with status in *. lia.
Qed.

(** *** Leases *)

(** Moving the end of a running item's lease. *)
Lemma extended_ok b id i t :
  batch_ok b -> b_items b !! id = Some i -> i_status i = Running ->
  let b' := b <| b_items := <[id := i <| i_lease := Some t |>]> (b_items b) |> in
  batch_ok b' /\ batch_evolves b b' /\
  (forall u m, live_of u m b' = live_of u m b - one_if (lease_live u i && bool_decide (i_model i = m))
     + one_if (lease_live u (i <| i_lease := Some t |>) && bool_decide (i_model i = m))).
Proof.
  intros Hb Hi Hr b'. pose proof (running_runnable _ _ _ Hb Hi Hr) as Hph.
  pose proof (ph_open _ (proj2 Hb) (or_intror Hph)) as [N1 N2]. pose proof (bk_items _ (proj1 Hb) _ _ Hi) as Hio.
  assert (is_open i = true) as Ho by (apply open_is_open; by right).
  destruct (open_counts_nothing i Ho) as (O1 & O2 & O3 & O4).
  apply (replace_item b b' id i (i <| i_lease := Some t |>) 0%Q 0); try done;
    try (unfold done_of, failed_of, cancelled_of, expired_of, unknown_on in *; simpl; lia);
    try (unfold spent_on; simpl; lra).
  - constructor; try apply Hio. intros _. destruct (it_running _ Hio Hr) as (H1 & _ & H3).
    split_and!; [done|by eexists|done].
  - split_and!; [done|simpl; lia|unfold is_open; by rewrite Hr|done|done].
Qed.

(** A lease live at [t] is live at any earlier instant. *)
Lemma lease_live_mono i u t : u <= t -> lease_live t i = true -> lease_live u i = true.
Proof.
  unfold lease_live. rewrite !andb_true_iff. intros Hu [Hr Ht]. split; [done|]. destruct (i_lease i); [|done].
  rewrite bool_decide_eq_true in *. lia.
Qed.

(** Only a lease still live is extended. *)
Lemma heartbeat_item_ok real l id w b :
  batch_ok b -> batch_ok (heartbeat_item real l id w b) /\ batch_evolves b (heartbeat_item real l id w b) /\
  forall t m, real <= t -> live_of t m (heartbeat_item real l id w b) <= live_of real m b.
Proof.
  intros Hb. assert (forall t m, real <= t -> live_of t m b <= live_of real m b) as Hmono.
  { intros t m Ht. apply count_if_le. intros k i _. rewrite !andb_true_iff. intros [H1 H2]. split; [|done].
    by eapply lease_live_mono. }
  unfold heartbeat_item. destruct (b_items b !! id) as [i|] eqn:Hi; [|split_and!; [done|reflexivity|done]].
  case_match eqn:E; [|split_and!; [done|reflexivity|done]]. apply andb_true_iff in E as [Hl _].
  destruct (extended_ok b id i (real + l) Hb Hi (lease_live_running _ _ Hl)) as (H1 & H2 & H3).
  split_and!; [done|done|]. intros t m Ht. rewrite H3.
  assert (live_of t m b - one_if (lease_live t i && bool_decide (i_model i = m)) <=
          live_of real m b - one_if (lease_live real i && bool_decide (i_model i = m))) as Hrest.
  { unfold live_of, count_if. rewrite <- (insert_delete_id _ _ _ Hi), !zsum_insert by apply lookup_delete_eq.
    rewrite !Z.add_simpl_l.
    apply zsum_le. intros k j _. apply one_if_le. rewrite !andb_true_iff. intros [G1 G2]. split; [|done].
    by eapply lease_live_mono. }
  rewrite Hl in Hrest. cbn [andb] in Hrest.
  match goal with |- _ + one_if (?x && ?y) <= _ => assert (one_if (x && y) <= one_if y); [|lia] end.
  apply one_if_le. rewrite andb_true_iff. tauto.
Qed.

(** *** Claims of items *)

Lemma claim_item_ok now l w model id b b' :
  batch_ok b -> claimable_job now b = true -> claim_item now l w model id b = Some b' ->
  batch_ok b' /\ batch_evolves b b' /\
  forall t m, live_of t m b' <= live_of t m b + one_if (bool_decide (m = model)).
Proof.
  intros Hb Hj. unfold claim_item. destruct (b_items b !! id) as [i|] eqn:Hi; [|done]. cbn [mbind option_bind].
  destruct (claimable_item now i) eqn:Hc; [|done]. case_bool_decide as Hm; [|done]. cbn [andb].
  pose proof (bk_items _ (proj1 Hb) _ _ Hi) as Hio.
  assert (b_phase b = PRunnable /\ (b_status b = Validating \/ b_status b = InProgress)) as [Hph Hst].
  { unfold claimable_job in Hj. rewrite !andb_true_iff, !bool_decide_eq_true in Hj. tauto. }
  destruct (claim_item_spec i now w (now + l) Hio Hc) as (i' & lost & Heq & Hok & Hev & Ho & Hr' & _ & _ & _ & Hsp & Hun).
  destruct (if lease_over now i then abandon_attempt i (i_seq i) else (i, false)) as [j lost'] eqn:Ej.
  intros [= <-]. inversion Heq as [[Hi' Hl']]. subst lost'. clear Heq.
  match type of Hi' with ?x = _ => set (j' := x) in * end. 
  match goal with |- batch_ok ?x /\ _ => set (b' := x) end.
  assert (b_items b' = <[id := i']> (b_items b)) as Eit by (unfold b'; simpl; by rewrite <- Hi').
  destruct (replace_item b b' id i i' 0%Q (one_if lost)) as (H1 & H2 & H3); try done.
  - rewrite Hsp. lra.
  - unfold b'. simpl. destruct Hst; congruence.
  - unfold b'. simpl. destruct Hst; congruence.
  - unfold b', done_of. rewrite Hr'. simpl. lia.
  - unfold b', failed_of. rewrite Hr'. simpl. lia.
  - unfold b', cancelled_of. rewrite Hr'. simpl. lia.
  - unfold b', expired_of. rewrite Hr'. simpl. lia.
  - unfold b'. simpl. lra.
  - split_and!; [done|done|]. intros t m. rewrite H3, Hm. pose proof (one_if_nonneg (lease_live t i && bool_decide (model = m))).
    assert (one_if (lease_live t i' && bool_decide (model = m)) <= one_if (bool_decide (m = model))); [|lia].
    apply one_if_le. rewrite andb_true_iff, !bool_decide_eq_true. intuition congruence.
Qed.

(** *** The store *)

(** The rows of [s'] come from those of [s]. *)
Definition store_evolves (s s' : batch_store) : Prop :=
  forall bid b', batches s' !! bid = Some b' -> exists b, batches s !! bid = Some b /\ batch_evolves b b'.
Definition store_quiet (s s' : batch_store) : Prop :=
  forall t m, live_count t m (batches s') <= live_count t m (batches s).
Definition store_fine (s s' : batch_store) : Prop := store_ok s' /\ store_evolves s s' /\ store_quiet s s'.

#[export] Instance store_evolves_preorder : PreOrder store_evolves.
Proof.
  split.
  - intros s bid b Hb. exists b. split; [done|reflexivity].
  - intros s1 s2 s3 E1 E2 bid b3 H3. destruct (E2 _ _ H3) as (b2 & H2 & E23). destruct (E1 _ _ H2) as (b1 & H1 & E12).
    exists b1. split; [done|]. by transitivity b2.
Qed.

Lemma store_fine_refl s : store_ok s -> store_fine s s.
Proof. intros H. split_and!; [done|reflexivity|]. intros t m. lia. Qed.

(** One batch replaced. *)
Lemma replace_batch s bid b b' :
  store_ok s -> batches s !! bid = Some b -> batch_ok b' -> batch_evolves b b' ->
  let s' := s <| batches := <[bid := b']> (batches s) |> in
  store_ok s' /\ store_evolves s s' /\
  forall t m, live_count t m (batches s') = live_count t m (batches s) - live_of t m b + live_of t m b'.
Proof.
  intros Hs Hb Hb' Hev s'. split_and!.
  - by apply map_Forall_insert_2.
  - intros k x. unfold s'. simpl. rewrite lookup_insert. case_decide as Hk.
    + intros [= <-]. subst k. by exists b.
    + intros Hx. exists x. split; [done|reflexivity].
  - intros t m. unfold live_count, s'. simpl. by rewrite (zsum_update _ _ _ b).
Qed.

Lemma on_batch_fine s bid f : store_ok s -> keeps f -> store_fine s (on_batch s bid f).
Proof.
  intros Hs Hf. unfold on_batch. destruct (batches s !! bid) as [b|] eqn:Hb; [|by apply store_fine_refl].
  cbn [mbind option_bind]. destruct (f b) as [b'|] eqn:E; [|by apply store_fine_refl].
  destruct (Hf b b' (Hs _ _ Hb) E) as (H1 & H2 & H3).
  destruct (replace_batch s bid b b' Hs Hb H1 H2) as (G1 & G2 & G3). split_and!; [done|done|].
  intros t m. rewrite G3. specialize (H3 t m). lia.
Qed.

Lemma fmap_fine s f : store_ok s -> keeps (fun b => Some (f b)) -> store_fine s (s <| batches := f <$> batches s |>).
Proof.
  intros Hs Hf. split_and!.
  - intros k x. simpl. rewrite lookup_fmap_Some. intros (b & <- & Hb). apply (Hf b _ (Hs _ _ Hb) eq_refl).
  - intros k x. simpl. rewrite lookup_fmap_Some. intros (b & <- & Hb). exists b. split; [done|]. apply (Hf b _ (Hs _ _ Hb) eq_refl).
  - intros t m. unfold live_count. simpl. rewrite zsum_fmap. apply zsum_le. intros k b Hb. apply (Hf b _ (Hs _ _ Hb) eq_refl).
Qed.

(** Fewer batches. *)
Lemma fewer_fine s m q n :
  store_ok s -> m ⊆ batches s -> store_fine s (BatchStore m q n).
Proof.
  intros Hs Hsub. split_and!.
  - intros k b Hb. apply (Hs k). by eapply lookup_weaken.
  - intros k b Hb. exists b. split; [by eapply lookup_weaken|reflexivity].
  - intros t mo. unfold live_count. simpl. rewrite <- (map_difference_union m (batches s)) by done.
    rewrite zsum_union by (by apply map_disjoint_difference_r1). pose proof (zsum_nonneg
      (fun b => count_if (fun i => lease_live t i && bool_decide (i_model i = mo)) (b_items b)) (batches s ∖ m)
      ltac:(intros; apply live_nonneg)). lia.
Qed.

Lemma live_count_mono u t m s : u <= t -> live_count t m s <= live_count u m s.
Proof.
  intros Hu. apply zsum_le. intros k b _. apply count_if_le. intros id i _. rewrite !andb_true_iff.
  intros [H1 H2]. split; [|done]. by eapply lease_live_mono.
Qed.

Lemma heartbeat_ok w rows l real s :
  store_ok s ->
  store_ok (heartbeat w rows l real s) /\ store_evolves s (heartbeat w rows l real s) /\
  forall t m, real <= t -> live_count t m (batches (heartbeat w rows l real s)) <= live_count real m (batches s).
Proof.
  unfold heartbeat. revert s. induction rows as [|p rows IH]; intros s Hs; cbn [fold_left].
  { split_and!; [done|reflexivity|]. intros. by apply live_count_mono. }
  set (s1 := on_batch s p.1 _).
  assert (store_ok s1 /\ store_evolves s s1 /\
    forall m, live_count real m (batches s1) <= live_count real m (batches s)) as (H1 & H2 & H3).
  { unfold s1, on_batch. destruct (batches s !! p.1) as [b|] eqn:Hb; [|split_and!; try done; reflexivity].
    cbn [mbind option_bind]. destruct (heartbeat_item_ok real l p.2 w b (Hs _ _ Hb)) as (G1 & G2 & G3).
    destruct (replace_batch s p.1 b _ Hs Hb G1 G2) as (K1 & K2 & K3). split_and!; [done|done|].
    intros m. rewrite K3. specialize (G3 real m ltac:(lia)). lia. }
  destruct (IH s1 H1) as (I1 & I2 & I3). split_and!; [done|by transitivity s1|].
  intros t m Ht. specialize (I3 t m Ht). specialize (H3 m). lia.
Qed.

(** *** Claims *)

Lemma claim_each_ok now l w model cands : forall m, map_Forall (fun _ b => batch_ok b) m ->
  let '(m', served) := claim_each now l w model cands m in
  map_Forall (fun _ b => batch_ok b) m' /\
  (forall bid b', m' !! bid = Some b' -> exists b, m !! bid = Some b /\ batch_evolves b b') /\
  (length served <= length cands)%nat /\
  forall t k, live_count t k m' <= live_count t k m + Z.of_nat (length served) * one_if (bool_decide (k = model)).
Proof.
  induction cands as [|c cands IH]; intros m Hm; cbn [claim_each].
  { split_and!; [done| |done|intros; simpl; lia]. intros bid b Hb. exists b. split; [done|reflexivity]. }
  destruct (b ← m !! c_batch c; if claimable_job now b then claim_item now l w model (c_id c) b else None) as [b1|] eqn:E.
  2:{ specialize (IH m Hm). destruct (claim_each _ _ _ _ _ m) as [m' served]. destruct IH as (I1 & I2 & I3 & I4).
      cbn [length]. split_and!; [done|done|lia|done]. }
  apply bind_Some in E as (b & Hb & Hc). destruct (claimable_job now b) eqn:Hj; [|done].
  destruct (claim_item_ok _ _ _ _ _ _ _ (Hm _ _ Hb) Hj Hc) as (G1 & G2 & G3).
  specialize (IH (<[c_batch c := b1]> m) ltac:(by apply map_Forall_insert_2)).
  destruct (claim_each _ _ _ _ _ _) as [m' served]. destruct IH as (I1 & I2 & I3 & I4). cbn [length].
  split_and!; [done| |lia|].
  - intros bid b' Hb'. destruct (I2 _ _ Hb') as (x & Hx & Hev). rewrite lookup_insert in Hx. case_decide as Hk.
    + inversion Hx. subst. exists b. split; [done|]. by transitivity x.
    + by exists x.
  - intros t k. specialize (I4 t k). specialize (G3 t k). unfold live_count in I4 at 2.
    rewrite (zsum_update _ _ _ b) in I4 by done. fold (live_of t k b) in I4. fold (live_of t k b1) in I4.
    fold (live_count t k m) in I4. lia.
Qed.

Lemma touch_fine p : keeps (fun b => Some (b <| b_claim_seq := Some p |>
  <| b_status := if decide (b_status b = Validating) then InProgress else b_status b |>)).
Proof.
  intros b b' Hb [= <-]. case_decide as Hv; [|side_change Hb]. apply columns_fine; try done.
  - destruct Hb as [_ [P1 P2 P3 P4 P5]]. constructor; simpl; try done.
    + intros H. destruct (P3 H) as (f & Hf & Ht & _). by exists f.
    + intros H. apply P4 in H as [Ht _]. by rewrite Hv in Ht.
  - simpl. intros H. apply (ph_sealed _ (proj2 Hb)) in H as [Ht _]. by rewrite Hv in Ht.
Qed.

Lemma touch_all_fine l s q n :
  store_ok s -> store_fine s (BatchStore (fold_left touch_batch l (batches s)) q n).
Proof.
  revert s. induction l as [|p l IH]; intros s Hs; cbn [fold_left]; [by apply fewer_fine|].
  assert (store_fine s (s <| batches := touch_batch (batches s) p |>)) as (H1 & H2 & H3).
  { unfold touch_batch. destruct (batches s !! p.1) as [b|] eqn:Hb.
    - pose proof (on_batch_fine s p.1 _ Hs (touch_fine p.2)) as Hf. unfold on_batch in Hf. rewrite Hb in Hf.
      cbn [mbind option_bind] in Hf. erewrite alter_alt_Some; [exact Hf|done].
    - rewrite alter_alt, Hb. by apply fewer_fine. }
  destruct (IH _ H1) as (I1 & I2 & I3). split_and!; [done| |].
  - etransitivity; [exact H2|exact I2].
  - intros t m. etransitivity; [apply I3|apply H3].
Qed.

(** A claim fills the model up to its cap, as counted at the transaction's start, and
    gives no other model a lease. *)
Lemma claim_from_ok now l w model limit mr cands s :
  store_ok s ->
  let s' := (claim_from now l w model limit mr cands s).1 in
  store_ok s' /\ store_evolves s s' /\
  (forall t k, k <> model -> live_count t k (batches s') <= live_count t k (batches s)) /\
  (forall t, now <= t -> live_count t model (batches s') <= Z.max (live_count t model (batches s)) mr).
Proof.
  intros Hs. unfold claim_from. case_match eqn:E; simpl.
  { split_and!; [done|reflexivity|intros; lia|intros; lia]. }
  rewrite !orb_false_iff, !bool_decide_eq_false in E. destruct E as [[_ _] Hroom].
  set (room := Z.min limit _) in *.
  pose proof (claim_each_ok now l w model (take (Z.to_nat room) cands) (batches s) Hs) as Hc.
  destruct (claim_each _ _ _ _ _ _) as [m served]. destruct Hc as (C1 & C2 & C3 & C4). simpl.
  set (q := list_to_map _ ∪ _). set (n := next_seq s + _ + _).
  destruct (touch_all_fine (seqs_from (next_seq s) (remove_dups (c_batch <$> served))) (BatchStore m q n) q n C1)
    as (T1 & T2 & T3).
  split_and!; [done|by etransitivity; [|exact T2]| |].
  - intros t k Hk. specialize (T3 t k). specialize (C4 t k). rewrite bool_decide_eq_false_2 in C4 by done.
    simpl in T3, C4. lia.
  - intros t Ht. specialize (T3 t model). specialize (C4 t model). rewrite bool_decide_eq_true_2 in C4 by done.
    pose proof (live_count_mono now t model (batches s) Ht). rewrite length_take in C3. simpl in T3, C4. lia.
Qed.

(** The id of the batch a step creates. *)
Definition creates (o : batch_op) : option string :=
  match o with BInsert bid _ _ _ _ _ _ _ _ _ _ _ => Some bid | _ => None end.

(** Steps other than a claim or a heartbeat give no lease. *)
Definition leases (o : batch_op) : bool :=
  match o with BClaim _ _ _ _ _ _ _ _ | BHeartbeat _ _ _ _ => true | _ => false end.

Lemma store_step_fine s o : store_ok s -> leases o = false -> creates o = None -> store_fine s (batch_step s o).
Proof.
  intros Hs Hl Hc. destruct o; try done; cbn [batch_step];
    try (apply on_batch_fine; [done|]).
  - apply dispatch_keeps.
  - apply (report_keeps now id worker n (RComplete r)).
  - apply (report_keeps now id worker n (RRetry r next)).
  - apply (report_keeps now id worker n (RRelease next dispatched)).
  - apply fail_keeps.
  - apply cancel_keeps.
  - apply expire_keeps.
  - apply settle_keeps.
  - apply fmap_fine; [done|]. apply pause_keeps.
  - apply work_keeps.
  - apply extend_keeps.
  - apply reset_keeps.
  - apply stage_keeps.
  - apply publish_keeps.
  - apply fail_validation_keeps.
  - apply seal_keeps.
  - unfold delete_batch. destruct (batches s !! bid) as [b|] eqn:Hb; [|by apply store_fine_refl].
    case_match; [by apply store_fine_refl|]. destruct reading; [|apply fewer_fine; [done|apply delete_subseteq]].
    pose proof (on_batch_fine s bid _ Hs mark_deleted_keeps) as Hf. unfold on_batch in Hf. by rewrite Hb in Hf.
  - apply fewer_fine; [done|apply delete_subseteq].
  - apply fewer_fine; [done|apply map_filter_subseteq].
Qed.

Lemma batch_step_ok s o :
  store_ok s -> store_ok (batch_step s o) /\
  forall bid b', batches (batch_step s o) !! bid = Some b' ->
    (exists b, batches s !! bid = Some b /\ batch_evolves b b') \/ creates o = Some bid.
Proof.
  intros Hs. destruct (creates o) as [bid|] eqn:Hc.
  - destruct o; try done. injection Hc as ->. cbn [batch_step].
    case_match eqn:E; [|split; [done|intros k b' Hb'; left; exists b'; split; [done|reflexivity]]].
    apply andb_true_iff in E as [_ Hi]. split.
    + apply map_Forall_insert_2; [|done]. by apply insert_ok.
    + intros k b'. simpl. rewrite lookup_insert. case_decide as Hk; [subst; by right|].
      intros Hb'. left. exists b'. split; [done|reflexivity].
  - destruct (leases o) eqn:Hl.
    + destruct o; try done; cbn [batch_step].
      * destruct (claim_from_ok now lease_us worker model limit max_running cands s Hs) as (H1 & H2 & _).
        split; [done|]. intros k b' Hb'. left. by apply H2.
      * destruct (heartbeat_ok worker rows lease_us real s Hs) as (H1 & H2 & _).
        split; [done|]. intros k b' Hb'. left. by apply H2.
    + destruct (store_step_fine s o Hs Hl Hc) as (H1 & H2 & _). split; [done|]. intros k b' Hb'. left. by apply H2.
Qed.

Lemma run_ok l s : store_ok s -> store_ok (fold_left batch_step l s).
Proof. revert s. induction l as [|o l IH]; intros s Hs; [done|]. by apply IH, batch_step_ok. Qed.
Lemma batch_run_ok l : store_ok (batch_run l).
Proof. apply run_ok. intros k b. simpl. by rewrite lookup_empty. Qed.

(** A batch that is there after a history that does not create it was there before. *)
Lemma run_evolves l s bid b' :
  store_ok s -> Forall (fun o => creates o <> Some bid) l -> batches (fold_left batch_step l s) !! bid = Some b' ->
  exists b, batches s !! bid = Some b /\ batch_evolves b b'.
Proof.
  intros Hs Hl. revert s Hs. induction Hl as [|o l Ho Hl IH]; intros s Hs Hb'; cbn [fold_left] in Hb'.
  { exists b'. split; [done|reflexivity]. }
  destruct (batch_step_ok s o Hs) as [Hs1 Hev]. destruct (IH _ Hs1 Hb') as (b1 & Hb1 & E1).
  destruct (Hev _ _ Hb1) as [(b & Hb & E)|?]; [|done]. exists b. split; [done|]. by transitivity b1.
Qed.

(** ** Accounting *)

Definition succeeded (a : attempt) : Z := one_if (bool_decide (a_outcome a = Some Succeeded)).

(** An item is completed by exactly one of its attempts. *)
Lemma one_success i : item_ok i -> zsum succeeded (i_tries i) = done_of i.
Proof.
  intros Hi. unfold done_of. case_bool_decide as Hd; simpl.
  - destruct (it_done _ Hi Hd) as (a & Ha & Ho). rewrite <- (insert_delete_id _ _ _ Ha), zsum_insert by apply lookup_delete_eq.
    rewrite zsum_zero; [unfold succeeded; by rewrite Ho|]. intros n x Hx. apply lookup_delete_Some in Hx as [Hn Hx].
    destruct (it_tries _ Hi _ _ Hx) as [_ Ht]. unfold succeeded. destruct (a_outcome x) as [[]|]; try done.
    destruct Ht as [_ ->]. done.
  - apply zsum_zero. intros n x Hx. destruct (it_tries _ Hi _ _ Hx) as [_ Ht]. unfold succeeded.
    destruct (a_outcome x) as [[]|]; try done. destruct Ht as [Ht _]. congruence.
Qed.

(** C27: the counters a batch reports always agree with its rows.  Its requests are all
    its items; its completed, cancelled and expired ones are exactly the items with that
    status, and its failed ones the items that failed or expired.  A completed item has
    exactly one successful attempt and any other item none.  The batch's cost is the sum
    of the costs recorded on its attempts, and its unknown costs are the attempts whose
    billing was closed as unknown, whether the attempt was given up after it was sent or
    reported with no cost known. *)
Theorem batch_books_balance (l : list batch_op) (bid : string) (b : batch) :
  batches (batch_run l) !! bid = Some b ->
  b_request_count b = Z.of_nat (size (b_items b)) /\
  b_completed b = count_if (fun i => bool_decide (i_status i = ICompleted)) (b_items b) /\
  (forall id i, b_items b !! id = Some i ->
     zsum succeeded (i_tries i) = one_if (bool_decide (i_status i = ICompleted))) /\
  b_failed b = count_if (fun i => bool_decide (i_status i = IFailed \/ i_status i = IExpired)) (b_items b) /\
  b_cancelled b = count_if (fun i => bool_decide (i_status i = ICancelled)) (b_items b) /\
  b_expired b = count_if (fun i => bool_decide (i_status i = IExpired)) (b_items b) /\
  (b_cost b == qsum (fun i => qsum try_cost (i_tries i)) (b_items b))%Q /\
  b_unknown b = zsum (fun i => zsum try_unknown (i_tries i)) (b_items b).
Proof.
  intros Hb. destruct (batch_run_ok l _ _ Hb) as [[K0 K1 K2 K3 K4 K5 K6 K7] _].
  split_and!; [exact K1|exact K2| |exact K3|exact K4|exact K5|exact K6|exact K7].
  intros id i Hi. apply one_success, (K0 _ _ Hi).
Qed.

(** ** Final results *)

Lemma status_partition i : done_of i + failed_of i + cancelled_of i + one_if (is_open i) = 1.
Proof. unfold done_of, failed_of, cancelled_of, is_open. by destruct (i_status i). Qed.

Lemma counts_total b : books_ok b -> zsum (fun i => one_if (is_open i)) (b_items b) = 0 ->
  b_request_count b = b_completed b + b_failed b + b_cancelled b.
Proof.
  intros [_ -> -> -> -> _ _ _] Ho. rewrite <- zsum_size.
  rewrite (zsum_ext (fun _ => 1) (fun i => (done_of i + failed_of i + cancelled_of i) + one_if (is_open i))).
  - rewrite !zsum_add. lia.
  - intros _ i _. symmetry. apply status_partition.
Qed.

(** A sealed batch has a final status and accounts for every
    request as completed, failed or cancelled; whatever happens later, short of deleting
    it, its status, items, attempts and counters stay as they are. *)
Theorem sealed_is_final (l1 l2 : list batch_op) (bid : string) (b b' : batch) :
  batches (batch_run l1) !! bid = Some b -> b_phase b = PSealed ->
  Forall (fun o => creates o <> Some bid) l2 ->
  batches (fold_left batch_step l2 (batch_run l1)) !! bid = Some b' ->
  terminal (b_status b) = true /\
  b_request_count b = b_completed b + b_failed b + b_cancelled b /\
  b_phase b' = PSealed /\ b_status b' = b_status b /\ b_items b' = b_items b /\
  b_request_count b' = b_request_count b /\ b_completed b' = b_completed b /\ b_failed b' = b_failed b /\
  b_cancelled b' = b_cancelled b /\ b_expired b' = b_expired b /\ (b_cost b' == b_cost b)%Q /\ b_unknown b' = b_unknown b.
Proof.
  intros Hb Hp Hl Hb'. pose proof (batch_run_ok l1) as Hs. destruct (Hs _ _ Hb) as [Hk Hph].
  destruct (run_ok l2 _ Hs _ _ Hb') as [[_ R1 R2 R3 R4 R5 R6 R7] _].
  destruct (run_evolves l2 _ bid b' Hs Hl Hb') as (b0 & Hb0 & [_ E2 _ _ E5 E6]).
  assert (b0 = b) as -> by congruence. destruct (E5 (or_intror Hp)) as [Ei _].
  rewrite Ei in *. pose proof Hk as [_ K1 K2 K3 K4 K5 K6 K7].
  split_and!; try congruence.
  - apply (ph_sealed _ Hph Hp).
  - apply counts_total; [done|]. apply (ph_fixed _ Hph). by right.
  - rewrite Hp in E2. by destruct (b_phase b').
  - by apply E6.
  - by rewrite R6, K6.
Qed.

(** ** Reports of workers *)

Definition report_op (bid : string) (now : datetime_us) (id : Z) (worker : string) (n : Z) (v : item_report) : batch_op :=
  match v with
  | RComplete r => BComplete bid id worker n r now
  | RRetry r next => BRetry bid id worker n r next now
  | RRelease next dispatched => BRelease bid id worker n next dispatched now
  end.

Lemma report_step s bid now id w n v b b' :
  batches s !! bid = Some b -> report_item now id w n v b = Some b' ->
  batch_step s (report_op bid now id w n v) = s <| batches := <[bid := b']> (batches s) |>.
Proof. intros Hb Hr. destruct v; cbn [report_op batch_step report_item] in *; unfold on_batch; rewrite Hb; cbn [mbind option_bind]; by rewrite Hr. Qed.

(** An attempt that ended is not reported again. *)
Lemma closed_refused b id i a n now w v :
  batch_ok b -> b_items b !! id = Some i -> i_tries i !! n = Some a -> a_outcome a <> None ->
  report_item now id w n v b = None /\ mark_dispatched id w n b = None.
Proof.
  intros Hb Hi Ha Ho. assert (item_guard w n i = false) as Hg.
  { destruct (item_guard w n i) eqn:G; [|done]. apply guard_running in G as (Hr & _ & <-).
    destruct (running_open _ (bk_items _ (proj1 Hb) _ _ Hi) Hr) as (a' & Ha' & Ho'). congruence. }
  split.
  - destruct v; cbn [report_item]; unfold complete_item, retry_item, release_item; rewrite Hi; cbn [mbind option_bind];
      by rewrite Hg.
  - unfold mark_dispatched. rewrite Hi. cbn [mbind option_bind]. rewrite Ha. cbn [mbind option_bind]. by rewrite Hg.
Qed.

(** The batch after a history that follows an accepted report. *)
Lemma report_lasts s l bid now id w n v b b1 b2 :
  store_ok s -> batches s !! bid = Some b -> report_item now id w n v b = Some b1 ->
  Forall (fun o => creates o <> Some bid) l ->
  batches (fold_left batch_step (report_op bid now id w n v :: l) s) !! bid = Some b2 ->
  exists i1 i2 a, b_items b1 !! id = Some i1 /\ b_items b2 !! id = Some i2 /\
    i_tries i1 !! n = Some a /\ i_tries i2 !! n = Some a /\ a_outcome a <> None /\
    (final_report v = true -> i2 = i1) /\ batch_ok b2.
Proof.
  intros Hs Hb Hr Hl. cbn [fold_left]. rewrite (report_step _ _ _ _ _ _ _ _ _ Hb Hr). intros Hb2.
  destruct (report_item_accepted _ _ _ _ _ _ _ (Hs _ _ Hb) Hr) as (Hf & (i & Hi & Hrun & _) & i1 & a & Hi1 & Ha & Ho & Hfin).
  destruct (replace_batch s bid b b1 Hs Hb (proj1 Hf) (proj1 (proj2 Hf))) as (Hs1 & _ & _).
  destruct (run_evolves l _ bid b2 Hs1 Hl Hb2) as (x & Hx & Hev). simpl in Hx. rewrite lookup_insert_eq in Hx.
  injection Hx as <-.
  assert (b_phase b1 <> PValidating) as Hph.
  { pose proof (ev_phase _ _ (proj1 (proj2 Hf))) as Hp. rewrite (running_runnable _ _ _ (Hs _ _ Hb) Hi Hrun) in Hp.
    by destruct (b_phase b1). }
  destruct (ev_items _ _ Hev Hph id i1 Hi1) as (i2 & Hi2 & (_ & _ & Hcl & Hkeep & _)).
  exists i1, i2, a. split_and!; try done; [by apply Hkeep|auto|]. by apply (run_ok l _ Hs1 bid).
Qed.

(** C28: a report is accepted only from the worker whose claim of the
    item is current, and only once: after it, however the store's history goes on, that
    attempt's record does not change, no report of it is accepted from any worker, and an
    item reported complete stays exactly as it was then. *)
Theorem report_accepted_once (l1 l2 : list batch_op) (bid : string) (now : datetime_us) (id : Z) (w : string) (n : Z)
    (v : item_report) (b b1 b2 : batch) :
  batches (batch_run l1) !! bid = Some b -> report_item now id w n v b = Some b1 ->
  Forall (fun o => creates o <> Some bid) l2 ->
  batches (fold_left batch_step (report_op bid now id w n v :: l2) (batch_run l1)) !! bid = Some b2 ->
  (exists i, b_items b !! id = Some i /\ i_status i = Running /\ i_claimed i = Some w /\ i_seq i = n) /\
  (exists i1 i2 a, b_items b1 !! id = Some i1 /\ b_items b2 !! id = Some i2 /\
     i_tries i1 !! n = Some a /\ i_tries i2 !! n = Some a /\ a_outcome a <> None /\
     (final_report v = true -> i2 = i1)) /\
  forall now' w' v', report_item now' id w' n v' b2 = None /\ mark_dispatched id w' n b2 = None.
Proof.
  intros Hb Hr Hl Hb2. pose proof (batch_run_ok l1) as Hs.
  destruct (report_lasts _ l2 bid now id w n v b b1 b2 Hs Hb Hr Hl Hb2) as (i1 & i2 & a & H1 & H2 & H3 & H4 & H5 & H6 & H7).
  split_and!; [apply (report_item_accepted _ _ _ _ _ _ _ (Hs _ _ Hb) Hr)|by exists i1, i2, a|].
  intros now' w' v'. by eapply (closed_refused b2 id i2 a).
Qed.

(** ** The cap of a model *)

(** A history in the order of the locks: claims and heartbeats see the clock go forward,
    a claim's transaction began before it holds the lock, and the claims of [model] ask
    for at most [cap] running items. *)
Fixpoint paced (model : string) (cap clock : Z) (l : list batch_op) : Prop :=
  match l with
  | [] => True
  | BClaim _ m _ max_running _ _ now real :: l =>
      now <= real /\ clock <= real /\ (m = model -> max_running <= cap) /\ paced model cap real l
  | BHeartbeat _ _ _ real :: l => clock <= real /\ paced model cap real l
  | _ :: l => paced model cap clock l
  end.
Fixpoint last_clock (clock : Z) (l : list batch_op) : Z :=
  match l with
  | [] => clock
  | BClaim _ _ _ _ _ _ _ real :: l | BHeartbeat _ _ _ real :: l => last_clock real l
  | _ :: l => last_clock clock l
  end.

Definition capped (model : string) (cap clock : Z) (s : batch_store) : Prop :=
  forall t, clock <= t -> live_count t model (batches s) <= cap.

Lemma insert_live s o bid t m : creates o = Some bid ->
  live_count t m (batches (batch_step s o)) = live_count t m (batches s).
Proof.
  intros Hc. destruct o; try done. cbn [batch_step]. case_match eqn:E; [|done].
  apply andb_true_iff in E as [Hn Hi]. apply bool_decide_eq_true in Hn. simpl. unfold live_count.
  rewrite zsum_insert by done. fold (live_of t m (insert_batch now user key file supported models window phase status queued failed)).
  rewrite (proj2 (insert_ok now user key file supported models window phase status queued failed Hi)). lia.
Qed.

Lemma quiet_capped model cap clock s o : store_ok s -> leases o = false -> capped model cap clock s ->
  capped model cap clock (batch_step s o).
Proof.
  intros Hs Hl Hc t Ht. specialize (Hc t Ht). destruct (creates o) as [bid|] eqn:E.
  - by rewrite (insert_live _ _ bid).
  - destruct (store_step_fine s o Hs Hl E) as (_ & _ & Hq). specialize (Hq t model). lia.
Qed.

Lemma paced_capped model cap l : forall clock s, store_ok s -> capped model cap clock s -> paced model cap clock l ->
  capped model cap (last_clock clock l) (fold_left batch_step l s).
Proof.
  induction l as [|o l IH]; intros clock s Hs Hc Hp; [done|]. cbn [fold_left].
  pose proof (proj1 (batch_step_ok s o Hs)) as Hs1.
  destruct (leases o) eqn:Hl.
  2:{ pose proof (quiet_capped _ _ _ _ _ Hs Hl Hc) as Hc1. destruct o; try done; by apply IH. }
  destruct o; try done; cbn [paced last_clock] in *.
  - destruct Hp as (H1 & H2 & H3 & H4). apply IH; [done| |done]. intros t Ht. cbn [batch_step].
    destruct (claim_from_ok now lease_us worker model0 limit max_running cands s Hs) as (_ & _ & Hother & Hmine).
    specialize (Hc t ltac:(lia)). destruct (decide (model = model0)) as [->|Hne].
    + specialize (Hmine t ltac:(lia)). specialize (H3 eq_refl). lia.
    + specialize (Hother t model Hne). lia.
  - destruct Hp as (H1 & H2). apply IH; [done| |done]. intros t Ht. cbn [batch_step].
    destruct (heartbeat_ok worker rows lease_us real s Hs) as (_ & _ & Hh). specialize (Hh t model Ht).
    specialize (Hc real H1). lia.
Qed.

(** C29: however claims, heartbeats and everything else interleave, a model
    never has more items running under a live lease than the largest cap its claims name,
    although a claim counts them at its transaction's start rather than when it holds the
    lock. *)
Theorem model_cap_respected (model : string) (cap start : Z) (l : list batch_op) (t : datetime_us) :
  0 <= cap -> paced model cap start l -> last_clock start l <= t ->
  live_count t model (batches (batch_run l)) <= cap.
Proof.
  intros Hcap Hp Ht. apply (paced_capped model cap l start new_store); [apply (batch_run_ok [])| |done|done].
  intros u _. unfold live_count, zsum. cbn [new_store batches]. by rewrite map_fold_empty.
Qed.

(** ** Witnesses *)

(** Two requests: one answered at once, the other by a second worker after the first
    one's lease ran out. *)
Definition demo_candidate (id : Z) : candidate := Candidate "u" None "b" id None 0 id.
Definition demo_start : list batch_op := [
  BInsert "b" "u" None false true ["m"] None PRunnable Validating [(1, "m"); (2, "m")] [] 0;
  BClaim "w" "m" 2 2 10 [demo_candidate 1; demo_candidate 2] 5 6;
  BDispatch "b" 1 "w" 1; BDispatch "b" 2 "w" 1].
Definition demo_report : report := Report false (Some (1 # 2)%Q) None false.
Definition demo_rest : list batch_op := [
  BClaim "x" "m" 2 2 10 [demo_candidate 2] 20 21;
  BComplete "b" 2 "w" 1 demo_report 22;
  BComplete "b" 2 "x" 2 demo_report 23].
Definition demo : list batch_op := demo_start ++ BComplete "b" 1 "w" 1 demo_report 8 :: demo_rest.

Definition demo_batch (s : batch_store) : batch :=
  default (insert_batch 0 "u" None false true [] None PRunnable Validating [] []) (batches s !! "b").

Lemma demo_lookup s : bool_decide (is_Some (batches s !! "b")) = true -> batches s !! "b" = Some (demo_batch s).
Proof. rewrite bool_decide_eq_true. unfold demo_batch. by intros [b ->]. Qed.

Lemma batch_books_balance_witness :
  (b_cost (demo_batch (batch_run demo)) == qsum (fun i => qsum try_cost (i_tries i)) (b_items (demo_batch (batch_run demo))))%Q /\
  b_unknown (demo_batch (batch_run demo)) = 1.
Proof.
  split; [|vm_compute; reflexivity]. assert (batches (batch_run demo) !! "b" = Some (demo_batch (batch_run demo))) as E
    by (apply demo_lookup; vm_compute; reflexivity).
  destruct (batch_books_balance demo "b" _ E) as (_ & _ & _ & _ & _ & _ & H & _). exact H.
Defined.

Lemma sealed_is_final_witness :
  b_phase (demo_batch (batch_run demo)) = PSealed /\
  b_request_count (demo_batch (batch_run demo)) =
    b_completed (demo_batch (batch_run demo)) + b_failed (demo_batch (batch_run demo)) + b_cancelled (demo_batch (batch_run demo)).
Proof.
  assert (b_phase (demo_batch (batch_run demo)) = PSealed) as Hp by (vm_compute; reflexivity). split; [exact Hp|].
  assert (batches (batch_run demo) !! "b" = Some (demo_batch (batch_run demo))) as E1
    by (apply demo_lookup; vm_compute; reflexivity).
  assert (batches (fold_left batch_step [BCancel "b" 30] (batch_run demo)) !! "b" =
    Some (demo_batch (fold_left batch_step [BCancel "b" 30] (batch_run demo)))) as E2
    by (apply demo_lookup; vm_compute; reflexivity).
  destruct (sealed_is_final demo [BCancel "b" 30] "b" _ _ E1 Hp ltac:(repeat constructor; discriminate) E2) as (_ & H & _).
  exact H.
Defined.

Definition demo_after : list batch_op := report_op "b" 8 1 "w" 1 (RComplete demo_report) :: demo_rest.
Lemma report_accepted_once_witness :
  complete_item 99 1 "w" 1 demo_report (demo_batch (fold_left batch_step demo_after (batch_run demo_start))) = None.
Proof.
  assert (batches (batch_run demo_start) !! "b" = Some (demo_batch (batch_run demo_start))) as E1
    by (apply demo_lookup; vm_compute; reflexivity).
  assert (report_item 8 1 "w" 1 (RComplete demo_report) (demo_batch (batch_run demo_start)) =
    Some (demo_batch (batch_step (batch_run demo_start) (report_op "b" 8 1 "w" 1 (RComplete demo_report))))) as E2
    by (vm_compute; reflexivity).
  assert (batches (fold_left batch_step demo_after (batch_run demo_start)) !! "b" =
    Some (demo_batch (fold_left batch_step demo_after (batch_run demo_start)))) as E3
    by (apply demo_lookup; vm_compute; reflexivity).
  destruct (report_accepted_once demo_start demo_rest "b" 8 1 "w" 1 (RComplete demo_report) _ _ _ E1 E2
    ltac:(repeat constructor; discriminate) E3) as (_ & _ & H).
  exact (proj1 (H 99 "w" (RComplete demo_report))).
Defined.

Lemma model_cap_respected_witness :
  live_count 7 "m" (batches (batch_run demo_start)) = 2 /\ live_count 7 "m" (batches (batch_run demo_start)) <= 2.
Proof.
  split; [vm_compute; reflexivity|].
  refine (model_cap_respected "m" 2 0 demo_start 7 _ _ _); [lia|cbn; split_and!; lia|vm_compute; discriminate].
Defined.
