(* ===== verification/BatchClaims.v ===== *)
(** Batch claims: which items [claim_items] of [serving/storage/batch_store.py] hands out.

    The candidate query orders the claimable items by the position each has among its
    user's, so that users take turns, whatever the number of their batches; the claim
    then takes all of them.  The definitions are those of [BatchStore]. *)

From S2P Require Import Prelude UsageLimit BatchStore.

Local Open Scope Z_scope.

(** ** The order of the candidates *)

Definition of_user (u : string) (l : list candidate) : list candidate := filter (fun c => c_user c = u) l.

Lemma number_snd l seen : (number l seen).*2 = l.
Proof. revert seen. induction l as [|c l IH]; intros seen; [done|]. simpl. by rewrite IH. Qed.

(** A user's items are numbered from one. *)
Lemma number_positions u l : forall seen,
  (filter (fun p => c_user p.2 = u) (number l seen)).*1 = seq (S (length (of_user u seen))) (length (of_user u l)).
Proof.
  induction l as [|c l IH]; intros seen; [done|]. cbn [number]. unfold of_user in *.
  rewrite !filter_cons. cbn [snd]. case_decide as Hu; [|rewrite IH, filter_cons, decide_False by done; done].
  cbn [fmap list_fmap fst length]. rewrite IH, filter_cons, decide_True by done. rewrite Hu. done.
Qed.

Lemma lex_opp a b c d : a = CompOpp b -> c = CompOpp d -> lex a c = CompOpp (lex b d).
Proof. intros -> ->. by destruct b. Qed.
Lemma nulls_first_opp a b : nulls_first a b = CompOpp (nulls_first b a).
Proof. destruct a, b; try done. simpl. apply Z.compare_antisym. Qed.

#[export] Instance users_order_total : Total users_order.
Proof.
  intros a b. unfold users_order. assert (cmp_users a b = CompOpp (cmp_users b a)) as ->.
  { unfold cmp_users. repeat apply lex_opp; auto using Nat.compare_antisym, nulls_first_opp, Z.compare_antisym, String.compare_antisym. }
  destruct (cmp_users b a); auto.
Qed.

Lemma users_order_pos a b : users_order a b -> (a.1 <= b.1)%nat.
Proof.
  unfold users_order, cmp_users. destruct (Nat.compare_spec a.1 b.1); simpl; [lia|lia|done].
Qed.

(** Candidates come by their position among their user's. *)
Lemma ranked_sorted now model room s :
  StronglySorted (fun a b => (a.1 <= b.1)%nat) (ranked_candidates now model room s).
Proof.
  apply Sorted_StronglySorted; [intros a b c; simpl; lia|].
  pose proof (Sorted_merge_sort users_order (number (merge_sort in_user_order (all_candidates now model room s)) [])) as H.
  fold (ranked_candidates now model room s) in H. induction H as [|x l Hl IH Hh]; constructor; [done|].
  destruct Hh; constructor. by apply users_order_pos.
Qed.

Lemma ranked_positions now model room s u :
  (filter (fun p => c_user p.2 = u) (ranked_candidates now model room s)).*1 ≡ₚ
    seq 1 (length (of_user u (all_candidates now model room s))).
Proof.
  unfold ranked_candidates. rewrite merge_sort_Permutation, number_positions. simpl.
  unfold of_user. by rewrite merge_sort_Permutation.
Qed.

Lemma ranked_all now model room s : (ranked_candidates now model room s).*2 ≡ₚ all_candidates now model room s.
Proof. unfold ranked_candidates. rewrite merge_sort_Permutation, number_snd. apply merge_sort_Permutation. Qed.

(** ** Turns *)

Section turns.
Context (r : list (nat * candidate)) (size_of : string -> nat).
Hypothesis Hsorted : StronglySorted (fun a b => (a.1 <= b.1)%nat) r.
Hypothesis Hpos : forall u, (filter (fun p => c_user p.2 = u) r).*1 ≡ₚ seq 1 (size_of u).

Let mine (u : string) (l : list (nat * candidate)) : list nat := (filter (fun p => c_user p.2 = u) l).*1.

Lemma mine_split u k : mine u (take k r) ++ mine u (drop k r) ≡ₚ seq 1 (size_of u).
Proof. unfold mine. rewrite <- fmap_app, <- filter_app, take_drop. apply Hpos. Qed.

Lemma mine_elem u l n : n ∈ mine u l <-> exists c, c_user c = u /\ (n, c) ∈ l.
Proof.
  unfold mine. rewrite list_elem_of_fmap. split.
  - intros ([m c] & -> & H). apply list_elem_of_filter in H as [H1 H2]. by exists c.
  - intros (c & H1 & H2). exists (n, c). split; [done|]. by apply list_elem_of_filter.
Qed.

(** Some user's item is left: its position is at most one past the number served. *)
Lemma left_over u k : mine u (drop k r) <> [] ->
  exists n, n ∈ mine u (drop k r) /\ (n <= S (length (mine u (take k r))))%nat.
Proof.
  intros Hne. pose proof (mine_split u k) as Hs. set (T := mine u (take k r)) in *. set (D := mine u (drop k r)) in *.
  assert (length T + length D = size_of u)%nat as Hlen by (rewrite <- length_app, Hs; apply length_seq).
  destruct (decide (Exists (fun n => (n <= S (length T))%nat) D)) as [He|He].
  { apply Exists_exists in He as (n & ? & ?). by exists n. }
  exfalso. apply not_Exists_Forall in He; [|apply _]. rewrite Forall_forall in He.
  assert (seq 1 (S (length T)) ⊆+ T) as Hsub.
  { apply NoDup_submseteq; [apply NoDup_seq|]. intros n Hn. apply elem_of_seq in Hn.
    assert (n ∈ T ++ D) as Hin.
    { rewrite Hs. apply elem_of_seq. destruct D; [done|]. simpl in Hlen. lia. }
    apply elem_of_app in Hin as [|Hin]; [done|]. specialize (He n Hin). simpl in He. lia. }
  apply submseteq_length in Hsub. rewrite length_seq in Hsub. lia.
Qed.

(** Then no user got more than one item more. *)
Lemma turns_taken u v k : mine u (drop k r) <> [] -> (length (mine v (take k r)) <= S (length (mine u (take k r))))%nat.
Proof.
  intros Hne. destruct (left_over u k Hne) as (n & Hn & Hle). apply mine_elem in Hn as (c & _ & Hc).
  assert (NoDup (mine v (take k r))) as Hnd.
  { eapply (sublist_NoDup _ (mine v (take k r) ++ mine v (drop k r))); [rewrite (mine_split v k); apply NoDup_seq|].
    apply sublist_inserts_r. done. }
  assert (mine v (take k r) ⊆+ seq 1 n) as Hsub.
  { apply NoDup_submseteq; [done|]. intros m Hm. apply elem_of_seq.
    assert (m ∈ mine v (take k r) ++ mine v (drop k r)) as Hin by (apply elem_of_app; by left).
    rewrite (mine_split v k), elem_of_seq in Hin. apply mine_elem in Hm as (d & _ & Hd).
    rewrite <- (take_drop k r) in Hsorted. pose proof (StronglySorted_app_1_elem_of _ _ _ _ _ Hsorted Hd Hc) as H.
    simpl in H. lia. }
  apply submseteq_length in Hsub. rewrite length_seq in Hsub. lia.
Qed.
End turns.

(** ** Candidates *)

Lemma candidate_of now model room seqs bid b c :
  c ∈ batch_candidates now model room seqs bid b ->
  claimable_job now b = true /\ c_batch c = bid /\ c_user c = b_user b /\
  exists i, b_items b !! c_id c = Some i /\ claimable_item now i = true /\ i_model i = model.
Proof.
  unfold batch_candidates. destruct (claimable_job now b) eqn:Hj; [|by intros ?%elem_of_nil].
  case_bool_decide; [|by intros ?%elem_of_nil]. cbn [andb]. rewrite list_elem_of_lookup. intros (k & Hk).
  rewrite list_lookup_imap in Hk. destruct (take _ _ !! k) as [[id i]|] eqn:E; [|done]. injection Hk as <-. simpl.
  apply lookup_take_Some in E as [E _]. apply list_elem_of_lookup_2 in E.
  apply list_elem_of_filter in E as [Hc Hin]. apply andb_true_iff in Hc as [Hc Hm].
  apply bool_decide_eq_true in Hm. unfold items_by_id in Hin. rewrite merge_sort_Permutation in Hin.
  apply elem_of_map_to_list in Hin. split_and!; [done|done|done|]. by exists i.
Qed.

Definition key (c : candidate) : string * Z := (c_batch c, c_id c).

Lemma batch_candidates_ids now model room seqs bid b :
  NoDup (c_id <$> batch_candidates now model room seqs bid b).
Proof.
  unfold batch_candidates. case_match; [|constructor]. rewrite fmap_imap.
  rewrite (imap_ext _ (const fst)) by done. rewrite imap_const.
  eapply (sublist_NoDup _ (items_by_id (b_items b)).*1).
  - unfold items_by_id. rewrite merge_sort_Permutation. apply NoDup_fst_map_to_list.
  - apply fmap_sublist. etrans; [apply sublist_take|apply sublist_filter].
Qed.

(** A batch's candidates are its claimable items of the model, or as many as there is room for. *)
Lemma batch_candidates_all now model room seqs bid b id i :
  claimable_job now b = true -> model ∈ b_models b -> b_items b !! id = Some i -> claimable_item now i = true ->
  i_model i = model ->
  id ∈ c_id <$> batch_candidates now model room seqs bid b \/
  length (batch_candidates now model room seqs bid b) = room.
Proof.
  intros Hj Hmo Hi Hc Hm. unfold batch_candidates. rewrite Hj, bool_decide_eq_true_2 by done. cbn [andb].
  set (l := filter _ _). rewrite fmap_imap, (imap_ext _ (const fst)), imap_const, length_imap by done.
  destruct (decide (room <= length l)%nat); [right; rewrite length_take; lia|left].
  rewrite take_ge by lia. apply list_elem_of_fmap. exists (id, i). split; [done|]. apply list_elem_of_filter. split.
  - simpl. by rewrite Hc, bool_decide_eq_true_2.
  - unfold items_by_id. rewrite merge_sort_Permutation. by apply elem_of_map_to_list.
Qed.

Lemma all_candidates_of now model room s c :
  c ∈ all_candidates now model room s ->
  exists b i, batches s !! c_batch c = Some b /\ claimable_job now b = true /\ c_user c = b_user b /\
    b_items b !! c_id c = Some i /\ claimable_item now i = true /\ i_model i = model.
Proof.
  unfold all_candidates. rewrite list_elem_of_bind. intros ([bid b] & Hc & Hb). apply elem_of_map_to_list in Hb.
  apply candidate_of in Hc as (H1 & H2 & H3 & i & H4 & H5 & H6). simpl in *. exists b, i. rewrite H2. done.
Qed.

Lemma fmap_bind_list {A B C} (g : B -> C) (f : A -> list B) (l : list A) : g <$> (l ≫= f) = l ≫= fun x => g <$> f x.
Proof. induction l as [|x l IH]; [done|]. rewrite !bind_cons, fmap_app. by rewrite IH. Qed.

Lemma NoDup_all_keys now model room s : NoDup (key <$> all_candidates now model room s).
Proof.
  unfold all_candidates. rewrite fmap_bind_list. apply NoDup_bind.
  - intros [b1 x1] [b2 x2] k Hb1 Hb2 H1 H2. apply list_elem_of_fmap in H1 as (c1 & -> & H1), H2 as (c2 & E & H2).
    apply candidate_of in H1 as (_ & E1 & _), H2 as (_ & E2 & _). simpl in *. injection E as E _.
    apply elem_of_map_to_list in Hb1, Hb2. assert (b1 = b2) by congruence. subst. congruence.
  - intros [bid b] _. eapply (NoDup_fmap_1 snd). rewrite <- list_fmap_compose. apply batch_candidates_ids.
  - apply NoDup_map_to_list.
Qed.

(** ** What is claimed *)

Definition ready (now : datetime_us) (model : string) (m : gmap string batch) (c : candidate) : Prop :=
  exists b i, m !! c_batch c = Some b /\ claimable_job now b = true /\
    b_items b !! c_id c = Some i /\ claimable_item now i = true /\ i_model i = model.

Lemma claim_ready now l w model c m : ready now model m c ->
  exists b b', m !! c_batch c = Some b /\ claimable_job now b = true /\
    claim_item now l w model (c_id c) b = Some b' /\ claimable_job now b' = true /\
    forall k, k <> c_id c -> b_items b' !! k = b_items b !! k.
Proof.
  intros (b & i & Hb & Hj & Hi & Hc & Hm). unfold claim_item.
  exists b. rewrite Hi, Hj. cbn [mbind option_bind]. rewrite Hc, bool_decide_eq_true_2 by done. cbn [andb].
  destruct (if lease_over now i then _ else _) as [j lost]. eexists.
  split_and!; [done|done|done|exact Hj|]. intros k Hk. simpl. by rewrite lookup_insert_ne.
Qed.

(** Every candidate still claimable is claimed. *)
Lemma claim_each_all now l w model cands : forall m,
  Forall (ready now model m) cands -> NoDup (key <$> cands) -> (claim_each now l w model cands m).2 = cands.
Proof.
  induction cands as [|c cands IH]; intros m Hr Hnd; [done|]. cbn [claim_each].
  apply Forall_cons in Hr as [Hc Hr]. apply NoDup_cons in Hnd as [Hk Hnd].
  destruct (claim_ready now l w model c m Hc) as (b & b' & Hb & Hj & Hcl & Hj' & Hsame).
  rewrite Hb. cbn [mbind option_bind]. rewrite Hj, Hcl.
  specialize (IH (<[c_batch c := b']> m)). destruct (claim_each _ _ _ _ _ _) as [m' served]. simpl in *. f_equal.
  apply IH; [|done]. apply Forall_forall. intros d Hd. rewrite Forall_forall in Hr.
  destruct (Hr d Hd) as (b0 & i & Hb0 & Hj0 & Hi & Hci & Hmi). unfold ready. rewrite lookup_insert.
  case_decide as He; [|by exists b0, i]. exists b', i. split_and!; try done. rewrite Hsame; [congruence|].
  intros Heq. apply Hk, list_elem_of_fmap. exists d. split; [|done]. unfold key. congruence.
Qed.

Lemma taken_ready now model room k s :
  Forall (ready now model (batches s)) (take k (ranked_candidates now model room s).*2) /\
  NoDup (key <$> take k (ranked_candidates now model room s).*2).
Proof.
  split.
  - apply Forall_take, Forall_forall. intros c Hc. rewrite ranked_all in Hc.
    apply all_candidates_of in Hc as (b & i & H1 & H2 & _ & H4 & H5 & H6). by exists b, i.
  - eapply (sublist_NoDup _ (key <$> (ranked_candidates now model room s).*2)).
    + rewrite ranked_all. apply NoDup_all_keys.
    + apply fmap_sublist, sublist_take.
Qed.

(** The free slots of a model, as a claim counts them. *)
Definition room_for (now : datetime_us) (model : string) (limit max_running : Z) (s : batch_store) : Z :=
  Z.min limit (max_running - live_count now model (batches s)).

Lemma claim_items_served now l w model limit mr s :
  0 < room_for now model limit mr s -> 0 < mr ->
  (claim_items now l w model limit mr s).2 = claim_candidates now model (Z.to_nat (room_for now model limit mr s)) s.
Proof.
  intros Hr Hmr. unfold claim_items, claim_from, room_for in *. set (room := Z.min limit _) in *.
  rewrite !bool_decide_eq_false_2 by lia. cbn [orb]. unfold claim_candidates.
  rewrite take_take, Nat.min_id.
  destruct (taken_ready now model (Z.to_nat room) (Z.to_nat room) s) as [H1 H2].
  pose proof (claim_each_all now l w model _ _ H1 H2) as E. by destruct (claim_each _ _ _ _ _ _).
Qed.

Lemma mine_users u (l : list (nat * candidate)) :
  length (filter (fun p => c_user p.2 = u) l).*1 = length (of_user u l.*2).
Proof.
  unfold of_user. induction l as [|p l IH]; [done|]. rewrite fmap_cons, !filter_cons.
  case_decide; cbn [fmap list_fmap length]; [f_equal|]; exact IH.
Qed.

Lemma filter_submset {A} (P : A -> Prop) {HP : forall x, Decision (P x)} (l k : list A) : l ⊆+ k -> filter P l ⊆+ filter P k.
Proof. intros H. apply submseteq_Permutation in H as (l' & ->). rewrite filter_app. by apply submseteq_inserts_r. Qed.

(** Some claimable item passed over: its user's turn did not come before the room was full. *)
Lemma passed_over now model room s bid b id i :
  batches s !! bid = Some b -> claimable_job now b = true -> model ∈ b_models b ->
  b_items b !! id = Some i -> claimable_item now i = true -> i_model i = model ->
  (bid, id) ∉ key <$> claim_candidates now model room s ->
  length (claim_candidates now model room s) = room /\
  ((exists c, c ∈ drop room (ranked_candidates now model room s).*2 /\ c_user c = b_user b) \/
   (length (of_user (b_user b) (claim_candidates now model room s)) = room)).
Proof.
  intros Hb Hj Hmo Hi Hc Hm Hnot. set (r := (ranked_candidates now model room s).*2) in *.
  assert (batch_candidates now model room (user_seq s) bid b ⊆+ r) as Hsub.
  { unfold r. rewrite ranked_all. unfold all_candidates. apply elem_of_map_to_list in Hb.
    apply list_elem_of_split in Hb as (l1 & l2 & E). rewrite E, bind_app, bind_cons. simpl.
    apply submseteq_inserts_l, submseteq_inserts_r. done. }
  change (claim_candidates now model room s) with (take room r) in *.
  destruct (batch_candidates_all now model room (user_seq s) bid b id i Hj Hmo Hi Hc Hm) as [Hin|Hlen].
  - apply list_elem_of_fmap in Hin as (c & -> & Hin). pose proof (candidate_of _ _ _ _ _ _ _ Hin) as (_ & Ebid & Eu & _).
    assert (c ∈ drop room r) as Hd.
    { assert (c ∈ r) as Hcr by (by eapply elem_of_submseteq). rewrite <- (take_drop room r), elem_of_app in Hcr.
      destruct Hcr as [Ht|]; [|done]. destruct Hnot. apply list_elem_of_fmap. exists c. split; [|done].
      unfold key. by rewrite Ebid. }
    split; [|left; by exists c]. rewrite length_take. apply list_elem_of_lookup in Hd as (k & Hk).
    rewrite lookup_drop in Hk. apply lookup_lt_Some in Hk. lia.
  - pose proof (submseteq_length _ _ Hsub) as Hle. split; [rewrite length_take; lia|].
    destruct (decide (Exists (fun c => c_user c = b_user b) (drop room r))) as [He|He].
    { left. apply Exists_exists in He as (c & ? & ?). by exists c. }
    right. apply Nat.le_antisymm.
    + transitivity (length (take room r)); [apply sublist_length, sublist_filter|rewrite length_take; lia].
    + rewrite <- Hlen at 1. assert (of_user (b_user b) r = of_user (b_user b) (take room r)) as <-.
      { unfold of_user. rewrite <- (take_drop room r) at 1. rewrite filter_app.
        rewrite (filter_none _ (drop room r)); [by rewrite app_nil_r|]. intros c Hc1 Hc2. apply He, Exists_exists. by exists c. }
      apply submseteq_length. transitivity (of_user (b_user b) (batch_candidates now model room (user_seq s) bid b)).
      * unfold of_user. rewrite (filter_every _ (batch_candidates _ _ _ _ _ _)); [done|].
        intros c Hc1. by apply candidate_of in Hc1 as (_ & _ & ? & _).
      * unfold of_user. by apply filter_submset.
Qed.

(** C31: a claim between whose candidate query and locks nothing is committed passes over
    a claimable item only when it has filled its room, the smaller of what the worker asked
    for and what the model's cap leaves free, and then it has given no user more than one
    item more than the owner of that item: users take turns, however many batches they split
    their work into. *)
Theorem claim_fair (s : batch_store) (now lease_us : Z) (worker model : string) (limit max_running : Z)
    (bid : string) (b : batch) (id : Z) (i : item) :
  batches s !! bid = Some b -> claimable_job now b = true -> model ∈ b_models b ->
  b_items b !! id = Some i -> claimable_item now i = true -> i_model i = model ->
  let served := (claim_items now lease_us worker model limit max_running s).2 in
  (bid, id) ∉ key <$> served ->
  Z.of_nat (length served) = Z.max 0 (room_for now model limit max_running s) /\
  forall user, (length (of_user user served) <= S (length (of_user (b_user b) served)))%nat.
Proof.
  intros Hb Hj Hmo Hi Hc Hm served Hnot. unfold served in *. set (room := room_for now model limit max_running s).
  assert (0 <= live_count now model (batches s)) as Hlive by (apply zsum_nonneg; intros; apply live_nonneg).
  destruct (decide (0 < room)) as [Hr|Hr].
  2:{ unfold claim_items, claim_from. change (Z.min limit _) with room. rewrite (bool_decide_eq_true_2 (room <= 0)) by lia.
      rewrite orb_true_r. simpl. split; [lia|]. intros; lia. }
  rewrite claim_items_served in * by (unfold room, room_for in *; lia). fold room in Hnot |- *.
  destruct (passed_over now model (Z.to_nat room) s bid b id i Hb Hj Hmo Hi Hc Hm Hnot) as [Hlen Hcase].
  split; [lia|]. intros user. destruct Hcase as [(c & Hin & Hu)|Hall].
  - unfold claim_candidates. rewrite <- fmap_take, <- !mine_users. rewrite <- fmap_drop in Hin.
    apply (turns_taken (ranked_candidates now model (Z.to_nat room) s)
      (fun u => length (of_user u (all_candidates now model (Z.to_nat room) s)))).
    + apply ranked_sorted.
    + intros u. apply ranked_positions.
    + apply list_elem_of_fmap in Hin as ([n c'] & -> & Hin). intros Hnil.
      apply (f_equal length) in Hnil. rewrite length_fmap in Hnil. apply nil_length_inv in Hnil.
      apply (filter_nil_not_elem_of _ _ (n, c') Hnil); done.
  - transitivity (length (claim_candidates now model (Z.to_nat room) s)); [apply sublist_length, sublist_filter|].
    rewrite Hall, Hlen. lia.
Qed.

Definition fair_ops : list batch_op := [
  BInsert "a1" "alice" None false true ["m"] None PRunnable Validating [(1, "m"); (2, "m")] [] 0;
  BInsert "a2" "alice" None false true ["m"] None PRunnable Validating [(3, "m"); (4, "m")] [] 1;
  BInsert "b1" "bob" None false true ["m"] None PRunnable Validating [(5, "m"); (6, "m")] [] 2].

(** Four slots, six items, three batches: two for each user. *)
Lemma claim_fair_witness :
  let served := (claim_items 5 10 "w" "m" 4 4 (batch_run fair_ops)).2 in
  key <$> served = [("a1", 1); ("b1", 5); ("a2", 3); ("b1", 6)] /\
  (length (of_user "bob" served) <= S (length (of_user "alice" served)))%nat.
Proof.
  assert (key <$> (claim_items 5 10 "w" "m" 4 4 (batch_run fair_ops)).2 = [("a1", 1); ("b1", 5); ("a2", 3); ("b1", 6)]) as E
    by (vm_compute; reflexivity).
  split; [exact E|].
  destruct (batches (batch_run fair_ops) !! "a1") as [b|] eqn:Hb; [|vm_compute in Hb; discriminate].
  pose proof Hb as Hv. vm_compute in Hv. injection Hv as <-.
  refine (proj2 (claim_fair (batch_run fair_ops) 5 10 "w" "m" 4 4 "a1" _ 2 (new_item "m") Hb _ _ _ _ _ _) "bob");
    [vm_compute; reflexivity|left|vm_compute; reflexivity|vm_compute; reflexivity|reflexivity|].
  rewrite E. rewrite !not_elem_of_cons. split_and!; [discriminate..|]. apply not_elem_of_nil.
Defined.
