(* ===== verification/BatchDisplay.v ===== *)
(** Batch display: the status and the category a batch is shown with,
    [serving/batch/renderers.py], and the SQL that filters by them,
    [display_status_sql] and [display_category_sql] of [serving/storage/batch_store.py].

    The columns are NOT NULL except [pending_terminal_status]; a comparison with NULL is
    not true. *)

From S2P Require Import Prelude UsageLimit BatchStore.

Local Open Scope Z_scope.

(** The statuses shown: a batch's own, and one more while its files are sealed. *)
Inductive shown : Type := Shows (s : batch_status) | Finalizing.
#[export] Instance shown_eq : EqDecision shown.
Proof. solve_decision. Defined.

Inductive category : Type := CProcessing | CCompleted | CIssues | CCancelled.
#[export] Instance category_eq : EqDecision category.
Proof. solve_decision. Defined.

(** ** Python *)

Definition display_status (b : batch) : shown :=
  let status := b_status b in
  if negb (b_file b) then Shows status
  else if decide (b_phase b = PValidating)
  then (if decide (status = Cancelling) then Shows Cancelling else Shows Validating)
  else if decide (b_phase b = PSealing)
  then (if decide (b_pending b = Some Cancelled) then Shows Cancelling else Finalizing)
  else if decide (b_phase b = PSealed) then Shows status
  else if decide (status ∈ [BExpired; BFailed]) then Shows InProgress
  else Shows status.

Definition PROCESSING_STATUSES : list shown := [Shows Validating; Shows InProgress; Finalizing; Shows Cancelling].

Definition display_category (b : batch) : category :=
  let status := display_status b in
  if decide (status ∈ PROCESSING_STATUSES) then CProcessing
  else if decide (status = Shows Cancelled) then CCancelled
  else if decide (status = Shows Completed) then
    let unsuccessful := b_failed b + b_cancelled b in
    if decide (unsuccessful = 0 /\ b_completed b >= b_request_count b) then CCompleted else CIssues
  else CIssues.

(** ** SQL *)

(** [CASE WHEN ... THEN ... ELSE ... END]: the first condition that is true; [None] is
    the truth value NULL. *)
Fixpoint sql_case {A} (whens : list (option bool * A)) (els : A) : A :=
  match whens with
  | [] => els
  | (Some true, a) :: _ => a
  | _ :: whens => sql_case whens els
  end.
(** [a = b], [a IN (...)] and [a AND b] in SQL, where NULL is unknown. *)
Definition sql_eq {A} `{EqDecision A} (a b : option A) : option bool :=
  match a, b with Some a, Some b => Some (bool_decide (a = b)) | _, _ => None end.
Definition sql_or (a b : option bool) : option bool :=
  match a, b with
  | Some true, _ | _, Some true => Some true
  | Some false, Some false => Some false
  | _, _ => None
  end.
Definition sql_in {A} `{EqDecision A} (a : option A) (l : list A) : option bool :=
  foldr (fun x r => sql_or (sql_eq a (Some x)) r) (Some false) l.
Definition sql_and (a b : option bool) : option bool :=
  match a, b with
  | Some false, _ | _, Some false => Some false
  | Some true, Some true => Some true
  | _, _ => None
  end.

Definition display_status_sql (b : batch) : shown :=
  sql_case [
    (Some (negb (b_file b)), Shows (b_status b));
    (sql_eq (Some (b_phase b)) (Some PValidating),
     sql_case [(sql_eq (Some (b_status b)) (Some Cancelling), Shows Cancelling)] (Shows Validating));
    (sql_eq (Some (b_phase b)) (Some PSealing),
     sql_case [(sql_eq (b_pending b) (Some Cancelled), Shows Cancelling)] Finalizing);
    (sql_eq (Some (b_phase b)) (Some PSealed), Shows (b_status b));
    (sql_in (Some (b_status b)) [BExpired; BFailed], Shows InProgress)
  ] (Shows (b_status b)).

Definition display_category_sql (b : batch) : category :=
  let status := Some (display_status_sql b) in
  sql_case [
    (sql_in status [Shows Validating; Shows InProgress; Finalizing; Shows Cancelling], CProcessing);
    (sql_eq status (Some (Shows Cancelled)), CCancelled);
    (sql_and (sql_eq status (Some (Shows Completed)))
       (sql_and (Some (bool_decide (b_failed b = 0))) (sql_and (Some (bool_decide (b_cancelled b = 0)))
          (Some (bool_decide (b_completed b >= b_request_count b))))), CCompleted)
  ] CIssues.

(** ** The two rules *)

Lemma sql_in_some {A} `{EqDecision A} (a : A) l : sql_in (Some a) l = Some (bool_decide (a ∈ l)).
Proof.
  induction l as [|x l IH].
  { reflexivity. }
  change (sql_in (Some a) (x :: l)) with (sql_or (sql_eq (Some a) (Some x)) (sql_in (Some a) l)).
  rewrite IH. cbn [sql_eq]. rewrite (bool_decide_ext (a ∈ x :: l) (a = x \/ a ∈ l)) by apply elem_of_cons.
  rewrite bool_decide_or. by destruct (bool_decide (a = x)), (bool_decide (a ∈ l)).
Qed.

Lemma display_status_twin b : display_status_sql b = display_status b.
Proof.
  unfold display_status_sql, display_status. rewrite sql_in_some.
  destruct (b_file b), (b_phase b), (b_status b), (b_pending b) as [[]|]; reflexivity.
Qed.

Lemma counts_nonneg b : books_ok b -> 0 <= b_failed b /\ 0 <= b_cancelled b.
Proof.
  intros H. rewrite (bk_failed _ H), (bk_cancelled _ H).
  split; apply zsum_nonneg; intros; apply one_if_nonneg.
Qed.

Lemma display_category_twin b : books_ok b -> display_category_sql b = display_category b.
Proof.
  intros Hb. destruct (counts_nonneg b Hb) as [Hf Hc]. unfold display_category_sql, display_category.
  rewrite display_status_twin. destruct (display_status b) as [[]|]; try reflexivity.
  cbn [sql_in sql_case sql_or sql_eq foldr]. simpl. repeat case_bool_decide; try case_decide; try done; simpl in *; lia.
Qed.

Lemma shown_completed b : display_status b = Shows Completed -> b_status b = Completed.
Proof. unfold display_status. destruct (b_file b), (b_phase b), (b_status b), (b_pending b) as [[]|]; done. Qed.

(** An item of a batch whose counter of [f] is zero. *)
Lemma zero_count (f : item -> Z) (m : gmap Z item) id i :
  (forall j, 0 <= f j) -> zsum f m = 0 -> m !! id = Some i -> f i = 0.
Proof.
  intros Hf Hz Hi. assert (f i <= zsum f m) by (apply (zsum_one f m id i); [intros; apply Hf|done]).
  specialize (Hf i). lia.
Qed.

(** When a batch is shown completed, no failure and no cancellation means every request
    succeeded. *)
Lemma all_succeeded b : batch_ok b -> b_status b = Completed ->
  (b_failed b + b_cancelled b = 0 /\ b_completed b >= b_request_count b) <->
  (forall id i, b_items b !! id = Some i -> i_status i = ICompleted).
Proof.
  intros [Hb Hp] Hs. assert (zsum (fun i => one_if (is_open i)) (b_items b) = 0) as Ho.
  { apply (ph_fixed _ Hp). destruct (b_phase b) eqn:E; auto;
      destruct (ph_open _ Hp) as [H _]; rewrite ?E; auto; congruence. }
  destruct (counts_nonneg b Hb) as [Hf Hc]. split.
  - intros [Hz _] id i Hi.
    assert (failed_of i = 0) as F by (eapply (zero_count _ _ id); [intros; apply one_if_nonneg| |done]; rewrite <- (bk_failed _ Hb); lia).
    assert (cancelled_of i = 0) as C by (eapply (zero_count _ _ id); [intros; apply one_if_nonneg| |done]; rewrite <- (bk_cancelled _ Hb); lia).
    assert (one_if (is_open i) = 0) as O by (eapply (zero_count (fun i => one_if (is_open i)) _ id); [intros; apply one_if_nonneg|done|done]).
    unfold failed_of, cancelled_of, is_open in *. by destruct (i_status i).
  - intros Hall. pose proof (counts_total b Hb Ho) as Ht. rewrite Ht, (bk_failed _ Hb), (bk_cancelled _ Hb).
    rewrite (zsum_zero failed_of), (zsum_zero cancelled_of); [lia|..]; intros id i Hi;
      unfold failed_of, cancelled_of; by rewrite (Hall _ _ Hi).
Qed.

(** filtering batches by status or by category in SQL selects exactly the
    batches the API shows with it, and a batch is in the category "completed" exactly when
    it is shown completed and every one of its requests succeeded.  (The category's two
    rules agree because a batch's counters are never negative.) *)
Theorem display_agrees (l : list batch_op) (bid : string) (b : batch) :
  batches (batch_run l) !! bid = Some b ->
  display_status_sql b = display_status b /\
  display_category_sql b = display_category b /\
  (display_category b = CCompleted <->
   display_status b = Shows Completed /\ forall id i, b_items b !! id = Some i -> i_status i = ICompleted).
Proof.
  intros Hb. pose proof (batch_run_ok l _ _ Hb) as Hok.
  split_and!; [apply display_status_twin|apply display_category_twin, Hok|].
  split.
  - intros Hcat. assert (display_status b = Shows Completed) as Hs.
    { unfold display_category in Hcat. repeat case_decide; done. }
    split; [done|]. apply (all_succeeded b Hok (shown_completed b Hs)). unfold display_category in Hcat.
    rewrite Hs in Hcat. simpl in Hcat. by case_decide.
  - intros [Hs Hall]. unfold display_category. rewrite Hs. simpl.
    apply (all_succeeded b Hok (shown_completed b Hs)) in Hall. by case_decide.
Qed.

(** A file batch with one request: shown in progress, then completed once it is sealed. *)
Definition display_ops : list batch_op := [
  BInsert "b" "u" None true true ["m"] None PRunnable InProgress [(1, "m")] [] 0;
  BClaim "w" "m" 1 1 10 [demo_candidate 1] 5 6;
  BComplete "b" 1 "w" 1 demo_report 8;
  BWork "b" PSealing "s" 9 60; BSeal "b" "s" 1].

Lemma display_agrees_witness :
  display_status (demo_batch (batch_run (take 3 display_ops))) = Finalizing /\
  display_category (demo_batch (batch_run display_ops)) = CCompleted /\
  display_category_sql (demo_batch (batch_run display_ops)) = display_category (demo_batch (batch_run display_ops)).
Proof.
  split; [vm_compute; reflexivity|]. split; [vm_compute; reflexivity|].
  assert (batches (batch_run display_ops) !! "b" = Some (demo_batch (batch_run display_ops))) as E
    by (apply demo_lookup; vm_compute; reflexivity).
  destruct (display_agrees display_ops "b" _ E) as (_ & H & _). exact H.
Defined.
