(* ===== verification/BatchWorker.v ===== *)
(** Batch worker: what one gateway process does with a claimed item,
    [serving/batch/scheduler.py].

    A worker's call of the store is one transaction of [BatchStore].  Around every call
    the rest of the deployment may do anything to the store; the call may answer, or raise
    with its transaction committed or not, or the task may be cancelled there.  [oracle]
    gives all of that per call, in order.  Authentication, the owner's slot, the spend
    check and the dispatch are answers of other components and come with the attempt.
    Durations are in seconds where the code has floats and in microseconds once they are
    a [timedelta]. *)

From S2P Require Import Prelude UsageLimit BatchStore.

Local Open Scope Z_scope.

(** ** Cooling models down *)

(** [SchedulerTimings]; the seconds that only become a [timedelta] are microseconds. *)
Record timings : Type := Timings {
  max_attempts : Z;
  backoff_base_seconds : Q;
  backoff_cap_seconds : Q;
  cooldown_failures : Z;
  cooldown_seconds : Q;
  slot_retry : timedelta_us;
  owner_retry : timedelta_us;
  role_pause : timedelta_us;
  budget_recheck : timedelta_us;
  record_retries : nat              (* len(record_retry_seconds) *)
}.

Definition QUEUED_GAP_SECONDS : Q := 3600.

(** The worker's counters of its models. *)
Record model_book : Type := ModelBook {
  failure_streak : gmap string Z;
  cooldown_until : gmap string Q;
  queued_since : gmap string Q;
  queued_last : gmap string Q;
  queued_alerted : gset string
}.
#[export] Instance eta_model_book : Eta model_book := fun m =>
  ModelBook (failure_streak m) (cooldown_until m) (queued_since m) (queued_last m) (queued_alerted m).

(** [_cooling_down] *)
Definition _cooling_down (model : string) (now : Q) (m : model_book) : model_book * bool :=
  match cooldown_until m !! model with
  | None => (m, false)
  | Some until =>
      if decide (now < until)%Q then (m, true)
      else (m <| cooldown_until := delete model (cooldown_until m) |>, false)
  end.

(** [_model_failed] *)
Definition _model_failed (t : timings) (model : string) (clock : Q) (m : model_book) : model_book :=
  let streak := default 0 (failure_streak m !! model) + 1 in
  if decide (streak < cooldown_failures t) then m <| failure_streak := <[model := streak]> (failure_streak m) |>
  else m <| failure_streak := delete model (failure_streak m) |>
         <| cooldown_until := <[model := (clock + cooldown_seconds t)%Q]> (cooldown_until m) |>.

(** [_hold_model] *)
Definition _hold_model (model : string) (seconds clock : Q) (m : model_book) : model_book :=
  let until := (clock + seconds)%Q in
  if decide (until <= default 0 (cooldown_until m !! model))%Q then m
  else m <| cooldown_until := <[model := until]> (cooldown_until m) |>.

(** [_model_succeeded], with whether the wait's alert is resolved. *)
Definition _model_succeeded (model : string) (m : model_book) : model_book * bool :=
  (m <| failure_streak := delete model (failure_streak m) |> <| queued_since := delete model (queued_since m) |>
     <| queued_last := delete model (queued_last m) |> <| queued_alerted := queued_alerted m ∖ {[model]} |>,
   bool_decide (model ∈ queued_alerted m)).

(** [_note_queued], with whether the wait is alerted now. *)
Definition _note_queued (model : string) (alert_hours : Z) (now : Q) (m : model_book) : model_book * bool :=
  let fresh := match queued_last m !! model with
               | None => true
               | Some last => bool_decide (QUEUED_GAP_SECONDS < now - last)%Q
               end in
  let m := if fresh then m <| queued_since := <[model := now]> (queued_since m) |> else m in
  let m := m <| queued_last := <[model := now]> (queued_last m) |> in
  let waited := (now - default now (queued_since m !! model))%Q in
  if bool_decide (alert_hours <= 0) || bool_decide (waited < inject_Z (alert_hours * 3600))%Q
     || bool_decide (model ∈ queued_alerted m)
  then (m, false)
  else (m <| queued_alerted := {[model]} ∪ queued_alerted m |>, true).

(** [_backoff]; [jitter] in [0, 1] is [random.uniform(0, c) / c]. *)
Definition backoff_ceiling (t : timings) (attempt : Z) : Q :=
  py_min (backoff_cap_seconds t)
    (backoff_base_seconds t * inject_Z (2 ^ Z.min (Z.max (attempt - 1) 0) 32))%Q.
Definition _backoff (t : timings) (jitter : Q) (attempt : Z) : Q :=
  let ceiling := backoff_ceiling t attempt in
  (ceiling / 2 + jitter * (ceiling / 2))%Q.

(** ** The cap of a claim *)

(** [_top_up]: the [limit] and the [max_running] of the claim, if there is room. *)
Definition top_up_room (cap_of_model interactive reserve running : Z) (yield_to_interactive : bool) : option (Z * Z) :=
  let cap := if yield_to_interactive then cap_of_model - interactive - reserve else cap_of_model in
  let room := cap - running in
  if decide (room <= 0) then None else Some (room, cap).

(** ** Calls *)

(** How a call of the store ends: with its answer, or by an exception, a cancellation or
    not, its transaction committed or not. *)
Inductive fate : Type := Answered | Broken (committed cancelled : bool).

Record tick : Type := Tick {
  t_others : list batch_op;      (* what the rest of the deployment did before *)
  t_fate : fate;
  t_db : datetime_us;            (* the transaction's now() *)
  t_wall : datetime_us;          (* datetime.now(UTC) of the caller *)
  t_clock : Q                    (* time.monotonic() of the caller *)
}.

(** The entry of a claimed item ([_InFlight]) with its place in the store. *)
Record claim : Type := Claim {
  cl_batch : string;
  cl_item : Z;
  cl_attempt : Z;
  cl_attempts : Z;
  cl_model : string;
  cl_owner : string;
  cl_key : option string;
  cl_expires : option datetime_us
}.

Inductive stopped : Type := Exn | CancelledError.
#[export] Instance stopped_eq : EqDecision stopped.
Proof. solve_decision. Defined.

(** The state a running item sees: the store, how many calls were made, the owner's slot
    and the reservation it holds, its entry's flags, the models' counters, and the
    transactions it sent. *)
Record work : Type := Work {
  w_store : batch_store;
  w_tick : nat;
  w_slots : Z;
  w_reserved : Z;
  w_settled : bool;
  w_dispatched : bool;
  w_models : model_book;
  w_sent : list batch_op
}.
#[export] Instance eta_work : Eta work := fun w =>
  Work (w_store w) (w_tick w) (w_slots w) (w_reserved w) (w_settled w) (w_dispatched w) (w_models w) (w_sent w).

(** A coroutine: it ends with a value or is stopped. *)
Definition W (A : Type) : Type := work -> work * (stopped + A).
#[export] Instance W_ret : MRet W := fun A x w => (w, inr x).
#[export] Instance W_bind : MBind W := fun A B f m w =>
  match m w with
  | (w, inr x) => f x w
  | (w, inl e) => (w, inl e)
  end.
Definition stop {A} (e : stopped) : W A := fun w => (w, inl e).
Definition modify (f : work -> work) : W unit := fun w => (f w, inr tt).
Definition settle_entry : W unit := modify (fun w => w <| w_settled := true |>).

(** Whether a transaction on an item or a batch answers that it applied. *)
Definition applies (s : batch_store) (o : batch_op) : bool :=
  let on bid (f : batch -> option batch) := match b ← batches s !! bid; f b with Some _ => true | None => false end in
  match o with
  | BDispatch bid id worker n => on bid (mark_dispatched id worker n)
  | BComplete bid id worker n r now => on bid (complete_item now id worker n r)
  | BRetry bid id worker n r next now => on bid (retry_item now id worker n r next)
  | BRelease bid id worker n next dispatched now => on bid (release_item now id worker n next dispatched)
  | BFail bid now => on bid (fail_batch now)
  | _ => true
  end.

Section worker.
Context (t : timings) (worker : string) (oracle : nat -> tick).

Definition call (o : tick -> batch_op) : W bool := fun w =>
  let k := oracle (w_tick w) in
  let s := fold_left batch_step (t_others k) (w_store w) in
  let w := w <| w_tick := S (w_tick w) |> <| w_sent := w_sent w ++ [o k] |> in
  match t_fate k with
  | Answered => (w <| w_store := batch_step s (o k) |>, inr (applies s (o k)))
  | Broken committed cancelled =>
      (w <| w_store := if committed then batch_step s (o k) else s |>, inl (if cancelled then CancelledError else Exn))
  end.

(** The clocks as the next call will find them. *)
Definition clocks : W tick := fun w => (w, inr (oracle (w_tick w))).

(** [asyncio.sleep] *)
Definition nap : W unit := fun w =>
  let k := oracle (w_tick w) in
  let w := w <| w_tick := S (w_tick w) |> <| w_store := fold_left batch_step (t_others k) (w_store w) |> in
  match t_fate k with
  | Broken _ true => (w, inl CancelledError)
  | _ => (w, inr tt)
  end.

(** ** Store transitions *)

(** [timedelta(seconds=q)] *)
Definition seconds (q : Q) : timedelta_us := div_nearest (SECOND * Qnum q) (Zpos (Qden q)).

(** [try: m; except Exception: h] *)
Definition catch {A} (m h : W A) : W A := fun w =>
  match m w with
  | (w, inl Exn) => h w
  | r => r
  end.

(** [_complete]: [tries] more after this one. *)
Fixpoint complete_loop (tries : nat) (e : claim) (r : report) : W unit :=
  let once := call (fun k => BComplete (cl_batch e) (cl_item e) worker (cl_attempt e) r (t_db k)) ≫= fun _ => settle_entry in
  match tries with
  | O => once
  | S tries => catch once (nap ≫= fun _ => complete_loop tries e r)
  end.
Definition _complete (e : claim) (r : report) : W unit := complete_loop (record_retries t) e r.

(** [_release] *)
Definition _release (e : claim) (delay : option timedelta_us) (dispatched : bool) : W unit :=
  call (fun k => BRelease (cl_batch e) (cl_item e) worker (cl_attempt e) ((fun d => t_wall k + d) <$> delay) dispatched (t_db k))
  ≫= fun _ => settle_entry.

Definition _fail_batch (e : claim) : W unit :=
  call (fun k => BFail (cl_batch e) (t_db k)) ≫= fun _ => mret tt.
Definition _pause_owner (e : claim) (until : tick -> datetime_us) (key : option string) : W unit :=
  call (fun k => BPause (cl_owner e) (until k) key) ≫= fun _ => mret tt.

(** [StoredKeyQuotaExceeded]: the account's limit or its key's, of the day or the month. *)
Record spent : Type := Spent { sp_account : bool; sp_daily : bool; sp_reset : datetime_us }.

(** [_defer_for_spent_limit] *)
Definition _defer_for_spent_limit (e : claim) (x : spent) : W unit :=
  _release e (Some (owner_retry t)) false ≫= fun _ =>
  if sp_account x && sp_daily x then _pause_owner e (fun _ => sp_reset x) None
  else
    let until k := Z.min (sp_reset x) (t_wall k + budget_recheck t) in
    if sp_account x then _pause_owner e until None else _pause_owner e until (cl_key e).

(** ** One attempt *)

(** [DispatchResult] *)
Record dispatch_result : Type := DispatchResult {
  dr_error : bool;
  dr_retryable : bool;
  dr_cost : option Q;
  dr_billing : billing;
  dr_requeue : option Q;
  dr_too_large : bool                (* the response is over [max_result_bytes] *)
}.

Inductive auth_answer : Type :=
  KeyRejected | QuotaSpent (x : spent) | AuthUnavailable | AuthCancelled | Authenticated (may_use : bool).
Inductive slot_answer : Type := SlotGranted | SlotsTaken | SlotBroken (e : stopped).
Inductive dispatch_answer : Type := Dispatched (r : dispatch_result) | DispatchCancelled.

(** What the other components answer an attempt. *)
Record answers : Type := Answers {
  an_enabled : bool;
  an_auth : auth_answer;
  an_slot : slot_answer;
  an_check : option (option spent);  (* no spend check; or admitted, or refused *)
  an_dispatch : dispatch_answer;
  an_jitter : Q;
  an_alert_hours : Z
}.

Definition on_models (f : Q -> model_book -> model_book) : W unit := fun w =>
  (w <| w_models := f (t_clock (oracle (w_tick w))) (w_models w) |>, inr tt).

(** [_settle] *)
Definition _settle_result (e : claim) (a : answers) (r : dispatch_result) : W unit :=
  let final := _complete e (Report (dr_error r) (dr_cost r) (Some (dr_billing r)) (negb (dr_error r) && dr_too_large r)) in
  if negb (dr_error r) then on_models (fun _ m => (_model_succeeded (cl_model e) m).1) ≫= fun _ => final
  else
    match dr_requeue r with
    | Some q =>
        on_models (fun c m => (_note_queued (cl_model e) (an_alert_hours a) c (_hold_model (cl_model e) q c m)).1) ≫= fun _ =>
        clocks ≫= fun k =>
        let retry_at := t_wall k + seconds q in
        if match cl_expires e with None => true | Some x => bool_decide (retry_at < x) end
        then _release e (Some (seconds q)) false
        else final
    | None =>
        if dr_retryable r then
          on_models (_model_failed t (cl_model e)) ≫= fun _ =>
          clocks ≫= fun k =>
          let next := t_wall k + seconds (_backoff t (an_jitter a) (cl_attempts e)) in
          if bool_decide (cl_attempts e < max_attempts t)
             && match cl_expires e with None => true | Some x => bool_decide (next < x) end
          then call (fun k => BRetry (cl_batch e) (cl_item e) worker (cl_attempt e)
                 (Report true (dr_cost r) (Some (dr_billing r)) false) next (t_db k)) ≫= fun _ => settle_entry
          else final
        else final
    end.

(** The dispatch, once admitted. *)
Definition mark_and_dispatch (e : claim) (a : answers) : W (option dispatch_result) :=
  call (fun k => BDispatch (cl_batch e) (cl_item e) worker (cl_attempt e)) ≫= fun marked =>
  if negb marked then settle_entry ≫= fun _ => mret None
  else
    modify (fun w => w <| w_dispatched := true |>) ≫= fun _ =>
    match an_dispatch a with
    | Dispatched r => mret (Some r)
    | DispatchCancelled => stop CancelledError
    end.

(** The [try] of [_attempt], the slot taken: the result to settle, if there is one. *)
Definition run_dispatch (e : claim) (a : answers) : W (option dispatch_result) :=
  match an_check a with
  | Some (Some x) => _defer_for_spent_limit e x ≫= fun _ => mret None
  | Some None => modify (fun w => w <| w_reserved := w_reserved w + 1 |>) ≫= fun _ => mark_and_dispatch e a
  | None => mark_and_dispatch e a
  end.

(** Its [finally]: the reservation and the slot go back however it ends. *)
Definition give_back (a : answers) (w : work) : work :=
  let w := match an_check a with Some None => w <| w_reserved := w_reserved w - 1 |> | _ => w end in
  w <| w_slots := w_slots w - 1 |>.
Definition finally {A} (m : W A) (f : work -> work) : W A := fun w => let '(w, r) := m w in (f w, r).

(** [_attempt] *)
Definition _attempt (e : claim) (a : answers) : W unit :=
  if negb (an_enabled a) then _release e None false
  else if decide (max_attempts t < cl_attempts e) then _complete e (Report true None (Some NotBilled) false)
  else
    match an_auth a with
    | KeyRejected => _release e (Some (owner_retry t)) false ≫= fun _ => _fail_batch e
    | QuotaSpent x => _defer_for_spent_limit e x
    | AuthUnavailable => _release e (Some (owner_retry t)) false
    | AuthCancelled => stop CancelledError
    | Authenticated may_use =>
        if negb may_use then
          _release e (Some (owner_retry t)) false ≫= fun _ => _pause_owner e (fun k => t_wall k + role_pause t) None
        else
          match an_slot a with
          | SlotBroken x => stop x
          | SlotsTaken => _release e (Some (slot_retry t)) false
          | SlotGranted =>
              modify (fun w => w <| w_slots := w_slots w + 1 |>) ≫= fun _ =>
              finally (run_dispatch e a) (give_back a) ≫= fun r =>
              match r with None => mret tt | Some r => _settle_result e a r end
          end
    end.

(** [_run_item]: an exception leaves the item to its lease; a cancellation ends the task. *)
Definition _run_item (e : claim) (a : answers) : W unit := catch (_attempt e a) (mret tt).

(** What [stop] does with an item that is not settled. *)
Definition stop_release (e : claim) : W unit := fun w =>
  if w_settled w then (w, inr tt) else _release e None (w_dispatched w) w.
End worker.

(** ** Whose claim an item is under *)

(** The item is running under [worker]'s claim, at this attempt. *)
Definition current (worker : string) (e : claim) (s : batch_store) : bool :=
  match b ← batches s !! cl_batch e; b_items b !! cl_item e with
  | Some i => item_guard worker (cl_attempt e) i
  | None => false
  end.

(** The attempt was opened: the item is there, at it or past it, while its batch is. *)
Definition opened (e : claim) (s : batch_store) : Prop :=
  forall b, batches s !! cl_batch e = Some b ->
    b_phase b <> PValidating /\ exists i, b_items b !! cl_item e = Some i /\ cl_attempt e <= i_seq i.

Definition spares (e : claim) (o : batch_op) : Prop := creates o <> Some (cl_batch e).

Lemma current_opened worker e s : store_ok s -> current worker e s = true -> opened e s.
Proof.
  unfold current. intros Hs Hc b Hb. rewrite Hb in Hc. cbn [mbind option_bind] in Hc.
  destruct (b_items b !! cl_item e) as [i|] eqn:Hi; [|done]. apply guard_running in Hc as (Hr & _ & Hn). split.
  - rewrite (running_runnable b _ _ (Hs _ _ Hb) Hi Hr). done.
  - exists i. split; [done|lia].
Qed.

(** A claim that is gone does not come back. *)
Lemma stale_step worker e s o :
  store_ok s -> opened e s -> spares e o ->
  opened e (batch_step s o) /\ (current worker e s = false -> current worker e (batch_step s o) = false).
Proof.
  intros Hs Ho Hsp. destruct (batch_step_ok s o Hs) as [Hs' Hev].
  assert (forall b', batches (batch_step s o) !! cl_batch e = Some b' -> exists b i i', batches s !! cl_batch e = Some b /\
    b_phase b' <> PValidating /\ b_items b !! cl_item e = Some i /\ b_items b' !! cl_item e = Some i' /\
    cl_attempt e <= i_seq i /\ item_evolves i i') as H.
  { intros b' Hb'. destruct (Hev _ _ Hb') as [(b & Hb & E)|?]; [|done]. destruct (Ho b Hb) as (Hp & i & Hi & Hn).
    destruct (ev_items _ _ E Hp _ _ Hi) as (i' & Hi' & Hii). exists b, i, i'. split_and!; try done.
    pose proof (ev_phase _ _ E) as Hr. intros Hq. rewrite Hq in Hr. by destruct (b_phase b). }
  split.
  - intros b' Hb'. destruct (H b' Hb') as (b & i & i' & _ & Hp & _ & Hi' & Hn & (_ & Hq & _)). split; [done|].
    exists i'. split; [done|lia].
  - unfold current. intros Hc. destruct (batches (batch_step s o) !! cl_batch e) as [b'|] eqn:Hb'; [|done].
    destruct (H b' eq_refl) as (b & i & i' & Hb & _ & Hi & Hi' & Hn & (_ & Hq & _ & _ & Hrun)).
    rewrite Hb in Hc. cbn [mbind option_bind] in *. rewrite Hi in Hc. rewrite Hi'.
    destruct (item_guard worker (cl_attempt e) i') eqn:G; [|done]. apply guard_running in G as (Hr & Hw & Hs2).
    destruct (Hrun ltac:(lia) Hr) as [Hri Hcl]. unfold item_guard in Hc.
    rewrite !bool_decide_eq_true_2 in Hc; [done|lia|congruence|done].
Qed.

Lemma stale_run worker e l : forall s, store_ok s -> opened e s -> Forall (spares e) l ->
  opened e (fold_left batch_step l s) /\
  (current worker e s = false -> current worker e (fold_left batch_step l s) = false).
Proof.
  induction l as [|o l IH]; intros s Hs Ho Hl; [done|]. apply Forall_cons in Hl as [H1 Hl]. cbn [fold_left].
  destruct (stale_step worker e s o Hs Ho H1) as [Ho1 Hst].
  destruct (IH _ (proj1 (batch_step_ok s o Hs)) Ho1 Hl) as [H2 H3]. split; [done|auto].
Qed.

(** A report, accepted or not, leaves no claim behind. *)
Lemma report_ends worker e s now v :
  store_ok s -> current worker e (batch_step s (report_op (cl_batch e) now (cl_item e) worker (cl_attempt e) v)) = false.
Proof.
  intros Hs. destruct (batches s !! cl_batch e) as [b|] eqn:Hb.
  2:{ assert (batch_step s (report_op (cl_batch e) now (cl_item e) worker (cl_attempt e) v) = s) as ->.
      { destruct v; cbn [report_op batch_step]; unfold on_batch; by rewrite Hb. }
      unfold current. by rewrite Hb. }
  destruct (report_item now (cl_item e) worker (cl_attempt e) v b) as [b'|] eqn:Hr.
  - rewrite (report_step _ _ _ _ _ _ _ _ _ Hb Hr). unfold current. simpl. rewrite lookup_insert_eq. cbn [mbind option_bind].
    destruct (report_item_accepted _ _ _ _ _ _ _ (Hs _ _ Hb) Hr) as (Hf & _ & i & a & Hi & Ha & Ho & _). rewrite Hi.
    destruct (item_guard worker (cl_attempt e) i) eqn:G; [|done]. apply guard_running in G as (Hrun & _ & Hn).
    destruct (running_open i (bk_items _ (proj1 (proj1 Hf)) _ _ Hi) Hrun) as (a' & Ha' & Ho'). congruence.
  - assert (batch_step s (report_op (cl_batch e) now (cl_item e) worker (cl_attempt e) v) = s) as ->.
    { destruct v; cbn [report_op batch_step report_item] in *; unfold on_batch; rewrite Hb; cbn [mbind option_bind]; by rewrite Hr. }
    unfold current. rewrite Hb. cbn [mbind option_bind]. destruct (b_items b !! cl_item e) as [i|] eqn:Hi; [|done].
    destruct (item_guard worker (cl_attempt e) i) eqn:G; [|done]. exfalso.
    destruct v; cbn [report_item] in Hr; unfold complete_item, retry_item, release_item in Hr; rewrite Hi in Hr;
      cbn [mbind option_bind] in Hr; by rewrite G in Hr.
Qed.

(** A refused dispatch mark means the claim is gone. *)
Lemma mark_refused worker e s :
  store_ok s -> applies s (BDispatch (cl_batch e) (cl_item e) worker (cl_attempt e)) = false -> current worker e s = false.
Proof.
  intros Hs. cbn [applies]. unfold current, mark_dispatched. destruct (batches s !! cl_batch e) as [b|] eqn:Hb; [|done].
  cbn [mbind option_bind]. destruct (b_items b !! cl_item e) as [i|] eqn:Hi; [|done]. cbn [mbind option_bind].
  destruct (item_guard worker (cl_attempt e) i) eqn:G; [|done]. apply guard_running in G as (Hr & _ & Hn).
  destruct (running_open i (bk_items _ (proj1 (Hs _ _ Hb)) _ _ Hi) Hr) as (a & Ha & Ho). rewrite Hn in Ha.
  rewrite Ha. cbn [mbind option_bind andb]. by rewrite bool_decide_eq_true_2.
Qed.

(** ** Runs of one item *)

Section runs.
Context (t : timings) (worker : string) (oracle : nat -> tick) (e : claim).
Hypothesis Hspare : forall k, Forall (spares e) (t_others (oracle k)).

(** A settled item is no longer under this claim. *)
Definition entry_ok (w : work) : Prop :=
  store_ok (w_store w) /\ opened e (w_store w) /\ (w_settled w = true -> current worker e (w_store w) = false).

(** Nothing fails and nothing is cancelled. *)
Definition calm : Prop := forall k, t_fate (oracle k) = Answered.

(** What every piece of an attempt keeps: the entry's meaning, and what it holds; it does
    not unsettle the entry, and in a calm world it runs to its end. *)
Definition good {A} (m : W A) : Prop := forall w, entry_ok w ->
  entry_ok (m w).1 /\ w_slots (m w).1 = w_slots w /\ w_reserved (m w).1 = w_reserved w /\
  (w_settled w = true -> w_settled (m w).1 = true) /\ (calm -> exists x, (m w).2 = inr x).
Definition settles {A} (m : W A) : Prop := good m /\ (calm -> forall w, entry_ok w -> w_settled (m w).1 = true).

Lemma good_ret {A} (x : A) : good (mret x : W A).
Proof. intros w Hw. split_and!; try done. by exists x. Qed.

Lemma good_bind {A B} (m : W A) (f : A -> W B) : good m -> (forall x, good (f x)) -> good (m ≫= f).
Proof.
  intros Hm Hf w Hw. unfold mbind, W_bind. specialize (Hm w Hw). destruct (m w) as [w1 [s|x]]; simpl in *.
  - destruct Hm as (H1 & H2 & H3 & H4 & H5). split_and!; try done. intros Hc. destruct (H5 Hc) as [? [=]].
  - destruct Hm as (H1 & H2 & H3 & H4 & H5). specialize (Hf x w1 H1). destruct Hf as (G1 & G2 & G3 & G4 & G5).
    split_and!; [done|congruence|congruence|auto|done].
Qed.
Lemma settles_bind_l {A B} (m : W A) (f : A -> W B) : settles m -> (forall x, good (f x)) -> settles (m ≫= f).
Proof.
  intros [Hm Hs] Hf. split; [by apply good_bind|]. intros Hc w Hw. destruct (Hm w Hw) as (H1 & _ & _ & _ & H5).
  specialize (Hs Hc w Hw). destruct (H5 Hc) as [x Hx]. unfold mbind, W_bind. destruct (m w) as [w1 r]. simpl in *. subst r.
  by apply (Hf x w1 H1).
Qed.
Lemma settles_bind_r {A B} (m : W A) (f : A -> W B) : good m -> (forall x, settles (f x)) -> settles (m ≫= f).
Proof.
  intros Hm Hf. split; [apply good_bind; [done|apply Hf]|]. intros Hc w Hw. destruct (Hm w Hw) as (H1 & _ & _ & _ & H5).
  destruct (H5 Hc) as [x Hx]. unfold mbind, W_bind. destruct (m w) as [w1 r]. simpl in *. subst r. by apply (Hf x).
Qed.

Lemma entry_ok_store w w' : entry_ok w -> w_store w' = w_store w -> w_settled w' = w_settled w -> entry_ok w'.
Proof. intros (H1 & H2 & H3) E1 E2. unfold entry_ok. by rewrite E1, E2. Qed.

Lemma good_modify f :
  (forall w, w_store (f w) = w_store w /\ w_settled (f w) = w_settled w /\ w_slots (f w) = w_slots w /\
     w_reserved (f w) = w_reserved w) -> good (modify f).
Proof.
  intros Hf w Hw. destruct (Hf w) as (H1 & H2 & H3 & H4). simpl.
  split_and!; [by eapply entry_ok_store|done|done|by rewrite H2|by exists tt].
Qed.

(** The store after others acted, and after a transaction that creates no batch. *)
Lemma others_ok w k : entry_ok w -> let s := fold_left batch_step (t_others (oracle k)) (w_store w) in
  store_ok s /\ opened e s /\ (w_settled w = true -> current worker e s = false).
Proof.
  intros (H1 & H2 & H3). destruct (stale_run worker e _ _ H1 H2 (Hspare k)) as [G1 G2].
  split_and!; [by apply run_ok|done|auto].
Qed.

Lemma call_ok w o : entry_ok w -> (forall k, creates (o k) = None) ->
  entry_ok (call oracle o w).1 /\ w_slots (call oracle o w).1 = w_slots w /\ w_reserved (call oracle o w).1 = w_reserved w /\
  w_settled (call oracle o w).1 = w_settled w /\ (calm -> exists x, (call oracle o w).2 = inr x).
Proof.
  intros Hw Ho. destruct (others_ok w (w_tick w) Hw) as (H1 & H2 & H3). unfold call.
  set (s := fold_left _ _ _) in *. set (op := o (oracle (w_tick w))).
  assert (spares e op) as Hsp by (unfold spares, op; by rewrite Ho).
  destruct (stale_step worker e s op H1 H2 Hsp) as [G1 G2]. pose proof (proj1 (batch_step_ok s op H1)) as G3.
  destruct (t_fate (oracle (w_tick w))) as [|[] cn] eqn:Ef; simpl.
  all: (split_and!; [split_and!; simpl; auto|done|done|done|]).
  1: intros _; by eexists. all: intros Hc; specialize (Hc (w_tick w)); congruence.
Qed.

Lemma good_call o : (forall k, creates (o k) = None) -> good (call oracle o).
Proof. intros Ho w Hw. destruct (call_ok w o Hw Ho) as (H1 & H2 & H3 & H4 & H5). split_and!; auto. by rewrite H4. Qed.

(** A report of the claim, then the entry marked settled. *)
Lemma settles_report (o : tick -> batch_op) (v : tick -> item_report) :
  (forall k, o k = report_op (cl_batch e) (t_db k) (cl_item e) worker (cl_attempt e) (v k)) ->
  settles (call oracle o ≫= fun _ => settle_entry).
Proof.
  intros Ho. assert (forall k, creates (o k) = None) as Hcr by (intros k; rewrite Ho; by destruct (v k)).
  assert (forall w, entry_ok w -> forall x, (call oracle o w).2 = inr x -> current worker e (w_store (call oracle o w).1) = false) as Hend.
  { intros w Hw x. destruct (others_ok w (w_tick w) Hw) as (H1 & _). unfold call.
    destruct (t_fate (oracle (w_tick w))); simpl; [|done]. intros _. rewrite Ho. by apply report_ends. }
  split.
  - intros w Hw. destruct (call_ok w o Hw Hcr) as (H1 & H2 & H3 & H4 & H5). specialize (Hend w Hw).
    unfold mbind, W_bind. destruct (call oracle o w) as [w1 [s|x]]; simpl in *.
    + split_and!; try done; [by rewrite H4|]. intros Hc. by destruct (H5 Hc).
    + split_and!; [|done|done|done|by eexists]. destruct H1 as (K1 & K2 & _). split_and!; simpl; [done|done|].
      intros _. by apply (Hend x).
  - intros Hc w Hw. destruct (call_ok w o Hw Hcr) as (_ & _ & _ & _ & H5). destruct (H5 Hc) as [x Hx].
    unfold mbind, W_bind. destruct (call oracle o w) as [w1 r]. simpl in *. by subst r.
Qed.

Lemma good_nap : good (nap oracle).
Proof.
  intros w Hw. destruct (others_ok w (w_tick w) Hw) as (H1 & H2 & H3). unfold nap.
  destruct (t_fate (oracle (w_tick w))) as [|c []] eqn:Ef; simpl.
  all: (split_and!; [by split_and!|done|done|done|]). 2: intros Hc; specialize (Hc (w_tick w)); congruence.
  all: intros _; by eexists.
Qed.

Lemma good_catch {A} (m h : W A) : good m -> good h -> good (catch m h).
Proof.
  intros Hm Hh w Hw. unfold catch. specialize (Hm w Hw). destruct (m w) as [w1 [[]|x]]; try done.
  destruct Hm as (H1 & H2 & H3 & H4 & H5). destruct (Hh w1 H1) as (G1 & G2 & G3 & G4 & G5). simpl in *.
  split_and!; [done|congruence|congruence|auto|done].
Qed.
Lemma settles_catch {A} (m h : W A) : settles m -> good h -> settles (catch m h).
Proof.
  intros [Hm Hs] Hh. split; [by apply good_catch|]. intros Hc w Hw. specialize (Hs Hc w Hw).
  destruct (Hm w Hw) as (_ & _ & _ & _ & H5). destruct (H5 Hc) as [x Hx]. unfold catch.
  destruct (m w) as [w1 r]. simpl in *. by subst r.
Qed.

Lemma settles_complete tries r : settles (complete_loop worker oracle tries e r).
Proof.
  induction tries as [|tries IH]; cbn [complete_loop]; [by apply (settles_report _ (fun _ => RComplete r))|].
  apply settles_catch; [by apply (settles_report _ (fun _ => RComplete r))|].
  apply good_bind; [apply good_nap|intros _; apply IH].
Qed.

Lemma settles_release delay d : settles (_release worker oracle e delay d).
Proof. apply (settles_report _ (fun k => RRelease ((fun x => t_wall k + x) <$> delay) d)). done. Qed.

Lemma good_fail : good (_fail_batch oracle e).
Proof. apply good_bind; [by apply good_call|intros; apply good_ret]. Qed.
Lemma good_pause until key : good (_pause_owner oracle e until key).
Proof. apply good_bind; [by apply good_call|intros; apply good_ret]. Qed.
Lemma good_models f : good (on_models oracle f).
Proof. intros w Hw. split_and!; try done. by exists tt. Qed.
Lemma good_clocks : good (clocks oracle).
Proof. intros w Hw. split_and!; try done. by eexists. Qed.

Lemma settles_defer x : settles (_defer_for_spent_limit t worker oracle e x).
Proof.
  apply settles_bind_l; [apply settles_release|]. intros _. repeat case_match; apply good_pause.
Qed.

Lemma settles_result a r : settles (_settle_result t worker oracle e a r).
Proof.
  unfold _settle_result. case_match; [apply settles_bind_r; [apply good_models|intros; apply settles_complete]|].
  destruct (dr_requeue r) as [q|].
  - apply settles_bind_r; [apply good_models|intros _]. apply settles_bind_r; [apply good_clocks|intros k].
    destruct (match cl_expires e with Some x => _ | None => _ end); [apply settles_release|apply settles_complete].
  - destruct (dr_retryable r); [|apply settles_complete].
    apply settles_bind_r; [apply good_models|intros _]. apply settles_bind_r; [apply good_clocks|intros k].
    destruct (_ && _); [|apply settles_complete].
    by eapply (settles_report _ (fun _ => RRetry _ _)).
Qed.

(** The dispatch settles the entry, or has a result to settle it with. *)
Lemma mark_and_dispatch_ok a w :
  entry_ok w ->
  let p := mark_and_dispatch worker oracle e a w in
  entry_ok p.1 /\ w_slots p.1 = w_slots w /\ w_reserved p.1 = w_reserved w /\
  (calm -> an_dispatch a <> DispatchCancelled -> exists r, p.2 = inr r /\ (r = None -> w_settled p.1 = true)).
Proof.
  intros Hw. unfold mark_and_dispatch. pose (o := fun _ : tick => BDispatch (cl_batch e) (cl_item e) worker (cl_attempt e)).
  fold o. destruct (call_ok w o Hw ltac:(done)) as (K1 & K2 & K3 & K4 & K5).
  destruct (others_ok w (w_tick w) Hw) as (O1 & O2 & O3).
  assert (forall w', call oracle o w = (w', inr false) -> current worker e (w_store w') = false) as Href.
  { intros w'. unfold call. destruct (t_fate _); [|done]. intros [= <- Ha].
    apply (proj2 (stale_step worker e _ (o (oracle (w_tick w))) O1 O2 ltac:(done))). by apply mark_refused. }
  unfold mbind, W_bind. destruct (call oracle o w) as [w3 [s|[]]]; simpl in *.
  - split_and!; try done. intros Hc. by destruct (K5 Hc).
  - destruct (an_dispatch a) as [r|]; simpl; (split_and!; [done|done|done|]); [|done].
    intros _ _. by exists (Some r).
  - split_and!; [|done|done|]; [|by intros _ _; exists None]. destruct K1 as (H1 & H2 & _).
    split_and!; simpl; [done|done|]. intros _. by apply Href.
Qed.

(** With its [finally]: what it holds goes back. *)
Lemma item_dispatch_ok a w :
  entry_ok w ->
  let p := finally (run_dispatch t worker oracle e a) (give_back a) (w <| w_slots := w_slots w + 1 |>) in
  entry_ok p.1 /\ w_slots p.1 = w_slots w /\ w_reserved p.1 = w_reserved w /\
  (calm -> an_dispatch a <> DispatchCancelled -> exists r, p.2 = inr r /\ (r = None -> w_settled p.1 = true)).
Proof.
  intros Hw. set (w1 := w <| w_slots := w_slots w + 1 |>). assert (entry_ok w1) as Hw1 by done.
  unfold finally, run_dispatch, give_back. destruct (an_check a) as [[x|]|] eqn:Ec.
  - pose proof (settles_defer x) as [Hg Hs]. specialize (Hg w1 Hw1). unfold mbind, W_bind.
    pose proof (fun c => Hs c w1 Hw1) as Hs1.
    destruct (_defer_for_spent_limit t worker oracle e x w1) as [w2 r]. simpl in *.
    destruct Hg as (G1 & G2 & G3 & _ & G5). destruct r as [s|u]; simpl; (split_and!; [done|lia|done|]).
    + intros Hc. by destruct (G5 Hc).
    + intros Hc _. exists None. auto.
  - set (w2 := w1 <| w_reserved := w_reserved w1 + 1 |>). assert (entry_ok w2) as Hw2 by done.
    destruct (mark_and_dispatch_ok a w2 Hw2) as (G1 & G2 & G3 & G4). unfold mbind, W_bind, modify. fold w2.
    destruct (mark_and_dispatch worker oracle e a w2) as [w3 r]. simpl in *. split_and!; [done|lia|lia|done].
  - destruct (mark_and_dispatch_ok a w1 Hw1) as (G1 & G2 & G3 & G4).
    destruct (mark_and_dispatch worker oracle e a w1) as [w3 r]. simpl in *. split_and!; [done|lia|lia|done].
Qed.

(** Nothing the attempt asks of others is cut short. *)
Definition unbroken (a : answers) : Prop :=
  an_auth a <> AuthCancelled /\ (forall x, an_slot a <> SlotBroken x) /\ an_dispatch a <> DispatchCancelled.

Lemma attempt_ok a w :
  entry_ok w ->
  let p := _attempt t worker oracle e a w in
  entry_ok p.1 /\ w_slots p.1 = w_slots w /\ w_reserved p.1 = w_reserved w /\
  (calm -> unbroken a -> p.2 = inr tt /\ w_settled p.1 = true).
Proof.
  intros Hw. assert (forall m : W unit, settles m -> entry_ok (m w).1 /\ w_slots (m w).1 = w_slots w /\
    w_reserved (m w).1 = w_reserved w /\ (calm -> unbroken a -> (m w).2 = inr tt /\ w_settled (m w).1 = true)) as Hset.
  { intros m [Hg Hs]. destruct (Hg w Hw) as (G1 & G2 & G3 & _ & G5). split_and!; try done. intros Hc _.
    split; [destruct (G5 Hc) as [u Hu]; by destruct u|by apply Hs]. }
  unfold _attempt. case_match; [apply Hset, settles_release|]. case_decide; [apply Hset, settles_complete|].
  destruct (an_auth a) as [|x| | |[]] eqn:Ea; cbn [negb].
  - apply Hset, settles_bind_l; [apply settles_release|intros _; apply good_fail].
  - apply Hset, settles_defer.
  - apply Hset, settles_release.
  - split_and!; try done. intros _ (H1 & _). congruence.
  - destruct (an_slot a) as [| |x] eqn:Es; [|apply Hset, settles_release|].
    2:{ split_and!; try done. intros _ (_ & H1 & _). by destruct (H1 x). }
    destruct (item_dispatch_ok a w Hw) as (D1 & D2 & D3 & D4).
    match goal with |- entry_ok (fst ?x) /\ _ => assert (x =
      match finally (run_dispatch t worker oracle e a) (give_back a) (w <| w_slots := w_slots w + 1 |>) with
      | (w2, inl s) => (w2, inl s)
      | (w2, inr r) => (match r with None => mret tt | Some r => _settle_result t worker oracle e a r end) w2
      end) as -> by reflexivity end.
    destruct (finally (run_dispatch t worker oracle e a) (give_back a) (w <| w_slots := w_slots w + 1 |>)) as [w2 [s|r]];
      simpl in D1, D2, D3, D4 |- *.
    + split_and!; try done. intros Hc (_ & _ & Hd). destruct (D4 Hc Hd) as (r & [=] & _).
    + destruct r as [r|].
      * destruct (settles_result a r) as [Hg Hs]. destruct (Hg w2 D1) as (G1 & G2 & G3 & _ & G5).
        split_and!; [done|congruence|congruence|]. intros Hc _. split; [destruct (G5 Hc) as [u Hu]; by destruct u|by apply Hs].
      * split_and!; try done. intros Hc (_ & _ & Hd). destruct (D4 Hc Hd) as (r & [= <-] & Hn). simpl. auto.
  - apply Hset, settles_bind_l; [apply settles_release|intros _; apply good_pause].
Qed.
End runs.

(** C30: a claimed item is always handed back.  However the attempt goes, with
    any answers, failures and cancellations at any of its calls and anything else happening
    in the store meanwhile, the owner's slot and the reservation it took are returned; an
    entry marked settled is no longer under this worker's claim, then or ever after; if
    nothing breaks, the entry is settled; and if the worker is stopped, releasing an
    unsettled entry settles it. *)
Theorem worker_hands_back (t : timings) (worker : string) (oracle : nat -> tick) (e : claim) (a : answers)
    (l : list batch_op) (w : work) :
  (forall k, Forall (spares e) (t_others (oracle k))) ->
  w_store w = batch_run l -> current worker e (w_store w) = true -> w_settled w = false ->
  let p := _run_item t worker oracle e a w in
  let q := stop_release worker oracle e p.1 in
  w_slots p.1 = w_slots w /\ w_reserved p.1 = w_reserved w /\
  (w_settled p.1 = true ->
   forall l', Forall (spares e) l' -> current worker e (fold_left batch_step l' (w_store p.1)) = false) /\
  (calm oracle -> unbroken a -> p.2 = inr tt /\ w_settled p.1 = true) /\
  (t_fate (oracle (w_tick p.1)) = Answered -> w_settled q.1 = true /\ current worker e (w_store q.1) = false).
Proof.
  intros Hsp Hl Hcur Hns. assert (entry_ok worker e w) as Hw.
  { assert (store_ok (w_store w)) as Hs by (rewrite Hl; apply batch_run_ok).
    split_and!; [done|by eapply current_opened|congruence]. }
  destruct (attempt_ok t worker oracle e Hsp a w Hw) as (H1 & H2 & H3 & H4).
  unfold _run_item, catch. destruct (_attempt t worker oracle e a w) as [w1 r] eqn:E. cbn [fst snd] in *.
  assert (forall p : work * (stopped + unit), p.1 = w1 -> entry_ok worker e p.1 ->
    (w_settled p.1 = true -> forall l', Forall (spares e) l' -> current worker e (fold_left batch_step l' (w_store p.1)) = false) /\
    (t_fate (oracle (w_tick p.1)) = Answered -> w_settled (stop_release worker oracle e p.1).1 = true /\
       current worker e (w_store (stop_release worker oracle e p.1).1) = false)) as Hrest.
  { intros p _ (P1 & P2 & P3). split.
    - intros Hs l' Hl'. apply (stale_run worker e l' _ P1 P2 Hl'). auto.
    - intros Hf. unfold stop_release. destruct (w_settled p.1) eqn:Es; [by auto|]. unfold _release, mbind, W_bind, call.
      rewrite Hf. simpl. split; [done|].
      apply (report_ends worker e _ _ (RRelease None (w_dispatched p.1))). by apply run_ok. }
  destruct r as [[]|[]]; cbn [fst snd mret W_ret]; (split_and!; [done|done|by apply (Hrest (w1, inr tt))| |by apply (Hrest (w1, inr tt))]).
  - intros Hc Hu. destruct (H4 Hc Hu) as [[=] _].
  - intros Hc Hu. destruct (H4 Hc Hu) as [[=] _].
  - intros Hc Hu. by destruct (H4 Hc Hu).
Qed.

(** ** Retries *)

Lemma backoff_bounds t jitter n :
  (0 <= jitter <= 1)%Q -> (0 <= backoff_cap_seconds t)%Q -> (0 <= backoff_base_seconds t)%Q ->
  (backoff_ceiling t n / 2 <= _backoff t jitter n <= backoff_ceiling t n)%Q /\
  (0 <= backoff_ceiling t n <= backoff_cap_seconds t)%Q.
Proof.
  intros Hj Hc Hb. assert (0 <= backoff_ceiling t n <= backoff_cap_seconds t)%Q as H.
  { unfold backoff_ceiling. assert (0 <= inject_Z (2 ^ Z.min (Z.max (n - 1) 0) 32))%Q as Hp.
    { change 0%Q with (inject_Z 0). rewrite <- Zle_Qle. apply Z.pow_nonneg. lia. }
    pose proof (Qmult_le_0_compat _ _ Hb Hp). unfold py_min. case_decide; lra. }
  split; [|done]. unfold _backoff. set (c := backoff_ceiling t n) in *. unfold Qdiv. change (/ 2)%Q with (1 # 2)%Q. nra.
Qed.

(** What settling a batch leaves of a queued item: nothing changed, or it is closed. *)
Lemma settle_queued now b s id i :
  b_items b !! id = Some i -> i_status i = Queued ->
  exists i', b_items (_settle now b s) !! id = Some i' /\ (i' = i \/ is_open i' = false).
Proof.
  intros Hi Hq. unfold _settle. case_bool_decide; [|exists i; split; [done|by left]]. cbn [negb].
  set (b1 := match _ITEM_VERDICTS s with Some v => _ | None => b end).
  assert (exists i', b_items b1 !! id = Some i' /\ (i' = i \/ is_open i' = false)) as (i' & H1 & H2).
  { unfold b1. destruct (_ITEM_VERDICTS s) as [v|] eqn:Ev; [|exists i; split; [done|by left]].
    exists (settle_item now v i).1.1. assert (b_items (apply_verdict now s v b) =
      (fun i => (settle_item now v i).1.1) <$> b_items b) as -> by (unfold apply_verdict; by case_decide).
    rewrite lookup_fmap, Hi. split; [done|]. right. assert (lease_over now i = false) as Eo.
    { destruct (lease_over now i) eqn:E; [|done]. apply lease_over_running in E. congruence. }
    unfold settle_item. rewrite Eo, Eo, Hq. unfold is_open. simpl. by destruct s; inversion Ev. }
  exists i'. split; [|done]. destruct (_FINAL_STATUS s); [|done]. do 2 (case_match; [done|]). unfold _finalize.
  by repeat case_match.
Qed.

Lemma retry_queued now id w n r next b b' :
  retry_item now id w n r next b = Some b' ->
  exists i, b_items b' !! id = Some i /\ ((i_status i = Queued /\ i_next i = Some next) \/ is_open i = false).
Proof.
  unfold retry_item. destruct (b_items b !! id) as [i|]; [|done]. cbn [mbind option_bind]. case_match; [done|].
  intros [= <-]. match goal with |- exists _, b_items (_settle _ ?x ?s) !! _ = _ /\ _ => set (b1 := x); set (st := s) end.
  pose proof (lookup_insert_eq (b_items b) id (close_attempt
    (i <| i_status := Queued |> <| i_next := Some next |> <| i_cost := add_cost (i_cost i) (counted_cost (settled_billing r NotBilled) (rp_cost r)) |>
       <| i_unknown := bool_decide (settled_billing r NotBilled = UnknownCost) || i_unknown i |>
       <| i_claimed := None |> <| i_lease := None |>) n ORetry (counted_cost (settled_billing r NotBilled) (rp_cost r)) (settled_billing r NotBilled))) as Hi.
  assert (forall x o c s, i_status (close_attempt x n o c s) = i_status x /\ i_next (close_attempt x n o c s) = i_next x) as Hcl.
  { intros x o c s. unfold close_attempt. by repeat case_match. }
  destruct (settle_queued now b1 st id _ Hi) as (i' & H1 & H2); [by rewrite (proj1 (Hcl _ _ _ _))|].
  exists i'. split; [done|]. destruct H2 as [->|H2]; [left|by right]. by rewrite (proj1 (Hcl _ _ _ _)), (proj2 (Hcl _ _ _ _)).
Qed.

(** An accepted report in the store. *)
Lemma report_applied worker e s now v :
  store_ok s -> current worker e s = true ->
  exists b b', batches s !! cl_batch e = Some b /\ report_item now (cl_item e) worker (cl_attempt e) v b = Some b' /\
    batch_step s (report_op (cl_batch e) now (cl_item e) worker (cl_attempt e) v) =
      s <| batches := <[cl_batch e := b']> (batches s) |>.
Proof.
  intros Hs. unfold current. destruct (batches s !! cl_batch e) as [b|] eqn:Hb; [|done]. cbn [mbind option_bind].
  destruct (b_items b !! cl_item e) as [i|] eqn:Hi; [|done]. intros G.
  assert (exists b', report_item now (cl_item e) worker (cl_attempt e) v b = Some b') as [b' Hr].
  { destruct v; cbn [report_item]; unfold complete_item, retry_item, release_item; rewrite Hi; cbn [mbind option_bind];
      rewrite G; cbn [negb]; by eexists. }
  exists b, b'. split_and!; [done|done|]. by apply (report_step _ _ _ _ _ _ _ b).
Qed.

(** A report whose call is answered. *)
Lemma report_answered oracle o w : t_fate (oracle (w_tick w)) = Answered ->
  let p := (call oracle o ≫= fun _ => settle_entry) w in
  p.2 = inr tt /\ w_settled p.1 = true /\
  w_store p.1 = batch_step (fold_left batch_step (t_others (oracle (w_tick w))) (w_store w)) (o (oracle (w_tick w))).
Proof. intros Hf. unfold mbind, W_bind, call. by rewrite Hf. Qed.
Lemma complete_answered worker oracle tries e r w : t_fate (oracle (w_tick w)) = Answered ->
  let p := complete_loop worker oracle tries e r w in
  w_settled p.1 = true /\
  w_store p.1 = batch_step (fold_left batch_step (t_others (oracle (w_tick w))) (w_store w))
    (BComplete (cl_batch e) (cl_item e) worker (cl_attempt e) r (t_db (oracle (w_tick w)))).
Proof.
  intros Hf. pose proof (report_answered oracle
    (fun k => BComplete (cl_batch e) (cl_item e) worker (cl_attempt e) r (t_db k)) w Hf) as (H1 & H2 & H3).
  destruct tries; cbn [complete_loop]; [done|]. unfold catch.
  destruct ((call oracle _ ≫= _) w) as [w1 x]. simpl in H1. by subst x.
Qed.

(** Whether a retryable failure is tried again, and when. *)
Definition next_try (t : timings) (k : tick) (e : claim) (a : answers) : datetime_us :=
  t_wall k + seconds (_backoff t (an_jitter a) (cl_attempts e)).
Definition tries_again (t : timings) (k : tick) (e : claim) (a : answers) : bool :=
  bool_decide (cl_attempts e < max_attempts t)
  && match cl_expires e with None => true | Some x => bool_decide (next_try t k e a < x) end.

(** a failure that may pass is tried again exactly while attempts remain and
    the next try would start before the batch's window closes, and otherwise the item is
    final; the wait is between half and the whole of the doubling ceiling, which the cap
    bounds; and the store hands the item to no worker before that instant. *)
Theorem retry_waits (t : timings) (worker : string) (oracle : nat -> tick) (e : claim) (a : answers)
    (r : dispatch_result) (l : list batch_op) (w : work) :
  let k := oracle (w_tick w) in
  let s := fold_left batch_step (t_others k) (w_store w) in
  w_store w = batch_run l -> current worker e s = true -> t_fate k = Answered ->
  dr_error r = true -> dr_retryable r = true -> dr_requeue r = None ->
  (0 <= an_jitter a <= 1)%Q -> (0 <= backoff_cap_seconds t)%Q -> (0 <= backoff_base_seconds t)%Q ->
  let p := _settle_result t worker oracle e a r w in
  w_settled p.1 = true /\
  (backoff_ceiling t (cl_attempts e) / 2 <= _backoff t (an_jitter a) (cl_attempts e) <= backoff_ceiling t (cl_attempts e))%Q /\
  (backoff_ceiling t (cl_attempts e) <= backoff_cap_seconds t)%Q /\
  exists b i, batches (w_store p.1) !! cl_batch e = Some b /\ b_items b !! cl_item e = Some i /\
    if tries_again t k e a
    then forall now, now < next_try t k e a -> claimable_item now i = false
    else is_open i = false.
Proof.
  intros k s Hl Hcur Hf He Hre Hq Hj Hc Hb p.
  assert (store_ok s) as Hs by (unfold s; rewrite Hl; apply run_ok, batch_run_ok).
  destruct (backoff_bounds t (an_jitter a) (cl_attempts e) Hj Hc Hb) as [H1 H2].
  assert (exists v, w_settled p.1 = true /\
    w_store p.1 = batch_step s (report_op (cl_batch e) (t_db k) (cl_item e) worker (cl_attempt e) v) /\
    if tries_again t k e a then exists x, v = RRetry x (next_try t k e a) else final_report v = true) as (v & Hset & Est & Hv).
  { unfold p, _settle_result. rewrite He, Hq, Hre. cbn [negb]. unfold on_models, clocks, mbind, W_bind.
    fold k. set (w1 := w <| w_models := _ |>). change (w_tick w1) with (w_tick w). fold k.
    change (bool_decide (cl_attempts e < max_attempts t) && _) with (tries_again t k e a).
    destruct (tries_again t k e a).
    - match goal with |- context [call oracle ?o w1] => pose proof (report_answered oracle o w1 Hf) as (_ & G1 & G2) end.
      eexists (RRetry _ _). split_and!; [exact G1|exact G2|by eexists].
    - match goal with |- context [_complete t worker oracle e ?x w1] =>
        pose proof (complete_answered worker oracle (record_retries t) e x w1 Hf) as (G1 & G2) end.
      eexists (RComplete _). split_and!; [exact G1|exact G2|done]. }
  destruct (report_applied worker e s (t_db k) v Hs Hcur) as (b & b' & Hbs & Hr & Estep).
  split_and!; [done|tauto|tauto|tauto|]. exists b'. rewrite Est, Estep.
  assert (forall i, b_items b' !! cl_item e = Some i -> (if tries_again t k e a
    then forall now, now < next_try t k e a -> claimable_item now i = false else is_open i = false) -> exists i,
    batches (s <| batches := <[cl_batch e := b']> (batches s) |>) !! cl_batch e = Some b' /\ b_items b' !! cl_item e = Some i /\
    if tries_again t k e a then forall now, now < next_try t k e a -> claimable_item now i = false else is_open i = false) as Hgoal.
  { intros i Hi Hif. exists i. split_and!; [simpl; apply lookup_insert_eq|done|done]. }
  destruct (tries_again t k e a) eqn:Ea.
  - destruct Hv as [x ->]. destruct (retry_queued _ _ _ _ _ _ _ _ Hr) as (i & Hi & Hst). apply (Hgoal i Hi).
    intros now Hn. unfold claimable_item, lease_over. destruct Hst as [[Hst Hnx]|Ho].
    + rewrite Hst, Hnx. simpl. rewrite bool_decide_eq_false_2 by lia. done.
    + unfold is_open in Ho. by destruct (i_status i).
  - destruct (report_item_accepted _ _ _ _ _ _ _ (Hs _ _ Hbs) Hr) as (_ & _ & i & at_ & Hi & _ & _ & Hfin).
    apply (Hgoal i Hi). auto.
Qed.

(** ** Cooling down after a streak *)

(** A model that failed [cooldown_failures] times in a row, whatever came before, gets no
    claims until a whole cooldown after one of those failures. *)
Theorem streak_cools (t : timings) (model : string) (fails : list Q) (m : model_book) :
  0 < cooldown_failures t -> 0 <= default 0 (failure_streak m !! model) ->
  cooldown_failures t <= default 0 (failure_streak m !! model) + Z.of_nat (length fails) ->
  fails <> [] ->
  exists c, c ∈ fails /\
    cooldown_until (fold_left (fun m c => _model_failed t model c m) fails m) !! model = Some (c + cooldown_seconds t)%Q.
Proof.
  intros Hn. revert m. induction fails as [|c fails IH]; intros m Hs Hlen Hne; [done|]. cbn [fold_left length] in *.
  destruct (decide (default 0 (failure_streak m !! model) + 1 < cooldown_failures t)) as [Hlt|Hge].
  - assert (_model_failed t model c m = m <| failure_streak := <[model := default 0 (failure_streak m !! model) + 1]> (failure_streak m) |>) as ->
      by (unfold _model_failed; by rewrite decide_True).
    destruct (IH (m <| failure_streak := <[model := default 0 (failure_streak m !! model) + 1]> (failure_streak m) |>)) as (d & Hd & E).
    + simpl. rewrite lookup_insert_eq. simpl. lia.
    + simpl. rewrite lookup_insert_eq. simpl. lia.
    + intros ->. simpl in Hlen. lia.
    + exists d. split; [by right|done].
  - set (m1 := _model_failed t model c m).
    assert (cooldown_until m1 !! model = Some (c + cooldown_seconds t)%Q /\ failure_streak m1 !! model = None) as [Hc Hf].
    { unfold m1, _model_failed. rewrite decide_False by done. simpl. by rewrite lookup_insert_eq, lookup_delete_eq. }
    clearbody m1. clear IH Hs Hlen Hge Hne m.
    assert (forall l m', 0 <= default 0 (failure_streak m' !! model) -> (exists d, d ∈ c :: fails /\ cooldown_until m' !! model = Some (d + cooldown_seconds t)%Q) ->
      (forall d, d ∈ l -> d ∈ c :: fails) ->
      exists d, d ∈ c :: fails /\ cooldown_until (fold_left (fun m c => _model_failed t model c m) l m') !! model = Some (d + cooldown_seconds t)%Q) as Hgen.
    { induction l as [|d l IHl]; intros m' Hz Hex Hsub; [done|]. cbn [fold_left]. apply IHl.
      - unfold _model_failed. case_decide; simpl; [rewrite lookup_insert_eq; simpl; lia|by rewrite lookup_delete_eq].
      - unfold _model_failed. case_decide; simpl; [done|]. exists d. rewrite lookup_insert_eq. split; [apply Hsub; by left|done].
      - intros x Hx. apply Hsub. by right. }
    apply Hgen; [by rewrite Hf|exists c; split; [by left|done]|]. intros d Hd. by right.
Qed.

(** ** Witnesses *)

Definition demo_timings : timings := Timings 2000 5 900 5 180 3000000 15000000 300000000 3600000000 2.
Definition demo_work : work :=
  Work (batch_run (take 2 demo_start)) 0 0 0 false false (ModelBook ∅ ∅ ∅ ∅ ∅) [].
Definition demo_claim : claim := Claim "b" 1 1 1 "m" "u" None (Some 100000000).
Definition demo_oracle (_ : nat) : tick := Tick [] Answered 8 8 8.
Definition demo_answers (r : dispatch_result) : answers :=
  Answers true (Authenticated true) SlotGranted (Some None) (Dispatched r) 1 6.

Lemma worker_hands_back_witness :
  w_settled (_run_item demo_timings "w" demo_oracle demo_claim (demo_answers (DispatchResult false false (Some (1 # 2)%Q) Billed None false)) demo_work).1 = true.
Proof.
  assert (current "w" demo_claim (w_store demo_work) = true) as Hc by (vm_compute; reflexivity).
  destruct (worker_hands_back demo_timings "w" demo_oracle demo_claim
    (demo_answers (DispatchResult false false (Some (1 # 2)%Q) Billed None false)) (take 2 demo_start) demo_work
    ltac:(intros k; constructor) eq_refl Hc eq_refl) as (_ & _ & _ & H & _).
  apply H; [by intros k|]. split_and!; discriminate.
Defined.

Lemma retry_waits_witness :
  let p := _settle_result demo_timings "w" demo_oracle demo_claim (demo_answers (DispatchResult true true None NotBilled None false))
             (DispatchResult true true None NotBilled None false) demo_work in
  tries_again demo_timings (demo_oracle 0) demo_claim (demo_answers (DispatchResult true true None NotBilled None false)) = true /\
  w_settled p.1 = true.
Proof.
  split; [vm_compute; reflexivity|].
  assert (current "w" demo_claim (w_store demo_work) = true) as Hc by (vm_compute; reflexivity).
  destruct (retry_waits demo_timings "w" demo_oracle demo_claim (demo_answers (DispatchResult true true None NotBilled None false))
    (DispatchResult true true None NotBilled None false) (take 2 demo_start) demo_work eq_refl Hc eq_refl eq_refl eq_refl eq_refl
    ltac:(split; discriminate) ltac:(discriminate) ltac:(discriminate)) as (H & _).
  exact H.
Defined.
