(* ===== verification/PendingPrefix.v ===== *)
(** RouteWise's stash of prefixes awaiting an observation: [PendingPrefixCacheStore]
    ([routing/routewise/prefix_cache_pending.py]).

    The store is a Python dict used for its insertion order: new keys go to the end, a
    replacement keeps its place, [touch] moves its key to the end.  Only the front is
    ever inspected for expiry, which is right because the order is the order of last
    activity; that invariant is proved here, and from it that the sweep and the
    eviction at the cap remove what a search of the whole dict would. *)

From S2P Require Import Prelude.
From Stdlib Require Import Qround.

Local Open Scope Q_scope.

(** ** The store *)

Section store.
Context {B S : Type}.   (* prompt blocks; the cache scope of one endpoint *)

(** [PendingPrefixCacheEntry] *)
Record pending_entry : Type := PendingPrefixCacheEntry {
  blocks : B;
  scopes : list (string * S);
  created_at : Q;
  last_activity_at : Q
}.

(** [PendingPrefixCacheStore]; the dict in insertion order. *)
Record pending_store : Type := PendingPrefixCacheStore {
  _ttl_seconds : Q;
  _max_entries : nat;
  _entries : list (string * pending_entry)
}.
#[export] Instance eta_pending_store : Eta pending_store := fun s =>
  PendingPrefixCacheStore (_ttl_seconds s) (_max_entries s) (_entries s).

Inductive eviction_reason : Type := TtlEviction | SizeCapEviction.
#[export] Instance eviction_reason_eq : EqDecision eviction_reason.
Proof. solve_decision. Defined.

(** The telemetry of [_emit_eviction]: who, the entry, the count left, the reason, and
    the age and idle time in whole seconds. *)
Record eviction : Type := Eviction {
  ev_request : string;
  ev_entry : pending_entry;
  ev_pending_count : nat;
  ev_reason : eviction_reason;
  ev_age_sec : Z;
  ev_idle_sec : Z
}.

(** [__init__] *)
Definition new_pending (ttl_seconds : Q) (max_entries : Z) : pending_store :=
  PendingPrefixCacheStore (py_max 0 ttl_seconds) (Z.to_nat (Z.max 1 max_entries)) [].

(** [_is_expired] *)
Definition _is_expired (s : pending_store) (now : Q) (e : pending_entry) : bool :=
  bool_decide (_ttl_seconds s < now - last_activity_at e).

(** [_emit_eviction] *)
Definition _emit_eviction (now : Q) (id : string) (e : pending_entry) (reason : eviction_reason)
    (pending_count : nat) : eviction :=
  Eviction id e pending_count reason
    (Qfloor (py_max 0 (now - created_at e))) (Qfloor (py_max 0 (now - last_activity_at e))).

(** Insertion-ordered dicts: [d.get(k)], [d[k] = v] and [d.pop(k, None)]. *)
Fixpoint dict_get (d : list (string * pending_entry)) (k : string) : option pending_entry :=
  match d with
  | [] => None
  | (k', e) :: d => if decide (k' = k) then Some e else dict_get d k
  end.

Fixpoint dict_set (d : list (string * pending_entry)) (k : string) (e : pending_entry) :
    list (string * pending_entry) :=
  match d with
  | [] => [(k, e)]
  | (k', e') :: d => if decide (k' = k) then (k, e) :: d else (k', e') :: dict_set d k e
  end.

Fixpoint dict_pop (d : list (string * pending_entry)) (k : string) : list (string * pending_entry) :=
  match d with
  | [] => []
  | (k', e') :: d => if decide (k' = k) then d else (k', e') :: dict_pop d k
  end.

(** The [while len(entries) > max_entries] loop of [put]. *)
Fixpoint evict_over_cap (now : Q) (cap : nat) (d : list (string * pending_entry)) :
    list (string * pending_entry) * list eviction :=
  match d with
  | [] => ([], [])
  | (k, e) :: d' =>
      if decide (cap < length d)%nat
      then let '(d1, ev) := evict_over_cap now cap d' in
           (d1, _emit_eviction now k e SizeCapEviction (length d') :: ev)
      else (d, [])
  end.

(** The inspection of the oldest entry when a new key meets a full store. *)
Definition evict_stale_front (s : pending_store) (now : Q) (id : string) :
    list (string * pending_entry) * list eviction :=
  if decide (dict_get (_entries s) id = None /\ (_max_entries s <= length (_entries s))%nat)
  then match _entries s with
       | (k, e) :: d =>
           if _is_expired s now e then (d, [_emit_eviction now k e TtlEviction (length d)])
           else (_entries s, [])
       | [] => ([], [])
       end
  else (_entries s, []).

(** [put] *)
Definition put (s : pending_store) (now : Q) (id : string) (b : B) (sc : list (string * S)) :
    pending_store * list eviction :=
  if decide (id = "" \/ length sc = 0%nat) then (s, [])
  else
    let '(d, ev) := evict_stale_front s now id in
    let prior := dict_get d id in
    let d := dict_set d id (PendingPrefixCacheEntry b sc
               (match prior with Some p => created_at p | None => now end)
               (match prior with Some p => last_activity_at p | None => now end)) in
    let '(d, ev') := evict_over_cap now (_max_entries s) d in
    (s <| _entries := d |>, ev ++ ev').

(** [touch] *)
Definition touch (s : pending_store) (now : Q) (id : string) : pending_store * bool * list eviction :=
  if decide (id = "") then (s, false, [])
  else match dict_get (_entries s) id with
       | None => (s, false, [])
       | Some e =>
           let d := dict_pop (_entries s) id in
           if _is_expired s now e
           then (s <| _entries := d |>, false, [_emit_eviction now id e TtlEviction (length d)])
           else (s <| _entries := dict_set d id
                     (PendingPrefixCacheEntry (blocks e) (scopes e) (created_at e) now) |>, true, [])
       end.

(** [pop] *)
Definition pop (s : pending_store) (now : Q) (id : string) :
    pending_store * option pending_entry * list eviction :=
  if decide (id = "") then (s, None, [])
  else match dict_get (_entries s) id with
       | None => (s, None, [])
       | Some e =>
           let d := dict_pop (_entries s) id in
           let s' := s <| _entries := d |> in
           if _is_expired s now e
           then (s', None, [_emit_eviction now id e TtlEviction (length d)])
           else (s', Some e, [])
       end.

(** [discard] *)
Definition discard (s : pending_store) (id : string) : pending_store * bool :=
  if decide (id = "") then (s, false)
  else match dict_get (_entries s) id with
       | None => (s, false)
       | Some _ => (s <| _entries := dict_pop (_entries s) id |>, true)
       end.

(** [clear] *)
Definition clear (s : pending_store) : pending_store := s <| _entries := [] |>.

(** The loop of [sweep_expired]: entries leave at the front while they are expired. *)
Fixpoint sweep_loop (s : pending_store) (now : Q) (d : list (string * pending_entry)) :
    list (string * pending_entry) * list eviction :=
  match d with
  | [] => ([], [])
  | (k, e) :: d' =>
      if _is_expired s now e
      then let '(d1, ev) := sweep_loop s now d' in
           (d1, _emit_eviction now k e TtlEviction (length d') :: ev)
      else (d, [])
  end.

(** [sweep_expired] *)
Definition sweep_expired (s : pending_store) (now : Q) : pending_store * Z * list eviction :=
  let '(d, ev) := sweep_loop s now (_entries s) in
  (s <| _entries := d |>, Z.of_nat (length ev), ev).
End store.

(** ** Histories *)

Inductive pending_op {B S : Type} : Type :=
| PPut (id : string) (b : B) (sc : list (string * S))
| PTouch (id : string)
| PPop (id : string)
| PDiscard (id : string)
| PClear
| PSweep.
Arguments pending_op : clear implicits.
Arguments pending_store : clear implicits.
Arguments pending_entry : clear implicits.

Section correct.
Context {B S : Type}.
Implicit Types (s : pending_store B S) (d : list (string * pending_entry B S)).

Definition pending_step s (o : Q * pending_op B S) : pending_store B S :=
  match o.2 with
  | PPut id b sc => (put s o.1 id b sc).1
  | PTouch id => (touch s o.1 id).1.1
  | PPop id => (pop s o.1 id).1.1
  | PDiscard id => (discard s id).1
  | PClear => clear s
  | PSweep => (sweep_expired s o.1).1.1
  end.

Definition pending_run s (l : list (Q * pending_op B S)) : pending_store B S := fold_left pending_step l s.

(** The clock of the operations never goes back ([time.monotonic]); [now] is not before it. *)
Fixpoint pending_clocked (t : Q) (l : list (Q * pending_op B S)) (now : Q) : Prop :=
  match l with
  | [] => t <= now
  | o :: l => t <= o.1 /\ pending_clocked o.1 l now
  end.

(** What the order is about: the keys with their last activity. *)
Definition stamps d : list (string * Q) := (fun x => (x.1, last_activity_at x.2)) <$> d.

Record pending_ok (t : Q) s : Prop := {
  po_keys : NoDup (stamps (_entries s)).*1;
  po_order : StronglySorted (fun x y => x.2 <= y.2) (stamps (_entries s));
  po_past : Forall (fun x => x.2 <= t) (stamps (_entries s));
  po_size : (length (_entries s) <= _max_entries s)%nat;
  po_cap : (1 <= _max_entries s)%nat
}.

(** *** Dicts *)

Lemma dict_get_None d k : dict_get d k = None <-> k ∉ (stamps d).*1.
Proof.
  induction d as [|[k' e] d IH]; simpl; [split; [intros _; apply not_elem_of_nil|done]|]. rewrite not_elem_of_cons.
  case_decide; [naive_solver|]. rewrite IH. naive_solver.
Qed.

Lemma dict_get_Some d k e : NoDup (stamps d).*1 -> dict_get d k = Some e <-> (k, e) ∈ d.
Proof.
  induction d as [|[k' e'] d IH]; simpl; [intros _; split; [done|by intros ?%not_elem_of_nil]|].
  rewrite NoDup_cons, elem_of_cons. intros [Hn Hd]. case_decide as E; [subst|rewrite IH by done; naive_solver].
  split; [intros [= ->]; by left|]. intros [[= ->]|Hin]; [done|].
  destruct Hn. unfold stamps. rewrite <- list_fmap_compose. apply list_elem_of_fmap. by exists (k, e).
Qed.

Lemma dict_set_new d k e : dict_get d k = None -> dict_set d k e = d ++ [(k, e)].
Proof. induction d as [|[k' e'] d IH]; simpl; [done|]. case_decide; [done|]. intros Hd. by rewrite IH. Qed.

Lemma dict_set_stamps d k e p :
  dict_get d k = Some p -> last_activity_at e = last_activity_at p -> stamps (dict_set d k e) = stamps d.
Proof.
  intros Hp He. induction d as [|[k' e'] d IH]; simpl in *; [done|]. case_decide; simplify_eq/=; [by rewrite He|].
  by rewrite IH.
Qed.

Lemma dict_pop_sublist d k : dict_pop d k `sublist_of` d.
Proof. induction d as [|[k' e] d IH]; simpl; [done|]. case_decide; by constructor. Qed.

Lemma dict_pop_fresh d k : NoDup (stamps d).*1 -> dict_get (dict_pop d k) k = None.
Proof.
  induction d as [|[k' e] d IH]; simpl; [done|]. rewrite NoDup_cons. intros [Hn Hd].
  case_decide; subst; [by apply dict_get_None|]. simpl. case_decide; [done|]. by apply IH.
Qed.

Lemma Forall_sublist {A} (P : A -> Prop) l k : l `sublist_of` k -> Forall P k -> Forall P l.
Proof. intros Hs. rewrite !Forall_forall. intros Hp x Hx. eapply Hp, elem_of_sublist; eauto. Qed.

Lemma sublist_fmap {A A'} (f : A -> A') l k : l `sublist_of` k -> f <$> l `sublist_of` f <$> k.
Proof. induction 1; simpl; by constructor. Qed.

Lemma StronglySorted_sublist {A} (R : relation A) l k :
  l `sublist_of` k -> StronglySorted R k -> StronglySorted R l.
Proof.
  induction 1 as [|x l k Hs IH|x l k Hs IH]; intros Ho; inversion Ho; subst; auto.
  constructor; [auto|]. eapply Forall_sublist; eauto.
Qed.

Lemma StronglySorted_snoc {A} (R : relation A) l x :
  StronglySorted R l -> Forall (fun y => R y x) l -> StronglySorted R (l ++ [x]).
Proof.
  induction 1 as [|y l Hs IH Hy]; intros Hx; simpl; [repeat constructor|].
  inversion Hx; subst. constructor; [auto|]. apply Forall_app. by repeat constructor.
Qed.

Lemma stamps_sublist d d' : d `sublist_of` d' -> stamps d `sublist_of` stamps d'.
Proof. apply sublist_fmap. Qed.

(** *** Preservation *)

Lemma pending_ok_sublist t s d :
  pending_ok t s -> d `sublist_of` _entries s -> pending_ok t (s <| _entries := d |>).
Proof.
  intros [Hk Ho Hp Hs Hc] Hd. pose proof (stamps_sublist _ _ Hd) as Hst. constructor; simpl; try done.
  - eapply sublist_NoDup; [done|by apply sublist_fmap].
  - by eapply StronglySorted_sublist.
  - by eapply Forall_sublist.
  - apply sublist_length in Hd. lia.
Qed.

Lemma pending_ok_later t t' s : t <= t' -> pending_ok t s -> pending_ok t' s.
Proof.
  intros Ht [Hk Ho Hp Hs Hc]. constructor; try done. eapply Forall_impl; [exact Hp|]. simpl. intros; lra.
Qed.

(** A new key at the end, with the present for its last activity. *)
Lemma pending_ok_append t s d k e :
  pending_ok t s -> d `sublist_of` _entries s -> dict_get d k = None -> last_activity_at e = t ->
  (length d < _max_entries s)%nat -> pending_ok t (s <| _entries := dict_set d k e |>).
Proof.
  intros Hok Hd Hk He Hl. rewrite dict_set_new by done.
  destruct (pending_ok_sublist _ _ _ Hok Hd) as [Hks Hor Hpa _ Hc]. simpl in *.
  constructor; simpl; unfold stamps in *; rewrite ?fmap_app; simpl.
  - apply NoDup_app. split_and!; [done| |by apply NoDup_singleton].
    intros x Hx ->%list_elem_of_singleton. by apply dict_get_None in Hk.
  - apply StronglySorted_snoc; [done|]. eapply Forall_impl; [exact Hpa|]. simpl. intros; by rewrite He.
  - apply Forall_app. split; [done|]. repeat constructor. simpl. rewrite He. apply Qle_refl.
  - rewrite length_app. simpl. lia.
  - done.
Qed.

Lemma evict_over_cap_fits now cap d : (length d <= cap)%nat -> evict_over_cap now cap d = (d, []).
Proof. destruct d as [|[k e] d]; simpl; [done|]. intros H. rewrite decide_False by lia. done. Qed.

Lemma evict_over_cap_one now cap k e d :
  length d = cap -> evict_over_cap now cap ((k, e) :: d) = (d, [_emit_eviction now k e SizeCapEviction cap]).
Proof.
  intros H. cbn [evict_over_cap length]. rewrite decide_True by lia.
  rewrite evict_over_cap_fits by lia. by rewrite H.
Qed.

(** The four ways [put] goes. *)
Lemma put_cases s now id b sc :
  (1 <= _max_entries s)%nat -> (length (_entries s) <= _max_entries s)%nat -> id <> "" -> length sc <> 0%nat ->
  (exists p, dict_get (_entries s) id = Some p /\
     put s now id b sc = (s <| _entries := dict_set (_entries s) id
        (PendingPrefixCacheEntry b sc (created_at p) (last_activity_at p)) |>, [])) \/
  dict_get (_entries s) id = None /\ (length (_entries s) < _max_entries s)%nat /\
     put s now id b sc = (s <| _entries := dict_set (_entries s) id (PendingPrefixCacheEntry b sc now now) |>, []) \/
  dict_get (_entries s) id = None /\ length (_entries s) = _max_entries s /\
  exists k e d reason, _entries s = (k, e) :: d /\ (reason = TtlEviction <-> _is_expired s now e = true) /\
     put s now id b sc = (s <| _entries := dict_set d id (PendingPrefixCacheEntry b sc now now) |>,
       [_emit_eviction now k e reason (if decide (reason = TtlEviction) then length d else _max_entries s)]).
Proof.
  intros Hc Hs Hid Hsc. unfold put. rewrite decide_False by tauto. unfold evict_stale_front.
  destruct (dict_get (_entries s) id) as [p|] eqn:Ep.
  - left. exists p. split; [done|]. rewrite decide_False by (intros [? _]; congruence). rewrite Ep.
    rewrite evict_over_cap_fits; [done|].
    transitivity (length (stamps (_entries s))); [|unfold stamps; rewrite length_fmap; lia].
    erewrite <- dict_set_stamps; [unfold stamps; by rewrite length_fmap|exact Ep|done].
  - right. destruct (decide (length (_entries s) < _max_entries s)%nat) as [Hlt|Hge].
    + left. split_and!; [done..|]. rewrite decide_False by lia. rewrite Ep.
      rewrite dict_set_new by done. rewrite evict_over_cap_fits; [done|]. rewrite length_app. simpl. lia.
    + right. split_and!; [done|lia|]. rewrite decide_True by (split; [done|lia]).
      destruct (_entries s) as [|[k e] d] eqn:Ed; simpl in Hge, Hs; [lia|].
      assert (dict_get d id = None /\ k <> id) as [Hd Hk]
        by (simpl in Ep; case_decide; [done|]; by split).
      destruct (_is_expired s now e) eqn:Ex.
      * exists k, e, d, TtlEviction. split_and!; [done|done|]. rewrite Hd.
        rewrite dict_set_new by done. rewrite evict_over_cap_fits; [done|]. rewrite length_app. simpl. lia.
      * exists k, e, d, SizeCapEviction. split_and!; [done|split; congruence|]. cbn [dict_get dict_set].
        rewrite decide_False by done. rewrite Hd. rewrite decide_False by done.
        rewrite evict_over_cap_one by (rewrite dict_set_new by done; rewrite length_app; simpl; lia). done.
Qed.

Lemma put_ok t s now id b sc : t <= now -> pending_ok t s -> pending_ok now (put s now id b sc).1.
Proof.
  intros Ht Hok. assert (pending_ok now s) as Hn by (by eapply pending_ok_later).
  destruct (decide (id = "" \/ length sc = 0%nat)) as [E|E].
  { unfold put. by rewrite decide_True. }
  apply Decidable.not_or in E as [Hid Hsc].
  destruct (put_cases s now id b sc) as [(p & Hp & ->)|[(Hp & Hl & ->)|(Hp & Hl & k & e & d & r & Hd & _ & ->)]];
    try done; try apply Hok.
  - destruct Hn as [Hk Ho Hpa Hsz Hc]. cbn [fst].
    assert (stamps (dict_set (_entries s) id
      (PendingPrefixCacheEntry b sc (created_at p) (last_activity_at p))) = stamps (_entries s)) as Hst
      by (by eapply dict_set_stamps).
    constructor; simpl; rewrite ?Hst; try done.
    transitivity (length (stamps (_entries s))); [rewrite <- Hst|]; unfold stamps; by rewrite length_fmap.
  - by apply pending_ok_append.
  - cbn [fst]. apply pending_ok_append; [done| | |done|].
    + rewrite Hd. by constructor.
    + rewrite Hd in Hp. simpl in Hp. by case_decide.
    + rewrite <- Hl, Hd. simpl. lia.
Qed.

Lemma sweep_loop_sublist s now d : (sweep_loop s now d).1 `sublist_of` d.
Proof.
  induction d as [|[k e] d IH]; simpl; [done|]. destruct (_is_expired s now e); [|done].
  destruct (sweep_loop s now d). by constructor.
Qed.

Lemma pending_step_ok t s o : t <= o.1 -> pending_ok t s -> pending_ok o.1 (pending_step s o).
Proof.
  intros Ht Hok. assert (pending_ok o.1 s) as Hn by (by eapply pending_ok_later).
  unfold pending_step. destruct o as [now [id b sc|id|id|id| |]]; simpl in *.
  - by eapply put_ok.
  - unfold touch. case_decide; [done|]. destruct (dict_get (_entries s) id) as [e|] eqn:Ee; [|done].
    destruct (_is_expired s now e); cbn [fst]; [apply pending_ok_sublist; [done|apply dict_pop_sublist]|].
    apply pending_ok_append; [done|apply dict_pop_sublist|apply dict_pop_fresh, Hn|done|].
    eapply Nat.lt_le_trans; [|apply Hn]. clear -Ee. induction (_entries s) as [|[k e'] d IH]; simpl in *; [done|].
    case_decide; simpl; [lia|]. specialize (IH Ee). lia.
  - unfold pop. case_decide; [done|]. destruct (dict_get (_entries s) id) as [e|]; [|done].
    destruct (_is_expired s now e); cbn [fst]; (apply pending_ok_sublist; [done|apply dict_pop_sublist]).
  - unfold discard. case_decide; [done|]. destruct (dict_get (_entries s) id); [|done].
    apply pending_ok_sublist; [done|apply dict_pop_sublist].
  - apply pending_ok_sublist; [done|apply sublist_nil_l].
  - unfold sweep_expired. pose proof (sweep_loop_sublist s now (_entries s)) as Hs.
    destruct (sweep_loop s now (_entries s)). by apply pending_ok_sublist.
Qed.

Lemma pending_run_ok t s l now : pending_clocked t l now -> pending_ok t s -> pending_ok now (pending_run s l).
Proof.
  revert t s; induction l as [|o l IH]; intros t s; simpl; [intros Ht Ho; by eapply pending_ok_later|].
  intros [Ht Hl] Hok. eapply IH; [exact Hl|]. by eapply pending_step_ok.
Qed.

Lemma new_pending_ok t ttl cap : pending_ok t (new_pending ttl cap).
Proof. constructor; simpl; try constructor; lia. Qed.

(** *** The sweep *)

Definition is_live s now : string * pending_entry B S -> bool := fun x => negb (_is_expired s now x.2).

Lemma sweep_loop_filter s now d :
  StronglySorted (fun x y => x.2 <= y.2) (stamps d) -> (sweep_loop s now d).1 = filter (is_live s now) d.
Proof.
  induction d as [|[k e] d IH]; intros Ho; [done|]. simpl in Ho. inversion Ho as [|x l Hs Hle]; subst.
  cbn [sweep_loop]. destruct (_is_expired s now e) eqn:Ee.
  - rewrite filter_cons_False by (unfold is_live; cbn [snd]; rewrite Ee; cbn; tauto).
    rewrite <- IH by done. by destruct (sweep_loop s now d).
  - rewrite filter_cons_True by (unfold is_live; cbn [snd]; rewrite Ee; cbn; tauto). cbn [fst]. f_equal. symmetry.
    clear IH Ho Hs. induction d as [|[k' e'] d IH]; [done|]. simpl in Hle. inversion Hle as [|? ? Hh Ht]; subst.
    rewrite filter_cons_True; [f_equal; by apply IH|]. unfold is_live. apply Is_true_eq_left, negb_true_iff.
    simpl in *. unfold _is_expired in *. rewrite bool_decide_eq_false in *. lra.
Qed.

(** *** Eviction at the cap *)

Lemma dict_get_set_ne d k e k' : k' <> k -> dict_get (dict_set d k e) k' = dict_get d k'.
Proof.
  intros Hne. induction d as [|[j x] d IH]; simpl; [by rewrite decide_False|].
  destruct (decide (j = k)); simpl; [subst; by rewrite !decide_False by done|]. by rewrite IH.
Qed.

Lemma front_oldest d k e k' e' :
  StronglySorted (fun x y => x.2 <= y.2) (stamps ((k, e) :: d)) -> (k', e') ∈ (k, e) :: d ->
  last_activity_at e <= last_activity_at e'.
Proof.
  intros Ho. inversion Ho as [|x l Hs Hle]; subst. rewrite elem_of_cons. intros [[= -> ->]|Hin]; [apply Qle_refl|].
  rewrite Forall_forall in Hle. apply (Hle (k', last_activity_at e')).
  apply list_elem_of_fmap. by exists (k', e').
Qed.

(** The stash is a bounded, least-recently-active store, and looking only at the
    front of the dict is enough.  After any history of puts, touches, pops, discards,
    clears and sweeps on a clock that does not go back: it holds at most its capacity;
    a sweep leaves exactly the entries that have not expired, in order, and reports
    every other one as the count it returns; and a [put] evicts another request's entry
    only for a new key in a full store, one at most, that one being the least recently
    active, so a live entry is never lost while an expired one is kept. *)
Theorem pending_store_correct (ttl : Q) (cap : Z) (t0 : Q) (l : list (Q * pending_op B S)) (now : Q) :
  pending_clocked t0 l now ->
  let s := pending_run (new_pending ttl cap) l in
  (length (_entries s) <= _max_entries s)%nat /\
  (let '(s', n, _) := sweep_expired s now in
   _entries s' = filter (is_live s now) (_entries s) /\
   n = (Z.of_nat (length (_entries s)) - Z.of_nat (length (_entries s')))%Z) /\
  (forall id b sc k e, k <> id -> dict_get (_entries s) k = Some e ->
     dict_get (_entries (put s now id b sc).1) k = None ->
     dict_get (_entries s) id = None /\ length (_entries s) = _max_entries s /\
     length (put s now id b sc).2 = 1%nat /\
     forall k' e', dict_get (_entries s) k' = Some e' ->
       last_activity_at e <= last_activity_at e' /\ (_is_expired s now e' -> _is_expired s now e)).
Proof.
  intros Hc s. assert (pending_ok now s) as Hok by (eapply pending_run_ok; [done|apply new_pending_ok]).
  split; [apply Hok|split].
  - unfold sweep_expired. pose proof (sweep_loop_filter s now _ (po_order _ _ Hok)) as Hf.
    assert (forall d, length d = (length (sweep_loop s now d).1 + length (sweep_loop s now d).2)%nat) as Hlen.
    { clear. induction d as [|[k e] d IH]; simpl; [done|]. destruct (_is_expired s now e); [|simpl; lia].
      destruct (sweep_loop s now d). simpl in *. lia. }
    specialize (Hlen (_entries s)). destruct (sweep_loop s now (_entries s)) as [d ev]. cbn in *. split; [done|lia].
  - intros id b sc k e Hk He Hgone.
    destruct (decide (id = "" \/ length sc = 0%nat)) as [E|E].
    { unfold put in Hgone. rewrite decide_True in Hgone by done. cbn in Hgone. congruence. }
    apply Decidable.not_or in E as [Hid Hsc].
    destruct (put_cases s now id b sc) as [(p & Hp & Eq)|[(Hp & Hl & Eq)|(Hp & Hl & k0 & e0 & d & r & Hd & _ & Eq)]];
      try done; try apply Hok; rewrite Eq in *; cbn in Hgone; rewrite dict_get_set_ne in Hgone by done; try congruence.
    rewrite Hd in He. cbn [dict_get] in He. destruct (decide (k0 = k)); [|congruence]. simplify_eq. split_and!; try done.
    intros k' e' Hk'. apply dict_get_Some in Hk'; [|apply Hok]. pose proof (po_order _ _ Hok) as Ho. rewrite Hd in Ho, Hk'.
    pose proof (front_oldest _ _ _ _ _ Ho Hk') as Hle. split; [done|].
    unfold _is_expired. rewrite !bool_decide_spec. lra.
Qed.
End correct.

(** ** Sample *)

Module PendingSample.
Definition l : list (Q * pending_op nat nat) :=
  [(0, PPut "a" 1%nat [("e", 0%nat)]); (1, PPut "b" 2%nat [("e", 0%nat)]); (4, PTouch "a")].

Example after_touch : stamps (_entries (pending_run (new_pending 5 2) l)) = [("b", 1); ("a", 4)].
Proof. vm_compute. reflexivity. Qed.
End PendingSample.

Lemma pending_store_correct_witness :
  let s := pending_run (new_pending 5 2) PendingSample.l in
  pending_clocked 0 PendingSample.l 7 /\ _entries (sweep_expired s 7).1.1 = filter (is_live s 7) (_entries s).
Proof.
  assert (pending_clocked 0 PendingSample.l 7) as H by (cbn; lra).
  split; [exact H|].
  destruct (pending_store_correct 5 2 0 PendingSample.l 7 H) as (_ & Hs & _).
  unfold sweep_expired in *. destruct (sweep_loop _ _ _) as [d ev]. exact (proj1 Hs).
Defined.
