(* ===== verification/RouteEstimates.v ===== *)
(** What RouteWise estimates from past traffic: the latency profile of an endpoint
    ([routing/routewise/latency.py]), the output-length predictor
    ([routing/routewise/predictor.py]), the workload cost envelope
    ([routing/routewise/envelope.py]) and the costs computed from them
    ([routing/routewise/effective_cost.py]).

    The profile answers every routing decision from running aggregates; the theorem
    about it says these are exactly what a scan of the window would compute.  The
    envelope is what the quota shadow price is read from; the theorem about it says
    that it is well formed and inside the observed costs. *)

From S2P Require Import Prelude.
From Stdlib Require Import Qround Qfield.

Local Open Scope Q_scope.

(** ** Bounded windows

    A [deque] of timestamped elements with an optional [maxlen], pruned at the front:
    under a clock that does not go back it holds what a filter over the last [maxlen]
    elements would. *)

Section window.
Context {A : Type} (time : A -> Q).
Implicit Types (l : list A) (cap : option nat).

(** [deque.append]: a full deque drops its oldest element. *)
Definition push cap l (x : A) : list A :=
  match cap with
  | Some n => if bool_decide (length l = n) then tail l ++ [x] else l ++ [x]
  | None => l ++ [x]
  end.

(** [while q and q[0].time < cutoff: q.popleft()] *)
Fixpoint from_cutoff (cutoff : Q) l : list A :=
  match l with
  | x :: l' => if bool_decide (time x < cutoff) then from_cutoff cutoff l' else l
  | [] => []
  end.

(** The last [n] elements; all of them without a bound. *)
Definition last_n cap l : list A :=
  match cap with Some n => drop (length l - n) l | None => l end.

(** Whether an element is not older than [cutoff]. *)
Definition recent (cutoff : Q) (x : A) : bool := bool_decide (cutoff <= time x).

(** The window a scan would look at: of the last [maxlen] elements, the recent ones. *)
Definition scan_window (window : Q) cap (now : Q) l : list A :=
  filter (recent (now - window)) (last_n cap l).

Definition by_time : relation A := fun x y => time x <= time y.

(** [l] is what is left, at a clock reading [t], of the appended elements [all]. *)
Record kept (w : Q) cap (t : Q) (all l : list A) : Prop := {
  ke_some : match cap with Some n => (1 <= n)%nat | None => True end;
  ke_sorted : StronglySorted by_time all;
  ke_past : Forall (fun x => time x <= t) all;
  ke_kept : exists old, last_n cap all = old ++ l /\ Forall (fun x => time x < t - w) old
}.

Lemma from_cutoff_filter cutoff l :
  StronglySorted by_time l -> from_cutoff cutoff l = filter (recent cutoff) l.
Proof.
  induction 1 as [|x l Hs IH Hx]; [done|]. cbn [from_cutoff]. rewrite filter_bool_cons.
  unfold recent at 1. case_bool_decide; [rewrite bool_decide_false by lra; done|].
  rewrite bool_decide_true by lra. f_equal. clear IH Hs. induction l as [|y l IH]; [done|]. inversion Hx as [|? ? Hy Hl]; subst. rewrite filter_bool_cons.
  unfold by_time in Hy. unfold recent at 1. rewrite bool_decide_true by lra. f_equal. by apply IH.
Qed.

Lemma from_cutoff_split cutoff l :
  exists old, l = old ++ from_cutoff cutoff l /\ Forall (fun x => time x < cutoff) old.
Proof.
  induction l as [|x l (old & E & Ho)]; [by exists []|]. cbn [from_cutoff]. case_bool_decide; [|by exists []].
  exists (x :: old). split; [by rewrite E at 1|by constructor].
Qed.

Lemma last_n_snoc n l x :
  (1 <= n)%nat -> last_n (Some n) (l ++ [x]) =
  (if bool_decide (length l < n)%nat then last_n (Some n) l else tail (last_n (Some n) l)) ++ [x].
Proof.
  intros Hn. unfold last_n. rewrite length_app. cbn [length]. case_bool_decide.
  - replace (length l + 1 - n)%nat with 0%nat by lia. replace (length l - n)%nat with 0%nat by lia. done.
  - replace (length l + 1 - n)%nat with (length l - n + 1)%nat by lia.
    rewrite drop_app_le by lia. f_equal. rewrite <- drop_drop. by destruct (drop (length l - n) l).
Qed.

Lemma last_n_length n l : length (last_n (Some n) l) = (n `min` length l)%nat.
Proof. unfold last_n. rewrite length_drop. lia. Qed.

Lemma by_time_snoc l x : StronglySorted by_time l -> Forall (fun y => time y <= time x) l -> StronglySorted by_time (l ++ [x]).
Proof.
  induction 1 as [|y l Hs IH Hy]; intros Hx; simpl; [repeat constructor|].
  inversion Hx; subst. constructor; [auto|]. apply Forall_app. by repeat constructor.
Qed.

Lemma sorted_suffix l l' : StronglySorted by_time (l ++ l') -> StronglySorted by_time l'.
Proof. induction l as [|x l IH]; [done|]. intros H. inversion H; subst. auto. Qed.

Lemma sorted_last_n cap l : StronglySorted by_time l -> StronglySorted by_time (last_n cap l).
Proof.
  destruct cap as [n|]; [|done]. cbn. intros H. rewrite <- (take_drop (length l - n) l) in H. by apply sorted_suffix in H.
Qed.

Lemma kept_later w cap t t' all l : t <= t' -> kept w cap t all l -> kept w cap t' all l.
Proof.
  intros Ht [H1 Hs Hp (old & Hk & Ho)]. constructor; try done.
  - eapply Forall_impl; [exact Hp|]. cbn. intros; lra.
  - exists old. split; [done|]. eapply Forall_impl; [exact Ho|]. cbn. intros; lra.
Qed.

Lemma kept_push w cap t all l x :
  t <= time x -> kept w cap t all l -> kept w cap (time x) (all ++ [x]) (push cap l x).
Proof.
  intros Ht Hk0. apply (kept_later _ _ _ (time x)) in Hk0; [|done]. destruct Hk0 as [H1 Hs Hp (old & Hk & Ho)].
  constructor; [done|by apply by_time_snoc|apply Forall_app; split; [done|]; repeat constructor; apply Qle_refl|].
  destruct cap as [n|]; [|exists old; cbn in *; by rewrite Hk, app_assoc]. unfold push.
  pose proof (last_n_length n all) as Hlen. rewrite Hk, length_app in Hlen. rewrite last_n_snoc by done.
  destruct (decide (length l = n)) as [E|E].
  - assert (old = []) as -> by (apply length_zero_iff_nil; lia). cbn [length app] in Hk, Hlen.
    rewrite bool_decide_false by lia. rewrite (bool_decide_true _ E), Hk. by exists [].
  - rewrite (bool_decide_false _ E), Hk. case_bool_decide; [exists old; by rewrite app_assoc|].
    destruct old as [|y old]; cbn [length] in Hlen; [lia|]. cbn. exists old. inversion Ho. by rewrite app_assoc.
Qed.

Lemma kept_prune w cap t all l now :
  t <= now -> kept w cap t all l -> kept w cap now all (from_cutoff (now - w) l).
Proof.
  intros Ht Hk0. apply (kept_later _ _ _ now) in Hk0; [|done]. destruct Hk0 as [H1 Hs Hp (old & Hk & Ho)].
  destruct (from_cutoff_split (now - w) l) as (old' & E & Ho'). constructor; try done.
  exists (old ++ old'). rewrite <- app_assoc, <- E. split; [done|]. by apply Forall_app.
Qed.

(** Pruning leaves exactly the scan's window. *)
Lemma kept_window w cap now all l : kept w cap now all l -> from_cutoff (now - w) l = scan_window w cap now all.
Proof.
  intros [H1 Hs Hp (old & Hk & Ho)]. unfold scan_window. rewrite Hk, filter_app, filter_none; [cbn|].
  - apply from_cutoff_filter. apply (sorted_suffix old). rewrite <- Hk. by apply sorted_last_n.
  - intros x Hx. rewrite Forall_forall in Ho. specialize (Ho x Hx). unfold recent. rewrite bool_decide_spec. lra.
Qed.

Lemma kept_nil w cap t : match cap with Some n => (1 <= n)%nat | None => True end -> kept w cap t [] [].
Proof. intros H. constructor; [done|constructor|constructor|]. exists []. by destruct cap. Qed.
End window.

(** ** The latency profile *)

(** A request outcome: timestamp, TTFT in ms, error type. *)
Definition outcome : Type := Q * Q * option string.
Definition at_time (x : outcome) : Q := x.1.1.

(** [ProviderProfile]; [_events] oldest first. *)
Record profile : Type := ProviderProfile {
  window_sec : Q;
  max_samples : nat;
  _events : list outcome;
  _success_count : Z;
  _success_sum_ms : Q;
  _error_count : Z
}.
#[export] Instance eta_profile : Eta profile := fun p =>
  ProviderProfile (window_sec p) (max_samples p) (_events p) (_success_count p) (_success_sum_ms p) (_error_count p).

(** [__post_init__] *)
Definition new_profile (window : Q) (cap : Z) : profile :=
  ProviderProfile window (Z.to_nat (Z.max cap 1)) [] 0 0 0.

(** A timed success, and an error. *)
Definition is_timed (x : outcome) : bool := bool_decide (x.2 = None) && bool_decide (0 < x.1.2).
Definition is_error (x : outcome) : bool := bool_decide (x.2 <> None).

(** [_add_to_aggregates] *)
Definition _add_to_aggregates (p : profile) (x : outcome) : profile :=
  if is_error x then p <| _error_count := (_error_count p + 1)%Z |>
  else if bool_decide (0 < x.1.2)
  then (p <| _success_count := (_success_count p + 1)%Z |>) <| _success_sum_ms := _success_sum_ms p + x.1.2 |>
  else p.

(** [_remove_from_aggregates] *)
Definition _remove_from_aggregates (p : profile) (x : outcome) : profile :=
  let p :=
    if is_error x then p <| _error_count := (_error_count p - 1)%Z |>
    else if bool_decide (0 < x.1.2)
    then (p <| _success_count := (_success_count p - 1)%Z |>) <| _success_sum_ms := _success_sum_ms p - x.1.2 |>
    else p in
  if bool_decide (_success_count p <= 0)%Z
  then (p <| _success_count := 0%Z |>) <| _success_sum_ms := 0 |> else p.

(** [record]; an append to a full deque drops its oldest element. *)
Definition profile_record (p : profile) (ts ttft_ms : Q) (error_type : option string) : profile :=
  let full := bool_decide (length (_events p) = max_samples p) in
  let p1 := match _events p with
            | x :: _ => if full then _remove_from_aggregates p x else p
            | [] => p
            end in
  let x := (ts, ttft_ms, error_type) in
  _add_to_aggregates (p1 <| _events := (if full then tail (_events p) else _events p) ++ [x] |>) x.

(** The loop of [_prune]. *)
Fixpoint prune_loop (cutoff : Q) (events : list outcome) (p : profile) : profile :=
  match events with
  | x :: events' =>
      if bool_decide (at_time x < cutoff)
      then prune_loop cutoff events' ((_remove_from_aggregates p x) <| _events := events' |>)
      else p
  | [] => p
  end.

(** [_prune] *)
Definition _prune (p : profile) (now : Q) : profile := prune_loop (now - window_sec p) (_events p) p.

(** [total_count], [sample_count] and [last_event_time] *)
Definition total_count (p : profile) (now : Q) : Z :=
  let p := _prune p now in (_success_count p + _error_count p)%Z.

Definition sample_count (p : profile) (now : Q) : Z := _success_count (_prune p now).

Definition last_event_time (p : profile) (now : Q) : option Q :=
  (fun x => x.1.1) <$> last (_events (_prune p now)).

(** [mean_with_errors_sec] *)
Definition mean_with_errors_sec (p : profile) (now error_penalty_ms : Q) : option Q :=
  let p := _prune p now in
  let total := (_success_count p + _error_count p)%Z in
  if decide (total = 0%Z) then None
  else Some ((_success_sum_ms p + inject_Z (_error_count p) * error_penalty_ms) / inject_Z total / 1000).

(** [mean_ttft_sec]; [None] is infinity. *)
Definition mean_ttft_sec (p : profile) (now : Q) : option Q :=
  let p := _prune p now in
  if decide (_success_count p = 0%Z) then None
  else Some (_success_sum_ms p / inject_Z (_success_count p) / 1000).

(** [cdf_at] *)
Definition within (threshold_sec : Q) (x : outcome) : bool :=
  is_timed x && bool_decide (x.1.2 / 1000 <= threshold_sec).

Definition cdf_at (p : profile) (threshold_sec now : Q) : Q :=
  let p := _prune p now in
  if decide (_success_count p = 0%Z) then 0
  else
    let success_within := filter (within threshold_sec) (_events p) in
    let f_success := inject_Z (Z.of_nat (length success_within)) / inject_Z (_success_count p) in
    let success_rate := 1 - inject_Z (_error_count p) / inject_Z (_success_count p + _error_count p) in
    success_rate * f_success.

(** *** The scan *)

Definition ttft_sum (l : list outcome) : Q := foldr (fun x s => x.1.2 + s) 0 l.
Definition timed (l : list outcome) : list outcome := filter is_timed l.
Definition errors (l : list outcome) : list outcome := filter is_error l.

(** *** The aggregates are the scan's *)

Definition aggregates_ok (p : profile) : Prop :=
  _success_count p = Z.of_nat (length (timed (_events p))) /\
  _success_sum_ms p == ttft_sum (timed (_events p)) /\
  _error_count p = Z.of_nat (length (errors (_events p))).

Lemma ttft_sum_app l l' : ttft_sum (l ++ l') == ttft_sum l + ttft_sum l'.
Proof. induction l as [|x l IH]; simpl; [lra|]. rewrite IH. lra. Qed.

Lemma outcome_cases x :
  is_error x = true /\ is_timed x = false \/
  is_error x = false /\ is_timed x = bool_decide (0 < x.1.2).
Proof.
  unfold is_error, is_timed. destruct x.2; [left|right]; rewrite ?andb_false_r; done.
Qed.

Lemma timed_cons x l : timed (x :: l) = if is_timed x then x :: timed l else timed l.
Proof. apply filter_bool_cons. Qed.

Lemma errors_cons x l : errors (x :: l) = if is_error x then x :: errors l else errors l.
Proof. apply filter_bool_cons. Qed.

Lemma timed_app l l' : timed (l ++ l') = timed l ++ timed l'.
Proof. apply filter_app. Qed.

Lemma errors_app l l' : errors (l ++ l') = errors l ++ errors l'.
Proof. apply filter_app. Qed.

(** Reduces record projections and updates, and nothing of the arithmetic. *)
Local Ltac shrink := cbn -[Qeq Qplus Qminus Z.of_nat Z.add Z.sub ttft_sum timed errors] in *.

Lemma remove_ok p x l :
  _events p = x :: l -> aggregates_ok p -> aggregates_ok ((_remove_from_aggregates p x) <| _events := l |>).
Proof.
  intros He (Hc & Hs & Hr). rewrite He, timed_cons in Hc, Hs. rewrite He, errors_cons in Hr.
  assert (forall n, n = Z.of_nat (length (timed l)) -> (n <= 0)%Z -> timed l = []) as Hnil
    by (intros n Hn ?; apply length_zero_iff_nil; lia).
  unfold aggregates_ok, _remove_from_aggregates.
  destruct (outcome_cases x) as [[E1 E2]|[E1 E2]]; rewrite E1; rewrite E1 in Hr; rewrite E2 in Hc, Hs;
    [|destruct (bool_decide (0 < x.1.2)); clear E2]; cbn [ttft_sum foldr length] in Hc, Hs, Hr; shrink; case_bool_decide as Hz; shrink; split_and!; try lia; try done;
    try (rewrite (Hnil (_success_count p)) by lia; done); try (rewrite (Hnil (_success_count p - 1)%Z) by lia; done).
  fold (ttft_sum (timed l)) in Hs. lra.
Qed.

Lemma add_ok p x l :
  _events p = l ++ [x] -> aggregates_ok (p <| _events := l |>) -> aggregates_ok (_add_to_aggregates p x).
Proof.
  intros He (Hc & Hs & Hr). shrink. unfold aggregates_ok, _add_to_aggregates.
  destruct (outcome_cases x) as [[E1 E2]|[E1 E2]]; rewrite E1; [|destruct (bool_decide (0 < x.1.2)) eqn:E3];
    shrink; rewrite He, timed_app, errors_app, timed_cons, errors_cons, E1, E2; change (timed []) with (@nil outcome);
    change (errors []) with (@nil outcome); rewrite ?app_nil_r, ?length_app; cbn [length];
    split_and!; try lia; try done.
  rewrite ttft_sum_app, Hs. cbn [ttft_sum foldr]. lra.
Qed.

Lemma record_ok p ts ttft err :
  aggregates_ok p -> aggregates_ok (profile_record p ts ttft err).
Proof.
  intros Hok. unfold profile_record. destruct (_events p) as [|x l] eqn:El.
  - eapply add_ok; [reflexivity|]. unfold aggregates_ok in *. rewrite El in Hok. case_bool_decide; exact Hok.
  - case_bool_decide; (eapply add_ok; [reflexivity|]).
    + by apply remove_ok.
    + unfold aggregates_ok in *. rewrite El in Hok. exact Hok.
Qed.

(** [_remove_from_aggregates] touches the counters only. *)
Lemma remove_frame p x :
  window_sec (_remove_from_aggregates p x) = window_sec p /\ max_samples (_remove_from_aggregates p x) = max_samples p /\
  _events (_remove_from_aggregates p x) = _events p.
Proof. unfold _remove_from_aggregates. destruct (is_error x); [|case_bool_decide]; case_bool_decide; done. Qed.

Lemma add_frame p x :
  window_sec (_add_to_aggregates p x) = window_sec p /\ max_samples (_add_to_aggregates p x) = max_samples p /\
  _events (_add_to_aggregates p x) = _events p.
Proof. unfold _add_to_aggregates. destruct (is_error x); [|case_bool_decide]; done. Qed.

Lemma prune_loop_spec cutoff l p :
  _events p = l -> aggregates_ok p ->
  aggregates_ok (prune_loop cutoff l p) /\ _events (prune_loop cutoff l p) = from_cutoff at_time cutoff l /\
  window_sec (prune_loop cutoff l p) = window_sec p /\ max_samples (prune_loop cutoff l p) = max_samples p.
Proof.
  revert p; induction l as [|x l IH]; intros p He Hok; cbn; [by rewrite He|].
  case_bool_decide; [|by rewrite He].
  destruct (IH ((_remove_from_aggregates p x) <| _events := l |>)) as (H1 & H2 & H3 & H4); [done|by apply remove_ok|].
  destruct (remove_frame p x) as (F1 & F2 & _). split_and!; [done|done|etrans; [apply H3|apply F1]|etrans; [apply H4|apply F2]].
Qed.

Lemma prune_spec p now :
  aggregates_ok p ->
  aggregates_ok (_prune p now) /\ _events (_prune p now) = from_cutoff at_time (now - window_sec p) (_events p) /\
  window_sec (_prune p now) = window_sec p /\ max_samples (_prune p now) = max_samples p.
Proof. intros Hok. by apply prune_loop_spec. Qed.

(** *** The window *)

Inductive profile_op : Type :=
| Observe (ttft_ms : Q) (error_type : option string)   (* [record] *)
| Ask.                                                 (* any query: it prunes *)

Definition profile_step (p : profile) (o : Q * profile_op) : profile :=
  match o.2 with
  | Observe ttft err => profile_record p o.1 ttft err
  | Ask => _prune p o.1
  end.

Definition profile_run (p : profile) (l : list (Q * profile_op)) : profile := fold_left profile_step l p.

(** The outcomes a history reported. *)
Definition observed (l : list (Q * profile_op)) : list outcome :=
  omap (fun o => match o.2 with Observe ttft err => Some (o.1, ttft, err) | Ask => None end) l.

Fixpoint in_order (t : Q) (l : list (Q * profile_op)) (now : Q) : Prop :=
  match l with
  | [] => t <= now
  | o :: l => t <= o.1 /\ in_order o.1 l now
  end.

Record window_ok (w : Q) (cap : nat) (t : Q) (all : list outcome) (p : profile) : Prop := {
  wo_window : window_sec p = w;
  wo_cap : max_samples p = cap;
  wo_kept : kept at_time w (Some cap) t all (_events p);
  wo_agg : aggregates_ok p
}.

Lemma record_frame p ts ttft err :
  window_sec (profile_record p ts ttft err) = window_sec p /\ max_samples (profile_record p ts ttft err) = max_samples p /\
  _events (profile_record p ts ttft err) = push (Some (max_samples p)) (_events p) (ts, ttft, err).
Proof.
  unfold profile_record.
  match goal with |- window_sec (_add_to_aggregates ?q ?y) = _ /\ _ => destruct (add_frame q y) as (-> & -> & ->) end.
  cbn. destruct (_events p) as [|y l]; [by case_bool_decide|]. case_bool_decide; [|done].
  destruct (remove_frame p y) as (-> & -> & _). done.
Qed.

Lemma profile_step_ok w cap t all p o :
  t <= o.1 -> window_ok w cap t all p -> window_ok w cap o.1 (all ++ observed [o]) (profile_step p o).
Proof.
  intros Ht [Hw Hc Hk Ha]. destruct o as [now [ttft err|]]; unfold profile_step; cbn [fst snd observed omap list_omap] in *.
  - destruct (record_frame p now ttft err) as (F1 & F2 & F3). constructor; try congruence; [|by apply record_ok].
    rewrite F3, Hc. by apply (kept_push at_time w (Some cap) t all (_events p) (now, ttft, err)).
  - rewrite app_nil_r. destruct (prune_spec p now Ha) as (A1 & A2 & A3 & A4). constructor; try congruence.
    rewrite A2, Hw. by apply (kept_prune at_time w (Some cap) t).
Qed.

Lemma profile_run_ok w cap t all p l now :
  in_order t l now -> window_ok w cap t all p -> window_ok w cap now (all ++ observed l) (profile_run p l).
Proof.
  revert t all p; induction l as [|o l IH]; intros t all p; cbn [in_order].
  - intros Ht [Hw Hc Hk Ha]. cbn. rewrite app_nil_r. constructor; try done. by eapply kept_later.
  - intros [Ht Hl] Hok. change (o :: l) with ([o] ++ l). unfold observed. rewrite omap_app, app_assoc.
    apply (IH o.1); [done|]. by apply (profile_step_ok w cap t).
Qed.

Lemma new_profile_ok t w cap : window_ok w (Z.to_nat (Z.max cap 1)) t [] (new_profile w cap).
Proof. constructor; [done|done|apply kept_nil; lia|by split]. Qed.

(** A query looks at exactly the scan's window. *)
Lemma prune_is_window w cap now all p :
  window_ok w cap now all p ->
  _events (_prune p now) = scan_window at_time w (Some cap) now all /\ aggregates_ok (_prune p now).
Proof.
  intros [Hw Hc Hk Ha]. destruct (prune_spec p now Ha) as (A1 & A2 & _ & _). split; [|done].
  rewrite A2, Hw. by apply kept_window.
Qed.

(** *** Answers *)

Lemma within_timed th l :
  (length (filter (within th) l) <= length (timed l))%nat.
Proof.
  induction l as [|x l IH]; [done|]. rewrite timed_cons, filter_bool_cons.
  change (within th x) with (is_timed x && bool_decide (x.1.2 / 1000 <= th)).
  destruct (is_timed x); cbn [andb]; [case_bool_decide; cbn [length]; lia|done].
Qed.

Lemma cdf_bounds s e k :
  (0 < s)%Z -> (0 <= e)%Z -> (0 <= k <= s)%Z ->
  0 <= (1 - inject_Z e / inject_Z (s + e)) * (inject_Z k / inject_Z s) <= 1.
Proof.
  intros Hs He Hk.
  assert (0 < inject_Z s) as Hs' by (change 0 with (inject_Z 0); rewrite <- Zlt_Qlt; lia).
  assert (0 < inject_Z (s + e)) as Hse by (change 0 with (inject_Z 0); rewrite <- Zlt_Qlt; lia).
  assert (0 <= inject_Z e / inject_Z (s + e) <= 1) as [L1 L2].
  { split; [apply Qle_shift_div_l|apply Qle_shift_div_r]; try done; rewrite ?Qmult_0_l, ?Qmult_1_l;
      [change 0 with (inject_Z 0)|]; rewrite <- Zle_Qle; lia. }
  assert (0 <= inject_Z k / inject_Z s <= 1) as [L3 L4].
  { split; [apply Qle_shift_div_l|apply Qle_shift_div_r]; try done; rewrite ?Qmult_0_l, ?Qmult_1_l;
      [change 0 with (inject_Z 0)|]; rewrite <- Zle_Qle; lia. }
  split; nra.
Qed.

(** C24: The running aggregates of an endpoint's latency profile answer as a scan of the
    window would.  After any history of recorded outcomes and queries in time order, a
    query looks at exactly the outcomes that are both among the last [max_samples]
    reported and not older than the window: the counts are theirs, the penalised mean is
    the mean over their timed successes and errors (and is absent only when there are
    none), and the CDF is the success rate times the share of timed successes within the
    threshold, always between 0 and 1. *)
Theorem profile_is_scan (window : Q) (cap : Z) (t0 : Q) (l : list (Q * profile_op)) (now penalty th : Q) :
  in_order t0 l now ->
  let p := profile_run (new_profile window cap) l in
  let W := scan_window at_time window (Some (Z.to_nat (Z.max cap 1))) now (observed l) in
  let s := Z.of_nat (length (timed W)) in
  let e := Z.of_nat (length (errors W)) in
  total_count p now = (s + e)%Z /\ sample_count p now = s /\
  last_event_time p now = (fun x => x.1.1) <$> last W /\
  match mean_with_errors_sec p now penalty with
  | None => s = 0%Z /\ e = 0%Z
  | Some m => (0 < s + e)%Z /\
      m == (ttft_sum (timed W) + inject_Z e * penalty) / inject_Z (s + e) / 1000
  end /\
  match mean_ttft_sec p now with
  | None => s = 0%Z
  | Some m => (0 < s)%Z /\ m == ttft_sum (timed W) / inject_Z s / 1000
  end /\
  (cdf_at p th now ==
     if decide (s = 0%Z) then 0
     else (1 - inject_Z e / inject_Z (s + e)) *
          (inject_Z (Z.of_nat (length (filter (within th) W))) /
           inject_Z s)) /\
  0 <= cdf_at p th now <= 1.
Proof.
  intros Hl p W s e.
  assert (window_ok window (Z.to_nat (Z.max cap 1)) now (observed l) p) as Hok
    by (apply (profile_run_ok _ _ t0 []); [done|apply new_profile_ok]).
  destruct (prune_is_window _ _ _ _ _ Hok) as [He (Hc & Hs & Hr)]. fold W in He. rewrite He in *. fold s e in Hc, Hr.
  unfold total_count, sample_count, last_event_time, mean_with_errors_sec, mean_ttft_sec, cdf_at.
  rewrite Hc, Hr, He. split_and!; try done.
  - case_decide; [lia|]. split; [lia|]. by rewrite Hs.
  - case_decide; [done|]. split; [lia|]. by rewrite Hs.
  - case_decide; [lra|]. pose proof (cdf_bounds s e (Z.of_nat (length (filter (within th) W)))) as Hb.
    pose proof (within_timed th W). apply Hb; lia.
  - case_decide; [lra|]. pose proof (cdf_bounds s e (Z.of_nat (length (filter (within th) W)))) as Hb.
    pose proof (within_timed th W). apply Hb; lia.
Qed.

(** ** The output-length predictor *)

(** [BucketMeanState] *)
Record bucket_state : Type := BucketMeanState { total : Q; count : Z }.

Definition bucket_mean (b : bucket_state) : Q :=
  if decide (count b <= 0)%Z then 0 else total b / inject_Z (count b).

Definition bucket_update (b : bucket_state) (value : Q) : bucket_state :=
  if decide (value <= 0) then b else BucketMeanState (total b + value) (count b + 1).

(** [BucketMeanOutputPredictor] *)
Record predictor : Type := Predictor {
  default_output : Q;
  min_bucket_samples : Z;
  min_model_samples : Z;
  min_global_samples : Z;
  bucket_states : gmap (string * Z) bucket_state;
  model_states : gmap string bucket_state;
  global_state : bucket_state
}.
#[export] Instance eta_predictor : Eta predictor := fun p =>
  Predictor (default_output p) (min_bucket_samples p) (min_model_samples p) (min_global_samples p)
    (bucket_states p) (model_states p) (global_state p).

Definition new_predictor (d : Q) (b m g : Z) : predictor :=
  Predictor (py_max d 1) (Z.max b 1) (Z.max m 1) (Z.max g 1) ∅ ∅ (BucketMeanState 0 0).

(** [bucket_for_prompt]: [bit_length() - 1] of a positive int is its base-2 logarithm. *)
Definition bucket_for_prompt (prompt_tokens : Z) : Z := Z.log2 (Z.max prompt_tokens 1).

Inductive prediction_source : Type := FromBucket | FromModel | FromGlobal | FromDefault.

(** [BucketMeanPrediction] *)
Record prediction : Type := BucketMeanPrediction {
  tokens : Q;
  source : prediction_source;
  bucket : Z;
  pred_samples : Z
}.

(** A state with at least [n] samples, if there is one. *)
Definition calibrated (n : Z) (st : option bucket_state) : option bucket_state :=
  match st with
  | Some s => if decide (n <= count s)%Z then Some s else None
  | None => None
  end.

(** The fallback order of [predict]. *)
Definition predicted (p : predictor) (model : string) (b : Z) : Q * prediction_source * Z :=
  match calibrated (min_bucket_samples p) (bucket_states p !! (model, b)) with
  | Some s => (bucket_mean s, FromBucket, count s)
  | None =>
      match calibrated (min_model_samples p) (model_states p !! model) with
      | Some s => (bucket_mean s, FromModel, count s)
      | None =>
          match calibrated (min_global_samples p) (Some (global_state p)) with
          | Some s => (bucket_mean s, FromGlobal, count s)
          | None => (default_output p, FromDefault, 0%Z)
          end
      end
  end.

(** [predict]; [max_tokens] is absent, a number, or ([Some None]) not a number. *)
Definition predict (p : predictor) (model : string) (prompt_tokens : Z) (max_tokens : option (option Q)) : prediction :=
  let b := bucket_for_prompt prompt_tokens in
  let '(value, src, n) := predicted p model b in
  let value := match max_tokens with
               | Some cap => let cap := default 0 cap in if decide (0 < cap) then py_min value cap else value
               | None => value
               end in
  BucketMeanPrediction (py_max value 1) src b n.

Definition bucket_or_new (b : option bucket_state) : bucket_state := default (BucketMeanState 0 0) b.

(** [update] with the output given; a value that is not a number is [None]. *)
Definition predictor_update (p : predictor) (model : string) (prompt_tokens : Z) (output_tokens : option Q) : predictor :=
  match output_tokens with
  | None => p
  | Some value =>
      if decide (value <= 0) then p
      else
        let k := (model, bucket_for_prompt prompt_tokens) in
        ((p <| bucket_states := <[k := bucket_update (bucket_or_new (bucket_states p !! k)) value]> (bucket_states p) |>)
           <| model_states := <[model := bucket_update (bucket_or_new (model_states p !! model)) value]> (model_states p) |>)
           <| global_state := bucket_update (global_state p) value |>
  end.

(** A history of completions: model, prompt length, output length. *)
Definition completions : Type := list (string * Z * option Q).

Definition predictor_run (p : predictor) (l : completions) : predictor :=
  fold_left (fun p x => predictor_update p x.1.1 x.1.2 x.2) l p.

(** The positive outputs of the completions that satisfy [f]. *)
Definition outputs (f : string -> Z -> bool) (l : completions) : list Q :=
  omap (fun x : string * Z * option Q =>
          if f x.1.1 x.1.2
          then match x.2 with Some v => if decide (v <= 0) then None else Some v | None => None end
          else None) l.

Definition list_sum (l : list Q) : Q := foldr Qplus 0 l.

(** A running state that summarises [l]. *)
Definition summarises (b : bucket_state) (l : list Q) : Prop :=
  count b = Z.of_nat (length l) /\ total b == list_sum l.

Lemma list_sum_app l l' : list_sum (l ++ l') == list_sum l + list_sum l'.
Proof. unfold list_sum. induction l as [|x l IH]; cbn [foldr app]; [lra|]. rewrite IH. lra. Qed.

Lemma summarises_update b l v :
  ~ v <= 0 -> summarises b l -> summarises (bucket_update b v) (l ++ [v]).
Proof.
  intros Hv [Hc Ht]. unfold bucket_update. rewrite decide_False by done. split; cbn [count total].
  - rewrite length_app. cbn. lia.
  - rewrite list_sum_app, Ht. cbn [list_sum foldr]. lra.
Qed.

Lemma outputs_snoc f l m pt v :
  outputs f (l ++ [(m, pt, v)]) =
  outputs f l ++ (if f m pt then match v with Some v => if decide (v <= 0) then [] else [v] | None => [] end else []).
Proof.
  unfold outputs. rewrite omap_app. f_equal. cbn. destruct (f m pt), v as [v|]; try done. by destruct (decide (v <= 0)).
Qed.

Definition bucket_is (m : string) (b : Z) : string -> Z -> bool :=
  fun m' pt => bool_decide (m' = m) && bool_decide (bucket_for_prompt pt = b).
Definition model_is (m : string) : string -> Z -> bool := fun m' _ => bool_decide (m' = m).

Lemma predictor_run_sums p0 l :
  bucket_states p0 = ∅ -> model_states p0 = ∅ -> global_state p0 = BucketMeanState 0 0 ->
  let p := predictor_run p0 l in
  (forall m b, summarises (bucket_or_new (bucket_states p !! (m, b))) (outputs (bucket_is m b) l)) /\
  (forall m, summarises (bucket_or_new (model_states p !! m)) (outputs (model_is m) l)) /\
  summarises (global_state p) (outputs (fun _ _ => true) l).
Proof.
  intros Hb Hm Hg. induction l as [|[[m pt] v] l IH] using rev_ind.
  - cbn. rewrite Hb, Hm, Hg. split_and!; by intros.
  - cbn zeta in *. unfold predictor_run in *. rewrite fold_left_app. cbn [fold_left fst snd].
    set (p := fold_left _ l p0) in *. destruct IH as (I1 & I2 & I3).
    setoid_rewrite outputs_snoc. unfold predictor_update. destruct v as [v|];
      [destruct (decide (v <= 0)) as [Hv|Hv]|]; [split_and!; intros; repeat case_match; rewrite ?app_nil_r; done| |
      split_and!; intros; repeat case_match; rewrite ?app_nil_r; done].
    cbn [bucket_states model_states global_state set_to].
    split_and!.
    + intros m' b. unfold bucket_is. cbn. rewrite lookup_insert.
      destruct (decide ((m, bucket_for_prompt pt) = (m', b))) as [E|E].
      * simplify_eq. rewrite !bool_decide_true by done. by apply summarises_update.
      * destruct (bool_decide (m = m') && bool_decide (bucket_for_prompt pt = b)) eqn:E'; [|by rewrite app_nil_r].
        bool_facts. congruence.
    + intros m'. unfold model_is. cbn. rewrite lookup_insert. destruct (decide (m = m')) as [E|E].
      * subst. rewrite bool_decide_true by done. by apply summarises_update.
      * rewrite bool_decide_false by done. by rewrite app_nil_r.
    + by apply summarises_update.
Qed.

(** The prediction a recomputation from the whole history would make, before the cap. *)
Definition predicted_from (d : Q) (b m g : Z) (l : completions) (model : string) (prompt_tokens : Z) :
    Q * prediction_source * Z :=
  let n (x : list Q) := Z.of_nat (length x) in
  let mean (x : list Q) := list_sum x / inject_Z (n x) in
  let B := outputs (bucket_is model (bucket_for_prompt prompt_tokens)) l in
  let M := outputs (model_is model) l in
  let G := outputs (fun _ _ => true) l in
  if decide (Z.max b 1 <= n B)%Z then (mean B, FromBucket, n B)
  else if decide (Z.max m 1 <= n M)%Z then (mean M, FromModel, n M)
  else if decide (Z.max g 1 <= n G)%Z then (mean G, FromGlobal, n G)
  else (py_max d 1, FromDefault, 0%Z).

Lemma calibrated_default n b : (1 <= n)%Z -> calibrated n b = calibrated n (Some (bucket_or_new b)).
Proof. intros Hn. destruct b; [done|]. cbn. by rewrite decide_False by lia. Qed.

Lemma calibrated_summary n b x :
  (1 <= n)%Z -> summarises (bucket_or_new b) x ->
  match calibrated n b with
  | Some s => (n <= Z.of_nat (length x))%Z /\ count s = Z.of_nat (length x) /\
              bucket_mean s == list_sum x / inject_Z (Z.of_nat (length x))
  | None => ~ (n <= Z.of_nat (length x))%Z
  end.
Proof.
  intros Hn [Hc Ht]. rewrite calibrated_default by done. cbn [calibrated]. rewrite Hc. case_decide; [|done].
  split_and!; [done|done|]. unfold bucket_mean. rewrite Hc, decide_False by lia. by rewrite Ht.
Qed.

(** The predictor's running means are the means of the history: the same source with
    the same number of samples, and the same value. *)
Lemma predicted_spec d b m g l model prompt_tokens :
  let p := predictor_run (new_predictor d b m g) l in
  let '(v, src, n) := predicted p model (bucket_for_prompt prompt_tokens) in
  let '(v', src', n') := predicted_from d b m g l model prompt_tokens in
  v == v' /\ src = src' /\ n = n'.
Proof.
  cbn zeta. set (p := predictor_run _ l).
  destruct (predictor_run_sums (new_predictor d b m g) l) as (HB & HM & HG); [done..|]. fold p in HB, HM, HG.
  assert (min_bucket_samples p = Z.max b 1 /\ min_model_samples p = Z.max m 1 /\
    min_global_samples p = Z.max g 1 /\ default_output p = py_max d 1) as (E1 & E2 & E3 & E4).
  { unfold p. clear. unfold predictor_run. apply (foldl_invariant (fun p => min_bucket_samples p = Z.max b 1 /\
      min_model_samples p = Z.max m 1 /\ min_global_samples p = Z.max g 1 /\ default_output p = py_max d 1)); [|done].
    intros q x Hq. unfold predictor_update. destruct x.2; [case_decide|]; done. }
  unfold predicted, predicted_from. rewrite E1, E2, E3, E4.
  pose proof (calibrated_summary (Z.max b 1) _ _ ltac:(lia) (HB model (bucket_for_prompt prompt_tokens))) as CB.
  pose proof (calibrated_summary (Z.max m 1) _ _ ltac:(lia) (HM model)) as CM.
  pose proof (calibrated_summary (Z.max g 1) (Some (global_state p)) _ ltac:(lia) HG) as CG.
  destruct (calibrated (Z.max b 1) _) as [s|]; [destruct CB as (? & ? & ?); by rewrite decide_True|].
  rewrite decide_False by done.
  destruct (calibrated (Z.max m 1) _) as [s|]; [destruct CM as (? & ? & ?); by rewrite decide_True|].
  rewrite decide_False by done.
  destruct (calibrated (Z.max g 1) _) as [s|]; [destruct CG as (? & ? & ?); by rewrite decide_True|].
  by rewrite decide_False.
Qed.

(** A prediction is at least one token and at most a cap of one or more. *)
Lemma predict_bounds p model prompt_tokens cap :
  1 <= tokens (predict p model prompt_tokens cap) /\
  (forall c, cap = Some (Some c) -> 1 <= c -> tokens (predict p model prompt_tokens cap) <= c).
Proof.
  unfold predict. destruct (predicted _ _ _) as [[v src] n]. cbn [tokens]. split; [apply py_max_spec|].
  intros c -> Hc. cbn. rewrite decide_True by lra. apply py_max_lub; [|done]. apply py_min_spec.
Qed.

(** ** The cost envelope *)

(** [_percentile_from_sorted] *)
Definition _percentile_from_sorted (ordered : list Q) (p : Q) : Q :=
  match ordered with
  | [] => 0
  | [x] => x
  | _ =>
      let n := (length ordered - 1)%nat in
      let rank := py_max 0 (py_min 100 p) / 100 * inject_Z (Z.of_nat n) in
      let lower := Qfloor rank in
      let upper := Z.min (lower + 1) (Z.of_nat n) in
      let frac := rank - inject_Z lower in
      default 0 (ordered !! Z.to_nat lower) * (1 - frac) + default 0 (ordered !! Z.to_nat upper) * frac
  end.

(** [CostEnvelopeSnapshot] *)
Record envelope_snapshot : Type := CostEnvelopeSnapshot {
  env_lower : Q;
  env_upper : Q;
  env_sample_count : Z
}.

(** The settings of [CostEnvelopeEstimator]. *)
Record envelope_config : Type := EnvelopeConfig {
  lower_percentile : Q;
  upper_percentile : Q;
  env_window_sec : Q;
  env_min_samples : Z;
  env_max_samples : Z;
  cache_ttl_sec : Q
}.

(** Its state: [_samples] and [_cache]. *)
Record envelope : Type := Envelope {
  _samples : gmap string (list (Q * Q));
  _cache : gmap string (Q * option envelope_snapshot)
}.

Definition new_envelope : envelope := Envelope ∅ ∅.

Section envelope.
Variable c : envelope_config.

Definition needed : Z := Z.max (env_min_samples c) 1.

(** [_window_maxlen] *)
Definition _window_maxlen : option nat :=
  if decide (env_max_samples c <= 0)%Z then None else Some (Z.to_nat (Z.max (env_max_samples c) needed)).

(** [_envelope_for] *)
Definition _envelope_for (values : list Q) : option envelope_snapshot :=
  if decide (Z.of_nat (length values) < needed)%Z then None
  else
    let ordered := merge_sort Qle values in
    let upper := _percentile_from_sorted ordered (upper_percentile c) in
    if decide (upper <= 0) then None
    else
      let lower := _percentile_from_sorted ordered (lower_percentile c) in
      let lower := if decide (lower <= 0 \/ upper <= lower) then upper * (1 # 1000) else lower in
      Some (CostEnvelopeSnapshot lower upper (Z.of_nat (length ordered))).

(** [_prune_locked] *)
Definition _prune_locked (s : envelope) (pool : string) (now : Q) : envelope :=
  match _samples s !! pool with
  | None => s
  | Some l => Envelope (<[pool := from_cutoff fst (now - env_window_sec c) l]> (_samples s)) (_cache s)
  end.

(** [observe] *)
Definition observe (s : envelope) (pool : string) (cost_usd now : Q) : envelope :=
  if decide (cost_usd <= 0) then s
  else
    let l := push _window_maxlen (default [] (_samples s !! pool)) (now, cost_usd) in
    let s := _prune_locked (Envelope (<[pool := l]> (_samples s)) (_cache s)) pool now in
    match _cache s !! pool with
    | Some (_, None) => Envelope (_samples s) (delete pool (_cache s))
    | _ => s
    end.

(** The branch of [snapshot] that computes. *)
Definition snapshot_fresh (s : envelope) (pool : string) (now : Q) : envelope * option envelope_snapshot :=
  let s := _prune_locked s pool now in
  let r := _envelope_for (default [] (_samples s !! pool)).*2 in
  (if decide (0 < cache_ttl_sec c) then Envelope (_samples s) (<[pool := (now, r)]> (_cache s)) else s, r).

(** [snapshot] *)
Definition snapshot (s : envelope) (pool : string) (now : Q) : envelope * option envelope_snapshot :=
  if decide (0 < cache_ttl_sec c)
  then match _cache s !! pool with
       | Some (t, r) =>
           if decide (0 <= now - t /\ now - t < cache_ttl_sec c) then (s, r) else snapshot_fresh s pool now
       | None => snapshot_fresh s pool now
       end
  else snapshot_fresh s pool now.

(** [sample_count] *)
Definition pool_sample_count (s : envelope) (pool : string) (now : Q) : envelope * Z :=
  let s := _prune_locked s pool now in (s, Z.of_nat (length (default [] (_samples s !! pool)))).

(** *** Percentiles *)

(** [x] lies between two elements of [l]. *)
Definition between (l : list Q) (x : Q) : Prop := exists a b, a ∈ l /\ b ∈ l /\ a <= x <= b.

Lemma interpolate a b f : 0 <= f <= 1 ->
  (a <= b -> a <= a * (1 - f) + b * f <= b) /\ (b <= a -> b <= a * (1 - f) + b * f <= a).
Proof.
  intros Hf. split; intros H; [assert (0 <= f * (b - a) /\ 0 <= (1 - f) * (b - a))|
    assert (0 <= f * (a - b) /\ 0 <= (1 - f) * (a - b))]; try (split; apply Qmult_le_0_compat; lra); lra.
Qed.

Lemma percentile_between l p : l <> [] -> between l (_percentile_from_sorted l p).
Proof.
  intros Hl. destruct l as [|x [|y l]]; [done| |].
  { exists x, x. cbn. split_and!; [apply list_elem_of_singleton; done..|lra|lra]. }
  unfold _percentile_from_sorted. set (L := x :: y :: l). set (n := (length L - 1)%nat).
  set (rank := py_max 0 (py_min 100 p) / 100 * inject_Z (Z.of_nat n)).
  assert (0 <= py_max 0 (py_min 100 p) <= 100) as Hp
    by (split; [apply py_max_spec|apply py_max_lub; [lra|apply py_min_spec]]).
  assert (0 <= inject_Z (Z.of_nat n)) as Hn by (change 0 with (inject_Z 0); rewrite <- Zle_Qle; lia).
  assert (0 <= rank <= inject_Z (Z.of_nat n)) as [Hr0 Hr1].
  { unfold rank. assert (py_max 0 (py_min 100 p) / 100 == py_max 0 (py_min 100 p) * (1 # 100)) as -> by (field).
    split; nra. }
  pose proof (Qfloor_le rank) as F1. pose proof (Qlt_floor rank) as F2.
  assert (0 <= Qfloor rank)%Z as F3 by (apply (Qfloor_resp_le 0); done).
  assert (Qfloor rank <= Z.of_nat n)%Z as F4 by (rewrite <- (Qfloor_Z (Z.of_nat n)); by apply Qfloor_resp_le).
  rewrite inject_Z_plus in F2. change (inject_Z 1) with 1 in F2.
  destruct (lookup_lt_is_Some_2 L (Z.to_nat (Qfloor rank))) as [a Ha]; [unfold n, L in *; cbn in *; lia|].
  destruct (lookup_lt_is_Some_2 L (Z.to_nat (Z.min (Qfloor rank + 1) (Z.of_nat n)))) as [b Hb];
    [unfold n, L in *; cbn in *; lia|].
  rewrite Ha, Hb. apply list_elem_of_lookup_2 in Ha, Hb.
  change (default 0 (Some a)) with a. change (default 0 (Some b)) with b.
  assert (0 <= rank - inject_Z (Qfloor rank) <= 1) as Hf by lra. revert Hf.
  generalize (rank - inject_Z (Qfloor rank)). intros f Hf.
  destruct (Qlt_le_dec a b); [exists a, b|exists b, a]; (split_and!; [done|done|..]);
    apply interpolate; lra.
Qed.

Lemma between_perm l l' x : l ≡ₚ l' -> between l x -> between l' x.
Proof. intros Hp (a & b & Ha & Hb & Hx). exists a, b. by rewrite Hp in Ha, Hb. Qed.

(** With enough positive costs there is an envelope, and it is well formed. *)
Lemma envelope_for_spec values :
  Forall (fun x => 0 < x) values ->
  match _envelope_for values with
  | None => (Z.of_nat (length values) < needed)%Z
  | Some s => (needed <= Z.of_nat (length values))%Z /\ env_sample_count s = Z.of_nat (length values) /\
      0 < env_lower s /\ env_lower s < env_upper s /\ between values (env_upper s) /\
      (between values (env_lower s) \/ env_lower s == env_upper s / 1000)
  end.
Proof.
  intros Hpos. unfold _envelope_for. case_decide as Hlen; [done|].
  assert (values ≡ₚ merge_sort Qle values) as Hperm by (symmetry; apply merge_sort_Permutation).
  assert (merge_sort Qle values <> []) as Hne.
  { intros E. rewrite E in Hperm. apply Permutation_nil_r in Hperm. subst. unfold needed in Hlen. cbn [length] in Hlen. lia. }
  pose proof (percentile_between _ (upper_percentile c) Hne) as HU.
  pose proof (percentile_between _ (lower_percentile c) Hne) as HL.
  apply (between_perm _ values) in HU; [|done]. apply (between_perm _ values) in HL; [|done].
  rewrite <- (Permutation_length Hperm). set (U := _percentile_from_sorted _ (upper_percentile c)) in *.
  set (Lo := _percentile_from_sorted _ (lower_percentile c)) in *.
  assert (0 < U) as HU0.
  { destruct HU as (a & b & Ha & _ & Hx). rewrite Forall_forall in Hpos. specialize (Hpos a Ha). cbn in Hpos. lra. }
  rewrite decide_False by lra. cbn [env_lower env_upper env_sample_count].
  split_and!; [lia|done| | |done|]; destruct (decide (Lo <= 0 \/ U <= Lo)) as [E|E]; try lra.
  - right. field.
  - by left.
Qed.

(** *** Histories *)

Inductive envelope_op : Type :=
| EObserve (pool : string) (cost : Q)
| ESnapshot (pool : string)
| ECount (pool : string).

Definition envelope_step (s : envelope) (o : Q * envelope_op) : envelope :=
  match o.2 with
  | EObserve pool cost => observe s pool cost o.1
  | ESnapshot pool => (snapshot s pool o.1).1
  | ECount pool => (pool_sample_count s pool o.1).1
  end.

Definition envelope_run (s : envelope) (l : list (Q * envelope_op)) : envelope := fold_left envelope_step l s.

Fixpoint env_in_order (t : Q) (l : list (Q * envelope_op)) (now : Q) : Prop :=
  match l with
  | [] => t <= now
  | o :: l => t <= o.1 /\ env_in_order o.1 l now
  end.

(** The positive costs observed for a pool, with their times. *)
Definition costs_of (pool : string) (l : list (Q * envelope_op)) : list (Q * Q) :=
  omap (fun o => match o.2 with
                 | EObserve p x => if decide (p = pool /\ 0 < x) then Some (o.1, x) else None
                 | _ => None
                 end) l.

(** A well-formed envelope. *)
Definition well_formed (s : envelope_snapshot) : Prop :=
  0 < env_lower s /\ env_lower s < env_upper s /\ (needed <= env_sample_count s)%Z.

Record envelope_ok (t : Q) (all : string -> list (Q * Q)) (s : envelope) : Prop := {
  eo_kept pool : kept fst (env_window_sec c) _window_maxlen t (all pool) (default [] (_samples s !! pool));
  eo_pos pool : Forall (fun x => 0 < x.2) (default [] (_samples s !! pool));
  eo_some pool t' x : _cache s !! pool = Some (t', Some x) -> well_formed x;
  eo_none pool t' : _cache s !! pool = Some (t', None) ->
    (Z.of_nat (length (default [] (_samples s !! pool))) < needed)%Z
}.

Lemma from_cutoff_sub {A} (time : A -> Q) q l : exists old, l = old ++ from_cutoff time q l.
Proof. destruct (from_cutoff_split time q l) as (old & E & _). by exists old. Qed.

Lemma prune_samples s pool now k :
  default [] (_samples (_prune_locked s pool now) !! k) =
  (if decide (pool = k) then from_cutoff fst (now - env_window_sec c) else id) (default [] (_samples s !! k)).
Proof.
  unfold _prune_locked. destruct (_samples s !! pool) as [l|] eqn:E; cbn.
  - rewrite lookup_insert. case_decide; [subst; by rewrite E|done].
  - case_decide; [subst; by rewrite E|done].
Qed.

Lemma prune_locked_ok t all s pool now :
  t <= now -> envelope_ok t all s -> envelope_ok now all (_prune_locked s pool now).
Proof.
  intros Ht [Hk Hp Hs Hn].
  assert (_cache (_prune_locked s pool now) = _cache s) as Ec by (unfold _prune_locked; by destruct (_samples s !! pool)).
  constructor; intros k; rewrite ?Ec, ?prune_samples.
  - case_decide; [by eapply kept_prune|by eapply kept_later].
  - case_decide; [|apply Hp]. destruct (from_cutoff_sub fst (now - env_window_sec c) (default [] (_samples s !! k))) as [old E].
    specialize (Hp k). rewrite E in Hp. by apply Forall_app in Hp as [_ ?].
  - apply Hs.
  - intros t' Hc. specialize (Hn k t' Hc). case_decide; [|done].
    destruct (from_cutoff_sub fst (now - env_window_sec c) (default [] (_samples s !! k))) as [old E].
    apply (f_equal length) in E. rewrite length_app in E. lia.
Qed.

Lemma envelope_ok_later t t' all s : t <= t' -> envelope_ok t all s -> envelope_ok t' all s.
Proof. intros Ht [Hk Hp Hs Hn]. constructor; try done. intros pool. by eapply kept_later. Qed.

Lemma envelope_ok_ext t all all' s : (forall k, all k = all' k) -> envelope_ok t all s -> envelope_ok t all' s.
Proof. intros E [Hk Hp Hs Hn]. constructor; try done. intros pool. by rewrite <- E. Qed.

Lemma push_pos cap l (x : Q * Q) : 0 < x.2 -> Forall (fun x => 0 < x.2) l -> Forall (fun x => 0 < x.2) (push cap l x).
Proof.
  intros Hx Hl. assert (Forall (fun x : Q * Q => 0 < x.2) (tail l)) by (destruct Hl; [constructor|done]).
  unfold push. destruct cap; [case_bool_decide|]; apply Forall_app; (split; [done|]); by repeat constructor.
Qed.

Lemma observe_ok t all s pool cost now :
  t <= now -> envelope_ok t all s ->
  envelope_ok now (fun k => all k ++ (if decide (pool = k /\ 0 < cost) then [(now, cost)] else [])) (observe s pool cost now).
Proof.
  intros Ht Hok. unfold observe. case_decide as Hc.
  - apply (envelope_ok_ext _ all); [|by eapply envelope_ok_later].
    intros k. rewrite decide_False by lra. by rewrite app_nil_r.
  - apply (envelope_ok_later _ _ _ _ Ht) in Hok as [Hk Hp Hs Hn].
    set (l := push _ _ _). set (s1 := Envelope (<[pool := l]> (_samples s)) (delete pool (_cache s))).
    set (s2 := Envelope (<[pool := l]> (_samples s)) (_cache s)).
    assert (forall k, default [] (_samples s1 !! k) = if decide (pool = k) then l else default [] (_samples s !! k)) as Hl
      by (intros k; cbn; rewrite lookup_insert; by case_decide).
    assert (envelope_ok now (fun k => all k ++ (if decide (pool = k /\ 0 < cost) then [(now, cost)] else [])) s1) as H1.
    { constructor; intros k; rewrite ?Hl.
      - destruct (decide (pool = k)) as [<-|Hne].
        + rewrite decide_True by (split; [done|lra]). apply (kept_push fst _ _ now _ _ (now, cost)); [apply Qle_refl|apply Hk].
        + rewrite decide_False by tauto. rewrite app_nil_r. apply Hk.
      - case_decide; [|apply Hp]. apply push_pos; [cbn; lra|apply Hp].
      - intros t' x. cbn. rewrite lookup_delete. case_decide; [done|]. apply Hs.
      - intros t'. cbn. rewrite lookup_delete. case_decide; [done|]. apply Hn. }
    apply (prune_locked_ok now _ _ pool now ltac:(apply Qle_refl)) in H1.
    assert (_samples (_prune_locked s2 pool now) = _samples (_prune_locked s1 pool now) /\
      _cache (_prune_locked s2 pool now) = _cache s /\ _cache (_prune_locked s1 pool now) = delete pool (_cache s))
      as (E1 & E2 & E3).
    { unfold _prune_locked, s1, s2. cbn. by rewrite lookup_insert_eq. }
    destruct H1 as [K1 K2 K3 K4]. rewrite E3 in K3, K4. rewrite E2.
    destruct (_cache s !! pool) as [[t' [x|]]|] eqn:Ec;
      constructor; intros k; cbn [_samples _cache]; rewrite ?E1, ?E2; try apply K1; try apply K2; try apply K3; try apply K4.
    + apply Hs.
    + intros t''. destruct (decide (pool = k)) as [<-|Hne]; [congruence|]. intros Hc'. apply (K4 k t'').
      by rewrite lookup_delete_ne.
    + apply Hs.
    + intros t''. destruct (decide (pool = k)) as [<-|Hne]; [congruence|]. intros Hc'. apply (K4 k t'').
      by rewrite lookup_delete_ne.
Qed.

Lemma fresh_ok t all s pool now :
  t <= now -> envelope_ok t all s ->
  envelope_ok now all (snapshot_fresh s pool now).1 /\
  match (snapshot_fresh s pool now).2 with
  | Some x => well_formed x
  | None => (Z.of_nat (length (scan_window fst (env_window_sec c) _window_maxlen now (all pool))) < needed)%Z
  end.
Proof.
  intros Ht Hok. pose proof (prune_locked_ok _ _ _ pool now Ht Hok) as Hp.
  pose proof (envelope_ok_later _ _ _ _ Ht Hok) as Hok'.
  assert (default [] (_samples (_prune_locked s pool now) !! pool) =
    scan_window fst (env_window_sec c) _window_maxlen now (all pool)) as Hw.
  { rewrite prune_samples, decide_True by done. apply kept_window, Hok'. }
  unfold snapshot_fresh. set (s1 := _prune_locked s pool now) in *. set (vs := default [] (_samples s1 !! pool)) in *.
  assert (Forall (fun x => 0 < x) vs.*2) as Hpos.
  { apply Forall_fmap. eapply Forall_impl; [apply (eo_pos _ _ _ Hp pool)|]. done. }
  pose proof (envelope_for_spec vs.*2 Hpos) as He. rewrite length_fmap in He. cbn [fst snd].
  assert (match _envelope_for vs.*2 with Some x => well_formed x
    | None => (Z.of_nat (length vs) < needed)%Z end) as Hr.
  { destruct (_envelope_for vs.*2); [|done]. destruct He as (? & ? & ? & ? & _). split_and!; try done. lia. }
  split; [|rewrite <- Hw; exact Hr].
  case_decide; [|done]. destruct Hp as [K1 K2 K3 K4]. constructor; cbn; try done.
  - intros k t' x. rewrite lookup_insert. case_decide; [|apply K3]. intros [= <- E]. by rewrite E in Hr.
  - intros k t'. rewrite lookup_insert. case_decide; [|apply K4]. subst k. intros [= <- E]. by rewrite E in Hr.
Qed.

Lemma snapshot_ok t all s pool now :
  t <= now -> envelope_ok t all s ->
  envelope_ok now all (snapshot s pool now).1 /\
  match (snapshot s pool now).2 with
  | Some x => well_formed x
  | None => (Z.of_nat (length (scan_window fst (env_window_sec c) _window_maxlen now (all pool))) < needed)%Z
  end.
Proof.
  intros Ht Hok. unfold snapshot. pose proof (fresh_ok _ _ _ pool now Ht Hok) as Hf. case_decide; [|done].
  destruct (_cache s !! pool) as [[t' r]|] eqn:Ec; [|done]. case_decide; [|done]. cbn [fst snd].
  apply (envelope_ok_later _ _ _ _ Ht) in Hok. split; [done|]. destruct r as [x|]; [by eapply eo_some|].
  pose proof (eo_none _ _ _ Hok _ _ Ec) as Hn. rewrite <- (kept_window fst _ _ _ _ _ (eo_kept _ _ _ Hok pool)).
  destruct (from_cutoff_sub fst (now - env_window_sec c) (default [] (_samples s !! pool))) as [old E].
  apply (f_equal length) in E. rewrite length_app in E. lia.
Qed.

Lemma costs_of_snoc pool l o :
  costs_of pool (l ++ [o]) = costs_of pool l ++
    match o.2 with
    | EObserve p x => if decide (p = pool /\ 0 < x) then [(o.1, x)] else []
    | _ => []
    end.
Proof. unfold costs_of. rewrite omap_app. f_equal. cbn. destruct o.2; try done. by case_decide. Qed.

Lemma envelope_run_ok t l0 s l now :
  env_in_order t l now -> envelope_ok t (fun pool => costs_of pool l0) s ->
  envelope_ok now (fun pool => costs_of pool (l0 ++ l)) (envelope_run s l).
Proof.
  revert t l0 s; induction l as [|[u o] l IH]; intros t l0 s; cbn [env_in_order fst].
  - intros Ht Hok. rewrite app_nil_r. by eapply envelope_ok_later.
  - intros [Ht Hl] Hok. change ((u, o) :: l) with ([(u, o)] ++ l). rewrite app_assoc. cbn [envelope_run fold_left].
    apply (IH u); [done|]. apply (envelope_ok_ext _ (fun pool => costs_of pool l0 ++
      match o with EObserve p x => if decide (p = pool /\ 0 < x) then [(u, x)] else [] | _ => [] end));
      [intros k; by rewrite costs_of_snoc|].
    unfold envelope_step. destruct o as [p x|p|p]; cbn [fst snd].
    + by apply (observe_ok t).
    + apply (envelope_ok_ext _ (fun pool => costs_of pool l0)); [intros; by rewrite app_nil_r|].
      by apply (snapshot_ok t).
    + apply (envelope_ok_ext _ (fun pool => costs_of pool l0)); [intros; by rewrite app_nil_r|].
      by apply (prune_locked_ok t).
Qed.

Lemma new_envelope_ok t : envelope_ok t (fun pool => costs_of pool []) new_envelope.
Proof.
  constructor; intros; try (cbn in *; done). cbn. apply kept_nil. unfold _window_maxlen, needed. case_decide; [done|lia].
Qed.

(** The retention cap does not hide samples that calibration needs. *)
Lemma cap_keeps_needed (now : Q) (l : list (Q * Q)) :
  StronglySorted (by_time fst) l ->
  (needed <= Z.of_nat (length (filter (recent fst (now - env_window_sec c)) l)))%Z ->
  (needed <= Z.of_nat (length (scan_window fst (env_window_sec c) _window_maxlen now l)))%Z.
Proof.
  intros Hs Hn. unfold scan_window, _window_maxlen. case_decide as Hm; [done|]. cbn [last_n].
  set (f := recent fst (now - env_window_sec c)) in *.
  set (n := Z.to_nat (Z.max (env_max_samples c) needed)). set (k := (length l - n)%nat).
  rewrite <- (take_drop k l), filter_app, length_app in Hn.
  destruct (decide (Forall (fun x => f x = false) (take k l))) as [Hf|Hf].
  - rewrite (filter_none _ (take k l)) in Hn; [cbn in Hn; done|].
    intros x Hx. rewrite Forall_forall in Hf. rewrite (Hf x Hx). cbn. tauto.
  - apply not_Forall_Exists in Hf; [|apply _]. apply Exists_exists in Hf as (x & Hx & Hfx). cbn in Hfx.
    assert (filter f (drop k l) = drop k l) as ->.
    { assert (Forall f (drop k l)) as Hall.
      { apply Forall_forall. intros y Hy. apply not_false_is_true in Hfx. unfold f, recent in *. bool_facts.
        apply bool_decide_spec. rewrite <- (take_drop k l) in Hs.
        enough (x.1 <= y.1) by lra. clear -Hs Hx Hy. induction (take k l) as [|z l' IH]; [by apply not_elem_of_nil in Hx|].
        inversion Hs as [|? ? Hs' Hle]; subst. apply elem_of_cons in Hx as [->|Hx]; [|by apply IH].
        rewrite Forall_forall in Hle. apply (Hle y). apply elem_of_app. by right. }
      clear -Hall. induction Hall as [|y l' Hy Hl IH]; [done|]. rewrite filter_cons_True by done. by rewrite IH. }
    rewrite length_drop. assert (0 < length (take k l))%nat as Hk by (destruct (take k l); [by apply not_elem_of_nil in Hx|cbn; lia]).
    rewrite length_take in Hk. unfold n, k in *. lia.
Qed.

(** The workload envelope is well formed and available as soon as it can be.  After
    any history of observations, snapshots and counts in time order, a snapshot of a pool
    either is an envelope with [0 < L < U] built from at least [min_samples] costs, or is
    absent; and it is absent only when the pool has fewer than [min_samples] positive
    costs in the window, whatever the retention cap and the memoised answers. *)
Theorem envelope_sound (t0 : Q) (l : list (Q * envelope_op)) (now : Q) (pool : string) :
  env_in_order t0 l now ->
  match (snapshot (envelope_run new_envelope l) pool now).2 with
  | Some x => 0 < env_lower x /\ env_lower x < env_upper x /\ (needed <= env_sample_count x)%Z
  | None =>
      (Z.of_nat (length (filter (recent fst (now - env_window_sec c)) (costs_of pool l))) < needed)%Z
  end.
Proof.
  intros Hl. pose proof (envelope_run_ok t0 [] new_envelope l now Hl (new_envelope_ok t0)) as Hok. cbn [app] in Hok.
  destruct (snapshot_ok now _ _ pool now (Qle_refl now) Hok) as [_ Hr].
  destruct (snapshot _ pool now).2; [done|]. apply Z.nle_gt. intros Hn. apply Z.lt_nge in Hr. apply Hr.
  apply cap_keeps_needed; [|done]. apply (ke_sorted _ _ _ _ _ _ (eo_kept _ _ _ Hok pool)).
Qed.
End envelope.

(** ** Samples *)

Module EstimateSample.
Definition outcomes : list (Q * profile_op) :=
  [(0, Observe 900 None); (1, Observe 100 None); (2, Ask); (3, Observe (-1) (Some "timeout")); (5, Observe 300 None)].

(** Three outcomes kept, one of them outside the window of 4 seconds at 6. *)
Example mean_after :
  (total_count (profile_run (new_profile 4 3) outcomes) 6,
   mean_with_errors_sec (profile_run (new_profile 4 3) outcomes) 6 2000) = (2%Z, Some (2300 # 2000)).
Proof. vm_compute. reflexivity. Qed.

Definition cfg : envelope_config := EnvelopeConfig 10 90 100 2 3 5.
Definition costs : list (Q * envelope_op) :=
  [(0, EObserve "m" 1); (1, ESnapshot "m"); (2, EObserve "m" 3); (3, EObserve "m" 0); (4, ESnapshot "m")].

Example calibrates_at_once : (snapshot cfg (envelope_run cfg new_envelope costs) "m" 5).2 <> None.
Proof. vm_compute. discriminate. Qed.

Definition completions0 : completions := [("m", 100%Z, Some 30); ("m", 120%Z, Some 50); ("n", 3%Z, Some 7)].

Example predicts :
  source (predict (predictor_run (new_predictor 512 2 3 3) completions0) "m" 64 (Some (Some 20))) = FromBucket.
Proof. vm_compute. reflexivity. Qed.
End EstimateSample.

Lemma profile_is_scan_witness :
  in_order 0 EstimateSample.outcomes 6 /\
  total_count (profile_run (new_profile 4 3) EstimateSample.outcomes) 6 = 2%Z.
Proof.
  assert (in_order 0 EstimateSample.outcomes 6) as H by (cbn; lra). split; [exact H|].
  destruct (profile_is_scan 4 3 0 EstimateSample.outcomes 6 2000 1 H) as (E & _). rewrite E. vm_compute. reflexivity.
Defined.

Lemma envelope_sound_witness :
  env_in_order 0 EstimateSample.costs 5 /\
  exists x, (snapshot EstimateSample.cfg (envelope_run EstimateSample.cfg new_envelope EstimateSample.costs) "m" 5).2 = Some x /\
    0 < env_lower x /\ env_lower x < env_upper x.
Proof.
  assert (env_in_order 0 EstimateSample.costs 5) as H by (cbn; lra). split; [exact H|].
  pose proof (envelope_sound EstimateSample.cfg 0 EstimateSample.costs 5 "m" H) as E.
  destruct (snapshot _ _ "m" 5).2 as [x|] eqn:Ex; [|vm_compute in Ex; discriminate].
  exists x. destruct E as (E1 & E2 & _). exact (conj eq_refl (conj E1 E2)).
Defined.
