(* ===== verification/ResourcePools.v ===== *)
(** The scarce resources RouteWise draws on: the slots of a concurrency-limited
    subscription ([routing/routewise/concurrency.py]) and provider-reported quotas
    ([routing/routewise/quota.py]).

    Both are shared by every request of the process, each operation under its own
    lock; here they are state machines whose operations interleave freely.  The theorem
    about quotas says that, between two measurements, each source is an exact counter of
    its own, whatever is done to the others. *)

From S2P Require Import Prelude UsageLimit.
From Stdlib Require Import Qround.

Local Open Scope Z_scope.

(** ** Concurrency slots *)

(** [ConcurrencyManager] *)
Record concurrency_manager : Type := ConcurrencyManager {
  _limit : Z;
  _active : Z;
  _total_acquired : Z;
  _total_rejected : Z;
  _peak_active : Z
}.
#[export] Instance eta_concurrency_manager : Eta concurrency_manager := fun m =>
  ConcurrencyManager (_limit m) (_active m) (_total_acquired m) (_total_rejected m) (_peak_active m).

(** [__init__]; [None] is the [ValueError]. *)
Definition new_manager (limit : Z) : option concurrency_manager :=
  if decide (limit < 1) then None else Some (ConcurrencyManager limit 0 0 0 0).

(** [available] *)
Definition available (m : concurrency_manager) : Z := Z.max 0 (_limit m - _active m).

(** [try_acquire] *)
Definition try_acquire (m : concurrency_manager) : concurrency_manager * bool :=
  if decide (_active m < _limit m)
  then (((m <| _active := _active m + 1 |>) <| _peak_active := Z.max (_peak_active m) (_active m + 1) |>)
          <| _total_acquired := _total_acquired m + 1 |>, true)
  else (m <| _total_rejected := _total_rejected m + 1 |>, false).

(** [update_limit]; [None] is the [ValueError]. *)
Definition update_limit (m : concurrency_manager) (limit : Z) : option concurrency_manager :=
  if decide (limit < 1) then None else Some (m <| _limit := limit |>).

(** [release] *)
Definition release_slot (m : concurrency_manager) : concurrency_manager :=
  if decide (0 < _active m) then m <| _active := _active m - 1 |> else m.

(** ** Quotas *)

(** [QuotaSource] *)
Record quota_source : Type := QuotaSource {
  src_provider : string;
  src_usage_label : string;
  src_unit : string
}.
#[export] Instance quota_source_eq : EqDecision quota_source.
Proof. solve_decision. Defined.
#[export] Instance quota_source_countable : Countable quota_source.
Proof.
  refine (inj_countable' (fun s => (src_provider s, src_usage_label s, src_unit s))
    (fun x => QuotaSource x.1.1 x.1.2 x.2) _). abstract (by intros []).
Defined.

(** [ProviderQuotaSnapshot]; [reset_at] and [fetched_at] in microseconds. *)
Record quota_snapshot : Type := ProviderQuotaSnapshot {
  used : Q;
  limit : Q;
  reset_at : option datetime_us;
  fetched_at : datetime_us;
  local_increment : Z
}.

(** [effective_used], [remaining] and [used_fraction] *)
Definition effective_used (s : quota_snapshot) : Q := py_min (limit s) (used s + inject_Z (local_increment s)).

Definition remaining (s : quota_snapshot) : Z := Z.max 0 (Qfloor (limit s - effective_used s)).

Definition used_fraction (s : quota_snapshot) : Q :=
  if decide (limit s <= 0)%Q then 1%Q else py_min (py_max (effective_used s / limit s) 0) 1.

(** [ProviderQuotaSnapshotStore]; the stored snapshots carry no increment of their own. *)
Record quota_store : Type := QuotaStore {
  _snapshots : gmap quota_source quota_snapshot;
  _local_increments : gmap quota_source Z;
  _local_fallback_sources : gset quota_source
}.
#[export] Instance eta_quota_store : Eta quota_store := fun s =>
  QuotaStore (_snapshots s) (_local_increments s) (_local_fallback_sources s).

Definition new_quota_store : quota_store := QuotaStore ∅ ∅ ∅.

(** The offset of server-local time from UTC at an instant, in microseconds. *)
Class LocalTime := utc_offset : datetime_us -> Z.

Definition day_us : Z := 86400000000.

(** [_next_local_midnight] *)
Definition _next_local_midnight `{LocalTime} (now : datetime_us) : datetime_us :=
  (now + utc_offset now) / day_us * day_us + day_us - utc_offset now.

Section quota.
Context `{LocalTime}.

Definition increment_of (s : quota_store) (src : quota_source) : Z := default 0 (_local_increments s !! src).

(** One source of [_reset_expired_local_fallbacks_locked]. *)
Definition reset_one (now : datetime_us) (s : quota_store) (src : quota_source) : quota_store :=
  match _snapshots s !! src with
  | Some snap =>
      match reset_at snap with
      | Some r =>
          if decide (now < r) then s
          else (s <| _snapshots := <[src := ProviderQuotaSnapshot 0 (limit snap)
                       (Some (_next_local_midnight now)) now 0]> (_snapshots s) |>)
                 <| _local_increments := <[src := 0]> (_local_increments s) |>
      | None => s
      end
  | None => s
  end.

(** [_reset_expired_local_fallbacks_locked] *)
Definition _reset_expired_local_fallbacks (s : quota_store) (now : datetime_us) : quota_store :=
  fold_left (reset_one now) (elements (_local_fallback_sources s)) s.

(** [get] *)
Definition quota_get (s : quota_store) (src : quota_source) (now : datetime_us) :
    quota_store * option quota_snapshot :=
  let s := _reset_expired_local_fallbacks s now in
  (s, (fun snap => ProviderQuotaSnapshot (used snap) (limit snap) (reset_at snap) (fetched_at snap)
                     (increment_of s src)) <$> _snapshots s !! src).

(** [consume] *)
Definition consume (s : quota_store) (src : quota_source) (now : datetime_us) : quota_store * bool :=
  let s := _reset_expired_local_fallbacks s now in
  match _snapshots s !! src with
  | None => (s, false)
  | Some snap =>
      let n := increment_of s src in
      if decide (limit snap <= used snap + inject_Z n)%Q then (s, false)
      else (s <| _local_increments := <[src := n + 1]> (_local_increments s) |>, true)
  end.

(** [refund] *)
Definition refund (s : quota_store) (src : quota_source) (now : datetime_us) : quota_store * bool :=
  let s := _reset_expired_local_fallbacks s now in
  let n := increment_of s src in
  if decide (n <= 0) then (s, false)
  else if decide (n = 1) then (s <| _local_increments := delete src (_local_increments s) |>, true)
  else (s <| _local_increments := <[src := n - 1]> (_local_increments s) |>, true).

(** *** Refreshes *)

(** [ProviderQuotaUsage] and [ProviderQuotaResult], the fields that are read. *)
Record quota_usage : Type := QuotaUsage {
  u_label : string;
  u_unit : string;
  u_used : option Q;
  u_limit : option Q;
  u_reset_at : option datetime_us
}.

Record quota_result : Type := QuotaResult {
  res_name : string;
  res_ok : bool;
  res_usages : list quota_usage
}.

(** A usage that answers for a source: [_find_usage]'s inner loop body. *)
Definition usage_match (src : quota_source) (u : quota_usage) : option (Q * Q * option datetime_us) :=
  if decide (u_label u = src_usage_label src /\ u_unit u = src_unit src)
  then match u_used u, u_limit u with
       | Some x, Some l => if decide (l <= 0)%Q then None else Some (x, l, u_reset_at u)
       | _, _ => None
       end
  else None.

(** [_find_usage]: the first usage that answers, in the first result that has one. *)
Definition _find_usage (results : list quota_result) (src : quota_source) : option (Q * Q * option datetime_us) :=
  head (results ≫= (fun r =>
    if decide (res_name r = src_provider src /\ res_ok r = true)
    then omap (usage_match src) (res_usages r) else [])).

(** [_store_provider_results] *)
Definition _store_provider_results (s : quota_store) (sources : list quota_source) (results : list quota_result)
    (now : datetime_us) : quota_store :=
  fold_left (fun s src =>
    match _find_usage results src with
    | Some (x, l, r) =>
        (s <| _snapshots := <[src := ProviderQuotaSnapshot x l r now 0]> (_snapshots s) |>)
           <| _local_increments := <[src := 0]> (_local_increments s) |>
    | None => s
    end) sources s.

(** The head of [refresh_once]: the sources to fetch, by provider. *)
Definition refresh_groups (has_fetcher : string -> bool) (s : quota_store) (sources : list quota_source) :
    list (string * list quota_source) :=
  let unique := remove_dups (filter (fun src => has_fetcher (src_provider src) = true /\
                                                src ∉ _local_fallback_sources s) sources) in
  let providers := remove_dups (src_provider <$> unique) in
  (fun p => (p, filter (fun src => src_provider src = p) unique)) <$> providers.

(** [configure_local_fallbacks], one requested source. *)
Definition configure_one (now : datetime_us) (s : quota_store) (x : quota_source * Z) : quota_store :=
  let '(src, lim) := x in
  let current := _snapshots s !! src in
  let mine := bool_decide (src ∈ _local_fallback_sources s) in
  let same := match current with
              | Some cur => bool_decide (limit cur - inject_Z lim < 1 /\ inject_Z lim - limit cur < 1)%Q
              | None => false
              end in
  if mine && same then s
  else
    let kept := if mine then match current with Some _ => increment_of s src | None => 0 end else 0 in
    let reset := match current ≫= reset_at with Some r => r | None => _next_local_midnight now end in
    ((s <| _local_fallback_sources := {[src]} ∪ _local_fallback_sources s |>)
       <| _snapshots := <[src := ProviderQuotaSnapshot 0 (inject_Z lim) (Some reset) now 0]> (_snapshots s) |>)
       <| _local_increments := <[src := kept]> (_local_increments s) |>.

(** [configure_local_fallbacks] *)
Definition configure_local_fallbacks (s : quota_store) (limits : gmap quota_source Z) (now : datetime_us) :
    quota_store :=
  let s := _reset_expired_local_fallbacks s now in
  let gone := _local_fallback_sources s ∖ dom limits in
  let s := QuotaStore (filter (fun x => x.1 ∉ gone) (_snapshots s))
             (filter (fun x => x.1 ∉ gone) (_local_increments s)) (_local_fallback_sources s ∖ gone) in
  fold_left (configure_one now) (map_to_list limits) s.
End quota.

(** ** Histories of a quota store *)

Inductive quota_op : Type :=
| QGet (src : quota_source)
| QConsume (src : quota_source)
| QRefund (src : quota_source)
| QLand (sources : list quota_source) (results : list quota_result)   (* a provider's answer *)
| QConfigure (limits : gmap quota_source Z).

Section histories.
Context `{LocalTime}.
Implicit Types (s : quota_store) (src : quota_source).

(** An operation, and the answers it gives: for which source, and what. *)
Definition quota_step s (o : datetime_us * quota_op) : quota_store * list (quota_source * bool) :=
  match o.2 with
  | QGet src => ((quota_get s src o.1).1, [])
  | QConsume src => let '(s, b) := consume s src o.1 in (s, [(src, b)])
  | QRefund src => let '(s, b) := refund s src o.1 in (s, [(src, b)])
  | QLand sources results => (_store_provider_results s sources results o.1, [])
  | QConfigure limits => (configure_local_fallbacks s limits o.1, [])
  end.

Fixpoint quota_run s (l : list (datetime_us * quota_op)) : quota_store * list (quota_source * bool) :=
  match l with
  | [] => (s, [])
  | o :: l => let '(s, out) := quota_step s o in let '(s, outs) := quota_run s l in (s, out ++ outs)
  end.

(** What is known of one source. *)
Definition source_view s src : option quota_snapshot * Z * bool :=
  (_snapshots s !! src, increment_of s src, bool_decide (src ∈ _local_fallback_sources s)).

(** An operation that leaves the measurement of [src] in place: no answer for it lands,
    its local window has not ended, and a reconfiguration keeps it as it is. *)
Definition quiet src (snap : quota_snapshot) (fallback : bool) (o : datetime_us * quota_op) : Prop :=
  (fallback = true -> forall r, reset_at snap = Some r -> o.1 < r) /\
  match o.2 with
  | QLand sources results => src ∈ sources -> _find_usage results src = None
  | QConfigure limits =>
      if fallback then exists lim, limits !! src = Some lim /\
        (limit snap - inject_Z lim < 1)%Q /\ (inject_Z lim - limit snap < 1)%Q
      else limits !! src = None
  | _ => True
  end.

(** The exact counter. *)
Definition counter_step (snap : quota_snapshot) src (n : Z) (o : quota_op) : Z * list bool :=
  match o with
  | QConsume src' =>
      if decide (src' = src)
      then if decide (limit snap <= used snap + inject_Z n)%Q then (n, [false]) else (n + 1, [true])
      else (n, [])
  | QRefund src' =>
      if decide (src' = src) then if decide (n <= 0) then (n, [false]) else (n - 1, [true]) else (n, [])
  | _ => (n, [])
  end.

Fixpoint counter_run (snap : quota_snapshot) src (n : Z) (l : list (datetime_us * quota_op)) : Z * list bool :=
  match l with
  | [] => (n, [])
  | o :: l => let '(n, out) := counter_step snap src n o.2 in
              let '(n, outs) := counter_run snap src n l in (n, out ++ outs)
  end.

(** The answers that concern [src]. *)
Definition answers_for src (outs : list (quota_source * bool)) : list bool :=
  omap (fun x => if decide (x.1 = src) then Some x.2 else None) outs.

(** *** Frames *)

Lemma view_reset_one s src src' now snap n fb :
  source_view s src = (Some snap, n, fb) ->
  (fb = true -> forall r, reset_at snap = Some r -> now < r) -> (src' = src -> fb = true) ->
  source_view (reset_one now s src') src = (Some snap, n, fb).
Proof.
  intros Hv Hq Hfb. unfold reset_one. destruct (_snapshots s !! src') as [snap'|] eqn:E'; [|done].
  destruct (reset_at snap') as [r|] eqn:Er; [|done]. case_decide as Hr; [done|].
  destruct (decide (src' = src)) as [->|Hne].
  - unfold source_view in Hv. rewrite E' in Hv. injection Hv as -> Hn Hf. destruct Hr. by apply Hq, Er; apply Hfb.
  - unfold source_view, increment_of in *. cbn. by rewrite !lookup_insert_ne.
Qed.

Lemma fold_keeps {A B} (I : A -> Prop) (P : B -> Prop) (f : A -> B -> A) l a :
  (forall a b, P b -> I a -> I (f a b)) -> Forall P l -> I a -> I (fold_left f l a).
Proof. intros Hf Hl. revert a. induction Hl; cbn; auto. Qed.

Lemma view_reset s src now snap n fb :
  source_view s src = (Some snap, n, fb) ->
  (fb = true -> forall r, reset_at snap = Some r -> now < r) ->
  source_view (_reset_expired_local_fallbacks s now) src = (Some snap, n, fb).
Proof.
  intros Hv Hq. unfold _reset_expired_local_fallbacks.
  apply (fold_keeps (fun s => source_view s src = (Some snap, n, fb)) (fun x => x = src -> fb = true)); [|..|done].
  - intros a x Hx Ha. by apply view_reset_one.
  - apply Forall_forall. intros x Hx ->. unfold source_view in Hv. injection Hv as _ _ <-.
    apply bool_decide_eq_true. by apply elem_of_elements in Hx.
Qed.

Lemma view_land s src sources results now v :
  (src ∈ sources -> _find_usage results src = None) -> source_view s src = v ->
  source_view (_store_provider_results s sources results now) src = v.
Proof.
  intros Hq Hv. unfold _store_provider_results.
  apply (fold_keeps (fun s => source_view s src = v) (fun x => x = src -> _find_usage results src = None)); [|..|done].
  - intros a x Hx Ha. destruct (_find_usage results x) as [[[u l] r]|] eqn:E; [|done].
    destruct (decide (x = src)) as [->|Hne]; [by rewrite Hx in E|].
    unfold source_view, increment_of in *. cbn. by rewrite !lookup_insert_ne.
  - apply Forall_forall. intros x Hx ->. auto.
Qed.

Lemma view_configure_one s src snap n fb now x :
  source_view s src = (Some snap, n, fb) ->
  (x.1 = src -> fb = true /\ (limit snap - inject_Z x.2 < 1)%Q /\ (inject_Z x.2 - limit snap < 1)%Q) ->
  source_view (configure_one now s x) src = (Some snap, n, fb).
Proof.
  destruct x as [y lim]. cbn [fst snd]. intros Hv Hx. unfold configure_one. destruct (decide (y = src)) as [->|Hne].
  - destruct (Hx eq_refl) as (-> & H1 & H2). unfold source_view in Hv. injection Hv as E1 E2 E3.
    rewrite E1, E3. rewrite bool_decide_true by done. cbn. unfold source_view. by rewrite E1, E2, E3.
  - destruct (_ && _); [done|]. unfold source_view, increment_of in *. cbn. rewrite !lookup_insert_ne by done.
    injection Hv as E1 E2 E3. rewrite E1, E2, <- E3. repeat f_equal. apply bool_decide_ext. set_solver.
Qed.

Lemma view_configure s src snap n fb now limits :
  source_view s src = (Some snap, n, fb) -> quiet src snap fb (now, QConfigure limits) ->
  source_view (configure_local_fallbacks s limits now) src = (Some snap, n, fb).
Proof.
  intros Hv [Hq Hc]. cbn [fst snd] in Hq, Hc. unfold configure_local_fallbacks.
  pose proof (view_reset _ _ _ _ _ _ Hv Hq) as Hr. set (s1 := _reset_expired_local_fallbacks s now) in *.
  apply (fold_keeps (fun s => source_view s src = (Some snap, n, fb)) (fun x => limits !! x.1 = Some x.2)).
  - intros a [y lim] Hy Ha. apply view_configure_one; [done|]. cbn in *. intros ->.
    destruct fb; [|congruence]. destruct Hc as (lim' & Hl & ? & ?). split; [done|]. by simplify_eq.
  - apply Forall_forall. intros [y lim] Hy. by apply elem_of_map_to_list in Hy.
  - assert (src ∉ _local_fallback_sources s1 ∖ dom limits) as Hg.
    { unfold source_view in Hr. injection Hr as _ _ E. intros [H1 H2]%elem_of_difference.
      rewrite bool_decide_true in E by done. subst fb. destruct Hc as (lim & Hl & _). apply H2, elem_of_dom. by exists lim. }
    unfold source_view, increment_of in *. cbn. injection Hr as E1 E2 E3.
    rewrite (map_lookup_filter_Some_2 _ _ src snap) by done.
    replace (filter _ (_local_increments s1) !! src) with (_local_increments s1 !! src).
    2:{ symmetry. destruct (_local_increments s1 !! src) eqn:E; [by apply map_lookup_filter_Some_2|].
        apply map_lookup_filter_None_2. by left. }
    rewrite E2, <- E3. repeat f_equal. apply bool_decide_ext. set_solver.
Qed.

(** *** Refinement *)

Lemma answers_own src b : answers_for src [(src, b)] = [b].
Proof. unfold answers_for. cbn. by rewrite decide_True. Qed.

Lemma answers_other src src' b : src' <> src -> answers_for src [(src', b)] = [].
Proof. intros Hne. unfold answers_for. cbn. by rewrite decide_False. Qed.

(** An update of the increments, seen from a source. *)
Lemma view_increments s src snap n fb incs n' :
  source_view s src = (Some snap, n, fb) -> default 0 (incs !! src) = n' ->
  source_view (s <| _local_increments := incs |>) src = (Some snap, n', fb).
Proof. unfold source_view, increment_of. cbn. by intros [= -> _ ->] ->. Qed.

Lemma quota_step_view s src snap n fb o :
  source_view s src = (Some snap, n, fb) -> quiet src snap fb o ->
  let '(s', outs) := quota_step s o in
  let '(n', bs) := counter_step snap src n o.2 in
  source_view s' src = (Some snap, n', fb) /\ answers_for src outs = bs.
Proof.
  intros Hv Hq. destruct o as [now o]. pose proof (proj1 Hq) as Ht. cbn [fst] in Ht.
  pose proof (view_reset _ _ _ _ _ _ Hv Ht) as Hr. unfold quota_step. cbn [fst snd].
  destruct o as [src'|src'|src'|sources results|limits]; cbn [counter_step].
  - by split.
  - unfold consume. set (s1 := _reset_expired_local_fallbacks s now) in *. destruct (decide (src' = src)) as [->|Hne].
    + assert (_snapshots s1 !! src = Some snap /\ increment_of s1 src = n) as [-> ->] by by injection Hr.
      case_decide; rewrite answers_own; split; try done. eapply view_increments; [done|by rewrite lookup_insert_eq].
    + destruct (_snapshots s1 !! src'); [case_decide|]; rewrite answers_other by done; split; try done.
      eapply view_increments; [done|]. rewrite lookup_insert_ne by done. by injection Hr.
  - unfold refund. set (s1 := _reset_expired_local_fallbacks s now) in *.
    assert (increment_of s1 src = n) as En by by injection Hr. destruct (decide (src' = src)) as [->|Hne].
    + rewrite En. case_decide; [|case_decide]; rewrite answers_own; split; try done; eapply view_increments; try done;
        rewrite ?lookup_insert_eq, ?lookup_delete_eq; cbn; lia.
    + case_decide; [|case_decide]; rewrite answers_other by done; split; try done; eapply view_increments; try done;
        by rewrite ?lookup_insert_ne, ?lookup_delete_ne by done.
  - split; [|done]. apply view_land; [exact (proj2 Hq)|done].
  - split; [|done]. by apply view_configure.
Qed.

Lemma answers_app src l l' : answers_for src (l ++ l') = answers_for src l ++ answers_for src l'.
Proof. apply omap_app. Qed.

Lemma quota_run_view s src snap n fb l :
  source_view s src = (Some snap, n, fb) -> Forall (quiet src snap fb) l ->
  let '(s', outs) := quota_run s l in
  let '(n', bs) := counter_run snap src n l in
  source_view s' src = (Some snap, n', fb) /\ answers_for src outs = bs.
Proof.
  revert s n; induction l as [|o l IH]; intros s n Hv Hl; cbn; [done|]. inversion Hl as [|? ? Ho Hl']; subst.
  pose proof (quota_step_view _ _ _ _ _ _ Hv Ho) as H1. destruct (quota_step s o) as [s1 out].
  destruct (counter_step snap src n o.2) as [n1 bs]. destruct H1 as [Hv1 Ho1].
  specialize (IH _ _ Hv1 Hl'). destruct (quota_run s1 l) as [s2 outs]. destruct (counter_run snap src n1 l) as [n2 bs'].
  destruct IH as [Hv2 Ho2]. split; [done|]. by rewrite answers_app, Ho1, Ho2.
Qed.

(** Net grants of a list of answers to a source's operations. *)
Lemma counter_bound snap src n l :
  0 <= n -> let '(n', _) := counter_run snap src n l in
  0 <= n' /\ (n' <= n \/ (used snap + inject_Z n' < limit snap + 1)%Q).
Proof.
  revert n; induction l as [|o l IH]; intros n Hn; cbn; [split; [done|by left]|].
  assert (0 <= (counter_step snap src n o.2).1 /\ ((counter_step snap src n o.2).1 <= n \/
    (used snap + inject_Z (counter_step snap src n o.2).1 < limit snap + 1)%Q)) as [H0 H1].
  { destruct o.2; cbn; repeat case_decide; cbn; try (split; [lia|left; lia]). split; [lia|]. right.
    rewrite inject_Z_plus. change (inject_Z 1) with 1%Q. lra. }
  destruct (counter_step snap src n o.2) as [n1 out]. cbn [fst] in *. specialize (IH n1 H0).
  destruct (counter_run snap src n1 l) as [n2 outs]. destruct IH as [H2 H3]. split; [done|].
  destruct H3 as [H3|H3]; [|by right]. destruct H1 as [H1|H1]; [left; lia|]. right.
  assert (inject_Z n2 <= inject_Z n1)%Q by (rewrite <- Zle_Qle; lia). lra.
Qed.

(** Between two measurements a quota source is an exact counter of its own.  Take a
    source with a snapshot and any interleaving of reads, consumes and refunds of any
    sources, landed refreshes and reconfigurations that leave this source's measurement
    in place.  Then the answers given for the source are those of a counter that grants
    while the reported usage plus the net grants is below the limit; the count kept is the
    counter's; it never goes negative; and it passes the limit by no grant: once it has
    grown, usage plus grants is below the limit plus one. *)
Theorem quota_counts_exactly s src snap n fb (l : list (datetime_us * quota_op)) :
  _snapshots s !! src = Some snap -> increment_of s src = n -> 0 <= n ->
  bool_decide (src ∈ _local_fallback_sources s) = fb -> Forall (quiet src snap fb) l ->
  let '(s', outs) := quota_run s l in
  let '(n', bs) := counter_run snap src n l in
  answers_for src outs = bs /\ increment_of s' src = n' /\ _snapshots s' !! src = Some snap /\
  0 <= n' /\ (n' <= n \/ (used snap + inject_Z n' < limit snap + 1)%Q).
Proof.
  intros Hs Hn Hn0 Hf Hl.
  assert (source_view s src = (Some snap, n, fb)) as Hv by (unfold source_view; by rewrite Hs, Hn, Hf).
  pose proof (quota_run_view _ _ _ _ _ _ Hv Hl) as Hr. pose proof (counter_bound snap src n l Hn0) as Hb.
  destruct (quota_run s l) as [s' outs]. destruct (counter_run snap src n l) as [n' bs].
  destruct Hr as [Hv' Ha]. unfold source_view in Hv'. injection Hv' as E1 E2 _. destruct Hb. by split_and!.
Qed.
End histories.

(** ** The router's handle on a quota *)

(** [QuotaPool]; the mismatch warning it logs is not part of the state. *)
Record quota_pool : Type := QuotaPool {
  qp_source : quota_source;
  qp_policy_limit : Z
}.

Section pool.
Context `{LocalTime}.

(** [ready], [limit], [remaining] and [used_fraction], each reading the store. *)
Definition pool_ready (s : quota_store) (p : quota_pool) (now : datetime_us) : bool :=
  bool_decide (is_Some (quota_get s (qp_source p) now).2).

Definition pool_limit (s : quota_store) (p : quota_pool) (now : datetime_us) : Z :=
  match (quota_get s (qp_source p) now).2 with
  | Some snap => if decide (0 <= limit snap)%Q then Qfloor (limit snap) else Qceiling (limit snap)
  | None => qp_policy_limit p
  end.

Definition pool_remaining (s : quota_store) (p : quota_pool) (now : datetime_us) : Z :=
  match (quota_get s (qp_source p) now).2 with Some snap => remaining snap | None => 0 end.

Definition pool_used_fraction (s : quota_store) (p : quota_pool) (now : datetime_us) : Q :=
  match (quota_get s (qp_source p) now).2 with Some snap => used_fraction snap | None => 1%Q end.

(** A snapshot that reports room lets one request through at that instant. *)
Lemma remaining_admits s p now :
  0 < pool_remaining s p now -> (consume s (qp_source p) now).2 = true.
Proof.
  unfold pool_remaining, quota_get, consume. cbn [snd]. set (s1 := _reset_expired_local_fallbacks s now).
  destruct (_snapshots s1 !! qp_source p) as [snap|]; cbn [fmap option_fmap option_map]; [|cbn; lia].
  unfold remaining, effective_used. cbn [limit used local_increment]. set (u := (used snap + _)%Q).
  intros Hr. case_decide as Hl; [|done]. exfalso. assert (1 <= Qfloor (limit snap - py_min (limit snap) u)) as Hf by lia.
  pose proof (Qfloor_le (limit snap - py_min (limit snap) u)) as Hle. rewrite Zle_Qle in Hf.
  pose proof (py_min_glb _ _ _ (Qle_refl (limit snap)) Hl) as Hg. change (inject_Z 1) with 1%Q in Hf. lra.
Qed.

Lemma used_fraction_bounds snap : (0 <= used_fraction snap <= 1)%Q.
Proof.
  unfold used_fraction. case_decide; [lra|]. split; [|apply py_min_spec].
  apply py_min_glb; [apply py_max_spec|lra].
Qed.
End pool.

(** ** Sample *)

Module QuotaSample.
#[export] Instance utc : LocalTime := fun _ => 0.
Definition src : quota_source := QuotaSource "cloud" "Daily" "requests".
Definition other : quota_source := QuotaSource "cloud" "Weekly" "requests".
Definition land (src : quota_source) (x l : Q) : quota_op :=
  QLand [src] [QuotaResult "cloud" true [QuotaUsage (src_usage_label src) "requests" (Some x) (Some l) None]].
Definition s0 : quota_store := (quota_run new_quota_store [(0, land src 8 10)]).1.
Definition l : list (datetime_us * quota_op) :=
  [(1, QConsume src); (2, land other 0 5); (3, QConsume src); (4, QConsume other); (5, QConsume src);
   (6, QConfigure ∅); (7, QRefund src); (8, QConsume src)].
End QuotaSample.

#[local] Existing Instance QuotaSample.utc.

Lemma quota_counts_exactly_witness :
  Forall (quiet QuotaSample.src (ProviderQuotaSnapshot 8 10 None 0 0) false) QuotaSample.l /\
  answers_for QuotaSample.src (quota_run QuotaSample.s0 QuotaSample.l).2 = [true; true; false; true; true].
Proof.
  assert (Forall (quiet QuotaSample.src (ProviderQuotaSnapshot 8 10 None 0 0) false) QuotaSample.l) as Hq.
  { repeat (apply Forall_cons; split; [split; [done|cbn; try done]|]). apply Forall_nil; done. }
  split; [exact Hq|].
  assert (_snapshots QuotaSample.s0 !! QuotaSample.src = Some (ProviderQuotaSnapshot 8 10 None 0 0)) as Hs
    by (vm_compute; reflexivity).
  assert (increment_of QuotaSample.s0 QuotaSample.src = 0) as Hn by (vm_compute; reflexivity).
  assert (bool_decide (QuotaSample.src ∈ _local_fallback_sources QuotaSample.s0) = false) as Hf by (vm_compute; reflexivity).
  pose proof (quota_counts_exactly QuotaSample.s0 QuotaSample.src _ 0 false QuotaSample.l Hs Hn (Z.le_refl 0) Hf Hq) as E.
  destruct (quota_run QuotaSample.s0 QuotaSample.l) as [s' outs].
  destruct (counter_run _ QuotaSample.src 0 QuotaSample.l) as [n' bs] eqn:Ec. vm_compute in Ec. injection Ec as <- <-.
  exact (proj1 E).
Defined.
