(* ===== verification/RouteCandidates.v ===== *)
(** RouteWise's view of the routes: provider candidates read from route configuration
    ([routing/routewise/candidates.py]), the resource pools built from them
    ([RouteWiseRouter._build_resource_pools]), and the ownership of what a dispatch takes
    from them ([ProviderReservation], [_reserve_candidate], [_commit_candidate]).

    A concurrency manager is an object: a pool rebuild may drop the router's reference to
    it while a request in flight still holds one of its slots.  Managers are therefore
    kept in a heap, and pools and reservations refer to them by index.  The theorem at the
    end says that over any interleaving of commits, releases, rebuilds and health reports
    the slots in use are exactly the reservations not yet released. *)

From S2P Require Import Prelude PyText UsageLimit Failures CircuitBreaker EndpointHealth Offload RouteSelection ResourcePools.

Local Open Scope Z_scope.

(** ** Candidates *)

(** [ProviderType] *)
Inductive provider_type : Type := ON_DEMAND | QUOTA | CONCURRENCY.
#[export] Instance provider_type_eq : EqDecision provider_type.
Proof. solve_decision. Defined.

(** [CandidatePricing], in USD per million tokens. *)
Record candidate_pricing : Type := CandidatePricing {
  price_prompt : Q;
  price_completion : Q;
  price_cache_read : Q;
  price_cache_write : Q
}.

(** A configuration value that should be a mapping. *)
Inductive raw_mapping (A : Type) : Type :=
| Absent
| Mapping (l : A)
| NotMapping.
Arguments Absent {A}.
Arguments Mapping {A} l.
Arguments NotMapping {A}.

(** The route-level fields RouteWise reads off an adapter's configuration.  Texts are as
    [_optional_str_attr] and [_required_str] return them: stripped, a blank one [None]. *)
Record route_fields : Type := RouteFields {
  raw_provider_type : option string;
  raw_routewise_pool : option string;
  raw_quota_pool : option string;
  raw_concurrency_pool : option string;
  raw_pricing : result unit candidate_pricing;    (* what parsing [pricing] gives *)
  raw_quota_source : raw_mapping (option string * option string * option string);
  raw_quota : raw_mapping (list (string * py_value));
  raw_concurrency : raw_mapping (list (string * py_value));
  raw_local_quota_fallback : bool;                (* [route_metadata] *)
  raw_route_provider : option string;
  raw_upstream_provider : option string;
  raw_api_keys : nat                              (* length of the [api_keys] list, 0 if none *)
}.

Class RouteConfigs := route_fields_of : adapter -> route_fields.

(** The reasons [build_provider_candidates] raises [ValueError]. *)
Inductive route_error : Type :=
| DuplicateEndpoint (id : string)
| BadProviderType (raw : string)
| BadPricing
| FieldNotMapping (name : string)
| NoQuotaSource
| BadQuotaSource
| PercentQuota
| NoQuotaBlock
| NoConcurrencyBlock
| BadPolicy.

(** [ProviderCandidate] *)
Record route_candidate : Type := ProviderCandidate {
  rc_endpoint_id : string;
  rc_adapter : adapter;
  rc_provider_type : provider_type;
  rc_weight : Q;
  rc_pricing : candidate_pricing;
  rc_routewise_pool : string;
  rc_quota_pool : option string;
  rc_concurrency_pool : option string;
  rc_quota_source : option quota_source;
  rc_quota_policy : option Z;
  rc_concurrency_policy : option Z
}.

Local Open Scope result_scope.

(** [_mapping_attr] *)
Definition _mapping_attr {A} (name : string) (x : raw_mapping A) : result route_error (option A) :=
  match x with
  | Absent => Ok None
  | Mapping l => Ok (Some l)
  | NotMapping => Raise (FieldNotMapping name)
  end.

(** [_parse_positive_int]; [bool] values are [POther]. *)
Definition _parse_positive_int (v : option py_value) : result route_error Z :=
  match v with
  | Some (PInt n) => if decide (n < 1) then Raise BadPolicy else Ok n
  | _ => Raise BadPolicy
  end.

(** [QuotaPolicy.from_raw] and [ConcurrencyPolicy.from_raw]: only [limit], and positive. *)
Definition policy_from_raw (l : list (string * py_value)) : result route_error Z :=
  if decide (Exists (fun x => x.1 <> "limit"%string) l) then Raise BadPolicy
  else _parse_positive_int (snd <$> last l).

(** [QuotaSource.from_raw] *)
Definition quota_source_from_raw (x : option string * option string * option string) :
    result route_error quota_source :=
  match x with
  | (Some p, Some l, Some u) => Ok (QuotaSource p l u)
  | _ => Raise BadQuotaSource
  end.

(** [provider_type_for_adapter] *)
Definition provider_type_for_adapter (f : route_fields) : result route_error provider_type :=
  match default "on_demand"%string (raw_provider_type f) with
  | "on_demand" => Ok ON_DEMAND
  | "quota" => Ok QUOTA
  | "concurrency" => Ok CONCURRENCY
  | raw => Raise (BadProviderType raw)
  end%string.

Section candidates.
Context `{Adapters} `{RouteConfigs}.

Definition default_pool (model_id endpoint_id : string) : string := (model_id +:+ ":" +:+ endpoint_id)%string.

(** One accepted entry of [build_provider_candidates]. *)
Definition provider_candidate (model_id : string) (a : adapter) (weight : Q) : result route_error route_candidate :=
  let id := endpoint_id_for_adapter a in
  let f := route_fields_of a in
  try! ty <- provider_type_for_adapter f ;;
  try! pricing <- match raw_pricing f with Ok p => Ok p | Raise _ => Raise BadPricing end ;;
  let pool := default model_id (raw_routewise_pool f) in
  let base := ProviderCandidate id a ty weight pricing pool None None None None None in
  match ty with
  | ON_DEMAND => Ok base
  | QUOTA =>
      try! src <- _mapping_attr "quota_source" (raw_quota_source f) ;;
      match src with
      | None => Raise NoQuotaSource
      | Some src =>
          try! src <- quota_source_from_raw src ;;
          if decide (src_unit src = "%"%string) then Raise PercentQuota
          else
            try! q <- _mapping_attr "quota" (raw_quota f) ;;
            match q with
            | None => Raise NoQuotaBlock
            | Some q =>
                try! lim <- policy_from_raw q ;;
                Ok (ProviderCandidate id a ty weight pricing pool
                      (Some (default (default_pool model_id id) (raw_quota_pool f))) None (Some src) (Some lim) None)
            end
      end
  | CONCURRENCY =>
      try! q <- _mapping_attr "concurrency" (raw_concurrency f) ;;
      match q with
      | None => Raise NoConcurrencyBlock
      | Some q =>
          try! lim <- policy_from_raw q ;;
          Ok (ProviderCandidate id a ty weight pricing pool None
                (Some (default (default_pool model_id id) (raw_concurrency_pool f))) None None (Some lim))
      end
  end.

(** [build_provider_candidates] *)
Fixpoint candidates_loop (model_id : string) (seen : gset string) (l : list (adapter * Q)) :
    result route_error (list route_candidate) :=
  match l with
  | [] => Ok []
  | (a, w) :: l =>
      if decide (w <= 0)%Q then candidates_loop model_id seen l
      else
        let id := endpoint_id_for_adapter a in
        if decide (id ∈ seen) then Raise (DuplicateEndpoint id)
        else
          try! c <- provider_candidate model_id a w ;;
          try! cs <- candidates_loop model_id ({[id]} ∪ seen) l ;;
          Ok (c :: cs)
  end.

Definition build_provider_candidates (model_id : string) (l : list (adapter * Q)) :
    result route_error (list route_candidate) :=
  candidates_loop model_id ∅ l.

(** A candidate as the router relies on it: the resources its type draws on are named. *)
Definition candidate_wf (c : route_candidate) : Prop :=
  (0 < rc_weight c)%Q /\ rc_endpoint_id c = endpoint_id_for_adapter (rc_adapter c) /\
  match rc_provider_type c with
  | ON_DEMAND => rc_quota_pool c = None /\ rc_concurrency_pool c = None
  | QUOTA => is_Some (rc_quota_pool c) /\ is_Some (rc_quota_source c) /\
             (exists n, rc_quota_policy c = Some n /\ 1 <= n) /\ rc_concurrency_pool c = None
  | CONCURRENCY => is_Some (rc_concurrency_pool c) /\ (exists n, rc_concurrency_policy c = Some n /\ 1 <= n) /\
                   rc_quota_pool c = None
  end.

Lemma policy_positive l n : policy_from_raw l = Ok n -> 1 <= n.
Proof.
  unfold policy_from_raw, _parse_positive_int. intros E. repeat case_decide; try done.
  destruct (snd <$> last l) as [[]|]; try done. case_decide; [done|]. injection E as <-. lia.
Qed.

Lemma provider_candidate_wf model a w c :
  (0 < w)%Q -> provider_candidate model a w = Ok c -> candidate_wf c /\ rc_endpoint_id c = endpoint_id_for_adapter a.
Proof.
  intros Hw. unfold provider_candidate. destruct (provider_type_for_adapter _) as [ty|]; [cbn|done].
  destruct (raw_pricing _) as [pr|]; [cbn|done]. destruct ty.
  - intros [= <-]. done.
  - destruct (_mapping_attr "quota_source" _) as [[src|]|]; try done. cbn.
    destruct (quota_source_from_raw src) as [qs|]; [cbn|done]. case_decide; [done|].
    destruct (_mapping_attr "quota" _) as [[q|]|]; try done. cbn.
    destruct (policy_from_raw q) as [n|] eqn:Ep; [cbn|done]. intros [= <-]. split; [|done].
    split_and!; cbn; try done. split_and!; try done. exists n. eauto using policy_positive.
  - destruct (_mapping_attr "concurrency" _) as [[q|]|]; try done. cbn.
    destruct (policy_from_raw q) as [n|] eqn:Ep; [cbn|done]. intros [= <-]. split; [|done].
    split_and!; cbn; try done. split_and!; try done. exists n. eauto using policy_positive.
Qed.

Lemma candidates_loop_wf model seen l cs :
  candidates_loop model seen l = Ok cs ->
  Forall candidate_wf cs /\ NoDup (rc_endpoint_id <$> cs) /\ Forall (fun c => rc_endpoint_id c ∉ seen) cs.
Proof.
  revert seen cs; induction l as [|[a w] l IH]; intros seen cs; cbn.
  { intros [= <-]. split_and!; constructor. }
  case_decide as Hw; [apply IH|]. case_decide as Hs; [done|].
  destruct (provider_candidate model a w) as [c|] eqn:Ec; [cbn|done].
  destruct (candidates_loop model _ l) as [cs'|] eqn:El; [cbn|done]. intros [= <-].
  destruct (provider_candidate_wf _ _ _ _ (Qnot_le_lt _ _ Hw) Ec) as [Hc Hid]. destruct (IH _ _ El) as (H1 & H2 & H3).
  split_and!; [by constructor| |].
  - cbn. constructor; [|done]. rewrite list_elem_of_fmap. intros (c' & E & Hin). rewrite Forall_forall in H3.
    apply (H3 c' Hin). rewrite <- E, Hid. set_solver.
  - constructor; [by rewrite Hid|]. eapply Forall_impl; [exact H3|]. cbn. set_solver.
Qed.

(** Accepted candidates are well formed and have distinct endpoints. *)
Lemma build_candidates_wf model l cs :
  build_provider_candidates model l = Ok cs -> Forall candidate_wf cs /\ NoDup (rc_endpoint_id <$> cs).
Proof. intros E. by destruct (candidates_loop_wf _ _ _ _ E) as (? & ? & _). Qed.
End candidates.

(** ** Resources *)

(** The router's shared state that a dispatch draws on.  [managers] is the heap of
    [ConcurrencyManager] objects, [concurrency_pools] the router's references into it. *)
Record resources : Type := Resources {
  health_registry : registry;
  managers : list concurrency_manager;
  concurrency_pools : gmap string nat;
  quota_pools : gmap string quota_pool;
  quota_snapshots : quota_store;
  endpoint_concurrency_pool : gmap string string
}.
#[export] Instance eta_resources : Eta resources := fun r =>
  Resources (health_registry r) (managers r) (concurrency_pools r) (quota_pools r) (quota_snapshots r)
    (endpoint_concurrency_pool r).

Definition new_resources : resources := Resources new_registry [] ∅ ∅ new_quota_store ∅.

(** What the candidates ask for: quota pools, concurrency pools, and the pool of each
    concurrency-limited endpoint. *)
Record pool_specs : Type := PoolSpecs {
  quota_specs : gmap string (Z * option quota_source * string * bool);
  concurrency_specs : gmap string (Z * string);
  endpoint_pool : gmap string string
}.

Inductive pool_error : Type :=
| ConflictingQuota (pool : string)
| ConflictingConcurrency (pool : string)
| QuotaWithoutSource (pool : string)
| BadLimit.

Section pools.
Context `{Adapters} `{RouteConfigs} `{LocalTime}.

(** [_uses_local_quota_fallback] *)
Definition _uses_local_quota_fallback (a : adapter) : bool :=
  let f := route_fields_of a in
  raw_local_quota_fallback f ||
  match truthy (raw_route_provider f), truthy (raw_upstream_provider f) with
  | Some x, Some y => bool_decide (x <> y)
  | _, _ => false
  end.

(** [_local_quota_source] *)
Definition _local_quota_source (pool_id : string) : quota_source :=
  QuotaSource "local" ("routewise:" +:+ pool_id)%string "requests".

(** One candidate of the first loop of [_build_resource_pools]. *)
Definition spec_step (s : pool_specs) (c : route_candidate) : pool_specs * option pool_error :=
  match rc_provider_type c, rc_quota_pool c, rc_quota_policy c, rc_concurrency_pool c, rc_concurrency_policy c with
  | QUOTA, Some pool, Some policy, _, _ =>
      let prior := quota_specs s !! pool in
      let spec := (policy, rc_quota_source c) in
      if match prior with Some p => bool_decide ((p.1.1.1, p.1.1.2) <> spec) | None => false end
      then (s, Some (ConflictingQuota pool))
      else
        let local := _uses_local_quota_fallback (rc_adapter c) ||
                     match prior with Some p => p.2 | None => false end in
        (PoolSpecs (<[pool := (policy, rc_quota_source c, rc_endpoint_id c, local)]> (quota_specs s))
           (concurrency_specs s) (endpoint_pool s), None)
  | CONCURRENCY, _, _, Some pool, Some policy =>
      let prior := concurrency_specs s !! pool in
      if match prior with Some p => bool_decide (p.1 <> policy) | None => false end
      then (s, Some (ConflictingConcurrency pool))
      else (PoolSpecs (quota_specs s) (<[pool := (policy, rc_endpoint_id c)]> (concurrency_specs s))
              (<[rc_endpoint_id c := pool]> (endpoint_pool s)), None)
  | _, _, _, _, _ => (s, None)
  end.

Fixpoint collect_specs (s : pool_specs) (cs : list route_candidate) : pool_specs * option pool_error :=
  match cs with
  | [] => (s, None)
  | c :: cs =>
      match spec_step s c with
      | (s, Some e) => (s, Some e)
      | (s, None) => collect_specs s cs
      end
  end.

(** The source a quota pool reads. *)
Definition pool_source (pool_id : string) (spec : Z * option quota_source * string * bool) : option quota_source :=
  match spec.1.1.2 with
  | None => None
  | Some src => Some (if spec.2 then _local_quota_source pool_id else src)
  end.

(** The rebuilt concurrency pools: a manager that exists is kept, with its slots in use,
    and takes the new limit. *)
Fixpoint concurrency_loop (l : list (string * (Z * string))) (old : gmap string nat) (heap : list concurrency_manager)
    (pools : gmap string nat) : list concurrency_manager * gmap string nat * option pool_error :=
  match l with
  | [] => (heap, pools, None)
  | (pool, (policy, _)) :: l =>
      match old !! pool ≫= (fun m => pair m <$> heap !! m) with
      | Some (m, mgr) =>
          if decide (_limit mgr = policy) then concurrency_loop l old heap (<[pool := m]> pools)
          else match update_limit mgr policy with
               | Some mgr' => concurrency_loop l old (<[m := mgr']> heap) (<[pool := m]> pools)
               | None => (heap, pools, Some BadLimit)
               end
      | None =>
          match new_manager policy with
          | Some mgr => concurrency_loop l old (heap ++ [mgr]) (<[pool := length heap]> pools)
          | None => (heap, pools, Some BadLimit)
          end
      end
  end.

(** [_build_resource_pools] over the candidates of every model *)
Definition _build_resource_pools (st : resources) (cs : list route_candidate) (now : datetime_us) :
    resources * option pool_error :=
  let '(s, err) := collect_specs (PoolSpecs ∅ ∅ ∅) cs in
  let st := st <| endpoint_concurrency_pool := endpoint_pool s |> in
  match err with
  | Some e => (st, Some e)
  | None =>
      match head (filter (fun x => pool_source x.1 x.2 = None) (map_to_list (quota_specs s))) with
      | Some (pool, _) => (st, Some (QuotaWithoutSource pool))
      | None =>
          let pools := map_imap (fun pool spec => (fun src => QuotaPool src spec.1.1.1) <$> pool_source pool spec)
                         (quota_specs s) in
          let local : gmap quota_source Z :=
            list_to_map (omap (fun x : string * (Z * option quota_source * string * bool) =>
                                 if x.2.2 then Some (_local_quota_source x.1, x.2.1.1.1) else None)
                           (map_to_list (quota_specs s))) in
          let st := st <| quota_pools := pools |> in
          let st := st <| quota_snapshots := configure_local_fallbacks (quota_snapshots st) local now |> in
          let '(heap, cpools, err) :=
            concurrency_loop (map_to_list (concurrency_specs s)) (concurrency_pools st) (managers st) ∅ in
          match err with
          | Some e => (st <| managers := heap |>, Some e)
          | None => ((st <| managers := heap |>) <| concurrency_pools := cpools |>, None)
          end
      end
  end.
End pools.

(** ** Ownership of a dispatch *)

(** [FeasibleProviderCandidate] *)
Record feasible_candidate : Type := FeasibleProviderCandidate {
  fc_endpoint_id : string;
  fc_adapter : adapter;
  fc_provider_type : provider_type;
  fc_weight : Q;
  fc_effective_cost_usd : Q;
  fc_request_cost_usd : Q;
  fc_mean_ttft_sec : Q;
  fc_prefix_cache_discount_usd : Q;
  fc_prefix_cache_expected_tokens : Q;
  fc_prefix_cache_adjustment_applied : bool;
  fc_quota_pool : option string;
  fc_concurrency_pool : option string;
  fc_quota_used_fraction : option Q;
  fc_quota_remaining : option Z
}.

(** [ProviderReservation] as [_commit_candidate] returns it: it owns a slot, if one was
    taken, and the dispatch claim; [release] gives both back once. *)
Record reservation : Type := ProviderReservation {
  rs_slot : option nat;
  rs_claim : option dispatch_claim;
  released : bool
}.

Section commit.
Context `{LocalTime}.

(** [_reserve_candidate]: [None] when there is nothing left, else the slot taken. *)
Definition _reserve_candidate (st : resources) (now : datetime_us) (c : feasible_candidate) :
    resources * option (option nat) :=
  match fc_provider_type c with
  | CONCURRENCY =>
      match truthy (fc_concurrency_pool c) ≫= (fun p => concurrency_pools st !! p) with
      | None => (st, None)
      | Some m =>
          match managers st !! m with
          | None => (st, None)
          | Some mgr =>
              let '(mgr, ok) := try_acquire mgr in
              let st := st <| managers := <[m := mgr]> (managers st) |> in
              (st, if ok then Some (Some m) else None)
          end
      end
  | QUOTA =>
      match truthy (fc_quota_pool c) ≫= (fun p => quota_pools st !! p) with
      | None => (st, None)
      | Some p =>
          let '(q, ok) := consume (quota_snapshots st) (qp_source p) now in
          (st <| quota_snapshots := q |>, if ok then Some None else None)
      end
  | ON_DEMAND => (st, Some None)
  end.

(** [_commit_candidate] *)
Definition _commit_candidate (st : resources) (e : env) (now : datetime_us) (c : feasible_candidate) :
    resources * option reservation :=
  let '(r, claim) := registry_begin_dispatch (health_registry st) e (fc_endpoint_id c) in
  let st := st <| health_registry := r |> in
  match claim with
  | None => (st, None)
  | Some _ =>
      match _reserve_candidate st now c with
      | (st, None) => (st <| health_registry := registry_end_dispatch (health_registry st) claim |>, None)
      | (st, Some slot) => (st, Some (ProviderReservation slot claim false))
      end
  end.

(** [release] of the slot's own reservation. *)
Definition release_manager (st : resources) (slot : option nat) : resources :=
  match slot with
  | Some m => st <| managers := alter release_slot m (managers st) |>
  | None => st
  end.

(** [ProviderReservation.release], the callback that [_commit_candidate] gives it. *)
Definition release_reservation (st : resources) (r : reservation) : resources * reservation :=
  if released r then (st, r)
  else
    let st := release_manager st (rs_slot r) in
    (st <| health_registry := registry_end_dispatch (health_registry st) (rs_claim r) |>,
     ProviderReservation (rs_slot r) (rs_claim r) true).
End commit.

(** ** Histories *)

Inductive own_op : Type :=
| OCommit (e : env) (now : datetime_us) (c : feasible_candidate)
| ORelease (i : nat)
| ORebuild (cs : list route_candidate) (now : datetime_us)
| OReport (e : env) (id : string) (o : eop)      (* an outcome, a query or a delivered page *)
| OQuota (now : datetime_us) (o : quota_op).

(** The resources, and every reservation made so far. *)
Record owners : Type := Owners { res : resources; held : list reservation }.

Section ownership.
Context `{Adapters} `{RouteConfigs} `{LocalTime} `{ErrorText}.

(** Claims are taken and ended by commits and releases only. *)
Definition reports (o : eop) : bool :=
  match o with EBegin | EEnd _ => false | _ => true end.

Definition own_step (w : owners) (o : own_op) : owners :=
  match o with
  | OCommit e now c =>
      match _commit_candidate (res w) e now c with
      | (st, Some r) => Owners st (held w ++ [r])
      | (st, None) => Owners st (held w)
      end
  | ORelease i =>
      match held w !! i with
      | Some r => let '(st, r) := release_reservation (res w) r in Owners st (<[i := r]> (held w))
      | None => w
      end
  | ORebuild cs now => Owners (_build_resource_pools (res w) cs now).1 (held w)
  | OReport e id o =>
      if reports o
      then Owners ((res w) <| health_registry := (rstep (health_registry (res w)) e id o).1 |>) (held w) else w
  | OQuota now o =>
      Owners ((res w) <| quota_snapshots := (quota_step (quota_snapshots (res w)) (now, o)).1 |>) (held w)
  end.

Definition own_run (w : owners) (l : list own_op) : owners := fold_left own_step l w.

(** Slots in use at a manager, and reservations that hold one of its slots. *)
Definition active_at (st : resources) (m : nat) : Z := default 0 (_active <$> managers st !! m).

Definition holds (m : nat) (r : reservation) : bool := negb (released r) && bool_decide (rs_slot r = Some m).
Definition outstanding (m : nat) (l : list reservation) : Z := Z.of_nat (length (filter (holds m) l)).

(** The probe token held at an endpoint's circuit. *)
Definition probe_held (r : registry) (id : string) : option Z := circuits r !! id ≫= probe_token.

(** *** Circuits *)

Lemma probe_ensure_circuit r e id id' :
  probe_held (_ensure_circuit r e id).1 id' = probe_held r id' /\
  probe_held r id = probe_token (_ensure_circuit r e id).2 /\
  circuits (_ensure_circuit r e id).1 !! id = Some (_ensure_circuit r e id).2.
Proof.
  unfold probe_held, _ensure_circuit. destruct (circuits r !! id) as [c|] eqn:E; cbn; rewrite ?E; cbn; [done|].
  rewrite lookup_insert_eq. split_and!; try done. rewrite lookup_insert. case_decide; [subst; by rewrite E|done].
Qed.

Lemma probe_ensure r e id id' : probe_held (ensure r e id) id' = probe_held r id'.
Proof.
  unfold ensure. destruct (health r !! id).
  - apply probe_ensure_circuit.
  - destruct (probe_ensure_circuit (r <| health := <[id := new_health (settings e)]> (health r) |>) e id id') as (E & _).
    rewrite E. done.
Qed.

Lemma begin_token b now :
  match begin_dispatch b now with
  | (b', (true, Some k)) => probe_token b' = Some k
  | (b', _) => probe_token b' = probe_token b
  end.
Proof.
  unfold begin_dispatch, _claim_probe. destruct (state b); [done| |].
  - destruct (last_opened b); [case_decide; done|done].
  - destruct (_probe_claim_live b now); done.
Qed.

Lemma probe_begin r e id :
  let '(r', claim) := registry_begin_dispatch r e id in
  (forall id', id' <> id -> probe_held r' id' = probe_held r id') /\
  match claim with
  | Some (DispatchClaim id' (Some k)) => id' = id /\ probe_held r' id = Some k
  | Some (DispatchClaim id' None) => id' = id /\ probe_held r' id = probe_held r id
  | None => probe_held r' id = probe_held r id
  end.
Proof.
  unfold registry_begin_dispatch. pose proof (probe_ensure_circuit r e id) as Hp.
  destruct (_ensure_circuit r e id) as [r1 c] eqn:Er. pose proof (begin_token c (perf_counter e)) as Hb.
  destruct (begin_dispatch c (perf_counter e)) as [c' [adm tok]]. cbn [fst snd] in *.
  assert (forall id', probe_held (r1 <| circuits := <[id := c']> (circuits r1) |>) id' =
    if decide (id = id') then probe_token c' else probe_held r id') as Hl.
  { intros id'. destruct (Hp id') as (E & _). unfold probe_held in *. cbn. rewrite lookup_insert. case_decide; done. }
  destruct (Hp id) as (_ & E2 & _).
  split; [intros id' Hne; rewrite Hl; by rewrite decide_False|].
  destruct adm, tok as [k|]; rewrite ?Hl, ?decide_True by done; rewrite ?E2; try done.
Qed.

Lemma probe_end r claim id :
  probe_held (registry_end_dispatch r claim) id = probe_held r id /\
    ~ (exists k, claim = Some (DispatchClaim id (Some k)) /\ probe_held r id = Some k) \/
  probe_held (registry_end_dispatch r claim) id = None.
Proof.
  unfold registry_end_dispatch. destruct claim as [[id' [k|]]|]; [|left; split; [done|naive_solver]..].
  destruct (circuits r !! id') as [c|] eqn:Ec.
  - unfold probe_held. cbn. rewrite lookup_insert. case_decide as E; [subst id'; cbn|left; split; [done|naive_solver]].
    rewrite Ec. cbn. unfold end_dispatch. case_decide; [by right|left; split; [done|]]. naive_solver.
  - left. split; [done|]. intros (k' & [= -> ->] & Hk). unfold probe_held in Hk. by rewrite Ec in Hk.
Qed.

Lemma report_circuits r e id : circuits (_report_auth_misconfig r e id).1 = circuits r.
Proof. unfold _report_auth_misconfig. by repeat case_match. Qed.

(** Reports keep a probe or end it. *)
Lemma probe_report r e id o id' :
  reports o = true ->
  probe_held (rstep r e id o).1 id' = probe_held r id' \/ probe_held (rstep r e id o).1 id' = None.
Proof.
  intros Ho. assert (forall r1 c c' h a, (forall j, probe_held r1 j = probe_held r j) -> circuits r1 !! id = Some c ->
    probe_token c' = probe_token c \/ probe_token c' = None ->
    probe_held (Registry h (<[id := c']> (circuits r1)) a) id' = probe_held r id' \/
    probe_held (Registry h (<[id := c']> (circuits r1)) a) id' = None) as Hset.
  { intros r1 c c' h a Hr Hc Ht. specialize (Hr id'). unfold probe_held in *. cbn. rewrite lookup_insert.
    case_decide; [subst|by left]. rewrite Hc in Hr. cbn in *. destruct Ht as [->| ->]; [left; done|by right]. }
  destruct o as [| |t| |reason detail exc|ep g d]; try done; cbn [rstep].
  - unfold registry_allow_request. destruct (probe_ensure_circuit r e id id') as (E & _).
    destruct (_ensure_circuit r e id). by left.
  - unfold record_success. pose proof (fun j => probe_ensure r e id j) as Hr.
    destruct (ensure_exists r e id) as (Hh & Hc & _). rewrite Hh, Hc.
    set (h := ep_health _) in *. set (c := ep_circuit _) in *. clearbody h c.
    destruct (record h true) as [h1 ended]. destruct (on_success c e) as [c1 fx] eqn:Eo. cbn [fst].
    assert (probe_token c1 = probe_token c \/ probe_token c1 = None) as Ht.
    { unfold on_success in Eo. cbn in Eo. destruct (state c); cbn in Eo; simplify_eq; [by left|by right..]. }
    destruct ended; eapply Hset; eauto.
  - unfold record_failure. destruct (classify exc) as [| |status auth]; [by left..|]. unfold charge_failure.
    pose proof (fun j => probe_ensure r e id j) as Hr.
    destruct (ensure_exists r e id) as (Hh & Hc & _). rewrite Hh, Hc.
    set (h := ep_health _) in *. set (c := ep_circuit _) in *. clearbody h c.
    destruct (record h false) as [h1 ended]. destruct (note_failure h1 status auth) as [h2 rej].
    match goal with |- context [on_failure c e ?a ?b ?d ?f] =>
      pose proof (on_failure_circuit c e a b d f) as Hf; destruct (on_failure c e a b d f) as [[c1 fx] err] end.
    cbn [fst] in Hf.
    assert (probe_token c1 = probe_token c \/ probe_token c1 = None) as Ht.
    { left. destruct Hf as (_ & _ & _ & _ & _ & _ & _ & _ & -> & _). unfold failed. by destruct (trips _ _). }
    destruct err; [eapply Hset; eauto|]. destruct auth; [|eapply Hset; eauto].
    match goal with |- context [_report_auth_misconfig ?x e id] =>
      pose proof (report_circuits x e id) as Hx; destruct (_report_auth_misconfig x e id) as [r' fx'] end.
    cbn [fst] in Hx |- *. unfold probe_held at 1 3. rewrite Hx. eapply (Hset _ c c1); eauto.
  - unfold registry_alert_sent. destruct (circuits r !! id) as [c|] eqn:Ec; [|by left].
    eapply Hset; eauto. left. by destruct (circuit_alert_sent_circuit c e ep g d) as (_ & _ & _ & _ & _ & _ & _ & _ & -> & _).
Qed.

(** *** Slots *)

Lemma active_insert st m mgr mgr' k :
  managers st !! m = Some mgr ->
  active_at (st <| managers := <[m := mgr']> (managers st) |>) k =
  active_at st k + (if decide (k = m) then _active mgr' - _active mgr else 0).
Proof.
  intros Hm. unfold active_at. cbn. destruct (decide (k = m)) as [->|Hne].
  - rewrite list_lookup_insert_eq by (by eapply lookup_lt_Some). rewrite Hm. cbn. lia.
  - rewrite list_lookup_insert_ne by done. lia.
Qed.

Lemma concurrency_loop_active l old heap pools st :
  managers st = heap ->
  forall k, active_at (st <| managers := (concurrency_loop l old heap pools).1.1 |>) k = active_at st k.
Proof.
  revert heap pools st; induction l as [|[pool [policy ep]] l IH]; intros heap pools st <- k; cbn [concurrency_loop]; [done|].
  destruct (old !! pool ≫= _) as [[m mgr]|] eqn:E.
  - case_decide; [by apply IH|]. unfold update_limit. case_decide; [done|].
    apply bind_Some in E as (m' & _ & E). apply fmap_Some in E as (mgr' & E & [= <- <-]).
    set (mgr1 := mgr <| _limit := policy |>).
    specialize (IH (<[m := mgr1]> (managers st)) (<[pool := m]> pools) (st <| managers := <[m := mgr1]> (managers st) |>) eq_refl k).
    etrans; [exact IH|]. rewrite (active_insert st m mgr) by done. cbn. case_decide; lia.
  - unfold new_manager. case_decide; [done|]. set (mgr := ConcurrencyManager policy 0 0 0 0).
    specialize (IH (managers st ++ [mgr]) (<[pool := length (managers st)]> pools) (st <| managers := managers st ++ [mgr] |>) eq_refl k).
    etrans; [exact IH|]. unfold active_at. cbn. destruct (decide (k < length (managers st))%nat).
    + by rewrite lookup_app_l.
    + rewrite lookup_app_r by lia. rewrite (lookup_ge_None_2 (managers st)) by lia.
      destruct (k - length (managers st))%nat as [|j]; done.
Qed.

Lemma rebuild_frame st cs now :
  (forall k, active_at (_build_resource_pools st cs now).1 k = active_at st k) /\
  health_registry (_build_resource_pools st cs now).1 = health_registry st.
Proof.
  unfold _build_resource_pools. destruct (collect_specs _ cs) as [s [e|]]; [done|].
  destruct (head _) as [[pool spec]|]; [done|].
  match goal with |- context [concurrency_loop ?l ?old ?h ?ps] =>
    pose proof (concurrency_loop_active l old h ps st eq_refl) as Hl;
    destruct (concurrency_loop l old h ps) as [[heap cpools] err] end.
  cbn [fst] in Hl. by destruct err.
Qed.

Lemma acquire_slots st m mgr :
  managers st !! m = Some mgr ->
  let '(mgr', ok) := try_acquire mgr in
  (forall k, active_at (st <| managers := <[m := mgr']> (managers st) |>) k =
     active_at st k + (if decide (k = m) then if ok then 1 else 0 else 0)) /\
  (ok = true -> _active mgr' <= _limit mgr').
Proof.
  intros Hm. unfold try_acquire. case_decide; (split; [intros k; rewrite (active_insert st m mgr) by done; cbn; case_decide; lia|]);
    [intros _; cbn; lia|done].
Qed.

(** What a reservation attempt changes: one slot when it succeeds with one, else none. *)
Definition takes (slot : option (option nat)) (k : nat) : Z :=
  if decide (slot = Some (Some k)) then 1 else 0.

Lemma reserve_spec st now c :
  let '(st', slot) := _reserve_candidate st now c in
  health_registry st' = health_registry st /\
  (forall k, active_at st' k = active_at st k + takes slot k) /\
  (forall m, slot = Some (Some m) -> exists mgr, managers st' !! m = Some mgr /\ _active mgr <= _limit mgr).
Proof.
  assert (forall s : option (option nat), (forall m, s <> Some (Some m)) -> forall k, takes s k = 0) as Hz
    by (intros s Hs k; unfold takes; rewrite decide_False; auto).
  unfold _reserve_candidate. destruct (fc_provider_type c).
  - split_and!; [done| |done]. intros k. rewrite Hz by done. lia.
  - destruct (_ ≫= _) as [p|]; [|split_and!; [done| |done]; intros k; rewrite Hz by done; lia].
    destruct (consume _ _ _) as [q ok]. split_and!; [done| |by destruct ok].
    intros k. rewrite Hz by (by destruct ok). change (active_at _ k) with (active_at st k). lia.
  - destruct (_ ≫= _) as [m|]; [|split_and!; [done| |done]; intros k; rewrite Hz by done; lia].
    destruct (managers st !! m) as [mgr|] eqn:Em; [|split_and!; [done| |done]; intros k; rewrite Hz by done; lia].
    pose proof (acquire_slots st m mgr Em) as Ha. destruct (try_acquire mgr) as [mgr' ok]. destruct Ha as [Ha Hl].
    split_and!; [done| |].
    + intros k. rewrite Ha. unfold takes. destruct ok; repeat case_decide; simplify_eq; lia.
    + destruct ok; [|done]. intros m' [= <-]. exists mgr'. split; [|by apply Hl].
      cbn. apply list_lookup_insert_eq. by eapply lookup_lt_Some.
Qed.

(** *** The invariant *)

Definition owns (l : list reservation) (id : string) (k : Z) : Prop :=
  exists r, r ∈ l /\ released r = false /\ rs_claim r = Some (DispatchClaim id (Some k)).

Record owned (w : owners) : Prop := {
  ow_slots m : active_at (res w) m = outstanding m (held w);
  ow_probes id k : probe_held (health_registry (res w)) id = Some k -> owns (held w) id k
}.

Lemma outstanding_snoc m l r :
  outstanding m (l ++ [r]) = outstanding m l + (if holds m r then 1 else 0).
Proof. unfold outstanding. rewrite filter_app, length_app, filter_bool_cons. destruct (holds m r); cbn; lia. Qed.

Lemma health_set st r : health_registry (st <| health_registry := r |>) = r.
Proof. done. Qed.

(** A commit: both resources or neither. *)
Lemma commit_spec st e now c :
  let '(st', r) := _commit_candidate st e now c in
  match r with
  | Some r =>
      released r = false /\
      (forall k, active_at st' k = active_at st k + takes (Some (rs_slot r)) k) /\
      (forall m, rs_slot r = Some m -> exists mgr, managers st' !! m = Some mgr /\ _active mgr <= _limit mgr) /\
      (forall id k, probe_held (health_registry st') id = Some k ->
         probe_held (health_registry st) id = Some k \/ rs_claim r = Some (DispatchClaim id (Some k)))
  | None =>
      (forall k, active_at st' k = active_at st k) /\
      (forall id, probe_held (health_registry st') id = probe_held (health_registry st) id \/
                  probe_held (health_registry st') id = None)
  end.
Proof.
  unfold _commit_candidate. pose proof (probe_begin (health_registry st) e (fc_endpoint_id c)) as Hb.
  destruct (registry_begin_dispatch _ e _) as [rg claim]. destruct Hb as [Hne Hcl].
  assert (forall id k, probe_held rg id = Some k -> probe_held (health_registry st) id = Some k \/
    claim = Some (DispatchClaim id (Some k))) as Hp.
  { intros id k Hk. destruct (decide (id = fc_endpoint_id c)) as [->|Hn]; [|left; by rewrite <- Hne].
    destruct claim as [[id' [k'|]]|]; [|left; destruct Hcl; congruence|left; congruence].
    destruct Hcl as [-> Hk']. right. congruence. }
  destruct claim as [cl|]; [|split; [done|]; intros id; left; destruct (decide (id = fc_endpoint_id c)) as [->|];
    [done|by apply Hne]].
  pose proof (reserve_spec (st <| health_registry := rg |>) now c) as Hr.
  destruct (_reserve_candidate _ now c) as [st' [slot|]]; destruct Hr as (R1 & R2 & R3); cbn in R1.
  - split_and!; [done| |by intros m [= ->]; apply R3|].
    + intros k. rewrite R2. done.
    + rewrite R1. apply Hp.
  - split; [intros k; etrans; [apply (R2 k)|]; unfold takes; rewrite decide_False by done; change (active_at _ k) with (active_at st k); lia|].
    intros id. rewrite !health_set, R1. destruct (probe_end rg (Some cl) id) as [[-> Hn]|]; [|by right].
    destruct (probe_held rg id) as [k|] eqn:Ek; [|by right]. left. destruct (Hp id k Ek) as [->|E]; [done|].
    destruct Hn. exists k. split; congruence.
Qed.

(** What a commit for [c] takes of the capacity, besides a manager's count: a slot of the
    manager behind its concurrency pool, a use of its quota source, or nothing. *)
Definition capacity_taken (st st' : resources) (now : datetime_us) (c : feasible_candidate) (slot : option nat) : Prop :=
  match fc_provider_type c with
  | CONCURRENCY =>
      exists p m, truthy (fc_concurrency_pool c) = Some p /\ concurrency_pools st !! p = Some m /\ slot = Some m
  | QUOTA =>
      slot = None /\ exists p q, truthy (fc_quota_pool c) = Some p /\ quota_pools st !! p = Some q /\
        consume (quota_snapshots st) (qp_source q) now = (quota_snapshots st', true)
  | ON_DEMAND => slot = None
  end.

(** There is no such capacity: no pool, a manager at its limit, or a quota that is spent. *)
Definition capacity_out (st : resources) (now : datetime_us) (c : feasible_candidate) : Prop :=
  match fc_provider_type c with
  | CONCURRENCY =>
      forall p m mgr, truthy (fc_concurrency_pool c) = Some p -> concurrency_pools st !! p = Some m ->
        managers st !! m = Some mgr -> _limit mgr <= _active mgr
  | QUOTA =>
      forall p q, truthy (fc_quota_pool c) = Some p -> quota_pools st !! p = Some q ->
        (consume (quota_snapshots st) (qp_source q) now).2 = false
  | ON_DEMAND => False
  end.

Lemma reserve_capacity st now c :
  match _reserve_candidate st now c with
  | (st', Some slot) => capacity_taken st st' now c slot
  | (_, None) => capacity_out st now c
  end.
Proof.
  unfold _reserve_candidate, capacity_taken, capacity_out. destruct (fc_provider_type c); [done|..].
  - destruct (truthy (fc_quota_pool c)) as [p|]; cbn [mbind option_bind]; [|done].
    destruct (quota_pools st !! p) as [q|] eqn:Eq; [|naive_solver].
    destruct (consume _ _ _) as [qs ok] eqn:Ec. destruct ok; [by eauto 6|].
    intros p' q' [= <-] Hq. by simplify_eq; rewrite Ec.
  - destruct (truthy (fc_concurrency_pool c)) as [p|]; cbn [mbind option_bind]; [|done].
    destruct (concurrency_pools st !! p) as [m|] eqn:Em; [|naive_solver].
    destruct (managers st !! m) as [mgr|] eqn:Eg; [|naive_solver].
    unfold try_acquire. case_decide as Ha; [by eauto|]. intros p' m' mgr' [= <-] Hm Hg. simplify_eq. lia.
Qed.

(** A commit asks the circuit of the candidate's endpoint for a claim and then for the
    capacity: it keeps both, or none. *)
Lemma commit_takes_both st e now c :
  let '(rg, claim) := registry_begin_dispatch (health_registry st) e (fc_endpoint_id c) in
  match _commit_candidate st e now c with
  | (st', Some r) =>
      is_Some claim /\ rs_claim r = claim /\ health_registry st' = rg /\ released r = false /\
      capacity_taken st st' now c (rs_slot r)
  | (st', None) =>
      claim = None /\ health_registry st' = rg /\ managers st' = managers st /\ quota_snapshots st' = quota_snapshots st \/
      is_Some claim /\ capacity_out st now c /\ health_registry st' = registry_end_dispatch rg claim
  end.
Proof.
  unfold _commit_candidate. destruct (registry_begin_dispatch _ e _) as [rg [cl|]]; [|by left].
  pose proof (reserve_capacity (st <| health_registry := rg |>) now c) as Hr.
  pose proof (reserve_spec (st <| health_registry := rg |>) now c) as Hs.
  destruct (_reserve_candidate _ now c) as [st' [slot|]]; destruct Hs as (Hh & _ & _); cbn in Hh.
  - by split_and!; [eexists|..].
  - right. split_and!; [by eexists|done|]. cbn. by rewrite Hh.
Qed.

Lemma release_spec st r :
  released r = false -> (forall m, rs_slot r = Some m -> 0 < active_at st m) ->
  let '(st', r') := release_reservation st r in
  released r' = true /\ (forall k, active_at st' k = active_at st k - takes (Some (rs_slot r)) k) /\
  (forall id k, probe_held (health_registry st') id = Some k ->
     probe_held (health_registry st) id = Some k /\ rs_claim r <> Some (DispatchClaim id (Some k))).
Proof.
  intros Hr Hm. unfold release_reservation. rewrite Hr. split_and!; [done| |].
  - intros k. transitivity (active_at (release_manager st (rs_slot r)) k); [done|]. unfold release_manager, takes.
    destruct (rs_slot r) as [m|]; [|rewrite decide_False by done; lia]. specialize (Hm m eq_refl). unfold active_at in *. cbn.
    destruct (decide (k = m)) as [->|Hne].
    + rewrite list_lookup_alter_eq, decide_True by done. destruct (managers st !! m) as [mgr|]; [|cbn in Hm; lia].
      cbn in *. unfold release_slot. rewrite decide_True by done. cbn. lia.
    + rewrite list_lookup_alter_ne by done. rewrite decide_False by congruence. lia.
  - intros id k. rewrite health_set. replace (health_registry (release_manager st (rs_slot r))) with (health_registry st) by (by destruct (rs_slot r)).
    destruct (probe_end (health_registry st) (rs_claim r) id) as [[-> Hn]| -> ]; [|done]. intros Hk. split; [done|].
    intros E. apply Hn. by exists k.
Qed.

Lemma owns_snoc l r id k : owns l id k -> owns (l ++ [r]) id k.
Proof. intros (x & Hx & ?). exists x. split; [apply elem_of_app; by left|done]. Qed.

Lemma outstanding_insert m l i r r' :
  l !! i = Some r ->
  outstanding m (<[i := r']> l) = outstanding m l - (if holds m r then 1 else 0) + (if holds m r' then 1 else 0).
Proof.
  intros Hi. unfold outstanding. rewrite insert_take_drop by (by eapply lookup_lt_Some).
  rewrite <- (take_drop_middle l i r Hi) at 3. rewrite !filter_app, !length_app, !filter_bool_cons.
  destruct (holds m r), (holds m r'); cbn [length]; lia.
Qed.

Lemma own_step_owned w o : owned w -> owned (own_step w o).
Proof.
  intros [Hs Hp]. destruct o as [e now c|i|cs now|e id o|now o]; cbn [own_step].
  - pose proof (commit_spec (res w) e now c) as Hc. destruct (_commit_candidate (res w) e now c) as [st' [r|]].
    + destruct Hc as (Hr & Ha & _ & Hpr). constructor; cbn [res held].
      * intros m. rewrite Ha, outstanding_snoc, Hs. unfold takes, holds. rewrite Hr. cbn.
        repeat case_bool_decide; repeat case_decide; simplify_eq; try congruence; lia.
      * intros id k Hk. destruct (Hpr id k Hk) as [Hold|Hnew]; [by apply owns_snoc, Hp|].
        exists r. split_and!; [apply elem_of_app; right; by apply list_elem_of_singleton|done|done].
    + destruct Hc as [Ha Hpr]. constructor; cbn [res held]; [intros m; by rewrite Ha|].
      intros id k Hk. apply Hp. destruct (Hpr id) as [E|E]; congruence.
  - destruct (held w !! i) as [r|] eqn:Hi; [|done]. destruct (released r) eqn:Hr.
    { unfold release_reservation. rewrite Hr. rewrite list_insert_id by done. by constructor. }
    assert (forall m, rs_slot r = Some m -> 0 < active_at (res w) m) as Hpos.
    { intros m Hm. rewrite Hs. unfold outstanding.
      assert (r ∈ filter (holds m) (held w)) as Hin.
      { apply list_elem_of_filter. split; [unfold holds; rewrite Hr, bool_decide_true by done; done|by eapply list_elem_of_lookup_2]. }
      destruct (filter (holds m) (held w)); [by apply not_elem_of_nil in Hin|cbn; lia]. }
    pose proof (release_spec (res w) r Hr Hpos) as Hrel. 
    assert (rs_slot (release_reservation (res w) r).2 = rs_slot r /\ rs_claim (release_reservation (res w) r).2 = rs_claim r) as [Es Ec]
      by (unfold release_reservation; by rewrite Hr).
    destruct (release_reservation (res w) r) as [st' r']. cbn [snd] in Es, Ec. destruct Hrel as (Hr' & Ha & Hpr).
    constructor; cbn [res held].
    + intros m. rewrite Ha, (outstanding_insert m _ i r) by done. rewrite Hs. unfold takes, holds. rewrite Hr, Hr'. cbn.
      repeat case_bool_decide; repeat case_decide; simplify_eq; try congruence; lia.
    + intros id k Hk. destruct (Hpr id k Hk) as [Hold Hne]. destruct (Hp id k Hold) as (x & Hx & Hrx & Hcx).
      exists x. split; [|done]. apply list_elem_of_lookup in Hx as [j Hj]. apply list_elem_of_lookup. exists j.
      rewrite list_lookup_insert_ne; [done|]. intros <-. congruence.
  - destruct (rebuild_frame (res w) cs now) as [Ha Hh]. constructor; cbn [res held]; [intros m; by rewrite Ha|].
    intros id k. rewrite Hh. apply Hp.
  - destruct (reports o) eqn:Ho; [|by constructor]. constructor; cbn [res held]; [apply Hs|].
    intros id' k Hk. apply Hp. cbn in Hk. destruct (probe_report (health_registry (res w)) e id o id' Ho); congruence.
  - constructor; cbn [res held]; [apply Hs|apply Hp].
Qed.

(** C23: RouteWise owns what it dispatches with, exactly.  Over any interleaving of
    commits by any number of requests, releases (repeated ones included), rebuilds of the
    pools, reported outcomes and quota operations: the slots in use at every concurrency
    manager, current or replaced, are the reservations on it not yet released; and every
    half-open probe still held belongs to a reservation not yet released.  A commit that
    succeeds has the claim the candidate's circuit granted it and its capacity together:
    a slot of the manager behind its pool, never past the limit, or a use of its quota.
    A commit that fails was refused the claim and took nothing, or found no capacity and
    ended the claim it had; every slot is as it was, and no probe is held that was not.
    And releasing every reservation leaves no slot in use and no probe held. *)
Theorem dispatch_ownership (l : list own_op) :
  let w := own_run (Owners new_resources []) l in
  (forall m, active_at (res w) m = outstanding m (held w)) /\
  (forall id k, probe_held (health_registry (res w)) id = Some k -> owns (held w) id k) /\
  (forall e now c,
     let '(rg, claim) := registry_begin_dispatch (health_registry (res w)) e (fc_endpoint_id c) in
     match _commit_candidate (res w) e now c with
     | (st, Some r) =>
         is_Some claim /\ rs_claim r = claim /\ health_registry st = rg /\ released r = false /\
         capacity_taken (res w) st now c (rs_slot r) /\
         (forall m, active_at st m = active_at (res w) m + (if decide (rs_slot r = Some m) then 1 else 0)) /\
         (forall m, rs_slot r = Some m -> exists mgr, managers st !! m = Some mgr /\ _active mgr <= _limit mgr)
     | (st, None) =>
         (claim = None /\ health_registry st = rg /\ managers st = managers (res w) /\
            quota_snapshots st = quota_snapshots (res w) \/
          is_Some claim /\ capacity_out (res w) now c /\ health_registry st = registry_end_dispatch rg claim) /\
         (forall m, active_at st m = active_at (res w) m) /\
         (forall id, probe_held (health_registry st) id = probe_held (health_registry (res w)) id \/
                     probe_held (health_registry st) id = None)
     end) /\
  (Forall (fun r => released r = true) (held w) ->
     (forall m, active_at (res w) m = 0) /\ (forall id, probe_held (health_registry (res w)) id = None)).
Proof.
  intros w. assert (owned w) as [Hs Hp].
  { apply (foldl_invariant owned); [intros; by apply own_step_owned|]. constructor; [|done].
    intros m. unfold active_at. cbn. by rewrite lookup_nil. }
  split_and!; [done|done| |].
  - intros e now c. pose proof (commit_spec (res w) e now c) as Hc. pose proof (commit_takes_both (res w) e now c) as Hb.
    destruct (registry_begin_dispatch _ e _) as [rg claim].
    destruct (_commit_candidate (res w) e now c) as [st [r|]]; [|by split_and!; [|apply Hc..]].
    destruct Hc as (_ & Ha & Hl & _), Hb as (? & ? & ? & ? & ?). split_and!; try done.
    intros m. rewrite Ha. unfold takes. repeat case_decide; congruence.
  - intros Hall. split.
    + intros m. rewrite Hs. unfold outstanding. rewrite filter_none; [done|]. intros r Hr. rewrite Forall_forall in Hall.
      unfold holds. rewrite (Hall r Hr). cbn. tauto.
    + intros id. destruct (probe_held _ id) as [k|] eqn:Ek; [|done]. destruct (Hp id k Ek) as (r & Hr & Hrel & _).
      rewrite Forall_forall in Hall. rewrite (Hall r Hr) in Hrel. done.
Qed.
End ownership.
