(* ===== verification/RouteWise.v ===== *)
(** RouteWise's decisions: the linear program it solves per request
    ([routing/routewise/lp.py], [effective_cost.py]), the feasible set and the choice
    ([RouteWiseRouter._build_candidates], [_sample_solution], [_select_decision_locked]),
    and the dispatch loop around them ([chat_completion], [stream_chat_completion]).

    The optimiser itself is the third-party package [llm_routewise]; it is a parameter
    here, and what the router relies on is stated where it is used.  The resources a
    decision takes are those of [RouteCandidates]. *)

From S2P Require Import Prelude PyText UsageLimit Failures CircuitBreaker EndpointHealth Offload RouteSelection ResourcePools RouteCandidates RouteEstimates PendingPrefix.
From Stdlib Require Import Qabs.

Local Open Scope Q_scope.

(** ** The optimiser *)

(** [llm_routewise.core]: the tie-broken objective, the budgeted linear program (each
    candidate a name, an objective and a cost; the answer whether it is feasible, and the
    weights), and the shadow price of a quota. *)
Class RouteWiseCore := {
  cost_tiebroken_objective : list Q -> list Q -> list Q;
  solve_budget_lp : list (string * Q * Q) -> Q -> bool * list (string * Q);
  quota_effective_cost : Q -> Q -> Q -> Q
}.

(** [LPCandidate] *)
Record lp_candidate : Type := LPCandidate {
  lp_endpoint_id : string;
  lp_cost_usd : Q;
  lp_mean_ttft_sec : Q
}.

Inductive lp_status : Type := NoFeasibleCandidates | SingleProvider | CheapestFallback | Optimal.

(** [LPSolution] *)
Record lp_solution : Type := LPSolution {
  weights : list (string * Q);
  budget_usd : Q;
  lp_state : lp_status
}.

(** [min] and [max] of a nonempty iterable of floats. *)
Definition min_of (x : Q) (l : list Q) : Q := fold_left py_min l x.
Definition max_of (x : Q) (l : list Q) : Q := fold_left py_max l x.

#[export] Instance Qeq_decision (x y : Q) : Decision (x == y) := Qeq_dec x y.

(** [min(finite, key=lambda c: (c.cost_usd, c.mean_ttft_sec))]: the first least. *)
Definition cheaper (c d : lp_candidate) : bool :=
  bool_decide (lp_cost_usd c < lp_cost_usd d) ||
  (bool_decide (lp_cost_usd c == lp_cost_usd d) && bool_decide (lp_mean_ttft_sec c < lp_mean_ttft_sec d)).

Definition cheapest (x : lp_candidate) (l : list lp_candidate) : lp_candidate :=
  fold_left (fun best c => if cheaper c best then c else best) l x.

(** [api_request_cost_usd] *)
Definition api_request_cost_usd (prompt_tokens output_tokens input_price_per_m output_price_per_m : Q) : Q :=
  (input_price_per_m * py_max prompt_tokens 0 + output_price_per_m * py_max output_tokens 0) / 1000000.

(** [math.isclose] with its default tolerance *)
Definition isclose (x y : Q) : bool :=
  bool_decide (Qabs (x - y) <= (1 # 1000000000) * py_max (Qabs x) (Qabs y)).

Section core.
Context `{RouteWiseCore}.

(** [quota_shadow_price_usd] *)
Definition quota_shadow_price_usd (used_fraction lower upper : Q) : Q :=
  let lower := py_max lower (1 # 1000000000000) in
  let upper := py_max upper lower in
  if isclose upper lower then lower else quota_effective_cost used_fraction lower upper.

(** [solve_cost_budgeted_mean_ttft]; costs and latencies are finite here. *)
Definition solve_cost_budgeted_mean_ttft (candidates : list lp_candidate) (alpha : Q) : lp_solution :=
  let finite := filter (fun c => bool_decide (0 <= lp_cost_usd c) && bool_decide (0 <= lp_mean_ttft_sec c)) candidates in
  match finite with
  | [] => LPSolution [] 0 NoFeasibleCandidates
  | c :: rest =>
      let alpha := py_max 0 (py_min alpha 1) in
      let c_min := min_of (lp_cost_usd c) (lp_cost_usd <$> rest) in
      let c_max := max_of (lp_cost_usd c) (lp_cost_usd <$> rest) in
      let budget := c_min + alpha * (c_max - c_min) in
      match rest with
      | [] => LPSolution [(lp_endpoint_id c, 1)] budget SingleProvider
      | _ :: _ =>
          let objective :=
            cost_tiebroken_objective ((fun x => lp_mean_ttft_sec x * 1000) <$> finite) (lp_cost_usd <$> finite) in
          let named := zip_with (fun x o => (lp_endpoint_id x, o, lp_cost_usd x)) finite objective in
          let '(feasible, ws) := solve_budget_lp named budget in
          if negb feasible || bool_decide (ws = [])
          then LPSolution [(lp_endpoint_id (cheapest c rest), 1)] budget CheapestFallback
          else LPSolution ws budget Optimal
      end
  end.
End core.

(** ** Sampling *)

(** [{candidate.endpoint_id: candidate for candidate in candidates}.get(id)] *)
Definition by_id (cs : list feasible_candidate) (id : string) : option feasible_candidate :=
  last (filter (fun c => fc_endpoint_id c = id) cs).

Definition total_weight (ws : list (string * Q)) : Q := foldr (fun w s => w.2 + s) 0 ws.

Fixpoint sample_loop (cs : list feasible_candidate) (total threshold cumulative : Q) (last_ : option feasible_candidate)
    (ws : list (string * Q)) : option feasible_candidate :=
  match ws with
  | [] => last_
  | (id, w) :: ws =>
      match by_id cs id with
      | None => sample_loop cs total threshold cumulative last_ ws
      | Some c =>
          if decide (w <= 0) then sample_loop cs total threshold cumulative last_ ws
          else
            let cumulative := cumulative + w / total in
            if decide (threshold <= cumulative) then Some c
            else sample_loop cs total threshold cumulative (Some c) ws
      end
  end.

(** [_sample_solution]; [threshold] is the draw. *)
Definition _sample_solution (cs : list feasible_candidate) (s : lp_solution) (threshold : Q) : option feasible_candidate :=
  let total := total_weight (weights s) in
  if decide (total <= 0) then None else sample_loop cs total threshold 0 None (weights s).

(** ** State *)

(** The settings the decisions read. *)
Record rw_config : Type := RWConfig {
  latency_unprofiled_ttft_ms : Q;
  RATE_LIMIT_ERROR_PENALTY_MS : Q;
  budget_alpha : Q;
  fallback_mode_policy : bool        (* [fallback_mode == "policy"] *)
}.

Section routewise.
Context {B S : Type}.   (* prompt blocks and cache scopes *)

(** [RouteWiseRouter]: the resources, the candidates per canonical model, the aliases of
    the bound route table, the latency layer and the stashed prefixes. *)
Record rw : Type := RW {
  rw_res : resources;
  rw_candidates : gmap string (list route_candidate);
  rw_aliases : gmap string string;
  rw_profiles : gmap string profile;
  rw_priors_ms : gmap string Q;
  rw_pending : pending_store B S
}.
#[export] Instance eta_rw : Eta rw := fun r =>
  RW (rw_res r) (rw_candidates r) (rw_aliases r) (rw_profiles r) (rw_priors_ms r) (rw_pending r).

(** [canonical_model_id] *)
Definition canonical_model_id (st : rw) (model_id : string) : string := default model_id (rw_aliases st !! model_id).

(** The verdict of [prefix_cache.evaluate] on one endpoint. *)
Record prefix_record : Type := PrefixRecord {
  cache_discount : Q;
  would_apply : bool;
  expected_cached_tokens : Q
}.

(** A request's prefix-cache context: its blocks, and per endpoint the scope and verdict. *)
Record prefix_context : Type := PrefixContext {
  px_blocks : B;
  px_scope : string -> S;
  px_evaluate : string -> Q -> Q -> prefix_record     (* endpoint, cold cost, price delta *)
}.

(** What one solve is given: the request's restrictions and estimates. *)
Record solve : Type := Solve {
  sv_model_id : string;
  sv_request_id : string;
  sv_modalities : gset string;
  sv_scope : option (gset string);
  sv_required_endpoint : option string;
  sv_bound : option (string * adapter);
  sv_require_target : bool;
  sv_prompt_tokens : Q;
  sv_output_tokens : Q;
  sv_envelope : option envelope_snapshot;
  sv_prefix : option prefix_context
}.

(** The clocks a build reads. *)
Record reading : Type := Reading {
  rd_env : env;                (* the health registry's *)
  rd_quota_now : datetime_us;  (* the quota store's *)
  rd_now : Q                   (* [time.time()] *)
}.

(** [serving.pricing.effective_pricing] at the request's pricing instant *)
Class Pricing := effective_pricing : adapter -> candidate_pricing.

Context `{Adapters} `{RouteConfigs} `{LocalTime} `{RouteWiseCore} `{Pricing}.
Variable cfg : rw_config.

(** [_latency_estimate], the estimate itself.  Its queries prune the profile in place;
    what a later query answers does not depend on that. *)
Definition _latency_estimate (st : rw) (id : string) (now : Q) : Q :=
  let profiled := match rw_profiles st !! id with
                  | Some p => if decide (0 < total_count p now)%Z
                              then mean_with_errors_sec p now (RATE_LIMIT_ERROR_PENALTY_MS cfg) else None
                  | None => None
                  end in
  match profiled with
  | Some mean => mean
  | None =>
      match rw_priors_ms st !! id with
      | Some prior => if decide (0 < prior) then prior / 1000 else latency_unprofiled_ttft_ms cfg / 1000
      | None => latency_unprofiled_ttft_ms cfg / 1000
      end
  end.

(** [_api_cost_for_pricing] *)
Definition _api_cost_for_pricing (p : candidate_pricing) (prompt_tokens output_tokens : Q) : Q :=
  api_request_cost_usd prompt_tokens output_tokens (price_prompt p) (price_completion p).

(** [price_delta_per_token] *)
Definition price_delta_per_token (prompt cached : Q) : Q :=
  if decide (cached <= 0 \/ prompt <= cached) then 0 else (prompt - cached) / 1000000.

(** [_apply_prefix_cache_cost_adjustment]: the cost, the discount, the tokens expected
    cached, whether it applies, and the scope stashed for the endpoint. *)
Definition _apply_prefix_cache_cost_adjustment (c : route_candidate) (p : candidate_pricing) (cold_cost : Q)
    (px : prefix_context) : Q * Q * Q * bool * option S :=
  let none := (cold_cost, 0, 0, false, None) in
  if decide (1 < raw_api_keys (route_fields_of (rc_adapter c)))%nat then none
  else
    let delta := price_delta_per_token (price_prompt p) (price_cache_read p) in
    if decide (delta <= 0) then none
    else
      let r := px_evaluate px (rc_endpoint_id c) cold_cost delta in
      let discount := if would_apply r then cache_discount r else 0 in
      (py_max 0 (cold_cost - discount), discount, expected_cached_tokens r, would_apply r,
       Some (px_scope px (rc_endpoint_id c))).

(** What pricing a candidate that passed admission comes to. *)
Inductive priced : Type :=
| Skipped
| NoCapacity
| Feasible (c : feasible_candidate) (scope : option S).

Definition price_candidate (st : rw) (q : solve) (rd : reading) (c : route_candidate) : rw * priced :=
  let p := effective_pricing (rc_adapter c) in
  let request_cost := _api_cost_for_pricing p (sv_prompt_tokens q) (sv_output_tokens q) in
  let ttft := _latency_estimate st (rc_endpoint_id c) (rd_now rd) in
  let feasible ty cost d x b qp cp uf rem :=
    FeasibleProviderCandidate (rc_endpoint_id c) (rc_adapter c) ty (rc_weight c) cost request_cost ttft d x b qp cp uf rem in
  let res := rw_res st in
  match rc_provider_type c with
  | ON_DEMAND =>
      let '(cost, d, x, b, scope) :=
        match sv_prefix q with
        | Some px => _apply_prefix_cache_cost_adjustment c p request_cost px
        | None => (request_cost, 0, 0, false, None)
        end in
      (st, Feasible (feasible ON_DEMAND cost d x b None None None None) scope)
  | QUOTA =>
      match sv_envelope q with
      | None => (st, Skipped)
      | Some e =>
          match truthy (rc_quota_pool c) ≫= (fun i => quota_pools res !! i) with
          | None => (st, Skipped)
          | Some pool =>
              let '(store, snap) := quota_get (quota_snapshots res) (qp_source pool) (rd_quota_now rd) in
              let st := st <| rw_res := res <| quota_snapshots := store |> |> in
              match snap with
              | None => (st, Skipped)
              | Some snap =>
                  if decide (remaining snap <= 0)%Z then (st, NoCapacity)
                  else
                    let cost := quota_shadow_price_usd (used_fraction snap) (env_lower e) (env_upper e) in
                    (st, Feasible (feasible QUOTA cost 0 0 false (rc_quota_pool c) None
                                     (Some (used_fraction snap)) (Some (remaining snap))) None)
              end
          end
      end
  | CONCURRENCY =>
      match truthy (rc_concurrency_pool c) ≫= (fun i => concurrency_pools res !! i ≫= (fun m => managers res !! m)) with
      | None => (st, Skipped)
      | Some mgr =>
          if decide (available mgr <= 0)%Z then (st, NoCapacity)
          else (st, Feasible (feasible CONCURRENCY 0 0 0 false None (rc_concurrency_pool c) None None) None)
      end
  end.

(** ** The feasible set *)

(** What [_build_candidates] has gathered so far. *)
Record built : Type := Built {
  b_candidates : list feasible_candidate;
  b_scopes : list (string * S);
  b_admission : gset string;
  b_capacity : gset string;
  b_modality : gset string;
  b_match : bool
}.
#[export] Instance eta_built : Eta built := fun b =>
  Built (b_candidates b) (b_scopes b) (b_admission b) (b_capacity b) (b_modality b) (b_match b).

(** Whether a route is inside the range the caller granted. *)
Definition in_range (q : solve) (c : route_candidate) : bool :=
  match sv_required_endpoint q with
  | Some id => bool_decide (rc_endpoint_id c = id)
  | None => true
  end && adapter_in_endpoint_scope (rc_adapter c) (sv_scope q).

Definition accepts (q : solve) (c : route_candidate) : bool :=
  adapter_supports_modalities (rc_adapter c) (sv_modalities q).

(** A candidate in range that accepts the media: circuit admission, then its price. *)
Definition admit_candidate (st : rw) (q : solve) (rd : reading) (c : route_candidate) (b : built) : rw * built :=
  let id := rc_endpoint_id c in
  let r := ensure (health_registry (rw_res st)) (rd_env rd) id in
  let '(r, ok) := registry_allow_request r (rd_env rd) id in
  let st := st <| rw_res := (rw_res st) <| health_registry := r |> |> in
  if negb ok then (st, b <| b_admission := {[id]} ∪ b_admission b |>)
  else
    match price_candidate st q rd c with
    | (st, Skipped) => (st, b)
    | (st, NoCapacity) => (st, b <| b_capacity := {[id]} ∪ b_capacity b |>)
    | (st, Feasible f scope) =>
        (st, (b <| b_candidates := b_candidates b ++ [f] |>)
               <| b_scopes := match scope with Some x => b_scopes b ++ [(id, x)] | None => b_scopes b end |>)
    end.

Fixpoint build_loop (st : rw) (q : solve) (rd : reading) (cs : list route_candidate) (b : built) : rw * built :=
  match cs with
  | [] => (st, b)
  | c :: cs =>
      let b := b <| b_match := b_match b || accepts q c |> in
      if negb (in_range q c) then build_loop st q rd cs b
      else if negb (accepts q c)
      then build_loop st q rd cs (b <| b_modality := {[rc_endpoint_id c]} ∪ b_modality b |>)
      else let '(st, b) := admit_candidate st q rd c b in build_loop st q rd cs b
  end.

(** Why a selection raises. *)
Inductive select_error : Type :=
| NoSuchModel
| NoModalityMatch
| DispatchMismatch
| SetupFailed (e : exn).

(** [_build_candidates] *)
Definition _build_candidates (st : rw) (q : solve) (rd : reading) : rw * result select_error built :=
  match rw_candidates st !! canonical_model_id st (sv_model_id q) with
  | None => (st, Raise NoSuchModel)
  | Some entries =>
      let '(st, b) := build_loop st q rd entries (Built [] [] ∅ ∅ ∅ (bool_decide (sv_modalities q = ∅))) in
      (st, if b_match b then Ok b else Raise NoModalityMatch)
  end.

(** ** The choice *)

(** What one turn of the loop reads: the draw, the clocks of the commit and of the query
    after a refused one, and whether building the decision fails. *)
Record draw : Type := Draw {
  dr_threshold : Q;
  dr_commit : env;
  dr_quota_now : datetime_us;
  dr_check : env;
  dr_setup : option exn;
  dr_clock : Q
}.

(** [RoutingDecision] *)
Record decision : Type := RoutingDecision {
  d_candidate : feasible_candidate;
  d_adapter : adapter;
  d_reservation : reservation
}.

(** [execution_adapter] ([routing/dispatch.py]) *)
Definition execution_adapter (selected : adapter) (q : solve) : result select_error adapter :=
  match sv_bound q with
  | None => Ok selected
  | Some (id, a) =>
      if decide (id = endpoint_id_for_adapter selected) then Ok a
      else if sv_require_target q then Raise DispatchMismatch else Ok selected
  end.

(** [_stash_prefix_for_commit] *)
Definition _stash_prefix_for_commit (st : rw) (q : solve) (scopes : list (string * S)) (now : Q) : rw :=
  match sv_prefix q with
  | None => st
  | Some px =>
      if decide (length scopes = 0%nat) then st
      else st <| rw_pending := (put (rw_pending st) now (sv_request_id q) (px_blocks px) scopes).1 |>
  end.

(** The refusals noted for the request's trace. *)
Definition refusals : Type := gset string * gset string.

(** After a refused commit: the circuit if it refuses now, else the capacity. *)
Definition note_refusal (st : rw) (e : env) (id : string) (x : refusals) : rw * refusals :=
  let '(r, ok) := registry_allow_request (health_registry (rw_res st)) e id in
  (st <| rw_res := (rw_res st) <| health_registry := r |> |>,
   if negb ok then ({[id]} ∪ x.1, x.2) else (x.1, {[id]} ∪ x.2)).

Fixpoint select_loop (n k : nat) (st : rw) (q : solve) (scopes : list (string * S)) (x : refusals)
    (cs : list feasible_candidate) (dr : nat -> draw) : rw * refusals * result select_error (option decision) :=
  match n with
  | O => (st, x, Ok None)
  | Datatypes.S n =>
      let solution := solve_cost_budgeted_mean_ttft
        ((fun c => LPCandidate (fc_endpoint_id c) (fc_effective_cost_usd c) (fc_mean_ttft_sec c)) <$> cs) (budget_alpha cfg) in
      match _sample_solution cs solution (dr_threshold (dr k)) with
      | None => (st, x, Ok None)
      | Some selected =>
          match execution_adapter (fc_adapter selected) q with
          | Raise e => (st, x, Raise e)
          | Ok execution =>
              if decide (execution <> fc_adapter selected) then (st, x, Raise DispatchMismatch)
              else
                match _commit_candidate (rw_res st) (dr_commit (dr k)) (dr_quota_now (dr k)) selected with
                | (res, Some r) =>
                    let st := st <| rw_res := res |> in
                    match dr_setup (dr k) with
                    | Some e => (st <| rw_res := (release_reservation res r).1 |>, x, Raise (SetupFailed e))
                    | None => (_stash_prefix_for_commit st q scopes (dr_clock (dr k)), x,
                               Ok (Some (RoutingDecision selected execution r)))
                    end
                | (res, None) =>
                    let '(st, x) := note_refusal (st <| rw_res := res |>) (dr_check (dr k)) (fc_endpoint_id selected) x in
                    let cs := filter (fun c => fc_endpoint_id c <> fc_endpoint_id selected) cs in
                    if decide (length cs = 0%nat) then (st, x, Ok None) else select_loop n (Datatypes.S k) st q scopes x cs dr
                end
          end
      end
  end.

(** The refusals of the latest solve: circuits, capacity, modalities. *)
Record solve_refusals : Type := SolveRefusals {
  admission_refused : gset string;
  capacity_refused : gset string;
  modality_refused : gset string
}.

(** [_select_decision] over the request's exclusions *)
Definition _select_decision (st : rw) (q : solve) (excluded : gset string) (rd : reading) (dr : nat -> draw) :
    rw * option solve_refusals * result select_error (option decision) :=
  match _build_candidates st q rd with
  | (st, Raise e) => (st, None, Raise e)
  | (st, Ok b) =>
      let cs := filter (fun c => fc_endpoint_id c ∉ excluded) (b_candidates b) in
      let '(st, x, r) := select_loop (length cs) 0 st q (b_scopes b) (b_admission b, b_capacity b) cs dr in
      (st, Some (SolveRefusals x.1 x.2 (b_modality b)), r)
  end.

(** ** What a selection takes *)

(** Nothing more is held in [st'] than in [st]. *)
Definition still (st st' : resources) : Prop :=
  (forall m, active_at st' m = active_at st m) /\
  (forall id, probe_held (health_registry st') id = probe_held (health_registry st) id \/
              probe_held (health_registry st') id = None).

#[export] Instance still_preorder : PreOrder still.
Proof.
  split; [intros st; split; [done|by left]|]. intros x y z [A1 P1] [A2 P2]. split; [intros m; by rewrite A2|].
  intros id. destruct (P2 id) as [E|E]; [rewrite E; apply P1|by right].
Qed.

Lemma still_registry st r : (forall id, probe_held r id = probe_held (health_registry st) id) -> still st (st <| health_registry := r |>).
Proof. intros Hr. split; [done|]. intros id. left. apply Hr. Qed.

Lemma probe_allow r e id id' : probe_held (registry_allow_request r e id).1 id' = probe_held r id'.
Proof.
  unfold registry_allow_request. pose proof (proj1 (probe_ensure_circuit r e id id')) as E. by destruct (_ensure_circuit r e id).
Qed.

(** The route side of the state: selection only changes the resources and the stash. *)
Definition same_routes (st st' : rw) : Prop :=
  rw_candidates st' = rw_candidates st /\ rw_aliases st' = rw_aliases st /\
  rw_profiles st' = rw_profiles st /\ rw_priors_ms st' = rw_priors_ms st.

#[export] Instance same_routes_preorder : PreOrder same_routes.
Proof. split; unfold same_routes; [done|]. intros x y z (-> & -> & -> & ->) (-> & -> & -> & ->). done. Qed.

Lemma price_still st q rd c :
  let '(st', o) := price_candidate st q rd c in
  still (rw_res st) (rw_res st') /\ same_routes st st' /\
  match o with
  | Feasible f _ => fc_endpoint_id f = rc_endpoint_id c /\ fc_adapter f = rc_adapter c /\
                    fc_provider_type f = rc_provider_type c
  | _ => True
  end.
Proof.
  unfold price_candidate. destruct (rc_provider_type c) eqn:Ety.
  - destruct (match sv_prefix q with Some px => _ | None => _ end) as [[[[cost d] x] b] scope]. done.
  - destruct (sv_envelope q) as [e|]; [|done]. destruct (_ ≫= _) as [pool|]; [|done].
    destruct (quota_get _ _ _) as [store snap].
    assert (still (rw_res st) ((rw_res st) <| quota_snapshots := store |>)) as Hs by (split; [done|by left]).
    destruct snap as [snap|]; [case_decide|]; done.
  - destruct (_ ≫= _) as [mgr|]; [case_decide|]; done.
Qed.

Lemma admit_still st q rd c b :
  let '(st', b') := admit_candidate st q rd c b in
  still (rw_res st) (rw_res st') /\ same_routes st st' /\
  b_match b' = b_match b /\ b_modality b' = b_modality b /\
  (b_candidates b' = b_candidates b \/
   exists f, b_candidates b' = b_candidates b ++ [f] /\ fc_endpoint_id f = rc_endpoint_id c /\
     fc_adapter f = rc_adapter c /\ fc_provider_type f = rc_provider_type c).
Proof.
  unfold admit_candidate. set (r0 := ensure _ _ _).
  pose proof (fun id' => eq_trans (probe_allow r0 (rd_env rd) (rc_endpoint_id c) id')
    (probe_ensure (health_registry (rw_res st)) (rd_env rd) (rc_endpoint_id c) id')) as Hp.
  destruct (registry_allow_request r0 (rd_env rd) (rc_endpoint_id c)) as [r ok]. cbn [fst] in Hp.
  apply still_registry in Hp. destruct ok; cbn [negb]; [|split_and!; try done; by left].
  match goal with |- context [price_candidate ?x q rd c] => set (st1 := x) in * end.
  pose proof (price_still st1 q rd c) as Hpr. destruct (price_candidate st1 q rd c) as [st2 o].
  destruct Hpr as (Hs & Hr & Ho). assert (still (rw_res st) (rw_res st2)) by (etrans; [exact Hp|exact Hs]).
  assert (same_routes st st2) by (etrans; [|exact Hr]; done).
  destruct o as [| |f scope]; [split_and!; try done; by left..|]. split_and!; try done. right. by exists f.
Qed.

(** What the feasible set consists of. *)
Definition from_routes (q : solve) (cs : list route_candidate) (f : feasible_candidate) : Prop :=
  exists c, c ∈ cs /\ fc_endpoint_id f = rc_endpoint_id c /\ fc_adapter f = rc_adapter c /\
    fc_provider_type f = rc_provider_type c /\ in_range q c = true /\ accepts q c = true.

Lemma build_loop_spec q rd cs : forall st b all,
  (forall c, c ∈ cs -> c ∈ all) -> Forall (from_routes q all) (b_candidates b) ->
  let '(st', b') := build_loop st q rd cs b in
  still (rw_res st) (rw_res st') /\ same_routes st st' /\ Forall (from_routes q all) (b_candidates b').
Proof.
  induction cs as [|c cs IH]; intros st b all Hin Hall; cbn [build_loop]; [done|].
  destruct (in_range q c) eqn:Er; cbn [negb]; [|apply IH; [set_solver|done]].
  destruct (accepts q c) eqn:Ea; cbn [negb]; [|apply IH; [set_solver|done]].
  set (b0 := b <| b_match := _ |>). pose proof (admit_still st q rd c b0) as Had.
  destruct (admit_candidate st q rd c b0) as [st1 b1]. destruct Had as (Hs & Hr & _ & _ & Hc).
  assert (Forall (from_routes q all) (b_candidates b1)) as Hall1.
  { destruct Hc as [->|(f & -> & E1 & E2 & E3)]; [done|]. apply Forall_app. split; [done|]. constructor; [|done].
    exists c. split_and!; try done. set_solver. }
  specialize (IH st1 b1 all ltac:(set_solver) Hall1). destruct (build_loop st1 q rd cs b1) as [st2 b2].
  destruct IH as (? & ? & ?). split_and!; [by etrans|by etrans|done].
Qed.

(** *** Sampling *)

Lemma by_id_elem cs id c : by_id cs id = Some c -> c ∈ cs /\ fc_endpoint_id c = id.
Proof.
  unfold by_id. intros Hl. apply last_Some_elem_of in Hl. apply list_elem_of_filter in Hl. tauto.
Qed.

Lemma sample_loop_elem cs total th ws : forall cum l c,
  (forall c, l = Some c -> c ∈ cs) -> sample_loop cs total th cum l ws = Some c -> c ∈ cs.
Proof.
  induction ws as [|[id w] ws IH]; intros cum l c Hl; cbn; [apply Hl|].
  destruct (by_id cs id) as [d|] eqn:Ed; [|by apply IH]. apply by_id_elem in Ed as [Hd _].
  case_decide; [by apply IH|]. case_decide; [by intros [= <-]|]. apply IH. by intros ? [= <-].
Qed.

Lemma sample_elem cs s th c : _sample_solution cs s th = Some c -> c ∈ cs.
Proof. unfold _sample_solution. case_decide; [done|]. by apply sample_loop_elem. Qed.

(** *** Selection *)

Lemma commit_claim st e now c st' r :
  _commit_candidate st e now c = (st', Some r) ->
  (exists t, rs_claim r = Some (DispatchClaim (fc_endpoint_id c) t)) /\
  (is_Some (rs_slot r) <-> fc_provider_type c = CONCURRENCY).
Proof.
  unfold _commit_candidate. pose proof (probe_begin (health_registry st) e (fc_endpoint_id c)) as Hb.
  destruct (registry_begin_dispatch _ e _) as [rg [[id t]|]]; [|done]. destruct Hb as [_ Hb].
  assert (id = fc_endpoint_id c) as -> by (destruct t; apply Hb).
  unfold _reserve_candidate. destruct (fc_provider_type c).
  - intros [= <- <-]. cbn. split; [eauto|]. split; [by intros []|done].
  - destruct (_ ≫= _) as [p|]; [|done]. destruct (consume _ _ _) as [qs ok]. destruct ok; [|done].
    intros [= <- <-]. cbn. split; [eauto|]. split; [by intros []|done].
  - destruct (_ ≫= _) as [m|]; [|done]. destruct (managers _ !! m) as [mgr|]; [|done].
    destruct (try_acquire mgr) as [mgr' ok]. destruct ok; [|done]. intros [= <- <-]. cbn.
    split; [eauto|]. split; [done|by eexists].
Qed.

(** A decision holds what it took; any other ending holds nothing more than before. *)
Definition taken (st st' : rw) (q : solve) (cs : list feasible_candidate) (r : result select_error (option decision)) : Prop :=
  match r with
  | Ok (Some d) =>
      d_candidate d ∈ cs /\ d_adapter d = fc_adapter (d_candidate d) /\ released (d_reservation d) = false /\
      (forall m, active_at (rw_res st') m =
         (active_at (rw_res st) m + if decide (rs_slot (d_reservation d) = Some m) then 1 else 0)%Z) /\
      (exists t, rs_claim (d_reservation d) = Some (DispatchClaim (fc_endpoint_id (d_candidate d)) t)) /\
      (is_Some (rs_slot (d_reservation d)) <-> fc_provider_type (d_candidate d) = CONCURRENCY)
  | _ => still (rw_res st) (rw_res st')
  end.

Lemma taken_still st0 st st' q cs r : still (rw_res st0) (rw_res st) -> taken st st' q cs r -> taken st0 st' q cs r.
Proof.
  intros Hs. destruct r as [[d|]|e]; cbn; [|by etrans..]. intros (? & ? & ? & Ha & ? & ?). split_and!; try done.
  intros m. rewrite Ha, (proj1 Hs). done.
Qed.

Lemma taken_mono st st' q cs cs' r : (forall c, c ∈ cs -> c ∈ cs') -> taken st st' q cs r -> taken st st' q cs' r.
Proof. destruct r as [[d|]|e]; cbn; try done. intros Hc (? & ?). split; [auto|done]. Qed.

Lemma note_refusal_still st e id x :
  still (rw_res st) (rw_res (note_refusal st e id x).1) /\ same_routes st (note_refusal st e id x).1.
Proof.
  unfold note_refusal. pose proof (fun id' => probe_allow (health_registry (rw_res st)) e id id') as Hp.
  destruct (registry_allow_request _ e id) as [r ok]. cbn [fst] in *. split; [by apply still_registry|done].
Qed.

Lemma commit_release_still st e now c st' r :
  (forall m, 0 <= active_at st m)%Z -> _commit_candidate st e now c = (st', Some r) ->
  still st (release_reservation st' r).1.
Proof.
  intros Hn Ec. pose proof (commit_spec st e now c) as Hc. rewrite Ec in Hc. destruct Hc as (Hr & Ha & _ & Hp).
  pose proof (release_spec st' r Hr) as Hrel.
  destruct (release_reservation st' r) as [st'' r']. destruct Hrel as (_ & Ha' & Hp').
  { intros m Hm. rewrite Ha. unfold takes. rewrite decide_True by congruence. specialize (Hn m). lia. }
  split; [intros m; rewrite Ha', Ha; lia|]. cbn [fst]. intros id. destruct (probe_held (health_registry st'') id) as [k|] eqn:Ek; [|by right].
  left. destruct (Hp' id k Ek) as [E Hne]. destruct (Hp id k E); [done|congruence].
Qed.

Local Ltac idle := split; [cbn [taken]; reflexivity|reflexivity].

Lemma select_loop_taken q scopes dr n : forall k st x cs,
  (forall m, 0 <= active_at (rw_res st) m)%Z ->
  let '(st', _, r) := select_loop n k st q scopes x cs dr in
  taken st st' q cs r /\ same_routes st st'.
Proof.
  induction n as [|n IH]; intros k st x cs Hn; cbn [select_loop]; [idle|].
  destruct (_sample_solution cs _ _) as [sel|] eqn:Es; [|idle]. apply sample_elem in Es.
  destruct (execution_adapter (fc_adapter sel) q) as [ex|e]; [|idle]. case_decide as Hx; [idle|].
  subst ex.
  destruct (_commit_candidate _ _ _ sel) as [res [r|]] eqn:Ec.
  - pose proof (commit_spec (rw_res st) (dr_commit (dr k)) (dr_quota_now (dr k)) sel) as Hc. rewrite Ec in Hc.
    destruct Hc as (Hr & Ha & _ & _). destruct (commit_claim _ _ _ _ _ _ Ec) as [Hcl Hsl].
    destruct (dr_setup (dr k)) as [e|]; [split; [|done]; by eapply commit_release_still|].
    assert (rw_res (_stash_prefix_for_commit (st <| rw_res := res |>) q scopes (dr_clock (dr k))) = res /\
      same_routes st (_stash_prefix_for_commit (st <| rw_res := res |>) q scopes (dr_clock (dr k)))) as [Hst Hsr].
    { unfold _stash_prefix_for_commit. destruct (sv_prefix q); [case_decide|]; done. }
    split; [|done]. cbn [taken d_candidate d_adapter d_reservation]. rewrite Hst. split_and!; try done.
    intros m. rewrite Ha. unfold takes. repeat case_decide; congruence.
  - pose proof (commit_spec (rw_res st) (dr_commit (dr k)) (dr_quota_now (dr k)) sel) as Hc. rewrite Ec in Hc.
    pose proof (note_refusal_still (st <| rw_res := res |>) (dr_check (dr k)) (fc_endpoint_id sel) x) as [Hs1 Hr1].
    destruct (note_refusal _ _ _ x) as [st1 x1]. cbn [fst] in *.
    assert (still (rw_res st) (rw_res st1)) as Hs by (etrans; [exact Hc|exact Hs1]).
    case_decide; [split; [exact Hs|exact Hr1]|]. specialize (IH (Datatypes.S k) st1 x1 (filter (fun c => fc_endpoint_id c <> fc_endpoint_id sel) cs)).
    destruct (select_loop n _ st1 q scopes x1 _ dr) as [[st2 x2] r]. destruct IH as [Ht Hr2].
    { intros m. rewrite (proj1 Hs). apply Hn. }
    split; [|etrans; [exact Hr1|exact Hr2]]. eapply taken_still; [exact Hs|]. eapply taken_mono; [|exact Ht].
    intros c Hcin. by apply list_elem_of_filter in Hcin as [_ ?].
Qed.

(** What a selection takes is one of the model's own routes the request may use. *)
Lemma select_decision_taken st q excluded rd dr :
  (forall m, 0 <= active_at (rw_res st) m)%Z ->
  let '(st', _, r) := _select_decision st q excluded rd dr in
  same_routes st st' /\
  exists cs, taken st st' q cs r /\
    Forall (fun f => from_routes q (default [] (rw_candidates st !! canonical_model_id st (sv_model_id q))) f /\
                     fc_endpoint_id f ∉ excluded) cs.
Proof.
  intros Hn. unfold _select_decision, _build_candidates.
  destruct (rw_candidates st !! _) as [entries|]; [|split; [done|]; exists []; split; [cbn; reflexivity|done]].
  pose proof (build_loop_spec q rd entries st (Built [] [] ∅ ∅ ∅ (bool_decide (sv_modalities q = ∅))) entries
    (fun _ Hc => Hc) (Forall_nil_2 _)) as Hb.
  destruct (build_loop st q rd entries _) as [st1 b]. destruct Hb as (Hs & Hr & Hall).
  destruct (b_match b); [|split; [done|]; exists []; done].
  set (cs := filter (fun c => fc_endpoint_id c ∉ excluded) (b_candidates b)).
  pose proof (select_loop_taken q (b_scopes b) dr (length cs) 0 st1 (b_admission b, b_capacity b) cs) as Ht.
  destruct (select_loop _ _ _ _ _ _ _ _) as [[st2 x] r]. destruct Ht as [Ht Hr'].
  { intros m. rewrite (proj1 Hs). apply Hn. }
  split; [by etrans|]. exists cs. split; [by apply (taken_still st) in Ht|].
  apply Forall_forall. intros f [Hne Hin]%list_elem_of_filter. rewrite Forall_forall in Hall. split; [by apply Hall|done].
Qed.

(** C19: A RouteWise decision is one the request may use, and it holds exactly what it
    took.  When selection decides, the endpoint is one of the model's routes, inside the
    range the caller granted, accepts the request's media and was not excluded by an
    earlier failure; what runs is that route's own adapter; and the decision owns a
    dispatch claim on that endpoint and, for a concurrency-limited one and no other, one
    slot.  Any other ending, an error while building the decision included, leaves no
    slot and no probe held that was not held before. *)
Theorem rw_selection_sound st q excluded rd dr :
  (forall m, 0 <= active_at (rw_res st) m)%Z ->
  let '(st', _, r) := _select_decision st q excluded rd dr in
  match r with
  | Ok (Some d) =>
      (exists c, c ∈ default [] (rw_candidates st !! canonical_model_id st (sv_model_id q)) /\
         rc_endpoint_id c = fc_endpoint_id (d_candidate d) /\ rc_adapter c = d_adapter d /\
         in_range q c = true /\ accepts q c = true) /\
      fc_endpoint_id (d_candidate d) ∉ excluded /\ released (d_reservation d) = false /\
      (exists t, rs_claim (d_reservation d) = Some (DispatchClaim (fc_endpoint_id (d_candidate d)) t)) /\
      (is_Some (rs_slot (d_reservation d)) <-> fc_provider_type (d_candidate d) = CONCURRENCY) /\
      (forall m, active_at (rw_res st') m =
         (active_at (rw_res st) m + if decide (rs_slot (d_reservation d) = Some m) then 1 else 0)%Z)
  | _ => still (rw_res st) (rw_res st')
  end.
Proof.
  intros Hn. pose proof (select_decision_taken st q excluded rd dr Hn) as Hs.
  destruct (_select_decision st q excluded rd dr) as [[st' x] r]. destruct Hs as (_ & cs & Ht & Hcs).
  destruct r as [[d|]|e]; [|exact Ht..]. destruct Ht as (Hin & Hex & Hrel & Ha & Hcl & Hsl).
  rewrite Forall_forall in Hcs. destruct (Hcs _ Hin) as ((c & Hc & E1 & E2 & E3 & E4 & E5) & Hne).
  split_and!; try done. exists c. split_and!; try done. congruence.
Qed.

(** ** A usable route is used *)

(** What the router relies on the optimiser for: an objective per candidate, and weights
    that are nonnegative, named after candidates and not all zero. *)
Class CoreOk : Prop := {
  objective_length ls cs : length (cost_tiebroken_objective ls cs) = length ls;
  lp_weights_ok named budget ws : solve_budget_lp named budget = (true, ws) -> ws <> [] ->
    0 < total_weight ws /\ Forall (fun w => 0 <= w.2 /\ w.1 ∈ named.*1.*1) ws;
  shadow_nonneg z l u : 0 <= quota_effective_cost z l u
}.

(** Prices and latency estimates are not negative. *)
Record estimates_ok (st : rw) : Prop := {
  prices_nonneg a : 0 <= price_prompt (effective_pricing a) /\ 0 <= price_completion (effective_pricing a);
  latency_nonneg id now : 0 <= _latency_estimate st id now
}.

Context `{CoreOk}.

Definition finite (c : feasible_candidate) : Prop := 0 <= fc_effective_cost_usd c /\ 0 <= fc_mean_ttft_sec c.

Lemma sample_loop_some cs total th ws : forall cum l,
  is_Some l \/ (exists id w c, (id, w) ∈ ws /\ 0 < w /\ by_id cs id = Some c) ->
  is_Some (sample_loop cs total th cum l ws).
Proof.
  induction ws as [|[id w] ws IH]; intros cum l Hl; cbn.
  { destruct Hl as [?|(id & w & c & Hin & _)]; [done|by apply not_elem_of_nil in Hin]. }
  assert (is_Some l \/ ~ (exists d, by_id cs id = Some d /\ 0 < w) ->
    is_Some l \/ exists id w c, (id, w) ∈ ws /\ 0 < w /\ by_id cs id = Some c) as Hrest.
  { intros Ho. destruct Hl as [?|(id' & w' & c & Hin & Hw & Hc)]; [by left|].
    destruct Ho as [?|Hno]; [by left|]. right. apply elem_of_cons in Hin as [[= -> ->]|Hin]; [|by exists id', w', c].
    destruct Hno. by exists c. }
  destruct (by_id cs id) as [d|] eqn:Ed; [|apply IH, Hrest; right; naive_solver].
  case_decide; [apply IH, Hrest; right; intros (d' & _ & ?); lra|]. case_decide; [done|]. apply IH. left. by eexists.
Qed.

Lemma positive_weight ws : 0 < total_weight ws -> exists id w, (id, w) ∈ ws /\ 0 < w.
Proof.
  induction ws as [|[id w] ws IH]; cbn [total_weight foldr]; [lra|]. intros Ht.
  destruct (Qlt_le_dec 0 w); [exists id, w; split; [set_solver|done]|].
  destruct IH as (id' & w' & Hin & Hw); [unfold total_weight; cbn in Ht; lra|]. exists id', w'. split; [set_solver|done].
Qed.

Lemma by_id_is_Some cs id : id ∈ fc_endpoint_id <$> cs -> is_Some (by_id cs id).
Proof.
  intros (c & -> & Hc)%list_elem_of_fmap. unfold by_id.
  assert (c ∈ filter (fun d => fc_endpoint_id d = fc_endpoint_id c) cs) as Hin by (by apply list_elem_of_filter).
  destruct (filter _ cs) as [|x l]; [by apply not_elem_of_nil in Hin|]. apply last_is_Some. done.
Qed.

Definition to_lp (c : feasible_candidate) : lp_candidate :=
  LPCandidate (fc_endpoint_id c) (fc_effective_cost_usd c) (fc_mean_ttft_sec c).

Lemma cheapest_elem x l : cheapest x l ∈ x :: l.
Proof.
  unfold cheapest. revert x; induction l as [|y l IH]; intros x; cbn; [set_solver|].
  destruct (cheaper y x); [specialize (IH y)|specialize (IH x)]; set_solver.
Qed.

(** The program always has an answer over candidates with nonnegative costs. *)
Lemma solve_weights cs alpha :
  cs <> [] -> Forall finite cs ->
  let s := solve_cost_budgeted_mean_ttft (to_lp <$> cs) alpha in
  0 < total_weight (weights s) /\ Forall (fun w => w.1 ∈ fc_endpoint_id <$> cs) (weights s).
Proof.
  intros Hne Hf. cbn zeta. unfold solve_cost_budgeted_mean_ttft.
  assert (filter (fun c => bool_decide (0 <= lp_cost_usd c) && bool_decide (0 <= lp_mean_ttft_sec c)) (to_lp <$> cs) = to_lp <$> cs) as ->.
  { clear Hne. induction Hf as [|c cs [Hc1 Hc2] Hcs IH]; [done|]. cbn [fmap list_fmap]. rewrite filter_bool_cons. cbn.
    rewrite !bool_decide_true by done. cbn. by rewrite IH. }
  assert (forall l : lp_candidate, l ∈ to_lp <$> cs -> lp_endpoint_id l ∈ fc_endpoint_id <$> cs) as Hin.
  { intros l (c & -> & Hc)%list_elem_of_fmap. apply list_elem_of_fmap. by exists c. }
  destruct (to_lp <$> cs) as [|c [|d rest]] eqn:El.
  - destruct cs; done.
  - cbn. split; [lra|]. constructor; [|done]. apply Hin. set_solver.
  - set (lps := c :: d :: rest) in *.
    destruct (solve_budget_lp _ _) as [feasible ws] eqn:Es. destruct feasible; cbn [negb orb].
    2:{ cbn. split; [lra|]. constructor; [|done]. apply Hin. apply (cheapest_elem c (d :: rest)). }
    case_bool_decide as Hw; [cbn; split; [lra|]; constructor; [|done]; apply Hin; apply (cheapest_elem c (d :: rest))|].
    destruct (lp_weights_ok _ _ _ Es Hw) as [Ht Hn]. cbn [weights]. split; [done|].
    eapply Forall_impl; [exact Hn|]. cbn beta. intros [id w] [_ Hid]. cbn [fst] in Hid |- *.
    apply list_elem_of_fmap in Hid as ([id' o] & -> & Hid). apply list_elem_of_fmap in Hid as ([[id'' o'] x] & [= -> ->] & Hid).
    apply elem_of_zip_with in Hid as (l & o'' & E & Hl & _). injection E as -> _ _. by apply Hin.
Qed.

Lemma sample_some cs alpha th :
  cs <> [] -> Forall finite cs -> is_Some (_sample_solution cs (solve_cost_budgeted_mean_ttft (to_lp <$> cs) alpha) th).
Proof.
  intros Hne Hf. destruct (solve_weights cs alpha Hne Hf) as [Ht Hn]. unfold _sample_solution.
  rewrite decide_False by lra. apply sample_loop_some. right. destruct (positive_weight _ Ht) as (id & w & Hin & Hw).
  rewrite Forall_forall in Hn. destruct (by_id_is_Some cs id (Hn _ Hin)) as [c Hc]. by exists id, w, c.
Qed.

(** *** Closed circuits *)

(** The circuit of [id] is closed, or not yet created. *)
Definition closed (r : registry) (id : string) : Prop :=
  match circuits r !! id with Some b => state b = CLOSED | None => True end.

Lemma closed_ensure_circuit r e id id' : closed r id' -> closed (_ensure_circuit r e id).1 id'.
Proof.
  unfold closed, _ensure_circuit. destruct (circuits r !! id) eqn:E; cbn; [done|]. rewrite lookup_insert.
  case_decide; [done|]. done.
Qed.

Lemma closed_ensure r e id id' : closed r id' -> closed (ensure r e id) id'.
Proof. intros Hc. unfold ensure. destruct (health r !! id); by apply closed_ensure_circuit. Qed.

Lemma closed_allow r e id id' : closed r id' -> closed (registry_allow_request r e id).1 id'.
Proof.
  intros Hc. unfold registry_allow_request. pose proof (closed_ensure_circuit r e id id' Hc) as Hc'.
  by destruct (_ensure_circuit r e id).
Qed.

Lemma closed_ensured r e id : closed r id -> state (_ensure_circuit r e id).2 = CLOSED.
Proof. unfold closed, _ensure_circuit. by destruct (circuits r !! id). Qed.

Lemma closed_allows r e id : closed r id -> (registry_allow_request r e id).2 = true.
Proof.
  intros Hc. unfold registry_allow_request. pose proof (closed_ensured r e id Hc) as Hs.
  destruct (_ensure_circuit r e id) as [r' b]. cbn in *. unfold allow_request. by rewrite Hs.
Qed.

Lemma closed_begin r e id id' :
  closed r id' -> closed (registry_begin_dispatch r e id).1 id' /\
  (id = id' -> is_Some (registry_begin_dispatch r e id).2).
Proof.
  intros Hc. unfold registry_begin_dispatch. pose proof (closed_ensure_circuit r e id id' Hc) as Hc'.
  destruct (decide (id = id')) as [->|Hne].
  - pose proof (closed_ensured r e id' Hc) as Hs. destruct (_ensure_circuit r e id') as [r1 b]. cbn in Hs.
    unfold begin_dispatch. rewrite Hs. cbn. split; [|done]. unfold closed. cbn. by rewrite lookup_insert_eq.
  - destruct (_ensure_circuit r e id) as [r1 b]. destruct (begin_dispatch b _) as [b' [adm tok]].
    split; [|done]. unfold closed in *. cbn in *. by rewrite lookup_insert_ne.
Qed.

Lemma closed_end r claim id : closed r id -> closed (registry_end_dispatch r claim) id.
Proof.
  intros Hc. unfold registry_end_dispatch. destruct claim as [[id' [k|]]|]; try done.
  destruct (circuits r !! id') as [b|] eqn:Eb; [|done]. unfold closed in *. cbn. rewrite lookup_insert.
  case_decide; [subst|done]. rewrite Eb in Hc. unfold end_dispatch. by case_decide.
Qed.

(** A commit of another candidate leaves a circuit closed; one of an on-demand candidate
    with a closed circuit succeeds. *)
Lemma closed_commit st e now c id :
  closed (health_registry st) id -> closed (health_registry (_commit_candidate st e now c).1) id.
Proof.
  intros Hc. unfold _commit_candidate. destruct (closed_begin _ e (fc_endpoint_id c) _ Hc) as [Hb _].
  destruct (registry_begin_dispatch _ e _) as [rg claim]. cbn [fst] in Hb. destruct claim as [cl|]; [|done].
  pose proof (reserve_spec (st <| health_registry := rg |>) now c) as Hr.
  destruct (_reserve_candidate _ now c) as [st' [slot|]]; destruct Hr as (Hh & _ & _); rewrite health_set in Hh; cbn [fst].
  - by rewrite Hh.
  - rewrite health_set, Hh. by apply closed_end.
Qed.

Lemma closed_commits st e now c :
  closed (health_registry st) (fc_endpoint_id c) -> fc_provider_type c = ON_DEMAND ->
  is_Some (_commit_candidate st e now c).2.
Proof.
  intros Hc Ht. unfold _commit_candidate. destruct (closed_begin _ e (fc_endpoint_id c) _ Hc) as [_ Hb].
  destruct (registry_begin_dispatch _ e _) as [rg claim]. destruct (Hb eq_refl) as [cl Ecl]. cbn [snd] in Ecl. subst claim. cbn [snd].
  unfold _reserve_candidate. by rewrite Ht.
Qed.

(** *** The feasible set *)

Lemma price_on_demand st q rd c :
  rc_provider_type c = ON_DEMAND -> exists f scope, price_candidate st q rd c = (st, Feasible f scope).
Proof.
  intros Ht. unfold price_candidate. rewrite Ht.
  destruct (match sv_prefix q with Some px => _ | None => _ end) as [[[[cost d] x] b] scope]. eauto.
Qed.

Lemma scaled_nonneg a b x y : 0 <= a -> 0 <= b -> 0 <= (a * py_max x 0 + b * py_max y 0) / 1000000.
Proof.
  intros Ha Hb. assert (0 <= a * py_max x 0) by (apply Qmult_le_0_compat; [done|apply py_max_spec]).
  assert (0 <= b * py_max y 0) by (apply Qmult_le_0_compat; [done|apply py_max_spec]). apply Qle_shift_div_l; lra.
Qed.

Lemma shadow_price_nonneg z l u : 0 <= quota_shadow_price_usd z l u.
Proof.
  unfold quota_shadow_price_usd. destruct (isclose _ _); [|apply shadow_nonneg].
  pose proof (proj2 (py_max_spec l (1 # 1000000000000))). lra.
Qed.

Lemma price_finite st q rd c f scope st' :
  estimates_ok st -> price_candidate st q rd c = (st', Feasible f scope) -> finite f.
Proof.
  intros [Hp Hl]. unfold price_candidate. set (rcost := _api_cost_for_pricing _ _ _).
  assert (0 <= rcost) as Hr by (destruct (Hp (rc_adapter c)); by apply scaled_nonneg).
  destruct (rc_provider_type c).
  - destruct (sv_prefix q) as [px|]; [|intros [= _ <- _]; split; cbn; [done|apply Hl]].
    destruct (_apply_prefix_cache_cost_adjustment c _ rcost px) as [[[[cost d] x] b] sc] eqn:Ea.
    intros [= _ <- _]. split; cbn; [|apply Hl]. unfold _apply_prefix_cache_cost_adjustment in Ea.
    repeat case_decide; simplify_eq; try done. apply py_max_spec.
  - destruct (sv_envelope q) as [e|]; [|done]. destruct (_ ≫= _) as [pool|]; [|done].
    destruct (quota_get _ _ _) as [store [snap|]]; [|done]. case_decide; [done|].
    intros [= _ <- _]. split; cbn; [apply shadow_price_nonneg|apply Hl].
  - destruct (_ ≫= _) as [mgr|]; [|done]. case_decide; [done|]. intros [= _ <- _]. split; cbn; [lra|apply Hl].
Qed.

(** The invariant of the build: a usable on-demand route reaches the feasible set. *)
Record build_ok (id : string) (ids : list string) (b : built) : Prop := {
  bo_finite : Forall finite (b_candidates b);
  bo_ids : (fc_endpoint_id <$> b_candidates b) `sublist_of` ids
}.

Lemma build_ok_same id ids b b' : b_candidates b' = b_candidates b -> build_ok id ids b -> build_ok id ids b'.
Proof. intros E [H1' H2']. by constructor; rewrite E. Qed.

Lemma estimates_same st st' : same_routes st st' -> estimates_ok st -> estimates_ok st'.
Proof.
  intros (_ & _ & E3 & E4) [Hp Hl]. constructor; [done|]. intros i t. specialize (Hl i t).
  unfold _latency_estimate in *. by rewrite E3, E4.
Qed.

Lemma admit_live st q rd c b id ids :
  estimates_ok st -> build_ok id ids b -> closed (health_registry (rw_res st)) id ->
  let '(st', b') := admit_candidate st q rd c b in
  estimates_ok st' /\ build_ok id (ids ++ [rc_endpoint_id c]) b' /\ closed (health_registry (rw_res st')) id /\
  (forall f, f ∈ b_candidates b -> f ∈ b_candidates b') /\
  (rc_endpoint_id c = id -> rc_provider_type c = ON_DEMAND ->
   exists f, f ∈ b_candidates b' /\ fc_endpoint_id f = id /\ fc_provider_type f = ON_DEMAND).
Proof.
  intros He [Hf Hi] Hc. unfold admit_candidate. set (r0 := ensure _ _ _).
  assert (closed r0 id) as Hc0 by (by apply closed_ensure).
  pose proof (closed_allow r0 (rd_env rd) (rc_endpoint_id c) id Hc0) as Hc1.
  assert (rc_endpoint_id c = id -> (registry_allow_request r0 (rd_env rd) (rc_endpoint_id c)).2 = true) as Hal
    by (intros ->; by apply closed_allows).
  destruct (registry_allow_request r0 (rd_env rd) (rc_endpoint_id c)) as [r ok]. cbn [fst snd] in *.
  match goal with |- context [price_candidate ?x q rd c] => set (st1 := x) in * end.
  assert (estimates_ok st1) as He1 by (apply (estimates_same st); [by unfold same_routes|done]).
  assert (forall b0, b_candidates b0 = b_candidates b -> build_ok id (ids ++ [rc_endpoint_id c]) b0) as Hsame.
  { intros b0 E. constructor; rewrite E; [done|]. by apply sublist_inserts_r. }
  destruct ok; cbn [negb].
  2:{ split_and!; try done; [by apply Hsame|]. intros E. specialize (Hal E). done. }
  pose proof (price_still st1 q rd c) as Hps. pose proof (price_on_demand st1 q rd c) as Hod.
  destruct (price_candidate st1 q rd c) as [st2 o] eqn:Ep. destruct Hps as (_ & Hsr & Ho).
  assert (health_registry (rw_res st2) = health_registry (rw_res st1)) as Eh.
  { clear -Ep. unfold price_candidate in Ep. repeat (case_match || case_decide); simplify_eq; done. }
  assert (estimates_ok st2) as He2 by (by apply (estimates_same st1)).
  assert (closed (health_registry (rw_res st2)) id) as Hc2 by (by rewrite Eh).
  destruct o as [| |f scope]; [split_and!; try done; [by apply Hsame|]; intros _ Ht; destruct (Hod Ht) as (? & ? & ?); simplify_eq..|].
  destruct Ho as (E1 & E2 & E3). split_and!; try done.
  - constructor; cbn [b_candidates set_to].
    + apply Forall_app. split; [done|]. constructor; [|done]. exact (price_finite st1 q rd c f scope st2 He1 Ep).
    + cbn. rewrite fmap_app. cbn. rewrite E1. by apply sublist_app.
  - intros g Hg. cbn. set_solver.
  - intros E Ht. exists f. split_and!; [cbn; set_solver|congruence|congruence].
Qed.

Lemma build_live q rd id cs : forall st b ids,
  estimates_ok st -> build_ok id ids b -> closed (health_registry (rw_res st)) id ->
  let '(st', b') := build_loop st q rd cs b in
  estimates_ok st' /\ build_ok id (ids ++ (rc_endpoint_id <$> cs)) b' /\ closed (health_registry (rw_res st')) id /\
  (forall f, f ∈ b_candidates b -> f ∈ b_candidates b') /\
  (forall c, c ∈ cs -> rc_endpoint_id c = id -> rc_provider_type c = ON_DEMAND -> in_range q c = true ->
     accepts q c = true -> exists f, f ∈ b_candidates b' /\ fc_endpoint_id f = id /\ fc_provider_type f = ON_DEMAND) /\
  (b_match b = true \/ (exists c, c ∈ cs /\ accepts q c = true) -> b_match b' = true).
Proof.
  induction cs as [|c cs IH]; intros st b ids He Hb Hc; cbn [build_loop].
  { rewrite app_nil_r. split_and!; try done; [intros c Hc'; by apply not_elem_of_nil in Hc'|].
    intros [?|(c & Hc' & _)]; [done|by apply not_elem_of_nil in Hc']. }
  set (b0 := b <| b_match := b_match b || accepts q c |>).
  assert (build_ok id ids b0) as Hb0 by (by apply (build_ok_same id ids b)).
  assert (forall b1 ids1, build_ok id ids1 b1 -> build_ok id (ids1 ++ [rc_endpoint_id c]) b1) as Hext.
  { intros b1 ids1 [H1' H2']. constructor; [done|]. by apply sublist_inserts_r. }
  cbn [fmap list_fmap]. rewrite (cons_middle (rc_endpoint_id c) ids), app_assoc.
  assert (forall b1, b_match b1 = b_match b0 -> b_match b = true \/ (exists c', c' ∈ c :: cs /\ accepts q c' = true) ->
    b_match b1 = true \/ (exists c', c' ∈ cs /\ accepts q c' = true)) as Hm.
  { intros b1 -> [E|(c' & Hin & E)]; [left; cbn; by rewrite E|]. apply elem_of_cons in Hin as [->|Hin];
      [left; cbn; rewrite E; apply orb_true_r|right; eauto]. }
  destruct (in_range q c) eqn:Er; cbn [negb].
  2:{ specialize (IH st b0 (ids ++ [rc_endpoint_id c]) He (Hext _ _ Hb0) Hc). destruct (build_loop _ _ _ _ _) as [st' b'].
      destruct IH as (I1 & I2 & I3 & I4 & I5 & I6). split_and!; try done; [|intros Ho; by apply I6, Hm].
      intros c' [->|Hin]%elem_of_cons; [congruence|by apply I5]. }
  destruct (accepts q c) eqn:Ea; cbn [negb].
  2:{ match goal with |- context [build_loop st q rd cs ?x] => set (b1 := x) end.
      assert (build_ok id ids b1) as Hb1 by (by apply (build_ok_same id ids b)).
      specialize (IH st b1 (ids ++ [rc_endpoint_id c]) He (Hext _ _ Hb1) Hc). destruct (build_loop _ _ _ _ _) as [st' b'].
      destruct IH as (I1 & I2 & I3 & I4 & I5 & I6). split_and!; try done; [|intros Ho; by apply I6, Hm].
      intros c' [->|Hin]%elem_of_cons; [congruence|by apply I5]. }
  pose proof (admit_live st q rd c b0 id ids He Hb0 Hc) as Ha. pose proof (admit_still st q rd c b0) as Had.
  destruct (admit_candidate st q rd c b0) as [st1 b1]. destruct Ha as (A1 & A2 & A3 & A4 & A5).
  destruct Had as (_ & _ & Em & _). specialize (IH st1 b1 _ A1 A2 A3). destruct (build_loop _ _ _ _ _) as [st' b'].
  destruct IH as (I1 & I2 & I3 & I4 & I5 & I6). split_and!; try done; [by intros; apply I4, A4| |intros Ho; by apply I6, Hm].
  intros c' [->|Hin]%elem_of_cons; [|by apply I5]. intros E Ht _ _. destruct (A5 E Ht) as (f & ? & ?). exists f. split; [by apply I4|done].
Qed.

(** *** The loop *)

Lemma note_refusal_closed st e i x id :
  closed (health_registry (rw_res st)) id -> closed (health_registry (rw_res (note_refusal st e i x).1)) id.
Proof.
  intros Hc. unfold note_refusal. pose proof (closed_allow _ e i _ Hc) as Hc'. by destruct (registry_allow_request _ e i).
Qed.

Lemma NoDup_ids_inj (cs : list feasible_candidate) c d :
  NoDup (fc_endpoint_id <$> cs) -> c ∈ cs -> d ∈ cs -> fc_endpoint_id c = fc_endpoint_id d -> c = d.
Proof.
  intros Hd (i & Hi)%list_elem_of_lookup (j & Hj)%list_elem_of_lookup E.
  assert (i = j) as <-; [|congruence].
  eapply (NoDup_lookup _ _ _ (fc_endpoint_id c) Hd); rewrite list_lookup_fmap; [by rewrite Hi|rewrite Hj; cbn; congruence].
Qed.

(** While a candidate that cannot be refused is left, the loop goes on to a decision. *)
Lemma select_live q scopes dr f n : forall k st x cs,
  (length cs <= n)%nat -> Forall finite cs -> NoDup (fc_endpoint_id <$> cs) -> f ∈ cs -> fc_provider_type f = ON_DEMAND ->
  closed (health_registry (rw_res st)) (fc_endpoint_id f) -> (select_loop n k st q scopes x cs dr).2 <> Ok None.
Proof.
  induction n as [|n IH]; intros k st x cs Hlen Hf Hd Hin Ht Hc; cbn [select_loop].
  { destruct cs; [by apply not_elem_of_nil in Hin|cbn in Hlen; lia]. }
  assert (cs <> []) as Hne by (intros ->; by apply not_elem_of_nil in Hin).
  destruct (sample_some cs (budget_alpha cfg) (dr_threshold (dr k)) Hne Hf) as [sel Es]. unfold to_lp in Es. rewrite Es.
  apply sample_elem in Es. destruct (execution_adapter (fc_adapter sel) q) as [ex|e]; [|done]. case_decide; [done|].
  pose proof (closed_commit (rw_res st) (dr_commit (dr k)) (dr_quota_now (dr k)) sel _ Hc) as Hc'.
  destruct (_commit_candidate _ _ _ sel) as [res [r|]] eqn:Ec; [by destruct (dr_setup (dr k))|]. cbn [fst] in Hc'.
  assert (fc_endpoint_id f <> fc_endpoint_id sel) as Hns.
  { intros E. assert (f = sel) as -> by (by eapply NoDup_ids_inj).
    destruct (closed_commits (rw_res st) (dr_commit (dr k)) (dr_quota_now (dr k)) sel Hc Ht) as [r Er]. by rewrite Ec in Er. }
  pose proof (note_refusal_closed (st <| rw_res := res |>) (dr_check (dr k)) (fc_endpoint_id sel) x _ Hc') as Hc2.
  destruct (note_refusal _ _ _ x) as [st1 x1]. cbn [fst] in Hc2.
  assert (f ∈ filter (fun c => fc_endpoint_id c <> fc_endpoint_id sel) cs) as Hin' by (by apply list_elem_of_filter).
  rewrite decide_False by (destruct (filter _ cs); [by apply not_elem_of_nil in Hin'|done]).
  apply IH; try done.
  - assert (length (filter (fun c => fc_endpoint_id c <> fc_endpoint_id sel) cs) < length cs)%nat; [|lia].
    apply (length_filter_lt _ cs sel); [done|by intros []].
  - apply Forall_forall. intros c [_ Hcin]%list_elem_of_filter. rewrite Forall_forall in Hf. by apply Hf.
  - eapply sublist_NoDup; [exact Hd|apply fmap_sublist, sublist_filter].
Qed.

(** A usable pay-per-token route is always used.  When the model has an on-demand
    route that the caller's range admits, that accepts the request's media, that no
    earlier failure excluded and whose circuit is closed, selection does not come back
    empty, whatever the optimiser weighs, the draws pick and the other routes' circuits,
    quotas and slots do: every refused commit removes its candidate and the program is
    solved again over the rest, which that route never leaves. *)
Theorem rw_selection_decides st q excluded rd dr entries c :
  rw_candidates st !! canonical_model_id st (sv_model_id q) = Some entries -> NoDup (rc_endpoint_id <$> entries) ->
  estimates_ok st -> c ∈ entries -> rc_provider_type c = ON_DEMAND -> in_range q c = true -> accepts q c = true ->
  rc_endpoint_id c ∉ excluded -> closed (health_registry (rw_res st)) (rc_endpoint_id c) ->
  (_select_decision st q excluded rd dr).2 <> Ok None.
Proof.
  intros Ee Hd He Hin Ht Hr Ha Hx Hc. unfold _select_decision, _build_candidates. rewrite Ee.
  pose proof (build_live q rd (rc_endpoint_id c) entries st (Built [] [] ∅ ∅ ∅ (bool_decide (sv_modalities q = ∅))) []
    He ltac:(constructor; [done|apply sublist_nil_l]) Hc) as Hb.
  destruct (build_loop st q rd entries _) as [st1 b]. destruct Hb as (_ & [Hf Hi] & Hc1 & _ & Hin1 & Hm).
  rewrite (Hm (or_intror (ex_intro _ c (conj Hin Ha)))). destruct (Hin1 c Hin eq_refl Ht Hr Ha) as (f & Hfin & E & Hft).
  set (cs := filter (fun c => fc_endpoint_id c ∉ excluded) (b_candidates b)).
  pose proof (select_live q (b_scopes b) dr f (length cs) 0 st1 (b_admission b, b_capacity b) cs (le_n _)) as Hl.
  destruct (select_loop _ _ _ _ _ _ _ _) as [[st2 x] r]. apply Hl; try done.
  - apply Forall_forall. intros d [_ Hdin]%list_elem_of_filter. rewrite Forall_forall in Hf. by apply Hf.
  - eapply sublist_NoDup; [exact Hd|]. etrans; [apply fmap_sublist, sublist_filter|exact Hi].
  - apply list_elem_of_filter. by rewrite E.
  - by rewrite E.
Qed.
End routewise.

(** ** Instances at concrete values *)

Module RouteWiseSample.
(** The routes of [SampleRoute]: [east] is paid per token, [west] has one slot. *)
#[export] Existing Instance SampleRoute.two_adapters.
#[export] Existing Instance QuotaSample.utc.
#[export] Instance plain_routes : RouteConfigs := fun _ =>
  RouteFields None None None None (Raise tt) Absent Absent Absent false None None 1.

(** A solver that puts all the weight on the last candidate. *)
#[export] Instance last_core : RouteWiseCore := {
  cost_tiebroken_objective := fun ls _ => ls;
  solve_budget_lp := fun named _ =>
    match last named with Some (id, _, _) => (true, [(id, 1)]) | None => (false, []) end;
  quota_effective_cost := fun _ _ _ => 1
}.
#[export] Instance flat_pricing : Pricing := fun _ => CandidatePricing 2 6 0 0.

Definition cfg : rw_config := RWConfig 800 60000 (1 # 2) true.
Definition east : route_candidate :=
  ProviderCandidate "east" 0%nat ON_DEMAND 1 (CandidatePricing 2 6 0 0) "m" None None None None None.
Definition west : route_candidate :=
  ProviderCandidate "west" 1%nat CONCURRENCY 1 (CandidatePricing 0 0 0 0) "m" None (Some "p") None None (Some 1%Z).

Definition st0 : @rw unit unit :=
  RW (Resources new_registry [ConcurrencyManager 1 0 0 0 0] {["p"%string := 0%nat]} ∅ new_quota_store ∅)
    {["m"%string := [east; west]]} {["alias"%string := "m"%string]} ∅ ∅ (new_pending 600 100).
Definition ask : @solve unit unit := Solve "alias" "req-1" ∅ None None None false 100 50 None None.
Definition rd (t : Q) : reading := Reading (Sample.at_time t) 0%Z t.
Definition dr (t : Q) (_ : nat) : draw := Draw (1 # 2) (Sample.at_time t) 0%Z (Sample.at_time t) None t.

Lemma core_ok : CoreOk.
Proof.
  constructor; [done| |intros; cbn; lra].
  intros named b ws. cbn. destruct (last named) as [[[id o] c]|] eqn:El; [|done]. intros [= <-] _.
  split; [cbn; lra|]. constructor; [|constructor]. cbn. split; [lra|].
  apply last_Some_elem_of in El. apply list_elem_of_fmap. exists (id, o). split; [done|].
  apply list_elem_of_fmap. by exists (id, o, c).
Qed.

Lemma priced_ok : estimates_ok cfg st0.
Proof.
  constructor; [intros a; cbn; lra|]. intros id now. unfold _latency_estimate. cbn [rw_profiles rw_priors_ms RouteWiseSample.st0 st0]. rewrite !lookup_empty. vm_compute. discriminate.
Qed.
End RouteWiseSample.

Import RouteWiseSample.
#[local] Existing Instance core_ok.

Lemma rw_selection_sound_witness :
  exists d st' x, _select_decision cfg st0 ask ∅
    (rd 1) (dr 1) = (st', x, Ok (Some d)) /\
  d_adapter d = 1%nat /\ active_at (rw_res st') 0 = 1%Z.
Proof.
  pose proof (rw_selection_sound cfg st0 ask ∅
    (rd 1) (dr 1)) as Hs.
  assert ((_select_decision cfg st0 ask ∅
    (rd 1) (dr 1)).2 <> Ok None) as Hd by (vm_compute; discriminate).
  assert ((forall d, (_select_decision cfg st0 ask ∅
    (rd 1) (dr 1)).2 = Ok (Some d) -> d_adapter d = 1%nat /\
    rs_slot (d_reservation d) = Some 0%nat)) as Hw by (intros d E; vm_compute in E; injection E as <-; vm_compute; done).
  assert (forall e, (_select_decision cfg st0 ask ∅
    (rd 1) (dr 1)).2 <> Raise e) as He by (intros e E; vm_compute in E; discriminate).
  destruct (_select_decision _ _ _ _ _ _) as [[st' x] r]. cbn [snd] in *.
  destruct r as [[d|]|e]; [|done|by destruct (He e)]. destruct (Hw d eq_refl) as [Ha Hsl].
  exists d, st', x. split_and!; [done|done|]. destruct Hs as (_ & _ & _ & _ & _ & Hact).
  - intros m. destruct m as [|m]; vm_compute; discriminate.
  - rewrite (Hact 0%nat), Hsl. vm_compute. reflexivity.
Defined.

Lemma rw_selection_decides_witness :
  (_select_decision cfg st0 ask {["west"%string]}
    (rd 1) (dr 1)).2 <> Ok None.
Proof.
  apply (rw_selection_decides cfg st0 ask {["west"%string]}
    (rd 1) (dr 1) [east; west] east);
    try reflexivity.
  - repeat constructor; set_solver.
  - apply priced_ok.
  - set_solver.
  - set_solver.
Defined.
