(* ===== verification/RouteWiseDispatch.v ===== *)
(** RouteWise's dispatch loop: [RouteWiseRouter.chat_completion] and
    [stream_chat_completion] around a selection, [_execute_adapter] and
    [_execute_stream_adapter], the request-local trace
    ([routing/routewise/decisions.py]) and the error of a request no route was found for.

    An attempt runs while other requests use the same router; they are arbitrary state
    changes between the steps of the request, restricted by the theorems only in what
    they may do with what the request holds. *)

From S2P Require Import Prelude PyText UsageLimit Failures CircuitBreaker EndpointHealth Offload RouteSelection ResourcePools RouteCandidates RouteEstimates PendingPrefix RouteWise.

Local Open Scope Q_scope.

(** ** Failed attempts *)

(** The entries [failed_attempt] builds ([routing/telemetry.py]). *)
Record attempt : Type := Attempt {
  fa_provider : string;
  fa_endpoint_id : string;
  fa_error_type : string;
  fa_error : string;
  fa_status_code : option Z
}.
#[export] Instance attempt_eq_dec : EqDecision attempt.
Proof. solve_decision. Defined.

(** What the source asks the exception classes of Python and aiohttp: the class name,
    [str(exc)], and whether it is one of the connection and timeout errors. *)
Class Exceptions := {
  class_name : exn -> string;
  exn_text : exn -> string;
  is_network_error : exn -> bool
}.

Definition failed_attempt `{Exceptions} (provider endpoint_id : string) (e : exn) : attempt :=
  Attempt provider endpoint_id (class_name e) (exn_text e) (http_status_of e).

(** The key [dedupe_failed_attempts] compares; its entries have no [base_url]. *)
Definition attempt_key (a : attempt) : string * string * string :=
  (default (fa_provider a) (truthy (Some (fa_endpoint_id a))), fa_error_type a, fa_error a).

Fixpoint dedupe_loop (seen : gset (string * string * string)) (l : list attempt) : list attempt :=
  match l with
  | [] => []
  | a :: l => if decide (attempt_key a ∈ seen) then dedupe_loop seen l
              else a :: dedupe_loop ({[attempt_key a]} ∪ seen) l
  end.

(** [dedupe_failed_attempts] *)
Definition dedupe_failed_attempts (l : list attempt) : list attempt := dedupe_loop ∅ l.

(** ** Which failures are retried *)

(** [_exception_status_code] *)
Definition _exception_status_code (e : exn) : option Z :=
  let a := attrs e in
  match attr_status_code a with
  | Some s => Some s
  | None =>
      let response := match attr_response a with
                      | Some (Some s, _) => Some s
                      | Some (None, s) => s
                      | None => None
                      end in
      match response with
      | Some s => Some s
      | None => match attr_status a with Some s => Some s | None => attr_code a end
      end
  end.

(** [_is_routewise_retryable_error] *)
Definition _is_routewise_retryable_error `{Exceptions} (e : exn) : bool :=
  match _exception_status_code e with
  | Some s => bool_decide (s ∈ [408; 429]%Z) || bool_decide (500 <= s <= 599)%Z
  | None => is_network_error e
  end.

(** ** The trace *)

(** The fields of a decision's metadata that the trace writes, and the failed legs a
    hedged run adds. *)
Record metadata : Type := Metadata {
  md_selected_endpoint : string;
  md_initial_selected_endpoint : string;
  md_failed_attempts : option (list attempt);
  md_fallback_policy : option string;
  md_fallback_attempts : nat;
  md_fallback_excluded : gset string
}.
#[export] Instance eta_metadata : Eta metadata := fun m =>
  Metadata (md_selected_endpoint m) (md_initial_selected_endpoint m) (md_failed_attempts m)
    (md_fallback_policy m) (md_fallback_attempts m) (md_fallback_excluded m).

(** [_decision_metadata], those fields *)
Definition decision_metadata (endpoint_id : string) : metadata := Metadata endpoint_id endpoint_id None None 0 ∅.

(** [RoutingTrace] *)
Record trace : Type := RoutingTrace {
  failed_attempts : list attempt;
  routewise_failed_attempts : list attempt;
  excluded_endpoint_ids : gset string;
  tr_refusals : solve_refusals;
  initial_selected_endpoint : option string;
  fallback_policy : option string
}.
#[export] Instance eta_trace : Eta trace := fun t =>
  RoutingTrace (failed_attempts t) (routewise_failed_attempts t) (excluded_endpoint_ids t) (tr_refusals t)
    (initial_selected_endpoint t) (fallback_policy t).

Definition new_trace : trace := RoutingTrace [] [] ∅ (SolveRefusals ∅ ∅ ∅) None None.

(** [apply_to] *)
Definition apply_to (t : trace) (m : metadata) : metadata :=
  let m := match initial_selected_endpoint t with
           | Some id => m <| md_initial_selected_endpoint := id |>
           | None => m
           end in
  match fallback_policy t with
  | None => m
  | Some p =>
      (((m <| md_failed_attempts := Some (routewise_failed_attempts t) |>)
          <| md_fallback_policy := Some p |>)
          <| md_fallback_attempts := length (routewise_failed_attempts t) |>)
          <| md_fallback_excluded := excluded_endpoint_ids t |>
  end.

(** [begin_decision] *)
Definition begin_decision (t : trace) (m : metadata) : trace * metadata :=
  let t := match initial_selected_endpoint t with
           | None => t <| initial_selected_endpoint := Some (md_selected_endpoint m) |>
           | Some _ => t
           end in
  (t, apply_to t m).

(** [record_failed_attempt] *)
Definition record_failed_attempt (t : trace) (a : attempt) : trace :=
  t <| failed_attempts := dedupe_failed_attempts (failed_attempts t ++ [a]) |>.

(** [record_fallback] *)
Definition record_fallback (t : trace) (m : metadata) (a : attempt) : trace * metadata :=
  let failed := dedupe_failed_attempts (routewise_failed_attempts t ++ default [] (md_failed_attempts m) ++ [a]) in
  let excluded := foldr (fun f x => if decide (fa_endpoint_id f = "") then x else {[fa_endpoint_id f]} ∪ x)
                    (excluded_endpoint_ids t) failed in
  let t := ((t <| routewise_failed_attempts := failed |>) <| excluded_endpoint_ids := excluded |>)
             <| fallback_policy := Some "routewise_resolve" |> in
  (t, apply_to t m).

(** ** The loop *)

Inductive mode : Type := Chat | Stream.

(** How a run of the adapter ends: with its answer, with an error, or unwound by
    something that is no [Exception] (cancellation, a client that hangs up), perhaps
    before the adapter was started. *)
Inductive ending : Type :=
| Served
| Failed (e : exn)
| Unwound (e : exn) (started : bool).

(** What a [HedgedAdapter] reports: the backup (its provider and endpoint) when it won,
    so that the adapter's config points at it, and the failed legs. *)
Record hedge_report : Type := HedgeReport {
  hr_won : option (string * string);
  hr_failed : list attempt
}.

(** What the caller gets. *)
Inductive rw_answer : Type :=
| Answered (endpoint : string)
| ReRaised (e : exn)                     (* the error of the last attempt, or the unwinding *)
| Crashed (err : py_error)               (* an exception of the bookkeeping itself *)
| SelectionRaised (e : select_error)
| AllCircuitsOpenError
| TargetUnavailableError
| NoRouteError                           (* the [ValueError] *)
| Unfinished.                            (* fuel ran out *)

(** One attempt, as it went: the endpoint selected, the one the adapter ended on, and
    the reservation it was made under, as it was left. *)
Record attempted : Type := Attempted {
  at_selected : string;
  at_final : string;
  at_ending : ending;
  at_yielded : bool;
  at_reservation : reservation
}.

Section dispatch.
Context {B S : Type}.
Context `{Adapters} `{RouteConfigs} `{LocalTime} `{RouteWiseCore} `{Pricing} `{ErrorText} `{Exceptions}.
Variable cfg : rw_config.

Notation rw := (@rw B S).
Notation solve := (@solve B S).

(** The surroundings of one turn of the loop. *)
Record turn : Type := Turn {
  tn_reading : reading;              (* of the selection *)
  tn_draws : nat -> draw;
  tn_start : env;                    (* [_ensure_health] *)
  tn_before : rw -> rw;              (* other requests, before the first output *)
  tn_content : bool;                 (* the adapter answered, or streamed content *)
  tn_first : env;                    (* [_on_success] *)
  tn_touches : list Q;               (* a stream's chunks *)
  tn_after : rw -> rw;               (* other requests, after it *)
  tn_hedge : gset string -> option hedge_report;
    (* [Some] when the adapter is a [HedgedAdapter], whose backups are chosen among the
       endpoints the trace does not exclude *)
  tn_ending : ending;
  tn_yielded : bool;                 (* a chunk reached the client *)
  tn_fail : env                      (* [_on_failure] *)
}.

(** [self._health_registry] *)
Definition on_registry (st : rw) (f : registry -> registry) : rw :=
  st <| rw_res := (rw_res st) <| health_registry := f (health_registry (rw_res st)) |> |>.

(** [decision.release] *)
Definition release_decision (st : rw) (r : reservation) : rw * reservation :=
  let '(res, r) := release_reservation (rw_res st) r in (st <| rw_res := res |>, r).

(** The provider and [endpoint_id_for_adapter(adapter)] of an adapter after its run *)
Definition final_leg (h : option hedge_report) (d : decision) : string * string :=
  default (cfg_provider (config (d_adapter d)), fc_endpoint_id (d_candidate d)) (h ≫= hr_won).

(** [reports_leg_outcomes] *)
Definition hedged (h : option hedge_report) : bool := bool_decide (is_Some h).

(** [_execute_adapter] and [_execute_stream_adapter]: health, the run, the success of a
    run that is not a hedged one, and the release in [finally]. *)
Definition _execute_adapter (m : mode) (st : rw) (q : solve) (w : turn) (h : option hedge_report) (d : decision) :
    rw * reservation :=
  let st := on_registry st (fun r => ensure r (tn_start w) (fc_endpoint_id (d_candidate d))) in
  let st := tn_before w st in
  let st := if tn_content w && negb (hedged h)
            then on_registry st (fun r => (record_success r (tn_first w) (final_leg h d).2).1) else st in
  let st := match m with
            | Stream => st <| rw_pending := foldl (fun p now => (touch p now (sv_request_id q)).1.1) (rw_pending st) (tn_touches w) |>
            | Chat => st
            end in
  release_decision (tn_after w st) (d_reservation d).

(** [_apply_hedge_execution_metadata], the failed legs *)
Definition apply_hedge (h : option hedge_report) (m : metadata) : metadata :=
  match h with
  | Some h =>
      if decide (length (hr_failed h) = 0%nat) then m
      else m <| md_failed_attempts := Some (dedupe_failed_attempts (default [] (md_failed_attempts m) ++ hr_failed h)) |>
  | None => m
  end.

(** [_no_decision_error]; [model_id] is the request's own, not the canonical one. *)
Definition _no_decision_error (st : rw) (q : solve) (x : solve_refusals) : rw_answer :=
  let known := match sv_required_endpoint q with
               | Some id => bool_decide (id ∈ rc_endpoint_id <$> default [] (rw_candidates st !! sv_model_id q))
               | None => false
               end in
  if known then TargetUnavailableError
  else if negb (bool_decide (admission_refused x = ∅)) then AllCircuitsOpenError
  else if negb (bool_decide (capacity_refused x = ∅)) then TargetUnavailableError
  else NoRouteError.

(** The handler around the loop: an error drops the stashed prefix, and the last
    decision is released whatever happened. *)
Definition leave (st : rw) (q : solve) (a : rw_answer) (last_ : option reservation) : rw * option reservation :=
  let st := match a with
            | Answered _ => st
            | _ => st <| rw_pending := (discard (rw_pending st) (sv_request_id q)).1 |>
            end in
  match last_ with
  | Some r => let '(st, r) := release_decision st r in (st, Some r)
  | None => (st, None)
  end.

(** The reason and whether a failed run is recorded here. *)
Definition reports_failure (m : mode) (w : turn) (h : option hedge_report) : bool :=
  match m with Chat => negb (hedged h) | Stream => tn_yielded w || negb (hedged h) end.

Definition failure_reason (m : mode) (e : exn) : chars :=
  match m with Chat => chars_of (class_name e) | Stream => chars_of "stream_exception" end.

(** [_on_failure] *)
Definition report_failure (m : mode) (st : rw) (w : turn) (h : option hedge_report) (d : decision) (e : exn) : rw * option py_error :=
  if reports_failure m w h then
    let '(r, _, err) := record_failure (health_registry (rw_res st)) (tn_fail w) (final_leg h d).2
                          (failure_reason m e) (operator_safe_error e) (Some e) in
    (on_registry st (fun _ => r), err)
  else (st, None).

(** Whether a failed run is followed by another solve. *)
Definition retries (m : mode) (w : turn) (e : exn) : bool :=
  negb (match m with Stream => tn_yielded w | Chat => false end) &&
  fallback_mode_policy cfg && _is_routewise_retryable_error e.

(** The loop: the state, the trace, the attempts made so far, the error of the last. *)
Fixpoint dispatch_loop (n k : nat) (m : mode) (st : rw) (q : solve) (t : trace) (log : list attempted)
    (last_error : option exn) (ws : nat -> turn) : rw * trace * list attempted * rw_answer :=
  match n with
  | O => (st, t, log, Unfinished)
  | Datatypes.S n =>
      let w := ws k in
      let last_ := at_reservation <$> last log in
      let '(st, x, sel) := _select_decision cfg st q (excluded_endpoint_ids t) (tn_reading w) (tn_draws w) in
      let t := match x with Some x => t <| tr_refusals := x |> | None => t end in
      match sel with
      | Raise e => ((leave st q (SelectionRaised e) last_).1, t, log, SelectionRaised e)
      | Ok None =>
          let a := match last_error with Some e => ReRaised e | None => _no_decision_error st q (tr_refusals t) end in
          ((leave st q a last_).1, t, log, a)
      | Ok (Some d) =>
          let id := fc_endpoint_id (d_candidate d) in
          let h := tn_hedge w (excluded_endpoint_ids t) in
          let '(provider, final) := final_leg h d in
          let '(t, md) := begin_decision t (decision_metadata id) in
          let done st t r a :=
            let '(st, r') := leave st q a (Some r) in
            (st, t, log ++ [Attempted id final (tn_ending w) (tn_yielded w) (default r r')], a) in
          match tn_ending w with
          | Unwound e false => done (tn_before w st) t (d_reservation d) (ReRaised e)
          | Unwound e true =>
              let '(st, r) := _execute_adapter m st q w h d in done st t r (ReRaised e)
          | Served =>
              let '(st, r) := _execute_adapter m st q w h d in done st t r (Answered final)
          | Failed e =>
              let '(st, r) := _execute_adapter m st q w h d in
              let md := apply_hedge h md in
              let '(st, err) := report_failure m st w h d e in
              match err with
              | Some err => done st t r (Crashed err)
              | None =>
                  let a := failed_attempt provider final e in
                  let t := record_failed_attempt t a in
                  if retries m w e then
                    let '(t, _) := record_fallback t md a in
                    let t := t <| excluded_endpoint_ids := {[final]} ∪ excluded_endpoint_ids t |> in
                    dispatch_loop n (Datatypes.S k) m st q t
                      (log ++ [Attempted id final (tn_ending w) (tn_yielded w) r]) (Some e) ws
                  else done st t r (ReRaised e)
              end
          end
      end
  end.

(** A request: [chat_completion] and [stream_chat_completion], given the number of
    endpoints the model's routes can name. *)
Definition rw_dispatch (m : mode) (bound : nat) (st : rw) (q : solve) (ws : nat -> turn) :
    rw * trace * list attempted * rw_answer :=
  dispatch_loop (Datatypes.S bound) 0 m st q new_trace [] None ws.

(** ** What other requests may do *)

(** Every endpoint the model's routes name is in [E]. *)
Definition routes_within (E : gset string) (q : solve) (st : rw) : Prop :=
  forall c, c ∈ default [] (rw_candidates st !! canonical_model_id st (sv_model_id q)) -> rc_endpoint_id c ∈ E.

(** [f] moves the other requests' slots from [held j] to [held (j + 1)] and leaves the
    request's own alone. *)
Definition others_hold (held : nat -> nat -> Z) (j : nat) (f : rw -> rw) : Prop :=
  forall st x, (forall m, 0 <= x m)%Z -> (forall m, active_at (rw_res st) m = held j m + x m)%Z ->
    forall m, (active_at (rw_res (f st)) m = held (Datatypes.S j) m + x m)%Z.

(** The surroundings of a request: others' slots, routes that stay within [E], and
    hedges whose backup is a route the trace does not exclude, as those of [HedgeRace] are. *)
Record surroundings (E : gset string) (q : solve) (held : nat -> nat -> Z) (ws : nat -> turn) : Prop := {
  sr_held j m : (0 <= held j m)%Z;
  sr_before k : others_hold held (2 * k) (tn_before (ws k));
  sr_after k : others_hold held (2 * k + 1) (tn_after (ws k));
  sr_routes_before k st : routes_within E q st -> routes_within E q (tn_before (ws k) st);
  sr_routes_after k st : routes_within E q st -> routes_within E q (tn_after (ws k) st);
  sr_backup k excluded h p id : tn_hedge (ws k) excluded = Some h -> hr_won h = Some (p, id) -> id ∈ E /\ id ∉ excluded
}.

(** The slot of an unreleased reservation. *)
Definition own_slot (r : reservation) (m : nat) : Z := if released r then 0 else takes (Some (rs_slot r)) m.

Lemma own_slot_nonneg r m : (0 <= own_slot r m)%Z.
Proof. unfold own_slot, takes. destruct (released r); [|case_decide]; lia. Qed.

Lemma release_decision_slots st r g :
  (forall m, 0 <= g m)%Z -> (forall m, active_at (rw_res st) m = g m + own_slot r m)%Z ->
  let '(st', r') := release_decision st r in
  released r' = true /\ (forall m, active_at (rw_res st') m = g m)%Z /\ same_routes st st'.
Proof.
  intros Hg Ha. unfold release_decision, own_slot in *. destruct (released r) eqn:Er.
  { unfold release_reservation. rewrite Er. split_and!; try done. intros m. cbn. rewrite Ha. lia. }
  pose proof (release_spec (rw_res st) r Er) as Hr. destruct (release_reservation (rw_res st) r) as [res r'].
  destruct Hr as (Hr & Ha' & _).
  { intros m Hm. rewrite Ha. unfold takes. rewrite decide_True by congruence. specialize (Hg m). lia. }
  split_and!; try done. intros m. cbn. rewrite Ha', Ha. lia.
Qed.

Lemma routes_same E q st st' : same_routes st st' -> routes_within E q st -> routes_within E q st'.
Proof. intros (E1 & E2 & _ & _). unfold routes_within, canonical_model_id. by rewrite E1, E2. Qed.

Lemma leave_slots st q a r g :
  (forall m, 0 <= g m)%Z -> (forall m, active_at (rw_res st) m = g m + own_slot r m)%Z ->
  let '(st', r') := leave st q a (Some r) in
  released (default r r') = true /\ (forall m, active_at (rw_res st') m = g m)%Z.
Proof.
  intros Hg Ha. unfold leave. set (st1 := match a with Answered _ => _ | _ => _ end).
  assert (forall m, active_at (rw_res st1) m = g m + own_slot r m)%Z as Ha1 by (intros m; rewrite <- Ha; by destruct a).
  pose proof (release_decision_slots st1 r g Hg Ha1) as Hr. destruct (release_decision st1 r) as [st2 r2].
  destruct Hr as (? & ? & _). done.
Qed.

Lemma leave_idle st q a l : (forall r, l = Some r -> released r = true) ->
  forall m, active_at (rw_res (leave st q a l).1) m = active_at (rw_res st) m.
Proof.
  intros Hl m. unfold leave. destruct l as [r|]; [|by destruct a]. unfold release_decision, release_reservation.
  rewrite (Hl r eq_refl). by destruct a.
Qed.

Lemma execute_spec E q held ws m k st h d :
  surroundings E q held ws -> (forall i, active_at (rw_res st) i = held (2 * k)%nat i + own_slot (d_reservation d) i)%Z ->
  routes_within E q st ->
  let '(st', r) := _execute_adapter m st q (ws k) h d in
  released r = true /\ (forall i, active_at (rw_res st') i = held (2 * Datatypes.S k)%nat i)%Z /\ routes_within E q st'.
Proof.
  intros Hsr Ha Hr. unfold _execute_adapter.
  set (st1 := on_registry st _). set (st2 := tn_before (ws k) st1). set (st3 := if _ && _ then _ else st2).
  set (st4 := match m with Stream => _ | Chat => _ end).
  assert (forall i, active_at (rw_res st2) i = held (2 * k + 1)%nat i + own_slot (d_reservation d) i)%Z as Ha2.
  { intros i. rewrite Nat.add_1_r. apply (sr_before _ _ _ _ Hsr); [apply own_slot_nonneg|]. exact Ha. }
  assert (routes_within E q st2) as Hr2 by (apply (sr_routes_before _ _ _ _ Hsr); exact Hr).
  assert (forall i, active_at (rw_res st4) i = active_at (rw_res st2) i) as Ha4.
  { intros i. unfold st4, st3. destruct m, (_ && _); done. }
  assert (same_routes st2 st4) as Hr4 by (unfold st4, st3; destruct m, (_ && _); done).
  pose proof (release_decision_slots (tn_after (ws k) st4) (d_reservation d) (held (2 * Datatypes.S k)%nat)
    (fun i => sr_held _ _ _ _ Hsr _ i)) as Hrel.
  destruct (release_decision _ _) as [st' r]. destruct Hrel as (? & ? & Hs).
  { intros i. replace (2 * Datatypes.S k)%nat with (Datatypes.S (2 * k + 1)) by lia.
    apply (sr_after _ _ _ _ Hsr k); [apply own_slot_nonneg|]. intros i'. by rewrite Ha4, Ha2. }
  split_and!; try done. apply (routes_same _ _ _ _ Hs), (sr_routes_after _ _ _ _ Hsr), (routes_same _ _ _ _ Hr4), Hr2.
Qed.

(** ** The walk *)

(** Attempts made when [X] is already excluded: each on routes of [E] outside what has
    failed so far, and each over. *)
Fixpoint walk (E X : gset string) (log : list attempted) : Prop :=
  match log with
  | [] => True
  | a :: log => at_selected a ∈ E ∖ X /\ at_final a ∈ E ∖ X /\ released (at_reservation a) = true /\
                walk E ({[at_final a]} ∪ X) log
  end.

(** An attempt that another one may follow. *)
Definition retried (m : mode) (a : attempted) : Prop :=
  exists e, at_ending a = Failed e /\ _is_routewise_retryable_error e = true /\ fallback_mode_policy cfg = true /\
            (m = Stream -> at_yielded a = false).

Section answers.
(** [F n] is the loop stopped after [n] turns. *)
Context (F : nat -> rw * trace * list attempted * rw_answer) (q : solve) (ws : nat -> turn).

(** The selection made after the attempts of [log]: what it leaves and answers. *)
Definition selects_next (log : list attempted) (t : trace) (st' : rw) (x : option solve_refusals)
    (r : result select_error (option decision)) : Prop :=
  exists st, F (length log) = (st, t, log, Unfinished) /\
    _select_decision cfg st q (excluded_endpoint_ids t) (tn_reading (ws (length log))) (tn_draws (ws (length log))) = (st', x, r).

(** What an answer says of the attempts. *)
Definition answer_ok (m : mode) (log : list attempted) (a : rw_answer) : Prop :=
  match a with
  | Answered id => exists l r, log = l ++ [r] /\ Forall (retried m) l /\ at_ending r = Served /\ at_final r = id
  | ReRaised e => exists l r, log = l ++ [r] /\ Forall (retried m) l /\
                    ((exists started, at_ending r = Unwound e started) \/
                     at_ending r = Failed e /\ (~ retried m r \/ exists t st' x, selects_next log t st' x (Ok None)))
  | Crashed err => exists l r e, log = l ++ [r] /\ Forall (retried m) l /\ at_ending r = Failed e /\
                    exists rg, (record_failure rg (tn_fail (ws (length l))) (at_final r) (failure_reason m e)
                                  (operator_safe_error e) (Some e)).2 = Some err
  | SelectionRaised e => Forall (retried m) log /\ exists t st' x, selects_next log t st' x (Raise e)
  | AllCircuitsOpenError | TargetUnavailableError | NoRouteError =>
      log = [] /\ exists t st' x, selects_next [] t st' x (Ok None) /\ a = _no_decision_error st' q (default (tr_refusals t) x)
  | Unfinished => False
  end.

Lemma walk_mono E X X' log : X ⊆ X' -> walk E X' log -> walk E X log.
Proof.
  revert X X'; induction log as [|a log IH]; intros X X' Hx; cbn; [done|]. intros (H1' & H2' & H3' & H4').
  split_and!; [set_solver..|done|]. eapply IH; [|exact H4']. set_solver.
Qed.

Lemma walk_app E X l r : walk E X l -> walk E (list_to_set (at_final <$> l) ∪ X) r -> walk E X (l ++ r).
Proof.
  revert X; induction l as [|a l IH]; intros X; cbn; [intros _; by rewrite union_empty_l_L|]. intros (H1' & H2' & H3' & H4') Hr.
  split_and!; try done. apply IH; [done|]. eapply walk_mono; [|exact Hr]. set_solver.
Qed.

Lemma walk_NoDup E X log : walk E X log -> NoDup (at_final <$> log) /\ Forall (fun a => at_final a ∈ E ∖ X) log.
Proof.
  revert X; induction log as [|a log IH]; intros X; cbn; [intros _; split; constructor|]. intros (H1' & H2' & H3' & H4').
  destruct (IH _ H4') as [Hd Hf]. split.
  - constructor; [|done]. intros (b & E' & Hb)%list_elem_of_fmap. rewrite Forall_forall in Hf. specialize (Hf b Hb). set_solver.
  - constructor; [done|]. eapply Forall_impl; [exact Hf|]. cbn beta. set_solver.
Qed.

Lemma walk_length E log : walk E ∅ log -> (length log <= size E)%nat.
Proof.
  intros [Hd Hf]%walk_NoDup. rewrite <- (length_fmap at_final). rewrite <- (size_list_to_set (C := gset string)) by done.
  apply subseteq_size. intros x (a & -> & Ha)%elem_of_list_to_set%list_elem_of_fmap.
  rewrite Forall_forall in Hf. specialize (Hf a Ha). set_solver.
Qed.

Lemma fallback_excludes t md a : excluded_endpoint_ids t ⊆ excluded_endpoint_ids (record_fallback t md a).1.
Proof.
  unfold record_fallback. cbn. generalize (dedupe_failed_attempts (routewise_failed_attempts t ++ default [] (md_failed_attempts md) ++ [a])).
  intros l. induction l as [|b l IH]; cbn; [done|]. case_decide; set_solver.
Qed.

(** The state of the loop at the start of turn [k]. *)
Record loop_ok (E : gset string) (held : nat -> nat -> Z) (m : mode) (k : nat) (st : rw) (t : trace)
    (log : list attempted) (last_error : option exn) : Prop := {
  lo_slots i : active_at (rw_res st) i = held (2 * k)%nat i;
  lo_routes : routes_within E q st;
  lo_walk : walk E ∅ log;
  lo_excluded : list_to_set (at_final <$> log) ⊆ excluded_endpoint_ids t;
  lo_retried : Forall (retried m) log;
  lo_last : match last_error with
            | Some e => exists l r, log = l ++ [r] /\ at_ending r = Failed e
            | None => log = []
            end;
  lo_turn : k = length log;
  lo_reached j : F (k + j)%nat = dispatch_loop j k m st q t log last_error ws
}.

(** How the loop ends. *)
Definition finished (E : gset string) (held : nat -> nat -> Z) (m : mode) (x : rw * trace * list attempted * rw_answer) : Prop :=
  let '(st, _, log, a) := x in
  (exists j, forall i, active_at (rw_res st) i = held j i) /\ walk E ∅ log /\ answer_ok m log a.

Lemma walk_last E X log r : walk E X log -> at_reservation <$> last log = Some r -> released r = true.
Proof.
  revert X; induction log as [|a log IH]; intros X; [done|]. intros (_ & _ & Hr & Hw). destruct log as [|b log].
  - by intros [= <-].
  - intros Hl. by apply (IH _ Hw).
Qed.

(** Leaving between attempts. *)
Lemma leave_between E held m k st t log le st1 t1 a :
  loop_ok E held m k st t log le -> (forall i, active_at (rw_res st1) i = active_at (rw_res st) i) -> answer_ok m log a ->
  finished E held m ((leave st1 q a (at_reservation <$> last log)).1, t1, log, a).
Proof.
  intros Ho Ha Hans. split_and!; [|apply Ho|done]. exists (2 * k)%nat. intros i. rewrite leave_idle.
  - rewrite Ha. apply Ho.
  - intros r. apply (walk_last _ _ _ _ (lo_walk _ _ _ _ _ _ _ _ Ho)).
Qed.

(** Leaving after the attempt [d]. *)
Lemma leave_after E held m k st t log le st1 t1 j r id final ed y a :
  loop_ok E held m k st t log le -> (forall j i, 0 <= held j i)%Z ->
  (forall i, active_at (rw_res st1) i = held j i + own_slot r i)%Z ->
  id ∈ E ∖ excluded_endpoint_ids t -> final ∈ E ∖ excluded_endpoint_ids t ->
  (forall r, answer_ok m (log ++ [Attempted id final ed y r]) a) ->
  finished E held m (let '(st2, r') := leave st1 q a (Some r) in
    (st2, t1, log ++ [Attempted id final ed y (default r r')], a)).
Proof.
  intros Ho Hh Ha Hi Hf Hans. pose proof (leave_slots st1 q a r (held j) (Hh j) Ha) as Hl.
  destruct (leave st1 q a (Some r)) as [st2 r']. destruct Hl as [Hr Ha2].
  split_and!; [by exists j| |apply Hans]. apply walk_app; [apply Ho|]. pose proof (lo_excluded _ _ _ _ _ _ _ _ Ho).
  cbn. split_and!; [set_solver..|done|done].
Qed.

Lemma no_decision_ok m st' x :
  (exists t y, selects_next [] t st' y (Ok None) /\ x = default (tr_refusals t) y) ->
  answer_ok m [] (_no_decision_error st' q x).
Proof.
  intros (t & y & Hn & ->). set (a := _no_decision_error st' q _).
  assert (@nil attempted = [] /\ exists t st' x, selects_next [] t st' x (Ok None) /\ a = _no_decision_error st' q (default (tr_refusals t) x))
    as Hok by (split; [done|]; exists t, st', y; done).
  assert (a = AllCircuitsOpenError \/ a = TargetUnavailableError \/ a = NoRouteError) as Ha.
  { unfold a, _no_decision_error. repeat case_match; tauto. }
  clearbody a. by destruct Ha as [->|[->| ->]].
Qed.

Lemma dispatch_loop_spec E held m : surroundings E q held ws -> forall n k st t log le,
  loop_ok E held m k st t log le -> (size (E ∖ excluded_endpoint_ids t) < n)%nat ->
  finished E held m (dispatch_loop n k m st q t log le ws).
Proof.
  intros Hsr. induction n as [|n IH]; intros k st t log le Ho Hn; [lia|]. cbn [dispatch_loop].
  assert (forall i, 0 <= active_at (rw_res st) i)%Z as Hnn by (intros i; rewrite (lo_slots _ _ _ _ _ _ _ _ Ho); apply Hsr).
  pose proof (select_decision_taken cfg st q (excluded_endpoint_ids t) (tn_reading (ws k)) (tn_draws (ws k)) Hnn) as Hsel.
  assert (forall j, F (Datatypes.S k + j)%nat = dispatch_loop (Datatypes.S j) k m st q t log le ws) as Hj
    by (intros j; rewrite <- (lo_reached _ _ _ _ _ _ _ _ Ho); f_equal; lia).
  cbn [dispatch_loop] in Hj. revert Hj.
  destruct (_select_decision cfg st q _ _ _) as [[st1 x] sel] eqn:Esel. destruct Hsel as (Hsame & cs & Ht & Hcs).
  assert (selects_next log t st1 x sel) as Hnext.
  { exists st. rewrite <- (lo_turn _ _ _ _ _ _ _ _ Ho). split; [|done].
    by rewrite <- (Nat.add_0_r k), (lo_reached _ _ _ _ _ _ _ _ Ho). }
  set (t1 := match x with Some _ => _ | None => t end).
  assert (excluded_endpoint_ids t1 = excluded_endpoint_ids t) as Et1 by (unfold t1; by destruct x).
  destruct sel as [[d|]|e].
  2:{ intros _. apply (leave_between E held m k st t log le); [done|apply Ht|]. pose proof (lo_last _ _ _ _ _ _ _ _ Ho) as Hl.
      destruct le as [e|].
      - destruct Hl as (l & r & -> & Er). exists l, r.
        pose proof (lo_retried _ _ _ _ _ _ _ _ Ho) as Hf. apply Forall_app in Hf as [? _]. split_and!; [done|done|].
        right. split; [done|]. right. eauto.
      - subst log. assert (tr_refusals t1 = default (tr_refusals t) x) as -> by (unfold t1; by destruct x).
        apply no_decision_ok. eauto. }
  2:{ intros _. apply (leave_between E held m k st t log le); [done|apply Ht|]. split; [apply Ho|eauto]. }
  destruct Ht as (Hin & _ & Hrel & Ha & _ & _). rewrite Forall_forall in Hcs. destruct (Hcs _ Hin) as ((c & Hc & Eid & _) & Hne).
  assert (fc_endpoint_id (d_candidate d) ∈ E ∖ excluded_endpoint_ids t) as Hid.
  { apply elem_of_difference. split; [|done]. rewrite Eid. by apply (lo_routes _ _ _ _ _ _ _ _ Ho). }
  assert (forall i, active_at (rw_res st1) i = held (2 * k)%nat i + own_slot (d_reservation d) i)%Z as Ha1.
  { intros i. rewrite Ha, (lo_slots _ _ _ _ _ _ _ _ Ho). unfold own_slot, takes. rewrite Hrel. repeat case_decide; congruence. }
  assert (routes_within E q st1) as Hr1 by (apply (routes_same _ _ st); [done|apply Ho]).
  rewrite Et1. set (h := tn_hedge (ws k) (excluded_endpoint_ids t)).
  assert ((final_leg h d).2 ∈ E ∖ excluded_endpoint_ids t) as Hfin.
  { unfold final_leg. destruct h as [h'|] eqn:Eh; [|exact Hid]. cbn. destruct (hr_won h') as [[p id]|] eqn:Ew; [|exact Hid].
    destruct (sr_backup _ _ _ _ Hsr k _ _ _ _ Eh Ew). cbn. set_solver. }
  destruct (final_leg h d) as [provider final] eqn:Efl. cbn [snd] in Hfin.
  destruct (begin_decision t1 _) as [t2 md] eqn:Ebd.
  assert (excluded_endpoint_ids t2 = excluded_endpoint_ids t) as Et2.
  { unfold begin_decision in Ebd. injection Ebd as <- _. by case_match. }
  pose proof (execute_spec E q held ws m k st1 h d Hsr Ha1 Hr1) as Hex.
  destruct (_execute_adapter m st1 q (ws k) h d) as [st2 r] eqn:Eex. destruct Hex as (Hr & Ha2 & Hr2).
  assert (forall (g : rw) i, (active_at (rw_res g) i = active_at (rw_res st2) i ->
     active_at (rw_res g) i = held (2 * Datatypes.S k)%nat i + own_slot r i)%Z) as Hown.
  { intros g i ->. rewrite Ha2. unfold own_slot. rewrite Hr. lia. }
  pose proof (lo_retried _ _ _ _ _ _ _ _ Ho) as Hretr.
  assert (k = length log) as Ek by apply Ho.
  destruct (tn_ending (ws k)) as [|e|e started] eqn:Een.
  - intros _. eapply leave_after; [exact Ho|apply Hsr|by intros i; apply Hown|exact Hid|exact Hfin|]. intros r'. exists log. eexists. split_and!; eauto.
  - destruct (report_failure m st2 (ws k) h d e) as [st3 err] eqn:Erf.
    assert ((forall i, active_at (rw_res st3) i = active_at (rw_res st2) i) /\ same_routes st2 st3) as [Ha3 Hr3].
    { unfold report_failure in Erf. destruct (reports_failure m (ws k) h); [|by simplify_eq].
      destruct (record_failure _ _ _ _ _ _) as [[r3 fx] err']. by simplify_eq. }
    destruct err as [err|].
    { intros _. eapply leave_after; [exact Ho|apply Hsr|by intros i; apply Hown|exact Hid|exact Hfin|]. intros r'. exists log. do 2 eexists.
      split_and!; eauto. cbn. rewrite <- Ek. unfold report_failure in Erf. destruct (reports_failure m (ws k) h); [|done].
      rewrite Efl in Erf. exists (health_registry (rw_res st2)). cbn [snd] in Erf.
      destruct (record_failure _ _ _ _ _ _) as [[r3 fx] err']. by simplify_eq. }
    destruct (retries m (ws k) e) eqn:Ert.
    + set (att := failed_attempt provider final e). set (t3 := record_failed_attempt t2 att).
      pose proof (fallback_excludes t3 (apply_hedge h md) att) as Hx. destruct (record_fallback t3 _ att) as [t4 md4]. cbn [fst] in Hx.
      assert (excluded_endpoint_ids t ⊆ excluded_endpoint_ids t4) as Hx' by (rewrite <- Et2; exact Hx).
      assert (retried m (Attempted (fc_endpoint_id (d_candidate d)) final (Failed e) (tn_yielded (ws k)) r)) as Hrt.
      { unfold retries in Ert. apply andb_true_iff in Ert as [[E1 E2]%andb_true_iff E3]. exists e. split_and!; try done.
        intros ->. by apply negb_true_iff in E1. }
      intros Hj. apply IH.
      * constructor.
        -- intros i. by rewrite Ha3.
        -- exact (routes_same _ _ _ _ Hr3 Hr2).
        -- apply walk_app; [apply Ho|]. pose proof (lo_excluded _ _ _ _ _ _ _ _ Ho). cbn. split_and!; [set_solver..|done|done].
        -- pose proof (lo_excluded _ _ _ _ _ _ _ _ Ho). rewrite fmap_app, list_to_set_app_L. cbn. set_solver.
        -- apply Forall_app. by split; [|constructor].
        -- by exists log; eexists.
        -- rewrite length_app, <- Ek. cbn. lia.
        -- exact Hj.
      * cbn [excluded_endpoint_ids set_to]. eapply Nat.lt_le_trans; [|apply Nat.lt_succ_r; exact Hn].
        apply subset_size. cbn. set_solver.
    + intros _. eapply leave_after; [exact Ho|apply Hsr|by intros i; apply Hown|exact Hid|exact Hfin|]. intros r'. exists log. eexists.
      split_and!; eauto. right. split; [done|left]. intros (e' & [= <-] & E1 & E2 & E3). unfold retries in Ert. rewrite E1, E2 in Ert.
      destruct m; [done|]. cbn in E3, Ert. by rewrite (E3 eq_refl) in Ert.
  - destruct started; intros _.
    + eapply leave_after; [exact Ho|apply Hsr|by intros i; apply Hown|exact Hid|exact Hfin|]. intros r'. exists log. eexists. split_and!; eauto.
    + eapply (leave_after _ _ _ _ _ _ _ _ _ _ (Datatypes.S (2 * k))); [exact Ho|apply Hsr| |exact Hid|exact Hfin|].
      * apply (sr_before _ _ _ _ Hsr k); [apply own_slot_nonneg|exact Ha1].
      * intros r'. exists log. eexists. split_and!; eauto.
Qed.

End answers.

Lemma loop_start E q held m st ws :
  (forall i, active_at (rw_res st) i = held 0%nat i) -> routes_within E q st -> 
  loop_ok (fun n => dispatch_loop n 0 m st q new_trace [] None ws) q ws E held m 0 st new_trace [] None.
Proof. intros Ha Hr. constructor; try done. Qed.

Lemma walk_released E X log : walk E X log -> Forall (fun a => released (at_reservation a) = true) log.
Proof. revert X; induction log as [|a log IH]; intros X; [done|]. intros (_ & _ & Hr & Hw). constructor; [done|by eapply IH]. Qed.

Lemma walk_selected E X log y : walk E X log -> y ∈ log -> at_selected y ∉ X.
Proof.
  revert X; induction log as [|a log IH]; intros X; [by intros _ ?%not_elem_of_nil|].
  intros (Hs & _ & _ & Hw) [->|Hin]%elem_of_cons; [set_solver|]. specialize (IH _ Hw Hin). set_solver.
Qed.

Lemma walk_fresh E X log i j x y :
  walk E X log -> log !! i = Some x -> log !! j = Some y -> (i < j)%nat -> at_selected y <> at_final x.
Proof.
  revert X i j; induction log as [|a log IH]; intros X i j; [by rewrite lookup_nil|]. intros (_ & _ & _ & Hw).
  destruct j as [|j]; [lia|]. cbn. destruct i as [|i]; cbn; [|intros Hi Hj ?; eapply IH; eauto; lia].
  intros [= ->] Hj _. apply list_elem_of_lookup_2 in Hj. pose proof (walk_selected _ _ _ _ Hw Hj). set_solver.
Qed.

(** C18: a RouteWise request ends.  However the endpoints fail and whatever other
    requests and route refreshes do meanwhile, when the model's routes stay within a set
    of endpoints, the loop makes at most one attempt per endpoint of that set and then
    answers: each attempt is on a route that has not failed this request before, and no
    two attempts end on the same endpoint.  Every attempt but the last failed with a
    retryable error before any output reached the client.  The answer is the response of
    the last attempt; the error of the last attempt, when that may not be retried or the
    next selection finds no route; what the recording of the last attempt's failure
    raised; or what the next selection itself raised, which after a refresh that dropped
    the model is that it has no route.  The errors that say that no circuit, target or
    route was available are only raised when nothing was attempted and the first selection
    finds nothing. *)
Theorem rw_dispatch_ends E q held ws m st :
  surroundings E q held ws -> routes_within E q st -> (forall i, active_at (rw_res st) i = held 0%nat i) ->
  let '(_, _, log, a) := rw_dispatch m (size E) st q ws in
  a <> Unfinished /\ (length log <= size E)%nat /\ NoDup (at_final <$> log) /\
  (forall i j x y, log !! i = Some x -> log !! j = Some y -> (i < j)%nat -> at_selected y <> at_final x) /\
  answer_ok (fun n => dispatch_loop n 0 m st q new_trace [] None ws) q ws m log a.
Proof.
  intros Hsr Hr Ha. pose proof (dispatch_loop_spec _ q ws E held m Hsr (Datatypes.S (size E)) 0 st new_trace [] None
    (loop_start E q held m st ws Ha Hr)) as Hf. unfold rw_dispatch.
  destruct (dispatch_loop _ _ _ _ _ _ _ _ _) as [[[st' t] log] a]. destruct Hf as (_ & Hw & Hans).
  { cbn. rewrite difference_empty_L. lia. }
  split_and!; try done; [by destruct a|by apply walk_length|by eapply walk_NoDup|].
  intros i j x y Hi Hj Hij. by eapply walk_fresh.
Qed.

(** C20: A RouteWise request gives back every slot it takes.  Every attempt's
    reservation is released, also when the run fails, is cancelled or is never started;
    and when the request is over, what is in use on every concurrency manager is what the
    other requests hold, whatever they took and returned meanwhile. *)
Theorem rw_dispatch_releases E q held ws m st :
  surroundings E q held ws -> routes_within E q st -> (forall i, active_at (rw_res st) i = held 0%nat i) ->
  let '(st', _, log, _) := rw_dispatch m (size E) st q ws in
  Forall (fun a => released (at_reservation a) = true) log /\
  exists j, forall i, active_at (rw_res st') i = held j i.
Proof.
  intros Hsr Hr Ha. pose proof (dispatch_loop_spec _ q ws E held m Hsr (Datatypes.S (size E)) 0 st new_trace [] None
    (loop_start E q held m st ws Ha Hr)) as Hf. unfold rw_dispatch.
  destruct (dispatch_loop _ _ _ _ _ _ _ _ _) as [[[st' t] log] a]. destruct Hf as (Hj & Hw & _).
  { cbn. rewrite difference_empty_L. lia. }
  split; [by eapply walk_released|done].
Qed.

(** C40: An exact dispatch that names its model by an alias is misreported.  For an
    endpoint that is one of the model's routes but cannot be dispatched now, the request
    under the model's own name fails with [TargetUnavailableError]; the same request under
    an alias fails with [AllCircuitsOpenError] when a circuit refused it, and as a model
    with no route when nothing was noted, because the routes are looked up under the
    alias. *)
Theorem alias_exact_dispatch_misreported st q q' x id :
  sv_required_endpoint q = Some id -> sv_required_endpoint q' = Some id ->
  sv_model_id q' = canonical_model_id st (sv_model_id q) ->
  rw_candidates st !! sv_model_id q = None ->
  id ∈ rc_endpoint_id <$> default [] (rw_candidates st !! canonical_model_id st (sv_model_id q)) ->
  _no_decision_error st q' x = TargetUnavailableError /\
  (admission_refused x <> ∅ -> _no_decision_error st q x = AllCircuitsOpenError) /\
  (admission_refused x = ∅ -> capacity_refused x = ∅ -> _no_decision_error st q x = NoRouteError).
Proof.
  intros Eq Eq' Em En Hin. unfold _no_decision_error. rewrite Eq, Eq', Em, En, (bool_decide_true _ Hin).
  rewrite (bool_decide_false (id ∈ _)) by (cbn; apply not_elem_of_nil). split_and!; [done| |].
  - intros Hx. by rewrite (bool_decide_false _ Hx).
  - intros -> ->. by rewrite !bool_decide_true.
Qed.
End dispatch.

(** ** Instances at concrete values *)

Module DispatchSample.
Import RouteWiseSample.
#[export] Existing Instance SampleRoute.texts0.
#[export] Instance plain_exceptions : Exceptions := {
  class_name := fun _ => "ClientResponseError"; exn_text := fun _ => "503"; is_network_error := fun _ => false }.

Definition unavailable : exn := Exn ClientResponseError
  {| attr_status := Some 503%Z; attr_status_code := None; attr_code := None; attr_response := None |}.

(** The first attempt fails with a 503, the second one answers. *)
Definition turns (k : nat) : @turn unit unit :=
  Turn (rd 1) (dr 1) (Sample.at_time 1) id (bool_decide (k <> 0%nat)) (Sample.at_time 2) [] id
    (fun _ => None) (if decide (k = 0%nat) then Failed unavailable else Served) false (Sample.at_time 2).

Definition endpoints : gset string := {["east"%string; "west"%string]}.
Definition ran : @rw unit unit * trace * list attempted * rw_answer :=
  rw_dispatch cfg Chat (size endpoints) st0 ask turns.

(** The same request, for [west] only. *)
Definition exact (model : string) : @solve unit unit := Solve model "req-1" ∅ None (Some "west"%string) None true 100 50 None None.

Lemma quiet : surroundings endpoints ask (fun _ _ => 0%Z) turns.
Proof.
  constructor; try done; intros k st x _ Ha m; exact (Ha m).
Qed.

Lemma routed : routes_within endpoints ask st0.
Proof.
  intros c. change (default [] _) with [east; west].
  intros [->|[->|[]%not_elem_of_nil]%elem_of_cons]%elem_of_cons; unfold endpoints; set_solver.
Qed.

Lemma idle i : active_at (rw_res st0) i = 0%Z.
Proof. by destruct i as [|[|i]]. Qed.
End DispatchSample.

Import RouteWiseSample DispatchSample.

(** [west] is tried and fails, then [east] answers. *)
Lemma rw_dispatch_ends_witness :
  ran.2 = Answered "east" /\ (at_selected <$> ran.1.2) = ["west"%string; "east"%string] /\
  answer_ok cfg (fun n => dispatch_loop cfg n 0 Chat st0 ask new_trace [] None turns) ask turns Chat ran.1.2 ran.2.
Proof.
  split_and!; [vm_compute; reflexivity..|]. pose proof (rw_dispatch_ends cfg endpoints ask _ turns Chat st0 quiet routed idle) as Hd.
  unfold ran. destruct (rw_dispatch _ _ _ _ _ _) as [[[st t] log] a]. apply Hd.
Defined.

Lemma rw_dispatch_releases_witness :
  Forall (fun a => released (at_reservation a) = true) ran.1.2 /\ active_at (rw_res ran.1.1.1) 0%nat = 0%Z.
Proof.
  pose proof (rw_dispatch_releases cfg endpoints ask _ turns Chat st0 quiet routed idle) as Hd.
  unfold ran. destruct (rw_dispatch _ _ _ _ _ _) as [[[st t] log] a]. destruct Hd as (Hr & j & Hj). split; [exact Hr|exact (Hj 0%nat)].
Defined.

Lemma alias_exact_dispatch_misreported_witness :
  _no_decision_error st0 (exact "m") (SolveRefusals {["west"%string]} ∅ ∅) = TargetUnavailableError /\
  _no_decision_error st0 (exact "alias") (SolveRefusals {["west"%string]} ∅ ∅) = AllCircuitsOpenError.
Proof.
  destruct (alias_exact_dispatch_misreported st0 (exact "alias") (exact "m") (SolveRefusals {["west"%string]} ∅ ∅) "west")
    as (E1 & E2 & _); try reflexivity.
  - change (default [] _) with [east; west]. set_solver.
  - split; [exact E1|]. apply E2. cbn. set_solver.
Defined.
