(* ===== verification/HedgeRace.v ===== *)
(** A hedged attempt of RouteWise: which backup it may use
    ([RouteWiseRouter._select_checkpoint_backup]) and the race of a primary stream against
    it ([HedgedAdapter._race_streams], [stream_chat_completion], [_finish_stream_backup],
    routing/routewise/hedging.py).

    The race sleeps in [asyncio.wait]; what it finds when it wakes (which of its tasks are
    done, and with what) is a [wake], and a run is any list of them.  The backup's
    reservation is an event when it is taken and when it is given back. *)

From S2P Require Import Prelude PyText UsageLimit Failures CircuitBreaker EndpointHealth Offload RouteSelection ResourcePools RouteCandidates RouteEstimates PendingPrefix RouteWise RouteWiseDispatch.

Local Open Scope Z_scope.

(** ** Choosing a backup *)

Section backup.
Local Open Scope Q_scope.
Context {B S : Type}.

(** [BackupCandidate] of [llm_routewise.core] *)
Record backup_candidate : Type := BackupCandidate {
  bc_provider : feasible_candidate;
  success_probability : Q;
  marginal_cost : Q;
  true_mean_ms : Q
}.

(** [combined_success_probability] (the two latency distributions in milliseconds, the
    elapsed time and the objective) and [select_probability_backup] *)
Class HedgeCore := {
  combined_success_probability : (Q -> Q) -> (Q -> Q) -> Q -> Q -> Q;
  select_probability_backup : list backup_candidate -> option backup_candidate
}.

Context `{Adapters} `{RouteConfigs} `{LocalTime} `{RouteWiseCore} `{Pricing} `{HedgeCore}.
Variable cfg : rw_config.

Notation rw := (@rw B S).
Notation solve := (@solve B S).

(** [_routing_dollar_estimate] *)
Definition _routing_dollar_estimate (c : feasible_candidate) : Q :=
  match fc_provider_type c with ON_DEMAND => fc_effective_cost_usd c | _ => fc_request_cost_usd c end.

(** One candidate of [_select_hedge_candidate_at_elapsed]: not the primary, and profiled. *)
Definition backup_option (st : rw) (primary : profile) (selected : feasible_candidate) (now elapsed_sec slo_sec : Q)
    (c : feasible_candidate) : option backup_candidate :=
  if decide (fc_endpoint_id c = fc_endpoint_id selected) then None
  else
    match rw_profiles st !! fc_endpoint_id c with
    | None => None
    | Some p =>
        Some (BackupCandidate c
          (combined_success_probability (fun ms => cdf_at primary (ms / 1000) now) (fun ms => cdf_at p (ms / 1000) now)
             (elapsed_sec * 1000) (slo_sec * 1000))
          (_routing_dollar_estimate c) (fc_mean_ttft_sec c * 1000))
    end.

(** [_select_hedge_candidate_at_elapsed] *)
Definition _select_hedge_candidate_at_elapsed (st : rw) (primary : profile) (cs : list feasible_candidate)
    (selected : feasible_candidate) (now elapsed_sec slo_sec : Q) : option backup_candidate :=
  select_probability_backup (omap (backup_option st primary selected now elapsed_sec slo_sec) cs).

(** A checkpoint that is [elapsed], and one still to come with a backup of its own. *)
Definition at_checkpoint (checkpoints : list Q) (elapsed : Q) : bool :=
  existsb (fun c => bool_decide (Qabs.Qabs (c - elapsed) <= 1 # 1000000000)) checkpoints.

Definition later_backup (st : rw) (primary : profile) (cs : list feasible_candidate) (selected : feasible_candidate)
    (now elapsed slo_sec : Q) (checkpoints : list Q) : bool :=
  existsb (fun c => negb (bool_decide (c <= elapsed + (1 # 1000000000))) &&
                    bool_decide (is_Some (_select_hedge_candidate_at_elapsed st primary cs selected now c slo_sec))) checkpoints.

(** [_select_checkpoint_backup], and [_start_backup_at] around it, which takes an
    exception of the selector for a refusal; [dr] holds the commit's clocks and whether
    recording the dispatch fails. *)
Definition _select_checkpoint_backup (st : rw) (q : solve) (excluded : gset string) (rd : reading) (dr : draw)
    (selected : feasible_candidate) (checkpoints : list Q) (slo_sec elapsed_sec : Q) :
    rw * option (feasible_candidate * reservation) :=
  match rw_profiles st !! fc_endpoint_id selected with
  | None => (st, None)
  | Some primary =>
      match _build_candidates cfg st q rd with
      | (st, Raise _) => (st, None)
      | (st, Ok b) =>
          let cs := filter (fun c => fc_endpoint_id c ∉ excluded) (b_candidates b) in
          match _select_hedge_candidate_at_elapsed st primary cs selected (rd_now rd) elapsed_sec slo_sec with
          | None => (st, None)
          | Some current =>
              if at_checkpoint checkpoints elapsed_sec &&
                 later_backup st primary cs selected (rd_now rd) elapsed_sec slo_sec checkpoints
              then (st, None)
              else
                match _commit_candidate (rw_res st) (dr_commit dr) (dr_quota_now dr) (bc_provider current) with
                | (res, None) => (st <| rw_res := res |>, None)
                | (res, Some r) =>
                    match dr_setup dr with
                    | Some _ => (st <| rw_res := (release_reservation res r).1 |>, None)
                    | None => (st <| rw_res := res |>, Some (bc_provider current, r))
                    end
                end
          end
      end
  end.

(** What the router relies on: the backup chosen is one of those offered. *)
Class HedgeCoreOk : Prop :=
  backup_offered l c : select_probability_backup l = Some c -> c ∈ l.
Context `{HedgeCoreOk}.

Lemma hedge_candidate_in (st : rw) p cs selected now el slo c :
  _select_hedge_candidate_at_elapsed st p cs selected now el slo = Some c ->
  bc_provider c ∈ cs /\ fc_endpoint_id (bc_provider c) <> fc_endpoint_id selected.
Proof.
  intros Hs%backup_offered. apply list_elem_of_omap in Hs as (f & Hf & E). unfold backup_option in E.
  case_decide; [done|]. destruct (rw_profiles st !! _); [|done]. by injection E as <-.
Qed.

(** The feasible set, without what the request excludes. *)
Lemma build_candidates_from (st : rw) (q : solve) rd :
  let '(st', b) := _build_candidates cfg st q rd in
  still (rw_res st) (rw_res st') /\ same_routes st st' /\
  match b with
  | Ok b => Forall (from_routes q (default [] (rw_candidates st !! canonical_model_id st (sv_model_id q)))) (b_candidates b)
  | Raise _ => True
  end.
Proof.
  unfold _build_candidates. destruct (rw_candidates st !! _) as [entries|]; [|split_and!; [reflexivity|reflexivity|done]].
  pose proof (build_loop_spec cfg q rd entries st (Built [] [] ∅ ∅ ∅ (bool_decide (sv_modalities q = ∅))) entries
    (fun _ Hc => Hc) (Forall_nil_2 _)) as Hb.
  destruct (build_loop cfg st q rd entries _) as [st1 b]. destruct Hb as (Hs & Hr & Hall).
  split_and!; try done. by destruct (b_match b).
Qed.

(** C22: A backup is a route the request may use, other than the one it backs up.  When
    a hedge is started, its endpoint is one of the model's routes in the caller's range,
    accepts the request's media, was not excluded by an earlier failure and is not the
    primary's; and it owns a dispatch claim on that endpoint and, for a
    concurrency-limited one and no other, one slot.  When no hedge is started, for any
    reason, an error while it is recorded included, no slot and no probe is held that was
    not held before. *)
Theorem hedge_backup_sound (st : rw) (q : solve) excluded rd dr selected checkpoints slo el :
  (forall m, 0 <= active_at (rw_res st) m)%Z ->
  let '(st', x) := _select_checkpoint_backup st q excluded rd dr selected checkpoints slo el in
  match x with
  | Some (f, r) =>
      from_routes q (default [] (rw_candidates st !! canonical_model_id st (sv_model_id q))) f /\
      fc_endpoint_id f ∉ excluded /\ fc_endpoint_id f <> fc_endpoint_id selected /\ released r = false /\
      (exists t, rs_claim r = Some (DispatchClaim (fc_endpoint_id f) t)) /\
      (is_Some (rs_slot r) <-> fc_provider_type f = CONCURRENCY) /\
      (forall m, active_at (rw_res st') m = (active_at (rw_res st) m + if decide (rs_slot r = Some m) then 1 else 0)%Z)
  | None => still (rw_res st) (rw_res st')
  end.
Proof.
  intros Hn. unfold _select_checkpoint_backup. destruct (rw_profiles st !! _) as [primary|]; [|reflexivity].
  pose proof (build_candidates_from st q rd) as Hb. destruct (_build_candidates cfg st q rd) as [st1 [b|e]]; [|apply Hb].
  destruct Hb as (Hs & Hr & Hall). set (cs := filter _ (b_candidates b)).
  destruct (_select_hedge_candidate_at_elapsed st1 primary cs selected _ el slo) as [cur|] eqn:Ec; [|exact Hs].
  destruct (hedge_candidate_in _ _ _ _ _ _ _ _ Ec) as [Hin Hne]. apply list_elem_of_filter in Hin as [Hex Hin].
  destruct (at_checkpoint _ _ && _); [exact Hs|].
  assert (forall m, 0 <= active_at (rw_res st1) m)%Z as Hn1 by (intros m; rewrite (proj1 Hs); apply Hn).
  pose proof (commit_spec (rw_res st1) (dr_commit dr) (dr_quota_now dr) (bc_provider cur)) as Hc.
  destruct (_commit_candidate _ _ _ (bc_provider cur)) as [res [r|]] eqn:Ecm; [|etrans; [exact Hs|exact Hc]].
  destruct Hc as (Hrel & Ha & _ & _). destruct (commit_claim _ _ _ _ _ _ Ecm) as [Hcl Hsl].
  destruct (dr_setup dr) as [e|]; [etrans; [exact Hs|]; by eapply commit_release_still|].
  rewrite Forall_forall in Hall. split_and!; try done; [by apply Hall|]. intros m. cbn. rewrite Ha, (proj1 Hs). unfold takes.
  repeat case_decide; congruence.
Qed.
End backup.

(** ** The race *)

Inductive leg : Type := Primary | Backup.
#[export] Instance leg_eq_dec : EqDecision leg.
Proof. solve_decision. Defined.

Definition same_leg (l l' : leg) : bool :=
  match l, l' with Primary, Primary | Backup, Backup => true | _, _ => false end.

(** What [__anext__] of a stream came to: a chunk (whether it has content, its size), the
    end of the stream, or an error. *)
Inductive pull : Type :=
| Chunk (content : bool) (bytes : Z)
| Exhausted
| Broke (e : exn).

(** What a wake finds: the timer, the two streams, the deadline; and what the selector
    answers if it is asked at the timer, or after the primary's failure. *)
Record wake : Type := Wake {
  wk_timer : bool;
  wk_primary : option pull;
  wk_backup : option pull;
  wk_deadline : bool;
  wk_at_timer : option string;
  wk_at_failure : option string
}.

(** What the race does to the rest of the program. *)
Inductive race_event : Type :=
| Succeeded (l : leg)                 (* [record_success] *)
| Broken (l : leg) (e : exn)          (* [record_failure], and a failed attempt *)
| Took (backup : string)              (* a backup's reservation *)
| GaveBack.                           (* its release *)

(** The variables of [_race_streams] and the backup's of the adapter. *)
Record race : Type := Race {
  primary_bytes : Z;
  backup_bytes : Z;
  primary_done : bool;
  primary_next : bool;                (* [primary_next_task is not None] *)
  backup : option string;             (* [backup_started], and the backup's endpoint *)
  backup_next : bool;
  hedge_timer : bool;
  checkpoints_left : nat;
  primary_error : option exn;
  backup_released : bool;             (* [_stream_backup_released] *)
  cleanup_task : bool                 (* [_stream_backup_cleanup_task is not None] *)
}.
#[export] Instance eta_race : Eta race := fun r =>
  Race (primary_bytes r) (backup_bytes r) (primary_done r) (primary_next r) (backup r) (backup_next r) (hedge_timer r)
    (checkpoints_left r) (primary_error r) (backup_released r) (cleanup_task r).

(** How the race ends: a winner, or an exception. *)
Inductive race_end : Type :=
| Won (l : leg)
| RaceRaised (e : exn).

Definition _STREAM_RACE_BUFFER_MAX_BYTES : Z := 1000000.

(** [HedgeStreamRaceTimeout], and [HedgeBackupUnavailable] among the exceptions *)
Class HedgeErrors := {
  race_timeout : exn;
  is_backup_unavailable : exn -> bool
}.

Section race.
Context `{HedgeErrors}.

(** [_next_checkpoint_task] *)
Definition _next_checkpoint_task (r : race) : race :=
  match checkpoints_left r with
  | O => r <| hedge_timer := false |>
  | S n => (r <| hedge_timer := true |>) <| checkpoints_left := n |>
  end.

(** The start: the first checkpoint's timer, and the primary's first chunk. *)
Definition new_race (checkpoints : nat) : race :=
  _next_checkpoint_task (Race 0 0 false true None false false checkpoints None false false).

(** [_start_stream_backup], given the selector's answer *)
Definition _start_stream_backup (r : race) (answer : option string) : race * list race_event * bool :=
  match answer with
  | None => (r, [], false)
  | Some id =>
      ((((r <| backup := Some id |>) <| backup_next := true |>) <| backup_released := false |>) <| cleanup_task := false |>,
       [Took id], true)
  end.

(** [_finish_stream_backup], when it is not the cleanup task that calls it *)
Definition _finish_stream_backup (r : race) : race * list race_event :=
  match backup r with
  | None => (r, [])
  | Some _ => if backup_released r || cleanup_task r then (r, [])
              else (r <| backup_released := true |>, [GaveBack])
  end.

(** [_schedule_stream_backup_cleanup] *)
Definition _schedule_stream_backup_cleanup (r : race) : race :=
  match backup r with
  | None => r
  | Some _ => if backup_released r || cleanup_task r then r else r <| cleanup_task := true |>
  end.

(** A wake's timer *)
Definition on_timer (r : race) (w : wake) : race * list race_event :=
  if wk_timer w && hedge_timer r then
    let r := r <| hedge_timer := false |> in
    if bool_decide (backup r = None) && negb (primary_done r) then
      let '(r, evs, started) := _start_stream_backup r (wk_at_timer w) in
      (if started then r else _next_checkpoint_task r, evs)
    else (r, [])
  else (r, []).

(** The winner's side of a wake. *)
Definition finish_primary (r : race) : race * list race_event * option race_end :=
  (_schedule_stream_backup_cleanup r, [Succeeded Primary], Some (Won Primary)).

(** A wake's backup: whether it has content. *)
Definition on_backup (r : race) (live : bool) (w : wake) : race * list race_event * bool :=
  if negb live then (r, [], false)
  else
    match wk_backup w with
    | None => (r, [], false)
    | Some (Chunk content bytes) =>
        let r := r <| backup_bytes := backup_bytes r + bytes |> in
        (r, [], content || bool_decide (_STREAM_RACE_BUFFER_MAX_BYTES <= backup_bytes r))
    | Some Exhausted =>
        let '(r, evs) := _finish_stream_backup r in (r <| backup_next := false |>, evs, false)
    | Some (Broke e) =>
        let '(r, evs) := _finish_stream_backup r in
        (r <| backup_next := false |>, evs ++ (if is_backup_unavailable e then [] else [Broken Backup e]), false)
    end.

(** The deadline, when nobody has won. *)
Definition on_deadline (r : race) : list race_event :=
  (if primary_done r then [] else [Broken Primary race_timeout]) ++
  (if bool_decide (backup r <> None) && backup_next r then [Broken Backup race_timeout] else []).

(** The rest of a wake, once the primary is seen to: the backup, the decision, the deadline. *)
Definition decide_race (r : race) (live_backup has_content : bool) (w : wake) : race * list race_event * option race_end :=
  let '(r, evs, backup_has_content) := on_backup r live_backup w in
  if has_content then
    let '(r, evs', e) := finish_primary r in (r, evs ++ evs', e)
  else if backup_has_content then (r, evs ++ [Succeeded Backup], Some (Won Backup))
  else if wk_deadline w then (r, evs ++ on_deadline r, Some (RaceRaised race_timeout))
  else (r, evs, None).

(** One turn of the loop. *)
Definition race_step (r : race) (w : wake) : race * list race_event * option race_end :=
  let live_backup := backup_next r in
  let '(r, evs) := on_timer r w in
  let '(r, evs', e) :=
    if negb (primary_next r) then decide_race r live_backup false w
    else
      match wk_primary w with
      | None => decide_race r live_backup false w
      | Some (Chunk content bytes) =>
          let r := r <| primary_bytes := primary_bytes r + bytes |> in
          decide_race r live_backup (content || bool_decide (_STREAM_RACE_BUFFER_MAX_BYTES <= primary_bytes r)) w
      | Some Exhausted =>
          decide_race ((r <| primary_done := true |>) <| primary_next := false |>) live_backup false w
      | Some (Broke e) =>
          let r := ((r <| primary_error := Some e |>) <| primary_done := true |>) <| primary_next := false |> in
          match backup r with
          | None =>
              let '(r, evs', _) := _start_stream_backup (r <| hedge_timer := false |>) (wk_at_failure w) in
              (r, Broken Primary e :: evs', None)
          | Some _ => (r, [Broken Primary e], None)
          end
      end in
  (r, evs ++ evs', e).

(** Nothing left to wait for: both streams are over without content. *)
Definition exhausted (r : race) : bool := negb (primary_next r || backup_next r || hedge_timer r).

Definition on_exhausted (r : race) : list race_event * race_end :=
  match primary_error r with
  | Some e => ([], RaceRaised e)
  | None => ([Succeeded Primary], Won Primary)
  end.

(** [_race_streams] over the wakes it sees; [None] while it still waits.  Its handler
    finishes the backup when it raises. *)
Fixpoint _race_streams (r : race) (ws : list wake) : race * list race_event * option race_end :=
  if exhausted r then
    let '(evs, e) := on_exhausted r in
    match e with
    | Won _ => (r, evs, Some e)
    | RaceRaised _ => let '(r, evs') := _finish_stream_backup r in (r, evs ++ evs', Some e)
    end
  else
    match ws with
    | [] => (r, [], None)
    | w :: ws =>
        let '(r, evs, e) := race_step r w in
        match e with
        | None => let '(r, evs', e) := _race_streams r ws in (r, evs ++ evs', e)
        | Some (Won l) => (r, evs, e)
        | Some (RaceRaised _) => let '(r, evs') := _finish_stream_backup r in (r, evs ++ evs', e)
        end
    end.

(** What the rest of the winner's stream comes to: its end, an error of its own, or a
    caller that stops reading. *)
Inductive stream_rest : Type := Finishes | Breaks (e : exn) | Dropped.

(** How a hedged stream ends: the winner's stream to its end, the winner's error after it
    won, or the exception of the race. *)
Inductive stream_end : Type :=
| Served (l : leg)
| BrokeAfter (l : leg) (e : exn)
| Raised (e : exn).

(** The rest of the attempt, once the race is over: a primary that won by running out has
    nothing left to give. *)
Definition after_race (r : race) (rest : stream_rest) (e : option race_end) : option stream_end :=
  match e with
  | None => None
  | Some (RaceRaised x) => Some (Raised x)
  | Some (Won l) =>
      if same_leg l Primary && primary_done r then Some (Served l)
      else match rest with
           | Finishes => Some (Served l)
           | Breaks x => Some (BrokeAfter l x)
           | Dropped => None
           end
  end.

(** [stream_chat_completion]: the race, then the rest of the winner's stream, and the
    [finally]; and the cleanup task, if there is one, to its own end.  [None] is a request
    cancelled, or left by its caller; one cancelled in the race is unwound by the race's
    handler first, which finishes the backup as the [finally] does. *)
Definition hedged_stream (checkpoints : nat) (ws : list wake) (rest : stream_rest) :
    race * list race_event * option stream_end :=
  let '(r, evs, e) := _race_streams (new_race checkpoints) ws in
  let e := after_race r rest e in
  let '(r, evs') := _finish_stream_backup r in
  let cleanup := if cleanup_task r && negb (backup_released r) then [GaveBack] else [] in
  (r, evs ++ evs' ++ cleanup, e).

(** ** The race without streaming *)

(** The backup's task: asleep until a checkpoint (or just relaunched), running, over. *)
Inductive backup_task : Type := Asleep | Running | Over.

(** How a task is done: answered, failed, or, a backup's, without a backup to run. *)
Inductive task_result : Type :=
| Answer
| Fails (e : exn)
| NoBackup.

(** The variables of [HedgedAdapter.chat_completion]. *)
Record chat_race : Type := ChatRace {
  primary_pending : bool;
  backup_phase : backup_task;
  backup_past_sleep : bool;
  chat_error : option exn
}.
#[export] Instance eta_chat_race : Eta chat_race := fun r =>
  ChatRace (primary_pending r) (backup_phase r) (backup_past_sleep r) (chat_error r).

Definition new_chat_race : chat_race := ChatRace true Asleep false None.

(** What happens next: the backup's task reserves a backup and runs it, or
    [asyncio.wait] returns with the tasks done, in the order they are looked at. *)
Inductive chat_turn : Type :=
| Starts (backup : string)
| Wakes (done : list (leg * task_result)).

(** The backup's [finally], when its task stops. *)
Definition stop_backup (r : chat_race) : chat_race * list race_event :=
  (r <| backup_phase := Over |>, match backup_phase r with Running => [GaveBack] | _ => [] end).

(** The tasks that can be done: the primary's while it is pending, the backup's with a
    result of what it was doing. *)
Definition can_be_done (r : chat_race) (x : leg * task_result) : bool :=
  match x.1, x.2, backup_phase r with
  | Primary, (Answer | Fails _), _ => primary_pending r
  | Backup, (Answer | Fails _), Running => true
  | Backup, NoBackup, Asleep => true
  | _, _, _ => false
  end.

(** [done] is a set of the two tasks. *)
Definition distinct_legs (l : list (leg * task_result)) : bool :=
  match l with
  | [] | [_] => true
  | [x; y] => negb (same_leg x.1 y.1)
  | _ => false
  end.

(** [asyncio.wait] moves the done tasks out of [pending]. *)
Definition collect (r : chat_race) (done : list (leg * task_result)) : chat_race * list race_event :=
  let r := if existsb (fun x => same_leg x.1 Primary) done then r <| primary_pending := false |> else r in
  if existsb (fun x => same_leg x.1 Backup) done then stop_backup r else (r, []).

(** The body of [for task in done]. *)
Definition on_done (r : chat_race) (x : leg * task_result) : chat_race * list race_event * option race_end :=
  match x with
  | (Primary, Fails e) =>
      let r := r <| chat_error := Some e |> in
      (if backup_past_sleep r then r else r <| backup_phase := Asleep |>, [Broken Primary e], None)
  | (Primary, _) => let '(r, evs) := stop_backup r in (r, Succeeded Primary :: evs, Some (Won Primary))
  | (Backup, Fails e) => (r, [Broken Backup e], None)
  | (Backup, NoBackup) => (r, [], None)
  | (Backup, Answer) => (r <| primary_pending := false |>, [Succeeded Backup], Some (Won Backup))
  end.

Fixpoint done_loop (r : chat_race) (l : list (leg * task_result)) : chat_race * list race_event * option race_end :=
  match l with
  | [] => (r, [], None)
  | x :: l =>
      let '(r, evs, e) := on_done r x in
      match e with
      | Some _ => (r, evs, e)
      | None => let '(r, evs', e) := done_loop r l in (r, evs ++ evs', e)
      end
  end.

(** One turn; [Wakes] with tasks that cannot be done is no turn. *)
Definition chat_step (r : chat_race) (t : chat_turn) : chat_race * list race_event * option race_end :=
  match t with
  | Starts id =>
      match backup_phase r with
      | Asleep => ((r <| backup_phase := Running |>) <| backup_past_sleep := true |>, [Took id], None)
      | _ => (r, [], None)
      end
  | Wakes l =>
      if forallb (can_be_done r) l && distinct_legs l then
        let '(r, evs) := collect r l in
        let '(r, evs', e) := done_loop r l in (r, evs ++ evs', e)
      else (r, [], None)
  end.

(** [chat_completion]: the loop while a task is pending, and the handler that cancels
    the tasks left, which a cancellation of the request runs too. *)
Fixpoint hedged_chat (r : chat_race) (ts : list chat_turn) : chat_race * list race_event * option race_end :=
  match primary_pending r, backup_phase r with
  | false, Over =>
      match chat_error r with
      | Some e => (r, [], Some (RaceRaised e))
      | None => (r, [], None)      (* the [assert] *)
      end
  | _, _ =>
      match ts with
      | [] => let '(r, evs) := stop_backup r in (r, evs, None)
      | t :: ts =>
          let '(r, evs, e) := chat_step r t in
          match e with
          | Some _ => (r, evs, e)
          | None => let '(r, evs', e) := hedged_chat r ts in (r, evs ++ evs', e)
          end
      end
  end.

(** ** The books of a race *)

Definition is_success (l : leg) (ev : race_event) : bool :=
  match ev with Succeeded l' => same_leg l' l | _ => false end.
Definition is_failure (l : leg) (ev : race_event) : bool :=
  match ev with Broken l' _ => same_leg l' l | _ => false end.
Definition is_taking (ev : race_event) : bool := match ev with Took _ => true | _ => false end.
Definition is_giving (ev : race_event) : bool := match ev with GaveBack => true | _ => false end.

Fixpoint times (p : race_event -> bool) (evs : list race_event) : nat :=
  match evs with [] => 0 | ev :: evs => (if p ev then 1 else 0) + times p evs end.

Definition other (l : leg) : leg := match l with Primary => Backup | Backup => Primary end.

Lemma times_app p l k : times p (l ++ k) = (times p l + times p k)%nat.
Proof. induction l as [|x l IH]; cbn; [done|]. rewrite IH. lia. Qed.

(** The reservation: taken when a backup was started, given back when it was released. *)
Record reserved (r : race) (evs : list race_event) : Prop := {
  rv_took : times is_taking evs = if backup r then 1%nat else 0%nat;
  rv_gave : times is_giving evs = if backup_released r then 1%nat else 0%nat;
  rv_none : backup r = None -> backup_released r = false /\ cleanup_task r = false
}.

(** The race while nobody has won. *)
Record racing (r : race) (evs : list race_event) : Prop := {
  ra_reserved : reserved r evs;
  ra_cleanup : cleanup_task r = false;
  ra_success l : times (is_success l) evs = 0%nat;
  ra_primary : times (is_failure Primary) evs = if primary_error r then 1%nat else 0%nat;
  ra_error e : primary_error r = Some e -> Broken Primary e ∈ evs;
  ra_failed e : primary_error r = Some e -> primary_done r = true;
  ra_done : primary_next r = negb (primary_done r);
  ra_backup : (times (is_failure Backup) evs <= if backup_next r then 0 else if backup r then 1 else 0)%nat;
  ra_live : backup_next r = bool_decide (backup r <> None) && negb (backup_released r)
}.

(** The race when it is over. *)
Definition over (r : race) (evs : list race_event) (e : race_end) : Prop :=
  reserved r evs /\ (forall l, times (is_failure l) evs <= 1)%nat /\
  match e with
  | Won l => times (is_success l) evs = 1%nat /\ times (is_failure l) evs = 0%nat /\ times (is_success (other l)) evs = 0%nat /\
             (l = Backup -> is_Some (backup r))
  | RaceRaised x => (forall l, times (is_success l) evs = 0%nat) /\ (x = race_timeout \/ Broken Primary x ∈ evs)
  end.

Lemma start_racing n : racing (new_race n) [].
Proof. unfold new_race, _next_checkpoint_task. destruct n; (constructor; [constructor|..]); try done. Qed.

(** The proofs below take a state apart into its variables. *)
Local Ltac open_race r Hr :=
  destruct r as [pb bb pd pn bk bn ht cl pe rel ct]; destruct Hr as [[T G N] C SU P E F D K L]; cbn in T, G, N, C, P, E, F, D, K, L;
  subst ct pn.
Local Ltac close_race :=
  (constructor; [constructor|..]); cbn; rewrite ?times_app; cbn; try done; try lia;
  try (intros l; rewrite times_app; match goal with HS : forall l, times (is_success l) _ = _ |- _ => rewrite HS end; by destruct l).

Lemma on_timer_racing r evs w : racing r evs ->
  racing (on_timer r w).1 (evs ++ (on_timer r w).2) /\
  primary_next (on_timer r w).1 = primary_next r /\ primary_done (on_timer r w).1 = primary_done r /\
  primary_error (on_timer r w).1 = primary_error r /\ (backup_next r = true -> backup_next (on_timer r w).1 = true).
Proof.
  intros Hr. open_race r Hr. unfold on_timer, _start_stream_backup, _next_checkpoint_task. cbn.
  destruct (wk_timer w && ht); cbn; [|rewrite app_nil_r; split; [|done]; close_race].
  destruct bk as [id|]; cbn; [rewrite app_nil_r; split; [|done]; close_race|]. destruct (N eq_refl) as [-> _]. cbn in *. subst bn.
  destruct pd; cbn; [rewrite app_nil_r; split; [|done]; close_race|].
  destruct (wk_at_timer w) as [id|]; cbn.
  - split; [|done]. close_race. intros e He. specialize (E e He). set_solver.
  - destruct cl; cbn; (rewrite app_nil_r; split; [|done]; close_race).
Qed.

Lemma on_backup_racing r evs live w : racing r evs -> (live = true -> backup_next r = true) ->
  let '(r', evs', content) := on_backup r live w in
  racing r' (evs ++ evs') /\ primary_error r' = primary_error r /\ (content = true -> backup_next r' = true /\ is_Some (backup r')).
Proof.
  intros Hr Hl. open_race r Hr. unfold on_backup, _finish_stream_backup. destruct live; cbn; [|rewrite app_nil_r; split_and!; [|done..]; close_race].
  specialize (Hl eq_refl). cbn in Hl. subst bn. destruct bk as [id|]; [|done]. destruct rel; [done|]. cbn in *.
  destruct (wk_backup w) as [[content bytes| |e]|]; cbn; rewrite ?app_nil_r.
  - split_and!; [close_race|done|done].
  - split_and!; [close_race|done|done]. intros e He. specialize (E e He). set_solver.
  - split_and!; [|done|done]. destruct (is_backup_unavailable e); close_race; intros e' He; specialize (E e' He); set_solver.
  - split_and!; [close_race|done|done].
Qed.

(** What a turn leaves behind. *)
Definition after_turn (r : race) (evs : list race_event) (e : option race_end) : Prop :=
  match e with None => racing r evs | Some e => over r evs e end.

Lemma decide_racing r evs live has_content w :
  racing r evs -> (live = true -> backup_next r = true) -> (has_content = true -> primary_error r = None) ->
  let '(r', evs', e) := decide_race r live has_content w in after_turn r' (evs ++ evs') e.
Proof.
  intros Hr Hl Hc. unfold decide_race. pose proof (on_backup_racing r evs live w Hr Hl) as Hb.
  destruct (on_backup r live w) as [[r1 evs1] content]. destruct Hb as (Hr1 & Ep & Hcb). rewrite <- Ep in Hc.
  destruct has_content.
  - specialize (Hc eq_refl). cbn. rewrite app_assoc. set (evs2 := evs ++ evs1) in *. clearbody evs2. clear -Hr1 Hc.
    open_race r1 Hr1. cbn in Hc. subst pe. cbn in *. unfold _schedule_stream_backup_cleanup. cbn.
    split_and!; rewrite ?times_app; cbn.
    + destruct bk as [id|]; [destruct rel|]; (constructor; cbn; rewrite ?times_app; cbn; [lia|lia|done]).
    + intros []; rewrite times_app; cbn; [lia|]. destruct bn, bk; lia.
    + rewrite SU. lia.
    + lia.
    + rewrite SU. lia.
    + done.
  - destruct content.
    + destruct (Hcb eq_refl) as [Hn Hk]. cbn. rewrite app_assoc. set (evs2 := evs ++ evs1) in *. clearbody evs2. clear -Hr1 Hn Hk.
      open_race r1 Hr1. cbn in Hn, Hk. subst bn. rewrite Hn in K. split_and!; rewrite ?times_app; cbn.
      * constructor; cbn; rewrite ?times_app; cbn; [lia|lia|done].
      * intros []; rewrite times_app; cbn; [destruct pe; lia|lia].
      * rewrite SU. lia.
      * lia.
      * rewrite SU. lia.
      * done.
    + destruct (wk_deadline w); [|done]. cbn. rewrite app_assoc. set (evs2 := evs ++ evs1) in *. clearbody evs2. clear -Hr1.
      open_race r1 Hr1. unfold on_deadline. cbn. split_and!.
      * constructor; cbn; rewrite ?times_app; destruct pd, (bool_decide (bk <> None) && bn); cbn; try done; lia.
      * intros l. rewrite !times_app. destruct pd; cbn.
        -- destruct (bool_decide (bk <> None)) eqn:Eb; cbn; destruct bn, l; cbn; try (destruct pe; lia); destruct bk; lia.
        -- destruct pe as [e|]; [by specialize (F e eq_refl)|].
           destruct (bool_decide (bk <> None)) eqn:Eb; cbn; destruct bn, l; cbn; try lia; destruct bk; lia.
      * intros l. rewrite !times_app, SU. destruct pd, (bool_decide (bk <> None) && bn); by destruct l.
      * by left.
Qed.

(** The primary's stream ends, with an error or without. *)
Lemma primary_over_racing r evs e :
  racing r evs -> primary_next r = true ->
  racing (((r <| primary_error := e |>) <| primary_done := true |>) <| primary_next := false |>)
    (evs ++ match e with Some e => [Broken Primary e] | None => [] end).
Proof.
  intros Hr Hn. open_race r Hr. cbn in Hn. destruct pd; [done|]. destruct pe as [e0|]; [by specialize (F e0 eq_refl)|].
  destruct e as [e|]; [|rewrite app_nil_r; close_race]. close_race. intros e' [= <-]. set_solver.
Qed.

Lemma start_backup_racing r evs answer :
  racing r evs -> backup r = None -> let '(r', evs', _) := _start_stream_backup (r <| hedge_timer := false |>) answer in racing r' (evs ++ evs').
Proof.
  intros Hr Hb. open_race r Hr. cbn in Hb. subst bk. destruct (N eq_refl) as [-> _]. cbn in L. subst bn. unfold _start_stream_backup.
  destruct answer as [id|]; cbn; [|rewrite app_nil_r; close_race]. close_race. intros e He. specialize (E e He). set_solver.
Qed.

Lemma step_racing r evs w :
  racing r evs -> let '(r', evs', e) := race_step r w in after_turn r' (evs ++ evs') e.
Proof.
  intros Hr. unfold race_step. pose proof (on_timer_racing r evs w Hr) as Ht. destruct (on_timer r w) as [r1 evs1].
  destruct Ht as (Hr1 & En & Ed & Ee & Hl). cbn [fst snd] in *.
  assert (forall r2 evs2 c, racing r2 ((evs ++ evs1) ++ evs2) -> (backup_next r = true -> backup_next r2 = true) ->
    (c = true -> primary_error r2 = None) ->
    let '(r', evs', e) := let '(r', evs', e) := decide_race r2 (backup_next r) c w in (r', evs1 ++ evs2 ++ evs', e) in
    after_turn r' (evs ++ evs') e) as Hd.
  { intros r2 evs2 c Hr2 Hl2 Hc. pose proof (decide_racing r2 _ (backup_next r) c w Hr2 Hl2 Hc) as Hd.
    destruct (decide_race r2 _ c w) as [[r' evs'] e]. by rewrite <- !app_assoc in Hd. }
  assert (primary_next r1 = true -> primary_error r1 = None) as Hpe.
  { intros Hn. destruct Hr1 as [_ _ _ _ _ F D _ _]. rewrite Hn in D. destruct (primary_error r1) as [e|] eqn:Epe; [|done].
    rewrite (F e eq_refl) in D. done. }
  destruct (primary_next r1) eqn:Epn; cbn [negb].
  2:{ specialize (Hd r1 [] false). rewrite app_nil_r in Hd. specialize (Hd Hr1 Hl (fun E => match Bool.diff_false_true E with end)).
      by destruct (decide_race r1 _ false w) as [[r' evs'] e]. }
  destruct (wk_primary w) as [[content bytes| |e]|].
  - set (r2 := r1 <| primary_bytes := _ |>). specialize (Hd r2 [] (content || bool_decide (_STREAM_RACE_BUFFER_MAX_BYTES <= primary_bytes r2))).
    rewrite app_nil_r in Hd. unshelve epose proof (Hd _ Hl (fun _ => Hpe eq_refl)) as Hd'.
    { destruct Hr1 as [[]]. (constructor; [constructor|..]); done. }
    by destruct (decide_race r2 _ _ w) as [[r' evs'] e].
  - pose proof (primary_over_racing r1 _ None Hr1 Epn) as Hr2. specialize (Hd _ [] false Hr2 Hl (fun E => match Bool.diff_false_true E with end)).
    set (r2 := (r1 <| primary_done := true |>) <| primary_next := false |>).
    assert (r2 = ((r1 <| primary_error := None |>) <| primary_done := true |>) <| primary_next := false |>) as ->.
    { unfold r2. destruct r1. cbn in *. by rewrite (Hpe eq_refl). }
    by destruct (decide_race _ _ _ w) as [[r' evs'] e].
  - pose proof (primary_over_racing r1 _ (Some e) Hr1 Epn) as Hr2. set (r2 := _ <| primary_next := false |>) in *.
    destruct (backup r2) as [id|] eqn:Eb; cbn [after_turn]; [by rewrite app_assoc|].
    pose proof (start_backup_racing r2 _ (wk_at_failure w) Hr2 Eb) as Hs.
    destruct (_start_stream_backup _ _) as [[r3 evs3] b]. cbn [after_turn]. rewrite <- !app_assoc in Hs. exact Hs.
  - specialize (Hd r1 [] false). rewrite app_nil_r in Hd. specialize (Hd Hr1 Hl (fun E => match Bool.diff_false_true E with end)).
    by destruct (decide_race r1 _ false w) as [[r' evs'] e].
Qed.

(** Finishing the backup settles the reservation, unless the cleanup task does. *)
Lemma finish_reserved r evs :
  reserved r evs -> let '(r', evs') := _finish_stream_backup r in
  reserved r' (evs ++ evs') /\ backup r' = backup r /\ cleanup_task r' = cleanup_task r /\
  (forall p, p GaveBack = false -> times p (evs ++ evs') = times p evs) /\
  (forall x, x ∈ evs -> x ∈ evs ++ evs') /\ (is_Some (backup r') -> backup_released r' = true \/ cleanup_task r' = true).
Proof.
  intros [T G N]. unfold _finish_stream_backup. destruct (backup r) as [id|] eqn:Eb.
  2:{ rewrite app_nil_r. split_and!; try done; [constructor; by rewrite ?Eb|]. rewrite Eb. by intros [? ?]. }
  destruct (backup_released r || cleanup_task r) eqn:Er.
  - rewrite app_nil_r. split_and!; try done; [constructor; by rewrite ?Eb|]. intros _. by apply orb_true_iff in Er.
  - apply orb_false_iff in Er as [Er Ec]. rewrite Er in G. split_and!; try done; [| |set_solver|cbn; by left].
    + constructor; cbn; rewrite ?times_app, ?Eb; cbn; try done; lia.
    + intros p Hp. rewrite times_app. cbn. rewrite Hp. lia.
Qed.

Lemma over_finish r evs e :
  over r evs e -> let '(r', evs') := _finish_stream_backup r in
  over r' (evs ++ evs') e /\ (is_Some (backup r') -> backup_released r' = true \/ cleanup_task r' = true).
Proof.
  intros (Hr & Hf & He). pose proof (finish_reserved r evs Hr) as Hfin. destruct (_finish_stream_backup r) as [r' evs'].
  destruct Hfin as (Hr' & Eb & _ & Ht & Hin & Hset). split; [|done]. split_and!; [done|intros l; by rewrite Ht|].
  destruct e as [l|x]; [by rewrite !Ht, Eb|]. split; [intros l; rewrite Ht; [apply He|done]|].
  destruct He as [_ [?|?]]; [by left|right; auto].
Qed.

Lemma exhausted_over r evs : racing r evs -> over r (evs ++ (on_exhausted r).1) (on_exhausted r).2.
Proof.
  intros Hr. open_race r Hr. unfold on_exhausted. cbn. destruct pe as [e|]; cbn.
  - rewrite app_nil_r. split_and!; [by constructor| |done|right; by apply E]. intros []; [lia|]. destruct bn, bk; lia.
  - split_and!; rewrite ?times_app, ?SU; cbn; try lia; try done.
    + constructor; cbn; rewrite ?times_app; cbn; try done; lia.
    + intros []; rewrite times_app; cbn; [lia|]. destruct bn, bk; lia.
Qed.

Lemma race_over ws : forall r evs,
  racing r evs -> let '(r', evs', e) := _race_streams r ws in after_turn r' (evs ++ evs') e.
Proof.
  assert (forall r evs x, over r evs (RaceRaised x) ->
    let '(r', evs', e) := let '(r', evs') := _finish_stream_backup r in (r', evs', Some (RaceRaised x)) in after_turn r' (evs ++ evs') e) as Hfin.
  { intros r evs x Ho. apply over_finish in Ho. destruct (_finish_stream_backup r) as [r' evs']. apply Ho. }
  induction ws as [|w ws IH]; intros r evs Hr; cbn [_race_streams]; destruct (exhausted r);
    try (pose proof (exhausted_over r evs Hr) as Ho; destruct (on_exhausted r) as [evs1 [l|x]]; cbn [fst snd] in Ho; [done|];
      specialize (Hfin r _ x Ho); destruct (_finish_stream_backup r) as [r' evs']; by rewrite app_assoc).
  - by rewrite app_nil_r.
  - pose proof (step_racing r evs w Hr) as Hs. destruct (race_step r w) as [[r1 evs1] e]. destruct e as [[l|x]|]; cbn [after_turn] in Hs.
    + done.
    + specialize (Hfin r1 _ x Hs). destruct (_finish_stream_backup r1) as [r' evs']. by rewrite app_assoc.
    + specialize (IH r1 _ Hs). destruct (_race_streams r1 ws) as [[r' evs'] e]. by rewrite app_assoc.
Qed.

(** *** The deadline *)

Lemma decide_deadline r live c w : wk_deadline w = true -> (decide_race r live c w).2 <> None.
Proof. intros Hw. unfold decide_race. destruct (on_backup r live w) as [[r1 evs1] b]. rewrite Hw. by destruct c, b. Qed.

Lemma on_timer_next r w : primary_next (on_timer r w).1 = primary_next r.
Proof.
  unfold on_timer, _start_stream_backup, _next_checkpoint_task. destruct (_ && hedge_timer r); [|done]. destruct (bool_decide _ && _); [|done].
  destruct (wk_at_timer w); [done|]. cbn. by destruct (checkpoints_left r).
Qed.

(** A turn that sees the deadline ends the race, or the primary's stream. *)
Lemma step_deadline r w :
  wk_deadline w = true -> (race_step r w).2 = None -> primary_next r = true /\ primary_next (race_step r w).1.1 = false.
Proof.
  intros Hw. unfold race_step. pose proof (on_timer_next r w) as En. destruct (on_timer r w) as [r1 evs1]. cbn [fst] in En.
  assert (forall r2 c, (let '(r', evs', e) := decide_race r2 (backup_next r) c w in (r', evs1 ++ evs', e)).2 <> None) as Hd.
  { intros r2 c. pose proof (decide_deadline r2 (backup_next r) c w Hw). by destruct (decide_race r2 _ c w) as [[? ?] ?]. }
  destruct (primary_next r1) eqn:Ep; cbn [negb]; [|intros E; by destruct (Hd r1 false)].
  destruct (wk_primary w) as [[content bytes| |e]|]; [intros E; by apply Hd in E|intros E; by apply Hd in E| |intros E; by apply Hd in E].
  set (r2 := _ <| primary_next := false |>). intros _. split; [done|]. destruct (backup r2); [done|].
  unfold _start_stream_backup. by destruct (wk_at_failure w).
Qed.

Lemma race_deadline ws w1 w2 rest r :
  wk_deadline w1 = true -> wk_deadline w2 = true -> (_race_streams r (ws ++ w1 :: w2 :: rest)).2 <> None.
Proof.
  intros H1 H2. revert r. induction ws as [|w ws IH]; intros r; cbn [_race_streams app]; destruct (exhausted r);
    try (destruct (on_exhausted r) as [? [?|?]]; [done|by destruct (_finish_stream_backup r)]).
  - pose proof (step_deadline r w1 H1) as Hs. destruct (race_step r w1) as [[r1 evs1] e]. destruct e as [[l|x]|]; [done|by destruct (_finish_stream_backup r1)|].
    destruct (Hs eq_refl) as [_ Hn]. cbn [fst] in Hn. clear Hs. destruct (exhausted r1);
      [destruct (on_exhausted r1) as [? [?|?]]; [done|by destruct (_finish_stream_backup r1)]|].
    pose proof (step_deadline r1 w2 H2) as Hs. destruct (race_step r1 w2) as [[r2 evs2] e]. destruct e as [[l|x]|]; [done|by destruct (_finish_stream_backup r2)|].
    destruct (Hs eq_refl) as [Hn' _]. congruence.
  - destruct (race_step r w) as [[r1 evs1] e]. destruct e as [[l|x]|]; [done|by destruct (_finish_stream_backup r1)|].
    specialize (IH r1). by destruct (_race_streams r1 _) as [[? ?] ?].
Qed.

(** At most one backup is reserved, and it is given back once; a leg is reported broken at
    most once. *)
Definition balanced (evs : list race_event) : Prop :=
  (times is_taking evs <= 1)%nat /\ times is_giving evs = times is_taking evs /\
  (forall l, times (is_failure l) evs <= 1)%nat.

(** [l] won: reported once as a success and not as broken, the other leg not as a success;
    a backup that won was reserved. *)
Definition won (l : leg) (evs : list race_event) : Prop :=
  times (is_success l) evs = 1%nat /\ times (is_failure l) evs = 0%nat /\
  times (is_success (other l)) evs = 0%nat /\ (l = Backup -> times is_taking evs = 1%nat).

(** Nobody won, and [x] is the deadline's error or the primary's, reported. *)
Definition nobody_won (evs : list race_event) : Prop := forall l, times (is_success l) evs = 0%nat.
Definition lost (x : exn) (evs : list race_event) : Prop :=
  nobody_won evs /\ (x = race_timeout \/ Broken Primary x ∈ evs).

(** The books of a hedged run. *)
Definition books (evs : list race_event) (e : option race_end) : Prop :=
  balanced evs /\
  match e with
  | Some (Won l) => won l evs
  | Some (RaceRaised x) => lost x evs
  | None => nobody_won evs
  end.

(** The books of a hedged stream: an error of the winner's stream after the race is the one
    raised, and is not reported. *)
Definition stream_books (rest : stream_rest) (evs : list race_event) (e : option stream_end) : Prop :=
  balanced evs /\
  match e with
  | Some (Served l) => won l evs
  | Some (BrokeAfter l x) => rest = Breaks x /\ won l evs
  | Some (Raised x) => lost x evs
  | None => nobody_won evs \/ rest = Dropped /\ exists l, won l evs
  end.

Lemma after_race_books r rest evs e : books evs e -> stream_books rest evs (after_race r rest e).
Proof.
  intros [Hb He]. split; [done|]. destruct e as [[l|x]|]; cbn [after_race]; [|done|by left].
  destruct (_ && _); [done|]. destruct rest; [done|done|right; eauto].
Qed.

Lemma hedged_stream_books n ws rest : let '(r, evs, e) := hedged_stream n ws rest in stream_books rest evs e.
Proof.
  unfold hedged_stream. pose proof (race_over ws (new_race n) [] (start_racing n)) as Ho.
  destruct (_race_streams (new_race n) ws) as [[r evs] e]. cbn [app snd] in Ho.
  assert (reserved r evs /\ forall l, (times (is_failure l) evs <= 1)%nat) as [Hr Hf].
  { destruct e as [e|]; [split; apply Ho|]. split; [apply Ho|]. destruct Ho as [_ _ _ P _ _ _ K _].
    intros []; [destruct (primary_error r)|destruct (backup_next r), (backup r)]; lia. }
  pose proof (finish_reserved r evs Hr) as Hfin. destruct (_finish_stream_backup r) as [r' evs'].
  destruct Hfin as ([T G N] & Eb & _ & Ht & Hin & Hset). set (cleanup := if _ && _ then [GaveBack] else []).
  apply after_race_books.
  assert (forall p, p GaveBack = false -> times p (evs ++ evs' ++ cleanup) = times p evs) as Ht'.
  { intros p Hp. rewrite app_assoc, times_app, Ht by done. unfold cleanup. destruct (_ && _); cbn; rewrite ?Hp; lia. }
  assert (times is_giving (evs ++ evs' ++ cleanup) = times is_taking evs) as Hg.
  { rewrite app_assoc, times_app, G, <- (Ht is_taking), T by done. unfold cleanup.
    destruct (backup r') as [id|] eqn:Ebr.
    - destruct (Hset ltac:(eauto)) as [->| ->]; [by rewrite andb_false_r|]. by destruct (backup_released r').
    - by destruct (N eq_refl) as [-> ->]. }
  assert (times is_taking evs = if backup r' then 1%nat else 0%nat) as HT by (by rewrite <- (Ht is_taking), T by done).
  split.
  { unfold balanced. rewrite Hg, Ht' by done. split_and!; [rewrite HT; destruct (backup r'); lia|done|intros l; by rewrite Ht']. }
  destruct e as [[l|x]|]; cbn [after_turn] in Ho.
  - destruct Ho as (_ & _ & O1 & O2 & O3 & O4). unfold won. rewrite !Ht' by done. split_and!; try done.
    intros El. destruct (O4 El) as [id Ei]. by rewrite HT, Eb, Ei.
  - destruct Ho as (_ & _ & O1 & O2). split; [intros l; by rewrite Ht'|]. destruct O2 as [?|?]; [by left|right; set_solver].
  - intros l. rewrite Ht' by done. apply Ho.
Qed.

(** *** Without streaming *)

(** Between two turns. *)
Record chatting (r : chat_race) (evs : list race_event) : Prop := {
  ch_success l : times (is_success l) evs = 0%nat;
  ch_primary : times (is_failure Primary) evs = if primary_pending r then 0%nat else 1%nat;
  ch_error : match chat_error r with
             | Some e => primary_pending r = false /\ Broken Primary e ∈ evs
             | None => primary_pending r = true
             end;
  ch_took : times is_taking evs = if backup_past_sleep r then 1%nat else 0%nat;
  ch_gave : times is_giving evs = match backup_phase r with Over => if backup_past_sleep r then 1%nat else 0%nat | _ => 0%nat end;
  ch_backup : (times (is_failure Backup) evs <= match backup_phase r with Over => if backup_past_sleep r then 1 else 0 | _ => 0 end)%nat;
  ch_phase : match backup_phase r with Asleep => backup_past_sleep r = false | Running => backup_past_sleep r = true | Over => True end
}.

Local Ltac count_in HS :=
  cbn; rewrite ?times_app, ?HS; cbn; try done; try lia; try (set_solver).

(** Closing one case: the counts after a turn, on or over. *)
Local Ltac chat_on :=
  rewrite ?app_nil_r;
  lazymatch goal with
  | HS : forall l, times (is_success l) _ = 0%nat |- chatting _ _ =>
      constructor; try (intros l; rewrite ?times_app, HS; by destruct l); count_in HS
  | HS : forall l, times (is_success l) _ = 0%nat |- books _ _ =>
      unfold books, balanced, won, lost, nobody_won; split_and!; try (intros ?; discriminate); try (intros l; rewrite ?times_app, ?HS; destruct l; count_in HS); count_in HS
  end.

Lemma chat_step_books r evs t : chatting r evs ->
  let '(r', evs', e) := chat_step r t in
  match e with None => chatting r' (evs ++ evs') | Some _ => books (evs ++ evs') e end.
Proof.
  intros Hr. destruct t as [id|l]; cbn [chat_step].
  { destruct r as [pp ph ps ce]. destruct Hr as [SU P E T G K F]. cbn in *. destruct ph, ce, ps; cbn in *; try done; chat_on. }
  destruct (forallb (can_be_done r) l) eqn:Ec; cbn [andb]; [|by rewrite app_nil_r].
  destruct (distinct_legs l) eqn:Ed; [|by rewrite app_nil_r].
  destruct r as [pp ph ps ce]. destruct Hr as [SU P E T G K F]. cbn in P, E, T, G, K, F.
  destruct l as [|[l1 r1] [|[l2 r2] [|]]]; [cbn; rewrite app_nil_r; by constructor| | |done].
  - destruct l1, r1, ph; cbn in Ec; try done; destruct pp; cbn in Ec; try done; destruct ps; try done; destruct ce; cbn in *; chat_on.
  - destruct l1, l2; cbn in Ed; try done; destruct r1, r2, ph; cbn in Ec; rewrite ?andb_false_r in Ec; try done;
      destruct pp; cbn in Ec; try done; destruct ps; try done; destruct ce; cbn in *; chat_on.
Qed.

Lemma hedged_chat_books ts : forall r evs,
  chatting r evs -> let '(_, evs', e) := hedged_chat r ts in books (evs ++ evs') e.
Proof.
  induction ts as [|t ts IH]; intros r evs Hr.
  - destruct r as [pp ph ps ce]. destruct Hr as [SU P E T G K F]. cbn in P, E, T, G, K, F.
    destruct pp, ph, ps, ce as [e|]; cbn in *; try done; try (by destruct E); chat_on; by right; apply E.
  - pose proof (chat_step_books r evs t Hr) as Hs. cbn [hedged_chat].
    assert (let '(_, evs', e) := let '(r, evs, e) := chat_step r t in
        match e with Some _ => (r, evs, e) | None => let '(r, evs', e) := hedged_chat r ts in (r, evs ++ evs', e) end in
      books (evs ++ evs') e) as Hgo.
    { destruct (chat_step r t) as [[r1 evs1] [e|]]; [done|]. specialize (IH r1 _ Hs).
      destruct (hedged_chat r1 ts) as [[r2 evs2] e]. by rewrite app_assoc. }
    destruct (primary_pending r) eqn:Ep; [exact Hgo|]. destruct (backup_phase r) eqn:Eb; [exact Hgo|exact Hgo|]. clear Hs Hgo IH.
    destruct r as [pp ph ps ce]. destruct Hr as [SU P E T G K F]. cbn in *. subst pp ph.
    destruct ce as [e|], ps; cbn in *; try done; chat_on; by right; apply E.
Qed.

(** C21: a hedged attempt keeps its books.  With streaming or without, whatever the two
    legs, the timer, the deadline, the selector and the reader of the winner's stream do,
    at most one backup is reserved and a backup reserved is given back exactly once, an
    attempt cut short by a cancellation included; each leg is reported broken at most
    once, and a success is reported only for the leg that won, once, which is not reported
    broken and, if it is the backup, was reserved.  A race that raises does so with the
    primary's own error, which was reported, or because it ran past its deadline; a
    streamed attempt whose winner breaks after it won raises that stream's own error, and
    does not report it.  And a race of streams ends no later than at the second wake that
    sees the deadline. *)
Theorem hedge_accounts n ws rest ts :
  (let '(_, evs, e) := hedged_stream n ws rest in stream_books rest evs e) /\
  (let '(_, evs, e) := hedged_chat new_chat_race ts in books evs e) /\
  (forall us w1 w2 vs, ws = us ++ w1 :: w2 :: vs -> wk_deadline w1 = true -> wk_deadline w2 = true ->
     (_race_streams (new_race n) ws).2 <> None).
Proof.
  split_and!.
  - pose proof (hedged_stream_books n ws rest). by destruct (hedged_stream n ws rest) as [[? ?] ?].
  - apply (hedged_chat_books ts new_chat_race []). by constructor.
  - intros us w1 w2 vs -> H1 H2. by apply race_deadline.
Qed.
End race.

(** ** Instances at concrete values *)

Module HedgeSample.
Import RouteWiseSample.
Local Open Scope Q_scope.

(** The first candidate offered is taken. *)
#[export] Instance first_core : HedgeCore := {
  combined_success_probability := fun _ _ _ _ => 1;
  select_probability_backup := fun l => head l
}.

Lemma first_ok : HedgeCoreOk.
Proof. intros [|x l] c; [done|]. intros [= <-]. set_solver. Qed.

Definition profiled : @rw unit unit :=
  st0 <| rw_profiles := <["east"%string := new_profile 60 10]> (<["west"%string := new_profile 60 10]> ∅) |>.
Definition primary : feasible_candidate :=
  FeasibleProviderCandidate "east" 0%nat ON_DEMAND 1 1 1 1 0 0 false None None None None.
End HedgeSample.

Import RouteWiseSample HedgeSample.
#[local] Existing Instance first_ok.

(** A request on [east] is backed up by [west], whose slot it takes. *)
Lemma hedge_backup_sound_witness :
  exists r st', _select_checkpoint_backup cfg profiled ask ∅ (rd 1) (dr 1 0%nat) primary [1%Q; 2%Q] 3 2 = (st', Some r) /\
    fc_endpoint_id r.1 = "west"%string /\ active_at (rw_res st') 0 = 1.
Proof.
  pose proof (hedge_backup_sound cfg profiled ask ∅ (rd 1) (dr 1 0%nat) primary [1%Q; 2%Q] 3 2) as Hs.
  destruct (_select_checkpoint_backup cfg profiled ask ∅ (rd 1) (dr 1 0%nat) primary [1%Q; 2%Q] 3 2) as [st' x] eqn:E.
  assert (x = (_select_checkpoint_backup cfg profiled ask ∅ (rd 1) (dr 1 0%nat) primary [1%Q; 2%Q] 3 2).2) as Ex by (by rewrite E).
  vm_compute in Ex. subst x. do 2 eexists. split_and!; [reflexivity|reflexivity|].
  destruct Hs as (_ & _ & _ & _ & _ & _ & Ha).
  - intros m. destruct m as [|[|m]]; vm_compute; discriminate.
  - rewrite (Ha 0%nat). vm_compute. reflexivity.
Defined.
