(* ===== verification/ProbeGate.v ===== *)
(** The gate of RouteWise's latency probes ([_ProbeConcurrencyGate] and the limits that
    routers claim, routing/routewise/router.py): one gate for every router of an event
    loop, whose capacity is the lowest limit a live router claims.

    The gate queues tasks on futures as the limiter's lines do, so it is a line of
    [WaitLine].  A probe that finds a place while others wait, which a limit that rose
    since makes possible, takes it out of turn: its claim is [Forced]. *)

From S2P Require Import Prelude WaitLine.

Local Open Scope Z_scope.

(** The gate, with the futures it queues as claims, and the limits claimed per router. *)
Record probe_gate : Type := ProbeGate {
  pg_active : Z;
  pg_waiters : list nat;
  pg_claims : list claim;
  probe_limits : gmap nat Z
}.
#[export] Instance eta_probe_gate : Eta probe_gate := fun g =>
  ProbeGate (pg_active g) (pg_waiters g) (pg_claims g) (probe_limits g).

Definition new_probe_gate : probe_gate := ProbeGate 0 [] [] ∅.

(** [_claim_probe_limit] *)
Definition _claim_probe_limit (g : probe_gate) (owner : nat) (limit : Z) : probe_gate :=
  g <| probe_limits := <[owner := Z.max limit 1]> (probe_limits g) |>.

(** [_effective_probe_limit] *)
Definition _effective_probe_limit (g : probe_gate) : Z :=
  match (map_to_list (probe_limits g)).*2 with
  | [] => 1
  | x :: l => fold_left Z.min l x
  end.

(** [_release] *)
Definition release_probe (g : probe_gate) : probe_gate :=
  let active := Z.max (pg_active g - 1) 0 in
  let '(n, ws, cs) := wake_loop (_effective_probe_limit g) active (pg_waiters g) (pg_claims g) in
  ((g <| pg_active := n |>) <| pg_waiters := ws |>) <| pg_claims := cs |>.

(** [_acquire], up to its await *)
Definition acquire_probe (g : probe_gate) : probe_gate :=
  if decide (pg_active g < _effective_probe_limit g) then
    (g <| pg_active := pg_active g + 1 |>)
      <| pg_claims := pg_claims g ++ [if decide (pg_waiters g = []) then Held 0 else Forced 0] |>
  else
    (g <| pg_waiters := pg_waiters g ++ [length (pg_claims g)] |>) <| pg_claims := pg_claims g ++ [Queued false] |>.

(** A cancellation reaches a task suspended in [_acquire]. *)
Definition cancel_probe (g : probe_gate) (w : nat) : probe_gate :=
  g <| pg_claims := alter (interrupt TaskCancelled) w (pg_claims g) |>.

(** The task resumes: with its slot, or in the handler of the cancellation, which passes
    a slot handed over before on. *)
Definition resume_probe (g : probe_gate) (w : nat) : probe_gate :=
  match claim_of (pg_claims g) w with
  | Granted _ => g <| pg_claims := <[w := Held 0]> (pg_claims g) |>
  | DoomedGranted _ _ => release_probe (g <| pg_claims := <[w := Returned]> (pg_claims g) |>)
  | Doomed _ _ => (g <| pg_waiters := drop_waiter w (pg_waiters g) |>) <| pg_claims := <[w := Left]> (pg_claims g) |>
  | _ => g
  end.

(** [slot]'s [finally] *)
Definition end_probe (g : probe_gate) (w : nat) : probe_gate :=
  match claim_of (pg_claims g) w with
  | Held O => release_probe (g <| pg_claims := <[w := Returned]> (pg_claims g) |>)
  | Forced O => release_probe (g <| pg_claims := <[w := Left]> (pg_claims g) |>)
  | _ => g
  end.

(** What happens to a gate: a router is built or collected, a probe asks, is resumed,
    cancelled, or over. *)
Inductive gate_op : Type :=
| GClaim (owner : nat) (limit : Z)
| GCollect (owner : nat)
| GAcquire
| GResume (w : nat)
| GCancel (w : nat)
| GEnd (w : nat).

Definition gate_step (g : probe_gate) (o : gate_op) : probe_gate :=
  match o with
  | GClaim owner limit => _claim_probe_limit g owner limit
  | GCollect owner => g <| probe_limits := delete owner (probe_limits g) |>
  | GAcquire => acquire_probe g
  | GResume w => resume_probe g w
  | GCancel w => cancel_probe g w
  | GEnd w => end_probe g w
  end.

Definition gate_run (g : probe_gate) (l : list gate_op) : probe_gate := fold_left gate_step l g.

(** No limit rises while a probe waits. *)
Fixpoint steady (g : probe_gate) (l : list gate_op) : Prop :=
  match l with
  | [] => True
  | o :: l => (pg_waiters (gate_step g o) = [] \/ _effective_probe_limit (gate_step g o) <= _effective_probe_limit g) /\
              steady (gate_step g o) l
  end.

(** ** The invariant *)

Definition gate_line (g : probe_gate) : Prop := line_core 0 (pg_active g) (pg_waiters g) (pg_claims g).

Definition gate_busy (g : probe_gate) : Prop := pg_waiters g <> [] -> _effective_probe_limit g <= pg_active g.

Lemma wake_loop_count limit count ws cs :
  count <= (wake_loop limit count ws cs).1.1 <= Z.max count limit.
Proof.
  revert count cs; induction ws as [|w ws IH]; intros count cs; cbn; [lia|].
  case_bool_decide; [|cbn; lia]. destruct (done_future _); [apply IH|].
  specialize (IH (count + 1) (alter resolve w cs)). lia.
Qed.

(** A claim that held a place and is over. *)
Lemma release_line g w c c' :
  gate_line g -> pg_claims g !! w = Some c -> occupies 0 c = true ->
  c' = Left \/ c' = Returned /\ served c = true ->
  let g' := release_probe (g <| pg_claims := <[w := c']> (pg_claims g) |>) in
  gate_line g' /\ gate_busy g' /\ pg_active g' <= Z.max (pg_active g) (_effective_probe_limit g) /\
  probe_limits g' = probe_limits g.
Proof.
  intros Hl Hw Ho Hc'. unfold release_probe. cbn [pg_active pg_waiters pg_claims probe_limits set_to].
  change (_effective_probe_limit (g <| pg_claims := _ |>)) with (_effective_probe_limit g).
  assert (0 < pg_active g) as Hpos.
  { rewrite (line_count _ _ _ _ Hl). by eapply occupied_pos. }
  assert (line_core 0 (Z.max (pg_active g - 1) 0) (pg_waiters g) (<[w := c']> (pg_claims g))) as Hl'.
  { pose proof (core_set 0 (pg_active g) (pg_waiters g) (pg_claims g) w c c' Hl Hw) as Hs. rewrite Ho in Hs.
    replace (Z.max (pg_active g - 1) 0) with (pg_active g - bit true + bit (occupies 0 c')) by (destruct Hc' as [-> |[-> _]]; cbn; lia).
    assert (w ∉ pg_waiters g) as Hnw.
    { eapply not_waiting; [done|exact Hw|by intros b -> |by intros b d -> ]. }
    apply Hs; [by destruct Hc' as [-> |[-> _]]| |done]. by destruct Hc' as [-> |[-> ?]]. }
  pose proof (wake_loop_wf 0 (_effective_probe_limit g) _ _ _ Hl') as Hwf.
  pose proof (wake_loop_count (_effective_probe_limit g) (Z.max (pg_active g - 1) 0) (pg_waiters g) (<[w := c']> (pg_claims g))) as Hc.
  destruct (wake_loop _ _ _ _) as [[n ws] cs]. destruct Hwf as [Hcore Hbusy]. cbn [fst] in Hc.
  split_and!; [exact Hcore|exact Hbusy|cbn; lia|done].
Qed.

Lemma step_line g o :
  gate_line g ->
  gate_line (gate_step g o) /\
  pg_active (gate_step g o) <= Z.max (pg_active g) (_effective_probe_limit g) /\
  (gate_busy g -> pg_waiters (gate_step g o) = [] \/ _effective_probe_limit (gate_step g o) <= _effective_probe_limit g ->
   gate_busy (gate_step g o)).
Proof.
  intros Hl. destruct o as [owner limit|owner| |w|w|w]; cbn [gate_step].
  - split_and!; [done|cbn; lia|]. intros Hb [E|Hle] Hne; [done|]. specialize (Hb Hne). cbn in *. lia.
  - split_and!; [done|cbn; lia|]. intros Hb [E|Hle] Hne; [done|]. specialize (Hb Hne). cbn in *. lia.
  - unfold acquire_probe. case_decide as Hlt.
    + split_and!; [|cbn; lia|]; [apply core_take; [exact Hl|]; case_decide; [by left|by right]|].
      intros Hb _ Hne. specialize (Hb Hne). cbn in *. change (_effective_probe_limit _) with (_effective_probe_limit g). lia.
    + split_and!; [by apply core_join|cbn; lia|]. intros _ _ _. cbn. change (_effective_probe_limit _) with (_effective_probe_limit g). lia.
  - unfold resume_probe, claim_of. destruct (pg_claims g !! w) as [c|] eqn:Ew; cbn; [|by split_and!; [|lia|]].
    destruct c; try (by split_and!; [|lia|]).
    + split_and!; [by eapply core_resume|cbn; lia|]. intros Hb _ Hne. exact (Hb Hne).
    + split_and!; [by eapply core_leave|cbn; lia|]. intros Hb _ Hne. apply Hb. intros E. apply Hne. cbn. by rewrite E.
    + destruct (release_line g w _ Returned Hl Ew eq_refl (or_intror (conj eq_refl eq_refl))) as (? & ? & ? & _). by split_and!.
  - split_and!; [by apply interrupt_core|cbn; lia|]. intros Hb _ Hne. exact (Hb Hne).
  - unfold end_probe, claim_of. destruct (pg_claims g !! w) as [c|] eqn:Ew; cbn; [|by split_and!; [|lia|]].
    destruct c as [| | | |[|e]|[|e]| |]; try (by split_and!; [|lia|]).
    + destruct (release_line g w _ Returned Hl Ew eq_refl (or_intror (conj eq_refl eq_refl))) as (? & ? & ? & _). by split_and!.
    + destruct (release_line g w _ Left Hl Ew eq_refl (or_introl eq_refl)) as (? & ? & ? & _). by split_and!.
Qed.

(** The probe gate counts exactly and serves in turn.  After every history of
    routers built and collected and of probes that ask, are handed a slot, are cancelled
    in any state and end: the active count is the number of slots held or handed over;
    the queue is the probes still waiting, in arrival order, and none was handed a slot
    before an earlier one that still waits; no step puts more probes in flight than the
    lowest limit claimed allows, beyond those already there; and as long as no limit
    rises while a probe waits, no probe waits while there is room. *)
Theorem probe_gate_correct l :
  let g := gate_run new_probe_gate l in
  line_core 0 (pg_active g) (pg_waiters g) (pg_claims g) /\
  (forall o, pg_active (gate_step g o) <= Z.max (pg_active g) (_effective_probe_limit g)) /\
  (steady new_probe_gate l -> pg_waiters g <> [] -> _effective_probe_limit g <= pg_active g).
Proof.
  assert (forall l g, gate_line g ->
    gate_line (gate_run g l) /\ (gate_busy g -> steady g l -> gate_busy (gate_run g l))) as Hrun.
  { clear l. induction l as [|o l IH]; intros g Hg; [done|]. destruct (step_line g o Hg) as (H1 & _ & H2).
    destruct (IH _ H1) as [H3 H4]. split; [exact H3|]. intros Hb [Hs Hst]. apply H4; [by apply H2|done]. }
  assert (gate_line new_probe_gate) as H0.
  { constructor; cbn; [done|constructor|by intros w ?%not_elem_of_nil|done|done]. }
  destruct (Hrun l _ H0) as [Hl Hb]. split_and!; [exact Hl|intros o; exact (proj1 (proj2 (step_line _ o Hl)))|]. intros Hs. apply Hb; [by intros []|done].
Qed.
