(* ===== verification/PrefixMemory.v ===== *)
(** RouteWise's memory of prompt prefixes ([SessionProviderPrefixMemory] and the cost
    estimate of [PrefixCacheCoordinator], routing/routewise/prefix_cache.py): per scope,
    the blocks of the last request a provider served, kept for a time and up to a number
    of scopes, least recently used first out.

    Cutting a prompt into digested blocks is serialization and not modelled: blocks are
    given.  A scope is any type with decidable equality ([CacheScope] compares its
    fields). *)

From S2P Require Import Prelude.

Local Open Scope Q_scope.

(** [Block] *)
Record block : Type := Block {
  digest : string;
  token_count : Z
}.

(** [longest_common_prefix_tokens] *)
Fixpoint longest_common_prefix_tokens (current previous : list block) : Z :=
  match current, previous with
  | x :: current, y :: previous =>
      if decide (digest x = digest y) then (token_count x + longest_common_prefix_tokens current previous)%Z else 0%Z
  | _, _ => 0%Z
  end.

Section memory.
Context {K : Type} `{EqDecision K}.

(** [_Entry] *)
Record mem_entry : Type := MemEntry {
  me_blocks : list block;
  last_seen_at : Q
}.

(** [SessionProviderPrefixMemory]; the list is the [OrderedDict], oldest first. *)
Record memory : Type := Memory {
  ttl_sec : Q;
  max_scopes : nat;
  min_match_tokens : Z;
  mem_entries : list (K * mem_entry)
}.
#[export] Instance eta_memory : Eta memory := fun m =>
  Memory (ttl_sec m) (max_scopes m) (min_match_tokens m) (mem_entries m).

(** [CacheSignal] *)
Record cache_signal : Type := CacheSignal {
  matched_prefix_tokens : Z;
  meets_threshold : bool;
  has_history : bool
}.
Definition empty_signal : cache_signal := CacheSignal 0 false false.

(** The [OrderedDict]: [get], [del], item assignment and [move_to_end]. *)
Fixpoint od_get (d : list (K * mem_entry)) (k : K) : option mem_entry :=
  match d with
  | [] => None
  | (k', e) :: d => if decide (k' = k) then Some e else od_get d k
  end.
Definition od_del (d : list (K * mem_entry)) (k : K) : list (K * mem_entry) := filter (fun x => x.1 <> k) d.
Fixpoint od_set (d : list (K * mem_entry)) (k : K) (e : mem_entry) : list (K * mem_entry) :=
  match d with
  | [] => [(k, e)]
  | (k', e') :: d => if decide (k' = k) then (k, e) :: d else (k', e') :: od_set d k e
  end.
Definition move_to_end (d : list (K * mem_entry)) (k : K) : list (K * mem_entry) :=
  match od_get d k with Some e => od_del d k ++ [(k, e)] | None => d end.

(** [_is_expired] *)
Definition entry_expired (m : memory) (e : mem_entry) (now : Q) : bool :=
  bool_decide (0 < ttl_sec m) && bool_decide (ttl_sec m < now - last_seen_at e).

(** [lookup] *)
Definition mem_lookup (m : memory) (k : K) (current : list block) (now : Q) : memory * cache_signal :=
  match od_get (mem_entries m) k with
  | None => (m, empty_signal)
  | Some e =>
      if entry_expired m e now then (m <| mem_entries := od_del (mem_entries m) k |>, empty_signal)
      else
        let matched := longest_common_prefix_tokens current (me_blocks e) in
        (m <| mem_entries := move_to_end (mem_entries m) k |>,
         CacheSignal matched (bool_decide (min_match_tokens m <= matched)%Z) true)
  end.

(** [_evict_locked] *)
Definition _evict (m : memory) : memory :=
  m <| mem_entries := drop (length (mem_entries m) - max_scopes m) (mem_entries m) |>.

(** [observe] *)
Definition mem_observe (m : memory) (k : K) (blocks : list block) (now : Q) : memory :=
  let d := mem_entries m in
  let d := match od_get d k with
           | Some e => if entry_expired m e now then od_del d k else d
           | None => d
           end in
  _evict (m <| mem_entries := move_to_end (od_set d k (MemEntry blocks now)) k |>).

(** [PrefixCacheCostRecord] *)
Record cost_record : Type := CostRecord {
  rec_matched : Z;
  rec_expected : Z;
  rec_discount : Q;
  rec_applies : bool
}.

(** [PrefixCacheCoordinator.evaluate] *)
Definition evaluate (enabled : bool) (m : memory) (k : K) (blocks : list block) (cold_cost price_delta now : Q) :
    memory * cost_record :=
  let '(m, s) := mem_lookup m k blocks now in
  let expected := if has_history s && meets_threshold s then Z.max (matched_prefix_tokens s) 0 else 0%Z in
  let cold := py_max cold_cost 0 in
  let discount := if enabled && bool_decide (0 < expected)%Z && bool_decide (0 < price_delta)
                  then py_min (inject_Z expected * price_delta) cold else 0 in
  (m, CostRecord (matched_prefix_tokens s) expected discount (bool_decide (0 < discount))).

(** ** Histories *)

Inductive mem_op : Type :=
| MLookup (k : K) (current : list block)
| MObserve (k : K) (blocks : list block).

Definition mem_step (m : memory) (o : Q * mem_op) : memory :=
  match o.2 with
  | MLookup k current => (mem_lookup m k current o.1).1
  | MObserve k blocks => mem_observe m k blocks o.1
  end.

Definition mem_run (m : memory) (l : list (Q * mem_op)) : memory := fold_left mem_step l m.

Definition scope_of (o : Q * mem_op) : K := match o.2 with MLookup k _ | MObserve k _ => k end.

(** What was last observed of a scope. *)
Definition observed_at (k : K) (last_ : option mem_entry) (o : Q * mem_op) : option mem_entry :=
  match o.2 with
  | MObserve k' blocks => if decide (k' = k) then Some (MemEntry blocks o.1) else last_
  | MLookup _ _ => last_
  end.
Definition last_observed (k : K) (l : list (Q * mem_op)) : option mem_entry := fold_left (observed_at k) l None.

(** ** The dictionary *)

Lemma od_get_in d k e : od_get d k = Some e -> (k, e) ∈ d.
Proof. induction d as [|[k' e'] d IH]; cbn; [done|]. case_decide; [intros [= ->]; subst|]; set_solver. Qed.

Lemma od_get_None d k : od_get d k = None <-> k ∉ d.*1.
Proof. induction d as [|[k' e'] d IH]; cbn; [set_solver|]. case_decide; [set_solver|]. rewrite IH. set_solver. Qed.

Lemma od_get_app d d' k : od_get (d ++ d') k = match od_get d k with Some e => Some e | None => od_get d' k end.
Proof. induction d as [|[k' e'] d IH]; cbn; [done|]. by case_decide. Qed.

Lemma od_get_del d k k' : od_get (od_del d k) k' = if decide (k = k') then None else od_get d k'.
Proof.
  unfold od_del. induction d as [|[k0 e0] d IH]; [cbn; by case_decide|]. rewrite filter_cons. cbn [fst].
  destruct (decide (k0 <> k)) as [Hne|Heq]; cbn [od_get]; rewrite IH; repeat case_decide; subst; try done; tauto.
Qed.

Lemma od_get_set d k e k' : od_get (od_set d k e) k' = if decide (k = k') then Some e else od_get d k'.
Proof. induction d as [|[k0 e0] d IH]; cbn; [done|]. repeat case_decide; subst; cbn; rewrite ?IH; repeat case_decide; done. Qed.

Lemma od_get_move d k k' : od_get (move_to_end d k) k' = od_get d k'.
Proof.
  unfold move_to_end. destruct (od_get d k) as [e|] eqn:E; [|done]. rewrite od_get_app, od_get_del. cbn.
  destruct (decide (k = k')) as [->|Hne]; [done|]. by destruct (od_get d k').
Qed.

Lemma od_get_nodup d k e : NoDup d.*1 -> od_get d k = Some e <-> (k, e) ∈ d.
Proof.
  intros Hd. split; [apply od_get_in|]. induction d as [|[k' e'] d IH]; cbn; [by intros ?%not_elem_of_nil|].
  apply NoDup_cons in Hd as [Hn Hd]. intros [[= -> ->]|Hin]%elem_of_cons; [by rewrite decide_True|].
  rewrite decide_False; [by apply IH|]. intros ->. apply Hn. apply list_elem_of_fmap. by exists (k, e).
Qed.

Lemma od_del_sublist d k : od_del d k `sublist_of` d.
Proof. apply sublist_filter. Qed.

Lemma od_del_keys d k : k ∉ (od_del d k).*1.
Proof. intros (x & -> & Hx)%list_elem_of_fmap. unfold od_del in Hx. apply list_elem_of_filter in Hx as [? _]. done. Qed.

Lemma od_del_set d k e : od_del (od_set d k e) k = od_del d k.
Proof.
  unfold od_del. induction d as [|[k0 e0] d IH]; cbn [od_set]; [rewrite filter_cons; cbn; by rewrite decide_False by tauto|].
  case_decide; subst; rewrite !filter_cons; cbn [fst]; [by rewrite !decide_False by tauto|]. rewrite IH. done.
Qed.

Lemma od_del_absent d k : k ∉ d.*1 -> od_del d k = d.
Proof.
  unfold od_del. induction d as [|x d IH]; [done|]. cbn [fmap list_fmap]. intros Hn.
  rewrite filter_cons, decide_True by set_solver. f_equal. apply IH. set_solver.
Qed.

Lemma od_del_twice d k : od_del (od_del d k) k = od_del d k.
Proof. apply od_del_absent, od_del_keys. Qed.

Lemma od_del_app d d' k : od_del (d ++ d') k = od_del d k ++ od_del d' k.
Proof. apply filter_app. Qed.

(** A new entry goes to the end, in place of any earlier one. *)
Definition renewed (d : list (K * mem_entry)) (k : K) (e : mem_entry) : list (K * mem_entry) := od_del d k ++ [(k, e)].

Lemma observe_entries m k blocks now :
  let d := renewed (mem_entries m) k (MemEntry blocks now) in
  mem_observe m k blocks now = m <| mem_entries := drop (length d - max_scopes m) d |>.
Proof.
  cbn zeta. unfold mem_observe, _evict. cbn [mem_entries set_to max_scopes].
  assert (forall d, od_del d k = od_del (mem_entries m) k ->
    move_to_end (od_set d k (MemEntry blocks now)) k = renewed (mem_entries m) k (MemEntry blocks now)) as Hm.
  { intros d Hd. unfold move_to_end, renewed. rewrite od_get_set, decide_True by done. by rewrite od_del_set, Hd. }
  destruct (od_get (mem_entries m) k) as [e|]; [destruct (entry_expired m e now)|]; cbn; rewrite Hm; try done. apply od_del_twice.
Qed.

Lemma renewed_nodup d k e : NoDup d.*1 -> NoDup (renewed d k e).*1.
Proof.
  intros Hd. unfold renewed. rewrite fmap_app. cbn. apply NoDup_app. split_and!.
  - eapply sublist_NoDup; [exact Hd|]. apply fmap_sublist, od_del_sublist.
  - intros x Hx Hk. assert (x = k) as -> by set_solver. by apply od_del_keys in Hx.
  - apply NoDup_singleton.
Qed.

Lemma move_renewed d k e : od_get d k = Some e -> move_to_end d k = renewed d k e.
Proof. intros E. unfold move_to_end. by rewrite E. Qed.

(** ** The invariant *)

Record mem_ok (l : list (Q * mem_op)) (m : memory) : Prop := {
  mo_nodup : NoDup (mem_entries m).*1;
  mo_size : (length (mem_entries m) <= max_scopes m)%nat;
  mo_last k e : od_get (mem_entries m) k = Some e -> last_observed k l = Some e
}.

Lemma last_observed_snoc k l o : last_observed k (l ++ [o]) = observed_at k (last_observed k l) o.
Proof. unfold last_observed. by rewrite fold_left_app. Qed.

Lemma renewed_length d k e : NoDup d.*1 -> od_get d k = Some e -> length (renewed d k e) = length d.
Proof.
  intros Hd Hk. unfold renewed. rewrite length_app. cbn. unfold od_del.
  induction d as [|[k0 e0] d IH]; [done|]. rewrite filter_cons. cbn [fst]. apply NoDup_cons in Hd as [Hn Hd]. cbn in Hk.
  destruct (decide (k0 = k)) as [->|Hne]; [rewrite decide_False by tauto|rewrite decide_True by done].
  - fold (od_del d k). rewrite od_del_absent by done. cbn. lia.
  - cbn [length]. specialize (IH Hd Hk). lia.
Qed.

Lemma mem_step_frame m o : ttl_sec (mem_step m o) = ttl_sec m /\ max_scopes (mem_step m o) = max_scopes m /\
  min_match_tokens (mem_step m o) = min_match_tokens m.
Proof.
  unfold mem_step, mem_lookup. destruct (o.2) as [k c|k b]; [|by rewrite observe_entries].
  destruct (od_get _ k) as [e|]; [|done]. by destruct (entry_expired m e o.1).
Qed.

Lemma mem_run_frame m l : ttl_sec (mem_run m l) = ttl_sec m /\ max_scopes (mem_run m l) = max_scopes m /\
  min_match_tokens (mem_run m l) = min_match_tokens m.
Proof.
  revert m; induction l as [|o l IH]; intros m; [done|]. change (mem_run m (o :: l)) with (mem_run (mem_step m o) l). destruct (IH (mem_step m o)) as (-> & -> & ->). apply mem_step_frame.
Qed.

Lemma mem_step_ok l m o : mem_ok l m -> mem_ok (l ++ [o]) (mem_step m o).
Proof.
  intros [Hd Hs Hl]. destruct o as [now [k c|k b]]; unfold mem_step; cbn [snd fst].
  - assert (forall k' e, od_get (mem_entries m) k' = Some e -> last_observed k' (l ++ [(now, MLookup k c)]) = Some e) as Hl'.
    { intros k' e He. rewrite last_observed_snoc. by apply Hl. }
    unfold mem_lookup. destruct (od_get (mem_entries m) k) as [e|] eqn:Ek; [|by constructor].
    destruct (entry_expired m e now); constructor; cbn; try done.
    + eapply sublist_NoDup; [exact Hd|]. apply fmap_sublist, od_del_sublist.
    + pose proof (sublist_length _ _ (od_del_sublist (mem_entries m) k)). lia.
    + intros k' e'. rewrite od_get_del. case_decide; [done|]. apply Hl'.
    + rewrite (move_renewed _ _ _ Ek). by apply renewed_nodup.
    + by rewrite (move_renewed _ _ _ Ek), (renewed_length _ _ _ Hd Ek).
    + intros k' e'. rewrite od_get_move. apply Hl'.
  - rewrite observe_entries. set (d := renewed _ _ _). assert (NoDup d.*1) as Hnd by (by apply renewed_nodup).
    assert (NoDup (drop (length d - max_scopes m) d).*1) as Hnd'.
    { eapply sublist_NoDup; [exact Hnd|]. apply fmap_sublist, sublist_drop. }
    constructor; cbn; [done|rewrite length_drop; lia|].
    intros k' e' He. apply (od_get_nodup _ _ _ Hnd') in He. assert ((k', e') ∈ d) as Hin.
    { apply list_elem_of_lookup in He as [i Hi]. rewrite lookup_drop in Hi. by eapply list_elem_of_lookup_2. }
    rewrite last_observed_snoc. cbn. unfold d, renewed in Hin. apply elem_of_app in Hin as [Hin|Hin].
    + assert (k' <> k) by (intros ->; apply (od_del_keys (mem_entries m) k); apply list_elem_of_fmap; by exists (k, e')).
      rewrite decide_False by done. apply Hl, (od_get_nodup _ _ _ Hd).
      unfold od_del in Hin. by apply list_elem_of_filter in Hin as [_ ?].
    + apply list_elem_of_singleton in Hin as [= -> ->]. by rewrite decide_True.
Qed.

Lemma mem_run_ok m l0 l : mem_ok l0 m -> mem_ok (l0 ++ l) (mem_run m l).
Proof.
  revert m l0; induction l as [|o l IH]; intros m l0 Hm; [by rewrite app_nil_r|]. rewrite cons_middle, app_assoc.
  apply IH, mem_step_ok, Hm.
Qed.

(** ** Retention *)

(** The entry is there, and every scope used since is in [N]. *)
Definition retained (k : K) (e : mem_entry) (N : list K) (d : list (K * mem_entry)) : Prop :=
  exists pre post, d = pre ++ (k, e) :: post /\ forall x, x ∈ post.*1 -> x ∈ N.

Lemma retained_renew k e N d k' e' :
  retained k e N d -> k' <> k -> k' ∈ N -> retained k e N (renewed d k' e').
Proof.
  intros (pre & post & -> & Hp) Hne Hn. exists (od_del pre k'), (od_del post k' ++ [(k', e')]). unfold renewed.
  rewrite od_del_app. change ((k, e) :: post) with ([(k, e)] ++ post). rewrite od_del_app.
  assert (od_del [(k, e)] k' = [(k, e)]) as -> by (apply od_del_absent; set_solver). split; [by rewrite <- !app_assoc|].
  intros x. rewrite fmap_app. cbn. intros [Hx|Hx]%elem_of_app; [|set_solver]. apply Hp.
  apply list_elem_of_fmap in Hx as (y & -> & Hy). unfold od_del in Hy. apply list_elem_of_filter in Hy as [_ Hy].
  apply list_elem_of_fmap. by exists y.
Qed.

Lemma retained_del k e N d k' : retained k e N d -> k' <> k -> retained k e N (od_del d k').
Proof.
  intros (pre & post & -> & Hp) Hne. exists (od_del pre k'), (od_del post k').
  change ((k, e) :: post) with ([(k, e)] ++ post). rewrite !od_del_app.
  assert (od_del [(k, e)] k' = [(k, e)]) as -> by (apply od_del_absent; set_solver). split; [done|].
  intros x (y & -> & Hy)%list_elem_of_fmap. unfold od_del in Hy. apply list_elem_of_filter in Hy as [_ Hy].
  apply Hp, list_elem_of_fmap. by exists y.
Qed.

(** With fewer scopes used since than the memory holds, eviction does not reach it. *)
Lemma retained_evict k e N d cap :
  retained k e N d -> NoDup d.*1 -> (length N < cap)%nat -> retained k e N (drop (length d - cap) d).
Proof.
  intros (pre & post & -> & Hp) Hd Hc.
  assert (length post <= length N)%nat as Hlen.
  { rewrite <- (length_fmap fst). apply submseteq_length. rewrite fmap_app in Hd. cbn in Hd.
    apply NoDup_app in Hd as (_ & _ & Hd). apply NoDup_cons in Hd as [_ Hd]. by apply NoDup_submseteq. }
  exists (drop (length (pre ++ (k, e) :: post) - cap) pre), post. split; [|done]. rewrite drop_app.
  rewrite length_app. cbn [length].
  replace (length pre + Datatypes.S (length post) - cap - length pre)%nat with 0%nat by lia. done.
Qed.

Lemma retained_get k e N d : NoDup d.*1 -> retained k e N d -> od_get d k = Some e.
Proof. intros Hd (pre & post & -> & _). apply (od_get_nodup _ _ _ Hd). set_solver. Qed.

(** An operation that neither rewrites the scope nor finds its entry expired. *)
Definition spares (k : K) (e : mem_entry) (N : list K) (m : memory) (o : Q * mem_op) : Prop :=
  if decide (scope_of o = k) then (exists c, o.2 = MLookup k c) /\ entry_expired m e o.1 = false else scope_of o ∈ N.

Lemma retained_step l k e N m o :
  mem_ok l m -> retained k e N (mem_entries m) -> (length N < max_scopes m)%nat -> spares k e N m o ->
  retained k e N (mem_entries (mem_step m o)).
Proof.
  intros [Hd _ _] Hr Hc Hs. unfold spares, scope_of in Hs. destruct o as [now [k' c|k' b]]; unfold mem_step; cbn [snd fst] in *.
  - unfold mem_lookup. case_decide as Hk.
    + subst k'. rewrite (retained_get _ _ _ _ Hd Hr). destruct Hs as [_ ->]. cbn.
      rewrite (move_renewed _ _ e) by (by eapply retained_get). exists (od_del (mem_entries m) k), []. split; [done|]. by intros x ?%not_elem_of_nil.
    + destruct (od_get (mem_entries m) k') as [e'|] eqn:Ek; [|done].
      destruct (entry_expired m e' now); cbn; [by apply retained_del|]. rewrite (move_renewed _ _ _ Ek). by apply retained_renew.
  - case_decide as Hk; [destruct Hs as [[? ?] _]; done|]. rewrite observe_entries. cbn.
    apply retained_evict; [by apply retained_renew|by apply renewed_nodup|done].
Qed.

Lemma retained_run l2 : forall l m k e N,
  mem_ok l m -> retained k e N (mem_entries m) -> (length N < max_scopes m)%nat -> Forall (spares k e N m) l2 ->
  retained k e N (mem_entries (mem_run m l2)).
Proof.
  induction l2 as [|o l2 IH]; intros l m k e N Hm Hr Hc Hf; [done|]. apply Forall_cons in Hf as [Ho Hf].
  change (mem_run m (o :: l2)) with (mem_run (mem_step m o) l2). destruct (mem_step_frame m o) as (Et & Em & _).
  apply (IH (l ++ [o])); [by apply mem_step_ok|by eapply retained_step|by rewrite Em|].
  eapply Forall_impl; [exact Hf|]. intros o'. unfold spares, entry_expired. by rewrite Et.
Qed.

(** The prefix memory remembers the last request of each scope.  After every
    history of lookups and observations it holds at most its number of scopes; a lookup
    that reports a history matched the prompt against exactly the blocks last observed
    for that very scope, at most the lifetime ago; and such a history is reported
    whenever fewer other scopes than the memory holds were used since the observation
    and no lookup found it expired meanwhile, whatever was observed before. *)
Theorem prefix_memory_correct ttl cap min_match l k blocks now :
  let m0 := Memory ttl cap min_match [] in
  let m := mem_run m0 l in
  (length (mem_entries m) <= cap)%nat /\
  (has_history (mem_lookup m k blocks now).2 = true ->
     exists e, last_observed k l = Some e /\ entry_expired m0 e now = false /\
       matched_prefix_tokens (mem_lookup m k blocks now).2 = longest_common_prefix_tokens blocks (me_blocks e)) /\
  (forall l1 t b l2 N, l = l1 ++ (t, MObserve k b) :: l2 -> Forall (spares k (MemEntry b t) N m0) l2 ->
     (length N < cap)%nat -> entry_expired m0 (MemEntry b t) now = false ->
     has_history (mem_lookup m k blocks now).2 = true /\
     matched_prefix_tokens (mem_lookup m k blocks now).2 = longest_common_prefix_tokens blocks b).
Proof.
  cbn zeta. set (m0 := Memory ttl cap min_match []). assert (mem_ok [] m0) as H0 by (constructor; [constructor|cbn; lia|done]).
  pose proof (mem_run_ok m0 [] l H0) as Hm. cbn [app] in Hm. destruct (mem_run_frame m0 l) as (Et & Ec & _).
  assert (forall e, entry_expired (mem_run m0 l) e now = entry_expired m0 e now) as Ee by (intros e; unfold entry_expired; by rewrite Et).
  split_and!.
  - pose proof (mo_size _ _ Hm) as Hs. by rewrite Ec in Hs.
  - unfold mem_lookup. destruct (od_get _ k) as [e|] eqn:Ek; [|done]. rewrite Ee. destruct (entry_expired m0 e now) eqn:Ex; [done|].
    intros _. exists e. split_and!; [by apply (mo_last _ _ Hm)|done|done].
  - intros l1 t b l2 N -> Hf Hn Hx. unfold mem_run in Hm |- *. rewrite fold_left_app in Hm |- *. cbn [fold_left] in Hm |- *.
    fold (mem_run m0 l1) in Hm |- *. set (m1 := mem_run m0 l1) in *. set (m2 := mem_step m1 (t, MObserve k b)) in *.
    fold (mem_run m2 l2) in Hm |- *. destruct (mem_run_frame m0 l1) as (Et1 & Ec1 & _). destruct (mem_step_frame m1 (t, MObserve k b)) as (Et2 & Ec2 & _).
    fold m1 in Et1, Ec1. fold m2 in Et2, Ec2.
    pose proof (mem_run_ok m0 [] l1 H0) as Hm1. cbn [app] in Hm1. pose proof (mem_step_ok l1 m1 (t, MObserve k b) Hm1) as Hm2.
    assert (retained k (MemEntry b t) N (mem_entries m2)) as Hr.
    { unfold m2, mem_step. cbn [snd fst]. rewrite observe_entries. cbn. apply retained_evict.
      - exists (od_del (mem_entries m1) k), []. split; [done|]. by intros x ?%not_elem_of_nil.
      - apply renewed_nodup, Hm1.
      - by rewrite Ec1. }
    assert (retained k (MemEntry b t) N (mem_entries (mem_run m2 l2))) as Hr2.
    { eapply retained_run; [exact Hm2|exact Hr|by rewrite Ec2, Ec1|].
      eapply Forall_impl; [exact Hf|]. intros o. unfold spares, entry_expired. by rewrite Et2, Et1. }
    pose proof (retained_get _ _ _ _ (mo_nodup _ _ Hm) Hr2) as Hg. unfold mem_lookup. rewrite Hg.
    assert (entry_expired (mem_run m2 l2) (MemEntry b t) now = false) as ->; [|done].
    destruct (mem_run_frame m2 l2) as (Et3 & _). rewrite <- Hx. unfold entry_expired. by rewrite Et3, Et2, Et1.
Qed.

(** The discount is between nothing and the whole cold cost, and only for tokens of the
    prompt that matched. *)
Lemma evaluate_bounds enabled m k blocks cold delta now :
  Forall (fun b => 0 <= token_count b)%Z blocks ->
  let r := (evaluate enabled m k blocks cold delta now).2 in
  0 <= rec_discount r <= py_max cold 0 /\
  (0 <= rec_expected r <= foldr (fun b n => token_count b + n) 0 blocks)%Z.
Proof.
  intros Hb. cbn zeta. unfold evaluate.
  assert (forall prev, 0 <= longest_common_prefix_tokens blocks prev <= foldr (fun b n => token_count b + n) 0 blocks)%Z as Hl.
  { induction Hb as [|x l Hx Hl IH]; intros prev; [by destruct prev|]. destruct prev as [|y prev]; cbn.
    - specialize (IH []). destruct l; cbn in *; lia.
    - specialize (IH prev). case_decide; lia. }
  assert (0 <= foldr (fun b n => token_count b + n) 0 blocks)%Z as Hn by (specialize (Hl []); lia).
  assert (0 <= matched_prefix_tokens (mem_lookup m k blocks now).2 <= foldr (fun b n => token_count b + n) 0 blocks)%Z as Hm.
  { unfold mem_lookup. destruct (od_get _ k) as [e|]; [|cbn; lia]. destruct (entry_expired m e now); [cbn; lia|]. apply Hl. }
  destruct (mem_lookup m k blocks now) as [m' s]. cbn [snd] in *. set (expected := if _ && _ then _ else _).
  assert (0 <= expected <= foldr (fun b n => token_count b + n) 0 blocks)%Z as He by (unfold expected; destruct (_ && _); lia).
  split; [|exact He]. cbn [rec_discount snd]. pose proof (py_max_spec cold 0) as [Hc0 Hc1].
  destruct (enabled && _ && _) eqn:Eg; [|split; [apply Qle_refl|done]].
  apply andb_true_iff in Eg as [Eg1 Eg2]. apply bool_decide_eq_true in Eg2.
  assert (0 <= inject_Z expected * delta) by (apply Qmult_le_0_compat; [rewrite <- (Zle_Qle 0); lia|lra]).
  split; [by apply py_min_glb|apply py_min_spec].
Qed.
End memory.
