(* ===== verification/ModelRouters.v ===== *)
(** The router of each model ([routing/model_router_registry.py]) and the strategies it
    is built by ([routing/strategies]): routers are made on first use and kept, and an
    administrator's change of strategy is prepared first and published only if nothing
    changed meanwhile.

    A router is the process's shared fixed router or an instance with its own number;
    the parameters of a strategy are the members of their YAML mapping.  The schema and
    the constructor of a strategy, and the hybrid factory, are read through what they
    answer. *)

From S2P Require Import Prelude PyText GrantToken.

Local Open Scope Z_scope.
Local Open Scope result_scope.

(** ** Strategies *)

Definition params : Type := list (chars * json).

Inductive registry_error : Type :=
| StrategyUnknown (name : string)       (* ValueError *)
| StrategyMissing (name : string)       (* ValueError: the package is not installed *)
| ParamsInvalid (name : string)         (* pydantic.ValidationError *)
| NoHealthInjection (name : string)     (* TypeError *)
| ConstructionFailed (name : string)    (* whatever the constructor or the factory raised *)
| NoSharedFixed                         (* RuntimeError *)
| FactoryTooLate                        (* RuntimeError *)
| ForeignChange                         (* ValueError *)
| StaleRouterStrategyChange
| ManyOverrides.                        (* RuntimeError *)

(** A registered strategy. *)
Record strategy_class : Type := StrategyClass {
  sc_schema : params -> bool;           (* [params_cls.model_validate] accepts them *)
  sc_accepts_health : bool;             (* [_accepts_health_registry] *)
  sc_constructs : params -> bool        (* the constructor, and the binding of its route table, return *)
}.

Class Strategies := {
  _STRATEGIES : gmap string strategy_class;
  _MISSING_STRATEGIES : gset string;
  dependencies_supplied : bool
}.

Section registry.
Context `{Strategies}.

(** [_validated_strategy] *)
Definition _validated_strategy (name : string) (p : params) : result registry_error strategy_class :=
  match _STRATEGIES !! name with
  | None => Raise (if bool_decide (name ∈ _MISSING_STRATEGIES) then StrategyMissing name else StrategyUnknown name)
  | Some cls =>
      if negb (sc_schema cls p) then Raise (ParamsInvalid name)
      else if dependencies_supplied && negb (sc_accepts_health cls) then Raise (NoHealthInjection name)
      else Ok cls
  end.

(** [validate_router_config] *)
Definition validate_router_config (name : string) (p : params) : result registry_error unit :=
  try! _ <- _validated_strategy name p ;; Ok tt.

(** [build_router] *)
Definition build_router (name : string) (p : params) : result registry_error unit :=
  try! cls <- _validated_strategy name p ;;
  if sc_constructs cls p then Ok tt else Raise (ConstructionFailed name).

(** ** The registry *)

Inductive model_router : Type :=
| SharedFixed
| Instance_ (number : Z) (strategy model : string).
#[export] Instance model_router_eq_dec : EqDecision model_router.
Proof. solve_decision. Defined.

Record router_cfg : Type := RouterCfg { cf_router : option string; cf_params : params }.

(** [HybridRouterFactory.build]: a router of its own, the shared one, or an error. *)
Definition hybrid_factory : Type := string -> params -> option bool.

Record registry : Type := Registry {
  configs : gmap string router_cfg;
  default_name : string;
  router_cache : gmap string model_router;
  alias_to_model : gmap string string;
  router_overrides : gmap string string;
  router_revisions : gmap string Z;
  registry_identity : Z;
  shared_fixed : option (string -> string);       (* the shared router, as its [canonical_id] *)
  factory : option hybrid_factory;
  next_router : Z                                 (* the instances made so far *)
}.
#[export] Instance eta_registry : Eta registry := fun r =>
  Registry (configs r) (default_name r) (router_cache r) (alias_to_model r) (router_overrides r) (router_revisions r)
    (registry_identity r) (shared_fixed r) (factory r) (next_router r).

(** [ModelRouterRegistry(...)] *)
Definition new_registry (cfgs : gmap string router_cfg) (name : string) (aliases : gmap string string) (identity : Z)
    (fixed : option (string -> string)) (hybrid : option hybrid_factory) : registry :=
  Registry cfgs name ∅ aliases ∅ ∅ identity fixed hybrid 0.

(** [set_hybrid_router_factory] *)
Definition set_hybrid_router_factory (r : registry) (f : hybrid_factory) : registry * result registry_error unit :=
  if decide (router_cache r = ∅) then (r <| factory := Some f |>, Ok tt) else (r, Raise FactoryTooLate).

(** [canonical_model_id] *)
Definition canonical_model_id (r : registry) (model : string) : string :=
  let c := default model (alias_to_model r !! model) in
  match shared_fixed r with Some canonical => canonical c | None => c end.

(** [self._configs.get(canonical, self._configs.get(model, {}))] *)
Definition cfg_of (r : registry) (canonical model : string) : router_cfg :=
  match configs r !! canonical with
  | Some c => c
  | None => default (RouterCfg None []) (configs r !! model)
  end.

(** [str(cfg.get("router") or self._default)] *)
Definition configured_name (r : registry) (cfg : router_cfg) : string :=
  match truthy (cf_router cfg) with Some n => n | None => default_name r end.

(** [_router_spec] *)
Definition _router_spec (r : registry) (canonical : string) (cfg : router_cfg) : string * params :=
  let configured := configured_name r cfg in
  let name := default configured (truthy (router_overrides r !! canonical)) in
  (name, if bool_decide (name = configured) then cf_params cfg else []).

(** [get_router_name] *)
Definition get_router_name (r : registry) (model : string) : string :=
  let c := canonical_model_id r model in (_router_spec r c (cfg_of r c model)).1.

(** [_build_router_for_spec]: only the count of instances changes. *)
Definition _build_router_for_spec (r : registry) (canonical name : string) (p : params) :
    registry * result registry_error model_router :=
  let made := (r <| next_router := next_router r + 1 |>, Ok (Instance_ (next_router r) name canonical)) in
  match shared_fixed r with
  | None => (r, match validate_router_config name p with Raise e => Raise e | Ok _ => Raise NoSharedFixed end)
  | Some _ =>
      if decide (name = "fixed"%string) then
        match validate_router_config name p with
        | Raise e => (r, Raise e)
        | Ok _ =>
            match factory r with
            | None => (r, Ok SharedFixed)
            | Some build => match build canonical p with
                            | None => (r, Raise (ConstructionFailed name))
                            | Some true => made
                            | Some false => (r, Ok SharedFixed)
                            end
            end
        end
      else
        match build_router name p with
        | Raise e => (r, Raise e)
        | Ok _ => made
        end
  end.

(** [get_router] *)
Definition get_router (r : registry) (model : string) : registry * result registry_error model_router :=
  let c := canonical_model_id r model in
  match router_cache r !! c with
  | Some router => (r <| router_cache := <[model := router]> (router_cache r) |>, Ok router)
  | None =>
      let '(name, p) := _router_spec r c (cfg_of r c model) in
      match _build_router_for_spec r c name p with
      | (r, Raise e) => (r, Raise e)
      | (r, Ok router) => (r <| router_cache := <[model := router]> (<[c := router]> (router_cache r)) |>, Ok router)
      end
  end.

(** [validate_router_strategy] *)
Definition validate_router_strategy (r : registry) (model strategy : string) : result registry_error unit :=
  let c := canonical_model_id r model in
  let cfg := cfg_of r c model in
  validate_router_config strategy (if bool_decide (strategy = configured_name r cfg) then cf_params cfg else []).

(** [_invalidate_router_cache] *)
Definition _invalidate_router_cache (r : registry) (canonical : string) : registry :=
  r <| router_cache := filter (fun p => alias_to_model r !! p.1 <> Some canonical) (delete canonical (router_cache r)) |>.

(** [self._router_revisions.get(canonical, 0)] *)
Definition revision_of (r : registry) (canonical : string) : Z := default 0 (router_revisions r !! canonical).

(** [_bump_router_revision] *)
Definition _bump_router_revision (r : registry) (canonical : string) : registry :=
  r <| router_revisions := <[canonical := revision_of r canonical + 1]> (router_revisions r) |>.

(** [clear_router_override] *)
Definition clear_router_override (r : registry) (model : string) : registry :=
  let c := canonical_model_id r model in
  let r := r <| router_overrides := delete c (router_overrides r) |> in
  _bump_router_revision (_invalidate_router_cache r c) c.

(** [RouterStrategyChange] *)
Record change : Type := Change {
  ch_model : string;
  ch_strategy : string;
  ch_target : option string;
  ch_previous : option string;
  ch_previous_router : model_router;
  ch_router : model_router;
  ch_revision : Z;
  ch_registry : Z
}.

(** [prepare_router_strategy_change] *)
Definition prepare_router_strategy_change (r : registry) (model : string) (strategy : option string) :
    registry * result registry_error change :=
  let c := canonical_model_id r model in
  let cfg := cfg_of r c model in
  let configured := configured_name r cfg in
  let target := s ← strategy; if decide (s = configured) then None else Some s in
  let effective := default configured target in
  let previous := router_overrides r !! c in
  match get_router r c with
  | (r, Raise e) => (r, Raise e)
  | (r, Ok previous_router) =>
      let '(r, built) :=
        if decide (effective = get_router_name r c) then (r, Ok previous_router)
        else _build_router_for_spec r c effective (if bool_decide (effective = configured) then cf_params cfg else []) in
      match built with
      | Raise e => (r, Raise e)
      | Ok router => (r, Ok (Change c effective target previous previous_router router (revision_of r c) (registry_identity r)))
      end
  end.

(** [commit_router_strategy_change] *)
Definition commit_router_strategy_change (r : registry) (t : change) : registry * result registry_error model_router :=
  if negb (bool_decide (ch_registry t = registry_identity r)) then (r, Raise ForeignChange)
  else
    let c := ch_model t in
    if negb (bool_decide (revision_of r c = ch_revision t)) || negb (bool_decide (router_overrides r !! c = ch_previous t))
    then (r, Raise StaleRouterStrategyChange)
    else
      let r := r <| router_overrides := match ch_target t with
                                        | None => delete c (router_overrides r)
                                        | Some s => <[c := s]> (router_overrides r)
                                        end |> in
      let r := _invalidate_router_cache r c in
      let r := r <| router_cache := <[c := ch_router t]> (router_cache r) |> in
      (_bump_router_revision r c, Ok (ch_router t)).

(** [runtime_override_for_router]: the model, its strategy and the configured one. *)
Definition override_matches (r : registry) (router : model_router) : list (string * string * string) :=
  omap (fun p =>
    let configured := configured_name r (default (RouterCfg None []) (configs r !! p.1)) in
    if decide (p.2 = configured) then None
    else if decide (router_cache r !! p.1 = Some router) then Some (p.1, p.2, configured) else None)
    (map_to_list (router_overrides r)).
Definition runtime_override_for_router (r : registry) (router : model_router) :
    result registry_error (option (string * string * string)) :=
  match override_matches r router with
  | [] => Ok None
  | [x] => Ok (Some x)
  | _ => Raise ManyOverrides
  end.

(** [get_cached_router] *)
Definition get_cached_router (r : registry) (model : string) : option model_router :=
  router_cache r !! canonical_model_id r model.

(** [cached_routers] *)
Definition cached_routers (r : registry) : list model_router := (map_to_list (router_cache r)).*2.
End registry.

(** ** Histories *)

Section histories.
Context `{Strategies}.

(** What callers do; a change is committed by its place among those prepared. *)
Inductive registry_op : Type :=
| GetRouter (model : string)
| PrepareChange (model : string) (strategy : option string)
| CommitChange (i : nat)
| ClearOverride (model : string)
| SetFactory (f : hybrid_factory).

Definition world : Type := registry * list change.
Definition registry_step (w : world) (o : registry_op) : world :=
  let '(r, issued) := w in
  match o with
  | GetRouter m => ((get_router r m).1, issued)
  | PrepareChange m s =>
      let '(r, a) := prepare_router_strategy_change r m s in
      (r, match a with Ok t => issued ++ [t] | Raise _ => issued end)
  | CommitChange i => (match issued !! i with Some t => (commit_router_strategy_change r t).1 | None => r end, issued)
  | ClearOverride m => (clear_router_override r m, issued)
  | SetFactory f => ((set_hybrid_router_factory r f).1, issued)
  end.
Definition registry_run (w : world) (ops : list registry_op) : world := fold_left registry_step ops w.

(** The operation changes the strategy of a model: a change accepted or an override
    cleared. *)
Definition changes_model (w : world) (c : string) (o : registry_op) : bool :=
  match o with
  | CommitChange i =>
      match w.2 !! i with
      | Some t => bool_decide (ch_model t = c) && match (commit_router_strategy_change w.1 t).2 with Ok _ => true | _ => false end
      | None => false
      end
  | ClearOverride m => bool_decide (canonical_model_id w.1 m = c)
  | _ => false
  end.
Fixpoint untouched (w : world) (c : string) (ops : list registry_op) : bool :=
  match ops with
  | [] => true
  | o :: rest => negb (changes_model w c o) && untouched (registry_step w o) c rest
  end.

(** Names resolve to names that resolve to themselves, and models are configured under
    those. *)
Record names_ok (r : registry) : Prop := {
  names_settle : forall m, canonical_model_id r (canonical_model_id r m) = canonical_model_id r m;
  configs_canonical : forall m, is_Some (configs r !! m) -> canonical_model_id r m = m
}.

(** What no operation changes. *)
Definition same_setup (r r' : registry) : Prop :=
  configs r' = configs r /\ default_name r' = default_name r /\ alias_to_model r' = alias_to_model r /\
  shared_fixed r' = shared_fixed r /\ registry_identity r' = registry_identity r.

(** What a model's strategy is read from. *)
Definition same_strategy (r r' : registry) (c : string) : Prop :=
  router_overrides r' !! c = router_overrides r !! c /\ revision_of r' c = revision_of r c.

Lemma same_setup_refl r : same_setup r r.
Proof. by split_and!. Qed.
Lemma same_setup_trans r1 r2 r3 : same_setup r1 r2 -> same_setup r2 r3 -> same_setup r1 r3.
Proof. unfold same_setup. intros (?&?&?&?&?) (?&?&?&?&?). split_and!; congruence. Qed.
Lemma same_strategy_trans r1 r2 r3 c : same_strategy r1 r2 c -> same_strategy r2 r3 c -> same_strategy r1 r3 c.
Proof. unfold same_strategy. intros [] []. split; congruence. Qed.

Lemma canonical_setup r r' m : same_setup r r' -> canonical_model_id r' m = canonical_model_id r m.
Proof. intros (_ & _ & Ha & Hs & _). unfold canonical_model_id. by rewrite Ha, Hs. Qed.

Lemma names_ok_same r r' : same_setup r r' -> names_ok r -> names_ok r'.
Proof.
  intros Hs [Hn Hc]. destruct Hs as (Hcf & Hrest). split.
  - intros m. rewrite !(canonical_setup r r') by done. apply Hn.
  - intros m. rewrite Hcf, (canonical_setup r r') by done. apply Hc.
Qed.

(** With the models configured under their own names, an alias reads its model's
    configuration. *)
Lemma cfg_of_canonical r m : names_ok r ->
  cfg_of r (canonical_model_id r m) m = cfg_of r (canonical_model_id r m) (canonical_model_id r m).
Proof.
  intros Hn. unfold cfg_of. destruct (configs r !! canonical_model_id r m) eqn:E; [done|].
  destruct (configs r !! m) eqn:Em; [|done]. rewrite (configs_canonical r Hn m) in E by done. congruence.
Qed.

Lemma router_name_canonical r m : names_ok r -> get_router_name r (canonical_model_id r m) = get_router_name r m.
Proof. intros Hn. unfold get_router_name. by rewrite (names_settle r Hn), <- cfg_of_canonical. Qed.

(** *** One operation *)

Lemma build_keeps r c name p :
  let r' := (_build_router_for_spec r c name p).1 in
  same_setup r r' /\ router_cache r' = router_cache r /\ router_overrides r' = router_overrides r /\
  router_revisions r' = router_revisions r /\ factory r' = factory r.
Proof.
  unfold _build_router_for_spec. destruct (shared_fixed r) eqn:Es; [|by split_and!].
  destruct (decide (name = _)); [destruct (validate_router_config name p); [|by split_and!]|destruct (build_router name p); by split_and!].
  destruct (factory r) as [build|] eqn:Ef; [|by split_and!]. destruct (build c p) as [[]|]; by split_and!.
Qed.

Lemma get_router_keeps r m :
  let r' := (get_router r m).1 in
  same_setup r r' /\ router_overrides r' = router_overrides r /\ router_revisions r' = router_revisions r.
Proof.
  unfold get_router. destruct (router_cache r !! _); [by split_and!|]. destruct (_router_spec _ _ _) as [name p].
  pose proof (build_keeps r (canonical_model_id r m) name p) as Hb. destruct (_build_router_for_spec _ _ _ _) as [r' [router|e]]; cbn in *; naive_solver.
Qed.

Lemma prepare_keeps r m s :
  let r' := (prepare_router_strategy_change r m s).1 in
  same_setup r r' /\ router_overrides r' = router_overrides r /\ router_revisions r' = router_revisions r.
Proof.
  unfold prepare_router_strategy_change. set (c := canonical_model_id r m). pose proof (get_router_keeps r c) as Hg.
  destruct (get_router r c) as [r1 [p|e]]; cbn [fst] in Hg; [|done]. cbv zeta.
  destruct (decide _); [done|].
  match goal with |- context [_build_router_for_spec ?a ?b ?d ?e] => pose proof (build_keeps a b d e) as Hb end.
  destruct (_build_router_for_spec _ _ _ _) as [r2 [q|e]]; cbn [fst] in *; cbv zeta in *;
    (destruct Hg as (? & ? & ?), Hb as (? & ? & ? & ? & ?); split_and!; [by eapply same_setup_trans|congruence..]).
Qed.

Lemma commit_cases r t :
  (exists e, commit_router_strategy_change r t = (r, Raise e)) \/
  (ch_registry t = registry_identity r /\ revision_of r (ch_model t) = ch_revision t /\
   router_overrides r !! ch_model t = ch_previous t /\
   exists r', commit_router_strategy_change r t = (r', Ok (ch_router t)) /\ same_setup r r' /\
     router_overrides r' !! ch_model t = ch_target t /\ router_cache r' !! ch_model t = Some (ch_router t) /\
     revision_of r' (ch_model t) = revision_of r (ch_model t) + 1 /\
     forall c, c <> ch_model t ->
       same_strategy r r' c /\ forall x, router_cache r' !! c = Some x -> router_cache r !! c = Some x).
Proof.
  unfold commit_router_strategy_change. case_bool_decide as E1; [|left; by eexists]. cbn [negb].
  case_bool_decide as E2; [|left; by eexists]. case_bool_decide as E3; [|left; by eexists]. cbn [negb orb].
  right. split_and!; [done..|]. eexists. split; [done|]. split_and!; cbn.
  - by split_and!.
  - destruct (ch_target t); [apply lookup_insert_eq|apply lookup_delete_eq].
  - apply lookup_insert_eq.
  - unfold revision_of. cbn. by rewrite lookup_insert_eq.
  - intros c Hc. split; [split|].
    + cbn. destruct (ch_target t); [by rewrite lookup_insert_ne|by rewrite lookup_delete_ne].
    + unfold revision_of. cbn. by rewrite lookup_insert_ne.
    + intros x. rewrite lookup_insert_ne by done. rewrite map_lookup_filter_Some, lookup_delete_ne by done. naive_solver.
Qed.

Lemma clear_effect r m :
  let r' := clear_router_override r m in let c := canonical_model_id r m in
  same_setup r r' /\ router_cache r' !! c = None /\ revision_of r' c = revision_of r c + 1 /\
  forall c', c' <> c -> same_strategy r r' c' /\ forall x, router_cache r' !! c' = Some x -> router_cache r !! c' = Some x.
Proof.
  unfold clear_router_override. set (c := canonical_model_id r m). split_and!; cbn.
  - by split_and!.
  - apply map_lookup_filter_None. left. apply lookup_delete_eq.
  - unfold revision_of. cbn. by rewrite lookup_insert_eq.
  - intros c' Hc. split; [split; cbn|].
    + by rewrite lookup_delete_ne.
    + unfold revision_of. cbn. by rewrite lookup_insert_ne.
    + intros x. rewrite map_lookup_filter_Some, lookup_delete_ne by done. naive_solver.
Qed.

(** *** The fence *)

Lemma step_fence w o c :
  same_setup w.1 (registry_step w o).1 /\
  if changes_model w c o then revision_of (registry_step w o).1 c = revision_of w.1 c + 1
  else same_strategy w.1 (registry_step w o).1 c.
Proof.
  destruct w as [r issued]. destruct o as [m|m s|i|m|f]; cbn [registry_step changes_model fst snd].
  - pose proof (get_router_keeps r m) as (Hs & Ho & Hr). split; [done|]. unfold same_strategy, revision_of. by rewrite Ho, Hr.
  - pose proof (prepare_keeps r m s) as (Hs & Ho & Hr). destruct (prepare_router_strategy_change r m s) as [r' a]. cbn [fst] in *.
    split; [done|]. unfold same_strategy, revision_of. by rewrite Ho, Hr.
  - destruct (issued !! i) as [t|]; [|split; [apply same_setup_refl|done]].
    destruct (commit_cases r t) as [[e ->]|(_ & _ & _ & r' & -> & Hs & _ & _ & Hr & Hoth)]; cbn [fst snd].
    + rewrite andb_false_r. split; [apply same_setup_refl|done].
    + rewrite andb_true_r. split; [done|]. case_bool_decide as E; [by subst c|]. by apply Hoth.
  - destruct (clear_effect r m) as (Hs & _ & Hr & Hoth). split; [done|]. case_bool_decide as E; [by subst c|]. by apply Hoth.
  - unfold set_hybrid_router_factory. case_decide; (split; [by split_and!|done]).
Qed.

Lemma run_fence ops w c :
  same_setup w.1 (registry_run w ops).1 /\ revision_of w.1 c <= revision_of (registry_run w ops).1 c /\
  if untouched w c ops then same_strategy w.1 (registry_run w ops).1 c
  else revision_of w.1 c < revision_of (registry_run w ops).1 c.
Proof.
  revert w. induction ops as [|o ops IH]; intros w; [split_and!; [apply same_setup_refl|cbn; lia|done]|].
  cbn [registry_run fold_left untouched]. destruct (step_fence w o c) as [Hs Hc].
  destruct (IH (registry_step w o)) as (Hs' & Hle & Hu). unfold registry_run in *. split; [by eapply same_setup_trans|].
  destruct (changes_model w c o); cbn [negb andb]; [lia|]. destruct Hc as [Ho Hr]. split; [lia|].
  destruct (untouched _ c ops); [by eapply same_strategy_trans|lia].
Qed.

(** *** The router of the active strategy *)

(** A router a model may be served by under a strategy. *)
Definition serves (router : model_router) (c name : string) : Prop :=
  match router with
  | SharedFixed => name = "fixed"%string
  | Instance_ _ strategy model => strategy = name /\ model = c
  end.

Definition coherent (r : registry) : Prop :=
  forall c router, canonical_model_id r c = c -> router_cache r !! c = Some router -> serves router c (get_router_name r c).

(** What a prepared change says of itself. *)
Record change_ok (r : registry) (t : change) : Prop := {
  change_canonical : canonical_model_id r (ch_model t) = ch_model t;
  change_serves : serves (ch_router t) (ch_model t) (ch_strategy t);
  change_named : ch_strategy t = default (configured_name r (cfg_of r (ch_model t) (ch_model t))) (ch_target t);
  change_target : ch_target t <> Some ""%string
}.

Lemma truthy_some (o : option string) : o <> Some ""%string -> truthy o = o.
Proof. destruct o as [x|]; [|done]. cbn. intros Hx. case_decide; [congruence|done]. Qed.

Lemma router_name_eq r c : canonical_model_id r c = c ->
  get_router_name r c = default (configured_name r (cfg_of r c c)) (truthy (router_overrides r !! c)).
Proof. intros Hc. unfold get_router_name. by rewrite Hc. Qed.

Lemma cfg_same r r' c : same_setup r r' -> configured_name r' (cfg_of r' c c) = configured_name r (cfg_of r c c).
Proof. intros (Hc & Hd & _). unfold configured_name, cfg_of. by rewrite Hc, Hd. Qed.

Lemma router_name_same r r' c :
  same_setup r r' -> canonical_model_id r c = c -> router_overrides r' !! c = router_overrides r !! c ->
  get_router_name r' c = get_router_name r c.
Proof.
  intros Hs Hc Ho. rewrite !router_name_eq; [|done|by rewrite (canonical_setup r)]. by rewrite (cfg_same r), Ho.
Qed.

Lemma change_ok_same r r' t : same_setup r r' -> change_ok r t -> change_ok r' t.
Proof. intros Hs [H1 H2 H3 H4]. split; [by rewrite (canonical_setup r)|done|by rewrite (cfg_same r)|done]. Qed.

(** Entries that go, or stay while the strategy does, leave the rest coherent. *)
Lemma coherent_shrink r r' :
  same_setup r r' -> coherent r ->
  (forall c x, canonical_model_id r c = c -> router_cache r' !! c = Some x ->
     serves x c (get_router_name r' c) \/
     router_cache r !! c = Some x /\ router_overrides r' !! c = router_overrides r !! c) -> coherent r'.
Proof.
  intros Hs Hco Hx c x Hc Hl. rewrite (canonical_setup r) in Hc by done.
  destruct (Hx c x Hc Hl) as [|[Hl' Ho]]; [done|]. rewrite (router_name_same r) by done. by apply Hco.
Qed.

Lemma build_serves r c name p r' router : _build_router_for_spec r c name p = (r', Ok router) -> serves router c name.
Proof.
  unfold _build_router_for_spec. destruct (shared_fixed r); [|by destruct (validate_router_config name p)].
  destruct (decide (name = _)); [|destruct (build_router name p); [|done]; by intros [= <- <-]].
  destruct (validate_router_config name p); [|done]. destruct (factory r) as [build|]; [|by intros [= <- <-]].
  destruct (build c p) as [[]|]; [by intros [= <- <-]..|done].
Qed.

Lemma build_unnamed r c p : _STRATEGIES !! ""%string = None -> exists e, (_build_router_for_spec r c "" p).2 = Raise e.
Proof.
  intros Hn. unfold _build_router_for_spec, validate_router_config, build_router, _validated_strategy. rewrite Hn.
  destruct (shared_fixed r); cbn; by eexists.
Qed.

(** What [get_router] hands out serves the model under its active strategy. *)
Lemma get_router_coherent r m r' a :
  names_ok r -> coherent r -> get_router r m = (r', a) ->
  coherent r' /\
  match a with
  | Ok router => serves router (canonical_model_id r m) (get_router_name r m) /\ router_cache r' !! canonical_model_id r m = Some router
  | Raise _ => True
  end.
Proof.
  intros Hn Hco E. pose proof (get_router_keeps r m) as (Hs & Ho & _). rewrite E in Hs, Ho. cbn [fst] in Hs, Ho.
  set (c := canonical_model_id r m) in *. pose proof (names_settle r Hn m : canonical_model_id r c = c) as Hc.
  assert (forall router, serves router c (get_router_name r c) ->
    (forall k x, router_cache r' !! k = Some x -> k = m /\ x = router \/ k = c /\ x = router \/ router_cache r !! k = Some x) ->
    coherent r') as Hadd.
  { intros router Hr Hk. apply (coherent_shrink r); [done..|]. intros k x Hck Hx.
    destruct (Hk k x Hx) as [[-> ->]|[[-> ->]|Hl]]; [left|left|right; by rewrite Ho].
    - rewrite (router_name_same r) by (by rewrite ?Ho). assert (c = m) as Hcm by exact Hck. by rewrite Hcm in Hr.
    - by rewrite (router_name_same r) by (by rewrite ?Ho). }
  unfold get_router in E. fold c in E. rewrite <- (router_name_canonical r m) by done. fold c.
  destruct (router_cache r !! c) as [router|] eqn:El.
  - injection E as <- <-. cbn. assert (serves router c (get_router_name r c)) as Hr by (by apply Hco). split.
    + apply (Hadd router); [done|]. cbn. intros k x [[-> ->]|[_ ?]]%lookup_insert_Some; auto.
    + split; [done|]. destruct (decide (m = c)) as [Em|]; [rewrite <- Em; apply lookup_insert_eq|by rewrite lookup_insert_ne].
  - unfold c in E at 2. rewrite cfg_of_canonical in E by done. fold c in E.
    assert (get_router_name r c = (_router_spec r c (cfg_of r c c)).1) as Hname by (unfold get_router_name; by rewrite Hc).
    destruct (_router_spec r c (cfg_of r c c)) as [name p]. cbn [fst] in Hname.
    pose proof (build_keeps r c name p) as Hb. destruct (_build_router_for_spec r c name p) as [r1 [router|e]] eqn:Eb; cbn [fst] in Hb;
      destruct Hb as (Hs1 & Hc1 & Ho1 & _); injection E as <- <-.
    + apply build_serves in Eb. rewrite <- Hname in Eb. cbn. split; [|split; [done|]].
      * apply (Hadd router); [done|]. cbn. rewrite Hc1. intros k x [[-> ->]|[_ [[-> ->]|[_ ?]]%lookup_insert_Some]]%lookup_insert_Some; auto.
      * destruct (decide (m = c)) as [Em|]; [rewrite <- Em; apply lookup_insert_eq|rewrite lookup_insert_ne by done; apply lookup_insert_eq].
    + split; [|done]. apply (coherent_shrink r); [done..|]. intros k x _ Hx. right. rewrite <- Hc1. by rewrite Ho1.
Qed.

(** What [prepare_router_strategy_change] promises of the change it returns. *)
Record prepared (r r' : registry) (m : string) (s : option string) (t : change) : Prop := {
  prepared_ok : change_ok r' t;
  prepared_model : ch_model t = canonical_model_id r m;
  prepared_registry : ch_registry t = registry_identity r';
  prepared_revision : ch_revision t = revision_of r' (ch_model t);
  prepared_previous : ch_previous t = router_overrides r' !! ch_model t;
  prepared_strategy : ch_strategy t = default (configured_name r (cfg_of r (ch_model t) (ch_model t))) s
}.

(** The override asked for is never the empty name of an active strategy. *)
Lemma empty_target r c configured s :
  canonical_model_id r c = c -> configured = configured_name r (cfg_of r c c) ->
  (x ← s; if decide (x = configured) then None else Some x) = Some ""%string -> get_router_name r c <> ""%string.
Proof.
  intros Hc -> Ht. rewrite router_name_eq by done. destruct s as [x|]; [|done]. cbn in Ht.
  destruct (decide (x = _)); [done|]. destruct (router_overrides r !! c) as [o|]; cbn; [|congruence]. case_decide; cbn; congruence.
Qed.

Lemma prepare_ok r m s r' a :
  _STRATEGIES !! ""%string = None -> names_ok r -> coherent r -> prepare_router_strategy_change r m s = (r', a) ->
  coherent r' /\ match a with Ok t => prepared r r' m s t | Raise _ => True end.
Proof.
  intros Hun Hn Hco E. pose proof (prepare_keeps r m s) as (Hs & Ho & Hrev). rewrite E in Hs, Ho, Hrev. cbn [fst] in Hs, Ho, Hrev.
  unfold prepare_router_strategy_change in E. rewrite cfg_of_canonical in E by done. set (c := canonical_model_id r m) in *.
  pose proof (names_settle r Hn m : canonical_model_id r c = c) as Hc. set (configured := configured_name r (cfg_of r c c)) in *.
  destruct (get_router r c) as [r1 g] eqn:Eg. pose proof (get_router_keeps r c) as (Hs1 & Ho1 & Hr1). rewrite Eg in Hs1, Ho1, Hr1. cbn [fst] in *.
  destruct (get_router_coherent r c r1 g Hn Hco Eg) as [Hco1 Hg]. rewrite Hc in Hg.
  destruct g as [previous|e]; [|by injection E as <- <-]. destruct Hg as [Hg _]. cbv zeta in E.
  assert (get_router_name r1 c = get_router_name r c) as Hname by (apply router_name_same; [done..|by rewrite Ho1]).
  pose proof (empty_target r c configured s Hc eq_refl) as Hempty.
  set (target := s ≫= fun x => if decide (x = configured) then None else Some x) in *.
  assert (default configured target = default configured s) as Htarget
    by (subst target; destruct s as [x|]; [cbn; by destruct (decide (x = configured)) as [->|]|done]).
  assert (forall r2 router, same_setup r1 r2 -> router_cache r2 = router_cache r1 -> router_overrides r2 = router_overrides r1 ->
    serves router c (default configured target) -> target <> Some ""%string -> r2 = r' ->
    Ok (Change c (default configured target) target (router_overrides r !! c) previous router (revision_of r2 c) (registry_identity r2)) = a ->
    coherent r' /\ match a with Ok t => prepared r r' m s t | Raise _ => True end) as Hdone.
  { intros r2 router Hs2 Hc2 Ho2 Hserves Hne -> <-. split.
    - apply (coherent_shrink r1); [done..|]. intros k x _ Hx. right. by rewrite <- Hc2, Ho2.
    - split; cbn; [|done..|by rewrite Ho|done]. split; cbn; [by rewrite (canonical_setup r)|done|by rewrite (cfg_same r)|done]. }
  destruct (decide (default configured target = get_router_name r1 c)) as [He|He].
  - injection E as E1 E2. apply (Hdone r1 previous); [apply same_setup_refl|done..| | |done|done]; [by rewrite He, Hname|].
    intros Ht. apply (Hempty Ht). rewrite <- Hname, <- He. by rewrite Ht.
  - match type of E with context [_build_router_for_spec ?a ?b ?d ?e] =>
      pose proof (build_keeps a b d e) as Hb; destruct (_build_router_for_spec a b d e) as [r2 [router|err]] eqn:Eb;
      pose proof (build_unnamed r1 c e Hun) as Hu end; cbn [fst] in Hb; destruct Hb as (Hs2 & Hc2 & Ho2 & Hr2 & _); injection E as E1 E2.
    + apply (Hdone r2 router); [done..|by eapply build_serves| |done|done]. intros Ht. rewrite Ht in Eb, Hu. cbn in Eb, Hu.
      destruct Hu as [x Hx]. by rewrite Eb in Hx.
    + subst r2 a. split; [|done]. apply (coherent_shrink r1); [done..|]. intros k x _ Hx. right. by rewrite <- Hc2, Ho2.
Qed.

Record world_ok (w : world) : Prop := {
  world_names : names_ok w.1;
  world_coherent : coherent w.1;
  world_changes : Forall (change_ok w.1) w.2
}.

Lemma commit_name r r' t :
  same_setup r r' -> change_ok r t -> router_overrides r' !! ch_model t = ch_target t -> get_router_name r' (ch_model t) = ch_strategy t.
Proof.
  intros Hs [H1 _ H3 H4] Ho. rewrite router_name_eq by (by rewrite (canonical_setup r)).
  by rewrite Ho, truthy_some, (cfg_same r), <- H3.
Qed.

Lemma step_ok w o : _STRATEGIES !! ""%string = None -> world_ok w -> world_ok (registry_step w o).
Proof.
  intros Hun [Hn Hco Hch]. destruct (step_fence w o "") as [Hs _].
  assert (coherent (registry_step w o).1 /\ Forall (change_ok (registry_step w o).1) (registry_step w o).2) as [? ?];
    [|split; [by eapply names_ok_same|done..]].
  assert (Forall (change_ok (registry_step w o).1) w.2) as Hch' by (eapply Forall_impl; [exact Hch|]; intros; by eapply change_ok_same).
  destruct w as [r issued]. destruct o as [m|m s|i|m|f]; cbn [registry_step fst snd] in *.
  - split; [|done]. destruct (get_router r m) as [r' a] eqn:E. by apply (get_router_coherent r m r' a).
  - destruct (prepare_router_strategy_change r m s) as [r' a] eqn:E. cbn [fst snd] in *.
    destruct (prepare_ok r m s r' a Hun Hn Hco E) as [? Ha]. split; [done|]. destruct a as [t|]; [|done].
    apply Forall_app. split; [done|]. by apply Forall_singleton, (prepared_ok _ _ _ _ _ Ha).
  - split; [|done]. destruct (issued !! i) as [t|] eqn:Ei; [|done]. rewrite Forall_lookup in Hch. specialize (Hch i t Ei).
    destruct (commit_cases r t) as [[e ->]|(_ & _ & _ & r' & -> & Hs' & Ho & Hc & _ & Hoth)]; [done|]. cbn [fst].
    apply (coherent_shrink r); [done..|]. intros c x _ Hx. destruct (decide (c = ch_model t)) as [->|Hne].
    + left. rewrite Hc in Hx. injection Hx as <-. rewrite (commit_name r) by done. apply Hch.
    + right. destruct (Hoth c Hne) as [[Hov _] Hl]. auto.
  - split; [|done]. destruct (clear_effect r m) as (Hs' & Hc & _ & Hoth). apply (coherent_shrink r); [done..|]. intros c x _ Hx.
    destruct (decide (c = canonical_model_id r m)) as [->|Hne]; [congruence|]. right. destruct (Hoth c Hne) as [[Hov _] Hl]. auto.
  - split; [|done]. unfold set_hybrid_router_factory in *. by case_decide.
Qed.

Lemma world_run_ok ops w : _STRATEGIES !! ""%string = None -> world_ok w -> world_ok (registry_run w ops).
Proof. intros Hun. revert w. induction ops as [|o ops IH]; intros w Hw; [done|]. by apply IH, step_ok. Qed.

(** C17: a change of strategy is published exactly when nothing changed under it.
    After any history, a change prepared for a model and committed after any further
    operations is accepted if and only if no other change of that model was accepted and
    no override of it cleared in between; then every name of the model is served by the
    router that was prepared, under the strategy asked for, and otherwise the registry is
    left as it is.  At every point the router handed out for a name is the one built for
    its model under the model's active strategy, or the shared router if that strategy
    is [fixed]. *)
Theorem strategy_change_fenced cfgs name aliases identity fixed hybrid before m s r2 t after :
  let r0 := new_registry cfgs name aliases identity fixed hybrid in
  let w1 := registry_run (r0, []) before in
  let w2 := (r2, w1.2 ++ [t]) in
  let w3 := registry_run w2 after in
  let c := canonical_model_id r0 m in
  _STRATEGIES !! ""%string = None -> names_ok r0 -> prepare_router_strategy_change w1.1 m s = (r2, Ok t) ->
  ch_strategy t = default (configured_name r0 (cfg_of r0 c c)) s /\
  (if untouched w2 c after then
     exists r4, commit_router_strategy_change w3.1 t = (r4, Ok (ch_router t)) /\
       forall m', canonical_model_id r0 m' = c -> (get_router r4 m').2 = Ok (ch_router t) /\ get_router_name r4 m' = ch_strategy t
   else commit_router_strategy_change w3.1 t = (w3.1, Raise StaleRouterStrategyChange)) /\
  forall m' router, (get_router w3.1 m').2 = Ok router -> serves router (canonical_model_id r0 m') (get_router_name w3.1 m').
Proof.
  intros r0 w1 w2 w3 c Hun Hn0 Hp.
  assert (world_ok (r0, [])) as H0 by (split; [done|by intros ? ? _|constructor]).
  pose proof (world_run_ok before _ Hun H0 : world_ok w1) as [Hn1 Hco1 Hch1].
  destruct (run_fence before (r0, []) c) as (Hs1 & _ & _). fold w1 in Hs1. cbn [fst] in Hs1.
  destruct (prepare_ok _ _ _ _ _ Hun Hn1 Hco1 Hp) as [Hco2 Ht]. pose proof (prepare_keeps w1.1 m s) as (Hs2 & _ & _). rewrite Hp in Hs2. cbn [fst] in Hs2.
  assert (world_ok w2) as H2.
  { split; cbn; [by eapply names_ok_same|done|]. apply Forall_app. split; [|by apply Forall_singleton, Ht].
    eapply Forall_impl; [exact Hch1|]. intros x Hx. by eapply change_ok_same. }
  pose proof (world_run_ok after _ Hun H2 : world_ok w3) as [Hn3 Hco3 Hch3].
  destruct (run_fence after w2 c) as (Hs3 & _ & Hf). fold w3 in Hs3, Hf. change w2.1 with r2 in Hs3, Hf.
  assert (same_setup r0 w3.1) as Hs by (do 2 (eapply same_setup_trans; [eassumption|]); done).
  pose proof (prepared_model _ _ _ _ _ Ht) as Hm. rewrite (canonical_setup r0) in Hm by done. fold c in Hm.
  split_and!.
  - rewrite (prepared_strategy _ _ _ _ _ Ht), Hm. by rewrite (cfg_same r0).
  - pose proof (prepared_revision _ _ _ _ _ Ht) as Hrev. pose proof (prepared_registry _ _ _ _ _ Ht) as Hid.
    pose proof (prepared_previous _ _ _ _ _ Ht) as Hpv. rewrite Hm in Hrev, Hpv.
    assert (registry_identity w3.1 = registry_identity r2) as Hid3 by apply Hs3.
    destruct (untouched w2 c after).
    + destruct Hf as [Hov Hr]. destruct (commit_cases w3.1 t) as [[e E]|(_ & _ & _ & r4 & E & Hs4 & Ho & Hc & _)].
      { exfalso. revert E. unfold commit_router_strategy_change. rewrite Hm. do 3 (rewrite bool_decide_true by (cbn [fst] in *; congruence); cbn [negb orb]). intros Heq. by apply (f_equal snd) in Heq. }
      exists r4. split; [done|]. intros m' Hm'. assert (same_setup r0 r4) as Hs04 by (by eapply same_setup_trans).
      assert (names_ok r4) as Hn4 by (by eapply names_ok_same).
      rewrite <- (router_name_canonical r4 m') by done. rewrite (canonical_setup r0), Hm', <- Hm by done. split.
      * unfold get_router. rewrite (canonical_setup r0), Hm', <- Hm, Hc by done. done.
      * apply (commit_name w3.1); [done|by eapply change_ok_same; [exact Hs3|apply Ht]|done].
    + unfold commit_router_strategy_change. rewrite Hm, bool_decide_true by congruence.
      rewrite (bool_decide_false (revision_of w3.1 c = _)) by lia. done.
  - intros m' router Hr. destruct (get_router w3.1 m') as [r' a] eqn:E.
    destruct (get_router_coherent _ _ _ _ Hn3 Hco3 E) as [_ Ha]. cbn [snd] in Hr. subst a. destruct Ha as [Ha _].
    by rewrite (canonical_setup r0) in Ha.
Qed.
End histories.

(** ** A registry of two strategies *)

Module SampleRouters.
Definition any : strategy_class := StrategyClass (fun _ => true) true (fun _ => true).
#[local] Instance strategies : Strategies := {|
  _STRATEGIES := {["fixed"%string := any; "routewise"%string := any]};
  _MISSING_STRATEGIES := ∅;
  dependencies_supplied := true
|}.
Definition canonical (m : string) : string := if decide (m = "late"%string) then "big"%string else m.
Definition r0 : registry :=
  new_registry {["big"%string := RouterCfg (Some "fixed"%string) []]} "fixed" {["alias"%string := "big"%string]} 7 (Some canonical) None.

Lemma r0_names : names_ok r0.
Proof.
  assert (forall m, canonical_model_id r0 m = "big"%string \/ canonical_model_id r0 m = m /\ m <> "late"%string) as Hcan.
  { intros m. unfold canonical_model_id. cbn. destruct (decide (m = "alias"%string)) as [->|Hm]; [by left|].
    rewrite lookup_singleton_ne by done. cbn. unfold canonical. case_decide; auto. }
  split.
  - intros m. destruct (Hcan m) as [E|[E _]]; rewrite E; [vm_compute; reflexivity|exact E].
  - intros m [x Hx]. cbn in Hx. apply lookup_singleton_Some in Hx as [<- _]. vm_compute. reflexivity.
Qed.

(** A name known only to the route table keeps the replaced router in the cache. *)
Example late_alias_keeps_router :
  let '(r, _) := get_router r0 "late" in
  match prepare_router_strategy_change r "big" (Some "routewise"%string) with
  | (r, Ok t) =>
      let r := (commit_router_strategy_change r t).1 in
      router_cache r !! "late"%string = Some SharedFixed /\ SharedFixed ∈ cached_routers r /\
      (get_router r "late").2 = Ok (Instance_ 0 "routewise" "big")
  | _ => False
  end.
Proof. vm_compute. split_and!; [reflexivity|right; left|reflexivity]. Qed.
End SampleRouters.

Lemma strategy_change_fenced_witness :
  let S := SampleRouters.strategies in
  exists r2 t, prepare_router_strategy_change SampleRouters.r0 "big" (Some "routewise"%string) = (r2, Ok t) /\
    ch_strategy t = "routewise"%string /\
    exists r4, commit_router_strategy_change (registry_run (r2, [t]) [GetRouter "alias"]).1 t = (r4, Ok (ch_router t)) /\
      (get_router r4 "alias").2 = Ok (ch_router t).
Proof.
  intros S. destruct (prepare_router_strategy_change SampleRouters.r0 "big" (Some "routewise"%string)) as [r2 [t|e]] eqn:E;
    [|exfalso; revert E; vm_compute; discriminate].
  exists r2, t. split; [done|].
  destruct (@strategy_change_fenced SampleRouters.strategies _ _ _ _ _ _ [] "big" (Some "routewise"%string) r2 t [GetRouter "alias"]
    ltac:(vm_compute; reflexivity) SampleRouters.r0_names E)
    as (Hs & Hc & _).
  split; [exact Hs|]. cbn [untouched changes_model negb andb] in Hc. destruct Hc as (r4 & H4 & Hall). exists r4. split; [exact H4|].
  by apply (Hall "alias"%string).
Defined.
