(* ===== verification/HybridRouter.v ===== *)
(** The hybrid router: one policy decision per request, the plan of attempts made
    of it, the walk over that plan for an answer or a stream, and the attribution
    of feedback ([routing/hybrid.py], [routing/hybrid_attempt_history.py],
    [routing/dispatch.py], [routing/decisions.py]).

    Policy and backends are interfaces, as the code injects them: classes over the
    type [W] of everything they share (the route table, circuits, clocks).
    [HybridComposition] gives the shipped instances.  A backend call is a function
    of the plan's index and of that world, so other requests may change the world
    while one is awaited. *)

From S2P Require Import Prelude PyText UsageLimit Failures CircuitBreaker EndpointHealth Offload FixedRouter RouteSelection GrantToken HybridFrames.
From stdpp Require Import pretty.

Local Open Scope Z_scope.
Local Open Scope result_scope.

(** ** Decisions and instructions *)

(** [RoutingTarget]; one made by [make_target] sets exactly one of the two. *)
Record routing_target : Type := RoutingTarget {
  target_provider : option string;
  target_endpoint_id : option string
}.

(** [RoutingDecision] *)
Record routing_decision : Type := RoutingDecision {
  decision_backend : string;
  decision_target : option routing_target
}.

(** [FallbackAttempt] *)
Record fallback_attempt : Type := FallbackAttempt {
  fb_backend : string;
  fb_target : option routing_target
}.

(** [EndpointBinding] *)
Record endpoint_binding : Type := EndpointBinding {
  bd_endpoint_id : string;
  bd_model_id : string;
  bd_adapter : adapter;
  bd_pool_id : option string;
  bd_generation : option Z
}.

(** [RoutingRequestOptions] *)
Record request_options : Type := RequestOptions {
  opt_pin_provider : option string;
  opt_preferred_endpoint_id : option string;
  opt_endpoint_scope : option (gset string);
  opt_allow_fallback : bool;
  opt_bound_endpoint : option endpoint_binding;
  opt_require_target : bool;
  opt_required_modalities : gset string
}.
#[export] Instance eta_request_options : Eta request_options := fun o =>
  RequestOptions (opt_pin_provider o) (opt_preferred_endpoint_id o) (opt_endpoint_scope o)
    (opt_allow_fallback o) (opt_bound_endpoint o) (opt_require_target o) (opt_required_modalities o).

Definition no_options : request_options := RequestOptions None None None true None false ∅.

(** [ExecuteEndpoint] and [DelegatePool] *)
Inductive backend_dispatch : Type :=
| ExecuteEndpoint (binding : endpoint_binding)
| DelegatePool (pool_id : string).

(** ** Records of failed attempts *)

(** The record of one failed attempt; a router's own has no backend. *)
Record attempt_record : Type := AttemptRecord {
  ar_endpoint_id : string;
  ar_error_type : chars;
  ar_error : chars;
  ar_provider : option string;
  ar_status_code : option Z;
  ar_backend : option string
}.

(** A [_routing] dict: the members this layer reads or writes. *)
Record routing_block : Type := RoutingBlock {
  rt_endpoint_id : option string;
  rt_provider : option string;
  rt_fallback : option bool;
  rt_failed_attempts : option (list attempt_record);
  rt_backend : option string;
  rt_preferred_endpoint_id : option string;
  rt_preferred_target : option string;
  rt_preference_in_range : option bool
}.
#[export] Instance eta_routing_block : Eta routing_block := fun r =>
  RoutingBlock (rt_endpoint_id r) (rt_provider r) (rt_fallback r) (rt_failed_attempts r) (rt_backend r)
    (rt_preferred_endpoint_id r) (rt_preferred_target r) (rt_preference_in_range r).

Definition no_routing : routing_block := RoutingBlock None None None None None None None None.

(** A failure of an attempt: the exception, and its [_routing] if that is a dict. *)
Record failure : Type := Failure {
  failure_exn : exn;
  failure_routing : option routing_block
}.

(** The class name and the text of an exception. *)
Class ErrorNames := {
  error_name : exn -> chars;
  error_str : exn -> chars
}.

(** [attempt_record] *)
Definition attempt_record_of `{ErrorNames} (backend_name : string) (endpoint_id : option string)
    (f : failure) : attempt_record :=
  let routing := default no_routing (failure_routing f) in
  let resolved := default (default backend_name (truthy endpoint_id)) (truthy (rt_endpoint_id routing)) in
  AttemptRecord resolved (error_name (failure_exn f)) (error_str (failure_exn f))
    (truthy (rt_provider routing)) (http_status_of (failure_exn f)) (Some backend_name).

(** [RoutingTarget.describe] *)
Definition describe (t : routing_target) : string :=
  match truthy (target_endpoint_id t) with
  | Some e => "endpoint:" +:+ e
  | None => "provider:" +:+ default "None"%string (target_provider t)
  end.

(** A response: its body and its [_routing], when that is a dict. *)
Record response : Type := Response {
  resp_body : chars;
  resp_routing : option routing_block
}.

(** [merge_attempt_history] *)
Definition merge_attempt_history (r : response) (attempts : list attempt_record) : response :=
  match attempts with
  | [] => r
  | _ =>
      let routing := default no_routing (resp_routing r) in
      Response (resp_body r) (Some (routing
        <| rt_fallback := Some (default true (rt_fallback routing)) |>
        <| rt_failed_attempts := Some (default [] (rt_failed_attempts routing) ++ attempts) |>))
  end.

(** [tag_backend] *)
Definition tag_backend (r : response) (backend_name : string) : response :=
  Response (resp_body r)
    ((fun routing => routing <| rt_backend := Some (default backend_name (rt_backend routing)) |>) <$> resp_routing r).

(** [tag_preference] *)
Definition tag_preference (r : response) (target : option routing_target) (resolved : option string) : response :=
  Response (resp_body r)
    ((fun routing =>
        let routing := match resolved with
                       | Some e => routing <| rt_preferred_endpoint_id :=
                                               Some (default e (rt_preferred_endpoint_id routing)) |>
                       | None => routing
                       end in
        match target with
        | Some t =>
            routing <| rt_preferred_target := Some (default (describe t) (rt_preferred_target routing)) |>
                    <| rt_preference_in_range :=
                         Some (default (bool_decide (is_Some resolved)) (rt_preference_in_range routing)) |>
        | None => routing
        end) <$> resp_routing r).

(** The loop of [attach_attempt_history] over the records not seen yet. *)
Fixpoint add_unknown (known : gset string) (existing attempts : list attempt_record) : list attempt_record :=
  match attempts with
  | [] => existing
  | r :: rest =>
      if decide (ar_endpoint_id r ∈ known) then add_unknown known existing rest
      else add_unknown ({[ar_endpoint_id r]} ∪ known) (existing ++ [r]) rest
  end.

(** [attach_attempt_history] *)
Definition attach_attempt_history (f : failure) (attempts : list attempt_record) : failure :=
  match attempts, failure_routing f with
  | [], _ | _, None => f
  | _, Some routing =>
      Failure (failure_exn f) (Some (routing <| rt_failed_attempts := Some
        match rt_failed_attempts routing with
        | None => attempts
        | Some existing => add_unknown (list_to_set (ar_endpoint_id <$> existing)) existing attempts
        end |>))
  end.

Definition jstr (s : string) : json := JString (chars_of s).

(** A record as the dict it is. *)
Definition record_json (r : attempt_record) : json :=
  JObject ([(chars_of "endpoint_id", jstr (ar_endpoint_id r));
            (chars_of "error_type", JString (ar_error_type r));
            (chars_of "error", JString (ar_error r))] ++
           from_option (fun p => [(chars_of "provider", jstr p)]) [] (ar_provider r) ++
           from_option (fun s => [(chars_of "status_code", JNumber (chars_of (pretty s)))]) [] (ar_status_code r) ++
           from_option (fun b => [(chars_of "backend", jstr b)]) [] (ar_backend r)).

(** The payload of [attempt_history_chunk]. *)
Definition history_payload (attempts : list attempt_record) (target : option routing_target)
    (resolved : option string) : list (chars * json) :=
  [(chars_of "choices", JArray []);
   (chars_of "_routing", JObject
     ([(chars_of "fallback", JBool true); (chars_of "failed_attempts", JArray (List.map record_json attempts))] ++
      from_option (fun e => [(chars_of "preferred_endpoint_id", jstr e)]) [] resolved ++
      from_option (fun t => [(chars_of "preferred_target", jstr (describe t));
                             (chars_of "preference_in_range", JBool (bool_decide (is_Some resolved)))]) [] target))].

(** [attempt_history_chunk] *)
Definition attempt_history_chunk `{NumberText} (attempts : list attempt_record)
    (target : option routing_target) (resolved : option string) : chunk :=
  data_frame (JObject (history_payload attempts target resolved)).

(** ** What the router is composed of *)

(** What a request brings: [rq_id] is [request_id] when that is a string, and
    [rq_tokens] the prompt's estimated size. *)
Record request : Type := Request {
  rq_model : string;
  rq_options : option request_options;
  rq_id : option string;
  rq_tokens : Z;
  rq_affinity_key : option string
}.

(** A [RoutingObservation]: [obs_request_id] when that is a string. *)
Record observation : Type := Observation {
  obs_request_id : option string;
  obs_model_id : string;
  obs_endpoint_id : string;
  obs_terminal : bool
}.

(** The composition errors: nothing was sent when one is raised. *)
Inductive dispatch_error : Type := DispatchMismatchError | ValueError.

(** What a [RoutingBackend] answers.  The hybrid router reads the optional methods
    with [getattr]; a backend without one is a backend whose method gives the
    default ([serves] true, [resolve_target] and [binding_for] [None],
    [check_instruction] accepting, [dispatch_scope] [None]). *)
Class RoutingBackend (W B : Type) := {
  backend_name : B -> string;
  class_name : B -> string;
  declared_pool_id : B -> option string;
  declares_local : B -> bool;
  declares_cloud : B -> bool;
  serves : W -> B -> string -> bool;
  resolve_target : W -> B -> routing_target -> string -> W * option string;
  binding_for : W -> B -> string -> string -> result dispatch_error (option endpoint_binding);
  check_instruction : W -> B -> backend_dispatch -> string -> result dispatch_error unit;
  dispatch_scope : W -> B -> string -> option (gset string);
  scope_endpoints : W -> B -> gset string -> gset string;
  canonical_id : W -> B -> string -> string;
  owns_observation : W -> B -> observation -> bool
}.

(** What a policy raises: a selection's error, or [ValueError] from a target. *)
Inductive policy_error : Type :=
| PolicySelection (e : selection_error)
| PolicyValue.

(** What a [BackendSelection] answers; [fallback_attempts] where it has the method. *)
Class BackendSelection (W P : Type) := {
  select_backend : W -> P -> request -> W * result policy_error routing_decision;
  fallback_backends : W -> P -> request -> routing_decision -> W * result policy_error (list string);
  fallback_attempts : P ->
    option (W -> request -> routing_decision -> W * result policy_error (list fallback_attempt))
}.

(** [_Attempt] *)
Record planned : Type := Planned {
  pl_backend : string;
  pl_endpoint_id : option string;
  pl_exact : bool;
  pl_domain_fallback : bool
}.
#[export] Instance planned_eq_dec : EqDecision planned.
Proof. solve_decision. Defined.

(** [_FeedbackDispatch] *)
Record feedback_dispatch : Type := FeedbackDispatch {
  fd_model_id : string;
  fd_backend : string;
  fd_endpoints : gmap string string
}.
#[export] Instance eta_feedback_dispatch : Eta feedback_dispatch := fun d =>
  FeedbackDispatch (fd_model_id d) (fd_backend d) (fd_endpoints d).

(** [HybridRouter]: the backends in registration order, and the dispatch records
    in the order of the dict. *)
Record hybrid (B P : Type) : Type := Hybrid {
  h_policy : P;
  h_backends : list (string * B);
  h_max : nat;
  h_decisions : list (string * feedback_dispatch)
}.
Arguments Hybrid {B P}.
Arguments h_policy {B P}.
Arguments h_backends {B P}.
Arguments h_max {B P}.
Arguments h_decisions {B P}.

Definition with_decisions {B P} (d : list (string * feedback_dispatch)) (h : hybrid B P) : hybrid B P :=
  Hybrid (h_policy h) (h_backends h) (h_max h) d.

(** A dict kept as its items, in insertion order. *)
Definition find_item {A} (k : string) (d : list (string * A)) : option A :=
  snd <$> find (fun x => bool_decide (x.1 = k)) d.
Definition remove_item {A} (k : string) (d : list (string * A)) : list (string * A) :=
  filter (fun x => x.1 <> k) d.
Definition put_item {A} (k : string) (v : A) (d : list (string * A)) : list (string * A) :=
  if bool_decide (k ∈ d.*1) then (fun x => if decide (x.1 = k) then (k, v) else x) <$> d else d ++ [(k, v)].

(** ** Outcomes *)

Inductive hybrid_error : Type :=
| PolicyRaised (e : policy_error)
| HybridRoutingError.

(** What a backend call is made with: the backend, its options, the target of the
    first attempt. *)
Record call : Type := Call {
  call_attempt : planned;
  call_options : request_options;
  call_target : option routing_target
}.

(** How a backend call ends. *)
Inductive outcome (A : Type) : Type :=
| CallAnswered (r : A)
| CallRefused (e : selection_error)     (* TargetUnavailableError, AllCircuitsOpenError *)
| CallMismatch                          (* DispatchMismatchError *)
| CallFailed (f : failure)              (* any other [Exception] *)
| CallCancelled.
Arguments CallAnswered {A}.
Arguments CallRefused {A}.
Arguments CallMismatch {A}.
Arguments CallFailed {A}.
Arguments CallCancelled {A}.

(** How a request ends. *)
Inductive ending (A : Type) : Type :=
| Answered (r : A)
| RaisedFailure (f : failure)                  (* an attempt's error *)
| RaisedRefusal (e : selection_error)          (* an admission refusal *)
| RaisedDispatch (e : dispatch_error)          (* a composition error *)
| RaisedHybrid (e : hybrid_error)
| Cancelled.                                   (* [CancelledError] and the like *)
Arguments Answered {A}.
Arguments RaisedFailure {A}.
Arguments RaisedRefusal {A}.
Arguments RaisedDispatch {A}.
Arguments RaisedHybrid {A}.
Arguments Cancelled {A}.

(** What a walk has gathered so far. *)
Record walk : Type := Walk {
  wk_attempts : list attempt_record;
  wk_errors : list failure;
  wk_refusals : list selection_error;
  wk_dispatched : gset string
}.
Definition new_walk : walk := Walk [] [] [] ∅.

(** How a backend's stream ends. *)
Inductive stream_end : Type :=
| StreamEnded
| StreamRefused (e : selection_error)
| StreamMismatch
| StreamFailed (f : failure)
| StreamCancelled.

(** What the walk does that others see: a stream opened for an attempt, a chunk of it
    sent on (as it was read, and as it was sent), the frame of earlier attempts, the
    stream closed. *)
Inductive event : Type :=
| Opened (index : nat) (c : call)
| Sent (index : nat) (raw sent : chunk)
| SentHistory (sent : chunk)
| Closed (index : nat).

Section hybrid.
Context {W B P : Type} `{RB : RoutingBackend W B} `{BS : BackendSelection W P}.
Implicit Types (w : W) (h : hybrid B P).

(** ** Construction *)

(** [_check_backend_domain]; [local] is the side the backend was passed as. *)
Definition _check_backend_domain (b : B) (local : bool) : bool :=
  if local then negb (declares_cloud b) else negb (declares_local b).

(** [_register_backend] *)
Definition _register_backend (l : list (string * B)) (b : B) : result unit (list (string * B)) :=
  let name := backend_name b in
  if bool_decide (name = ""%string) || bool_decide (name ∈ l.*1) then Raise tt else Ok (l ++ [(name, b)]).

(** [HybridRouter(...)]; every refusal is a [ValueError]. *)
Definition new_hybrid (policy : P) (local cloud : B) (max_recorded : Z) : result unit (hybrid B P) :=
  if bool_decide (max_recorded < 1) then Raise tt
  else if negb (_check_backend_domain local true) || negb (_check_backend_domain cloud false) then Raise tt
  else
    try! l <- _register_backend [] local ;;
    try! l <- _register_backend l cloud ;;
    Ok (Hybrid policy l (Z.to_nat max_recorded) []).

(** [canonical_id] *)
Definition hybrid_canonical_id w h (model : string) : string :=
  default model (head (omap (fun x : string * B =>
    let resolved := canonical_id w x.2 model in
    if decide (resolved = model) then None else Some resolved) (h_backends h))).

(** ** Dispatch records *)

(** [_remember_backend_decision] *)
Definition _remember_backend_decision w h (request_id : option string) (backend : string) (model : string)
    (routing : option routing_block) (endpoint_id : option string) : hybrid B P :=
  match truthy request_id with
  | None => h
  | Some id =>
      let decisions := h_decisions h in
      let decisions := if bool_decide (id ∉ decisions.*1) && bool_decide (h_max h <= length decisions)%nat
                       then tail decisions else decisions in
      let record := default (FeedbackDispatch (hybrid_canonical_id w h model) backend ∅) (find_item id decisions) in
      let routing := default no_routing routing in
      let endpoint := match truthy (rt_endpoint_id routing) with
                      | Some e => Some e
                      | None => truthy endpoint_id
                      end in
      let endpoints := match endpoint with
                       | Some e => <[e := backend]> (fd_endpoints record)
                       | None => fd_endpoints record
                       end in
      let endpoints := fold_left (fun m r =>
          match truthy (Some (ar_endpoint_id r)) with Some e => <[e := backend]> m | None => m end)
        (default [] (rt_failed_attempts routing)) endpoints in
      with_decisions (put_item id (record <| fd_backend := backend |> <| fd_endpoints := endpoints |>) decisions) h
  end.

(** [_release_decision] *)
Definition _release_decision h (obs : observation) : hybrid B P :=
  if negb (obs_terminal obs) then h
  else match truthy (obs_request_id obs) with
       | Some id => with_decisions (remove_item id (h_decisions h)) h
       | None => h
       end.

(** [_resolve_feedback_backend] *)
Definition _resolve_feedback_backend w h (obs : observation) : hybrid B P * option string :=
  match obs_request_id obs ≫= fun id => find_item id (h_decisions h) with
  | Some recorded =>
      if bool_decide (hybrid_canonical_id w h (obs_model_id obs) <> fd_model_id recorded) then (h, None)
      else
        let backend := match fd_endpoints recorded !! obs_endpoint_id obs with
                       | Some b => Some b
                       | None => if bool_decide (fd_endpoints recorded = ∅) then Some (fd_backend recorded) else None
                       end in
        (_release_decision h obs, backend)
  | None =>
      match filter (fun x : string * B => owns_observation w x.2 obs) (h_backends h) with
      | [owner] => (_release_decision h obs, Some owner.1)
      | _ => (h, None)
      end
  end.

(** ** Decision and plan *)

(** [backend_pool_id] *)
Definition backend_pool_id (b : B) : string :=
  match truthy (declared_pool_id b) with
  | Some p => p
  | None => default (class_name b) (truthy (Some (backend_name b)))
  end.

(** [select_decision] *)
Definition select_decision w h (rq : request) : W * hybrid B P * result hybrid_error routing_decision :=
  let '(w, d) := select_backend w (h_policy h) rq in
  match d with
  | Raise e => (w, h, Raise (PolicyRaised e))
  | Ok decision =>
      if bool_decide (decision_backend decision ∈ (h_backends h).*1) then
        (w, _remember_backend_decision w h (rq_id rq) (decision_backend decision) (rq_model rq) None None, Ok decision)
      else (w, h, Raise HybridRoutingError)
  end.

(** The test of [_fallback_order]: another registered backend that serves the model. *)
Definition can_take_over w h (rq : request) (d : routing_decision) (n : string) : bool :=
  match find_item n (h_backends h) with
  | Some b => bool_decide (n <> decision_backend d) && serves w b (rq_model rq)
  | None => false
  end.

(** [fallback_backends], then [_fallback_order]. *)
Definition _fallback_order w h (rq : request) (d : routing_decision) : W * result policy_error (list string) :=
  let '(w, l) := fallback_backends w (h_policy h) rq d in
  match l with
  | Raise e => (w, Raise e)
  | Ok l =>
      (w, Ok (filter (can_take_over w h rq d) l))
  end.

(** [_requested_fallbacks]: the candidates in order, and whether they are named. *)
Definition _requested_fallbacks w h (rq : request) (d : routing_decision) :
    W * result policy_error (list (string * option routing_target) * bool) :=
  match fallback_attempts (h_policy h) with
  | Some attempts =>
      let '(w, l) := attempts w rq d in
      match l with
      | Raise e => (w, Raise e)
      | Ok l => (w, Ok ((fun a => (fb_backend a, fb_target a)) <$>
                          filter (fun a => fb_backend a ∈ (h_backends h).*1) l, true))
      end
  | None =>
      let '(w, l) := _fallback_order w h rq d in
      match l with
      | Raise e => (w, Raise e)
      | Ok l => (w, Ok ((fun n => (n, None)) <$> l, false))
      end
  end.

(** [_resolved_endpoint] *)
Definition _resolved_endpoint w (b : B) (t : option routing_target) (model : string) : W * option string :=
  match t with
  | None => (w, None)
  | Some t => resolve_target w b t model
  end.

(** The loop of [_attempt_plan] over the requested candidates. *)
Fixpoint plan_loop w h (model : string) (primary : option string)
    (l : list (string * option routing_target)) : W * list planned :=
  match l with
  | [] => (w, [])
  | (name, t) :: rest =>
      match find_item name (h_backends h) with
      | None => plan_loop w h model primary rest
      | Some b =>
          if negb (serves w b model) then plan_loop w h model primary rest
          else
            match t with
            | None => let '(w, p) := plan_loop w h model primary rest in (w, Planned name None false true :: p)
            | Some t =>
                match target_endpoint_id t with
                | None => plan_loop w h model primary rest
                | Some e =>
                    if bool_decide (Some e = primary) then plan_loop w h model primary rest
                    else
                      let '(w, resolved) := _resolved_endpoint w b (Some t) model in
                      match resolved with
                      | None => plan_loop w h model primary rest
                      | Some e' =>
                          let '(w, p) := plan_loop w h model primary rest in (w, Planned name (Some e') true false :: p)
                      end
                end
            end
      end
  end.

(** [_attempt_plan] *)
Definition _attempt_plan w h (rq : request) (d : routing_decision) : W * result policy_error (list planned) :=
  match find_item (decision_backend d) (h_backends h) with
  | None => (w, Ok [])
  | Some b =>
      let '(w, primary) := _resolved_endpoint w b (decision_target d) (rq_model rq) in
      let '(w, requested) := _requested_fallbacks w h rq d in
      match requested with
      | Raise e => (w, Raise e)
      | Ok (fallbacks, per_endpoint) =>
          let '(w, p) := plan_loop w h (rq_model rq) primary fallbacks in
          (w, Ok (Planned (decision_backend d) primary false (negb per_endpoint) :: p))
      end
  end.

(** ** One attempt *)

(** [_binding_for_attempt] *)
Definition _binding_for_attempt w (b : B) (model : string) (a : planned) :
    result dispatch_error (option endpoint_binding) :=
  match pl_endpoint_id a with
  | None => Ok None
  | Some e => binding_for w b model e
  end.

(** [dispatch_for_attempt] *)
Definition dispatch_for_attempt (pool_id : string) (binding : option endpoint_binding) (exact : bool) :
    result dispatch_error backend_dispatch :=
  if exact then
    match binding with
    | None => Raise DispatchMismatchError
    | Some bd =>
        Ok (ExecuteEndpoint (match bd_pool_id bd with
                             | Some _ => bd
                             | None => EndpointBinding (bd_endpoint_id bd) (bd_model_id bd) (bd_adapter bd)
                                         (Some pool_id) (bd_generation bd)
                             end))
    end
  else if decide (pool_id = ""%string) then Raise ValueError else Ok (DelegatePool pool_id).

(** [_attempt_scope] *)
Definition _attempt_scope w (b : B) (model : string) (imposed : option (gset string)) : option (gset string) :=
  match imposed, dispatch_scope w b model with
  | None, declared => declared
  | Some i, None => Some i
  | Some i, Some d => Some (scope_endpoints w b i ∩ scope_endpoints w b d)
  end.

(** [_attempt_options] *)
Definition _attempt_options w (opts : option request_options) (b : B) (a : planned) (model : string)
    (binding : option endpoint_binding) : request_options :=
  let scope := _attempt_scope w b model (opts ≫= opt_endpoint_scope) in
  (default no_options opts)
    <| opt_preferred_endpoint_id := pl_endpoint_id a |> <| opt_endpoint_scope := scope |>
    <| opt_allow_fallback := pl_domain_fallback a |> <| opt_bound_endpoint := binding |>
    <| opt_require_target := pl_exact a |>.

(** An attempt up to its call: the binding it names, the instruction and its check. *)
Definition prepare w h (rq : request) (d : routing_decision) (index : nat) (a : planned) :
    result dispatch_error call :=
  match find_item (pl_backend a) (h_backends h) with
  | None => Raise ValueError
  | Some b =>
      try! binding <- _binding_for_attempt w b (rq_model rq) a ;;
      try! instruction <- dispatch_for_attempt (backend_pool_id b) binding (pl_exact a) ;;
      try! _ <- check_instruction w b instruction (rq_model rq) ;;
      Ok (Call a (_attempt_options w (rq_options rq) b a (rq_model rq) binding)
            (if bool_decide (index = 0%nat) then decision_target d else None))
  end.

(** [_remember_dispatched] *)
Definition _remember_dispatched (dispatched : gset string) (a : planned) (f : failure) : gset string :=
  let observed := match truthy (failure_routing f ≫= rt_endpoint_id) with
                  | Some e => Some e
                  | None => pl_endpoint_id a
                  end in
  match observed with
  | Some e => {[e]} ∪ dispatched
  | None => dispatched
  end.

(** The plan has already run the endpoint of an attempt. *)
Definition already_ran (dispatched : gset string) (a : planned) : bool :=
  match pl_endpoint_id a with
  | Some e => bool_decide (e ∈ dispatched)
  | None => false
  end.

Section walks.
Context `{ErrorTexts, ErrorNames}.

(** [_refusals_end_plan] *)
Definition _refusals_end_plan (errors : list failure) : bool :=
  request_refusals_end_fallback (failure_exn <$> errors).

(** [_raise_after_attempts] *)
Definition _raise_after_attempts {A} (k : walk) : ending A :=
  match wk_errors k with
  | [] =>
      match wk_refusals k with
      | e :: _ => RaisedRefusal e
      | [] => RaisedHybrid HybridRoutingError
      end
  | errors =>
      match errors !! select_surfaced_error (failure_exn <$> errors) with
      | Some f => RaisedFailure (attach_attempt_history f (wk_attempts k))
      | None => RaisedHybrid HybridRoutingError
      end
  end.

(** The walk after a failed attempt. *)
Definition failed (k : walk) (a : planned) (f : failure) : walk :=
  Walk (wk_attempts k ++ [attempt_record_of (pl_backend a) (pl_endpoint_id a) f]) (wk_errors k ++ [f])
    (wk_refusals k) (_remember_dispatched (wk_dispatched k) a f).

Definition refused (k : walk) (e : selection_error) : walk :=
  Walk (wk_attempts k) (wk_errors k) (wk_refusals k ++ [e]) (wk_dispatched k).

(** ** An answer *)

(** What other requests share with this one: the world and the dispatch records. *)
Definition shared : Type := W * list (string * feedback_dispatch).
Definition share (w : W) (h : hybrid B P) : shared := (w, h_decisions h).

(** The loop of [chat_completion] from an index of the plan on; the last component
    is the calls made and how they ended. *)
Fixpoint chat_loop (serve : nat -> shared -> call -> shared * outcome response) (rq : request)
    (d : routing_decision) (preferred : option string) (index : nat) (plan : list planned) (w : W)
    (h : hybrid B P) (k : walk) : W * hybrid B P * ending response * list (call * outcome response) :=
  match plan with
  | [] => (w, h, _raise_after_attempts k, [])
  | a :: rest =>
      if already_ran (wk_dispatched k) a then chat_loop serve rq d preferred (S index) rest w h k
      else
        match prepare w h rq d index a with
        | Raise e => (w, h, RaisedDispatch e, [])
        | Ok c =>
            let '(w, ds, o) := serve index (share w h) c in
            let h := with_decisions ds h in
            let remember routing :=
              _remember_backend_decision w h (rq_id rq) (pl_backend a) (rq_model rq) routing (pl_endpoint_id a) in
            let go_on h k :=
              let '(w, h, r, log) := chat_loop serve rq d preferred (S index) rest w h k in
              (w, h, r, (c, o) :: log) in
            match o with
            | CallRefused e => go_on h (refused k e)
            | CallMismatch => (w, h, RaisedDispatch DispatchMismatchError, [(c, o)])
            | CallCancelled => (w, h, Cancelled, [(c, o)])
            | CallFailed f =>
                let h := remember (failure_routing f) in
                let k := failed k a f in
                if _refusals_end_plan (wk_errors k) then (w, h, _raise_after_attempts k, [(c, o)])
                else go_on h k
            | CallAnswered resp =>
                (w, remember (resp_routing resp),
                 Answered (tag_preference (tag_backend (merge_attempt_history resp (wk_attempts k)) (pl_backend a))
                             (decision_target d) preferred),
                 [(c, o)])
            end
        end
  end.

(** What both entry points do before the first attempt: the decision, the plan and
    the endpoint the decision's target names. *)
Definition plan_request (w : W) (h : hybrid B P) (rq : request) :
    W * hybrid B P * result hybrid_error (routing_decision * list planned * option string) :=
  let '(w, h, d) := select_decision w h rq in
  match d with
  | Raise e => (w, h, Raise e)
  | Ok d =>
      let '(w, plan) := _attempt_plan w h rq d in
      match plan with
      | Raise e => (w, h, Raise (PolicyRaised e))
      | Ok plan =>
          let '(w, preferred) :=
            match find_item (decision_backend d) (h_backends h) with
            | Some b => _resolved_endpoint w b (decision_target d) (rq_model rq)
            | None => (w, None)
            end in
          (w, h, Ok (d, plan, preferred))
      end
  end.

(** [chat_completion] *)
Definition chat_completion (serve : nat -> shared -> call -> shared * outcome response) (w : W)
    (h : hybrid B P) (rq : request) : W * hybrid B P * ending response * list (call * outcome response) :=
  let '(w, h, p) := plan_request w h rq in
  match p with
  | Raise e => (w, h, RaisedHybrid e, [])
  | Ok (d, plan, preferred) => chat_loop serve rq d preferred 0 plan w h new_walk
  end.

(** ** A stream *)

(** The text of an id, which is ASCII. *)
Definition string_of (t : chars) : string := String.string_of_list_ascii (Ascii.ascii_of_N <$> t).

(** The non-empty endpoint id of a JSON object. *)
Definition json_endpoint (v : json) : option string :=
  match v with
  | JObject ms => match member (chars_of "endpoint_id") ms with
                  | Some (JString e) => truthy (Some (string_of e))
                  | _ => None
                  end
  | _ => None
  end.

(** What the dispatch record keeps of a frame's [_routing]: the endpoint ids. *)
Definition routing_of_json (v : option json) : option routing_block :=
  match v with
  | Some (JObject ms) =>
      Some (no_routing
        <| rt_endpoint_id := json_endpoint (JObject ms) |>
        <| rt_failed_attempts :=
             match member (chars_of "failed_attempts") ms with
             | Some (JArray l) => Some ((fun e => AttemptRecord e [] [] None None None) <$> omap json_endpoint l)
             | _ => None
             end |>)
  | _ => None
  end.

(** [_remember_stream_dispatch] *)
Definition _remember_stream_dispatch (w : W) (h : hybrid B P) (rq : request) (a : planned) (c : chunk) :
    hybrid B P :=
  let routing :=
    match c with
    | Dict ms => member (chars_of "_routing") ms
    | Text t =>
        if is_prefix DATA t && carries_routing c then
          match loads_text (strip (drop 6 t)) with
          | Some (JObject ms) => member (chars_of "_routing") ms
          | _ => None
          end
        else None
    | Opaque _ => None
    end in
  _remember_backend_decision w h (rq_id rq) (pl_backend a) (rq_model rq) (routing_of_json routing) None.

(** A backend's stream: its chunks and its end, each with what others did to the
    shared state before it came. *)
Record stream : Type := Stream {
  st_chunks : list ((shared -> shared) * chunk);
  st_end : (shared -> shared) * stream_end
}.

Context `{NumberText}.

Definition tagged (c : chunk) (a : planned) : chunk := tag_backend_chunk c (chars_of (pl_backend a)).

Definition resume (f : shared -> shared) (w : W) (h : hybrid B P) : W * hybrid B P :=
  let '(w, ds) := f (share w h) in (w, with_decisions ds h).

(** The chunks after the first: what is recorded, whether the client has seen any
    of the attempt, and what is sent. *)
Fixpoint forward (index : nat) (rq : request) (a : planned) (l : list ((shared -> shared) * chunk)) (w : W)
    (h : hybrid B P) (committed : bool) : W * hybrid B P * bool * list event :=
  match l with
  | [] => (w, h, committed, [])
  | (f, c) :: rest =>
      let '(w, h) := resume f w h in
      let h := if negb committed || carries_routing c then _remember_stream_dispatch w h rq a c else h in
      let committed := committed || is_client_visible c in
      let '(w, h, committed, sent) := forward index rq a rest w h committed in
      (w, h, committed, Sent index c (tagged c a) :: sent)
  end.

(** The reading of one stream, up to its end. *)
Definition read_stream (index : nat) (rq : request) (d : routing_decision) (preferred : option string)
    (a : planned) (s : stream) (w : W) (h : hybrid B P) (k : walk) : W * hybrid B P * bool * list event :=
  match st_chunks s with
  | [] => (w, h, false, [])
  | (f, c) :: rest =>
      let '(w, h) := resume f w h in
      let h := _remember_stream_dispatch w h rq a c in
      let history := match wk_attempts k with
                     | [] => []
                     | l => [SentHistory (attempt_history_chunk l (decision_target d) preferred)]
                     end in
      let '(w, h, committed, sent) := forward index rq a rest w h (is_client_visible c) in
      (w, h, committed, history ++ Sent index c (tagged c a) :: sent)
  end.

(** [RuntimeError("stream produced no output")] *)
Definition empty_error : failure := Failure (Exn OtherException no_attrs) None.

(** The walk after an empty stream. *)
Definition came_empty (k : walk) (a : planned) : walk :=
  Walk (wk_attempts k ++ [attempt_record_of (pl_backend a) (pl_endpoint_id a) empty_error])
    (wk_errors k ++ [empty_error]) (wk_refusals k) (wk_dispatched k).

(** The loop of [_fallback_stream] from an index of the plan on. *)
Fixpoint stream_loop (serve : nat -> shared -> call -> shared * result dispatch_error stream) (rq : request)
    (d : routing_decision) (preferred : option string) (index : nat) (plan : list planned) (w : W)
    (h : hybrid B P) (k : walk) : W * hybrid B P * ending unit * list event :=
  match plan with
  | [] => (w, h, _raise_after_attempts k, [])
  | a :: rest =>
      if already_ran (wk_dispatched k) a then stream_loop serve rq d preferred (S index) rest w h k
      else
        match prepare w h rq d index a with
        | Raise e => (w, h, RaisedDispatch e, [])
        | Ok c =>
            let '(w, ds, s) := serve index (share w h) c in
            let h := with_decisions ds h in
            match s with
            | Raise e => (w, h, RaisedDispatch e, [])
            | Ok s =>
                let '(w, h, committed, sent) := read_stream index rq d preferred a s w h k in
                let '(w, h) := resume (st_end s).1 w h in
                let log := Opened index c :: sent ++ [Closed index] in
                let stop h r := (w, h, r, log) in
                let go_on h k :=
                  let '(w, h, r, more) := stream_loop serve rq d preferred (S index) rest w h k in
                  (w, h, r, log ++ more) in
                match (st_end s).2 with
                | StreamEnded =>
                    match st_chunks s with
                    | [] => go_on h (came_empty k a)
                    | _ => stop h (Answered tt)
                    end
                | StreamRefused e => if committed then stop h (RaisedRefusal e) else go_on h (refused k e)
                | StreamMismatch => stop h (RaisedDispatch DispatchMismatchError)
                | StreamCancelled => stop h Cancelled
                | StreamFailed f =>
                    let h := _remember_backend_decision w h (rq_id rq) (pl_backend a) (rq_model rq)
                               (failure_routing f) (pl_endpoint_id a) in
                    if committed then stop h (RaisedFailure f)
                    else
                      let k := failed k a f in
                      if _refusals_end_plan (wk_errors k) then stop h (_raise_after_attempts k) else go_on h k
                end
            end
        end
  end.

(** [stream_chat_completion], read to its end. *)
Definition stream_chat_completion (serve : nat -> shared -> call -> shared * result dispatch_error stream)
    (w : W) (h : hybrid B P) (rq : request) : W * hybrid B P * ending unit * list event :=
  let '(w, h, p) := plan_request w h rq in
  match p with
  | Raise e => (w, h, RaisedHybrid e, [])
  | Ok (d, plan, preferred) => stream_loop serve rq d preferred 0 plan w h new_walk
  end.

End walks.
End hybrid.

(** ** A small composition *)

(** Two backends that serve the endpoints they list, and a policy that names a first
    endpoint and an order of others. *)
Module SampleHybrid.
Record backend : Type := SampleBackend { sb_name : string; sb_endpoints : list string }.
Record policy : Type := SamplePolicy { sp_first : string * string; sp_rest : list (string * string) }.

#[global] Instance sample_backend : RoutingBackend unit backend := {
  backend_name := sb_name;
  class_name _ := "SampleBackend"%string;
  declared_pool_id _ := None;
  declares_local _ := false;
  declares_cloud _ := false;
  serves _ _ _ := true;
  resolve_target w b t _ := (w, e ← target_endpoint_id t; if decide (e ∈ sb_endpoints b) then Some e else None);
  binding_for _ b m e :=
    Ok (if decide (e ∈ sb_endpoints b) then Some (EndpointBinding e m 0%nat None None) else None);
  check_instruction _ _ _ _ := Ok tt;
  dispatch_scope _ b _ := Some (list_to_set (sb_endpoints b));
  scope_endpoints _ b s := s ∩ list_to_set (sb_endpoints b);
  canonical_id _ _ m := m;
  owns_observation _ b obs := bool_decide (obs_endpoint_id obs ∈ sb_endpoints b)
}.

#[global] Instance sample_policy : BackendSelection unit policy := {
  select_backend w p _ :=
    (w, Ok (RoutingDecision (sp_first p).1 (Some (RoutingTarget None (Some (sp_first p).2)))));
  fallback_backends w p _ _ := (w, Ok []);
  fallback_attempts p := Some (fun w _ _ =>
    (w, Ok ((fun x => FallbackAttempt x.1 (Some (RoutingTarget None (Some x.2)))) <$> sp_rest p)))
}.

Definition local : backend := SampleBackend "local" ["l1"; "l2"].
Definition cloud : backend := SampleBackend "cloud" ["c1"].
Definition router : hybrid backend policy :=
  Hybrid (SamplePolicy ("local", "l1") [("cloud", "c1"); ("local", "l2")]) [("local", local); ("cloud", cloud)]
    4 [].
Definition rq : request := Request "m" None (Some "r") 10 None.
Definition reset : failure := Failure (Exn OtherException no_attrs) None.
End SampleHybrid.
