(* ===== verification/HybridChat.v ===== *)
(** What a hybrid request without streaming does: the theorems about [chat_completion]
    of [HybridRouter]. *)

From S2P Require Import Prelude PyText UsageLimit Failures CircuitBreaker EndpointHealth Offload FixedRouter RouteSelection GrantToken HybridFrames HybridRouter.

Local Open Scope Z_scope.

Section chat.
Context {W B P : Type} `{RB : RoutingBackend W B} `{BS : BackendSelection W P}.
Context `{ErrorTexts, ErrorNames, NumberText}.
Implicit Types (w : W) (h : hybrid B P).

(** ** The walk for an answer *)

(** The attempts a log of calls made, the failures among them and the refusals. *)
Definition calls {A} (log : list (call * outcome A)) : list planned := (call_attempt ∘ fst) <$> log.
Definition failures {A} (log : list (call * outcome A)) : list (planned * failure) :=
  omap (fun x => match x.2 with CallFailed f => Some (call_attempt x.1, f) | _ => None end) log.
Definition refusals_of {A} (log : list (call * outcome A)) : list selection_error :=
  omap (fun x => match x.2 with CallRefused e => Some e | _ => None end) log.

Definition record_of (x : planned * failure) : attempt_record :=
  attempt_record_of (pl_backend x.1) (pl_endpoint_id x.1) x.2.

(** The walk gathered from a log. *)
Definition gathered {A} (k : walk) (log : list (call * outcome A)) : walk :=
  Walk (wk_attempts k ++ (record_of <$> failures log)) (wk_errors k ++ (snd <$> failures log))
    (wk_refusals k ++ refusals_of log)
    (fold_left (fun s x => _remember_dispatched s x.1 x.2) (failures log) (wk_dispatched k)).

(** No call of a log names an endpoint an earlier failed call ran. *)
Fixpoint no_rerun {A} (ran : gset string) (log : list (call * outcome A)) : Prop :=
  match log with
  | [] => True
  | (c, o) :: rest =>
      already_ran ran (call_attempt c) = false /\
      no_rerun (match o with CallFailed f => _remember_dispatched ran (call_attempt c) f | _ => ran end) rest
  end.

(** Only a refusal or a failure is followed by another call. *)
Definition moves_on {A} (o : outcome A) : bool :=
  match o with CallRefused _ | CallFailed _ => true | _ => false end.

(** How a walk ends, given the calls it made. *)
Definition verdict (d : routing_decision) (preferred : option string) (k : walk)
    (log : list (call * outcome response)) : ending response :=
  match last log with
  | Some (c, CallAnswered resp) =>
      Answered (tag_preference (tag_backend (merge_attempt_history resp (wk_attempts (gathered k log)))
                  (pl_backend (call_attempt c))) (decision_target d) preferred)
  | Some (_, CallMismatch) => RaisedDispatch DispatchMismatchError
  | Some (_, CallCancelled) => Cancelled
  | _ => _raise_after_attempts (gathered k log)
  end.

(** Every attempt of a plan was called, or named an endpoint that had run. *)
Definition exhausted {A} (ran : gset string) (plan : list planned) (log : list (call * outcome A)) : Prop :=
  forall a, a ∈ plan -> a ∈ calls log \/
    already_ran (fold_left (fun s x => _remember_dispatched s x.1 x.2) (failures log) ran) a = true.

Lemma remember_dispatched_mono s a f : s ⊆ _remember_dispatched s a f.
Proof. unfold _remember_dispatched. destruct (match truthy _ with Some e => Some e | None => _ end); set_solver. Qed.

Lemma dispatched_mono l s : s ⊆ fold_left (fun s x => _remember_dispatched s x.1 x.2) l s.
Proof.
  revert s; induction l as [|[a f] l IH]; intros s; simpl; [done|].
  etrans; [apply (remember_dispatched_mono s a f)|apply IH].
Qed.

Lemma already_ran_mono s s' a : s ⊆ s' -> already_ran s a = true -> already_ran s' a = true.
Proof. unfold already_ran. destruct (pl_endpoint_id a); [|done]. rewrite !bool_decide_eq_true. set_solver. Qed.

Lemma prepare_attempt w h rq d index a c : prepare w h rq d index a = Ok c -> call_attempt c = a.
Proof.
  unfold prepare. destruct (find_item _ _); [|done].
  destruct (_binding_for_attempt _ _ _ _); simpl; [|done].
  destruct (dispatch_for_attempt _ _ _); simpl; [|done]. destruct (check_instruction _ _ _ _); simpl; [|done].
  by intros [= <-].
Qed.

Definition step_walk {A} (k : walk) (x : call * outcome A) : walk :=
  match x.2 with
  | CallRefused e => refused k e
  | CallFailed f => failed k (call_attempt x.1) f
  | _ => k
  end.

Lemma gathered_nil {A} k : gathered k (@nil (call * outcome A)) = k.
Proof. destruct k. unfold gathered. simpl. by rewrite !app_nil_r. Qed.

Lemma gathered_cons {A} k (x : call * outcome A) log : gathered k (x :: log) = gathered (step_walk k x) log.
Proof. destruct x as [c []]; unfold gathered, step_walk; simpl; rewrite <- ?app_assoc; done. Qed.

Lemma verdict_cons d preferred k x log :
  moves_on x.2 = true -> verdict d preferred k (x :: log) = verdict d preferred (step_walk k x) log.
Proof.
  intros Hx. unfold verdict. rewrite gathered_cons. destruct log as [|y log].
  - destruct x as [c []]; done.
  - change (last (x :: y :: log)) with (last (y :: log)).
    destruct (last (y :: log)) as [[? []]|]; try done. 
Qed.

Lemma verdict_one d preferred k c o :
  verdict d preferred k [(c, o)] =
    match o with
    | CallAnswered resp =>
        Answered (tag_preference (tag_backend (merge_attempt_history resp (wk_attempts k))
                    (pl_backend (call_attempt c))) (decision_target d) preferred)
    | CallMismatch => RaisedDispatch DispatchMismatchError
    | CallCancelled => Cancelled
    | _ => _raise_after_attempts (step_walk k (c, o))
    end.
Proof. unfold verdict. cbn [last]. rewrite gathered_cons, gathered_nil. by destruct o. Qed.

Lemma exhausted_cons {A} k a rest c (o : outcome A) log :
  call_attempt c = a -> moves_on o = true -> exhausted (wk_dispatched (step_walk k (c, o))) rest log ->
  exhausted (wk_dispatched k) (a :: rest) ((c, o) :: log).
Proof.
  intros Ha Ho He b [->|Hb]%elem_of_cons; [left; unfold calls; set_solver|].
  destruct (He b Hb) as [Hc|Hr]; [left; unfold calls in *; set_solver|right]. by destruct o.
Qed.

(** The invariant of [chat_loop]: what its log and its result are. *)
Definition walked (d : routing_decision) (preferred : option string) (k : walk) (plan : list planned)
    (r : ending response) (log : list (call * outcome response)) : Prop :=
  calls log `sublist_of` plan /\ no_rerun (wk_dispatched k) log /\
  (forall pre x, log = pre ++ [x] ->
     Forall (fun y => moves_on y.2 = true) pre /\ _refusals_end_plan (wk_errors (gathered k pre)) = false) /\
  ((exists e, r = RaisedDispatch e /\ Forall (fun y => moves_on y.2 = true) log) \/
   (r = verdict d preferred k log /\
    (Forall (fun y => moves_on y.2 = true) log ->
     exhausted (wk_dispatched k) plan log \/ _refusals_end_plan (wk_errors (gathered k log)) = true))).

Lemma walked_one d preferred k a rest r c o :
  call_attempt c = a -> already_ran (wk_dispatched k) a = false -> _refusals_end_plan (wk_errors k) = false ->
  r = verdict d preferred k [(c, o)] ->
  (moves_on o = true -> _refusals_end_plan (wk_errors (step_walk k (c, o))) = true) ->
  walked d preferred k (a :: rest) r [(c, o)].
Proof.
  intros Ha Hran Hend -> Hmo. unfold walked. split_and!.
  - unfold calls. simpl. rewrite Ha. apply sublist_skip, sublist_nil_l.
  - simpl. by rewrite Ha.
  - intros [|y [|z pre]] x E; [|by simplify_eq..]. split; [constructor|by rewrite gathered_nil].
  - right. split; [done|]. intros Hf. apply Forall_inv in Hf. right. rewrite gathered_cons, gathered_nil. by apply Hmo.
Qed.

Lemma walked_cons d preferred k a rest r c o log :
  call_attempt c = a -> already_ran (wk_dispatched k) a = false -> _refusals_end_plan (wk_errors k) = false ->
  moves_on o = true ->
  walked d preferred (step_walk k (c, o)) rest r log -> walked d preferred k (a :: rest) r ((c, o) :: log).
Proof.
  intros Ha Hran Hend Ho (Hs & Hn & Hl & Hr). unfold walked. split_and!.
  - unfold calls in *. simpl. rewrite Ha. by apply sublist_skip.
  - simpl. rewrite Ha. split; [done|]. subst a. by destruct o.
  - intros [|y pre] x E; [split; [constructor|by rewrite gathered_nil]|]. injection E as <- ->.
    destruct (Hl pre x eq_refl) as [Hp He]. split; [by constructor|]. by rewrite gathered_cons.
  - destruct Hr as [(e & -> & Hf)|[-> Hx]]; [left; exists e; by split; [|constructor]|right].
    split; [by rewrite verdict_cons|]. intros [_ Hf]%Forall_cons.
    rewrite gathered_cons. destruct (Hx Hf) as [He|He]; [left; by apply exhausted_cons|by right].
Qed.

Lemma walked_skip d preferred k a rest r log :
  already_ran (wk_dispatched k) a = true -> walked d preferred k rest r log -> walked d preferred k (a :: rest) r log.
Proof.
  intros Hran (Hs & Hn & Hl & Hr). unfold walked. split_and!; [by apply sublist_cons|done|done|].
  destruct Hr as [Hr|[-> Hx]]; [by left|right]. split; [done|]. intros Hf.
  destruct (Hx Hf) as [He|He]; [left|by right]. intros b [->|Hb]%elem_of_cons; [|by apply He].
  right. eapply already_ran_mono; [apply dispatched_mono|done].
Qed.

Lemma chat_loop_walked serve rq d preferred plan : forall index w h k w' h' r log,
  _refusals_end_plan (wk_errors k) = false ->
  chat_loop serve rq d preferred index plan w h k = (w', h', r, log) -> walked d preferred k plan r log.
Proof.
  induction plan as [|a rest IH]; intros index w h k w' h' r log Hend; simpl.
  { intros [= <- <- <- <-]. unfold walked. split_and!; [done|done|by intros [|? ?] ? ?|].
    right. unfold verdict. simpl. rewrite gathered_nil. split; [done|]. intros _. left. intros a []%elem_of_nil. }
  destruct (already_ran _ a) eqn:Hran; [intros E; apply walked_skip; [done|by eapply IH]|].
  destruct (prepare w h rq d index a) as [c|e] eqn:Hp.
  2: { intros [= <- <- <- <-]. unfold walked. split_and!; [apply sublist_nil_l|done|by intros [|? ?] ? ?|left; by exists e]. }
  apply prepare_attempt in Hp. destruct (serve index (share w h) c) as [[w1 ds] o].
  destruct o as [resp|e| |f|].
  - intros [= <- <- <- <-]. apply walked_one; try done. by rewrite verdict_one, Hp.
  - destruct (chat_loop _ _ _ _ _ _ _ _ _) as [[[w2 h2] r2] log2] eqn:El. intros [= <- <- <- <-].
    apply walked_cons; [done..|]. by eapply IH in El.
  - intros [= <- <- <- <-]. by apply walked_one.
  - destruct (_refusals_end_plan (wk_errors k ++ [f])) eqn:Hf.
    + intros [= <- <- <- <-]. apply walked_one; try done.
      rewrite verdict_one. unfold step_walk. simpl. by rewrite Hp.
    + destruct (chat_loop _ _ _ _ _ _ _ _ _) as [[[w2 h2] r2] log2] eqn:El. intros [= <- <- <- <-].
      apply walked_cons; [done..|]. unfold step_walk. simpl. rewrite Hp. by eapply IH in El.
  - intros [= <- <- <- <-]. by apply walked_one.
Qed.

(** The plan of a request is never empty: its first attempt is the decision's. *)
Lemma plan_request_primary w h rq w1 h1 d plan preferred :
  plan_request w h rq = (w1, h1, Ok (d, plan, preferred)) ->
  exists a rest, plan = a :: rest /\ pl_backend a = decision_backend d /\ pl_exact a = false.
Proof.
  unfold plan_request, select_decision, _attempt_plan.
  destruct (select_backend w (h_policy h) rq) as [w2 [d'|e]]; [|done]. cbn beta iota zeta.
  case_bool_decide as Hin; [|done]. cbn beta iota zeta.
  set (h2 := _remember_backend_decision _ _ _ _ _ _ _).
  assert (h_backends h2 = h_backends h) as Hb.
  { unfold h2, _remember_backend_decision. by destruct (truthy (rq_id rq)). }
  destruct (find_item (decision_backend d') (h_backends h2)) as [b|] eqn:Hf.
  - destruct (_resolved_endpoint _ _ _ _) as [w3 prim]. destruct (_requested_fallbacks _ _ _ _) as [w4 [[fs per]|e]]; [|done].
    destruct (plan_loop _ _ _ _ _) as [w5 p]. destruct (_resolved_endpoint w5 _ _ _) as [w6 pref].
    intros [= <- <- <- <- <-]. by eexists _, p.
  - exfalso. rewrite Hb in Hf. apply list_elem_of_fmap in Hin as ([n b] & Hn & Hin).
    unfold find_item in Hf. destruct (find _ _) eqn:Hfi; [done|]. eapply find_none in Hfi; [|by apply list_elem_of_In].
    simpl in Hfi. rewrite bool_decide_eq_true_2 in Hfi; [done|]. by rewrite Hn.
Qed.

Definition refusal_count {A} (log : list (call * outcome A)) : nat :=
  length (filter (fun x => _counts_as_request_refusal (failure_exn x.2)) (failures log)).

Lemma refusals_end_plan_gathered {A} (log : list (call * outcome A)) :
  _refusals_end_plan (wk_errors (gathered new_walk log)) = bool_decide (2 <= refusal_count log)%nat.
Proof.
  unfold _refusals_end_plan, request_refusals_end_fallback, gathered, refusal_count, _REQUEST_REFUSAL_LIMIT.
  cbn [wk_errors new_walk app]. f_equal.
  assert (forall l : list (planned * failure),
    length (filter _counts_as_request_refusal (failure_exn <$> (snd <$> l))) =
    length (filter (fun x => _counts_as_request_refusal (failure_exn x.2)) l)) as Hl.
  { induction l as [|x l IH]; [done|]. rewrite !fmap_cons, !filter_bool_cons.
    destruct (_counts_as_request_refusal _); [cbn [length]; by f_equal|done]. }
  apply bool_decide_ext. by rewrite Hl.
Qed.

Lemma refusal_count_snoc {A} pre (x : call * outcome A) : (refusal_count (pre ++ [x]) <= S (refusal_count pre))%nat.
Proof.
  unfold refusal_count, failures. rewrite omap_app, filter_app, length_app.
  assert (forall l : list (planned * failure), length l <= 1 ->
    length (filter (fun x => _counts_as_request_refusal (failure_exn x.2)) l) <= 1)%nat as Hl.
  { intros l Hl. etrans; [apply length_filter|done]. }
  specialize (Hl (omap (fun x => match x.2 with CallFailed f => Some (call_attempt x.1, f) | _ => None end) [x])).
  enough (length (omap (fun x : call * outcome A =>
    match x.2 with CallFailed f => Some (call_attempt x.1, f) | _ => None end) [x]) <= 1)%nat by lia.
  destruct x as [c []]; simpl; lia.
Qed.

(** The endings of a walk over a whole plan, in terms of the calls it made. *)
Definition chat_ending (plan : list planned) (log : list (call * outcome response)) (r : ending response) : Prop :=
  let records := record_of <$> failures log in
  let ended := exhausted ∅ plan log \/ refusal_count log = 2%nat in
  match r with
  | Answered answer =>
      exists pre c resp, log = pre ++ [(c, CallAnswered resp)] /\ resp_body answer = resp_body resp /\
        (resp_routing answer ≫= rt_failed_attempts) =
          match records with
          | [] => resp_routing resp ≫= rt_failed_attempts
          | _ => Some (default [] (resp_routing resp ≫= rt_failed_attempts) ++ records)
          end
  | RaisedFailure f =>
      ended /\ exists x, failures log !! select_surfaced_error (failure_exn ∘ snd <$> failures log) = Some x /\
        f = attach_attempt_history x.2 records
  | RaisedRefusal e => ended /\ failures log = [] /\ head (refusals_of log) = Some e
  | RaisedDispatch e => Forall (fun y => moves_on y.2 = true) log \/ exists pre c, log = pre ++ [(c, CallMismatch)]
  | RaisedHybrid _ => False
  | Cancelled => exists pre c, log = pre ++ [(c, CallCancelled)]
  end.

Lemma surfaced_index_lt (l : list exn) : l <> [] -> (select_surfaced_error l < length l)%nat.
Proof.
  destruct l as [|e l]; [done|]. intros _. unfold select_surfaced_error. destruct (_describes_request e); [simpl; lia|].
  assert (forall i l', first_describing i l' = None \/
    exists j, first_describing i l' = Some j /\ j < i + length l')%nat as Hf.
  { intros i l'. revert i. induction l' as [|x l' IH]; intros i; simpl; [by left|].
    destruct (_describes_request x); [right; eexists; split; [done|lia]|].
    destruct (IH (S i)) as [->|(j & -> & Hj)]; [by left|right; eexists; split; [done|lia]]. }
  destruct (Hf 1%nat l) as [->|(j & -> & Hj)]; simpl; lia.
Qed.

Lemma all_move_on_nothing {A} (log : list (call * outcome A)) :
  Forall (fun y => moves_on y.2 = true) log -> failures log = [] -> refusals_of log = [] -> log = [].
Proof. intros Hf. by destruct Hf as [|[c []] log]. Qed.

Lemma raise_after_ending plan log :
  exhausted ∅ plan log \/ refusal_count log = 2%nat -> plan <> [] ->
  Forall (fun y => moves_on y.2 = true) log ->
  chat_ending plan log (_raise_after_attempts (gathered new_walk log)).
Proof.
  intros Hended Hplan Hall. unfold _raise_after_attempts. cbn [gathered wk_errors wk_refusals wk_attempts new_walk app].
  destruct (failures log) as [|x fs] eqn:Ef.
  - simpl. destruct (refusals_of log) as [|e es] eqn:Er.
    + pose proof (all_move_on_nothing log Hall Ef Er) as ->. destruct Hended as [He|He]; [|done].
      destruct plan as [|a plan]; [done|]. destruct (He a ltac:(set_solver)) as [[]%elem_of_nil|Hr].
      unfold already_ran in Hr. simpl in Hr. destruct (pl_endpoint_id a); [|done].
      apply bool_decide_eq_true in Hr. set_solver.
    + simpl. by rewrite Ef, Er.
  - set (l := x :: fs) in *. pose proof (surfaced_index_lt (failure_exn <$> (snd <$> l))) as Hlt.
    specialize (Hlt ltac:(unfold l; rewrite !fmap_cons; intros [=])).
    rewrite !length_fmap in Hlt.
    destruct (l !! select_surfaced_error (failure_exn <$> (snd <$> l))) as [y|] eqn:Ey.
    2: { apply lookup_ge_None in Ey. lia. }
    change (snd <$> l) with (x.2 :: (snd <$> fs)) at 1. cbn iota beta.
    change (x.2 :: (snd <$> fs)) with (snd <$> l). rewrite list_lookup_fmap, Ey. simpl.
    split; [done|]. exists y. rewrite Ef. fold l. split; [|done]. by rewrite list_fmap_compose.
Qed.

Lemma merged_attempts resp records :
  resp_routing (merge_attempt_history resp records) ≫= rt_failed_attempts =
    match records with
    | [] => resp_routing resp ≫= rt_failed_attempts
    | _ => Some (default [] (resp_routing resp ≫= rt_failed_attempts) ++ records)
    end.
Proof. unfold merge_attempt_history. destruct records; [done|]. simpl. by destruct (resp_routing resp). Qed.

Lemma tagged_attempts resp b t e :
  resp_routing (tag_preference (tag_backend resp b) t e) ≫= rt_failed_attempts = resp_routing resp ≫= rt_failed_attempts /\
  resp_body (tag_preference (tag_backend resp b) t e) = resp_body resp.
Proof.
  unfold tag_preference, tag_backend. split; [|done]. cbn [resp_routing].
  by destruct (resp_routing resp), t, e.
Qed.

Lemma verdict_ending d preferred plan log :
  plan <> [] ->
  (forall pre x, log = pre ++ [x] -> Forall (fun y => moves_on y.2 = true) pre) ->
  (Forall (fun y => moves_on y.2 = true) log -> exhausted ∅ plan log \/ refusal_count log = 2%nat) ->
  chat_ending plan log (verdict d preferred new_walk log).
Proof.
  intros Hplan Hpre Hall. unfold verdict. destruct (last log) as [[c o]|] eqn:El.
  2: { apply last_None in El as ->. apply raise_after_ending; auto. }
  apply last_Some in El as [pre ->]. specialize (Hpre pre (c, o) eq_refl).
  assert (moves_on o = true -> chat_ending plan (pre ++ [(c, o)])
    (_raise_after_attempts (gathered new_walk (pre ++ [(c, o)])))) as Hon.
  { intros Ho. assert (Forall (fun y => moves_on y.2 = true) (pre ++ [(c, o)])) as Hf
      by (apply Forall_app; split; [done|by repeat constructor]).
    apply raise_after_ending; auto. }
  destruct o as [resp|e| |f|]; [|by apply Hon|right; eauto|by apply Hon|simpl; eauto].
  exists pre, c, resp.
  match goal with |- context [tag_preference (tag_backend ?m ?b) ?t ?e] => destruct (tagged_attempts m b t e) as [-> ->] end.
  rewrite merged_attempts. split; [done|]. split; [|done].
  unfold merge_attempt_history. by destruct (wk_attempts _).
Qed.

(** C8: a hybrid request walks its plan.  Whatever the backends answer and other
    requests do meanwhile, the calls it makes are attempts of the plan in the
    plan's order, none for an endpoint that an earlier call of this request ran
    and failed on; only a failure or an admission refusal is followed by another
    call, and at most two upstreams get to reject the request as malformed.  It
    ends with the first answer, carrying the record of every failed attempt; with
    the error the surfacing rule picks among the failures, once the plan is
    exhausted or two upstreams rejected it; with the first refusal when nothing
    was sent; with a composition error; or cancelled.  The generic "every backend
    failed" error is never raised. *)
Theorem hybrid_chat_correct serve w h rq w1 h1 d plan preferred w' h' r log :
  plan_request w h rq = (w1, h1, Ok (d, plan, preferred)) ->
  chat_completion serve w h rq = (w', h', r, log) ->
  calls log `sublist_of` plan /\ no_rerun ∅ log /\ (refusal_count log <= 2)%nat /\
  (forall pre x, log = pre ++ [x] -> Forall (fun y => moves_on y.2 = true) pre) /\
  chat_ending plan log r.
Proof.
  intros Hp Hc. pose proof (plan_request_primary _ _ _ _ _ _ _ _ Hp) as (a & rest & Hplan & _ & _).
  unfold chat_completion in Hc. rewrite Hp in Hc.
  apply chat_loop_walked in Hc as (Hs & Hn & Hl & Hr); [|done].
  assert (refusal_count log <= 2)%nat as Hcount.
  { destruct (last log) as [x|] eqn:El; [|apply last_None in El as ->; unfold refusal_count; simpl; lia].
    apply last_Some in El as [pre ->]. destruct (Hl pre x eq_refl) as [_ He].
    rewrite refusals_end_plan_gathered in He. apply bool_decide_eq_false in He.
    pose proof (refusal_count_snoc pre x). lia. }
  assert (forall pre x, log = pre ++ [x] -> Forall (fun y => moves_on y.2 = true) pre) as Hl'
    by (intros pre x E; by destruct (Hl pre x E)).
  split_and!; [done..|]. destruct Hr as [(e & -> & Hf)|[-> Hx]]; [by left|].
  apply verdict_ending; [by rewrite Hplan|done|]. intros Hf. destruct (Hx Hf) as [He|He]; [by left|right].
  rewrite refusals_end_plan_gathered in He. apply bool_decide_eq_true in He. lia.
Qed.

End chat.

(** The texts of errors, for examples. *)
Definition plain_texts : ErrorTexts := fun _ => [].
Definition plain_names : ErrorNames := {| error_name _ := chars_of "RuntimeError"; error_str _ := [] |}.
Definition plain_numbers : NumberText := fun n => n.

(** The first attempt fails, the second is refused, the third answers. *)
Definition sample_serve (i : nat) (sh : @shared unit) (c : call) : @shared unit * outcome response :=
  (sh, match i with
       | 0%nat => CallFailed SampleHybrid.reset
       | 1%nat => CallRefused (TargetUnavailableError "c1")
       | _ => CallAnswered (Response (chars_of "ok") (Some no_routing))
       end).

Lemma hybrid_chat_correct_witness :
  let _ : ErrorTexts := plain_texts in
  let _ : ErrorNames := plain_names in
  let '(_, _, r, log) := chat_completion sample_serve tt SampleHybrid.router SampleHybrid.rq in
  length log = 3%nat /\ no_rerun ∅ log /\
  (exists answer, r = Answered answer /\ resp_body answer = chars_of "ok").
Proof.
  intros T N. destruct (chat_completion sample_serve tt SampleHybrid.router SampleHybrid.rq) as [[[w h] r] log] eqn:E.
  destruct (plan_request tt SampleHybrid.router SampleHybrid.rq) as [[w1 h1] [[[d plan] preferred]|e]] eqn:Ep;
    [|vm_compute in Ep; discriminate Ep].
  destruct (hybrid_chat_correct sample_serve tt SampleHybrid.router SampleHybrid.rq w1 h1 d plan
    preferred w h r log Ep E) as (_ & Hn & _ & _ & He).
  vm_compute in E. injection E as <- <- <- <-. split; [reflexivity|]. split; [exact Hn|].
  destruct He as (pre & c & resp & Hlog & Hb & _). eexists. split; [reflexivity|]. vm_compute. reflexivity.
Defined.
