(* ===== verification/HybridStream.v ===== *)
(** What a streamed hybrid request does: the theorems about [stream_chat_completion] of
    [HybridRouter], and that the frame of earlier attempts is one the client never
    sees. *)

From S2P Require Import Prelude PyText UsageLimit Failures CircuitBreaker EndpointHealth Offload FixedRouter RouteSelection GrantToken HybridFrames HybridRouter HybridChat.
From stdpp Require Import pretty.

Local Open Scope Z_scope.

(** ** The frame of earlier attempts *)

(** What the written text of errors and statuses is made of. *)
Class TextLaws `{NumberText, ErrorNames} : Prop := {
  status_text : forall z, 100 <= z <= 599 -> number_text (chars_of (pretty z)) = chars_of (pretty z);
  error_name_scalar : forall e, Forall scalar (error_name e);
  error_str_scalar : forall e, Forall scalar (error_str e)
}.

Lemma http_status_range e z : http_status_of e = Some z -> 100 <= z <= 599.
Proof.
  assert (forall vs, first_status vs = Some z -> 100 <= z <= 599) as Hf.
  { intros vs. unfold first_status. intros Hh. apply head_Some_elem_of, list_elem_of_omap in Hh as (v & _ & Hv).
    destruct v as [n|]; [|done]. simpl in Hv. unfold is_http_status in Hv. case_bool_decide; by simplify_eq. }
  unfold http_status_of. destruct (first_status _) eqn:E; [intros [= ->]; by eapply Hf|].
  destruct (attr_response _) as [[? ?]|]; [apply Hf|done].
Qed.

(** A status is written in three digits. *)
Definition three_digits (t : chars) : bool :=
  match t with
  | [a; b; c] => in_range 49 57 a && is_digit b && is_digit c
  | _ => false
  end.

Lemma status_digits z : 100 <= z <= 599 -> three_digits (chars_of (pretty z)) = true.
Proof.
  intros Hz. assert (forallb (fun n => three_digits (chars_of (pretty (Z.of_nat n)))) (seq 100 500) = true) as Hall
    by (vm_compute; reflexivity).
  rewrite forallb_forall in Hall. specialize (Hall (Z.to_nat z)).
  rewrite Z2Nat.id in Hall by lia. apply Hall, in_seq. lia.
Qed.

Lemma scan_three_digits t rest : three_digits t = true -> value_end rest -> scan_number (t ++ rest) = Some (t, rest).
Proof.
  destruct t as [|a [|b [|c [|? ?]]]]; try done. simpl. rewrite !andb_true_iff. intros [[Ha Hb] Hc] Hr.
  unfold scan_number. cbn [app].
  assert (a <> 45%N /\ a <> 48%N) as [H45 H48] by (unfold in_range in Ha; lia).
  apply N.eqb_neq in H45, H48. rewrite H45, H48, Ha. cbn [take_digits].
  assert (is_digit a = true) as Hda by (unfold is_digit, in_range in *; lia).
  rewrite Hda, Hb, Hc. destruct rest as [|e rest]; [done|]. simpl in Hr.
  assert (is_digit e = false /\ (e =? 46)%N = false /\ ((e =? 101)%N || (e =? 69)%N) = false) as (He & H46 & Hexp)
    by (destruct Hr as [->|[->| ->]]; done).
  cbn [take_digits]. rewrite He. cbn [mbind option_bind]. rewrite H46, Hexp. done.
Qed.

Section history.
Context `{NumberText, ErrorNames, !TextLaws}.

(** A record this layer made. *)
Definition record_ok (r : attempt_record) : Prop :=
  Forall scalar (ar_error_type r) /\ Forall scalar (ar_error r) /\
  forall z, ar_status_code r = Some z -> 100 <= z <= 599.

Lemma attempt_record_ok b e f : record_ok (attempt_record_of b e f).
Proof.
  split_and!; [apply error_name_scalar|apply error_str_scalar|]. intros z. apply http_status_range.
Qed.

Lemma json_ok_jstr s : json_ok (jstr s).
Proof. apply chars_of_scalar. Qed.

Lemma json_ok_status z : 100 <= z <= 599 -> json_ok (JNumber (chars_of (pretty z))).
Proof.
  intros Hz. split; [by apply status_text|]. intros rest Hr. apply scan_three_digits; [by apply status_digits|done].
Qed.

Lemma json_ok_record r : record_ok r -> json_ok (record_json r).
Proof.
  intros (Ht & He & Hs). unfold record_json.
  destruct (ar_provider r) as [p|], (ar_status_code r) as [z|], (ar_backend r) as [b|];
    cbn [from_option app];
    rewrite json_ok_object; (split; [apply (bool_decide_unpack _); vm_compute; exact I|]);
    intros k v Hin; rewrite !elem_of_cons in Hin;
    repeat destruct Hin as [[= -> ->]|Hin]; try (by apply elem_of_nil in Hin);
    (split; [apply chars_of_scalar|]); try apply json_ok_jstr; try done; apply json_ok_status; by apply Hs.
Qed.

Lemma json_ok_array l : Forall json_ok l -> json_ok (JArray l).
Proof. by induction 1. Qed.

(** The serving layer drops the frame of earlier attempts. *)
Lemma history_hidden attempts t e :
  Forall record_ok attempts -> is_client_visible (attempt_history_chunk attempts t e) = false.
Proof.
  intros Ha. unfold attempt_history_chunk, is_client_visible.
  assert (json_ok (JObject (history_payload attempts t e))) as Hok.
  { unfold history_payload. rewrite json_ok_object. split; [apply (bool_decide_unpack _); vm_compute; exact I|].
    intros k v Hin. rewrite !elem_of_cons in Hin. destruct Hin as [[= -> ->]|[[= -> ->]|[]%elem_of_nil]];
      (split; [apply chars_of_scalar|]); [done|].
    assert (json_ok (JArray (List.map record_json attempts))) as Hl.
    { apply json_ok_array, Forall_fmap. eapply Forall_impl; [done|]. intros r. apply json_ok_record. }
    destruct t as [t|], e as [e|]; cbn [from_option app]; rewrite json_ok_object;
      (split; [apply (bool_decide_unpack _); vm_compute; exact I|]); intros k v Hin; rewrite !elem_of_cons in Hin;
      repeat destruct Hin as [[= -> ->]|Hin]; try (by apply elem_of_nil in Hin);
      (split; [apply chars_of_scalar|]); try apply json_ok_jstr; done. }
  by rewrite data_frame_payload.
Qed.

End history.

(** ** The walk for a stream *)

Section streams.
Context {W B P : Type} `{RB : RoutingBackend W B} `{BS : BackendSelection W P}.
Context `{ErrorTexts, ErrorNames, NumberText, !TextLaws}.

(** One attempt of a streamed request: its call, the stream it read and the frames
    of earlier attempts sent before it. *)
Record block : Type := Block {
  bk_index : nat;
  bk_call : call;
  bk_stream : @stream W;
  bk_history : list chunk
}.

Definition bk_attempt (b : block) : planned := call_attempt (bk_call b).

(** What a block does. *)
Definition render (b : block) : list event :=
  Opened (bk_index b) (bk_call b) ::
  (SentHistory <$> bk_history b) ++
  ((fun x => Sent (bk_index b) x.2 (tagged x.2 (bk_attempt b))) <$> st_chunks (bk_stream b)) ++
  [Closed (bk_index b)].

(** The client sees something of a block. *)
Definition shows (b : block) : bool := existsb (fun x => is_client_visible x.2) (st_chunks (bk_stream b)).

(** The failure a block leaves behind. *)
Definition block_failure (b : block) : option failure :=
  match (st_end (bk_stream b)).2 with
  | StreamFailed f => Some f
  | StreamEnded => match st_chunks (bk_stream b) with [] => Some empty_error | _ => None end
  | _ => None
  end.

Definition block_failures (l : list block) : list (planned * failure) :=
  omap (fun b => f ← block_failure b; Some (bk_attempt b, f)) l.
Definition block_refusals (l : list block) : list selection_error :=
  omap (fun b => match (st_end (bk_stream b)).2 with StreamRefused e => Some e | _ => None end) l.

(** Blocks after which another attempt may follow. *)
Definition hands_over (b : block) : Prop :=
  shows b = false /\ (is_Some (block_failure b) \/ exists e, (st_end (bk_stream b)).2 = StreamRefused e).

(** No block is for an endpoint an earlier one ran and failed on. *)
Fixpoint no_restream (ran : gset string) (l : list block) : Prop :=
  match l with
  | [] => True
  | b :: rest =>
      already_ran ran (bk_attempt b) = false /\
      no_restream (match (st_end (bk_stream b)).2 with
                   | StreamFailed f => _remember_dispatched ran (bk_attempt b) f
                   | _ => ran
                   end) rest
  end.

(** The walk after a block. *)
Definition step_block (k : walk) (b : block) : walk :=
  match (st_end (bk_stream b)).2 with
  | StreamFailed f => failed k (bk_attempt b) f
  | StreamRefused e => refused k e
  | StreamEnded => match st_chunks (bk_stream b) with [] => came_empty k (bk_attempt b) | _ => k end
  | _ => k
  end.

(** The endpoints that ran and failed in these blocks. *)
Definition ran_by (ran : gset string) (l : list block) : gset string :=
  fold_left (fun s b => match (st_end (bk_stream b)).2 with
                        | StreamFailed f => _remember_dispatched s (bk_attempt b) f
                        | _ => s
                        end) l ran.

(** Every attempt of [plan] was made, or named an endpoint that had run and failed. *)
Definition passed (ran : gset string) (plan : list planned) (l : list block) : Prop :=
  forall a, a ∈ plan -> a ∈ (bk_attempt <$> l) \/ already_ran (ran_by ran l) a = true.

(** The errors of the blocks end the plan early. *)
Definition ends_early (k : walk) (l : list block) : bool := _refusals_end_plan (wk_errors (fold_left step_block l k)).

Section walk.
Context (serve : nat -> @shared W -> call -> @shared W * result dispatch_error (@stream W)).
Context (rq : request) (d : routing_decision) (backends : list (string * B)).

(** The attempt [a], at [index] of the plan, cannot be dispatched: the check of its
    instruction in its backend, or the backend when it is called, raises [e]. *)
Definition not_dispatched (index : nat) (a : planned) (e : dispatch_error) : Prop :=
  exists w (h : hybrid B P), h_backends h = backends /\
    match prepare w h rq d index a with
    | Raise e' => e' = e
    | Ok c => (serve index (share w h) c).2 = Raise e
    end.

(** How a streamed request ends, given its blocks: all of them handed over and the plan
    was passed or ended early; the next attempt could not be dispatched; or the last
    block ended it. *)
Definition stream_verdict (k : walk) (index : nat) (plan : list planned) (l : list block) (r : ending unit) : Prop :=
  (Forall hands_over l /\ r = _raise_after_attempts (fold_left step_block l k) /\
   (passed (wk_dispatched k) plan l \/ ends_early k l = true)) \/
  (Forall hands_over l /\ exists before a after e, plan = before ++ a :: after /\ passed (wk_dispatched k) before l /\
     not_dispatched (index + length before) a e /\ r = RaisedDispatch e) \/
  exists pre b, l = pre ++ [b] /\
    match (st_end (bk_stream b)).2 with
    | StreamEnded => st_chunks (bk_stream b) <> [] /\ r = Answered tt
    | StreamRefused e => shows b = true /\ r = RaisedRefusal e
    | StreamFailed f => shows b = true /\ r = RaisedFailure f
    | StreamMismatch => r = RaisedDispatch DispatchMismatchError
    | StreamCancelled => r = Cancelled
    end.

(** The blocks a loop has run. *)
Definition streamed (k : walk) (index : nat) (plan : list planned) (r : ending unit) (log : list event)
    (l : list block) : Prop :=
  log = concat (render <$> l) /\ bk_attempt <$> l `sublist_of` plan /\ no_restream (wk_dispatched k) l /\
  Forall (fun b => Forall (fun c => is_client_visible c = false) (bk_history b) /\
                   exists sh, (serve (bk_index b) sh (bk_call b)).2 = Ok (bk_stream b)) l /\
  (forall pre b, l = pre ++ [b] -> Forall hands_over pre /\ ends_early k pre = false) /\
  stream_verdict k index plan l r.

End walk.

Lemma forward_sends index rq a l : forall w (h : hybrid B P) committed w' h' committed' sent,
  forward index rq a l w h committed = (w', h', committed', sent) ->
  sent = (fun x => Sent index x.2 (tagged x.2 a)) <$> l /\
  committed' = committed || existsb (fun x => is_client_visible x.2) l.
Proof.
  induction l as [|[f c] l IH]; intros w h committed w' h' committed' sent; simpl.
  { intros [= _ _ <- <-]. by rewrite orb_false_r. }
  destruct (resume f w h) as [w1 h1].
  destruct (forward _ _ _ _ _ _ _) as [[[w2 h2] c2] sent2] eqn:Ef. intros [= _ _ <- <-].
  apply IH in Ef as [-> ->]. split; [done|]. by rewrite orb_assoc.
Qed.

(** What reading a stream sends is the rendering of its block. *)
Lemma read_stream_sends index rq d preferred a s w (h : hybrid B P) k w' h' committed sent :
  Forall record_ok (wk_attempts k) ->
  read_stream index rq d preferred a s w h k = (w', h', committed, sent) ->
  exists history, Forall (fun c => is_client_visible c = false) history /\
    sent = (SentHistory <$> history) ++ ((fun x => Sent index x.2 (tagged x.2 a)) <$> st_chunks s) /\
    committed = existsb (fun x => is_client_visible x.2) (st_chunks s).
Proof.
  intros Hk. unfold read_stream. destruct (st_chunks s) as [|[f c] l].
  { intros [= _ _ <- <-]. by exists []. }
  destruct (resume f w h) as [w1 h1].
  destruct (forward _ _ _ _ _ _ _) as [[[w2 h2] c2] sent2] eqn:Ef. apply forward_sends in Ef as [-> ->].
  intros [= _ _ <- <-].
  exists (match wk_attempts k with [] => [] | l => [attempt_history_chunk l (decision_target d) preferred] end).
  split; [|split; [|done]].
  - destruct (wk_attempts k) eqn:E; constructor; [|constructor]. apply history_hidden. done.
  - by destruct (wk_attempts k).
Qed.

Lemma already_ran_by ran l a : already_ran ran a = true -> already_ran (ran_by ran l) a = true.
Proof.
  revert ran; induction l as [|b l IH]; intros ran Ha; [done|]. cbn [ran_by fold_left]. apply IH.
  destruct (st_end (bk_stream b)).2; try done. eapply already_ran_mono; [apply remember_dispatched_mono|done].
Qed.

Lemma passed_skip ran a plan l : already_ran ran a = true -> passed ran plan l -> passed ran (a :: plan) l.
Proof. intros Ha Hp x [->|Hx]%elem_of_cons; [right; by apply already_ran_by|by apply Hp]. Qed.

Lemma step_block_dispatched k b : wk_dispatched (step_block k b) = ran_by (wk_dispatched k) [b].
Proof.
  unfold step_block, ran_by. cbn [fold_left]. destruct (st_end (bk_stream b)).2; try done.
  by destruct (st_chunks (bk_stream b)).
Qed.

Lemma passed_cons k b plan l :
  passed (wk_dispatched (step_block k b)) plan l -> passed (wk_dispatched k) (bk_attempt b :: plan) (b :: l).
Proof.
  rewrite step_block_dispatched. intros Hp x [->|Hx]%elem_of_cons; [left; by left|].
  destruct (Hp x Hx) as [Hin|Hr]; [left; by right|by right].
Qed.

Section walked.
Context (serve : nat -> @shared W -> call -> @shared W * result dispatch_error (@stream W)).
Context (rq : request) (d : routing_decision) (backends : list (string * B)).
Local Notation streamed := (streamed serve rq d backends).
Local Notation not_dispatched := (not_dispatched serve rq d backends).

Lemma streamed_done k index : streamed k index [] (_raise_after_attempts k) [] [].
Proof.
  red. split_and!; try done; [by intros [|? ?] ? ?|].
  left. split_and!; [constructor|done|]. left. by intros a []%elem_of_nil.
Qed.

Lemma streamed_stuck k index a rest e :
  not_dispatched index a e -> streamed k index (a :: rest) (RaisedDispatch e) [] [].
Proof.
  intros He. red. split_and!; try done; [apply sublist_nil_l|by intros [|? ?] ? ?|].
  right; left. split; [constructor|]. exists [], a, rest, e. split_and!; [done|by intros x []%elem_of_nil| |done].
  by rewrite Nat.add_0_r.
Qed.

Lemma streamed_skip k index a plan r log l : already_ran (wk_dispatched k) a = true ->
  streamed k (S index) plan r log l -> streamed k index (a :: plan) r log l.
Proof.
  intros Hran (H1' & H2' & H3' & H4' & H5' & H6'). red. split_and!; try done; [by apply sublist_cons|].
  destruct H6' as [(Hf & Hr & Hend)|[(Hf & pre & x & post & e & -> & Hp & He & Hr)|Hl]]; [left|right; left|by right; right].
  - split_and!; try done. destruct Hend; [left; by apply passed_skip|by right].
  - split; [done|]. exists (a :: pre), x, post, e. split_and!; [done|by apply passed_skip| |done].
    cbn [length]. by rewrite <- Nat.add_succ_comm.
Qed.

(** A block after which the loop stops. *)
Lemma streamed_last k index a rest r b :
  bk_attempt b = a -> already_ran (wk_dispatched k) a = false -> _refusals_end_plan (wk_errors k) = false ->
  Forall (fun c => is_client_visible c = false) (bk_history b) ->
  (exists sh, (serve (bk_index b) sh (bk_call b)).2 = Ok (bk_stream b)) ->
  (hands_over b /\ ends_early k [b] = true /\ r = _raise_after_attempts (step_block k b) \/
   match (st_end (bk_stream b)).2 with
   | StreamEnded => st_chunks (bk_stream b) <> [] /\ r = Answered tt
   | StreamRefused e => shows b = true /\ r = RaisedRefusal e
   | StreamFailed f => shows b = true /\ r = RaisedFailure f
   | StreamMismatch => r = RaisedDispatch DispatchMismatchError
   | StreamCancelled => r = Cancelled
   end) ->
  streamed k index (a :: rest) r (render b) [b].
Proof.
  intros <- Hran Hend Hh Hs Hv. red. split_and!.
  - simpl. by rewrite app_nil_r.
  - apply sublist_skip, sublist_nil_l.
  - done.
  - by apply Forall_singleton.
  - intros [|? [|? ?]] ? E; [by split; [constructor|]|by simplify_eq..].
  - destruct Hv as [(Ho & He & ->)|Hv]; [left|right; right; by exists [], b].
    split_and!; [by apply Forall_singleton|done|by right].
Qed.

(** A block that hands over. *)
Lemma streamed_cons k index a rest r b log l :
  bk_attempt b = a -> already_ran (wk_dispatched k) a = false -> _refusals_end_plan (wk_errors k) = false ->
  Forall (fun c => is_client_visible c = false) (bk_history b) ->
  (exists sh, (serve (bk_index b) sh (bk_call b)).2 = Ok (bk_stream b)) -> hands_over b ->
  streamed (step_block k b) (S index) rest r log l -> streamed k index (a :: rest) r (render b ++ log) (b :: l).
Proof.
  intros <- Hran Hend Hh Hs Ho (-> & H2' & H3' & H4' & H5' & H6'). red. split_and!.
  - done.
  - by apply sublist_skip.
  - split; [done|]. rewrite step_block_dispatched in H3'. done.
  - by constructor.
  - intros [|? pre] x E; [by split; [constructor|]|]. injection E as <- ->.
    destruct (H5' pre x eq_refl). by split; [constructor|].
  - destruct H6' as [(Hf & Hr & Hx)|[(Hf & pre & x & post & e & -> & Hp & He & Hr)|(pre & x & -> & Hx)]].
    + left. split_and!; [by constructor|done|]. destruct Hx; [left; by apply passed_cons|by right].
    + right; left. split; [by constructor|]. exists (bk_attempt b :: pre), x, post, e.
      split_and!; [done|by apply passed_cons| |done]. cbn [length]. by rewrite <- Nat.add_succ_comm.
    + right; right. by exists (b :: pre), x.
Qed.

(** An empty stream is no rejection of the request. *)
Lemma refusals_end_empty l : _refusals_end_plan (l ++ [empty_error]) = _refusals_end_plan l.
Proof.
  unfold _refusals_end_plan, request_refusals_end_fallback. apply bool_decide_ext.
  rewrite fmap_app, filter_app, length_app. cbn [fmap list_fmap]. rewrite filter_bool_cons. simpl. by rewrite Nat.add_0_r.
Qed.

Lemma remember_backends (w : W) (h : hybrid B P) i b m rt e :
  h_backends (_remember_backend_decision w h i b m rt e) = h_backends h.
Proof. unfold _remember_backend_decision. by destruct (truthy i). Qed.

Lemma forward_backends index a l : forall w (h : hybrid B P) committed,
  h_backends (forward index rq a l w h committed).1.1.2 = h_backends h.
Proof.
  induction l as [|[f c] l IH]; intros w h committed; [done|]. cbn [forward]. unfold resume.
  destruct (f (share w h)) as [w1 ds].
  set (h1 := if negb committed || carries_routing c then _ else _).
  assert (h_backends h1 = h_backends h) as <- by (unfold h1; by destruct (_ || _); [etrans; [apply remember_backends|]|]).
  rewrite <- (IH w1 h1 (committed || is_client_visible c)). by destruct (forward _ _ _ _ _ _ _) as [[[w2 h2] c2] sent2].
Qed.

Lemma read_stream_backends index preferred a s w (h : hybrid B P) k :
  h_backends (read_stream index rq d preferred a s w h k).1.1.2 = h_backends h.
Proof.
  unfold read_stream, resume. destruct (st_chunks s) as [|[f c] l]; [done|]. destruct (f (share w h)) as [w1 ds].
  set (h1 := _remember_stream_dispatch _ _ _ _ _).
  assert (h_backends h1 = h_backends h) as <- by (by etrans; [apply remember_backends|]).
  rewrite <- (forward_backends index a l w1 h1 (is_client_visible c)).
  by destruct (forward _ _ _ _ _ _ _) as [[[w2 h2] c2] sent2].
Qed.

Lemma stream_loop_streamed preferred plan : forall index w (h : hybrid B P) k w' h' r log,
  Forall record_ok (wk_attempts k) -> _refusals_end_plan (wk_errors k) = false -> h_backends h = backends ->
  stream_loop serve rq d preferred index plan w h k = (w', h', r, log) -> exists l, streamed k index plan r log l.
Proof.
  induction plan as [|a rest IH]; intros index w h k w' h' r log Hk Hend Hbs; cbn [stream_loop].
  { intros [= _ _ <- <-]. exists []. apply streamed_done. }
  destruct (already_ran _ a) eqn:Hran; [intros E; apply IH in E as [l Hl]; [exists l; by apply streamed_skip|done..]|].
  destruct (prepare w h rq d index a) as [c|e] eqn:Hp.
  2: { intros [= _ _ <- <-]. exists []. apply streamed_stuck. exists w, h. by rewrite Hp. }
  destruct (serve index (share w h) c) as [[w1 ds] [s|e]] eqn:Es.
  2: { intros [= _ _ <- <-]. exists []. apply streamed_stuck. exists w, h. by rewrite Hp, Es. }
  apply prepare_attempt in Hp.
  pose proof (read_stream_backends index preferred a s w1 (with_decisions ds h) k) as Hb2.
  destruct (read_stream _ _ _ _ _ _ _ _ _) as [[[w2 h2] committed] sent] eqn:Er.
  apply read_stream_sends in Er as (history & Hh & -> & ->); [|done].
  simpl in Hb2. rewrite Hbs in Hb2. unfold resume. destruct ((st_end s).1 (share w2 h2)) as [w3 ds3].
  set (h3 := with_decisions ds3 h2). assert (h_backends h3 = backends) as Hb3 by done. cbv zeta. set (b := Block index c s history).
  assert (Opened index c :: ((SentHistory <$> history) ++
    ((fun x => Sent index x.2 (tagged x.2 a)) <$> st_chunks s)) ++ [Closed index] = render b) as Hlog
    by (unfold render, bk_attempt; simpl; rewrite Hp, <- app_assoc; done).
  rewrite Hlog. change (existsb _ (st_chunks s)) with (shows b).
  assert (exists sh, (serve (bk_index b) sh (bk_call b)).2 = Ok (bk_stream b)) as Hserve
    by (exists (share w h); simpl; by rewrite Es).
  assert (forall h4 k4, Forall record_ok (wk_attempts k4) -> h_backends h4 = backends ->
    _refusals_end_plan (wk_errors k4) = false -> k4 = step_block k b -> hands_over b ->
    (let '(w, h, r, more) := stream_loop serve rq d preferred (S index) rest w3 h4 k4 in (w, h, r, render b ++ more)) =
      (w', h', r, log) -> exists l, streamed k index (a :: rest) r log l) as Hgo.
  { intros h4 k4 Hk4 Hb4 He4 -> Ho. destruct (stream_loop _ _ _ _ _ _ _ _ _) as [[[w5 h5] r5] more] eqn:El.
    intros [= _ _ <- <-]. apply IH in El as [l Hl]; [|done..]. exists (b :: l). by apply (streamed_cons k index a rest r5 b more l). }
  destruct (st_end s).2 as [|e| |f|] eqn:Eend.
  - destruct (st_chunks s) eqn:Ec.
    + apply Hgo; [apply Forall_app; split; [done|apply Forall_singleton, attempt_record_ok]|done|by etrans; [apply refusals_end_empty|]| |].
      * unfold step_block. simpl. rewrite Eend, Ec. unfold bk_attempt. simpl. by rewrite Hp.
      * split; [unfold shows; simpl; by rewrite Ec|left; unfold block_failure; simpl; by rewrite Eend, Ec].
    + intros [= _ _ <- <-]. exists [b]. apply streamed_last; try done. right. simpl. rewrite Eend, Ec. done.
  - destruct (shows b) eqn:Esh.
    + intros [= _ _ <- <-]. exists [b]. apply streamed_last; try done. right. simpl. by rewrite Eend.
    + apply Hgo; [done|done|done|unfold step_block; simpl; by rewrite Eend|]. split; [done|right; exists e; simpl; done].
  - intros [= _ _ <- <-]. exists [b]. apply streamed_last; try done. right. simpl. by rewrite Eend.
  - destruct (shows b) eqn:Esh.
    { intros [= _ _ <- <-]. exists [b]. apply streamed_last; try done. right. simpl. by rewrite Eend. }
    assert (hands_over b) as Ho by (split; [done|left; unfold block_failure; simpl; by rewrite Eend]).
    assert (failed k a f = step_block k b) as Hst by (unfold step_block, bk_attempt; simpl; by rewrite Eend, Hp).
    destruct (_refusals_end_plan (wk_errors (failed k a f))) eqn:Hre.
    + intros [= _ _ <- <-]. exists [b]. apply streamed_last; try done. left. unfold ends_early. cbn [fold_left].
      by rewrite <- Hst.
    + apply Hgo; [|by rewrite remember_backends|done|done|done]. apply Forall_app. split; [done|]. apply Forall_singleton, attempt_record_ok.
  - intros [= _ _ <- <-]. exists [b]. apply streamed_last; try done. right. simpl. by rewrite Eend.
Qed.

End walked.

(** The walk gathered from blocks. *)
Lemma gathered_blocks l : forall k,
  wk_attempts (fold_left step_block l k) = wk_attempts k ++ (record_of <$> block_failures l) /\
  wk_errors (fold_left step_block l k) = wk_errors k ++ (snd <$> block_failures l) /\
  wk_refusals (fold_left step_block l k) = wk_refusals k ++ block_refusals l.
Proof.
  induction l as [|b l IH]; intros k; [by rewrite !app_nil_r|]. cbn [fold_left].
  destruct (IH (step_block k b)) as (-> & -> & ->).
  unfold block_failures, block_refusals, step_block. cbn [omap list_omap]. unfold block_failure.
  destruct (st_end (bk_stream b)).2; try done.
  - destruct (st_chunks (bk_stream b)); [|done]. cbn. by rewrite <- !app_assoc.
  - cbn. by rewrite <- !app_assoc.
  - cbn. by rewrite <- !app_assoc.
Qed.

(** Upstreams that rejected the request as malformed. *)
Definition rejections (l : list block) : nat :=
  length (filter (fun x => _counts_as_request_refusal (failure_exn x.2)) (block_failures l)).

(** The endings of a streamed request, in terms of its blocks. *)
Definition stream_ending (serve : nat -> @shared W -> call -> @shared W * result dispatch_error (@stream W))
    (rq : request) (d : routing_decision) (backends : list (string * B)) (plan : list planned) (l : list block)
    (r : ending unit) : Prop :=
  let unseen := Forall (fun b => shows b = false) l in
  let ended := passed ∅ plan l \/ rejections l = 2%nat in
  match r with
  | Answered _ =>
      exists pre b, l = pre ++ [b] /\ (st_end (bk_stream b)).2 = StreamEnded /\ st_chunks (bk_stream b) <> []
  | RaisedFailure f =>
      (exists pre b, l = pre ++ [b] /\ shows b = true /\ (st_end (bk_stream b)).2 = StreamFailed f) \/
      (unseen /\ ended /\
       exists x, block_failures l !! select_surfaced_error (failure_exn ∘ snd <$> block_failures l) = Some x /\
         f = attach_attempt_history x.2 (record_of <$> block_failures l))
  | RaisedRefusal e =>
      (exists pre b, l = pre ++ [b] /\ shows b = true /\ (st_end (bk_stream b)).2 = StreamRefused e) \/
      (unseen /\ passed ∅ plan l /\ block_failures l = [] /\ head (block_refusals l) = Some e)
  | RaisedHybrid _ => False
  | RaisedDispatch e =>
      (unseen /\ exists before a after, plan = before ++ a :: after /\ passed ∅ before l /\
         not_dispatched serve rq d backends (length before) a e) \/
      (e = DispatchMismatchError /\ exists pre b, l = pre ++ [b] /\ (st_end (bk_stream b)).2 = StreamMismatch)
  | Cancelled => exists pre b, l = pre ++ [b] /\ (st_end (bk_stream b)).2 = StreamCancelled
  end.

Lemma hands_over_hidden l : Forall hands_over l -> Forall (fun b => shows b = false) l.
Proof. intros Hl. eapply Forall_impl; [done|]. by intros b [? _]. Qed.

Lemma ends_early_rejections l : ends_early new_walk l = bool_decide (2 <= rejections l)%nat.
Proof.
  unfold ends_early, _refusals_end_plan, request_refusals_end_fallback, _REQUEST_REFUSAL_LIMIT, rejections.
  destruct (gathered_blocks l new_walk) as (_ & -> & _). apply bool_decide_ext. cbn [new_walk wk_errors app].
  assert (forall l : list (planned * failure),
    length (filter _counts_as_request_refusal (failure_exn <$> (snd <$> l))) =
    length (filter (fun x => _counts_as_request_refusal (failure_exn x.2)) l)) as ->; [|done].
  intros fs. induction fs as [|x fs IH]; [done|]. rewrite !fmap_cons, !filter_bool_cons.
  destruct (_counts_as_request_refusal _); [cbn [length]; by f_equal|done].
Qed.

(** At most two upstreams reject the request. *)
Lemma rejections_bounded l :
  (forall pre b, l = pre ++ [b] -> Forall hands_over pre /\ ends_early new_walk pre = false) -> (rejections l <= 2)%nat.
Proof.
  intros Hl. destruct (last l) as [b|] eqn:El; [|apply last_None in El as ->; unfold rejections; simpl; lia].
  apply last_Some in El as [pre ->]. destruct (Hl pre b eq_refl) as [_ He]. rewrite ends_early_rejections in He.
  apply bool_decide_eq_false in He. unfold rejections, block_failures in *. rewrite omap_app, filter_app, length_app.
  cbn [omap list_omap]. destruct (block_failure b); simpl; [|lia].
  rewrite filter_bool_cons. destruct (_counts_as_request_refusal _); simpl; lia.
Qed.

(** A plan that starts was not passed by no block at all. *)
Lemma nothing_handed_over plan l : plan <> [] -> Forall hands_over l -> passed ∅ plan l ->
  block_failures l = [] -> block_refusals l = [] -> False.
Proof.
  intros Hplan Hf Hp Ef Er. destruct Hf as [|b l [_ Hb] Hf].
  - destruct plan as [|a plan]; [done|]. destruct (Hp a ltac:(by left)) as [[]%elem_of_nil|Hr].
    unfold already_ran in Hr. simpl in Hr. destruct (pl_endpoint_id a); [|done].
    apply bool_decide_eq_true in Hr. set_solver.
  - destruct Hb as [[f Hb]|[e Hb]].
    + unfold block_failures in Ef. cbn [omap list_omap] in Ef. by rewrite Hb in Ef.
    + unfold block_refusals in Er. cbn [omap list_omap] in Er. by rewrite Hb in Er.
Qed.

Lemma raise_after_stream serve rq d backends plan l : plan <> [] -> Forall hands_over l ->
  passed ∅ plan l \/ rejections l = 2%nat ->
  stream_ending serve rq d backends plan l (_raise_after_attempts (fold_left step_block l new_walk)).
Proof.
  intros Hplan Hf Hend. pose proof (hands_over_hidden l Hf) as Hh. unfold _raise_after_attempts.
  destruct (gathered_blocks l new_walk) as (-> & -> & ->). cbn [new_walk wk_attempts wk_errors wk_refusals app].
  destruct (block_failures l) as [|x fs] eqn:Ef.
  - assert (passed ∅ plan l) as Hp by (destruct Hend as [|Hr]; [done|unfold rejections in Hr; by rewrite Ef in Hr]).
    cbn [fmap list_fmap]. destruct (block_refusals l) as [|e es] eqn:Er;
      [by eapply nothing_handed_over|]. right. by rewrite Ef, Er.
  - set (fl := x :: fs) in *. pose proof (surfaced_index_lt (failure_exn <$> (snd <$> fl))) as Hlt.
    specialize (Hlt ltac:(unfold fl; rewrite !fmap_cons; intros [=])). rewrite !length_fmap in Hlt.
    destruct (fl !! select_surfaced_error (failure_exn <$> (snd <$> fl))) as [y|] eqn:Ey.
    2: { apply lookup_ge_None in Ey. lia. }
    change (snd <$> fl) with (x.2 :: (snd <$> fs)) at 1. cbn iota beta.
    change (x.2 :: (snd <$> fs)) with (snd <$> fl). rewrite list_lookup_fmap, Ey.
    right. split; [done|]. split; [done|]. exists y. rewrite Ef. fold fl. split; [|done]. by rewrite list_fmap_compose.
Qed.

Lemma verdict_stream_ending serve rq d backends plan l r : plan <> [] ->
  (forall pre b, l = pre ++ [b] -> Forall hands_over pre /\ ends_early new_walk pre = false) ->
  stream_verdict serve rq d backends new_walk 0 plan l r -> stream_ending serve rq d backends plan l r.
Proof.
  intros Hplan Hl%rejections_bounded [(Hf & -> & Hend)|[(Hf & pre & a & post & e & E & Hp & He & ->)|(pre & b & -> & Hb)]].
  - apply raise_after_stream; [done..|]. destruct Hend as [|He]; [by left|right].
    rewrite ends_early_rejections in He. apply bool_decide_eq_true in He. lia.
  - left. split; [by apply hands_over_hidden|]. by exists pre, a, post.
  - destruct (st_end (bk_stream b)).2 as [|e| |f|] eqn:Ee.
    + destruct Hb as [? ->]. by exists pre, b.
    + destruct Hb as [? ->]. left. by exists pre, b.
    + rewrite Hb. right. split; [done|]. by exists pre, b.
    + destruct Hb as [? ->]. left. by exists pre, b.
    + rewrite Hb. by exists pre, b.
Qed.

Lemma render_sent b i raw out : Sent i raw out ∈ render b -> is_client_visible raw = true -> shows b = true.
Proof.
  unfold render. intros Hin Hv. apply existsb_exists. apply elem_of_cons in Hin as [?|Hin]; [done|].
  rewrite !elem_of_app in Hin. destruct Hin as [(c & ? & _)%list_elem_of_fmap|[(x & [= -> -> ->] & Hx)%list_elem_of_fmap|Hin]];
    [done|by exists x; split; [apply list_elem_of_In|]|].
  by apply list_elem_of_singleton in Hin.
Qed.

Lemma render_opened b pre x post j c : render b = pre ++ x :: post -> Opened j c ∉ post.
Proof.
  intros E Hin. assert (Opened j c ∈ tail (render b)) as Ht.
  { rewrite E. destruct pre as [|y pre]; simpl; [done|]. set_solver. }
  unfold render in Ht. cbn [tail] in Ht. rewrite !elem_of_app in Ht.
  destruct Ht as [(? & ? & _)%list_elem_of_fmap|[(? & ? & _)%list_elem_of_fmap|Ht]]; try done.
  by apply list_elem_of_singleton in Ht.
Qed.

(** After a chunk the client sees, no stream is opened. *)
Lemma visible_is_last l pre i raw out post :
  (forall pre b, l = pre ++ [b] -> Forall hands_over pre) ->
  concat (render <$> l) = pre ++ Sent i raw out :: post -> is_client_visible raw = true ->
  forall j c, Opened j c ∉ post.
Proof.
  intros Hl E Hv j c. destruct (last l) as [b|] eqn:El.
  2: { apply last_None in El as ->. by destruct pre. }
  apply last_Some in El as [l' ->]. specialize (Hl l' b eq_refl).
  rewrite fmap_app, concat_app in E. cbn [fmap list_fmap concat] in E. rewrite app_nil_r in E.
  apply app_eq_app in E as [k [[E1 E2]|[E1 E2]]]; [|by eapply render_opened].
  destruct k as [|x k]; [done|]. injection E2 as <- E2.
  assert (Sent i raw out ∈ concat (render <$> l')) as Hs by (rewrite E1; set_solver).
  apply list_elem_of_In, in_concat in Hs as (evs & Hevs & Hs).
  apply list_elem_of_In, list_elem_of_fmap in Hevs as (b' & -> & Hb').
  apply list_elem_of_In, render_sent in Hs; [|done].
  apply (proj1 (Forall_forall _ _) Hl) in Hb' as [Hb' _]. by rewrite Hb' in Hs.
Qed.

(** C9: a streamed hybrid request shows the client one answer.  Whatever the
    backends' streams are, what the walk does is a sequence of attempts of the
    plan, in its order, each opening one stream, sending on every chunk it gave in
    order, and closing it before the next is opened; the frames it adds of its own
    are ones the serving layer drops.  Only an attempt of which the client saw
    nothing and which failed, was refused or gave no output is followed by another,
    so once a chunk the client sees has been sent, no other stream is opened.  No
    attempt is made for an endpoint an earlier one ran and failed on, and at most two
    upstreams get to reject the request as malformed.  The request ends in one of
    these ways: with the stream that came to its end; with the failure or refusal of
    an attempt the client had already seen something of; when the client saw nothing
    and every attempt of the plan was made or passed over as having run, or two
    upstreams rejected the request, with the error the surfacing rule picks among the
    failures, carrying the record of all of them, or if nothing failed with the first
    admission refusal; with a dispatch error, raised by the check or the call of the
    plan's next attempt or by a stream that reports a mismatch; or cancelled.  The
    generic "every backend failed" error is never raised. *)
Theorem hybrid_stream_correct serve w (h : hybrid B P) rq w1 h1 d plan preferred w' h' r log :
  plan_request w h rq = (w1, h1, Ok (d, plan, preferred)) ->
  stream_chat_completion serve w h rq = (w', h', r, log) ->
  (forall pre i raw out post, log = pre ++ Sent i raw out :: post -> is_client_visible raw = true ->
     forall j c, Opened j c ∉ post) /\
  exists l, log = concat (render <$> l) /\ bk_attempt <$> l `sublist_of` plan /\ no_restream ∅ l /\
    Forall (fun b => Forall (fun c => is_client_visible c = false) (bk_history b) /\
                     exists sh, (serve (bk_index b) sh (bk_call b)).2 = Ok (bk_stream b)) l /\
    (forall pre b, l = pre ++ [b] -> Forall hands_over pre) /\ (rejections l <= 2)%nat /\
    stream_ending serve rq d (h_backends h1) plan l r.
Proof.
  intros Hp Hs. pose proof (plan_request_primary _ _ _ _ _ _ _ _ Hp) as (a & rest & Hplan & _ & _).
  unfold stream_chat_completion in Hs. rewrite Hp in Hs.
  apply (stream_loop_streamed serve rq d (h_backends h1)) in Hs as (l & Hlog & Hsub & Hn & Hser & Hpre & Hv);
    [|constructor|done|done].
  assert (forall pre b, l = pre ++ [b] -> Forall hands_over pre) as Hho by (intros pre b E; by destruct (Hpre pre b E)).
  split.
  - intros pre i raw out post E. rewrite Hlog in E. by apply (visible_is_last l pre i raw out post).
  - exists l. split_and!; try done; [by apply rejections_bounded|]. apply verdict_stream_ending; [by rewrite Hplan|done..].
Qed.

End streams.

(** The first stream fails after its routing frame, the second answers. *)
Definition sample_streams (i : nat) (sh : @shared unit) (c : call) :
    @shared unit * result dispatch_error (@stream unit) :=
  (sh, Ok match i with
          | 0%nat => Stream [(fun x => x, sample_frame)] (fun x => x, StreamFailed SampleHybrid.reset)
          | _ => Stream [(fun x => x, sample_frame); (fun x => x, Text (chars_of "data: [DONE]"))]
                   (fun x => x, StreamEnded)
          end).

Lemma hybrid_stream_correct_witness :
  let _ : ErrorTexts := plain_texts in
  let _ : ErrorNames := plain_names in
  let _ : NumberText := plain_numbers in
  let '(_, _, r, log) := stream_chat_completion sample_streams tt SampleHybrid.router SampleHybrid.rq in
  r = Answered tt /\ length log = 8%nat /\
  (forall pre i raw out post, log = pre ++ Sent i raw out :: post -> is_client_visible raw = true ->
     forall j c, Opened j c ∉ post).
Proof.
  intros T N NT.
  assert (TextLaws) as HL by (constructor; [done|intros; apply chars_of_scalar|intros; constructor]).
  destruct (stream_chat_completion sample_streams tt SampleHybrid.router SampleHybrid.rq) as [[[w h] r] log] eqn:E.
  destruct (plan_request tt SampleHybrid.router SampleHybrid.rq) as [[w1 h1] [[[d plan] preferred]|e]] eqn:Ep;
    [|vm_compute in Ep; discriminate Ep].
  destruct (hybrid_stream_correct sample_streams tt SampleHybrid.router SampleHybrid.rq w1 h1 d plan
    preferred w h r log Ep E) as [Hv _].
  vm_compute in E. injection E as <- <- <- Hlog. split; [reflexivity|]. split; [by rewrite <- Hlog|exact Hv].
Defined.
