(* ===== verification/HybridFeedback.v ===== *)
(** Where feedback goes: the theorems about the dispatch records of [HybridRouter]. *)

From S2P Require Import Prelude PyText UsageLimit Failures CircuitBreaker EndpointHealth Offload FixedRouter RouteSelection GrantToken HybridFrames HybridRouter.

Local Open Scope Z_scope.

Section feedback.
Context {W B P : Type} `{RB : RoutingBackend W B} `{BS : BackendSelection W P}.
Implicit Types (w : W) (h : hybrid B P).

(** What reaches the dispatch records: a decision or an attempt remembered, an
    observation resolved, each in the world of its moment. *)
Inductive feedback_op : Type :=
| Remember (w : W) (id : option string) (backend model : string) (routing : option routing_block)
    (endpoint : option string)
| Observe (w : W) (obs : observation).

Definition feedback_step h (op : feedback_op) : hybrid B P :=
  match op with
  | Remember w id backend model routing endpoint =>
      _remember_backend_decision w h id backend model routing endpoint
  | Observe w obs => (_resolve_feedback_backend w h obs).1
  end.

(** The endpoints a remembered attempt names. *)
Definition reported (routing : option routing_block) (endpoint : option string) : list string :=
  let routing := default no_routing routing in
  option_list (match truthy (rt_endpoint_id routing) with Some e => Some e | None => truthy endpoint end) ++
  omap (fun r => truthy (Some (ar_endpoint_id r))) (default [] (rt_failed_attempts routing)).

(** [op] remembers, for request [id], an attempt on [b] that names [e], or one on [b]
    that names no endpoint at all. *)
Definition ran_on (id b : string) (e : string) (op : feedback_op) : Prop :=
  match op with
  | Remember _ (Some id') b' _ routing endpoint => id' = id /\ b' = b /\ e ∈ reported routing endpoint
  | _ => False
  end.
Definition ran_unnamed (id b : string) (op : feedback_op) : Prop :=
  match op with
  | Remember _ (Some id') b' _ routing endpoint => id' = id /\ b' = b /\ reported routing endpoint = []
  | _ => False
  end.

(** Every record is accounted for by what was remembered. *)
Definition record_sound (ops : list feedback_op) (x : string * feedback_dispatch) : Prop :=
  (forall e b, fd_endpoints x.2 !! e = Some b -> Exists (ran_on x.1 b e) ops) /\
  (fd_endpoints x.2 = ∅ -> Exists (ran_unnamed x.1 (fd_backend x.2)) ops).

Definition records_sound (ops : list feedback_op) h : Prop :=
  NoDup (h_decisions h).*1 /\ (length (h_decisions h) <= h_max h)%nat /\ Forall (record_sound ops) (h_decisions h).

Lemma reported_endpoints backend routing endpoint (m : gmap string string) :
  fold_left (fun m r => match truthy (Some (ar_endpoint_id r)) with Some e => <[e := backend]> m | None => m end)
    (default [] (rt_failed_attempts (default no_routing routing)))
    (match (match truthy (rt_endpoint_id (default no_routing routing)) with Some e => Some e | None => truthy endpoint end)
     with Some e => <[e := backend]> m | None => m end) =
  fold_left (fun m e => <[e := backend]> m) (reported routing endpoint) m.
Proof.
  unfold reported. cbv zeta. rewrite fold_left_app.
  set (m' := match (match truthy _ with Some e => Some e | None => truthy endpoint end) with Some e => _ | None => m end).
  assert (fold_left (fun m e => <[e := backend]> m) (option_list (match truthy (rt_endpoint_id (default no_routing routing))
    with Some e => Some e | None => truthy endpoint end)) m = m') as ->
    by (unfold m'; by destruct (match truthy _ with Some e => Some e | None => truthy endpoint end)).
  generalize m'. induction (default [] (rt_failed_attempts (default no_routing routing))) as [|r l IH]; intros m0; [done|].
  cbn [fold_left omap list_omap]. rewrite IH. by destruct (truthy (Some (ar_endpoint_id r))).
Qed.

Lemma lookup_reported l backend (m : gmap string string) e b :
  fold_left (fun m e => <[e := backend]> m) l m !! e = Some b ->
  (e ∈ l /\ b = backend) \/ m !! e = Some b.
Proof.
  revert m; induction l as [|x l IH]; intros m; simpl; [by right|]. intros [[? ?]|Hm]%IH; [left; set_solver|].
  destruct (decide (x = e)) as [->|Hne].
  - rewrite lookup_insert_eq in Hm. simplify_eq. left. set_solver.
  - rewrite lookup_insert_ne in Hm by done. by right.
Qed.

Lemma reported_nonempty l backend (m : gmap string string) :
  fold_left (fun m e => <[e := backend]> m) l m = ∅ -> l = [] /\ m = ∅.
Proof.
  revert m; induction l as [|x l IH]; intros m; simpl; [done|]. intros [_ Hm]%IH.
  by apply insert_non_empty in Hm.
Qed.

Lemma find_item_elem {A} k (v : A) d : NoDup d.*1 -> find_item k d = Some v <-> (k, v) ∈ d.
Proof.
  unfold find_item. induction d as [|[k' v'] d IH]; simpl; [set_solver|]. intros [Hn Hd]%NoDup_cons.
  case_bool_decide as Hk; simpl.
  - subst k'. rewrite elem_of_cons. split; [intros [= ->]; by left|].
    intros [[= ->]|Hin]; [done|]. destruct Hn. by apply (list_elem_of_fmap_2 fst _ (k, v)).
  - rewrite IH, elem_of_cons by done. split; [by right|]. by intros [[= -> ->]|].
Qed.

Lemma put_item_keys {A} k (v : A) d :
  (put_item k v d).*1 = if bool_decide (k ∈ d.*1) then d.*1 else d.*1 ++ [k].
Proof.
  unfold put_item. case_bool_decide as Hk; [|by rewrite fmap_app].
  clear Hk. rewrite <- list_fmap_compose. apply list_fmap_ext. intros i [k' v'] _. simpl.
  by destruct (decide (k' = k)) as [->|].
Qed.

Lemma elem_of_put_item {A} k (v : A) d x : x ∈ put_item k v d -> x = (k, v) \/ x ∈ d.
Proof.
  unfold put_item. case_bool_decide; [|set_solver]. intros (y & -> & Hy)%list_elem_of_fmap.
  destruct (decide (y.1 = k)); [by left|by right].
Qed.

Lemma record_sound_mono ops op x : record_sound ops x -> record_sound (ops ++ [op]) x.
Proof.
  intros [H1 H2]. split; [intros e b Hb; apply Exists_app; left; eauto|].
  intros He. apply Exists_app. left. auto.
Qed.

Lemma remember_sound ops h w id backend model routing endpoint :
  (1 <= h_max h)%nat -> records_sound ops h ->
  records_sound (ops ++ [Remember w id backend model routing endpoint])
    (_remember_backend_decision w h id backend model routing endpoint).
Proof.
  intros Hmax (Hd & Hlen & Hr). unfold _remember_backend_decision.
  assert (forall ds, ds `sublist_of` h_decisions h ->
    Forall (record_sound (ops ++ [Remember w id backend model routing endpoint])) ds /\ NoDup ds.*1) as Hsub.
  { intros ds Hs. split; [|eapply sublist_NoDup; [apply Hd|by apply fmap_sublist]].
    apply Forall_forall. intros x Hx. apply record_sound_mono, (proj1 (Forall_forall _ _) Hr).
    by eapply elem_of_sublist. }
  destruct (truthy id) as [rid|] eqn:Eid.
  2: { split_and!; [done|done|by apply Hsub]. }
  assert (id = Some rid) as -> by (destruct id as [i|]; simpl in Eid; [case_decide; by simplify_eq|done]).
  set (ds := if bool_decide (rid ∉ (h_decisions h).*1) && bool_decide (h_max h <= length (h_decisions h))%nat
             then tail (h_decisions h) else h_decisions h).
  assert (ds `sublist_of` h_decisions h) as Hds.
  { unfold ds. destruct (_ && _); [|done]. destruct (h_decisions h); [done|by apply sublist_cons]. }
  assert (rid ∉ ds.*1 -> length ds < h_max h)%nat as Hroom.
  { unfold ds. case_bool_decide as Hin; simpl; [|done]. case_bool_decide as Hle; simpl; [|intros; lia].
    intros _. destruct (h_decisions h); simpl in *; lia. }
  assert (length ds <= h_max h)%nat as Hlds by (etrans; [by apply sublist_length|done]).
  destruct (Hsub ds Hds) as [Hsd Hdd]. rewrite reported_endpoints. set (rec := default _ (find_item rid ds)).
  split_and!.
  - simpl. rewrite put_item_keys. case_bool_decide as Hk; [done|]. apply NoDup_app. split_and!; [done| |apply NoDup_singleton].
    set_solver.
  - simpl. rewrite <- (length_fmap fst), put_item_keys. case_bool_decide as Hk; [by rewrite length_fmap|].
    specialize (Hroom Hk). rewrite length_app, length_fmap. simpl. lia.
  - simpl. apply Forall_forall. intros x [->|Hx]%elem_of_put_item; [|by apply (proj1 (Forall_forall _ _) Hsd)].
    split; simpl.
    + intros e b [[He ->]|He]%lookup_reported; [apply Exists_app; right; by apply Exists_cons_hd|].
      unfold rec in He. destruct (find_item rid ds) as [old|] eqn:Eo; [|done]. simpl in He.
      apply find_item_elem in Eo; [|done]. by apply (proj1 (Forall_forall _ _) Hsd) in Eo as [Eo _]; apply Eo.
    + intros [He _]%reported_nonempty. apply Exists_app. right. by apply Exists_cons_hd.
Qed.

Lemma release_sound ops h obs op : records_sound ops h -> records_sound (ops ++ [op]) (_release_decision h obs).
Proof.
  intros (Hd & Hlen & Hr).
  assert (records_sound (ops ++ [op]) h) as Hh.
  { split_and!; [done|done|]. eapply Forall_impl; [done|]. intros x. apply record_sound_mono. }
  unfold _release_decision. destruct (negb _); [done|]. destruct (truthy _) as [id|]; [|done].
  destruct Hh as (_ & _ & Hh).
  assert (remove_item id (h_decisions h) `sublist_of` h_decisions h) as Hs by apply sublist_filter.
  split_and!; simpl.
  - eapply sublist_NoDup; [apply Hd|]. by apply fmap_sublist.
  - etrans; [by apply sublist_length|done].
  - apply Forall_forall. intros x Hx. apply (proj1 (Forall_forall _ _) Hh). by eapply elem_of_sublist.
Qed.

Lemma feedback_step_sound ops h op :
  (1 <= h_max h)%nat -> records_sound ops h ->
  records_sound (ops ++ [op]) (feedback_step h op) /\ h_max (feedback_step h op) = h_max h.
Proof.
  intros Hmax Hh. destruct op as [w id backend model routing endpoint|w obs]; simpl.
  - split; [by apply remember_sound|]. unfold _remember_backend_decision. by destruct (truthy id).
  - assert (records_sound (ops ++ [Observe w obs]) h) as Hh'.
    { destruct Hh as (Hd & Hlen & Hr). split_and!; [done|done|]. eapply Forall_impl; [done|]. intros x.
      apply record_sound_mono. }
    assert (h_max (_release_decision h obs) = h_max h) as Hm
      by (unfold _release_decision; destruct (negb _); [done|]; by destruct (truthy _)).
    unfold _resolve_feedback_backend. destruct (_ ≫= _) as [rec|].
    + case_bool_decide; [done|]. split; [by apply release_sound|done].
    + destruct (filter _ _) as [|o [|? ?]]; [done| |done]. split; [by apply release_sound|done].
Qed.

(** What has been remembered and observed so far accounts for every record. *)
Lemma feedback_sound ops h :
  h_decisions h = [] -> (1 <= h_max h)%nat ->
  records_sound ops (fold_left feedback_step ops h) /\ h_max (fold_left feedback_step ops h) = h_max h.
Proof.
  intros Hh Hmax. induction ops as [|op ops IH] using rev_ind.
  - simpl. split; [|done]. unfold records_sound. rewrite Hh. split_and!; [constructor|simpl; lia|constructor].
  - rewrite fold_left_app. destruct IH as [IH IHm]. simpl.
    destruct (feedback_step_sound ops (fold_left feedback_step ops h) op) as [? ->]; [by rewrite IHm|done|done].
Qed.

(** C10: feedback reaches at most one backend, and the right one.  After any
    decisions, attempts and observations, at most [max_recorded_decisions] dispatch
    records are kept; an observation of a request that has a record is delivered
    only to a backend that ran the endpoint it names for that request (or, while no
    attempt of the request has named any endpoint, to one that ran an attempt of
    it); one without a record only to the single backend that claims it; and a
    delivered terminal observation leaves no record, so that no other one can be
    attributed by it. *)
Theorem feedback_attributed ops h w obs h' b :
  h_decisions h = [] -> (1 <= h_max h)%nat ->
  _resolve_feedback_backend w (fold_left feedback_step ops h) obs = (h', Some b) ->
  let now := fold_left feedback_step ops h in
  (length (h_decisions now) <= h_max h)%nat /\
  match obs_request_id obs ≫= fun id => find_item id (h_decisions now) with
  | Some rec =>
      exists id, obs_request_id obs = Some id /\ hybrid_canonical_id w now (obs_model_id obs) = fd_model_id rec /\
        (Exists (ran_on id b (obs_endpoint_id obs)) ops \/
         (fd_endpoints rec = ∅ /\ Exists (ran_unnamed id b) ops))
  | None => exists bk, filter (fun x => owns_observation w x.2 obs) (h_backends now) = [(b, bk)]
  end /\
  (obs_terminal obs = true -> forall id, truthy (obs_request_id obs) = Some id -> find_item id (h_decisions h') = None).
Proof.
  intros Hh Hmax E now. destruct (feedback_sound ops h Hh Hmax) as [(Hd & Hlen & Hr) Hm]. fold now in Hd, Hlen, Hr, Hm, E.
  rewrite Hm in Hlen. split; [done|].
  assert (forall id, find_item id (remove_item id (h_decisions now)) = None) as Hgone.
  { intros id. unfold find_item, remove_item. destruct (find _ _) as [x|] eqn:Ef; [|done].
    apply find_some in Ef as [Hin%list_elem_of_In Hx]. apply list_elem_of_filter in Hin as [Hx' _].
    by apply bool_decide_eq_true in Hx. }
  assert (h' = _release_decision now obs -> obs_terminal obs = true ->
    forall id, truthy (obs_request_id obs) = Some id -> find_item id (h_decisions h') = None) as Hrel.
  { intros -> Ht id Hid. unfold _release_decision. rewrite Ht, Hid. simpl. apply Hgone. }
  unfold _resolve_feedback_backend in E.
  destruct (obs_request_id obs) as [id|] eqn:Eid; simpl in E |- *.
  - destruct (find_item id (h_decisions now)) as [rec|] eqn:Er.
    + case_bool_decide as Hc; [done|]. injection E as <- Eb. split; [|by apply Hrel].
      exists id. split; [done|]. split; [destruct (decide (hybrid_canonical_id w now (obs_model_id obs) = fd_model_id rec)); done|].
      apply find_item_elem in Er; [|done]. apply (proj1 (Forall_forall _ _) Hr) in Er as [R1 R2]. simpl in R1, R2.
      destruct (fd_endpoints rec !! obs_endpoint_id obs) as [b'|] eqn:Ee; [left; simplify_eq; by apply R1|].
      case_bool_decide as Hem; [|done]. right. simplify_eq. auto.
    + destruct (filter _ _) as [|[o bk] [|? ?]]; try done. injection E as <- <-. split; [by exists bk|by apply Hrel].
  - destruct (filter _ _) as [|[o bk] [|? ?]]; try done. injection E as <- <-. split; [by exists bk|by apply Hrel].
Qed.

End feedback.

(** A request decided for one backend and answered by the other. *)
Definition sample_ops : list feedback_op :=
  [Remember tt (Some "r"%string) "local" "m" None None;
   Remember tt (Some "r"%string) "local" "m" None (Some "l1"%string);
   Remember tt (Some "r"%string) "cloud" "m" None (Some "c1"%string)].

Lemma feedback_attributed_witness :
  let now := fold_left feedback_step sample_ops SampleHybrid.router in
  let obs := Observation (Some "r"%string) "m" "l1" true in
  (length (h_decisions now) <= 4)%nat /\
  (_resolve_feedback_backend tt now obs).2 = Some "local"%string /\
  find_item "r" (h_decisions (_resolve_feedback_backend tt now obs).1) = None.
Proof.
  intros now obs. destruct (_resolve_feedback_backend tt now obs) as [h' [b|]] eqn:E; [|vm_compute in E; discriminate E].
  destruct (feedback_attributed sample_ops SampleHybrid.router tt obs h' b eq_refl ltac:(simpl; lia) E) as (Hl & _ & Ht).
  split; [exact Hl|]. split; [vm_compute in E; by injection E as _ <-|]. by apply Ht.
Defined.
