(* ===== verification/HybridComposition.v ===== *)
(** The shipped hybrid composition of a [router: fixed] model: the local and cloud
    domains of its route ([serving/servers/hybrid_composition.py]), the policy over
    them ([routing/policies.py]) and the two backends that bound their own dispatch
    ([routing/backends.py], [routing/route_scope.py]), as instances of the
    interfaces of [HybridRouter].

    All of them read one shared [FixedRouter], the one of [RouteSelection].  The
    route table is a dict, and which route speaks for a model is the first in its
    order: the order of its keys is part of the world, and so is what each
    consultation reads of the clocks and of [random]. *)

From S2P Require Import Prelude PyText UsageLimit Failures CircuitBreaker EndpointHealth Offload PrefillLoad FixedRouter RouteSelection GrantToken HybridFrames HybridRouter.

Local Open Scope Z_scope.
Local Open Scope result_scope.

(** ** The world *)

(** What the consultations of the shared router read, by the consultation's number:
    whether an event loop runs, when circuits are asked for the eligible adapters,
    the readings of a draw and those of a provider's resolution. *)
Record oracle : Type := Oracle {
  o_loop : bool;
  o_eligible : nat -> nat -> env;
  o_select : nat -> readings;
  o_resolve : nat -> nat -> readings
}.

Record world : Type := World {
  w_config : router_config;
  w_router : router;
  w_keys : list string;
  w_oracle : oracle;
  w_tick : nat
}.

(** The world after a consultation that left the router as [st]. *)
Definition consulted (w : world) (st : router) : world :=
  World (w_config w) st (w_keys w) (w_oracle w) (S (w_tick w)).

Section composition.
Context `{Blake2b, Adapters}.

(** ** The shared route table *)

(** [FixedRouter.canonical_id] *)
Definition fixed_canonical_id (st : router) (model : string) : string :=
  match routes st !! model with
  | Some route => default model (truthy (canonical_model_id route))
  | None => model
  end.

(** [EffectiveRoute] *)
Record effective_route : Type := EffectiveRoute {
  er_route_key : string;
  er_canonical_model_id : string;
  er_adapters : list (adapter * Q)
}.

(** [_effective_routes_locked] from a key on. *)
Fixpoint effective_routes (c : router_config) (loop : bool) (st : router) (seen : gset string) (keys : list string) :
    result selection_error (list effective_route) :=
  match keys with
  | [] => Ok []
  | key :: rest =>
      match routes st !! key with
      | None => effective_routes c loop st seen rest
      | Some route =>
          let canonical := default key (truthy (canonical_model_id route)) in
          if negb (published route) || bool_decide (canonical ∈ seen) then effective_routes c loop st seen rest
          else
            try! l <- _get_effective_adapters c loop key route ;;
            try! more <- effective_routes c loop st ({[canonical]} ∪ seen) rest ;;
            Ok (EffectiveRoute key canonical l :: more)
      end
  end.

(** [iter_effective_routes] *)
Definition iter_effective_routes (w : world) : result selection_error (list effective_route) :=
  effective_routes (w_config w) (o_loop (w_oracle w)) (w_router w) ∅ (w_keys w).

(** [_adapters_in_router]; a table that cannot be read has no entries. *)
Definition _adapters_in_router (w : world) (model : option string) : list adapter :=
  let routes := match iter_effective_routes w with Ok l => l | Raise _ => [] end in
  let routes := match model with
                | None => routes
                | Some m => filter (fun r => er_canonical_model_id r = fixed_canonical_id (w_router w) m) routes
                end in
  routes ≫= fun r => fst <$> er_adapters r.

(** [RoutingBackendBase.scope_endpoints] *)
Definition pool_scope_endpoints (w : world) (scope : gset string) (model : option string) : gset string :=
  list_to_set (endpoint_id_for_adapter <$>
    filter (fun a => adapter_in_endpoint_scope a (Some scope)) (_adapters_in_router w model)).

(** ** The two pools *)

Inductive domain : Type := LocalDomain | CloudDomain.
#[global] Instance domain_eq_dec : EqDecision domain.
Proof. solve_decision. Defined.

(** [LocalBackend] and [FixedCloudBackend]: [p_scope] and [p_index] are the declared
    range and the endpoint-to-provider index of its [ObservationScope]. *)
Record pool : Type := Pool {
  p_domain : domain;
  p_name : string;
  p_pool_id : string;
  p_model_scope : option (gset string);
  p_scope : option (gset string);
  p_index : gmap string string
}.

(** [ObservationScope.prime] *)
Definition prime (l : list adapter) : gmap string string :=
  fold_left (fun m a => <[endpoint_id_for_adapter a := cfg_provider (config a)]> m) l ∅.

(** [_build_observation_scope] of a declared range. *)
Definition build_pool (w : world) (d : domain) (name : string) (scope : option (gset string))
    (model_scope : option (gset string)) : pool :=
  Pool d name name model_scope scope
    match scope with Some _ => prime (_adapters_in_router w None) | None => ∅ end.

(** [ObservationScope.includes_endpoint] *)
Definition includes_endpoint (p : pool) (e : string) : bool :=
  match p_scope p with
  | None => true
  | Some s => bool_decide (e ∈ s) ||
              match p_index p !! e with Some provider => bool_decide (provider ∈ s) | None => false end
  end.

(** [serves], which is [owns_model] of a [LocalBackend]. *)
Definition pool_serves (w : world) (p : pool) (model : string) : bool :=
  match p_model_scope p with
  | None => true
  | Some s => bool_decide (fixed_canonical_id (w_router w) model ∈ s)
  end.

(** [dispatch_scope] *)
Definition pool_dispatch_scope (w : world) (p : pool) (model : string) : option (gset string) :=
  match p_domain p with
  | LocalDomain =>
      match p_scope p with
      | None => None
      | Some _ => Some (list_to_set (filter (fun e => includes_endpoint p e)
                    (endpoint_id_for_adapter <$> _adapters_in_router w None)))
      end
  | CloudDomain => if pool_serves w p model then p_scope p else Some ∅
  end.

(** The selection [preferred_endpoint_for_provider] is asked for. *)
Definition provider_query (model : string) : selection :=
  Selection model None ∅ 0 ∅ None None false None None.

(** [resolve_target] *)
Definition pool_resolve_target (w : world) (p : pool) (t : routing_target) (model : string) :
    world * option string :=
  let own e := if includes_endpoint p e then Some e else None in
  match p_domain p, pool_serves w p model with
  | CloudDomain, false => (w, None)
  | _, _ =>
      match truthy (target_endpoint_id t) with
      | Some e => (w, own e)
      | None =>
          match truthy (target_provider t) with
          | None => (w, None)
          | Some provider =>
              let '(st, r) := preferred_endpoint_for_provider (w_config w) (w_router w) (provider_query model) provider
                                (o_loop (w_oracle w)) (o_resolve (w_oracle w) (w_tick w)) in
              (consulted w st, match r with Ok (Some e) => own e | _ => None end)
          end
      end
  end.

(** [binding_for_adapter]: the checks of [EndpointBinding]. *)
Definition binding_for_adapter (a : adapter) (model : string) (pool_id : option string) :
    result dispatch_error endpoint_binding :=
  if decide (endpoint_id_for_adapter a = ""%string) then Raise ValueError
  else if decide (model = ""%string) then Raise ValueError
  else Ok (EndpointBinding (endpoint_id_for_adapter a) model a pool_id None).

(** [TreeBackend.binding_for] *)
Definition pool_binding_for (w : world) (p : pool) (model e : string) :
    result dispatch_error (option endpoint_binding) :=
  if negb (pool_serves w p model) then Raise DispatchMismatchError
  else
    let outside := match pool_dispatch_scope w p model with
                   | Some s => bool_decide (e ∉ pool_scope_endpoints w s (Some model))
                   | None => false
                   end in
    if outside then Ok None
    else match find (fun a => bool_decide (endpoint_id_for_adapter a = e)) (_adapters_in_router w (Some model)) with
         | None => Ok None
         | Some a => try! b <- binding_for_adapter a model (Some (p_pool_id p)) ;; Ok (Some b)
         end.

(** [TreeBackend.check_instruction] *)
Definition pool_check_instruction (w : world) (p : pool) (i : backend_dispatch) (model : string) :
    result dispatch_error unit :=
  if negb (pool_serves w p model) then Raise DispatchMismatchError
  else
    match i with
    | DelegatePool pool_id => if decide (pool_id = p_pool_id p) then Ok tt else Raise DispatchMismatchError
    | ExecuteEndpoint b =>
        if decide (fixed_canonical_id (w_router w) (bd_model_id b) = fixed_canonical_id (w_router w) model) then
          match pool_dispatch_scope w p model with
          | None => Ok tt
          | Some s => if decide (bd_endpoint_id b ∈ pool_scope_endpoints w s (Some model)) then Ok tt
                      else Raise DispatchMismatchError
          end
        else Raise DispatchMismatchError
    end.

(** [TreeBackend._scoped_options]: what the pool hands its router. *)
Definition _scoped_options (w : world) (p : pool) (opts : option request_options) (model : string) :
    result dispatch_error (option request_options) :=
  if negb (pool_serves w p model) then Raise DispatchMismatchError
  else if match opts ≫= opt_bound_endpoint with
          | Some b => bool_decide (fixed_canonical_id (w_router w) (bd_model_id b) <>
                                   fixed_canonical_id (w_router w) model)
          | None => false
          end then Raise DispatchMismatchError
  else
    match pool_dispatch_scope w p model with
    | None => Ok opts
    | Some declared =>
        let allowed := pool_scope_endpoints w declared (Some model) in
        let effective := match opts ≫= opt_endpoint_scope with
                         | None => allowed
                         | Some imposed => pool_scope_endpoints w imposed (Some model) ∩ allowed
                         end in
        if decide (effective = ∅) then Raise DispatchMismatchError
        else Ok (Some ((default no_options opts) <| opt_endpoint_scope := Some effective |>))
    end.

(** [owns_observation] *)
Definition pool_owns_observation (w : world) (p : pool) (obs : observation) : bool :=
  pool_serves w p (obs_model_id obs) && includes_endpoint p (obs_endpoint_id obs).

#[global] Instance pool_backend : RoutingBackend world pool := {
  backend_name := p_name;
  class_name p := match p_domain p with LocalDomain => "LocalBackend" | CloudDomain => "FixedCloudBackend" end%string;
  declared_pool_id p := Some (p_pool_id p);
  declares_local p := match p_domain p with LocalDomain => true | CloudDomain => false end;
  declares_cloud p := match p_domain p with LocalDomain => false | CloudDomain => true end;
  serves := pool_serves;
  resolve_target := pool_resolve_target;
  binding_for := pool_binding_for;
  check_instruction := pool_check_instruction;
  dispatch_scope := pool_dispatch_scope;
  scope_endpoints w _ s := pool_scope_endpoints w s None;
  canonical_id w _ m := fixed_canonical_id (w_router w) m;
  owns_observation := pool_owns_observation
}.

(** ** The policy *)

(** [FixedPolicy]: the ranges are read anew for every decision. *)
Record fixed_policy : Type := FixedPolicy {
  fp_local_backend : string;
  fp_cloud_backend : string;
  fp_local_scope : world -> gset string;
  fp_cloud_scope : world -> option (gset string)
}.

(** [RoutingTarget(provider=...)] and [RoutingTarget(endpoint_id=...)] *)
Definition make_target (provider endpoint : option string) : result policy_error routing_target :=
  match truthy provider, truthy endpoint with
  | Some _, None | None, Some _ => Ok (RoutingTarget provider endpoint)
  | _, _ => Raise PolicyValue
  end.

(** [_in_declared] *)
Definition _in_declared (a : adapter) (declared : gset string) : bool :=
  bool_decide (endpoint_id_for_adapter a ∈ declared) || bool_decide (cfg_provider (config a) ∈ declared).

(** [_is_local] *)
Definition _is_local (a : adapter) (local : gset string) : bool :=
  if decide (local = ∅) then false else _in_declared a local.

(** [eligible_adapters] as the policy asks it. *)
Definition ask_eligible (w : world) (model : string) : world * result policy_error (list (adapter * Q)) :=
  let '(st, r) := eligible_adapters (w_config w) (w_router w) model None None (o_loop (w_oracle w))
                    (o_eligible (w_oracle w) (w_tick w)) in
  (consulted w st, match r with Ok l => Ok l | Raise e => Raise (PolicySelection e) end).

(** The domain that owns an adapter. *)
Definition owner (p : fixed_policy) (a : adapter) (local : gset string) : string :=
  if _is_local a local then fp_local_backend p else fp_cloud_backend p.

(** [_domain_for_endpoint] *)
Definition _domain_for_endpoint (w : world) (p : fixed_policy) (model e : string) (local : gset string) :
    world * result policy_error (option string) :=
  let '(w, r) := ask_eligible w model in
  (w, try! l <- r ;;
      Ok ((fun x => owner p x.1 local) <$> find (fun x => bool_decide (endpoint_id_for_adapter x.1 = e)) l)).

(** [_domain_serves] *)
Definition _domain_serves (w : world) (p : fixed_policy) (name model : string) (local : gset string)
    (cloud : option (gset string)) : world * result policy_error bool :=
  let in_local_domain := bool_decide (name = fp_local_backend p) in
  let declared := if in_local_domain then Some local else cloud in
  if match declared with Some s => bool_decide (s = ∅) | None => false end then (w, Ok false)
  else
    let '(w, r) := ask_eligible w model in
    (w, try! l <- r ;;
        Ok (existsb (fun x => Bool.eqb (_is_local x.1 local) in_local_domain &&
                              match declared with Some s => _in_declared x.1 s | None => true end) l)).

(** [_default_backend] *)
Definition _default_backend (w : world) (p : fixed_policy) (model : string) (local : gset string)
    (cloud : option (gset string)) : world * result policy_error string :=
  let '(w, r) := _domain_serves w p (fp_local_backend p) model local cloud in
  (w, try! b <- r ;; Ok (if b : bool then fp_local_backend p else fp_cloud_backend p)).

(** [_domain_for_pin] *)
Definition _domain_for_pin (w : world) (p : fixed_policy) (model provider : string) (local : gset string)
    (cloud : option (gset string)) : world * result policy_error string :=
  let '(w, r) := ask_eligible w model in
  match r with
  | Raise e => (w, Raise e)
  | Ok l =>
      match find (fun x => bool_decide (provider = endpoint_id_for_adapter x.1) ||
                           bool_decide (provider = cfg_provider (config x.1))) l with
      | Some x => (w, Ok (owner p x.1 local))
      | None => _default_backend w p model local cloud
      end
  end.

(** The draw of [select_backend]. *)
Definition draw_backend (w : world) (p : fixed_policy) (rq : request) (local : gset string)
    (cloud : option (gset string)) : world * result policy_error routing_decision :=
  let modalities := from_option opt_required_modalities ∅ (rq_options rq) in
  let '(st, r) := select_adapter (w_config w) (w_router w)
    (Selection (rq_model rq) None modalities (rq_tokens rq) ∅ None None false None (rq_affinity_key rq))
    (o_select (w_oracle w) (w_tick w)) in
  let w := consulted w st in
  match r with
  | Raise e => (w, Raise (PolicySelection e))
  | Ok None =>
      let '(w, b) := _default_backend w p (rq_model rq) local cloud in
      (w, try! b <- b ;; Ok (RoutingDecision b None))
  | Ok (Some a) =>
      (w, try! t <- make_target None (Some (endpoint_id_for_adapter a)) ;;
          Ok (RoutingDecision (owner p a local) (Some t)))
  end.

(** [select_backend] *)
Definition policy_select_backend (w : world) (p : fixed_policy) (rq : request) :
    world * result policy_error routing_decision :=
  let local := fp_local_scope p w in
  let cloud := fp_cloud_scope p w in
  match truthy (rq_options rq ≫= opt_pin_provider) with
  | Some pin =>
      let '(w, b) := _domain_for_pin w p (rq_model rq) pin local cloud in
      (w, try! b <- b ;; try! t <- make_target (Some pin) None ;; Ok (RoutingDecision b (Some t)))
  | None =>
      match truthy (rq_options rq ≫= opt_preferred_endpoint_id) with
      | None => draw_backend w p rq local cloud
      | Some preferred =>
          let '(w, r) := _domain_for_endpoint w p (rq_model rq) preferred local in
          match r with
          | Raise e => (w, Raise e)
          | Ok (Some b) => (w, try! t <- make_target None (Some preferred) ;; Ok (RoutingDecision b (Some t)))
          | Ok None => draw_backend w p rq local cloud
          end
      end
  end.

(** [fallback_backends] *)
Definition policy_fallback_backends (w : world) (p : fixed_policy) (rq : request) (d : routing_decision) :
    world * result policy_error (list string) :=
  match truthy (rq_options rq ≫= opt_pin_provider) with
  | Some _ => (w, Ok [])
  | None =>
      let other := if decide (decision_backend d = fp_local_backend p) then fp_cloud_backend p
                   else fp_local_backend p in
      let '(w', r) := _domain_serves w p other (rq_model rq) (fp_local_scope p w) (fp_cloud_scope p w) in
      (w', try! b <- r ;; Ok (if b : bool then [other] else []))
  end.

(** One candidate of [fallback_attempts]. *)
Definition is_candidate (p : fixed_policy) (modalities : gset string) (primary : option string) (local : gset string)
    (cloud : option (gset string)) (a : adapter) : bool :=
  adapter_supports_modalities a modalities &&
  negb (bool_decide (Some (endpoint_id_for_adapter a) = primary)) &&
  match (if _is_local a local then Some local else cloud) with
  | Some declared => _in_declared a declared
  | None => true
  end.

(** The attempts made of the candidates; the target of each is checked. *)
Fixpoint make_attempts (p : fixed_policy) (local : gset string) (l : list adapter) :
    result policy_error (list fallback_attempt) :=
  match l with
  | [] => Ok []
  | a :: rest =>
      try! t <- make_target None (Some (endpoint_id_for_adapter a)) ;;
      try! more <- make_attempts p local rest ;;
      Ok (FallbackAttempt (owner p a local) (Some t) :: more)
  end.

(** [fallback_attempts] *)
Definition policy_fallback_attempts (p : fixed_policy) (w : world) (rq : request) (d : routing_decision) :
    world * result policy_error (list fallback_attempt) :=
  let local := fp_local_scope p w in
  let cloud := fp_cloud_scope p w in
  match truthy (rq_options rq ≫= opt_pin_provider) with
  | Some _ => (w, Ok [])
  | None =>
      let modalities := from_option opt_required_modalities ∅ (rq_options rq) in
      let primary := decision_target d ≫= target_endpoint_id in
      let '(w, r) := ask_eligible w (rq_model rq) in
      (w, try! l <- r ;;
          make_attempts p local (filter (is_candidate p modalities primary local cloud) (fst <$> l)))
  end.

#[global] Instance fixed_selection : BackendSelection world fixed_policy := {
  select_backend := policy_select_backend;
  fallback_backends := policy_fallback_backends;
  fallback_attempts p := Some (policy_fallback_attempts p)
}.

(** ** The composition *)

(** Who owns an endpoint: a declared range, or a resolver of the deployment. *)
Inductive ownership : Type :=
| LocalScope (s : gset string)
| LocalOwnership (f : adapter_config -> string -> bool).

(** [_owns_local] *)
Definition _owns_local (o : ownership) (cfg : adapter_config) (e : string) : bool :=
  match o with
  | LocalScope s => bool_decide (e ∈ s) || bool_decide (cfg_provider cfg ∈ s)
  | LocalOwnership f => f cfg e
  end.

(** The adapters registered for a model, and the endpoint ids they declare. *)
Definition registered_adapters (w : world) (model : string) : list adapter :=
  from_option (fun r => fst <$> adapters r) [] (routes (w_router w) !! model).

(** [_LiveDomainScopes._registered] *)
Definition _registered (w : world) (model : string) : gset string :=
  list_to_set (omap (fun a => truthy (cfg_endpoint_id (config a))) (registered_adapters w model)).

(** [local_endpoint_scope] *)
Definition local_endpoint_scope (o : ownership) (model : string) (w : world) : gset string :=
  list_to_set (omap (fun a => e ← truthy (cfg_endpoint_id (config a));
                              if _owns_local o (config a) e then Some e else None) (registered_adapters w model)).

(** [_LiveDomainScopes.cloud] *)
Definition cloud_endpoint_scope (o : ownership) (model : string) (w : world) : gset string :=
  _registered w model ∖ local_endpoint_scope o model w.

(** [HybridFixedRouterFactory.build] once [hybrid_composition] is set, with the
    default cloud backend; [None] keeps the shared router. *)
Definition build (o : ownership) (declared_cloud : option (gset string)) (w : world) (model : string) :
    option (hybrid pool fixed_policy) :=
  let local := local_endpoint_scope o model in
  let cloud w := default (cloud_endpoint_scope o model w) declared_cloud in
  if bool_decide (local w = ∅) then None
  else if bool_decide (cloud w = ∅) then None
  else
    match new_hybrid (FixedPolicy "local" "cloud" local (fun w => Some (cloud w)))
            (build_pool w LocalDomain "local" (Some (local w)) (Some {[model]}))
            (build_pool w CloudDomain "cloud" (Some (cloud w)) (Some {[model]})) 4096 with
    | Ok h => Some h
    | Raise _ => None
    end.

(** [HybridRouter.refresh_route_table]: every pool derives its range anew. *)
Definition refresh_pool (o : ownership) (declared_cloud : option (gset string)) (model : string) (w : world)
    (p : pool) : pool :=
  build_pool w (p_domain p) (p_name p)
    (Some match p_domain p with
          | LocalDomain => local_endpoint_scope o model w
          | CloudDomain => default (cloud_endpoint_scope o model w) declared_cloud
          end) (p_model_scope p).
Definition refresh_route_table (o : ownership) (declared_cloud : option (gset string)) (model : string) (w : world)
    (h : hybrid pool fixed_policy) : hybrid pool fixed_policy :=
  Hybrid (h_policy h) ((fun x => (x.1, refresh_pool o declared_cloud model w x.2)) <$> h_backends h) (h_max h)
    (h_decisions h).

End composition.

(** ** A composed route *)

Section composed.
Context `{Blake2b, Adapters}.

(** Two worlds with the same route table and settings; circuits, affinities, loads
    and clocks may differ. *)
Definition same_table (w w' : world) : Prop :=
  w_config w' = w_config w /\ w_keys w' = w_keys w /\ w_oracle w' = w_oracle w /\
  routes (w_router w') = routes (w_router w).

(** Two registries, or the circuits of two worlds, whose answers are the same. *)
Definition same_answers (r r' : registry) : Prop := forall e id, allows r' e id = allows r e id.
Definition same_gates (w w' : world) : Prop :=
  same_answers (health_registry (w_router w)) (health_registry (w_router w')).

(** The routes open to automatic traffic, in the order of the list: those of positive
    weight whose circuit admits a request, the one at position [k] asked at [at_ k]. *)
Fixpoint open_routes (r : registry) (at_ : nat -> env) (k : nat) (l : list (adapter * Q)) : list (adapter * Q) :=
  match l with
  | [] => []
  | x :: rest =>
      let more := open_routes r at_ (S k) rest in
      if decide (0 < x.2 /\ allows r (at_ k) (endpoint_id_for_adapter x.1) = true)%Q then x :: more else more
  end.

(** The open routes of [l] in turn, asked at the [n]-th consultation: in the order of
    [l], except that the offload route of the model, if one of them is it, is last. *)
Definition in_turn (w : world) (model : string) (route : route_config) (n : nat) (l : list (adapter * Q)) :
    list (adapter * Q) :=
  let open := open_routes (health_registry (w_router w)) (o_eligible (w_oracle w) n) 0 l in
  match _offload_target (w_config w) model route open with
  | None => open
  | Some (off, _) => filter (fun x => x.1 <> off) open ++ filter (fun x => x.1 = off) open
  end.

(** The route of a composed model, as [register_route] leaves it: published, its raw
    weights those of its adapters, shared by its aliases; each adapter declares an
    endpoint id, and no provider of the table is named like one of them. *)
Record composed_route (w : world) (model : string) (route : route_config) : Prop := {
  cr_model : model <> ""%string;
  cr_route : routes (w_router w) !! model = Some route;
  cr_key : model ∈ w_keys w;
  cr_published : published route = true;
  cr_canonical : canonical_model_id route = Some model;
  cr_raw : forall raw, raw_adapters route = Some raw -> (fst ∘ fst) <$> raw = fst <$> adapters route;
  cr_aliases : forall key r, routes (w_router w) !! key = Some r ->
    default key (truthy (canonical_model_id r)) = model -> r = route;
  cr_readable : exists l, iter_effective_routes w = Ok l;
  cr_endpoints : forall a, a ∈ (fst <$> adapters route) ->
    truthy (cfg_endpoint_id (config a)) = Some (endpoint_id_for_adapter a);
  cr_labels : forall a b, a ∈ _adapters_in_router w None -> b ∈ (fst <$> adapters route) ->
    cfg_provider (config a) <> endpoint_id_for_adapter b
}.

Lemma same_table_refl w : same_table w w.
Proof. done. Qed.
Lemma same_table_trans w w' w'' : same_table w w' -> same_table w' w'' -> same_table w w''.
Proof. unfold same_table. intros (? & ? & ? & ?) (? & ? & ? & ?). split_and!; congruence. Qed.
Lemma consulted_same w st : routes st = routes (w_router w) -> same_table w (consulted w st).
Proof. done. Qed.

(** What only reads the table is the same in both worlds. *)
Lemma canonical_same w w' m : same_table w w' -> fixed_canonical_id (w_router w') m = fixed_canonical_id (w_router w) m.
Proof. intros (_ & _ & _ & E). unfold fixed_canonical_id. by rewrite E. Qed.

Lemma effective_routes_same c loop st st' seen keys :
  routes st' = routes st -> effective_routes c loop st' seen keys = effective_routes c loop st seen keys.
Proof.
  intros E. revert seen. induction keys as [|key keys IH]; intros seen; simpl; [done|]. rewrite E.
  destruct (routes st !! key) as [r|]; [|apply IH]. by rewrite !IH.
Qed.

Lemma iter_same w w' : same_table w w' -> iter_effective_routes w' = iter_effective_routes w.
Proof.
  intros (E1 & E2 & E3 & E4). unfold iter_effective_routes. rewrite E1, E2, E3. by apply effective_routes_same.
Qed.

Lemma adapters_same w w' m : same_table w w' -> _adapters_in_router w' m = _adapters_in_router w m.
Proof.
  intros Hs. unfold _adapters_in_router. rewrite (iter_same _ _ Hs). destruct m as [m|]; [|done].
  by rewrite (canonical_same _ _ m Hs).
Qed.

Lemma registered_same w w' m : same_table w w' -> registered_adapters w' m = registered_adapters w m.
Proof. intros (_ & _ & _ & E). unfold registered_adapters. by rewrite E. Qed.

Lemma composed_same w w' model route : same_table w w' -> composed_route w model route -> composed_route w' model route.
Proof.
  intros Hs C. pose proof Hs as (E1 & E2 & E3 & E4). destruct C. constructor; rewrite ?E2, ?E4; try done.
  - by rewrite (iter_same _ _ Hs).
  - by rewrite (adapters_same _ _ _ Hs).
Qed.

(** Effective adapters are the registered ones, with other weights. *)
Lemma disabled_fst c l m : fst <$> _apply_disabled_providers c l m = fst <$> l.
Proof.
  unfold _apply_disabled_providers. rewrite <- list_fmap_compose. apply list_fmap_ext. intros i [a q] _. simpl.
  by destruct (_ || _).
Qed.

Lemma effective_fst c loop key route l :
  (forall raw, raw_adapters route = Some raw -> (fst ∘ fst) <$> raw = fst <$> adapters route) ->
  _get_effective_adapters c loop key route = Ok l -> fst <$> l = fst <$> adapters route.
Proof.
  intros Hraw. unfold _get_effective_adapters.
  assert (forall (ov : gmap string Q) raw m, raw_adapters route = Some raw ->
    fst <$> _apply_disabled_providers c
      ((fun x : adapter * Q * string => (x.1.1, default x.1.2 (ov !! x.2))) <$> raw) m = fst <$> adapters route)
    as Ho.
  { intros ov raw m Hr. rewrite disabled_fst, <- list_fmap_compose, <- (Hraw raw Hr). by apply list_fmap_ext. }
  destruct (weight_overrides c) as [|f|f|f], (raw_adapters route) as [[|x raw]|] eqn:Er; try destruct loop;
    intros [= <-]; first [apply disabled_fst|by apply (Ho (f _) (x :: raw))].
Qed.

(** The weights are those of the model, whatever name the route is read under. *)
Lemma effective_key w model route c loop key : composed_route w model route ->
  _get_effective_adapters c loop model route = _get_effective_adapters c loop key route.
Proof.
  intros C. unfold _get_effective_adapters. rewrite (cr_canonical _ _ _ C). simpl.
  by rewrite decide_False by apply C.
Qed.

(** The table lists the model's route once, under whichever name comes first. *)
Lemma effective_routes_model w model route c loop keys : composed_route w model route ->
  forall seen rs, effective_routes c loop (w_router w) seen keys = Ok rs ->
  (forall r, r ∈ rs -> er_canonical_model_id r = model ->
     fst <$> er_adapters r = fst <$> adapters route /\ _get_effective_adapters c loop model route = Ok (er_adapters r)) /\
  (model ∉ seen -> model ∈ keys -> exists r, r ∈ rs /\ er_canonical_model_id r = model).
Proof.
  intros C. induction keys as [|key keys IH]; intros seen rs; simpl; [intros [= <-]; set_solver|].
  destruct (routes (w_router w) !! key) as [r|] eqn:Er.
  2: { intros [H1 H2]%IH. split; [done|]. intros Hs Hk. apply H2; [done|].
       apply elem_of_cons in Hk as [<-|?]; [|done]. by rewrite (cr_route _ _ _ C) in Er. }
  set (can := default key (truthy (canonical_model_id r))).
  assert (key = model -> can = model) as Hcan.
  { intros ->. unfold can. rewrite (cr_route _ _ _ C) in Er. simplify_eq. rewrite (cr_canonical _ _ _ C). simpl.
    by rewrite decide_False by apply C. }
  destruct (negb (published r) || bool_decide (can ∈ seen)) eqn:Eskip.
  { intros [H1 H2]%IH. split; [done|]. intros Hs Hk. apply H2; [done|].
    apply elem_of_cons in Hk as [<-|?]; [|done]. exfalso. rewrite (cr_route _ _ _ C) in Er. simplify_eq.
    rewrite (cr_published _ _ _ C), Hcan in Eskip by done. simpl in Eskip. by apply bool_decide_eq_true in Eskip. }
  destruct (_get_effective_adapters c loop key r) as [l|e] eqn:El; simpl; [|done].
  destruct (effective_routes c loop (w_router w) _ keys) as [more|e] eqn:Em; simpl; [|done]. intros [= <-].
  apply IH in Em as [H1 H2]. split.
  - intros x [->|Hx]%elem_of_cons; simpl; [|by apply H1]. intros Hm.
    pose proof (cr_aliases _ _ _ C key r Er Hm) as ->. split; [eapply effective_fst; [apply C|done]|].
    by rewrite (effective_key w model route c loop key).
  - intros Hs Hk. destruct (decide (can = model)) as [Hm|Hm].
    + eexists. split; [by left|done].
    + destruct H2 as (x & Hx & Hxm); [set_solver| |exists x; set_solver].
      apply elem_of_cons in Hk as [Hk|?]; [|done]. by destruct Hm; apply Hcan.
Qed.

Lemma adapters_of_model w model route a : composed_route w model route ->
  (a ∈ (fst <$> adapters route) -> a ∈ _adapters_in_router w (Some model) /\ a ∈ _adapters_in_router w None) /\
  (a ∈ _adapters_in_router w (Some model) -> a ∈ (fst <$> adapters route)).
Proof.
  intros C. destruct (cr_readable _ _ _ C) as [rs Hrs]. unfold _adapters_in_router. rewrite Hrs.
  unfold iter_effective_routes in Hrs. apply (effective_routes_model w model route _ _ _ C) in Hrs as [H1 H2].
  assert (fixed_canonical_id (w_router w) model = model) as Hcan.
  { unfold fixed_canonical_id. rewrite (cr_route _ _ _ C), (cr_canonical _ _ _ C). simpl.
    by rewrite decide_False by apply C. }
  rewrite Hcan. destruct H2 as (r & Hr & Hm); [set_solver|apply C|]. split.
  - intros Ha. rewrite <- (proj1 (H1 r Hr Hm)) in Ha. split; apply list_elem_of_bind; exists r; split; try done.
    by apply list_elem_of_filter.
  - intros (x & Ha & Hx)%list_elem_of_bind. apply list_elem_of_filter in Hx as [Hx Hin]. by rewrite <- (proj1 (H1 x Hin Hx)).
Qed.

Lemma effective_readable w model route : composed_route w model route ->
  exists eff, _get_effective_adapters (w_config w) (o_loop (w_oracle w)) model route = Ok eff /\
    fst <$> eff = fst <$> adapters route.
Proof.
  intros C. destruct (cr_readable _ _ _ C) as [rs Hrs]. unfold iter_effective_routes in Hrs.
  apply (effective_routes_model w model route _ _ _ C) in Hrs as [H1 H2].
  destruct H2 as (r & Hr & Hm); [set_solver|apply C|]. destruct (H1 r Hr Hm). eauto.
Qed.

(** ** The two domains of a composed model *)

Section domains.
Context (o : ownership) (model : string).

Definition domain_name (d : domain) : string :=
  match d with LocalDomain => "local" | CloudDomain => "cloud" end.
Definition domain_scope (d : domain) (w : world) : gset string :=
  match d with LocalDomain => local_endpoint_scope o model w | CloudDomain => cloud_endpoint_scope o model w end.
Definition domain_pool (d : domain) (w : world) : pool :=
  build_pool w d (domain_name d) (Some (domain_scope d w)) (Some {[model]}).

(** The domain of an endpoint of the model. *)
Definition home (w : world) (e : string) : domain :=
  if decide (e ∈ local_endpoint_scope o model w) then LocalDomain else CloudDomain.

Definition live_policy : fixed_policy :=
  FixedPolicy "local" "cloud" (local_endpoint_scope o model) (fun w => Some (cloud_endpoint_scope o model w)).

(** What [build] composes. *)
Lemma build_shape w h : build o None w model = Some h ->
  h_policy h = live_policy /\
  h_backends h = [("local"%string, domain_pool LocalDomain w); ("cloud"%string, domain_pool CloudDomain w)] /\
  h_decisions h = [] /\ (1 <= h_max h)%nat.
Proof.
  unfold build. case_bool_decide; [done|]. case_bool_decide; [done|]. simpl. intros [= <-].
  split_and!; try done. simpl. lia.
Qed.

Lemma scopes_same w w' d : same_table w w' -> domain_scope d w' = domain_scope d w.
Proof.
  intros Hs. destruct d; simpl; unfold cloud_endpoint_scope, local_endpoint_scope, _registered;
    by rewrite (registered_same w w' model Hs).
Qed.

Lemma domain_pool_same w w' d : same_table w w' -> domain_pool d w' = domain_pool d w.
Proof.
  intros Hs. unfold domain_pool, build_pool. by rewrite (scopes_same _ _ _ Hs), (adapters_same _ _ _ Hs).
Qed.

Context (w : world) (route : route_config) (C : composed_route w model route).

Lemma composed_canonical : fixed_canonical_id (w_router w) model = model.
Proof.
  unfold fixed_canonical_id. rewrite (cr_route _ _ _ C), (cr_canonical _ _ _ C). simpl.
  by rewrite decide_False by apply C.
Qed.

Lemma registered_elem e : e ∈ _registered w model <-> exists a, a ∈ (fst <$> adapters route) /\ endpoint_id_for_adapter a = e.
Proof.
  unfold _registered, registered_adapters. rewrite (cr_route _ _ _ C). simpl.
  rewrite elem_of_list_to_set, list_elem_of_omap. split.
  - intros (a & Ha & He). exists a. rewrite (cr_endpoints _ _ _ C a Ha) in He. by simplify_eq.
  - intros (a & Ha & <-). exists a. split; [done|]. by apply C.
Qed.

Lemma local_registered : local_endpoint_scope o model w ⊆ _registered w model.
Proof.
  intros e. unfold local_endpoint_scope, _registered. rewrite !elem_of_list_to_set, !list_elem_of_omap.
  intros (a & Ha & He). exists a. split; [done|]. destruct (truthy _); [|done]. simpl in He.
  by destruct (_owns_local _ _ _); simplify_eq.
Qed.

Lemma scope_registered d : domain_scope d w ⊆ _registered w model.
Proof. destruct d; simpl; [apply local_registered|]. unfold cloud_endpoint_scope. set_solver. Qed.

(** Every endpoint of the route has exactly one domain. *)
Lemma home_spec e d : e ∈ _registered w model -> e ∈ domain_scope d w <-> d = home w e.
Proof.
  intros He. unfold home. destruct d; simpl; unfold cloud_endpoint_scope; destruct (decide _); set_solver.
Qed.

(** No provider label of the table is in a domain's range. *)
Lemma label_outside a d : a ∈ _adapters_in_router w None -> cfg_provider (config a) ∉ domain_scope d w.
Proof.
  intros Ha Hin%scope_registered. apply registered_elem in Hin as (b & Hb & Eb).
  by apply (cr_labels _ _ _ C a b Ha Hb).
Qed.

Lemma prime_lookup l e pr : prime l !! e = Some pr ->
  exists a, a ∈ l /\ endpoint_id_for_adapter a = e /\ cfg_provider (config a) = pr.
Proof.
  unfold prime. assert (forall m : gmap string string, fold_left (fun m a =>
    <[endpoint_id_for_adapter a := cfg_provider (config a)]> m) l m !! e = Some pr ->
    (exists a, a ∈ l /\ endpoint_id_for_adapter a = e /\ cfg_provider (config a) = pr) \/ m !! e = Some pr) as Hl.
  { induction l as [|a l IH]; intros m; simpl; [by right|]. intros [(b & ? & ?)|Hm]%IH; [left; exists b; set_solver|].
    destruct (decide (endpoint_id_for_adapter a = e)) as [<-|Hne].
    - rewrite lookup_insert_eq in Hm. simplify_eq. left. exists a. set_solver.
    - rewrite lookup_insert_ne in Hm by done. by right. }
  intros [?|?]%Hl; [done|]. set_solver.
Qed.

(** A pool claims exactly the endpoints of its range. *)
Lemma pool_includes d e : includes_endpoint (domain_pool d w) e = bool_decide (e ∈ domain_scope d w).
Proof.
  unfold includes_endpoint. simpl. case_bool_decide as Hin; [done|]. simpl.
  destruct (prime _ !! e) as [pr|] eqn:Ep; [|done]. apply prime_lookup in Ep as (a & Ha & _ & <-).
  apply bool_decide_eq_false. by apply label_outside.
Qed.

Lemma pool_serves_model d : pool_serves w (domain_pool d w) model = true.
Proof. unfold pool_serves. simpl. rewrite composed_canonical. apply bool_decide_eq_true. set_solver. Qed.

(** Normalizing a domain's range changes nothing. *)
Lemma scope_endpoints_domain d m : m = None \/ m = Some model ->
  pool_scope_endpoints w (domain_scope d w) m = domain_scope d w.
Proof.
  intros Hm. apply set_eq. intros e. unfold pool_scope_endpoints. rewrite elem_of_list_to_set, list_elem_of_fmap.
  assert (forall a, a ∈ _adapters_in_router w m -> a ∈ _adapters_in_router w None) as Hsub.
  { destruct Hm as [->| ->]; [done|]. intros a Ha%(adapters_of_model w model route a C). by apply (adapters_of_model w model route a C). }
  split.
  - intros (a & -> & Ha). apply list_elem_of_filter in Ha as [Hs Ha]. simpl in Hs.
    pose proof (label_outside a d (Hsub a Ha)) as Hl. rewrite (bool_decide_eq_false_2 _ Hl), orb_false_r in Hs.
    by apply bool_decide_unpack in Hs.
  - intros He. destruct (proj1 (registered_elem e) (scope_registered d e He)) as (a & Ha & <-).
    exists a. split; [done|]. apply list_elem_of_filter. simpl. rewrite (bool_decide_eq_true_2 _ He). split; [done|].
    destruct (adapters_of_model w model route a C) as [Hin _]. by destruct Hm as [->| ->]; apply Hin.
Qed.

Lemma pool_scope d : pool_dispatch_scope w (domain_pool d w) model = Some (domain_scope d w).
Proof.
  destruct d; unfold pool_dispatch_scope; [|by rewrite pool_serves_model].
  change (p_domain (domain_pool LocalDomain w)) with LocalDomain. cbv iota.
  change (p_scope (domain_pool LocalDomain w)) with (Some (domain_scope LocalDomain w)). cbv iota. f_equal.
  apply set_eq. intros e. rewrite elem_of_list_to_set, list_elem_of_filter, (pool_includes LocalDomain e).
  split; [intros [He _]; by apply bool_decide_unpack in He|]. intros He. split; [by apply bool_decide_pack|].
  destruct (proj1 (registered_elem e) (scope_registered LocalDomain e He)) as (a & Ha & <-).
  apply list_elem_of_fmap_2. by apply (adapters_of_model w model route a C).
Qed.

(** A pool resolves an endpoint of its range to itself, and none other. *)
Lemma pool_resolves d t e : truthy (target_endpoint_id t) = Some e ->
  pool_resolve_target w (domain_pool d w) t model = (w, if decide (e ∈ domain_scope d w) then Some e else None).
Proof.
  intros Ht. unfold pool_resolve_target. rewrite pool_serves_model, Ht, pool_includes.
  assert ((if bool_decide (e ∈ domain_scope d w) then Some e else None) =
    (if decide (e ∈ domain_scope d w) then Some e else None)) as -> by (by destruct (decide _); case_bool_decide).
  by destruct d.
Qed.

(** And binds it to an adapter of the route. *)
Lemma pool_binds d e : e ∈ domain_scope d w ->
  exists b, pool_binding_for w (domain_pool d w) model e = Ok (Some b) /\
    bd_endpoint_id b = e /\ endpoint_id_for_adapter (bd_adapter b) = e /\ bd_adapter b ∈ (fst <$> adapters route) /\
    bd_model_id b = model /\ bd_pool_id b = Some (domain_name d).
Proof.
  intros He. unfold pool_binding_for. rewrite pool_serves_model, pool_scope, scope_endpoints_domain by auto. simpl.
  rewrite bool_decide_eq_false_2 by (intros Hn; by apply Hn).
  destruct (proj1 (registered_elem e) (scope_registered d e He)) as (a & Ha & Ea).
  destruct (find _ _) as [b|] eqn:Ef.
  2: { eapply find_none in Ef; [|apply list_elem_of_In, (adapters_of_model w model route a C), Ha].
       by rewrite bool_decide_eq_true_2 in Ef. }
  apply find_some in Ef as [Hb%list_elem_of_In Eb%bool_decide_eq_true].
  assert (b ∈ (fst <$> adapters route)) as Hb' by (by apply (adapters_of_model w model route b C)).
  unfold binding_for_adapter. rewrite decide_False.
  2: { pose proof (cr_endpoints _ _ _ C b Hb') as Ht. destruct (cfg_endpoint_id (config b)) as [x|]; [|done].
       simpl in Ht. case_decide; congruence. }
  rewrite decide_False by apply C. simpl. eexists. split; [done|]. simpl. by rewrite Eb.
Qed.

Lemma pool_accepts d i :
  match i with
  | ExecuteEndpoint b => bd_model_id b = model /\ bd_endpoint_id b ∈ domain_scope d w
  | DelegatePool p => p = domain_name d
  end -> pool_check_instruction w (domain_pool d w) i model = Ok tt.
Proof.
  unfold pool_check_instruction. rewrite pool_serves_model. simpl. destruct i as [b|p].
  - intros [-> He]. rewrite decide_True by done. rewrite pool_scope, scope_endpoints_domain by auto.
    by rewrite decide_True.
  - intros ->. by rewrite decide_True.
Qed.

(** The range handed to an attempt never leaves its domain. *)
Lemma attempt_scope_inside d imposed :
  exists s, _attempt_scope w (domain_pool d w) model imposed = Some s /\ s ⊆ domain_scope d w /\
    (forall i, imposed = Some i -> s ⊆ pool_scope_endpoints w i None).
Proof.
  unfold _attempt_scope. cbn [dispatch_scope scope_endpoints pool_backend]. rewrite pool_scope.
  destruct imposed as [i|]; eexists; (split; [done|]).
  - rewrite (scope_endpoints_domain d None) by auto. split; [set_solver|]. intros i' [= <-]. set_solver.
  - split; [done|]. by intros i.
Qed.

(** ** What the policy says of a composed model *)

Lemma policy_local a : a ∈ (fst <$> adapters route) ->
  _is_local a (local_endpoint_scope o model w) = bool_decide (home w (endpoint_id_for_adapter a) = LocalDomain).
Proof.
  intros Ha. unfold _is_local, _in_declared, home.
  destruct (adapters_of_model w model route a C) as [Hin _].
  pose proof (label_outside a LocalDomain (proj2 (Hin Ha))) as Hl. simpl in Hl.
  rewrite (bool_decide_eq_false_2 _ Hl), orb_false_r.
  destruct (decide (local_endpoint_scope o model w = ∅)) as [E|E], (decide (_ ∈ local_endpoint_scope o model w)) as [He|He].
  - rewrite E in He. set_solver.
  - by rewrite bool_decide_eq_false_2.
  - by rewrite !bool_decide_eq_true_2.
  - by rewrite !bool_decide_eq_false_2.
Qed.

Lemma policy_owner a : a ∈ (fst <$> adapters route) ->
  owner live_policy a (local_endpoint_scope o model w) = domain_name (home w (endpoint_id_for_adapter a)).
Proof.
  intros Ha. unfold owner. rewrite (policy_local a Ha). case_bool_decide as Hh; [by rewrite Hh|].
  by destruct (home w (endpoint_id_for_adapter a)).
Qed.

Lemma route_registered a : a ∈ (fst <$> adapters route) -> endpoint_id_for_adapter a ∈ _registered w model.
Proof. intros Ha. apply registered_elem. eauto. Qed.

(** Every adapter of the route that takes the request's media is a candidate. *)
Lemma policy_candidate a modalities primary : a ∈ (fst <$> adapters route) ->
  is_candidate live_policy modalities primary (local_endpoint_scope o model w) (Some (cloud_endpoint_scope o model w)) a =
    adapter_supports_modalities a modalities && negb (bool_decide (Some (endpoint_id_for_adapter a) = primary)).
Proof.
  intros Ha. unfold is_candidate. rewrite (policy_local a Ha).
  pose proof (proj2 (home_spec (endpoint_id_for_adapter a) _ (route_registered a Ha)) eq_refl) as Hh.
  set (hm := home w (endpoint_id_for_adapter a)) in *.
  enough (match (if bool_decide (hm = LocalDomain) then Some (local_endpoint_scope o model w)
                 else Some (cloud_endpoint_scope o model w)) with
          | Some declared => _in_declared a declared | None => true end = true) as -> by (by rewrite andb_true_r).
  unfold _in_declared. destruct hm; simpl in Hh; case_bool_decide; try done; by rewrite bool_decide_eq_true_2.
Qed.

Lemma open_routes_same r r' at_ l : same_answers r r' -> forall k, open_routes r' at_ k l = open_routes r at_ k l.
Proof. intros Hr. induction l as [|x l IH]; intros k; simpl; [done|]. by rewrite IH, Hr. Qed.

Lemma open_routes_sub r at_ l : forall k, open_routes r at_ k l `sublist_of` l.
Proof. induction l as [|x l IH]; intros k; simpl; [done|]. case_decide; by constructor. Qed.

Lemma eligible_from_open at_ l : forall r k,
  exists r', eligible_from r at_ None k l = (r', open_routes r at_ k l) /\ same_answers r r'.
Proof.
  induction l as [|[a q] l IH]; intros r k; cbn [eligible_from open_routes]; [by exists r|].
  rewrite orb_false_r. cbn [fst snd]. case_bool_decide as Hq; cbn [negb].
  2: { rewrite decide_False by tauto. apply IH. }
  pose proof (allows_stable r (at_ k) (endpoint_id_for_adapter a)) as Hst.
  assert (allows r (at_ k) (endpoint_id_for_adapter a) = (registry_allow_request r (at_ k) (endpoint_id_for_adapter a)).2)
    as Hok by done.
  destruct (registry_allow_request r (at_ k) (endpoint_id_for_adapter a)) as [r1 ok]. cbn [fst snd] in *.
  destruct (IH r1 (S k)) as (r' & -> & Hr). exists r'. rewrite (open_routes_same r r1) by done. split.
  - destruct ok; [by rewrite decide_True|by rewrite decide_False by (intros [_ ?]; congruence)].
  - intros e id. by rewrite Hr, Hst.
Qed.

(** Asking for the eligible adapters: the open routes in turn, and no circuit answers
    differently afterwards. *)
Lemma ask_eligible_order : exists eff w',
  _get_effective_adapters (w_config w) (o_loop (w_oracle w)) model route = Ok eff /\
  fst <$> eff = fst <$> adapters route /\ same_table w w' /\ same_gates w w' /\
  ask_eligible w model = (w', Ok (in_turn w model route (w_tick w) eff)).
Proof.
  destruct (effective_readable w model route C) as (eff & Ee & Ef). exists eff.
  unfold ask_eligible, eligible_adapters, usable_route, in_turn. rewrite (cr_route _ _ _ C). cbn [mbind option_bind].
  rewrite (cr_published _ _ _ C). cbn [andb]. case_bool_decide as Hne; cbn [negb].
  - rewrite Hne in Ef. destruct eff; [|done]. simpl.
    assert (_offload_target (w_config w) model route [] = None) as -> by (unfold _offload_target; by repeat case_match).
    exists (consulted w (w_router w)). split_and!; [done|by rewrite Hne|done..].
  - rewrite Ee. destruct (eligible_from_open (o_eligible (w_oracle w) (w_tick w)) eff (health_registry (w_router w)) 0)
      as (r' & -> & Hr).
    exists (consulted w ((w_router w) <| health_registry := r' |>)). split_and!; [done..|].
    destruct (_offload_target _ _ _ _) as [[off pol]|]; [by rewrite andb_false_r|done].
Qed.

Lemma ask_eligible_spec w' r : ask_eligible w model = (w', r) ->
  same_table w w' /\ forall l, r = Ok l -> forall x, x ∈ l -> x.1 ∈ (fst <$> adapters route).
Proof.
  destruct ask_eligible_order as (eff & w1 & _ & Ef & Hs & _ & ->). intros [= <- <-]. split; [done|].
  intros l [= <-] x Hx. rewrite <- Ef. apply list_elem_of_fmap_2.
  eapply elem_of_sublist; [|apply (open_routes_sub (health_registry (w_router w)) (o_eligible (w_oracle w) (w_tick w)) eff 0)].
  unfold in_turn in Hx. destruct (_offload_target _ _ _ _) as [[off pol]|]; [|done].
  apply elem_of_app in Hx as [Hx|Hx]; by apply list_elem_of_filter in Hx as [_ ?].
Qed.

Lemma endpoint_nonempty a : a ∈ (fst <$> adapters route) -> endpoint_id_for_adapter a <> ""%string.
Proof.
  intros Ha E. pose proof (cr_endpoints _ _ _ C a Ha) as Ht. rewrite E in Ht.
  destruct (cfg_endpoint_id (config a)) as [x|]; simpl in Ht; [|done]. case_decide; congruence.
Qed.

Lemma make_attempts_ok l : (forall a, a ∈ l -> a ∈ (fst <$> adapters route)) ->
  make_attempts live_policy (local_endpoint_scope o model w) l =
    Ok ((fun a => FallbackAttempt (domain_name (home w (endpoint_id_for_adapter a)))
           (Some (RoutingTarget None (Some (endpoint_id_for_adapter a))))) <$> l).
Proof.
  induction l as [|a l IH]; intros Hl; [done|]. cbn [make_attempts].
  assert (a ∈ (fst <$> adapters route)) as Ha by set_solver.
  unfold make_target. simpl truthy. rewrite decide_False by (by apply endpoint_nonempty). simpl.
  rewrite IH by set_solver. simpl. by rewrite (policy_owner a Ha).
Qed.

(** ** The plan of a composed model *)

(** A candidate of the route for a request: fit for its media, and not the decision's
    own endpoint. *)
Definition next_candidate (rq : request) (target : option string) (a : adapter) : bool :=
  adapter_supports_modalities a (from_option opt_required_modalities ∅ (rq_options rq)) &&
  negb (bool_decide (Some (endpoint_id_for_adapter a) = target)).

(** The attempt planned for a candidate: its own endpoint, in its own domain. *)
Definition planned_for (a : adapter) : planned :=
  Planned (domain_name (home w (endpoint_id_for_adapter a))) (Some (endpoint_id_for_adapter a)) true false.

Definition unpinned (rq : request) : Prop := truthy (rq_options rq ≫= opt_pin_provider) = None.

Lemma fallback_attempts_composed rq d : unpinned rq -> rq_model rq = model ->
  exists w' re, ask_eligible w model = (w', re) /\ same_table w w' /\
    policy_fallback_attempts live_policy w rq d =
      (w', match re with
           | Raise e => Raise e
           | Ok l => Ok ((fun a => FallbackAttempt (domain_name (home w (endpoint_id_for_adapter a)))
                                     (Some (RoutingTarget None (Some (endpoint_id_for_adapter a))))) <$>
                         filter (next_candidate rq (decision_target d ≫= target_endpoint_id)) (fst <$> l))
           end) /\
    (forall l, re = Ok l -> forall a, a ∈ (fst <$> l) -> a ∈ (fst <$> adapters route)).
Proof.
  intros Hpin Hm. destruct (ask_eligible w model) as [w' re] eqn:Ea.
  destruct (ask_eligible_spec w' re Ea) as [Hs Hl]. exists w', re. split; [done|]. split; [done|].
  assert (forall l, re = Ok l -> forall a, a ∈ (fst <$> l) -> a ∈ (fst <$> adapters route)) as Hl'
    by (intros l E a (x & -> & Hx)%list_elem_of_fmap; by apply (Hl l)).
  split; [|done]. unfold policy_fallback_attempts. rewrite Hpin, Hm, Ea. destruct re as [l|e]; [|done]. simpl.
  rewrite make_attempts_ok by (intros a Ha; apply list_elem_of_filter in Ha as [_ Ha]; by apply (Hl' l)).
  do 3 f_equal. apply filter_ext_elem. intros a Ha.
  rewrite policy_candidate by (by apply (Hl' l)). done.
Qed.

Context (h : hybrid pool fixed_policy).
Context (Hpolicy : h_policy h = live_policy).
Context (Hpools : h_backends h =
  [("local"%string, domain_pool LocalDomain w); ("cloud"%string, domain_pool CloudDomain w)]).

Lemma find_pool d : find_item (domain_name d) (h_backends h) = Some (domain_pool d w).
Proof. rewrite Hpools. by destruct d. Qed.

Lemma plan_loop_composed primary l :
  (forall a, a ∈ l -> a ∈ (fst <$> adapters route)) -> (forall a, a ∈ l -> Some (endpoint_id_for_adapter a) <> primary) ->
  plan_loop w h model primary
    ((fun a => (domain_name (home w (endpoint_id_for_adapter a)),
                Some (RoutingTarget None (Some (endpoint_id_for_adapter a))))) <$> l) = (w, planned_for <$> l).
Proof.
  induction l as [|a l IH]; intros Hl Hp; [done|]. rewrite fmap_cons. cbn [plan_loop]. rewrite find_pool.
  cbn [serves pool_backend]. rewrite pool_serves_model. cbn [negb target_endpoint_id].
  rewrite bool_decide_eq_false_2 by (apply Hp; set_solver). cbn [_resolved_endpoint resolve_target pool_backend].
  assert (a ∈ (fst <$> adapters route)) as Ha by set_solver.
  rewrite (pool_resolves _ _ (endpoint_id_for_adapter a)).
  2: { simpl. rewrite decide_False; [done|by apply endpoint_nonempty]. }
  rewrite decide_True by (by apply home_spec; [apply route_registered|]).
  rewrite IH by set_solver. done.
Qed.

(** The endpoint a decision's target resolves to. *)
Lemma resolved_composed d t :
  (forall x, t = Some x -> exists e, x = RoutingTarget None (Some e) /\ e <> ""%string) ->
  _resolved_endpoint w (domain_pool d w) t model =
    (w, e ← t ≫= target_endpoint_id; if decide (e ∈ domain_scope d w) then Some e else None).
Proof.
  intros Ht. destruct t as [x|]; [|done]. destruct (Ht x eq_refl) as (e & -> & He). simpl.
  rewrite (pool_resolves d _ e); [done|]. simpl. by rewrite decide_False.
Qed.

End domains.
End composed.

(** ** Decisions and plans of a composed model *)

Section composed_plan.
Context `{Blake2b, Adapters} (o : ownership) (model : string).

(** What a decision of the policy looks like: a domain, and an endpoint of it. *)
Definition decision_ok (w : world) (d : routing_decision) : Prop :=
  exists dm, decision_backend d = domain_name dm /\
    forall x, decision_target d = Some x ->
      exists e, x = RoutingTarget None (Some e) /\ e <> ""%string /\ e ∈ domain_scope o model dm w.

(** [random.random()] is below one. *)
Definition draws_below_one (w : world) : Prop :=
  forall n, (draw1 (o_select (w_oracle w) n) <= 1)%Q /\ (draw2 (o_select (w_oracle w) n) <= 1)%Q.

Lemma live_scopes_same w w' : same_table w w' ->
  local_endpoint_scope o model w' = local_endpoint_scope o model w /\
  cloud_endpoint_scope o model w' = cloud_endpoint_scope o model w.
Proof. intros Hs. split; [apply (scopes_same o model _ _ LocalDomain Hs)|apply (scopes_same o model _ _ CloudDomain Hs)]. Qed.

Lemma default_backend_ok w route w' b : composed_route w model route ->
  _default_backend w (live_policy o model) model (local_endpoint_scope o model w) (Some (cloud_endpoint_scope o model w)) =
    (w', Ok b) -> same_table w w' /\ exists dm, b = domain_name dm.
Proof.
  intros C. unfold _default_backend, _domain_serves. simpl.
  assert (forall x : bool, exists dm, (if x then "local" else "cloud")%string = domain_name dm) as Hname
    by (intros []; [by exists LocalDomain|by exists CloudDomain]).
  destruct (bool_decide (local_endpoint_scope o model w = ∅)).
  - intros [= <- <-]. split; [done|apply (Hname false)].
  - destruct (ask_eligible w model) as [w1 re] eqn:Ea.
    destruct (ask_eligible_spec model w route C w1 re Ea) as [Hs _]. destruct re as [l|e]; [|done]. simpl.
    intros [= <- <-]. split; [done|apply Hname].
Qed.

Lemma home_decision w route a : composed_route w model route -> a ∈ (fst <$> adapters route) ->
  decision_ok w (RoutingDecision (owner (live_policy o model) a (local_endpoint_scope o model w))
                   (Some (RoutingTarget None (Some (endpoint_id_for_adapter a))))).
Proof.
  intros C Ha. exists (home o model w (endpoint_id_for_adapter a)). split; [by apply (policy_owner o model w route C)|].
  intros x [= <-]. eexists. split; [done|]. split; [by apply (endpoint_nonempty model w route C)|].
  by apply (proj2 (home_spec o model w route C _ _ (route_registered model w route C a Ha))).
Qed.

Lemma draw_ok w route rq w' d : composed_route w model route -> rq_model rq = model -> draws_below_one w ->
  draw_backend w (live_policy o model) rq (local_endpoint_scope o model w) (Some (cloud_endpoint_scope o model w)) = (w', Ok d) ->
  same_table w w' /\ decision_ok w d.
Proof.
  intros C Hm Hd. unfold draw_backend. rewrite Hm.
  set (q := Selection _ _ _ _ _ _ _ _ _ _). set (t := o_select (w_oracle w) (w_tick w)).
  pose proof (select_spec (w_config w) (w_router w)
    (q <| pin_provider := None |> <| exclude := ∅ |> <| require_target := false |> <| fingerprint := None |>) t
    eq_refl (proj1 (Hd _)) (proj2 (Hd _))) as Hs.
  pose proof (select_routes (w_config w) (w_router w)
    (q <| pin_provider := None |> <| exclude := ∅ |> <| require_target := false |> <| fingerprint := None |>) t) as Hr.
  unfold select_adapter. destruct (_select_adapter _ _ _ t) as [st [[a|]|e]]; [| |done]; simpl in Hs, Hr.
  - destruct Hs as (rt & k & q' & Hu & (rt' & l & Hu' & Hl & Hk & _) & _).
    assert (a ∈ (fst <$> adapters route)) as Ha.
    { simpl in Hu', Hl. unfold usable_route in Hu'. rewrite (cr_route _ _ _ C) in Hu'. simpl in Hu'.
      destruct (_ && _); simplify_eq. unfold _dispatch_range in Hl.
      destruct (_get_effective_adapters _ _ _ _) as [eff|] eqn:Ee; [|done]. simplify_eq.
      rewrite <- (effective_fst _ _ _ _ _ (cr_raw _ _ _ C) Ee).
      apply list_elem_of_lookup_2, list_elem_of_filter in Hk as [_ Hk]. by apply (list_elem_of_fmap_2 fst) in Hk. }
    unfold make_target. simpl truthy. rewrite decide_False by (by apply (endpoint_nonempty model w route C)).
    simpl. intros [= <- <-]. split; [by apply consulted_same|by eapply home_decision].
  - assert (same_table w (consulted w st)) as Hst by (by apply consulted_same).
    destruct (live_scopes_same _ _ Hst) as [<- <-].
    destruct (_default_backend _ _ _ _ _) as [w1 [b|e]] eqn:Eb; [|done].
    apply (default_backend_ok _ route) in Eb as [Hs1 (dm & ->)]; [|by eapply composed_same].
    simpl. intros [= <- <-]. split; [by eapply same_table_trans|]. by exists dm.
Qed.

Lemma select_ok w route rq w' d : composed_route w model route -> rq_model rq = model -> draws_below_one w ->
  unpinned rq -> policy_select_backend w (live_policy o model) rq = (w', Ok d) -> same_table w w' /\ decision_ok w d.
Proof.
  intros C Hm Hd Hpin. unfold policy_select_backend. rewrite Hpin.
  destruct (truthy (rq_options rq ≫= opt_preferred_endpoint_id)) as [e|] eqn:Ee; [|by apply (draw_ok w route)].
  unfold _domain_for_endpoint. rewrite Hm. destruct (ask_eligible w model) as [w1 re] eqn:Ea.
  destruct (ask_eligible_spec model w route C w1 re Ea) as [Hs Hl]. destruct re as [l|x]; [|done]. simpl.
  destruct (find _ l) as [x|] eqn:Ef; simpl.
  - apply find_some in Ef as [Hx%list_elem_of_In He%bool_decide_eq_true].
    assert (x.1 ∈ (fst <$> adapters route)) as Hx' by (by apply (Hl l)).
    unfold make_target. simpl truthy. rewrite <- He.
    rewrite decide_False by (by apply (endpoint_nonempty model w route C)). simpl.
    intros [= <- <-]. split; [done|by eapply home_decision].
  - destruct (live_scopes_same _ _ Hs) as [<- <-].
    intros E. apply (draw_ok w1 route) in E as [Hs1 (dm & Eb & Ht)].
    + split; [by eapply same_table_trans|]. exists dm. split; [done|]. intros y Hy.
      rewrite <- (scopes_same o model _ _ dm Hs). by apply Ht.
    + by eapply composed_same.
    + done.
    + unfold draws_below_one. by destruct Hs as (_ & _ & -> & _).
Qed.

Lemma in_turn_same w w' route n l : same_table w w' -> same_gates w w' ->
  in_turn w' model route n l = in_turn w model route n l.
Proof. intros (E1 & _ & E3 & _) Hg. unfold in_turn. by rewrite E1, E3, (open_routes_same _ _ _ _ Hg). Qed.

(** The policy asks circuits and claims none: none answers differently afterwards. *)
Lemma select_gates c st q t :
  same_answers (health_registry st) (health_registry (_select_adapter c st q t).1).
Proof.
  unfold _select_adapter. destruct (usable_route _ _) as [rt|]; [|done].
  destruct (candidates _ _ _ _) as [[l filtered]|e]; [|done]. destruct (truthy _); [done|]. unfold select_among.
  pose proof (gates_spec (health_registry st) (gate_at t) (exclude q) 0 l) as Hg.
  destruct (gates _ _ _ _ l) as [[r allowed] refused]. destruct Hg as [Hg _]. unfold _record_affinity.
  repeat case_match; by simplify_eq/=.
Qed.

Lemma ask_gates w route : composed_route w model route -> same_gates w (ask_eligible w model).1.
Proof. intros C. by destruct (ask_eligible_order model w route C) as (? & w' & _ & _ & _ & Hg & ->). Qed.

Lemma same_gates_trans w w' w'' : same_gates w w' -> same_gates w' w'' -> same_gates w w''.
Proof. intros H1 H2 e id. by rewrite H2, H1. Qed.

Lemma draw_gates w route rq local cloud : composed_route w model route -> rq_model rq = model ->
  same_gates w (draw_backend w (live_policy o model) rq local cloud).1.
Proof.
  intros C Hm. unfold draw_backend, select_adapter. set (q := Selection _ _ _ _ _ _ _ _ _ _).
  set (q' := q <| pin_provider := None |> <| exclude := ∅ |> <| require_target := false |> <| fingerprint := None |>).
  pose proof (select_gates (w_config w) (w_router w) q' (o_select (w_oracle w) (w_tick w))) as Hs.
  pose proof (select_routes (w_config w) (w_router w) q' (o_select (w_oracle w) (w_tick w))) as Hr.
  destruct (_select_adapter _ _ _ _) as [st [[a|]|e]]; simpl in Hs, Hr; [done| |done].
  unfold _default_backend, _domain_serves. rewrite Hm.
  pose proof (ask_gates (consulted w st) route (composed_same _ _ _ _ (consulted_same w st Hr) C)) as Ha.
  destruct (ask_eligible (consulted w st) model) as [w1 re]. simpl in Ha.
  destruct (match _ with Some s => bool_decide (s = ∅) | None => false end); [done|].
  by apply (same_gates_trans w (consulted w st)).
Qed.

Lemma policy_select_gates w route rq : composed_route w model route -> rq_model rq = model -> unpinned rq ->
  same_gates w (policy_select_backend w (live_policy o model) rq).1.
Proof.
  intros C Hm Hpin. unfold policy_select_backend. rewrite Hpin.
  destruct (truthy (rq_options rq ≫= opt_preferred_endpoint_id)) as [e|]; [|by apply (draw_gates w route)].
  unfold _domain_for_endpoint. rewrite Hm. pose proof (ask_gates w route C) as Ha.
  destruct (ask_eligible w model) as [w1 re] eqn:Ea. destruct (ask_eligible_spec model w route C w1 re Ea) as [Hs _].
  simpl in Ha. destruct re as [l|x]; [|done]. simpl. destruct (find _ l); simpl; [done|].
  apply (same_gates_trans w w1); [done|]. apply (draw_gates w1 route); [by eapply composed_same|done].
Qed.

(** An attempt of a composed plan: a domain, and an endpoint of it if any. *)
Definition attempt_ok (w : world) (a : planned) : Prop :=
  exists dm, pl_backend a = domain_name dm /\
    match pl_endpoint_id a with
    | Some e => e ∈ domain_scope o model dm w
    | None => pl_exact a = false
    end.

Definition composed_pools (w : world) (h : hybrid pool fixed_policy) : Prop :=
  h_policy h = live_policy o model /\
  h_backends h = [("local"%string, domain_pool o model LocalDomain w); ("cloud"%string, domain_pool o model CloudDomain w)].

(** What an attempt of a composed plan is dispatched with: it is never refused as a
    mismatch; its range stays inside its domain and the caller's grant, and the
    endpoint it names is bound to an adapter of the route. *)
Definition dispatched_inside (w : world) (route : route_config) (rq : request) (a : planned) (c : call) : Prop :=
  call_attempt c = a /\
  (exists dm s, pl_backend a = domain_name dm /\ opt_endpoint_scope (call_options c) = Some s /\
     s ⊆ domain_scope o model dm w /\
     forall i, rq_options rq ≫= opt_endpoint_scope = Some i -> s ⊆ pool_scope_endpoints w i None) /\
  opt_require_target (call_options c) = pl_exact a /\ opt_allow_fallback (call_options c) = pl_domain_fallback a /\
  opt_preferred_endpoint_id (call_options c) = pl_endpoint_id a /\
  forall e, pl_endpoint_id a = Some e ->
    exists b, opt_bound_endpoint (call_options c) = Some b /\ bd_endpoint_id b = e /\
      endpoint_id_for_adapter (bd_adapter b) = e /\ bd_adapter b ∈ (fst <$> adapters route).

Lemma prepare_composed w route h rq d i a : composed_route w model route -> composed_pools w h ->
  rq_model rq = model -> attempt_ok w a -> exists c, prepare w h rq d i a = Ok c /\ dispatched_inside w route rq a c.
Proof.
  intros C [Hp Hb] Hm (dm & Ea & He). unfold prepare. rewrite Ea, Hm, (find_pool o model w h Hb dm).
  destruct (attempt_scope_inside o model w route C dm (rq_options rq ≫= opt_endpoint_scope)) as (s & Es & Hs & Hi).
  assert (exists bd, _binding_for_attempt w (domain_pool o model dm w) model a = Ok bd /\
    (pl_endpoint_id a = None -> bd = None) /\
    forall e, pl_endpoint_id a = Some e -> exists b, bd = Some b /\ bd_endpoint_id b = e /\
      endpoint_id_for_adapter (bd_adapter b) = e /\ bd_adapter b ∈ (fst <$> adapters route) /\
      bd_model_id b = model /\ bd_pool_id b = Some (domain_name dm)) as (bd & -> & Hnone & Hsome).
  { unfold _binding_for_attempt. destruct (pl_endpoint_id a) as [e|].
    - destruct (pool_binds o model w route C dm e He) as (b & Hb1 & Hb2). exists (Some b). split; [done|].
      split; [done|]. intros e' [= <-]. by exists b.
    - exists None. split; [done|]. split; [done|]. by intros e. }
  simpl. assert (exists ins, dispatch_for_attempt (backend_pool_id (domain_pool o model dm w)) bd (pl_exact a) = Ok ins /\
    pool_check_instruction w (domain_pool o model dm w) ins model = Ok tt) as (ins & -> & Hins).
  { unfold dispatch_for_attempt. destruct (pl_exact a) eqn:Ex.
    - destruct (pl_endpoint_id a) as [e|]; [|done].
      destruct (Hsome e eq_refl) as (b & -> & B1 & B2 & B3 & B4 & B5). rewrite B5. eexists. split; [done|].
      apply (pool_accepts o model w route C). by rewrite B1.
    - assert (backend_pool_id (domain_pool o model dm w) = domain_name dm) as -> by (by destruct dm).
      rewrite decide_False by (by destruct dm). eexists. split; [done|]. by apply (pool_accepts o model w route C). }
  simpl. rewrite Hins. simpl. eexists. split; [done|]. unfold dispatched_inside, _attempt_options. simpl.
  split_and!; try done.
  - exists dm, s. by rewrite Es.
  - intros e Hpe. destruct (Hsome e Hpe) as (b & -> & ? & ? & ? & _). by exists b.
Qed.

Lemma composed_pools_same w w' h : same_table w w' -> composed_pools w h -> composed_pools w' h.
Proof.
  intros Hs [Hp Hb]. split; [done|]. by rewrite !(domain_pool_same o model w w' _ Hs).
Qed.

Lemma home_same w w' e : same_table w w' -> home o model w' e = home o model w e.
Proof. intros Hs. unfold home. by destruct (live_scopes_same _ _ Hs) as [-> _]. Qed.

(** The plan made of a decision. *)
Lemma attempt_plan_composed w route h rq d w' r : composed_route w model route -> composed_pools w h ->
  rq_model rq = model -> unpinned rq -> decision_ok w d -> _attempt_plan w h rq d = (w', r) ->
  let target := decision_target d ≫= target_endpoint_id in
  exists re, ask_eligible w model = (w', re) /\ same_table w w' /\
    r = match re with
        | Raise e => Raise e
        | Ok l => Ok (Planned (decision_backend d) target false false ::
                      (planned_for o model w <$> filter (next_candidate rq target) (fst <$> l)))
        end /\
    (forall l, re = Ok l -> forall a, a ∈ (fst <$> l) -> a ∈ (fst <$> adapters route)).
Proof.
  intros C Hh Hm Hpin (dm & Ed & Ht) E target. pose proof Hh as [Hp Hb]. unfold _attempt_plan in E.
  rewrite Ed, (find_pool o model w h Hb dm), Hm in E.
  rewrite (resolved_composed o model w route C) in E by (intros x Hx; destruct (Ht x Hx) as (e & ? & ? & _); eauto).
  assert ((e ← decision_target d ≫= target_endpoint_id; if decide (e ∈ domain_scope o model dm w) then Some e else None)
    = target) as Htar.
  { unfold target. destruct (decision_target d) as [x|]; [|done]. destruct (Ht x eq_refl) as (e & -> & _ & He). simpl.
    by rewrite decide_True. }
  rewrite Htar in E. unfold _requested_fallbacks in E. rewrite Hp in E. cbn [fallback_attempts fixed_selection] in E.
  destruct (fallback_attempts_composed o model w route C rq d Hpin Hm) as (w2 & re & Ea & Hs & Ef & Hl).
  rewrite Ef in E. exists re. destruct re as [l|e]; [|by injection E as <- <-]. fold target in E.
  set (cands := filter (next_candidate rq target) (fst <$> l)) in *.
  assert (forall a, a ∈ cands -> a ∈ (fst <$> adapters route) /\ Some (endpoint_id_for_adapter a) <> target) as Hc.
  { intros a Ha. apply list_elem_of_filter in Ha as [Hn Ha]. split; [by apply (Hl l)|].
    apply Is_true_true, andb_true_iff in Hn as [_ Hn]. apply negb_true_iff, bool_decide_eq_false in Hn. done. }
  assert (forall l0 : list adapter, (fun a : fallback_attempt => (fb_backend a, fb_target a)) <$> filter (fun a => fb_backend a ∈ (h_backends h).*1)
    ((fun a => FallbackAttempt (domain_name (home o model w (endpoint_id_for_adapter a)))
       (Some (RoutingTarget None (Some (endpoint_id_for_adapter a))))) <$> l0) =
    (fun a => (domain_name (home o model w (endpoint_id_for_adapter a)),
               Some (RoutingTarget None (Some (endpoint_id_for_adapter a))))) <$> l0) as Hreq.
  { assert (forall dm, domain_name dm ∈ (h_backends h).*1) as Hn by (rewrite Hb; intros []; set_solver).
    induction l0 as [|a l0 IH]; [done|]. rewrite !fmap_cons, filter_cons_True by apply Hn.
    rewrite fmap_cons. by rewrite IH. }
  rewrite Hreq in E.
  assert ((fun a => (domain_name (home o model w (endpoint_id_for_adapter a)),
               Some (RoutingTarget None (Some (endpoint_id_for_adapter a))))) <$> cands =
          (fun a => (domain_name (home o model w2 (endpoint_id_for_adapter a)),
               Some (RoutingTarget None (Some (endpoint_id_for_adapter a))))) <$> cands) as Hw
    by (apply list_fmap_ext; intros i a _; by rewrite (home_same w w2 _ Hs)).
  rewrite Hw in E.
  rewrite (plan_loop_composed o model w2 route (composed_same _ _ _ _ Hs C) h Hp (proj2 (composed_pools_same _ _ _ Hs Hh)))
    in E by (intros a Ha; by apply Hc).
  injection E as <- <-. split_and!; try done. rewrite Ed. do 2 f_equal.
  apply list_fmap_ext. intros i a _. unfold planned_for. by rewrite (home_same w w2 _ Hs).
Qed.

(** C7: a composed model is tried in the order of its route.  Take a model composed of
    a local and a cloud domain whose table has not changed since the domains were
    derived, each of whose adapters declares an endpoint id that no provider of the
    table has for its name.  When an unpinned request gets a plan, the plan is the
    decision's own endpoint followed by every other adapter of the route that has a
    positive effective weight, a circuit that admits a request and support for the
    request's media, in the order the route lists its adapters, local and cloud
    interleaved as registered, except that the model's offload route, if it is one of
    them, comes last: none is dropped and none is added by the split.  Every attempt is
    made in the one domain that owns its endpoint, passes the dispatch check, is bound
    to an adapter of the route at that endpoint, and can reach nothing outside that
    domain nor outside the caller's grant. *)
Theorem composed_plan_is_route_order w0 h0 ds w route rq w1 h1 d plan preferred :
  build o None w0 model = Some h0 -> same_table w0 w -> composed_route w model route -> draws_below_one w ->
  rq_model rq = model -> unpinned rq ->
  plan_request w (with_decisions ds h0) rq = (w1, h1, Ok (d, plan, preferred)) ->
  exists n eff,
    _get_effective_adapters (w_config w) (o_loop (w_oracle w)) model route = Ok eff /\
    fst <$> eff = fst <$> adapters route /\
    preferred = decision_target d ≫= target_endpoint_id /\
    plan = Planned (decision_backend d) preferred false false ::
           (planned_for o model w <$> filter (next_candidate rq preferred) (fst <$> in_turn w model route n eff)) /\
    (forall a, a ∈ plan -> forall i w', same_table w w' ->
       exists c, prepare w' h1 rq d i a = Ok c /\ dispatched_inside w' route rq a c).
Proof.
  intros Hbuild Hs0 C Hd Hm Hpin. apply build_shape in Hbuild as (Hp0 & Hb0 & _).
  assert (composed_pools w (with_decisions ds h0)) as Hh by (by apply (composed_pools_same w0)).
  unfold plan_request, select_decision. change (h_policy (with_decisions ds h0)) with (h_policy h0). rewrite Hp0.
  cbn [select_backend fixed_selection].
  destruct (policy_select_backend w (live_policy o model) rq) as [w2 [d'|e]] eqn:Esel; [|done].
  destruct (select_ok w route rq w2 d' C Hm Hd Hpin Esel) as [Hs2 Hok].
  pose proof (policy_select_gates w route rq C Hm Hpin) as Hg2. rewrite Esel in Hg2. cbn beta iota zeta.
  case_bool_decide; [|done]. cbn beta iota zeta. set (h2 := _remember_backend_decision _ _ _ _ _ _ _).
  assert (h_policy h2 = h_policy h0 /\ h_backends h2 = h_backends h0) as [Ep Eb]
    by (unfold h2, _remember_backend_decision; by destruct (truthy (rq_id rq))).
  assert (forall w', same_table w w' -> composed_pools w' h2) as Hh2.
  { intros w' Hw. apply (composed_pools_same w0); [by eapply same_table_trans|]. split; [by rewrite Ep|by rewrite Eb]. }
  assert (decision_ok w2 d') as Hok2.
  { destruct Hok as (dm & ? & Ht). exists dm. split; [done|]. by rewrite (scopes_same o model _ _ dm Hs2). }
  destruct (_attempt_plan w2 h2 rq d') as [w3 r] eqn:Eplan.
  destruct (attempt_plan_composed w2 route h2 rq d' w3 r (composed_same _ _ _ _ Hs2 C) (Hh2 w2 Hs2) Hm Hpin Hok2 Eplan)
    as (re & Ea & Hs3 & -> & Hl).
  destruct (ask_eligible_order model w2 route (composed_same _ _ _ _ Hs2 C)) as (eff & w3' & Ee & Ef & _ & _ & Ea').
  rewrite Ea in Ea'. injection Ea' as <- ->. set (l := in_turn w2 model route (w_tick w2) eff) in *.
  assert (l = in_turn w model route (w_tick w2) eff) as El by (by apply in_turn_same).
  destruct Hok as (dm & Ed & Ht).
  assert (same_table w w3) as Hs23 by (by eapply same_table_trans).
  destruct (Hh2 w3 Hs23) as [_ Hb3]. rewrite Ed, (find_pool o model w3 h2 Hb3 dm), Hm.
  rewrite (resolved_composed o model w3 route (composed_same _ _ _ _ Hs23 C))
    by (intros x Hx; destruct (Ht x Hx) as (e & ? & ? & _); eauto).
  assert ((e ← decision_target d' ≫= target_endpoint_id; if decide (e ∈ domain_scope o model dm w3) then Some e else None)
    = decision_target d' ≫= target_endpoint_id) as Htar.
  { destruct (decision_target d') as [x|]; [|done]. destruct (Ht x eq_refl) as (e & -> & _ & He). simpl.
    rewrite decide_True; [done|]. by rewrite (scopes_same o model _ _ dm Hs23). }
  rewrite Htar. intros [= <- <- <- <- <-]. exists (w_tick w2), eff. rewrite <- El.
  destruct Hs2 as (E1 & E2 & E3 & E4). rewrite E1, E3 in Ee. assert (same_table w w2) as Hs2 by done.
  split_and!; try done.
  - rewrite Ed. f_equal. apply list_fmap_ext. intros i a _. unfold planned_for. by rewrite (home_same w w2 _ Hs2).
  - intros a Ha i w' Hw. apply prepare_composed; [by eapply composed_same|by apply Hh2|done|].
    apply elem_of_cons in Ha as [->|(a' & -> & Ha')%list_elem_of_fmap].
    + exists dm. split; [done|]. simpl. destruct (decision_target d') as [x|]; [|done].
      destruct (Ht x eq_refl) as (e & -> & _ & He). simpl. by rewrite (scopes_same o model _ _ dm Hw).
    + apply list_elem_of_filter in Ha' as [_ Ha']. pose proof (Hl l eq_refl a' Ha') as Hr.
      eexists. split; [reflexivity|]. simpl. rewrite (home_same w w2 _ Hs2), (scopes_same o model _ _ _ Hw).
      by apply (proj2 (home_spec o model w route C _ _ (route_registered model w route C a' Hr))).
Qed.

End composed_plan.

(** ** A composed model *)

Module SampleComposition.
Import SampleRoute.

Definition orc : oracle :=
  Oracle true (fun _ _ => Sample.at_time 1) (fun _ => reads_at 1 (1 # 8)) (fun _ _ => reads_at 1 (1 # 8)).
Definition w0 : world := World cfg router0 ["m"; "alias"]%string orc 0.
Definition local_east : ownership := LocalScope {["east"%string]}.
Definition rq : request := Request "m" None (Some "r"%string) 100 None.

Definition route0 : route_config := default (RouteConfig [] None None false "" false) (routes router0 !! "m"%string).

Lemma adapters0 : fst <$> adapters route0 = [0%nat; 1%nat].
Proof. vm_compute. reflexivity. Qed.
Lemma table0 : _adapters_in_router w0 None = [0%nat; 1%nat].
Proof. vm_compute. reflexivity. Qed.

Lemma composed0 : composed_route w0 "m" route0.
Proof.
  constructor.
  - done.
  - vm_compute. reflexivity.
  - set_solver.
  - vm_compute. reflexivity.
  - vm_compute. reflexivity.
  - intros raw Hr. vm_compute in Hr. injection Hr as <-. vm_compute. reflexivity.
  - intros key r Hr Hc. change (routes (w_router w0)) with (<["alias"%string := route0]> (<["m"%string := route0]> (∅ : gmap string route_config))) in Hr.
    apply lookup_insert_Some in Hr as [[_ <-]|[_ Hr]]; [done|].
    apply lookup_insert_Some in Hr as [[_ <-]|[_ Hr]]; [done|]. by rewrite lookup_empty in Hr.
  - eexists. vm_compute. reflexivity.
  - intros a Ha. rewrite adapters0, !elem_of_cons in Ha. destruct Ha as [->|[->|[]%elem_of_nil]]; vm_compute; reflexivity.
  - intros a b Ha Hb. rewrite table0, !elem_of_cons in Ha. rewrite adapters0, !elem_of_cons in Hb.
    destruct Ha as [->|[->|[]%elem_of_nil]], Hb as [->|[->|[]%elem_of_nil]]; vm_compute; discriminate.
Defined.
End SampleComposition.

Import SampleRoute SampleComposition.

(** The plan of the sample request. *)
Definition sample_plan : option (list planned) :=
  match build local_east None w0 "m" with
  | Some h => match (plan_request w0 h rq).2 with Ok (_, plan, _) => Some plan | Raise _ => None end
  | None => None
  end.

Lemma sample_plan_is :
  sample_plan = Some [Planned "local" (Some "east"%string) false false; Planned "cloud" (Some "west"%string) true false].
Proof. vm_compute. reflexivity. Qed.

Lemma composed_plan_is_route_order_witness :
  exists h w1 h1 d plan preferred, build local_east None w0 "m" = Some h /\
    plan_request w0 h rq = (w1, h1, Ok (d, plan, preferred)) /\
    plan = [Planned "local" (Some "east"%string) false false; Planned "cloud" (Some "west"%string) true false] /\
    forall a, a ∈ plan -> exists c, prepare w0 h1 rq d 0 a = Ok c /\
      dispatched_inside local_east "m" w0 route0 rq a c.
Proof.
  pose proof sample_plan_is as Es. unfold sample_plan in Es.
  destruct (build local_east None w0 "m") as [h|] eqn:Eb; [|discriminate Es].
  destruct (plan_request w0 h rq) as [[w1 h1] [[[d plan] preferred]|e]] eqn:Ep; [|discriminate Es].
  cbn [snd] in Es. exists h, w1, h1, d, plan, preferred.
  assert (with_decisions [] h = h) as Eh.
  { destruct (build_shape local_east "m" w0 h Eb) as (_ & _ & E & _). destruct h. cbn in E. subst. reflexivity. }
  assert (draws_below_one w0) as Hd by (intros n; split; apply Qle_bool_iff; reflexivity).
  assert (plan_request w0 (with_decisions [] h) rq = (w1, h1, Ok (d, plan, preferred))) as Ep' by (rewrite Eh; exact Ep).
  destruct (composed_plan_is_route_order local_east "m" w0 h [] w0 route0 rq w1 h1 d plan preferred Eb
    (same_table_refl w0) composed0 Hd eq_refl eq_refl Ep') as (n & eff & _ & _ & _ & _ & Hprep).
  split; [reflexivity|]. split; [exact Ep|]. split; [by injection Es as ->|].
  intros a Ha. apply Hprep; [exact Ha|apply same_table_refl].
Defined.
